(** * Late GC-frame lowering (llvm-late-gc-lowering.cpp): a shallow embedding

    The development follows the phases of the pass: numbering of tracked
    pointers, the local scan of every basic block, the liveness / rootedness
    dataflow, the computation of the per-safepoint live sets and of the
    interference graph, the colouring of the roots, the placement of the GC
    frame and the final clean-up of the IR.

    Conventions.
    - A C++ [int] is a [Z] (signed overflow is undefined and is not modelled);
      an [unsigned] is a [Z] in [0, 2^32) whose arithmetic wraps.
    - [Value*], [Instruction*] and [BasicBlock*] are addresses: natural
      numbers naming entries of the function's value table.
    - [std::map] is a [gmap]; [std::vector] is a [list]; [llvm::BitVector] is
      a [list bool] whose length is the size of the bit vector.
    - [assert] is modelled as it behaves in a build with assertions: a
      failing assertion aborts with its message. *)

From stdpp Require Import gmap strings list fin_maps.
From Stdlib Require Import ZArith Lia.

Open Scope Z_scope.
Set Warnings "-register-all,-clear-no-such-hyp".

(** ** Results of fallible code *)

Inductive Res (A : Type) : Type :=
| Ok (a : A)
| Abort (msg : string)     (* a failed assertion, abort() or an uncaught exception *)
| OutOfFuel.               (* the bound given to a loop of the model was too small *)
Arguments Ok {A} a.
Arguments Abort {A} msg.
Arguments OutOfFuel {A}.

#[global] Instance Res_ret : MRet Res := fun A a => Ok a.
#[global] Instance Res_bind : MBind Res := fun A B k r =>
  match r with
  | Ok a => k a
  | Abort msg => Abort msg
  | OutOfFuel => OutOfFuel
  end.

Definition assert (b : bool) (msg : string) : Res unit :=
  if b then Ok tt else Abort msg.

(** Value of an [unsigned] obtained from an integer. *)
Definition UINT_MAX : Z := 2 ^ 32 - 1.
Definition to_unsigned (z : Z) : Z := z mod 2 ^ 32.

(** ** llvm::BitVector *)

Module BV.

Abbreviation BitVector := (list bool).

Definition empty : BitVector := [].

(** [BV[i]] read, for [i] within the size; [false] models the unset bit. *)
Definition test (bv : BitVector) (i : nat) : bool := default false (bv !! i).

(** [BV[i] = b].  LLVM asserts [i < size()]; out of range nothing is
    written. *)
Definition assign (bv : BitVector) (i : Z) (b : bool) : BitVector :=
  if 0 <=? i then <[Z.to_nat i := b]> bv else bv.

(** [resize(n)]: new bits are unset. *)
Definition resize (n : nat) (bv : BitVector) : BitVector := list.resize n false bv.

(** [reset()]: clears every bit, the size stays. *)
Definition reset (bv : BitVector) : BitVector := replicate (length bv) false.

(** [a |= b]: [a] is first grown to the size of [b] when smaller. *)
Definition or (a b : BitVector) : BitVector :=
  (fun i => test a i || test b i) <$> seq 0 (Nat.max (length a) (length b)).

(** [a &= b]: the size of [a] stays, bits beyond the size of [b] are cleared. *)
Definition and (a b : BitVector) : BitVector :=
  (fun i => test a i && test b i) <$> seq 0 (length a).

(** [flip()]: toggles every bit within the size. *)
Definition flip (bv : BitVector) : BitVector := negb <$> bv.

(** [a == b]: same set bits; sizes are not compared. *)
Definition eqb (a b : BitVector) : bool :=
  forallb (fun i => Bool.eqb (test a i) (test b i))
          (seq 0 (Nat.max (length a) (length b))).

(** The indices visited by
    [for (Idx = find_first(); Idx >= 0; Idx = find_next(Idx))]
    when the body leaves the vector alone. *)
Definition bits (bv : BitVector) : list nat :=
  filter (fun i => test bv i = true) (seq 0 (length bv)).

(** [find_first()], [-1] when no bit is set. *)
Definition find_first (bv : BitVector) : Z :=
  match bits bv with
  | [] => -1
  | i :: _ => Z.of_nat i
  end.

Definition count (bv : BitVector) : nat := length (bits bv).

End BV.

Abbreviation BitVector := (list bool).

(** [HasBitSet(BV, Bit)]: [Bit < BV.size() && BV[Bit]].  The parameter is
    unsigned: a negative integer argument becomes a value of at least 2^31,
    beyond the size of every bit vector. *)
Definition HasBitSet (bv : BitVector) (Bit : Z) : bool :=
  (0 <=? Bit) && BV.test bv (Z.to_nat Bit).

(** ** The IR the pass reads and rewrites *)

Definition Value := nat.
Definition BasicBlock := nat.

Inductive Ty : Type :=
| PointerTy (elt : Ty) (AS : Z)
| VectorTy (elt : Ty) (n : nat)
| StructTy (elts : list Ty)
| IntegerTy (bits : nat)
| FunctionTy (ret : Ty) (params : list Ty)
| NamedTy (name : string)
| VoidTy.

Fixpoint Ty_eqb (a b : Ty) {struct a} : bool :=
  let fix all_eqb (xs ys : list Ty) {struct xs} : bool :=
    match xs, ys with
    | [], [] => true
    | x :: xs', y :: ys' => Ty_eqb x y && all_eqb xs' ys'
    | _, _ => false
    end in
  match a, b with
  | PointerTy e1 a1, PointerTy e2 a2 => Ty_eqb e1 e2 && (a1 =? a2)
  | VectorTy e1 n1, VectorTy e2 n2 => Ty_eqb e1 e2 && (n1 =? n2)%nat
  | StructTy l1, StructTy l2 => all_eqb l1 l2
  | IntegerTy w1, IntegerTy w2 => (w1 =? w2)%nat
  | FunctionTy r1 p1, FunctionTy r2 p2 => Ty_eqb r1 r2 && all_eqb p1 p2
  | NamedTy n1, NamedTy n2 => String.eqb n1 n2
  | VoidTy, VoidTy => true
  | _, _ => false
  end.

Inductive CallingConv := C_CC | JLCALL_CC | JLCALL_F_CC | Other_CC (id : nat).

Definition CallingConv_eqb (a b : CallingConv) : bool :=
  match a, b with
  | C_CC, C_CC | JLCALL_CC, JLCALL_CC | JLCALL_F_CC, JLCALL_F_CC => true
  | Other_CC x, Other_CC y => (x =? y)%nat
  | _, _ => false
  end.

(** What a [Value*] points to.  Operands are values.  [BranchInst] stands
    for every terminator other than a return (br, switch, unreachable, ...)
    and lists the blocks it may branch to. *)
Inductive ValueKind : Type :=
| Argument
| ConstantInt (n : Z)
| ConstantPointerNull
| GlobalFunction (name : string)
| OtherConstant
| LoadInst (ptr : Value) (tbaa : list string)
| StoreInst (val ptr : Value)
| CallInst (callee : Value) (args : list Value) (bundles : list Value)
           (CC : CallingConv) (returns_twice : bool)
| SelectInst (cond tval fval : Value)
| PHINode (incoming : list (Value * BasicBlock))
| BitCastInst (op : Value)
| AddrSpaceCastInst (op : Value)
| GetElementPtrInst (ptr : Value) (idx : list Value)
| ExtractValueInst (agg : Value) (idx : list nat)
| ExtractElementInst (vec idx : Value)
| PtrToIntInst (op : Value)
| AllocaInst (allocated : Ty) (count : Value)
| ReturnInst (ret : option Value)
| BranchInst (succs : list BasicBlock) (ops : list Value)
| ShuffleVectorInst (v1 v2 mask : Value)
| InsertElementInst (vec elt idx : Value)
| OtherInst (ops : list Value).

Record ValueInfo := mkValue { kind : ValueKind; type : Ty }.

(** A function: the table of the values it refers to, the layout of its
    blocks (the first one is the entry block), and the next free address. *)
Record Function := mkFunction {
  values : gmap Value ValueInfo;
  blocks : list (BasicBlock * list Value);
  next_value : Value;
}.

Definition getKind (F : Function) (V : Value) : ValueKind :=
  match values F !! V with
  | Some vi => kind vi
  | None => OtherInst []
  end.

Definition getType (F : Function) (V : Value) : Ty :=
  match values F !! V with
  | Some vi => type vi
  | None => VoidTy
  end.

Definition getInsts (F : Function) (BB : BasicBlock) : list Value :=
  match list_find (fun b => b.1 = BB) (blocks F) with
  | Some (_, b) => b.2
  | None => []
  end.

(** [I->getParent()] *)
Definition getParent (F : Function) (I : Value) : option BasicBlock :=
  match list_find (fun b => I ∈ b.2) (blocks F) with
  | Some (_, b) => Some b.1
  | None => None
  end.

Definition isTerminator (k : ValueKind) : bool :=
  match k with
  | ReturnInst _ | BranchInst _ _ => true
  | _ => false
  end.

(** [BB->getTerminator()]: the last instruction when it is a terminator. *)
Definition getTerminator (F : Function) (BB : BasicBlock) : option Value :=
  match last (getInsts F BB) with
  | Some T => if isTerminator (getKind F T) then Some T else None
  | None => None
  end.

Definition successors (F : Function) (BB : BasicBlock) : list BasicBlock :=
  match getTerminator F BB with
  | Some T => match getKind F T with
              | BranchInst succs _ => succs
              | _ => []
              end
  | None => []
  end.

(** One entry per edge into [BB]. *)
Definition predecessors (F : Function) (BB : BasicBlock) : list BasicBlock :=
  b ← blocks F; filter (fun succ => succ = BB) (successors F b.1) ≫= fun _ => [b.1].

Definition getEntryBlock (F : Function) : BasicBlock :=
  match blocks F with
  | b :: _ => b.1
  | [] => 0%nat
  end.

(** Depth-first post-order from the entry block, as llvm::po_iterator walks
    it: a block is marked when first reached and listed once all its
    successors are done. *)
Fixpoint po_visit (fuel : nat) (F : Function) (BB : BasicBlock)
    (acc : list BasicBlock * list BasicBlock) : list BasicBlock * list BasicBlock :=
  match fuel with
  | O => acc
  | S fuel' =>
      let '(visited, order) :=
        foldl (fun a Succ =>
                 if bool_decide (Succ ∈ a.1) then a
                 else po_visit fuel' F Succ (Succ :: a.1, a.2))
              acc (successors F BB) in
      (visited, order ++ [BB])
  end.

Definition PostOrder (F : Function) : list BasicBlock :=
  (po_visit (S (length (blocks F))) F (getEntryBlock F) ([getEntryBlock F], [])).2.

Definition ReversePostOrderTraversal (F : Function) : list BasicBlock :=
  rev (PostOrder F).

(** ** The state of the analysis *)

Record BBState := mkBBState {
  (* These do not get updated after local analysis *)
  Defs : BitVector;
  PhiOuts : BitVector;
  UpExposedUsesUnrooted : BitVector;
  UpExposedUses : BitVector;
  DownExposedUnrooted : BitVector;
  (* These get updated during dataflow *)
  LiveIn : BitVector;
  LiveOut : BitVector;
  UnrootedIn : BitVector;
  UnrootedOut : BitVector;
  Safepoints : list Z;
  TopmostSafepoint : Z;
  HasSafepoint : bool;
  Done : bool;
}.

Definition BBState_init : BBState :=
  mkBBState [] [] [] [] [] [] [] [] [] [] (-1) false false.

Record State := mkState {
  MaxPtrNumber : Z;
  MaxSafepointNumber : Z;
  AllPtrNumbering : gmap Value Z;
  AllVectorNumbering : gmap Value (list Z);
  PtrNumbering : gmap Value Z;
  ReversePtrNumbering : gmap Z Value;
  Neighbors : list (list Z);
  BBStates : gmap BasicBlock BBState;
  LoadRefinements : gmap Z Z;
  SafepointNumbering : gmap Value Z;
  ReverseSafepointNumbering : list Value;
  ReturnsTwice : list Value;
  LiveSets : list BitVector;
  LiveIfLiveOut : list (list Z);
  Allocas : list Value;
}.

Definition State_init : State :=
  mkState (-1) (-1) ∅ ∅ ∅ ∅ [] ∅ ∅ ∅ [] [] [] [] [].

(** [S.BBStates[BB]] read: std::map's operator[] yields a default-constructed
    state for a block that has none yet. *)
Definition getBBS (S : State) (BB : BasicBlock) : BBState :=
  default BBState_init (BBStates S !! BB).

Definition setBBS (S : State) (BB : BasicBlock) (BBS : BBState) : State :=
  mkState (MaxPtrNumber S) (MaxSafepointNumber S) (AllPtrNumbering S)
          (AllVectorNumbering S) (PtrNumbering S) (ReversePtrNumbering S)
          (Neighbors S) (<[BB := BBS]> (BBStates S)) (LoadRefinements S)
          (SafepointNumbering S) (ReverseSafepointNumbering S) (ReturnsTwice S)
          (LiveSets S) (LiveIfLiveOut S) (Allocas S).

Definition setLiveSets (S : State) (LS : list BitVector) : State :=
  mkState (MaxPtrNumber S) (MaxSafepointNumber S) (AllPtrNumbering S)
          (AllVectorNumbering S) (PtrNumbering S) (ReversePtrNumbering S)
          (Neighbors S) (BBStates S) (LoadRefinements S)
          (SafepointNumbering S) (ReverseSafepointNumbering S) (ReturnsTwice S)
          LS (LiveIfLiveOut S) (Allocas S).

Definition setNeighbors (S : State) (N : list (list Z)) : State :=
  mkState (MaxPtrNumber S) (MaxSafepointNumber S) (AllPtrNumbering S)
          (AllVectorNumbering S) (PtrNumbering S) (ReversePtrNumbering S)
          N (BBStates S) (LoadRefinements S)
          (SafepointNumbering S) (ReverseSafepointNumbering S) (ReturnsTwice S)
          (LiveSets S) (LiveIfLiveOut S) (Allocas S).

(** [MaybeResize(BBS, Idx)], [Idx] unsigned. *)
Definition MaybeResize (BBS : BBState) (Idx : Z) : BBState :=
  if Z.of_nat (length (Defs BBS)) <=? Idx then
    let n := Z.to_nat (to_unsigned (Idx + 1)) in
    mkBBState (BV.resize n (Defs BBS)) (BV.resize n (PhiOuts BBS))
              (BV.resize n (UpExposedUsesUnrooted BBS))
              (BV.resize n (UpExposedUses BBS))
              (BV.resize n (DownExposedUnrooted BBS))
              (LiveIn BBS) (LiveOut BBS) (UnrootedIn BBS) (UnrootedOut BBS)
              (Safepoints BBS) (TopmostSafepoint BBS) (HasSafepoint BBS) (Done BBS)
  else BBS.

(** ** Dataflow (ComputeLiveness) *)

Definition setLiveOut (BBS : BBState) (bv : BitVector) : BBState :=
  mkBBState (Defs BBS) (PhiOuts BBS) (UpExposedUsesUnrooted BBS) (UpExposedUses BBS)
            (DownExposedUnrooted BBS) (LiveIn BBS) bv (UnrootedIn BBS) (UnrootedOut BBS)
            (Safepoints BBS) (TopmostSafepoint BBS) (HasSafepoint BBS) (Done BBS).

Definition setLiveIn (BBS : BBState) (bv : BitVector) : BBState :=
  mkBBState (Defs BBS) (PhiOuts BBS) (UpExposedUsesUnrooted BBS) (UpExposedUses BBS)
            (DownExposedUnrooted BBS) bv (LiveOut BBS) (UnrootedIn BBS) (UnrootedOut BBS)
            (Safepoints BBS) (TopmostSafepoint BBS) (HasSafepoint BBS) (Done BBS).

Definition setUnrootedIn (BBS : BBState) (bv : BitVector) : BBState :=
  mkBBState (Defs BBS) (PhiOuts BBS) (UpExposedUsesUnrooted BBS) (UpExposedUses BBS)
            (DownExposedUnrooted BBS) (LiveIn BBS) (LiveOut BBS) bv (UnrootedOut BBS)
            (Safepoints BBS) (TopmostSafepoint BBS) (HasSafepoint BBS) (Done BBS).

Definition setUnrootedOut (BBS : BBState) (bv : BitVector) : BBState :=
  mkBBState (Defs BBS) (PhiOuts BBS) (UpExposedUsesUnrooted BBS) (UpExposedUses BBS)
            (DownExposedUnrooted BBS) (LiveIn BBS) (LiveOut BBS) (UnrootedIn BBS) bv
            (Safepoints BBS) (TopmostSafepoint BBS) (HasSafepoint BBS) (Done BBS).

(** The three updates of one block, in the order of the loop body.  Each
    returns the new state of the block and whether it changed. *)
Definition NewLiveOut (F : Function) (S : State) (BB : BasicBlock) : BitVector :=
  foldl (fun acc Succ => BV.or acc (LiveIn (getBBS S Succ)))
        (PhiOuts (getBBS S BB)) (successors F BB).

Definition NewLiveIn (BBS : BBState) : BitVector :=
  BV.or (BV.or (BV.and (LiveOut BBS) (BV.flip (Defs BBS))) (UpExposedUses BBS))
        (UpExposedUsesUnrooted BBS).

Definition NewUnrootedIn (F : Function) (S : State) (BB : BasicBlock) : BitVector :=
  foldl (fun acc Pred => BV.or acc (UnrootedOut (getBBS S Pred)))
        BV.empty (predecessors F BB).

Definition update_LiveOut (F : Function) (S : State) (BB : BasicBlock) : State * bool :=
  let BBS := getBBS S BB in
  let New := NewLiveOut F S BB in
  if negb (BV.eqb New (LiveOut BBS)) then
    let BBS1 := setLiveOut BBS New in
    (setBBS S BB (MaybeResize BBS1 (to_unsigned (Z.of_nat (length New) - 1))), true)
  else (S, false).

Definition update_LiveIn (S : State) (BB : BasicBlock) : State * bool :=
  let BBS := getBBS S BB in
  let New := NewLiveIn BBS in
  if negb (BV.eqb New (LiveIn BBS)) then (setBBS S BB (setLiveIn BBS New), true)
  else (S, false).

Definition update_Unrooted (F : Function) (S : State) (BB : BasicBlock) : State * bool :=
  let BBS := getBBS S BB in
  let New := NewUnrootedIn F S BB in
  if negb (BV.eqb New (UnrootedIn BBS)) then
    let BBS1 := setUnrootedIn BBS New in
    let BBS2 := if HasSafepoint BBS1 then BBS1
                else setUnrootedOut BBS1 (BV.or (UnrootedOut BBS1) (UnrootedIn BBS1)) in
    (setBBS S BB BBS2, true)
  else (S, false).

Definition dataflow_block (F : Function) (a : State * bool) (BB : BasicBlock) : State * bool :=
  let '(S1, c1) := update_LiveOut F a.1 BB in
  let '(S2, c2) := update_LiveIn S1 BB in
  let '(S3, c3) := update_Unrooted F S2 BB in
  (S3, a.2 || c1 || c2 || c3).

(** One trip through [for (BasicBlock *BB : RPOT)], with [AnyChanged]. *)
Definition dataflow_pass (F : Function) (S : State) : State * bool :=
  foldl (dataflow_block F) (S, false) (ReversePostOrderTraversal F).

(** [while (!Converged)], bounded by [fuel] passes. *)
Fixpoint dataflow_loop (fuel : nat) (F : Function) (S : State) : Res State :=
  match fuel with
  | O => OutOfFuel
  | Datatypes.S fuel' =>
      let '(S', AnyChanged) := dataflow_pass F S in
      if AnyChanged then dataflow_loop fuel' F S' else Ok S'
  end.

(** ** Live sets and interference graph (ComputeLiveSets) *)

(** One turn of the refinement loop, at index [Idx]: the loop body runs only
    for the bits that are set when the scan reaches them. *)
Definition refine_step (Refinements : gmap Z Z) (LS : BitVector) (Idx : nat) : BitVector :=
  if BV.test LS Idx then
    match Refinements !! Z.of_nat Idx with
    | None => LS
    | Some RefinedPtr =>
        if (RefinedPtr =? -1) || HasBitSet LS RefinedPtr
        then BV.assign LS (Z.of_nat Idx) false
        else LS
    end
  else LS.

Definition ApplyRefinements (Refinements : gmap Z Z) (LS : BitVector) : BitVector :=
  foldl (refine_step Refinements) LS (seq 0 (length LS)).

Definition AddLiveOuts (BBS : BBState) (LiveIfLiveOut_idx : list Z) (LS : BitVector) : BitVector :=
  foldl (fun LS Live => if HasBitSet (LiveOut BBS) Live then BV.assign LS Live true else LS)
        LS LiveIfLiveOut_idx.

(** The live set of a safepoint of block state [BBS] before refinements are
    applied. *)
Definition UnrefinedLiveSet (BBS : BBState) (LiveIfLiveOut_idx : list Z) (LS : BitVector)
    : BitVector :=
  let LiveAcross := BV.and (LiveIn BBS) (LiveOut BBS) in
  AddLiveOuts BBS LiveIfLiveOut_idx (BV.or LS LiveAcross).

Definition FinalLiveSet (S : State) (BBS : BBState) (LiveIfLiveOut_idx : list Z)
    (LS : BitVector) : BitVector :=
  ApplyRefinements (LoadRefinements S) (UnrefinedLiveSet BBS LiveIfLiveOut_idx LS).

(** Body of the loop over [S.SafepointNumbering].  A safepoint that is in no
    block, or whose number is not an index of [S.LiveSets], cannot arise and
    is left alone. *)
Definition LiveSet_step (F : Function) (S : State) (it : Value * Z) : State :=
  let '(Safepoint, idx) := it in
  match getParent F Safepoint, LiveSets S !! Z.to_nat idx with
  | Some BB, Some LS =>
      let BBS := getBBS S BB in
      let LiveIfLiveOut_idx := default [] (LiveIfLiveOut S !! Z.to_nat idx) in
      setLiveSets S (<[Z.to_nat idx := FinalLiveSet S BBS LiveIfLiveOut_idx LS]> (LiveSets S))
  | _, _ => S
  end.

(** [Neighbors] of one identifier: every bit of every live set that holds
    [i], in increasing order. *)
Definition NeighborBits (S : State) (i : Z) : BitVector :=
  foldl (fun acc it =>
           let LS := default [] (LiveSets S !! Z.to_nat it.2) in
           if negb (Z.of_nat (length LS) <=? i) && BV.test LS (Z.to_nat i)
           then BV.or acc LS else acc)
        (BV.resize (Z.to_nat (MaxPtrNumber S)) BV.empty)
        (map_to_list (SafepointNumbering S)).

Definition InterferenceGraph (S : State) : list (list Z) :=
  (fun i : nat => Z.of_nat <$> BV.bits (NeighborBits S (Z.of_nat i)))
    <$> seq 0 (Z.to_nat (MaxPtrNumber S + 1)).

Definition ComputeLiveSets (F : Function) (S : State) : State :=
  let S1 := foldl (LiveSet_step F) S (map_to_list (SafepointNumbering S)) in
  setNeighbors S1 (Neighbors S1 ++ InterferenceGraph S1).

Definition ComputeLiveness (fuel : nat) (F : Function) (S : State) : Res State :=
  S' ← dataflow_loop fuel F S;
  mret (ComputeLiveSets F S').

(** ** Perfect elimination order (PEOIterator) *)

Record Element := mkElement { weight : Z; pos : Z }.

Record PEOIterator := mkPEO {
  Elements : list Element;
  Levels : list (list Z);
}.

Definition PEOIterator_init (Neighbors : list (list Z)) : PEOIterator :=
  let n := length Neighbors in
  mkPEO ((fun i : nat => mkElement 0 (Z.of_nat i)) <$> seq 0 n)
        [Z.of_nat <$> seq 0 n].

(** Inner loop of [next]: pops the back of the last level until a live entry
    comes off or the level is empty.  The level is given back to front. *)
Fixpoint pop_level (LastLevel_rev : list Z) : Z * list Z :=
  match LastLevel_rev with
  | [] => (-1, [])
  | x :: rest => if x =? -1 then pop_level rest else (x, rest)
  end.

(** Outer loop of [next]; the levels are given last level first. *)
Fixpoint pop_levels (Levels_rev : list (list Z)) : Z * list (list Z) :=
  match Levels_rev with
  | [] => (-1, [])
  | LastLevel :: rest =>
      let '(NextElement, LastLevel_rev) := pop_level (rev LastLevel) in
      if NextElement =? -1 then pop_levels rest
      else (NextElement,
            match LastLevel_rev with
            | [] => rest
            | _ => rev LastLevel_rev :: rest
            end)
  end.

Definition set_weight (E : list Element) (i : Z) (w : Z) : list Element :=
  alter (fun e => mkElement w (pos e)) (Z.to_nat i) E.

(** "Raise neighbors": the body of the loop over [Neighbors[NextElement]]. *)
Definition raise (NextElement : Z) (P : PEOIterator) (Neighbor : Z) : PEOIterator :=
  if Neighbor =? NextElement then P
  else
    match Elements P !! Z.to_nat Neighbor with
    | None => P
    | Some NElement =>
        if weight NElement =? UINT_MAX then P
        else
          (* Kill old queue position *)
          let L1 := alter (fun lvl => <[Z.to_nat (pos NElement) := -1]> lvl)
                          (Z.to_nat (weight NElement)) (Levels P) in
          (* Raise the neighbor to the next level *)
          let w := to_unsigned (weight NElement + 1) in
          let L2 := if Z.of_nat (length L1) <=? w then L1 ++ [[]] else L1 in
          let L3 := alter (fun lvl => lvl ++ [Neighbor]) (Z.to_nat w) L2 in
          let p := to_unsigned (Z.of_nat (length (default [] (L3 !! Z.to_nat w))) - 1) in
          mkPEO (<[Z.to_nat Neighbor := mkElement w p]> (Elements P)) L3
    end.

(** [Ordering.next()] *)
Definition PEO_next (Neighbors : list (list Z)) (P : PEOIterator) : Z * PEOIterator :=
  let '(NextElement, Levels_rev) := pop_levels (rev (Levels P)) in
  let P1 := mkPEO (Elements P) (rev Levels_rev) in
  if NextElement =? -1 then (NextElement, P1)
  else
    let P2 := mkPEO (set_weight (Elements P1) NextElement UINT_MAX) (Levels P1) in
    (NextElement,
     foldl (raise NextElement) P2 (default [] (Neighbors !! Z.to_nat NextElement))).

(** ** Colouring (ColorRoots) *)

(** [Colors[i]] read; [-1] also stands for an index outside the vector. *)
Definition getColor (Colors : list Z) (i : Z) : Z :=
  if 0 <=? i then default (-1) (Colors !! Z.to_nat i) else -1.

Definition setColor (Colors : list Z) (i : Z) (c : Z) : list Z :=
  if 0 <=? i then <[Z.to_nat i := c]> Colors else Colors.

(** First loop: permanent slots for what is live at a returns_twice call.
    The accumulator is [(Colors, PreAssignedColors)]. *)
Definition preassign_bit (a : list Z * Z) (Idx : nat) : list Z * Z :=
  if getColor a.1 (Z.of_nat Idx) =? -1
  then (setColor a.1 (Z.of_nat Idx) a.2, a.2 + 1)
  else a.

Definition preassign_call (S : State) (a : Res (list Z * Z)) (it : Value) : Res (list Z * Z) :=
  a ← a;
  match SafepointNumbering S !! it with
  | None => Abort "std::out_of_range"
  | Some Num =>
      let LS := default [] (LiveSets S !! Z.to_nat Num) in
      mret (foldl preassign_bit a (BV.bits LS))
  end.

Definition PreAssign (S : State) : Res (list Z * Z) :=
  foldl (preassign_call S)
        (Ok (replicate (Z.to_nat (MaxPtrNumber S + 1)) (-1), 0))
        (ReturnsTwice S).

(** Working state of the greedy loop. *)
Record Greedy := mkGreedy {
  Colors : list Z;
  MaxAssignedColor : Z;
  Ordering : PEOIterator;
}.

Definition mark_neighbor (Colors : list Z) (PreAssignedColors : Z)
    (UsedColors : BitVector) (Neighbor : Z) : BitVector :=
  let NeighborColor := getColor Colors Neighbor in
  if NeighborColor =? -1 then UsedColors
  else if NeighborColor <? PreAssignedColors then UsedColors
  else BV.assign UsedColors (NeighborColor - PreAssignedColors) true.

(** The body of the greedy loop for one [ActiveElement]. *)
Definition color_element (S : State) (PreAssignedColors : Z) (G : Greedy)
    (ActiveElement : Z) : Greedy :=
  if negb (getColor (Colors G) ActiveElement =? -1) then G
  else
    let UsedColors := BV.reset (BV.resize (Z.to_nat (MaxAssignedColor G + 2)) BV.empty) in
    let Ns := default [] (Neighbors S !! Z.to_nat ActiveElement) in
    match Ns with
    | [] => G  (* No need to color a value not live at any safe point *)
    | _ =>
        let UsedColors := foldl (mark_neighbor (Colors G) PreAssignedColors) UsedColors Ns in
        let NewColor := BV.find_first (BV.flip UsedColors) in
        let Max := if MaxAssignedColor G <? NewColor then NewColor else MaxAssignedColor G in
        mkGreedy (setColor (Colors G) ActiveElement (NewColor + PreAssignedColors))
                 Max (Ordering G)
    end.

(** [while ((ActiveElement = Ordering.next()) != -1)], bounded by [fuel]. *)
Fixpoint greedy_loop (fuel : nat) (S : State) (PreAssignedColors : Z) (G : Greedy)
    : Res Greedy :=
  match fuel with
  | O => OutOfFuel
  | Datatypes.S fuel' =>
      let '(ActiveElement, P) := PEO_next (Neighbors S) (Ordering G) in
      let G1 := mkGreedy (Colors G) (MaxAssignedColor G) P in
      if ActiveElement =? -1 then Ok G1
      else greedy_loop fuel' S PreAssignedColors (color_element S PreAssignedColors G1 ActiveElement)
  end.

(** [ColorRoots(S)] together with the final value of its local
    [PreAssignedColors].  Every call of [Ordering.next()] that yields an
    element retires it, so one call per vertex and a last one suffice. *)
Definition ColorRoots_fuel (fuel : nat) (S : State) : Res (list Z * Z) :=
  '(Colors0, PreAssignedColors) ← PreAssign S;
  G ← greedy_loop fuel S PreAssignedColors
        (mkGreedy Colors0 (-1) (PEOIterator_init (Neighbors S)));
  mret (Colors G, PreAssignedColors).

Definition ColorRoots (S : State) : Res (list Z * Z) :=
  ColorRoots_fuel (Datatypes.S (length (Neighbors S))) S.

(** The live set as the refinement loop finds it on reaching index [k]. *)
Definition RefinementScan (Refinements : gmap Z Z) (LS : BitVector) (k : nat) : BitVector :=
  foldl (refine_step Refinements) LS (seq 0 k).

(** What NoteSafepoint maintains: a call numbered [idx] is entry [idx] of
    the reverse numbering. *)
Definition SafepointNumbering_wf (S : State) : Prop :=
  forall sp idx, SafepointNumbering S !! sp = Some idx ->
    0 <= idx /\ ReverseSafepointNumbering S !! Z.to_nat idx = Some sp.

(** What the loop over the safepoints leaves alone. *)
Definition same_analysis (S S' : State) : Prop :=
  BBStates S' = BBStates S /\ LoadRefinements S' = LoadRefinements S /\
  LiveIfLiveOut S' = LiveIfLiveOut S /\ SafepointNumbering S' = SafepointNumbering S /\
  MaxPtrNumber S' = MaxPtrNumber S /\ ReturnsTwice S' = ReturnsTwice S /\
  Neighbors S' = Neighbors S /\ length (LiveSets S') = length (LiveSets S).

(** Colours handed out by the first loop of ColorRoots lie below
    [PreAssignedColors]. *)
Definition preassigned (a : list Z * Z) : Prop :=
  0 <= a.2 /\ forall (i : nat) c, a.1 !! i = Some c -> c = -1 \/ 0 <= c < a.2.

(** [j] is listed among the neighbours of [i]. *)
Definition adjacent (N : list (list Z)) (i j : nat) : Prop :=
  Z.of_nat j ∈ default [] (N !! i).

(** The invariant of the greedy loop: colours from [P] on stay within
    [MaxAssignedColor] and are never shared by two neighbours. *)
Definition proper (N : list (list Z)) (P : Z) (C : list Z) (Max : Z) : Prop :=
  -1 <= Max /\
  (forall (i : nat) c, C !! i = Some c -> P <= c -> c - P <= Max) /\
  (forall (i j : nat) c, i <> j -> C !! i = Some c -> C !! j = Some c -> P <= c ->
     ~ adjacent N i j).

(** ** Vocabulary for the dataflow properties *)

(** Every bit vector of the block has at most [W] bits. *)
Definition BBState_width (W : nat) (BBS : BBState) : Prop :=
  (length (Defs BBS) <= W)%nat /\ (length (PhiOuts BBS) <= W)%nat /\
  (length (UpExposedUsesUnrooted BBS) <= W)%nat /\ (length (UpExposedUses BBS) <= W)%nat /\
  (length (DownExposedUnrooted BBS) <= W)%nat /\ (length (LiveIn BBS) <= W)%nat /\
  (length (LiveOut BBS) <= W)%nat /\ (length (UnrootedIn BBS) <= W)%nat /\
  (length (UnrootedOut BBS) <= W)%nat.

Definition bounded (W : nat) (S : State) : Prop :=
  forall BB, BBState_width W (getBBS S BB).

(** Inclusion of bit vectors as sets. *)
Definition BV_subset (a b : BitVector) : Prop :=
  forall i, BV.test a i = true -> BV.test b i = true.

(** Every dataflow variable is below the right-hand side of its equation,
    and [Defs] is at least as long as [LiveOut]. *)
Definition below_equations (F : Function) (S : State) : Prop :=
  forall BB,
    (length (LiveOut (getBBS S BB)) <= length (Defs (getBBS S BB)))%nat /\
    BV_subset (LiveOut (getBBS S BB)) (NewLiveOut F S BB) /\
    BV_subset (LiveIn (getBBS S BB)) (NewLiveIn (getBBS S BB)) /\
    BV_subset (UnrootedIn (getBBS S BB)) (NewUnrootedIn F S BB).

(** Number of set bits below [W]. *)
Definition card (W : nat) (bv : BitVector) : nat :=
  length (filter (fun i => BV.test bv i = true) (seq 0 W)).

Definition BBState_card (W : nat) (BBS : BBState) : nat :=
  (card W (LiveIn BBS) + card W (LiveOut BBS) +
   card W (UnrootedIn BBS) + card W (UnrootedOut BBS))%nat.

(** The state after [n] trips through the blocks. *)
Fixpoint dataflow_iter (n : nat) (F : Function) (S : State) : State :=
  match n with
  | O => S
  | Datatypes.S n' => dataflow_iter n' F (dataflow_pass F S).1
  end.

(** The five bit vectors of the local analysis have one size: MaybeResize
    always resizes them together. *)
Definition BBState_aligned (BBS : BBState) : Prop :=
  length (PhiOuts BBS) = length (Defs BBS) /\
  length (UpExposedUsesUnrooted BBS) = length (Defs BBS) /\
  length (UpExposedUses BBS) = length (Defs BBS) /\
  length (DownExposedUnrooted BBS) = length (Defs BBS).

Definition aligned (S : State) : Prop :=
  forall BB, BBState_aligned (getBBS S BB).

(** The sets of the local analysis agree in two block states. *)
Definition BBState_same_local (B B' : BBState) : Prop :=
  forall i,
    BV.test (Defs B') i = BV.test (Defs B) i /\
    BV.test (PhiOuts B') i = BV.test (PhiOuts B) i /\
    BV.test (UpExposedUses B') i = BV.test (UpExposedUses B) i /\
    BV.test (UpExposedUsesUnrooted B') i = BV.test (UpExposedUsesUnrooted B) i /\
    HasSafepoint B' = HasSafepoint B.

(** The dataflow variables of [B'] hold those of [B]. *)
Definition BBState_grows (B B' : BBState) : Prop :=
  BV_subset (LiveIn B) (LiveIn B') /\ BV_subset (LiveOut B) (LiveOut B') /\
  BV_subset (UnrootedIn B) (UnrootedIn B') /\ BV_subset (UnrootedOut B) (UnrootedOut B').

(** The four dataflow variables of every block only gained bits. *)
Definition grows (S S' : State) : Prop :=
  forall BB, BBState_grows (getBBS S BB) (getBBS S' BB).

(** The local sets of every block are the same. *)
Definition same_local (S S' : State) : Prop :=
  forall BB, BBState_same_local (getBBS S BB) (getBBS S' BB).

(** The dataflow variables as LocalScan leaves them: the local bit vectors
    were resized together, [LiveIn] is seeded with the upward exposed uses,
    [LiveOut] and [UnrootedIn] are still empty. *)
Definition seeded (S : State) : Prop :=
  forall BB,
    BBState_aligned (getBBS S BB) /\
    LiveOut (getBBS S BB) = [] /\ UnrootedIn (getBBS S BB) = [] /\
    forall i, BV.test (LiveIn (getBBS S BB)) i =
              BV.test (UpExposedUses (getBBS S BB)) i ||
              BV.test (UpExposedUsesUnrooted (getBBS S BB)) i.

(** No update of the loop body changes block [BB]. *)
Definition fixpoint_at (F : Function) (S : State) (BB : BasicBlock) : Prop :=
  BV.eqb (NewLiveOut F S BB) (LiveOut (getBBS S BB)) = true /\
  BV.eqb (NewLiveIn (getBBS S BB)) (LiveIn (getBBS S BB)) = true /\
  BV.eqb (NewUnrootedIn F S BB) (UnrootedIn (getBBS S BB)) = true.

Definition cards (W : nat) (L : list BasicBlock) (S : State) : nat :=
  sum_list_with (fun BB => BBState_card W (getBBS S BB)) L.

(** What the dataflow loop maintains. *)
Definition dataflow_inv (W : nat) (F : Function) (S : State) : Prop :=
  bounded W S /\ aligned S /\ below_equations F S.

(** ** The pass object *)

(** The address spaces of codegen_shared.h.  That header is not part of the
    sources at hand: its enumeration is a parameter of the pass. *)
Record AddressSpaces := mkAddressSpaces {
  Tracked : Z;
  Derived : Z;
  FirstSpecial : Z;
  LastSpecial : Z;
}.

(** The fields of the pass, and with them what the pass takes from the
    headers of the runtime: the address spaces, the offset of [pgcstack] in
    [jl_tls_states_t] in words, the size of a pointer in bytes and the size
    classifier of the allocator, which gives the pool offset (negative for a
    big object) and the object size. *)
Record LateLowerGCFrame := mkPass {
  AddressSpace : AddressSpaces;
  pgcstack_offset : Z;
  sizeof_ptr : Z;
  jl_gc_classify_pools : Z -> Z * Z;
  T_prjlvalue : option Ty;
  T_ppjlvalue : option Ty;
  T_size : Ty;
  T_int8 : Ty;
  T_int32 : Ty;
  T_pint8 : Ty;
  T_pjlvalue_der : option Ty;
  T_ppjlvalue_der : option Ty;
  ptls_getter : option Value;
  gc_flush_func : option Value;
  pointer_from_objref_func : option Value;
  alloc_obj_func : option Value;
  pool_alloc_func : option Value;
  big_alloc_func : option Value;
  ptlsStates : option Value;
}.

(** ** Reading and editing the IR *)

Definition isConstant (k : ValueKind) : bool :=
  match k with
  | ConstantInt _ | ConstantPointerNull | GlobalFunction _ | OtherConstant => true
  | _ => false
  end.

Definition isPointerTy (t : Ty) : bool :=
  match t with PointerTy _ _ => true | _ => false end.

(** [User::operands()] *)
Definition operands (k : ValueKind) : list Value :=
  match k with
  | Argument | ConstantInt _ | ConstantPointerNull | GlobalFunction _ | OtherConstant => []
  | LoadInst ptr _ => [ptr]
  | StoreInst val ptr => [val; ptr]
  | CallInst callee args bundles _ _ => args ++ bundles ++ [callee]
  | SelectInst c t f => [c; t; f]
  | PHINode incoming => incoming.*1
  | BitCastInst op | AddrSpaceCastInst op | PtrToIntInst op => [op]
  | GetElementPtrInst ptr idx => ptr :: idx
  | ExtractValueInst agg _ => [agg]
  | ExtractElementInst vec idx => [vec; idx]
  | AllocaInst _ count => [count]
  | ReturnInst ret => match ret with Some v => [v] | None => [] end
  | BranchInst _ ops => ops
  | ShuffleVectorInst a b m => [a; b; m]
  | InsertElementInst v e i => [v; e; i]
  | OtherInst ops => ops
  end.

(** [getValueAddrSpace(V)].  The cast to PointerType is unchecked; a value
    that is no pointer is given address space 0. *)
Definition getValueAddrSpace (F : Function) (V : Value) : Z :=
  match getType F V with
  | PointerTy _ AS => AS
  | _ => 0
  end.

Definition isSpecialPtr (A : AddressSpaces) (t : Ty) : bool :=
  match t with
  | PointerTy _ AS => (FirstSpecial A <=? AS) && (AS <=? LastSpecial A)
  | _ => false
  end.

Definition isSpecialPtrVec (A : AddressSpaces) (t : Ty) : bool :=
  match t with
  | VectorTy elt _ => isSpecialPtr A elt
  | _ => false
  end.

Definition isUnionRep (A : AddressSpaces) (t : Ty) : bool :=
  match t with
  | StructTy [t0; _] => isSpecialPtr A t0
  | _ => false
  end.

(** A new value at the next free address. *)
Definition addValue (F : Function) (k : ValueKind) (t : Ty) : Function * Value :=
  (mkFunction (<[next_value F := mkValue k t]> (values F)) (blocks F)
              (Datatypes.S (next_value F)),
   next_value F).

Definition setBlocks (F : Function) (bs : list (BasicBlock * list Value)) : Function :=
  mkFunction (values F) bs (next_value F).

Definition setValues (F : Function) (vs : gmap Value ValueInfo) : Function :=
  mkFunction vs (blocks F) (next_value F).

Fixpoint insert_before (pos I : Value) (l : list Value) : list Value :=
  match l with
  | [] => []
  | x :: l' => if decide (x = pos) then I :: x :: l' else x :: insert_before pos I l'
  end.

Fixpoint insert_after (pos I : Value) (l : list Value) : list Value :=
  match l with
  | [] => []
  | x :: l' => if decide (x = pos) then x :: I :: l' else x :: insert_after pos I l'
  end.

(** [I->insertBefore(pos)] and [I->insertAfter(pos)]: [I] joins the block of
    [pos]; nothing happens when [pos] is in no block. *)
Definition insertBefore (F : Function) (pos I : Value) : Function :=
  setBlocks F ((fun b => (b.1, insert_before pos I b.2)) <$> blocks F).

Definition insertAfter (F : Function) (pos I : Value) : Function :=
  setBlocks F ((fun b => (b.1, insert_after pos I b.2)) <$> blocks F).

(** A new instruction placed before [pos]. *)
Definition createBefore (F : Function) (pos : Value) (k : ValueKind) (t : Ty)
    : Function * Value :=
  let '(F1, New) := addValue F k t in (insertBefore F1 pos New, New).

(** [I->eraseFromParent()] *)
Definition eraseFromParent (F : Function) (I : Value) : Function :=
  mkFunction (delete I (values F))
             ((fun b => (b.1, filter (fun x => x <> I) b.2)) <$> blocks F)
             (next_value F).

Definition subst_value (old new : Value) (v : Value) : Value :=
  if decide (v = old) then new else v.

Definition subst_kind (old new : Value) (k : ValueKind) : ValueKind :=
  let s := subst_value old new in
  match k with
  | Argument | ConstantInt _ | ConstantPointerNull | GlobalFunction _ | OtherConstant => k
  | LoadInst ptr tbaa => LoadInst (s ptr) tbaa
  | StoreInst val ptr => StoreInst (s val) (s ptr)
  | CallInst callee args bundles CC rt => CallInst (s callee) (s <$> args) (s <$> bundles) CC rt
  | SelectInst c t f => SelectInst (s c) (s t) (s f)
  | PHINode incoming => PHINode ((fun p => (s p.1, p.2)) <$> incoming)
  | BitCastInst op => BitCastInst (s op)
  | AddrSpaceCastInst op => AddrSpaceCastInst (s op)
  | PtrToIntInst op => PtrToIntInst (s op)
  | GetElementPtrInst ptr idx => GetElementPtrInst (s ptr) (s <$> idx)
  | ExtractValueInst agg idx => ExtractValueInst (s agg) idx
  | ExtractElementInst vec idx => ExtractElementInst (s vec) (s idx)
  | AllocaInst t count => AllocaInst t (s count)
  | ReturnInst ret => ReturnInst (s <$> ret)
  | BranchInst succs ops => BranchInst succs (s <$> ops)
  | ShuffleVectorInst a b m => ShuffleVectorInst (s a) (s b) (s m)
  | InsertElementInst v e i => InsertElementInst (s v) (s e) (s i)
  | OtherInst ops => OtherInst (s <$> ops)
  end.

(** [old->replaceAllUsesWith(new)] *)
Definition replaceAllUsesWith (F : Function) (old new : Value) : Function :=
  setValues F ((fun vi => mkValue (subst_kind old new (kind vi)) (type vi)) <$> values F).

(** The users of [V], one entry per use, instructions in layout order. *)
Definition users (F : Function) (V : Value) : list Value :=
  b ← blocks F; U ← b.2;
  filter (fun op => op = V) (operands (getKind F U)) ≫= fun _ => [U].

(** ** Base values and numbering *)

Definition setNumbering (S : State) (Max : Z) (All Ptr : gmap Value Z)
    (Rev : gmap Z Value) : State :=
  mkState Max (MaxSafepointNumber S) All (AllVectorNumbering S) Ptr Rev
          (Neighbors S) (BBStates S) (LoadRefinements S)
          (SafepointNumbering S) (ReverseSafepointNumbering S) (ReturnsTwice S)
          (LiveSets S) (LiveIfLiveOut S) (Allocas S).

Definition setAllPtrNumbering (S : State) (All : gmap Value Z) : State :=
  setNumbering S (MaxPtrNumber S) All (PtrNumbering S) (ReversePtrNumbering S).

Definition setVectorNumbering (S : State) (Max : Z) (AllVec : gmap Value (list Z))
    (Rev : gmap Z Value) : State :=
  mkState Max (MaxSafepointNumber S) (AllPtrNumbering S) AllVec (PtrNumbering S) Rev
          (Neighbors S) (BBStates S) (LoadRefinements S)
          (SafepointNumbering S) (ReverseSafepointNumbering S) (ReturnsTwice S)
          (LiveSets S) (LiveIfLiveOut S) (Allocas S).

(** The cache test at the head of the loop of FindBaseValue. *)
Definition isCached (F : Function) (S : State) (V : Value) : bool :=
  if isPointerTy (getType F V)
  then bool_decide (is_Some (AllPtrNumbering S !! V))
  else bool_decide (is_Some (AllVectorNumbering S !! V)).

(** One turn of the loop of FindBaseValue past the cache test: the value to
    continue with, or [None] at a [break]. *)
Definition base_step (A : AddressSpaces) (F : Function) (CurrentV : Value) : option Value :=
  match getKind F CurrentV with
  | BitCastInst op => Some op
  | AddrSpaceCastInst NewV => if getValueAddrSpace F NewV =? 0 then None else Some NewV
  | GetElementPtrInst op _ => Some op
  | ExtractValueInst Operand _ =>
      if isUnionRep A (getType F Operand) then Some Operand else None
  | _ => None
  end.

(** The loop of FindBaseValue.  The result tells whether the value was
    returned from the cache test (then the final assertion is not
    reached). *)
Fixpoint FindBaseValue_loop (fuel : nat) (A : AddressSpaces) (F : Function) (S : State)
    (UseCache : bool) (CurrentV : Value) : option (Value * bool) :=
  match fuel with
  | O => None
  | Datatypes.S fuel' =>
      if UseCache && isCached F S CurrentV then Some (CurrentV, true)
      else match base_step A F CurrentV with
           | Some V' => FindBaseValue_loop fuel' A F S UseCache V'
           | None => Some (CurrentV, false)
           end
  end.

Definition is_base (k : ValueKind) : bool :=
  match k with
  | LoadInst _ _ | CallInst _ _ _ _ _ | Argument | SelectInst _ _ _ | PHINode _
  | AddrSpaceCastInst _ | AllocaInst _ _ | ExtractValueInst _ _ => true
  | _ => isConstant k
  end.

(** [FindBaseValue(S, V, UseCache)]; the loop takes at most [fuel] turns. *)
Definition FindBaseValue (fuel : nat) (A : AddressSpaces) (F : Function) (S : State)
    (V : Value) (UseCache : bool) : Res Value :=
  match FindBaseValue_loop fuel A F S UseCache V with
  | None => OutOfFuel
  | Some (CurrentV, true) => Ok CurrentV
  | Some (CurrentV, false) =>
      _ ← assert (is_base (getKind F CurrentV)) "FindBaseValue: unexpected base";
      Ok CurrentV
  end.

Definition firstElementType (t : Ty) : Ty :=
  match t with
  | StructTy (t0 :: _) => t0
  | _ => VoidTy
  end.

(** [MaybeExtractUnion(Val, InsertBefore)] *)
Definition MaybeExtractUnion (A : AddressSpaces) (F : Function) (Val InsertBefore : Value)
    : Function * Value :=
  if isUnionRep A (getType F Val)
  then createBefore F InsertBefore (ExtractValueInst Val [0%nat])
                    (firstElementType (getType F Val))
  else (F, Val).

(** [LiftSelect(S, SI)] *)
Definition LiftSelect (fuel : nat) (A : AddressSpaces) (F : Function) (S : State) (SI : Value)
    : Res (Z * Function * State) :=
  match getKind F SI with
  | SelectInst Cond TrueValue FalseValue =>
      TrueBase ← FindBaseValue fuel A F S TrueValue false;
      FalseBase ← FindBaseValue fuel A F S FalseValue false;
      let '(F, TrueBase) := MaybeExtractUnion A F TrueBase SI in
      let '(F, FalseBase) := MaybeExtractUnion A F FalseBase SI in
      let '(F, TrueBase) :=
        if negb (getValueAddrSpace F TrueBase =? Tracked A)
        then addValue F ConstantPointerNull (getType F FalseBase)
        else (F, TrueBase) in
      let '(F, FalseBase) :=
        if negb (getValueAddrSpace F FalseBase =? Tracked A)
        then addValue F ConstantPointerNull (getType F TrueBase)
        else (F, FalseBase) in
      if negb (getValueAddrSpace F TrueBase =? Tracked A) then Ok (-1, F, S)
      else
        let '(F, SelectBase) :=
          createBefore F SI (SelectInst Cond TrueBase FalseBase) (getType F TrueBase) in
        let Number := MaxPtrNumber S + 1 in
        Ok (Number, F,
            setNumbering S Number
              (<[SelectBase := Number]> (<[SI := Number]> (AllPtrNumbering S)))
              (<[SelectBase := Number]> (PtrNumbering S))
              (<[Number := SelectBase]> (ReversePtrNumbering S)))
  | _ => Abort "cast<SelectInst>"
  end.

(** The loop of LiftPhi over the incoming values; [acc] collects the
    incoming values of the lifted phi. *)
Fixpoint LiftPhi_incoming (fuel : nat) (A : AddressSpaces) (T : Ty) (F : Function) (S : State)
    (incoming : list (Value * BasicBlock)) (acc : list (Value * BasicBlock))
    : Res (Function * list (Value * BasicBlock)) :=
  match incoming with
  | [] => Ok (F, acc)
  | (Incoming, IncomingBlock) :: rest =>
      Base ← FindBaseValue fuel A F S Incoming false;
      let '(F, Base) :=
        if negb (getValueAddrSpace F Base =? Tracked A)
        then addValue F ConstantPointerNull T
        else (F, Base) in
      let '(F, Base) :=
        if negb (Ty_eqb (getType F Base) T)
        then match getTerminator F IncomingBlock with
             | Some Term => createBefore F Term (BitCastInst Base) T
             | None => addValue F (BitCastInst Base) T
             end
        else (F, Base) in
      LiftPhi_incoming fuel A T F S rest (acc ++ [(Base, IncomingBlock)])
  end.

(** [LiftPhi(S, Phi)] *)
Definition LiftPhi (fuel : nat) (P : LateLowerGCFrame) (F : Function) (S : State) (Phi : Value)
    : Res (Z * Function * State) :=
  match getKind F Phi, T_prjlvalue P with
  | PHINode incoming, Some T =>
      let '(F, lift) := createBefore F Phi (PHINode []) T in
      '(F, lifted) ← LiftPhi_incoming fuel (AddressSpace P) T F S incoming [];
      let F := setValues F (<[lift := mkValue (PHINode lifted) T]> (values F)) in
      let Number := MaxPtrNumber S + 1 in
      Ok (Number, F,
          setNumbering S Number
            (<[lift := Number]> (<[Phi := Number]> (AllPtrNumbering S)))
            (<[lift := Number]> (PtrNumbering S))
            (<[Number := lift]> (ReversePtrNumbering S)))
  | PHINode _, None => Abort "T_prjlvalue is null"
  | _, _ => Abort "cast<PHINode>"
  end.

Definition is_rooted_in_parent (A : AddressSpaces) (F : Function) (CurrentV : Value) : bool :=
  match getKind F CurrentV with
  | Argument => true
  | AllocaInst _ _ | AddrSpaceCastInst _ =>
      negb (getValueAddrSpace F CurrentV =? Tracked A)
  | k => isConstant k
  end.

Definition isSelect (k : ValueKind) : bool :=
  match k with SelectInst _ _ _ => true | _ => false end.
Definition isPHI (k : ValueKind) : bool :=
  match k with PHINode _ => true | _ => false end.
Definition isExtractValue (k : ValueKind) : bool :=
  match k with ExtractValueInst _ _ => true | _ => false end.

(** The part of [Number(S, V)] that follows the search of the base value
    [CurrentV]. *)
Definition Number_at (fuel : nat) (P : LateLowerGCFrame) (F : Function) (S : State)
    (V CurrentV : Value) : Res (Z * Function * State) :=
  let A := AddressSpace P in
  match AllPtrNumbering S !! CurrentV with
  | Some n => Ok (n, F, S)
  | None =>
      if is_rooted_in_parent A F CurrentV then
        (* We know this is rooted in the parent *)
        Ok (-1, F,
            setNumbering S (MaxPtrNumber S)
              (<[CurrentV := -1]> (<[V := -1]> (AllPtrNumbering S)))
              (<[CurrentV := -1]> (PtrNumbering S))
              (ReversePtrNumbering S))
      else if isSelect (getKind F CurrentV)
              && negb (getValueAddrSpace F CurrentV =? Tracked A) then
        '(n, F, S) ← LiftSelect fuel A F S CurrentV;
        Ok (n, F, setAllPtrNumbering S (<[V := n]> (AllPtrNumbering S)))
      else if isPHI (getKind F CurrentV)
              && negb (getValueAddrSpace F CurrentV =? Tracked A) then
        '(n, F, S) ← LiftPhi fuel P F S CurrentV;
        Ok (n, F, setAllPtrNumbering S (<[V := n]> (AllPtrNumbering S)))
      else if isExtractValue (getKind F CurrentV)
              && negb (isUnionRep A (getType F CurrentV)) then
        Abort "TODO: Extract"
      else
        _ ← assert ((isPointerTy (getType F CurrentV)
                     && (getValueAddrSpace F CurrentV =? Tracked A))
                    || isUnionRep A (getType F CurrentV))
                   "tracked pointer or union expected";
        let n := MaxPtrNumber S + 1 in
        Ok (n, F,
            setNumbering S n
              (<[CurrentV := n]> (<[V := n]> (AllPtrNumbering S)))
              (<[CurrentV := n]> (PtrNumbering S))
              (<[n := CurrentV]> (ReversePtrNumbering S)))
  end.

(** [Number(S, V)] *)
Definition Number (fuel : nat) (P : LateLowerGCFrame) (F : Function) (S : State) (V : Value)
    : Res (Z * Function * State) :=
  let A := AddressSpace P in
  _ ← assert (isSpecialPtr A (getType F V) || isUnionRep A (getType F V))
             "isSpecialPtr(V->getType()) || isUnionRep(V->getType())";
  CurrentV ← FindBaseValue fuel A F S V true;
  Number_at fuel P F S V CurrentV.

Definition numElements (t : Ty) : nat :=
  match t with
  | VectorTy _ n => n
  | _ => 0%nat
  end.

Definition isLoad (k : ValueKind) : bool :=
  match k with LoadInst _ _ => true | _ => false end.

(** [NumberVector(S, V)].  The value returned is the entry of the base
    value, which operator[] creates empty when there is none. *)
Definition NumberVector (fuel : nat) (P : LateLowerGCFrame) (F : Function) (S : State) (V : Value)
    : Res (list Z * State) :=
  let A := AddressSpace P in
  match AllVectorNumbering S !! V with
  | Some Numbers => Ok (Numbers, S)
  | None =>
      CurrentV ← FindBaseValue fuel A F S V true;
      match AllVectorNumbering S !! CurrentV with
      | Some Numbers => Ok (Numbers, S)
      | None =>
          let k := getKind F CurrentV in
          S ←
            (if isConstant k
                || (match k with
                    | Argument | AllocaInst _ _ | AddrSpaceCastInst _ => true
                    | _ => false
                    end && negb (getValueAddrSpace F CurrentV =? Tracked A))
             then Ok (setVectorNumbering S (MaxPtrNumber S)
                        (<[V := []]> (AllVectorNumbering S)) (ReversePtrNumbering S))
             else match k with
                  | ShuffleVectorInst _ _ _ => Abort "TODO Shuffle"
                  | InsertElementInst _ _ _ => Abort "TODO Insert"
                  | LoadInst _ _ =>
                      (* This is simple, we can just number them sequentially *)
                      let n := numElements (getType F CurrentV) in
                      let Numbers := (fun i : nat => MaxPtrNumber S + 1 + Z.of_nat i) <$> seq 0 n in
                      Ok (setVectorNumbering S (MaxPtrNumber S + Z.of_nat n)
                            (<[V := Numbers]> (AllVectorNumbering S))
                            (foldl (fun Rev Num => <[Num := V]> Rev)
                                   (ReversePtrNumbering S) Numbers))
                  | _ => Ok S
                  end);
          match AllVectorNumbering S !! CurrentV with
          | Some Numbers => Ok (Numbers, S)
          | None =>
              Ok ([], setVectorNumbering S (MaxPtrNumber S)
                        (<[CurrentV := []]> (AllVectorNumbering S)) (ReversePtrNumbering S))
          end
      end
  end.

(** ** Local scan *)

Definition setLocal (BBS : BBState) (defs phiouts ueuu ueu deu : BitVector) : BBState :=
  mkBBState defs phiouts ueuu ueu deu (LiveIn BBS) (LiveOut BBS) (UnrootedIn BBS)
            (UnrootedOut BBS) (Safepoints BBS) (TopmostSafepoint BBS) (HasSafepoint BBS)
            (Done BBS).

Definition setLiveIfLiveOut (S : State) (L : list (list Z)) : State :=
  mkState (MaxPtrNumber S) (MaxSafepointNumber S) (AllPtrNumbering S)
          (AllVectorNumbering S) (PtrNumbering S) (ReversePtrNumbering S)
          (Neighbors S) (BBStates S) (LoadRefinements S)
          (SafepointNumbering S) (ReverseSafepointNumbering S) (ReturnsTwice S)
          (LiveSets S) L (Allocas S).

Definition setLoadRefinements (S : State) (R : gmap Z Z) : State :=
  mkState (MaxPtrNumber S) (MaxSafepointNumber S) (AllPtrNumbering S)
          (AllVectorNumbering S) (PtrNumbering S) (ReversePtrNumbering S)
          (Neighbors S) (BBStates S) R
          (SafepointNumbering S) (ReverseSafepointNumbering S) (ReturnsTwice S)
          (LiveSets S) (LiveIfLiveOut S) (Allocas S).

(** [NoteDef(S, BBS, Num, SafepointsSoFar)], [BBS] being the state of
    block [BB]. *)
Definition NoteDef (S : State) (BB : BasicBlock) (Num : Z) (SafepointsSoFar : list Z)
    : Res State :=
  _ ← assert (negb (Num =? -1)) "Num != -1";
  let BBS := MaybeResize (getBBS S BB) (to_unsigned Num) in
  _ ← assert (negb (HasBitSet (Defs BBS) Num)) "SSA Violation or misnumbering?";
  let BBS :=
    setLocal BBS (BV.assign (Defs BBS) Num true) (PhiOuts BBS)
             (BV.assign (UpExposedUsesUnrooted BBS) Num false)
             (BV.assign (UpExposedUses BBS) Num false)
             (if HasSafepoint BBS then DownExposedUnrooted BBS
              else BV.assign (DownExposedUnrooted BBS) Num true) in
  let S := setBBS S BB BBS in
  (* This value could potentially be live at any following safe point
     if it ends up live out, so add it to the LiveIfLiveOut lists for all
     following safepoints. *)
  Ok (setLiveIfLiveOut S
        (foldl (fun L Safepoint => alter (fun l => l ++ [Num]) (Z.to_nat Safepoint) L)
               (LiveIfLiveOut S) SafepointsSoFar)).

Definition refine (S : State) (Num RefinedPtr : Z) : State :=
  if RefinedPtr =? -2 then S
  else setLoadRefinements S (<[Num := RefinedPtr]> (LoadRefinements S)).

(** [MaybeNoteDef(S, BBS, Def, SafepointsSoFar, RefinedPtr)] *)
Definition MaybeNoteDef (fuel : nat) (P : LateLowerGCFrame) (F : Function) (S : State) (BB : BasicBlock)
    (Def : Value) (SafepointsSoFar : list Z) (RefinedPtr : Z) : Res (Function * State) :=
  let A := AddressSpace P in
  let RT := getType F Def in
  if isSpecialPtr A RT then
    _ ← assert (getValueAddrSpace F Def =? Tracked A)
               "Returned value of GC interest, but not tracked?";
    '(Num, F, S) ← Number fuel P F S Def;
    S ← NoteDef S BB Num SafepointsSoFar;
    Ok (F, refine S Num RefinedPtr)
  else if isUnionRep A RT then
    (* Probably a union return. Find the extractvalue *)
    '(Num, F, S) ← Number fuel P F S Def;
    S ← NoteDef S BB Num SafepointsSoFar;
    Ok (F, refine S Num RefinedPtr)
  else if isSpecialPtrVec A RT then
    '(Nums, S) ← NumberVector fuel P F S Def;
    S ← foldl (fun r Num => S ← r; S ← NoteDef S BB Num SafepointsSoFar;
                            Ok (refine S Num RefinedPtr))
              (Ok S) Nums;
    Ok (F, S)
  else Ok (F, S).

Inductive UsesField := UsesUpExposed | UsesUpExposedUnrooted | UsesPhiOuts.

(** [MaybeResize(BBS, Num); Uses[Num] = 1], [Uses] being a field of [BBS]. *)
Definition setUse (BBS : BBState) (Uses : UsesField) (Num : Z) : BBState :=
  let BBS := MaybeResize BBS (to_unsigned Num) in
  match Uses with
  | UsesUpExposed =>
      setLocal BBS (Defs BBS) (PhiOuts BBS) (UpExposedUsesUnrooted BBS)
               (BV.assign (UpExposedUses BBS) Num true) (DownExposedUnrooted BBS)
  | UsesUpExposedUnrooted =>
      setLocal BBS (Defs BBS) (PhiOuts BBS)
               (BV.assign (UpExposedUsesUnrooted BBS) Num true)
               (UpExposedUses BBS) (DownExposedUnrooted BBS)
  | UsesPhiOuts =>
      setLocal BBS (Defs BBS) (BV.assign (PhiOuts BBS) Num true)
               (UpExposedUsesUnrooted BBS) (UpExposedUses BBS) (DownExposedUnrooted BBS)
  end.

(** [NoteUse(S, BBS, V, Uses)] *)
Definition NoteUse (fuel : nat) (P : LateLowerGCFrame) (F : Function) (S : State) (BB : BasicBlock)
    (V : Value) (Uses : UsesField) : Res (Function * State) :=
  (* Short circuit to avoid having to deal with vectors of constants, etc. *)
  if isConstant (getKind F V) then Ok (F, S)
  else if isSpecialPtrVec (AddressSpace P) (getType F V) then
    '(Nums, S) ← NumberVector fuel P F S V;
    Ok (F, foldl (fun S Num => setBBS S BB (setUse (getBBS S BB) Uses Num)) S Nums)
  else
    '(Num, F, S) ← Number fuel P F S V;
    if Num =? -1 then Ok (F, S)
    else Ok (F, setBBS S BB (setUse (getBBS S BB) Uses Num)).

(** [NoteOperandUses(S, BBS, UI, Uses)] *)
Definition NoteOperandUses (fuel : nat) (P : LateLowerGCFrame) (F : Function) (S : State)
    (BB : BasicBlock) (UI : Value) (Uses : UsesField) : Res (Function * State) :=
  foldl (fun r V =>
           '(F, S) ← r;
           if negb (isSpecialPtr (AddressSpace P) (getType F V)) then Ok (F, S)
           else NoteUse fuel P F S BB V Uses)
        (Ok (F, S)) (operands (getKind F UI)).

Definition setSafepointData (S : State) (Max : Z) (SN : gmap Value Z) (RSN : list Value)
    (LS : list BitVector) (LILO : list (list Z)) : State :=
  mkState (MaxPtrNumber S) Max (AllPtrNumbering S)
          (AllVectorNumbering S) (PtrNumbering S) (ReversePtrNumbering S)
          (Neighbors S) (BBStates S) (LoadRefinements S)
          SN RSN (ReturnsTwice S) LS LILO (Allocas S).

(** [NoteSafepoint(S, BBS, CI)] *)
Definition NoteSafepoint (S : State) (BB : BasicBlock) (CI : Value) : Z * State :=
  let Number := MaxSafepointNumber S + 1 in
  let BBS := getBBS S BB in
  (* Note which pointers are upward exposed live here. They need to be
     considered live at this safepoint even when they have a def earlier
     in this BB *)
  let UEU := BV.or (UpExposedUses BBS) (UpExposedUsesUnrooted BBS) in
  let BBS := setLocal BBS (Defs BBS) (PhiOuts BBS)
                      (BV.reset (UpExposedUsesUnrooted BBS)) UEU
                      (DownExposedUnrooted BBS) in
  let S := setBBS S BB BBS in
  (Number,
   setSafepointData S Number (<[CI := Number]> (SafepointNumbering S))
     (ReverseSafepointNumbering S ++ [CI]) (LiveSets S ++ [UEU]) (LiveIfLiveOut S ++ [[]])).

(** [isLoadFromImmut(LI)]: [tbaa] lists the names of the access type of the
    TBAA tag and of its ancestors, the nodes the loop steps through. *)
Definition isLoadFromImmut (tbaa : list string) : bool :=
  existsb (String.eqb "jtbaa_immut") tbaa.

(** [LooksLikeFrameRef(V)], at most [fuel] deep. *)
Fixpoint LooksLikeFrameRef (fuel : nat) (A : AddressSpaces) (F : Function) (V : Value)
    : option bool :=
  match fuel with
  | O => None
  | Datatypes.S fuel' =>
      if isSpecialPtr A (getType F V) then Some false
      else match getKind F V with
           | GetElementPtrInst op _ => LooksLikeFrameRef fuel' A F op
           | Argument => Some true
           | _ => Some false
           end
  end.

(** [CI->getCalledFunction()]: the name of the function called directly. *)
Definition getCalledFunction (F : Function) (callee : Value) : option string :=
  match getKind F callee with
  | GlobalFunction name => Some name
  | _ => None
  end.

(** [isa<IntrinsicInst>]: a direct call of a function with a reserved
    "llvm." name. *)
Definition isIntrinsicCall (F : Function) (callee : Value) : bool :=
  match getCalledFunction F callee with
  | Some name => String.prefix "llvm." name
  | None => false
  end.

(** The calls that LocalScan does not take for safepoints although they are
    no intrinsics: "Known functions emitted in codegen that are not
    safepoints". *)
Definition isKnownNonSafepoint (P : LateLowerGCFrame) (F : Function) (callee : Value) : bool :=
  match getCalledFunction F callee with
  | Some name =>
      bool_decide (Some callee = pointer_from_objref_func P) || String.eqb name "memcmp"
  | None => false
  end.

(** An instruction that LocalScan numbers as a safepoint. *)
Definition isSafepoint (P : LateLowerGCFrame) (F : Function) (I : Value) : bool :=
  match getKind F I with
  | CallInst callee _ _ _ _ =>
      negb (isIntrinsicCall F callee) && negb (isKnownNonSafepoint P F callee)
  | _ => false
  end.

Definition setReturnsTwice (S : State) (RT : list Value) : State :=
  mkState (MaxPtrNumber S) (MaxSafepointNumber S) (AllPtrNumbering S)
          (AllVectorNumbering S) (PtrNumbering S) (ReversePtrNumbering S)
          (Neighbors S) (BBStates S) (LoadRefinements S)
          (SafepointNumbering S) (ReverseSafepointNumbering S) RT
          (LiveSets S) (LiveIfLiveOut S) (Allocas S).

Definition setAllocas (S : State) (Al : list Value) : State :=
  mkState (MaxPtrNumber S) (MaxSafepointNumber S) (AllPtrNumbering S)
          (AllVectorNumbering S) (PtrNumbering S) (ReversePtrNumbering S)
          (Neighbors S) (BBStates S) (LoadRefinements S)
          (SafepointNumbering S) (ReverseSafepointNumbering S) (ReturnsTwice S)
          (LiveSets S) (LiveIfLiveOut S) Al.

Definition setSafepointInfo (BBS : BBState) (SafepointNumber : Z) : BBState :=
  mkBBState (Defs BBS) (PhiOuts BBS) (UpExposedUsesUnrooted BBS) (UpExposedUses BBS)
            (DownExposedUnrooted BBS) (LiveIn BBS) (LiveOut BBS) (UnrootedIn BBS)
            (UnrootedOut BBS) (Safepoints BBS ++ [SafepointNumber]) SafepointNumber true
            (Done BBS).

(** [AI->isArrayAllocation()] *)
Definition isArrayAllocation (F : Function) (count : Value) : bool :=
  match getKind F count with
  | ConstantInt n => negb (n =? 1)
  | _ => true
  end.

Definition setDone (BBS : BBState) : BBState :=
  mkBBState (Defs BBS) (PhiOuts BBS) (UpExposedUsesUnrooted BBS) (UpExposedUses BBS)
            (DownExposedUnrooted BBS)
            (BV.or (UpExposedUses BBS) (UpExposedUsesUnrooted BBS))
            (LiveOut BBS) (UnrootedIn BBS) (DownExposedUnrooted BBS)
            (Safepoints BBS) (TopmostSafepoint BBS) (HasSafepoint BBS) true.

(** The body of the loop of LocalScan over the instructions of [BB], for
    instruction [Inst]. *)
Definition scan_inst (fuel : nat) (P : LateLowerGCFrame) (F : Function) (S : State) (BB : BasicBlock)
    (Inst : Value) : Res (Function * State) :=
  let A := AddressSpace P in
  match getKind F Inst with
  | CallInst callee _ _ _ returns_twice =>
      if isIntrinsicCall F callee then
        (* Intrinsics are never GC uses/defs *)
        Ok (F, S)
      else
        '(F, S) ← MaybeNoteDef fuel P F S BB Inst (Safepoints (getBBS S BB)) (-2);
        '(F, S) ← NoteOperandUses fuel P F S BB Inst UsesUpExposed;
        '(F, S) ← foldl (fun r V =>
                           '(F, S) ← r;
                           if isUnionRep A (getType F V)
                           then NoteUse fuel P F S BB V UsesUpExposed
                           else Ok (F, S))
                        (Ok (F, S)) (operands (getKind F Inst));
        let S := if returns_twice then setReturnsTwice S (ReturnsTwice S ++ [Inst]) else S in
        if isKnownNonSafepoint P F callee then Ok (F, S)
        else
          let SafepointNumber := (NoteSafepoint S BB Inst).1 in
          let S := (NoteSafepoint S BB Inst).2 in
          Ok (F, setBBS S BB (setSafepointInfo (getBBS S BB) SafepointNumber))
  | LoadInst ptr tbaa =>
      (* If this is a load from an immutable, we know that this object will
         always be rooted as long as the object we're loading from is, so we
         can refine uses of this object to uses of the object we're loading
         from. *)
      '(RefinedPtr, F, S) ←
        (if isLoadFromImmut tbaa && isSpecialPtr A (getType F ptr) then
           Number fuel P F S ptr
         else if isPointerTy (getType F Inst) && isSpecialPtr A (getType F Inst) then
           match LooksLikeFrameRef fuel A F ptr with
           | None => OutOfFuel
           | Some true => Ok (-1, F, S) (* Loads from a jlcall argument array *)
           | Some false => Ok (-2, F, S)
           end
         else Ok (-2, F, S));
      '(F, S) ← MaybeNoteDef fuel P F S BB Inst (Safepoints (getBBS S BB)) RefinedPtr;
      NoteOperandUses fuel P F S BB Inst UsesUpExposedUnrooted
  | SelectInst _ _ _ =>
      (* We need to insert an extra select for the GC root *)
      if negb (isSpecialPtr A (getType F Inst)) then Ok (F, S)
      else if negb (getValueAddrSpace F Inst =? Tracked A) then
        match AllPtrNumbering S !! Inst with
        | Some _ => Ok (F, S)
        | None => '(_, F, S) ← LiftSelect fuel A F S Inst; Ok (F, S)
        end
      else
        '(F, S) ← MaybeNoteDef fuel P F S BB Inst (Safepoints (getBBS S BB)) (-2);
        NoteOperandUses fuel P F S BB Inst UsesUpExposedUnrooted
  | PHINode incoming =>
      if negb (isSpecialPtr A (getType F Inst)) then Ok (F, S)
      else if negb (getValueAddrSpace F Inst =? Tracked A) then
        (* We need to insert an extra phi for the GC root *)
        match AllPtrNumbering S !! Inst with
        | Some _ => Ok (F, S)
        | None => '(_, F, S) ← LiftPhi fuel P F S Inst; Ok (F, S)
        end
      else
        '(F, S) ← MaybeNoteDef fuel P F S BB Inst (Safepoints (getBBS S BB)) (-2);
        foldl (fun r (inc : Value * BasicBlock) =>
                 '(F, S) ← r; NoteUse fuel P F S inc.2 inc.1 UsesPhiOuts)
              (Ok (F, S)) incoming
  | StoreInst _ _ | ReturnInst _ =>
      NoteOperandUses fuel P F S BB Inst UsesUpExposedUnrooted
  | AddrSpaceCastInst _ =>
      if getValueAddrSpace F Inst =? Tracked A
      then MaybeNoteDef fuel P F S BB Inst (Safepoints (getBBS S BB)) (-2)
      else Ok (F, S)
  | AllocaInst allocated count =>
      if isSpecialPtr A allocated && negb (isArrayAllocation F count)
         && match allocated with PointerTy _ AS => AS =? Tracked A | _ => false end
      then Ok (F, setAllocas S (Allocas S ++ [Inst]))
      else Ok (F, S)
  | _ => Ok (F, S)
  end.

(** The instruction before [Inst] in its block, as the reverse iterator
    finds it after the body has run (LLVM 4 and later: the iterator stays on
    its instruction, so an instruction inserted just before it is visited
    next). *)
Fixpoint inst_before (Inst : Value) (l : list Value) : option Value :=
  match l with
  | x :: ((y :: _) as l') => if decide (y = Inst) then Some x else inst_before Inst l'
  | _ => None
  end.

(** [for (auto it = BB.rbegin(); it != BB.rend(); ++it)], at most [n]
    instructions. *)
Fixpoint scan_block (n : nat) (fuel : nat) (P : LateLowerGCFrame) (F : Function) (S : State)
    (BB : BasicBlock) (it : option Value) : Res (Function * State) :=
  match it with
  | None => Ok (F, S)
  | Some Inst =>
      match n with
      | O => OutOfFuel
      | Datatypes.S n' =>
          '(F, S) ← scan_inst fuel P F S BB Inst;
          scan_block n' fuel P F S BB (inst_before Inst (getInsts F BB))
      end
  end.

(** The body of the loop of LocalScan over the blocks, for block [b]. *)
Definition LocalScan_block (fuel : nat) (P : LateLowerGCFrame)
    (r : Res (Function * State)) (b : BasicBlock * list Value) : Res (Function * State) :=
  '(F, St) ← r;
  let BB := b.1 in
  let St := setBBS St BB (getBBS St BB) in
  '(F, St) ← scan_block fuel fuel P F St BB (last (getInsts F BB));
  (* Pre-seed the dataflow variables *)
  Ok (F, setBBS St BB (setDone (getBBS St BB))).

(** [LocalScan(F)]: also gives back the function, to which lifted phis and
    selects were added.  [fuel] bounds every loop of the model that the
    source leaves unbounded: the walks to a base value and the number of
    instructions scanned in a block. *)
Definition LocalScan (fuel : nat) (P : LateLowerGCFrame) (F : Function)
    : Res (Function * State) :=
  foldl (LocalScan_block fuel P) (Ok (F, State_init)) (blocks F).

(** ** Root placement *)

(** IRBuilder: every instruction is created before the insertion point. *)
Definition CreateBitCast (F : Function) (InsertPt : Value) (V : Value) (DestTy : Ty)
    : Function * Value :=
  if Ty_eqb (getType F V) DestTy then (F, V)
  else createBefore F InsertPt (BitCastInst V) DestTy.

Definition CreateConstGEP1_32 (P : LateLowerGCFrame) (F : Function) (InsertPt : Value)
    (Ptr : Value) (Idx0 : Z) : Function * Value :=
  let '(F, Idx) := addValue F (ConstantInt Idx0) (T_int32 P) in
  createBefore F InsertPt (GetElementPtrInst Ptr [Idx]) (getType F Ptr).

Definition pointeeType (t : Ty) : Ty :=
  match t with
  | PointerTy elt _ => elt
  | _ => VoidTy
  end.

(** [builder.Insert(get_pgcstack(ptlsStates))] *)
Definition Insert_pgcstack (P : LateLowerGCFrame) (F : Function) (InsertPt : Value)
    (ptlsStates : Value) : Function * Value :=
  let '(F, offset) := addValue F (ConstantInt (pgcstack_offset P)) (T_int32 P) in
  createBefore F InsertPt (GetElementPtrInst ptlsStates [offset]) (getType F ptlsStates).

Fixpoint inst_after (Inst : Value) (l : list Value) : option Value :=
  match l with
  | x :: l' => if decide (x = Inst) then head l' else inst_after Inst l'
  | [] => None
  end.

(** What PushGCFrame and PopGCFrame created, for reference. *)
Record PushInfo := mkPushInfo {
  push_count_store : Value;   (* store of the root count to slot 0 *)
  push_prev_store : Value;    (* store of the previous frame to slot 1 *)
  push_publish_store : Value; (* store of the frame to pgcstack *)
}.

(** [PushGCFrame(gcframe, NRoots, InsertAfter)], [NRoots] unsigned. *)
Definition PushGCFrame (P : LateLowerGCFrame) (F : Function) (gcframe : Value) (NRoots : Z)
    (InsertAfter : Value) : Res (Function * PushInfo) :=
  match getParent F InsertAfter with
  | None => Abort "ptlsStates has no parent"
  | Some BB =>
      match inst_after InsertAfter (getInsts F BB), T_prjlvalue P, T_ppjlvalue P with
      | Some Pt, Some T, Some TPP =>
          let '(F, slot0) := CreateConstGEP1_32 P F Pt gcframe 0 in
          let '(F, slot0c) := CreateBitCast F Pt slot0 (PointerTy (T_size P) 0) in
          let '(F, count) := addValue F (ConstantInt (to_unsigned (Z.shiftl NRoots 1))) (T_size P) in
          let '(F, st1) := createBefore F Pt (StoreInst count slot0c) VoidTy in
          let '(F, pgcstack) := Insert_pgcstack P F Pt InsertAfter in
          let '(F, prev) := createBefore F Pt (LoadInst pgcstack [])
                                         (pointeeType (getType F pgcstack)) in
          let '(F, slot1) := CreateConstGEP1_32 P F Pt gcframe 1 in
          let '(F, slot1c) := CreateBitCast F Pt slot1 (PointerTy TPP 0) in
          let '(F, st2) := createBefore F Pt (StoreInst prev slot1c) VoidTy in
          let '(F, pgc) := CreateBitCast F Pt pgcstack (PointerTy (PointerTy T 0) 0) in
          let '(F, st3) := createBefore F Pt (StoreInst gcframe pgc) VoidTy in
          Ok (F, mkPushInfo st1 st2 st3)
      | None, _, _ => Abort "no instruction after ptlsStates"
      | _, _, _ => Abort "T_prjlvalue is null"
      end
  end.

(** [PopGCFrame(gcframe, InsertBefore)]; gives back the store that restores
    pgcstack. *)
Definition PopGCFrame (P : LateLowerGCFrame) (F : Function) (gcframe : Value)
    (InsertBefore : Value) (ptlsStates : Value) : Res (Function * Value) :=
  match T_prjlvalue P with
  | Some T =>
      let '(F, gcpop) := CreateConstGEP1_32 P F InsertBefore gcframe 1 in
      let '(F, inst) := createBefore F InsertBefore (LoadInst gcpop [])
                                     (pointeeType (getType F gcpop)) in
      let '(F, pgcstack) := Insert_pgcstack P F InsertBefore ptlsStates in
      let '(F, pgc) := CreateBitCast F InsertBefore pgcstack (PointerTy T 0) in
      let '(F, st) := createBefore F InsertBefore (StoreInst inst pgc) VoidTy in
      Ok (F, st)
  | None => Abort "T_prjlvalue is null"
  end.

(** [GetPtrForNumber(S, Num, InsertionPoint)] *)
Definition GetPtrForNumber (P : LateLowerGCFrame) (F : Function) (S : State) (Num : Z)
    (InsertionPoint : Value) : Res (Function * Value) :=
  match ReversePtrNumbering S !! Num with
  | None => Abort "null value"
  | Some Val =>
      if isSpecialPtrVec (AddressSpace P) (getType F Val) then
        let AllNums := default [] (AllVectorNumbering S !! Val) in
        let Idx := match list_find (fun n => n = Num) AllNums with
                   | Some (i, _) => i
                   | None => length AllNums
                   end in
        let '(F, c) := addValue F (ConstantInt (Z.of_nat Idx)) (IntegerTy 32) in
        Ok (createBefore F InsertionPoint (ExtractElementInst Val c)
                         (match getType F Val with VectorTy elt _ => elt | t => t end))
      else Ok (F, Val)
  end.

(** [PlaceGCFrameStore]; gives back the store. *)
Definition PlaceGCFrameStore (P : LateLowerGCFrame) (F : Function) (S : State) (R : Z)
    (MinColorRoot : Z) (Colors : list Z) (GCFrame : Value) (InsertionPoint : Value)
    : Res (Function * Value) :=
  match T_prjlvalue P with
  | None => Abort "T_prjlvalue is null"
  | Some T =>
      '(F, Val) ← GetPtrForNumber P F S R InsertionPoint;
      let '(F, slot) := addValue F (ConstantInt (to_unsigned (getColor Colors R + MinColorRoot)))
                                 (T_int32 P) in
      let '(F, gep) := createBefore F InsertionPoint (GetElementPtrInst GCFrame [slot])
                                    (PointerTy T 0) in
      let '(F, Val) := MaybeExtractUnion (AddressSpace P) F Val InsertionPoint in
      (* Pointee types don't have semantics, so the optimizer is free to
         rewrite them if convenient. We need to change it back here for the
         store. *)
      let '(F, Val) := if negb (Ty_eqb (getType F Val) T)
                       then createBefore F InsertionPoint (BitCastInst Val) T
                       else (F, Val) in
      Ok (createBefore F InsertionPoint (StoreInst Val gep) VoidTy)
  end.

(** The worklist loop of AddInPredLiveOuts.  The state is the work list,
    the visited blocks, [First] and [LiveIn]. *)
Definition AddInPred_block (F : Function) (S : State)
    (a : list BasicBlock * list BasicBlock * bool * BitVector) (Pred : BasicBlock)
    : list BasicBlock * list BasicBlock * bool * BitVector :=
  let '(WorkList, Visited, First, LiveIn) := a in
  if bool_decide (Pred ∈ Visited) then a
  else if negb (HasSafepoint (getBBS S Pred))
  then (WorkList ++ [Pred], Pred :: Visited, First, LiveIn)
  else
    let LastSP := default 0 (head (Safepoints (getBBS S Pred))) in
    let LS := default [] (LiveSets S !! Z.to_nat LastSP) in
    if First then (WorkList, Pred :: Visited, false, BV.or LiveIn LS)
    else (WorkList, Pred :: Visited, false, BV.and LiveIn LS).

Fixpoint AddInPred_loop (fuel : nat) (F : Function) (S : State)
    (a : list BasicBlock * list BasicBlock * bool * BitVector) : Res BitVector :=
  match fuel with
  | O => OutOfFuel
  | Datatypes.S fuel' =>
      let '(WorkList, Visited, First, LiveIn) := a in
      match last WorkList with
      | None => Ok LiveIn
      | Some BB =>
          AddInPred_loop fuel' F S
            (foldl (AddInPred_block F S)
                   (take (length WorkList - 1) WorkList, Visited, First, LiveIn)
                   (predecessors F BB))
      end
  end.

(** [AddInPredLiveOuts(BB, LiveIn, S)], from an empty [LiveIn]. *)
Definition AddInPredLiveOuts (F : Function) (S : State) (BB : BasicBlock) : Res BitVector :=
  AddInPred_loop (Datatypes.S (Datatypes.S (length (blocks F)))) F S ([BB], [], true, BV.empty).

(** The stores before one safepoint: the body of the loop over
    [BBS.Safepoints]. *)
Definition PlaceStores_safepoint (P : LateLowerGCFrame) (S : State) (MinColorRoot : Z)
    (Colors : list Z) (GCFrame : Value)
    (r : Res (Function * BitVector * list Value)) (sp : Z)
    : Res (Function * BitVector * list Value) :=
  '(F, LastLive, stores) ← r;
  let NowLive := default [] (LiveSets S !! Z.to_nat sp) in
  match ReverseSafepointNumbering S !! Z.to_nat sp with
  | None => Abort "ReverseSafepointNumbering out of range"
  | Some InsertionPoint =>
      '(F, stores) ←
        foldl (fun r (Idx : nat) =>
                 '(F, stores) ← r;
                 if negb (HasBitSet LastLive (Z.of_nat Idx)) then
                   '(F, st) ← PlaceGCFrameStore P F S (Z.of_nat Idx) MinColorRoot Colors
                                                GCFrame InsertionPoint;
                   Ok (F, stores ++ [st])
                 else Ok (F, stores))
              (Ok (F, stores)) (BV.bits NowLive);
      Ok (F, NowLive, stores)
  end.

(** [PlaceGCFrameStores]; gives back the stores it created. *)
Definition PlaceGCFrameStores (P : LateLowerGCFrame) (F : Function) (S : State)
    (MinColorRoot : Z) (Colors : list Z) (GCFrame : Value) : Res (Function * list Value) :=
  foldl (fun r (b : BasicBlock * list Value) =>
           '(F, stores) ← r;
           let BBS := getBBS S b.1 in
           if negb (HasSafepoint BBS) then Ok (F, stores)
           else
             LiveIn ← AddInPredLiveOuts F S b.1;
             '(F, _, stores) ←
               foldl (PlaceStores_safepoint P S MinColorRoot Colors GCFrame)
                     (Ok (F, LiveIn, stores)) (rev (Safepoints BBS));
             Ok (F, stores))
        (Ok (F, [])) (blocks F).

Definition isLifetimeMarker (F : Function) (U : Value) : bool :=
  match getKind F U with
  | CallInst callee _ _ _ _ =>
      match getCalledFunction F callee with
      | Some name => String.prefix "llvm.lifetime.start" name
                     || String.prefix "llvm.lifetime.end" name
      | None => false
      end
  | _ => false
  end.

(** [RecursivelyVisit<IntrinsicInst>] with the callback of
    PlaceRootsAndUpdateCalls: collects the lifetime markers on [V]. *)
Fixpoint RecursivelyVisit (fuel : nat) (F : Function) (V : Value) (ToDelete : list Value)
    : Res (list Value) :=
  match fuel with
  | O => OutOfFuel
  | Datatypes.S fuel' =>
      foldl (fun r TheUser =>
               ToDelete ← r;
               let ToDelete :=
                 if isLifetimeMarker F TheUser then ToDelete ++ [TheUser] else ToDelete in
               match getKind F TheUser with
               | CallInst _ _ _ _ _ | LoadInst _ _ | SelectInst _ _ _ | PHINode _
               | StoreInst _ _ => Ok ToDelete
               | GetElementPtrInst _ _ | BitCastInst _ | AddrSpaceCastInst _ =>
                   RecursivelyVisit fuel' F TheUser ToDelete
               | _ => Abort "Unexpected instruction"
               end)
            (Ok ToDelete) (users F V)
  end.

(** What PlaceRootsAndUpdateCalls emitted, for reference. *)
Record FrameInfo := mkFrameInfo {
  frame_NRoots : Z;
  frame_alloca : Value;
  frame_push : PushInfo;
  frame_stores : list Value;
  frame_pops : list Value;
}.

(** The loop that sinks the allocas into the frame. *)
Definition ReplaceAlloca (P : LateLowerGCFrame) (gcframe : Value)
    (r : Res (Function * Z)) (AI : Value) : Res (Function * Z) :=
  '(F, AllocaSlot) ← r;
  match T_prjlvalue P with
  | None => Abort "T_prjlvalue is null"
  | Some T =>
      let '(F, slot) := addValue F (ConstantInt AllocaSlot) (T_int32 P) in
      let '(F, gep) := addValue F (GetElementPtrInst gcframe [slot]) (PointerTy T 0) in
      let F := insertAfter F gcframe gep in
      (* Check for lifetime intrinsics on this alloca, we can't keep them
         because we're changing the semantics *)
      ToDelete ← RecursivelyVisit (Datatypes.S (next_value F)) F AI [];
      let F := foldl eraseFromParent F ToDelete in
      let F := replaceAllUsesWith F AI gep in
      let F := eraseFromParent F AI in
      Ok (F, to_unsigned (AllocaSlot + 1))
  end.

Definition MaxColor (Colors : list Z) : Z :=
  foldl (fun Max C => if Max <? C then C else Max) (-1) Colors.

(** [PlaceRootsAndUpdateCalls(F, Colors, S, CallFrames)]; [None] when no
    frame is needed. *)
Definition PlaceRootsAndUpdateCalls (P : LateLowerGCFrame) (F : Function)
    (Colors : list Z) (S : State) : Res (Function * option FrameInfo) :=
  let MaxColor := MaxColor Colors in
  (* Insert instructions for the actual gc frame *)
  if negb (MaxColor =? -1) || negb (length (Allocas S) =? 0)%nat then
    let NRoots := to_unsigned (MaxColor + 1 + Z.of_nat (length (Allocas S))) in
    match T_prjlvalue P, ptlsStates P, head (getInsts F (getEntryBlock F)) with
    | Some T, Some ptls, Some first =>
        (* Create GC Frame *)
        let '(F, n) := addValue F (ConstantInt (to_unsigned (NRoots + 2))) (T_int32 P) in
        let '(F, gcframe) := addValue F (AllocaInst T n) (PointerTy T 0) in
        let F := insertBefore F first gcframe in
        (* Zero out gcframe *)
        let '(F, tempSlot_i8) := addValue F (BitCastInst gcframe) (PointerTy (IntegerTy 8) 0) in
        let F := insertAfter F gcframe tempSlot_i8 in
        let '(F, memset) := addValue F (GlobalFunction "llvm.memset.p0i8.i32") VoidTy in
        let '(F, val) := addValue F (ConstantInt 0) (IntegerTy 8) in
        let '(F, len) :=
          addValue F (ConstantInt (to_unsigned (sizeof_ptr P * to_unsigned (NRoots + 2))))
                   (T_int32 P) in
        let '(F, align) := addValue F (ConstantInt 0) (T_int32 P) in
        let '(F, vol) := addValue F (ConstantInt 0) (IntegerTy 1) in
        let '(F, zeroing) :=
          addValue F (CallInst memset [tempSlot_i8; val; len; align; vol] [] C_CC false)
                   VoidTy in
        let F := insertAfter F tempSlot_i8 zeroing in
        (* Push GC Frame *)
        '(F, push) ← PushGCFrame P F gcframe NRoots ptls;
        (* Replace Allocas *)
        '(F, AllocaSlot) ← foldl (ReplaceAlloca P gcframe) (Ok (F, 2)) (Allocas S);
        let MinColorRoot := AllocaSlot in
        (* Insert GC frame stores *)
        '(F, stores) ← PlaceGCFrameStores P F S MinColorRoot Colors gcframe;
        (* Insert GCFrame pops *)
        '(F, pops) ←
          foldl (fun r (b : BasicBlock * list Value) =>
                   '(F, pops) ← r;
                   match getTerminator F b.1 with
                   | Some Term =>
                       match getKind F Term with
                       | ReturnInst _ =>
                           '(F, pop) ← PopGCFrame P F gcframe Term ptls;
                           Ok (F, pops ++ [pop])
                       | _ => Ok (F, pops)
                       end
                   | None => Ok (F, pops)
                   end)
                (Ok (F, [])) (blocks F);
        Ok (F, Some (mkFrameInfo NRoots gcframe push stores pops))
    | None, _, _ => Abort "T_prjlvalue is null"
    | _, None, _ => Abort "ptlsStates is null"
    | _, _, None => Abort "the entry block is empty"
    end
  else Ok (F, None).

(** ** Clean-up of the IR (CleanupIR) *)

Definition to_size_t (z : Z) : Z := z mod 2 ^ 64.

(** IRBuilder::CreateBitCast on any value: the value itself when the type
    is already the wanted one, a constant expression for a constant, an
    instruction before the insertion point otherwise. *)
Definition Builder_CreateBitCast (F : Function) (InsertPt : Value) (V : Value) (DestTy : Ty)
    : Function * Value :=
  if Ty_eqb (getType F V) DestTy then (F, V)
  else if isConstant (getKind F V) then addValue F OtherConstant DestTy
  else createBefore F InsertPt (BitCastInst V) DestTy.

(** What CleanupIR did, for reference. *)
Record CleanupInfo := mkCleanupInfo {
  ChangesMade : bool;
  maxframeargs : Z;
  jlcalls : list (Value * Value * Z);   (* a lowered jlcall, its replacement and its
                                           number of frame arguments *)
}.

(** The stores of the frame arguments of a jlcall into the scratch frame. *)
Definition StoreFrameArgs (P : LateLowerGCFrame) (T : Ty) (Frame CI : Value)
    (F : Function) (args : list Value) : Function :=
  (foldl (fun (a : Function * Z) arg =>
            let '(F, slot) := a in
            let '(F, c) := addValue F (ConstantInt slot) (T_int32 P) in
            let '(F, gep) := createBefore F CI (GetElementPtrInst Frame [c]) (PointerTy T 0) in
            let '(F, _) := createBefore F CI (StoreInst arg gep) VoidTy in
            (F, slot + 1))
         (F, 0) args).1.

(** The arm of CleanupIR for a call with calling convention JLCALL_CC or
    JLCALL_F_CC; gives back the replacement call and the number of frame
    arguments. *)
Definition LowerJLCall (P : LateLowerGCFrame) (F : Function) (Frame : option Value)
    (CI callee : Value) (args : list Value) (CC : CallingConv) (returns_twice : bool)
    : Res (Function * Value * Z) :=
  match T_prjlvalue P, Frame with
  | Some T, Some Frame =>
      let T_pprjlvalue := PointerTy T 0 in
      let isF := CallingConv_eqb CC JLCALL_F_CC in
      let nargs := Z.of_nat (length args) in
      let nframeargs := to_size_t (nargs - (if isF then 1 else 0)) in
      let ReplacementArgs := if isF then take 1 args else [] in
      let frameargs := if isF then drop 1 args else args in
      let F := StoreFrameArgs P T Frame CI F frameargs in
      let '(F, argv) :=
        if nframeargs =? 0 then addValue F ConstantPointerNull T_pprjlvalue
        else (F, Frame) in
      let '(F, argc) := addValue F (ConstantInt (to_unsigned nframeargs)) (T_int32 P) in
      let FTy := if isF then FunctionTy T [T; T_pprjlvalue; T_int32 P]
                 else FunctionTy T [T_pprjlvalue; T_int32 P] in
      let '(F, newFptr) := Builder_CreateBitCast F CI callee (PointerTy FTy 0) in
      let '(F, NewCall) :=
        createBefore F CI (CallInst newFptr (ReplacementArgs ++ [argv; argc]) [] C_CC
                                    returns_twice) T in
      let F := replaceAllUsesWith F CI NewCall in
      Ok (F, NewCall, nframeargs)
  | _, _ => Abort "T_prjlvalue"
  end.

(** The arm of CleanupIR for a call of julia.gc_alloc_obj. *)
Definition LowerAllocObj (P : LateLowerGCFrame) (F : Function) (CI : Value)
    (args : list Value) : Res Function :=
  _ ← assert (length args =? 3)%nat "CI->getNumArgOperands() == 3";
  match args, T_prjlvalue P, T_pjlvalue_der P, T_ppjlvalue_der P with
  | [ptls; szv; tag], Some T, Some Tder, Some Tpder =>
      match getKind F szv with
      | ConstantInt sz0 =>
          let sz := to_size_t sz0 in
          (* This is strongly architecture and OS dependent *)
          let '(offset, osize) := jl_gc_classify_pools P sz in
          '(F, newI) ←
            (if offset <? 0 then
               match big_alloc_func P with
               | Some big =>
                   let '(F, c) := addValue F (ConstantInt (to_size_t (sz + sizeof_ptr P)))
                                           (T_size P) in
                   Ok (createBefore F CI (CallInst big [ptls; c] [] C_CC false) T)
               | None => Abort "big_alloc_func is null"
               end
             else
               match pool_alloc_func P with
               | Some pool =>
                   let '(F, pool_offs) := addValue F (ConstantInt offset) (T_int32 P) in
                   let '(F, pool_osize) := addValue F (ConstantInt osize) (T_int32 P) in
                   Ok (createBefore F CI
                         (CallInst pool [ptls; pool_offs; pool_osize] [] C_CC false) T)
               | None => Abort "pool_alloc_func is null"
               end);
          let '(F, derived) := createBefore F CI (AddrSpaceCastInst newI) Tder in
          let '(F, cast) := Builder_CreateBitCast F CI derived Tpder in
          let '(F, m1) := addValue F (ConstantInt (-1)) (T_size P) in
          let '(F, tagaddr) := createBefore F CI (GetElementPtrInst cast [m1]) Tpder in
          let '(F, _) := createBefore F CI (StoreInst tag tagaddr) VoidTy in
          Ok (replaceAllUsesWith F CI newI)
      | _ => Abort "cast<ConstantInt>"
      end
  | _, _, _, _ => Abort "julia.gc_alloc_obj"
  end.

(** The body of the loop of CleanupIR over the instructions. *)
Definition CleanupInst (P : LateLowerGCFrame) (Frame : option Value)
    (r : Res (Function * CleanupInfo)) (Inst : Value) : Res (Function * CleanupInfo) :=
  '(F, info) ← r;
  match getKind F Inst with
  | CallInst callee args bundles CC returns_twice =>
      r ←
        (if bool_decide (gc_flush_func P = Some callee) then
           (* No replacement *)
           Ok (Some (F, info))
         else if bool_decide (pointer_from_objref_func P = Some callee) then
           let '(F, ptr) := createBefore F Inst (PtrToIntInst (default 0%nat (head (operands (getKind F Inst)))))
                                         (getType F Inst) in
           Ok (Some (replaceAllUsesWith F Inst ptr, info))
         else if bool_decide (alloc_obj_func P = Some callee) then
           F ← LowerAllocObj P F Inst args; Ok (Some (F, info))
         else if CallingConv_eqb CC JLCALL_CC || CallingConv_eqb CC JLCALL_F_CC then
           '(F, NewCall, nframeargs) ← LowerJLCall P F Frame Inst callee args CC returns_twice;
           Ok (Some (F, mkCleanupInfo (ChangesMade info)
                          (Z.max (maxframeargs info) nframeargs)
                          (jlcalls info ++ [(Inst, NewCall, nframeargs)])))
         else if (length args =? length (operands (getKind F Inst)))%nat then
           (* No operand bundle to lower *)
           Ok None
         else
           let '(F, NewCall) := createBefore F Inst (CallInst callee args [] CC returns_twice)
                                             (getType F Inst) in
           Ok (Some (replaceAllUsesWith F Inst NewCall, info)));
      match r with
      | None => Ok (F, info)
      | Some (F, info) =>
          Ok (eraseFromParent F Inst,
              mkCleanupInfo true (maxframeargs info) (jlcalls info))
      end
  | _ => Ok (F, info)
  end.

Definition setOperand0 (F : Function) (AI : Value) (c : Value) : Function :=
  match values F !! AI with
  | Some (mkValue (AllocaInst t _) ty) =>
      setValues F (<[AI := mkValue (AllocaInst t c) ty]> (values F))
  | _ => F
  end.

(** The body of the loop of CleanupIR over the blocks. *)
Definition CleanupBlock (P : LateLowerGCFrame) (Frame : option Value)
    (r : Res (Function * CleanupInfo)) (b : BasicBlock * list Value)
    : Res (Function * CleanupInfo) :=
  '(F, info) ← r;
  foldl (CleanupInst P Frame) (Ok (F, info)) (getInsts F b.1).

(** [CleanupIR(F)]; also gives back the scratch frame when it is kept. *)
Definition CleanupIR (P : LateLowerGCFrame) (F : Function)
    : Res (Function * CleanupInfo * option Value) :=
  (* We create one alloca for all the jlcall frames that haven't been
     processed yet. *)
  let '(F, Frame) :=
    match T_prjlvalue P, head (getInsts F (getEntryBlock F)) with
    | Some T, Some StartOff =>
        let '(F, c) := addValue F (ConstantInt 0) (T_int32 P) in
        let '(F, Frame) := createBefore F StartOff (AllocaInst T c) (PointerTy T 0) in
        (F, Some Frame)
    | Some T, None =>
        let '(F, c) := addValue F (ConstantInt 0) (T_int32 P) in
        let '(F, Frame) := addValue F (AllocaInst T c) (PointerTy T 0) in
        (F, Some Frame)
    | None, _ => (F, None)
    end in
  '(F, info) ← foldl (CleanupBlock P Frame) (Ok (F, mkCleanupInfo false 0 [])) (blocks F);
  match Frame with
  | Some Fr =>
      if maxframeargs info =? 0 then Ok (eraseFromParent F Fr, info, None)
      else
        let '(F, c) := addValue F (ConstantInt (to_unsigned (maxframeargs info))) (T_int32 P) in
        Ok (setOperand0 F Fr c, info, Some Fr)
  | None => Ok (F, info, None)
  end.

(** ** The pass on a function *)

(** What doInitialization takes from outside the module. *)
Record Config := mkConfig {
  cfg_AddressSpace : AddressSpaces;
  cfg_pgcstack_offset : Z;
  cfg_sizeof_ptr : Z;
  cfg_classify_pools : Z -> Z * Z;
  cfg_IntPtrBits : nat;     (* M.getDataLayout().getIntPtrType(ctx) *)
}.

Definition isFunctionNamed (name : string) (vi : ValueInfo) : bool :=
  match kind vi with
  | GlobalFunction n => String.eqb n name
  | _ => false
  end.

(** [M.getFunction(name)].  The module is read through the value table of
    the function, which holds the global functions of its module. *)
Definition getFunction (F : Function) (name : string) : option Value :=
  match list_find (fun e : Value * ValueInfo => isFunctionNamed name e.2 = true)
                  (map_to_list (values F)) with
  | Some (_, e) => Some e.1
  | None => None
  end.

Definition getReturnType (F : Function) (Fn : Value) : Ty :=
  match getType F Fn with
  | PointerTy (FunctionTy ret _) _ => ret
  | _ => VoidTy
  end.

(** [doInitialization(M)]; gives back the module, in which the allocator
    functions may have been declared. *)
Definition doInitialization (cfg : Config) (F : Function) : LateLowerGCFrame * Function :=
  let A := cfg_AddressSpace cfg in
  let ptls_getter := getFunction F "jl_get_ptls_states" in
  let gc_flush_func := getFunction F "julia.gcroot_flush" in
  let pointer_from_objref_func := getFunction F "julia.pointer_from_objref" in
  let T_size := IntegerTy (cfg_IntPtrBits cfg) in
  let T_int8 := IntegerTy 8 in
  let T_pint8 := PointerTy T_int8 0 in
  let T_int32 := IntegerTy 32 in
  let mk := mkPass A (cfg_pgcstack_offset cfg) (cfg_sizeof_ptr cfg) (cfg_classify_pools cfg) in
  match getFunction F "julia.gc_alloc_obj" with
  | Some alloc_obj_func =>
      let T_prjlvalue := getReturnType F alloc_obj_func in
      let '(F, pool_alloc_func) :=
        match getFunction F "jl_gc_pool_alloc" with
        | Some f => (F, f)
        | None => addValue F (GlobalFunction "jl_gc_pool_alloc")
                    (PointerTy (FunctionTy T_prjlvalue [T_pint8; T_int32; T_int32]) 0)
        end in
      let '(F, big_alloc_func) :=
        match getFunction F "jl_gc_big_alloc" with
        | Some f => (F, f)
        | None => addValue F (GlobalFunction "jl_gc_big_alloc")
                    (PointerTy (FunctionTy T_prjlvalue [T_pint8; T_size]) 0)
        end in
      let T_jlvalue := pointeeType T_prjlvalue in
      let T_pjlvalue := PointerTy T_jlvalue 0 in
      (mk (Some T_prjlvalue) (Some (PointerTy T_pjlvalue 0)) T_size T_int8 T_int32 T_pint8
          (Some (PointerTy T_jlvalue (Derived A))) (Some (PointerTy T_prjlvalue (Derived A)))
          ptls_getter gc_flush_func pointer_from_objref_func
          (Some alloc_obj_func) (Some pool_alloc_func) (Some big_alloc_func) None,
       F)
  | None =>
      match ptls_getter with
      | Some getter =>
          let T_ppjlvalue := pointeeType (getReturnType F getter) in
          let T_pjlvalue := pointeeType T_ppjlvalue in
          let T_jlvalue := pointeeType T_pjlvalue in
          let T_prjlvalue := PointerTy T_jlvalue (Tracked A) in
          (mk (Some T_prjlvalue) (Some T_ppjlvalue) T_size T_int8 T_int32 T_pint8
              (Some (PointerTy T_jlvalue (Derived A))) (Some (PointerTy T_prjlvalue (Derived A)))
              ptls_getter gc_flush_func pointer_from_objref_func None None None None,
           F)
      | None =>
          (mk None None T_size T_int8 T_int32 T_pint8 None None
              ptls_getter gc_flush_func pointer_from_objref_func None None None None,
           F)
      end
  end.

Definition set_ptlsStates (P : LateLowerGCFrame) (v : option Value) : LateLowerGCFrame :=
  mkPass (AddressSpace P) (pgcstack_offset P) (sizeof_ptr P) (jl_gc_classify_pools P)
         (T_prjlvalue P) (T_ppjlvalue P) (T_size P) (T_int8 P) (T_int32 P) (T_pint8 P)
         (T_pjlvalue_der P) (T_ppjlvalue_der P) (ptls_getter P) (gc_flush_func P)
         (pointer_from_objref_func P) (alloc_obj_func P) (pool_alloc_func P)
         (big_alloc_func P) v.

Definition is_ptls_call (P : LateLowerGCFrame) (F : Function) (Inst : Value) : bool :=
  match getKind F Inst with
  | CallInst callee _ _ _ _ => bool_decide (ptls_getter P = Some callee)
  | _ => false
  end.

(** The search of the entry block for the call of the ptls getter. *)
Definition find_ptlsStates (P : LateLowerGCFrame) (F : Function) : option Value :=
  match list_find (fun Inst => is_ptls_call P F Inst = true)
                  (getInsts F (getEntryBlock F)) with
  | Some (_, Inst) => Some Inst
  | None => None
  end.

(** What the pass did to a function: the rewritten function, the GC frame
    emitted by the root placement (if that phase ran and emitted one) and
    the outcome of the clean-up. *)
Record PassResult := mkPassResult {
  result_function : Function;
  result_frame : option FrameInfo;
  result_cleanup : CleanupInfo;
}.

(** [runOnFunction(F)].  The bounds of the loops of the model are
    parameters: [scan_fuel] instructions per block for LocalScan,
    [dataflow_fuel] trips for the dataflow. *)
Definition runOnFunction (scan_fuel dataflow_fuel : nat) (P : LateLowerGCFrame)
    (F : Function) : Res PassResult :=
  match ptls_getter P with
  | None => '(F, info, _) ← CleanupIR P F; Ok (mkPassResult F None info)
  | Some _ =>
      match find_ptlsStates P F with
      | None => '(F, info, _) ← CleanupIR P F; Ok (mkPassResult F None info)
      | Some ptls =>
          let P := set_ptlsStates P (Some ptls) in
          '(F, St) ← LocalScan scan_fuel P F;
          St ← ComputeLiveness dataflow_fuel F St;
          '(Colors, _) ← ColorRoots St;
          '(F, frame) ← PlaceRootsAndUpdateCalls P F Colors St;
          '(F, info, _) ← CleanupIR P F;
          Ok (mkPassResult F frame info)
      end
  end.

(** The pass as the pass manager runs it on a function of a module. *)
Definition LateLowerGCFramePass (scan_fuel dataflow_fuel : nat) (cfg : Config)
    (F : Function) : Res PassResult :=
  let '(P, F) := doInitialization cfg F in
  runOnFunction scan_fuel dataflow_fuel P F.

(** The safepoints of a function: the instructions LocalScan would number. *)
Definition safepoints (P : LateLowerGCFrame) (F : Function) : list Value :=
  b ← blocks F; filter (fun Inst => isSafepoint P F Inst = true) b.2.

(** ** Example functions *)

Module Examples.

Definition T_jlvalue : Ty := NamedTy "jl_value_t".
Definition T_prjl : Ty := PointerTy T_jlvalue 10.
Definition T_pjl_der : Ty := PointerTy T_jlvalue 11.
Definition T_ppjl : Ty := PointerTy (PointerTy T_jlvalue 0) 0.
Definition T_getter : Ty := PointerTy (FunctionTy (PointerTy T_ppjl 0) []) 0.
Definition T_fn : Ty := PointerTy (FunctionTy VoidTy [T_prjl]) 0.
Definition T_jlfn : Ty := PointerTy (FunctionTy T_prjl []) 0.

Definition spaces : AddressSpaces := mkAddressSpaces 10 11 10 12.
Definition cfg : Config := mkConfig spaces 0 8 (fun sz => (0, sz)) 64.

(** Values shared by the examples: the ptls getter, a callee, and two
    arguments, a frame of tracked pointers and a tracked object. *)
Definition prelude : list (Value * ValueInfo) :=
  [(0%nat, mkValue (GlobalFunction "jl_get_ptls_states") T_getter);
   (1%nat, mkValue (GlobalFunction "foo") T_fn);
   (2%nat, mkValue Argument (PointerTy T_prjl 0));
   (3%nat, mkValue Argument T_prjl);
   (4%nat, mkValue (ConstantInt 1) (IntegerTy 32));
   (5%nat, mkValue (GlobalFunction "jl_apply") T_jlfn)].

Definition ptls_call : ValueInfo := mkValue (CallInst 0%nat [] [] C_CC false) (PointerTy T_ppjl 0).
Definition ret : ValueInfo := mkValue (ReturnInst None) VoidTy.
Definition br (BB : BasicBlock) : ValueInfo := mkValue (BranchInst [BB] []) VoidTy.

(** Two loads from an object, each passed to a call. *)
Definition two_roots : Function :=
  mkFunction
    (list_to_map (prelude ++
       [(10%nat, ptls_call);
        (11%nat, mkValue (LoadInst 3%nat []) T_prjl);
        (12%nat, mkValue (CallInst 1%nat [11%nat] [] C_CC false) VoidTy);
        (13%nat, mkValue (LoadInst 3%nat []) T_prjl);
        (14%nat, mkValue (CallInst 1%nat [13%nat] [] C_CC false) VoidTy);
        (15%nat, ret)]))
    [(0%nat, [10; 11; 12; 13; 14; 15]%nat)] 20%nat.

(** A pointer loaded from the argument frame in the entry block and used
    after a block that holds a safepoint. *)
Definition live_across : Function :=
  mkFunction
    (list_to_map (prelude ++
       [(10%nat, ptls_call);
        (11%nat, mkValue (LoadInst 2%nat []) T_prjl);
        (12%nat, br 1%nat);
        (13%nat, mkValue (CallInst 1%nat [3%nat] [] C_CC false) VoidTy);
        (14%nat, br 2%nat);
        (15%nat, mkValue (StoreInst 11%nat 2%nat) VoidTy);
        (16%nat, ret)]))
    [(0%nat, [10; 11; 12]%nat); (1%nat, [13; 14]%nat); (2%nat, [15; 16]%nat)] 20%nat.

(** Two blocks that no path from the entry block reaches. *)
Definition unreachable_blocks : Function :=
  mkFunction
    (list_to_map (prelude ++
       [(10%nat, ptls_call);
        (11%nat, ret);
        (12%nat, mkValue (LoadInst 3%nat []) T_prjl);
        (13%nat, br 2%nat);
        (14%nat, mkValue (StoreInst 12%nat 2%nat) VoidTy);
        (15%nat, ret)]))
    [(0%nat, [10; 11]%nat); (1%nat, [12; 13]%nat); (2%nat, [14; 15]%nat)] 20%nat.

(** A tracked pointer cast to the derived address space in one block and
    back to the tracked one in the next. *)
Definition cast_back : Function :=
  mkFunction
    (list_to_map (prelude ++
       [(10%nat, ptls_call);
        (11%nat, mkValue (LoadInst 3%nat []) T_prjl);
        (12%nat, mkValue (AddrSpaceCastInst 11%nat) T_pjl_der);
        (13%nat, br 1%nat);
        (14%nat, mkValue (AddrSpaceCastInst 12%nat) T_prjl);
        (15%nat, ret)]))
    [(0%nat, [10; 11; 12; 13]%nat); (1%nat, [14; 15]%nat)] 20%nat.

(** The same instructions in one block. *)
Definition cast_back_one_block : Function :=
  mkFunction
    (list_to_map (prelude ++
       [(10%nat, ptls_call);
        (11%nat, mkValue (LoadInst 3%nat []) T_prjl);
        (12%nat, mkValue (AddrSpaceCastInst 11%nat) T_pjl_der);
        (14%nat, mkValue (AddrSpaceCastInst 12%nat) T_prjl);
        (15%nat, ret)]))
    [(0%nat, [10; 11; 12; 14; 15]%nat)] 20%nat.

(** An unpromoted alloca of a tracked pointer and a jlcall without
    arguments. *)
Definition alloca_and_jlcall : Function :=
  mkFunction
    (list_to_map (prelude ++
       [(10%nat, ptls_call);
        (11%nat, mkValue (AllocaInst T_prjl 4%nat) (PointerTy T_prjl 0));
        (12%nat, mkValue (CallInst 5%nat [] [] JLCALL_CC false) T_prjl);
        (13%nat, ret)]))
    [(0%nat, [10; 11; 12; 13]%nat)] 20%nat.

(** No call at all: an alloca of a tracked pointer and a return. *)
Definition no_safepoint : Function :=
  mkFunction
    (list_to_map (prelude ++
       [(11%nat, mkValue (AllocaInst T_prjl 4%nat) (PointerTy T_prjl 0));
        (13%nat, ret)]))
    [(0%nat, [11; 13]%nat)] 20%nat.

(** A load, a bitcast of it and a GEP of the bitcast. *)
Definition casts : Function :=
  mkFunction
    (list_to_map (prelude ++
       [(10%nat, ptls_call);
        (11%nat, mkValue (LoadInst 3%nat []) T_prjl);
        (12%nat, mkValue (BitCastInst 11%nat) (PointerTy (IntegerTy 8) 10));
        (13%nat, mkValue (GetElementPtrInst 12%nat [4%nat]) (PointerTy (IntegerTy 8) 10));
        (14%nat, ret)]))
    [(0%nat, [10; 11; 12; 13; 14]%nat)] 20%nat.

(** The pass object for a function, its ptls call found. *)
Definition pass_of (F : Function) : LateLowerGCFrame :=
  let P := (doInitialization cfg F).1 in
  set_ptlsStates P (find_ptlsStates P F).

(** The analysis of a function up to and including the dataflow loop. *)
Definition analysed (F : Function) : Res (Function * State) :=
  '(F, St) ← LocalScan 100 (pass_of F) F;
  St ← dataflow_loop 100 F St;
  Ok (F, St).

Definition scanned_state (F : Function) : State :=
  match LocalScan 100 (pass_of F) F with
  | Ok (_, St) => St
  | _ => State_init
  end.

Definition analysed_state (F : Function) : State :=
  match analysed F with
  | Ok (_, St) => St
  | _ => State_init
  end.

(** The analysis of a function up to and including the colouring. *)
Definition coloured (F : Function) : Res (Function * State * list Z) :=
  '(F, St) ← analysed F;
  '(Colors, _) ← ColorRoots (ComputeLiveSets F St);
  Ok (F, ComputeLiveSets F St, Colors).

Definition coloured_state (F : Function) : State :=
  match coloured F with
  | Ok (_, St, _) => St
  | _ => State_init
  end.

Definition colours (F : Function) : list Z :=
  match coloured F with
  | Ok (_, _, Colors) => Colors
  | _ => []
  end.

End Examples.

(** ** Checks of the hypotheses on a given state *)

Definition BBState_width_b (W : nat) (BBS : BBState) : bool :=
  (length (Defs BBS) <=? W)%nat && (length (PhiOuts BBS) <=? W)%nat &&
  (length (UpExposedUsesUnrooted BBS) <=? W)%nat && (length (UpExposedUses BBS) <=? W)%nat &&
  (length (DownExposedUnrooted BBS) <=? W)%nat && (length (LiveIn BBS) <=? W)%nat &&
  (length (LiveOut BBS) <=? W)%nat && (length (UnrootedIn BBS) <=? W)%nat &&
  (length (UnrootedOut BBS) <=? W)%nat.

Definition bounded_b (W : nat) (S : State) : bool :=
  forallb (fun e : BasicBlock * BBState => BBState_width_b W e.2) (map_to_list (BBStates S)).

Definition BBState_seeded_b (BBS : BBState) : bool :=
  (length (PhiOuts BBS) =? length (Defs BBS))%nat &&
  (length (UpExposedUsesUnrooted BBS) =? length (Defs BBS))%nat &&
  (length (UpExposedUses BBS) =? length (Defs BBS))%nat &&
  (length (DownExposedUnrooted BBS) =? length (Defs BBS))%nat &&
  (length (LiveOut BBS) =? 0)%nat && (length (UnrootedIn BBS) =? 0)%nat &&
  BV.eqb (LiveIn BBS) (BV.or (UpExposedUses BBS) (UpExposedUsesUnrooted BBS)).

Definition seeded_b (S : State) : bool :=
  forallb (fun e : BasicBlock * BBState => BBState_seeded_b e.2) (map_to_list (BBStates S)).

Definition SafepointNumbering_wf_b (S : State) : bool :=
  forallb (fun e : Value * Z =>
             (0 <=? e.2) &&
             bool_decide (ReverseSafepointNumbering S !! Z.to_nat e.2 = Some e.1))
          (map_to_list (SafepointNumbering S)).

(** ** The claims on the live sets and the dataflow, as properties of a state *)

(** The live set recorded for every safepoint holds LiveIn ∩ LiveOut of the
    block of the safepoint. *)
Definition LiveAcross_kept (F : Function) (S : State) : Prop :=
  forall sp idx B LS,
    SafepointNumbering S !! sp = Some idx -> getParent F sp = Some B ->
    LiveSets (ComputeLiveSets F S) !! Z.to_nat idx = Some LS ->
    forall i, BV.test (BV.and (LiveIn (getBBS S B)) (LiveOut (getBBS S B))) i = true ->
              BV.test LS i = true.

(** The two dataflow equations at block [B]. *)
Definition dataflow_equations_at (F : Function) (S : State) (B : BasicBlock) : Prop :=
  forall i,
    BV.test (LiveIn (getBBS S B)) i =
      BV.test (UpExposedUses (getBBS S B)) i
      || BV.test (UpExposedUsesUnrooted (getBBS S B)) i
      || (BV.test (LiveOut (getBBS S B)) i && negb (BV.test (Defs (getBBS S B)) i))
    /\
    (BV.test (LiveOut (getBBS S B)) i = true <->
       BV.test (PhiOuts (getBBS S B)) i = true \/
       exists Succ, Succ ∈ successors F B /\ BV.test (LiveIn (getBBS S Succ)) i = true).

(** The equations at every basic block of the function. *)
Definition dataflow_equations_everywhere (F : Function) (S : State) : Prop :=
  forall B, B ∈ (blocks F).*1 -> dataflow_equations_at F S B.


(** ** The claim on SSA violations, as a property of the scan *)

(** A scan that returns has set the Defs bit of no identifier in two
    blocks: the second def would have stopped it. *)
Definition SSA_violations_abort (fuel : nat) (P : LateLowerGCFrame) (F : Function) : Prop :=
  forall F' S', LocalScan fuel P F = Ok (F', S') ->
  forall B1 B2 Num, B1 <> B2 ->
    HasBitSet (Defs (getBBS S' B1)) Num = true ->
    HasBitSet (Defs (getBBS S' B2)) Num = true -> False.


(** ** Well-formed value tables *)

(** Every value of the table lies below the next free address. *)
Definition fresh (F : Function) : Prop :=
  forall v, is_Some (values F !! v) -> (v < next_value F)%nat.

Definition fresh_b (F : Function) : bool :=
  forallb (fun e : Value * ValueInfo => (e.1 <? next_value F)%nat) (map_to_list (values F)).


(** [F'] has the values of [F] below the next free address of [F], as they
    are in [F]: what creating values and placing instructions does. *)
Definition extends (F F' : Function) : Prop :=
  (next_value F <= next_value F')%nat /\
  forall v, (v < next_value F)%nat -> values F' !! v = values F !! v.


(** What the loop of CleanupIR maintains on its record: [maxframeargs] is
    the largest number of frame arguments of the jlcalls lowered so far. *)
Definition maxframeargs_ok (info : CleanupInfo) : Prop :=
  0 <= maxframeargs info /\
  (forall e, e ∈ jlcalls info -> 0 <= e.2 <= maxframeargs info) /\
  (maxframeargs info = 0 \/ exists e, e ∈ jlcalls info /\ e.2 = maxframeargs info).


(** ** Vocabulary for the root placement *)

Definition isCall (k : ValueKind) : bool :=
  match k with CallInst _ _ _ _ _ => true | _ => false end.

(** [v] is an instruction of the entry block. *)
Definition in_entry (v : Value) (F : Function) : Prop :=
  exists e l rest, blocks F = (e, l) :: rest /\ v ∈ l.

(** [v] is a value created from address [b0] on, no call, whose operands
    were created from [b0] on as well. *)
Definition placed (b0 : nat) (F : Function) (v : Value) (vi : ValueInfo) : Prop :=
  (b0 <= v < next_value F)%nat /\ values F !! v = Some vi /\
  isCall (kind vi) = false /\ forall o, o ∈ operands (kind vi) -> (b0 <= o)%nat.

(** [F'] has every such value of [F] as it is in [F], in the entry block
    when it is there in [F]. *)
Definition preserves (b0 : nat) (F F' : Function) : Prop :=
  (next_value F <= next_value F')%nat /\
  (forall v vi, placed b0 F v vi -> placed b0 F' v vi) /\
  (forall v vi, placed b0 F v vi -> in_entry v F -> in_entry v F').


(** ** Vocabulary for the numbering *)

(** The operand of a bitcast or GEP. *)
Definition cast_operand (F : Function) (w : Value) : option Value :=
  match getKind F w with
  | BitCastInst op | GetElementPtrInst op _ => Some op
  | _ => None
  end.

(** [w] is obtained from [v] by [k] bitcasts and GEPs, every value from [w]
    down to [v] being a pointer of a special address space. *)
Fixpoint cast_chain (A : AddressSpaces) (F : Function) (k : nat) (w v : Value) : bool :=
  isSpecialPtr A (getType F w) &&
  match k with
  | O => bool_decide (w = v)
  | Datatypes.S k' =>
      match cast_operand F w with
      | Some x => cast_chain A F k' x v
      | None => false
      end
  end.

(** The search of the base value from [y] ends, and numbering what it ends
    at yields [m] whenever it yields a number. *)
Definition resolves (P : LateLowerGCFrame) (F : Function) (S : State) (y : Value) (m : Z)
    : Prop :=
  exists fuel r c,
    FindBaseValue_loop fuel (AddressSpace P) F S true y = Some (r, c) /\
    forall fuel' V n F' S', Number_at fuel' P F S V r = Ok (n, F', S') -> n = m.

(** The cache AllPtrNumbering agrees with the numbering of what lies below
    its entries: a cached pointer that the search steps through has the
    number that the search from its operand yields. *)
Definition numbering_consistent (P : LateLowerGCFrame) (F : Function) (S : State) : Prop :=
  forall x m y,
    AllPtrNumbering S !! x = Some m -> isPointerTy (getType F x) = true ->
    base_step (AddressSpace P) F x = Some y -> resolves P F S y m.

(** A check of [numbering_consistent] on a given state: the search from the
    operand of every cached pointer ends within [fuel] turns at a value
    cached with the same number. *)
Definition numbering_consistent_b (fuel : nat) (P : LateLowerGCFrame) (F : Function)
    (S : State) : bool :=
  forallb (fun e : Value * Z =>
             if isPointerTy (getType F e.1) then
               match base_step (AddressSpace P) F e.1 with
               | None => true
               | Some y =>
                   match FindBaseValue_loop fuel (AddressSpace P) F S true y with
                   | Some (r, _) => bool_decide (AllPtrNumbering S !! r = Some e.2)
                   | None => false
                   end
               end
             else true)
          (map_to_list (AllPtrNumbering S)).


(** Every entry of the cache of [S'] is an entry of [S] or holds [n]. *)
Definition cache_grown (S S' : State) (n : Z) : Prop :=
  forall z mz, AllPtrNumbering S' !! z = Some mz ->
               AllPtrNumbering S !! z = Some mz \/ mz = n.


(** The operands of every value lie below the next free address. *)
Definition closed (F : Function) : Prop :=
  forall v vi o, values F !! v = Some vi -> o ∈ operands (kind vi) -> (o < next_value F)%nat.

Definition closed_b (F : Function) : bool :=
  forallb (fun e : Value * ValueInfo =>
             forallb (fun o : Value => (o <? next_value F)%nat) (operands (kind e.2)))
          (map_to_list (values F)).

(** The address space of [MaybeExtractUnion(Val)]: that of the first element
    for a union representation. *)
Definition extractedAddrSpace (A : AddressSpaces) (F : Function) (Val : Value) : Z :=
  match (if isUnionRep A (getType F Val) then firstElementType (getType F Val)
         else getType F Val) with
  | PointerTy _ AS => AS
  | _ => 0
  end.

(** The entries of [S] for the values of [F] are entries of [S']. *)
Definition cache_kept (F : Function) (S S' : State) : Prop :=
  forall (z : Value) (m : Z), (z < next_value F)%nat ->
    AllPtrNumbering S !! z = Some m -> AllPtrNumbering S' !! z = Some m.

(** ** Vocabulary for the state that LocalScan leaves *)

(** A block state whose dataflow variables LiveOut and UnrootedIn are
    still empty, whose local bit vectors were resized together, and whose
    bit vectors have at most [W] bits. *)
Definition BBState_fresh (W : nat) (BBS : BBState) : Prop :=
  BBState_aligned BBS /\ LiveOut BBS = [] /\ UnrootedIn BBS = [] /\
  (length (Defs BBS) <= W)%nat /\ (length (LiveIn BBS) <= W)%nat /\
  (length (UnrootedOut BBS) <= W)%nat.

(** What the scan of block [BB] may do to the block states: a fresh block
    state stays fresh, and those of the other blocks keep LiveIn and the
    two sets of upward exposed uses (their PhiOuts may gain bits). *)
Definition scan_rel (W : nat) (BB : BasicBlock) (S S' : State) : Prop :=
  forall X, BBState_fresh W (getBBS S X) ->
    BBState_fresh W (getBBS S' X) /\
    (X <> BB ->
     LiveIn (getBBS S' X) = LiveIn (getBBS S X) /\
     forall i,
       BV.test (UpExposedUses (getBBS S' X)) i = BV.test (UpExposedUses (getBBS S X)) i /\
       BV.test (UpExposedUsesUnrooted (getBBS S' X)) i =
         BV.test (UpExposedUsesUnrooted (getBBS S X)) i).

(** The identifiers in the caches lie between -1 and [MaxPtrNumber], those
    of vectors from 0 on. *)
Definition numbering_in_range (S : State) : Prop :=
  -1 <= MaxPtrNumber S /\
  (forall x m, AllPtrNumbering S !! x = Some m -> -1 <= m <= MaxPtrNumber S) /\
  (forall x l m, AllVectorNumbering S !! x = Some l -> m ∈ l -> 0 <= m <= MaxPtrNumber S).

(** The caches of the numbering are the same in both states. *)
Definition same_numbering (S S' : State) : Prop :=
  MaxPtrNumber S' = MaxPtrNumber S /\ AllPtrNumbering S' = AllPtrNumbering S /\
  AllVectorNumbering S' = AllVectorNumbering S.

(** A step of the scan of block [BB] from [S] to [S']: the identifiers stay
    in range and [MaxPtrNumber] does not decrease; the block states change
    as [scan_rel] says for every width [W] that the identifiers are below
    and that fits an unsigned. *)
Definition scan_step (BB : BasicBlock) (S S' : State) : Prop :=
  numbering_in_range S ->
  numbering_in_range S' /\ MaxPtrNumber S <= MaxPtrNumber S' /\
  forall W, MaxPtrNumber S' < Z.of_nat W < 2 ^ 32 -> scan_rel W BB S S'.

(** ** Vocabulary for the perfect elimination order *)

(** An element that [next] has not given out yet. *)
Definition live (P : PEOIterator) (y : Z) : Prop :=
  0 <= y /\ exists e, Elements P !! Z.to_nat y = Some e /\ weight e <> UINT_MAX.

(** How many elements [next] has not given out yet. *)
Definition live_count (P : PEOIterator) : nat :=
  length (filter (fun e => weight e <> UINT_MAX) (Elements P)).

(** How many elements were given out or have weight [w] or more: each of
    them was pushed on level [w] at most once. *)
Definition reached (w : Z) (E : list Element) : nat :=
  length (filter (fun e => weight e = UINT_MAX \/ w <= weight e) E).

(** The queue of the iterator after [R] elements were given out: every
    element that was not given out sits in the level of its weight at its
    position, every entry of a level is dead (-1) or is such an element, and
    no weight and no level lies beyond [R]. *)
Definition PEO_inv (R : Z) (P : PEOIterator) : Prop :=
  0 <= R /\ Z.of_nat (length (Levels P)) <= R + 1 /\
  (forall (x : nat) e, Elements P !! x = Some e ->
     weight e = UINT_MAX \/
     (0 <= weight e <= R /\ 0 <= pos e /\
      exists lvl, Levels P !! Z.to_nat (weight e) = Some lvl /\
                  lvl !! Z.to_nat (pos e) = Some (Z.of_nat x))) /\
  (forall (w p : nat) lvl y, Levels P !! w = Some lvl -> lvl !! p = Some y ->
     y = -1 \/
     (0 <= y /\ Elements P !! Z.to_nat y = Some (mkElement (Z.of_nat w) (Z.of_nat p)))) /\
  (forall (w : nat) lvl, Levels P !! w = Some lvl ->
     (length lvl <= reached (Z.of_nat w) (Elements P))%nat).

(** The neighbour lists name vertices of the graph and hold none twice. *)
Definition Neighbors_wf (N : list (list Z)) : Prop :=
  Forall (fun l => NoDup l /\ Forall (fun y => 0 <= y < Z.of_nat (length N)) l) N.

(** The elements that [next] gives out, until it gives -1 or [fuel] calls
    were made. *)
Fixpoint PEO_order (fuel : nat) (N : list (list Z)) (P : PEOIterator) : list Z :=
  match fuel with
  | O => []
  | Datatypes.S fuel' =>
      let '(x, P') := PEO_next N P in
      if x =? -1 then [] else x :: PEO_order fuel' N P'
  end.

(** ** Vocabulary for the colours of ColorRoots *)

(** Colours are -1 or more, and those from [P] on stay within
    [MaxAssignedColor]. *)
Definition ranged (P : Z) (C : list Z) (Max : Z) : Prop :=
  -1 <= Max /\ forall (i : nat) c, C !! i = Some c -> -1 <= c /\ (P <= c -> c - P <= Max).

(** Identifier [j] has a neighbour in the interference graph (itself, at
    least): it is live at some safepoint. *)
Definition has_neighbors (N : list (list Z)) (j : nat) : Prop :=
  default [] (N !! j) <> [].

(** Identifier [i] is in the live set of safepoint [sp]. *)
Definition live_at (S : State) (sp : Value) (i : nat) : Prop :=
  exists idx LS, SafepointNumbering S !! sp = Some idx /\
                 LiveSets S !! Z.to_nat idx = Some LS /\ BV.test LS i = true.

(** No two identifiers share a colour other than -1. *)
Definition distinct_colors (C : list Z) : Prop :=
  forall (i j : nat) c, C !! i = Some c -> C !! j = Some c -> c <> -1 -> i = j.

(** How many identifiers have a colour. *)
Definition colored (C : list Z) : nat := length (filter (fun c => c <> -1) C).

(** ** Vocabulary for the invariants of the local scan *)

(** Only the numbering of values differs between the two states. *)
Definition numbering_only (S S' : State) : Prop :=
  MaxSafepointNumber S' = MaxSafepointNumber S /\ Neighbors S' = Neighbors S /\
  BBStates S' = BBStates S /\ LoadRefinements S' = LoadRefinements S /\
  SafepointNumbering S' = SafepointNumbering S /\
  ReverseSafepointNumbering S' = ReverseSafepointNumbering S /\
  ReturnsTwice S' = ReturnsTwice S /\ LiveSets S' = LiveSets S /\
  LiveIfLiveOut S' = LiveIfLiveOut S /\ Allocas S' = Allocas S.

(** A property of the state together with the range of the identifiers. *)
Definition scan_inv (I : State -> Prop) (S : State) : Prop :=
  numbering_in_range S /\ I S.

(** The part of a block state that the safepoints are recorded in. *)
Definition same_safepoints (B B' : BBState) : Prop :=
  Safepoints B' = Safepoints B /\ TopmostSafepoint B' = TopmostSafepoint B /\
  HasSafepoint B' = HasSafepoint B.

(** The safepoint numbers of a block: all were handed out, they increase
    along the list (the scan goes up the block), [HasSafepoint] tells
    whether there is one, and [TopmostSafepoint] is the last. *)
Definition block_safepoints_wf (Max : Z) (BBS : BBState) : Prop :=
  (forall idx, idx ∈ Safepoints BBS -> 0 <= idx <= Max) /\
  (forall (i j : nat) a b, (i < j)%nat ->
     Safepoints BBS !! i = Some a -> Safepoints BBS !! j = Some b -> a < b) /\
  (if HasSafepoint BBS then last (Safepoints BBS) = Some (TopmostSafepoint BBS)
   else Safepoints BBS = []).

(** The tables of the safepoints: the three vectors have one entry for each
    of the numbers 0..MaxSafepointNumber, a numbered call is the entry of
    its number in the reverse numbering, and every number is in the list
    of exactly one block. *)
Definition safepoint_tables (S : State) : Prop :=
  -1 <= MaxSafepointNumber S /\
  length (ReverseSafepointNumbering S) = Z.to_nat (MaxSafepointNumber S + 1) /\
  length (LiveSets S) = Z.to_nat (MaxSafepointNumber S + 1) /\
  length (LiveIfLiveOut S) = Z.to_nat (MaxSafepointNumber S + 1) /\
  SafepointNumbering_wf S /\
  (forall BB, block_safepoints_wf (MaxSafepointNumber S) (getBBS S BB)) /\
  (forall idx, 0 <= idx <= MaxSafepointNumber S ->
     exists BB, idx ∈ Safepoints (getBBS S BB)) /\
  (forall BB BB' idx, idx ∈ Safepoints (getBBS S BB) ->
     idx ∈ Safepoints (getBBS S BB') -> BB = BB').

(** Only the block states differ between the two states, and in them only
    the bit vectors. *)
Definition vectors_only (S S' : State) : Prop :=
  MaxPtrNumber S' = MaxPtrNumber S /\ MaxSafepointNumber S' = MaxSafepointNumber S /\
  AllPtrNumbering S' = AllPtrNumbering S /\ AllVectorNumbering S' = AllVectorNumbering S /\
  PtrNumbering S' = PtrNumbering S /\ ReversePtrNumbering S' = ReversePtrNumbering S /\
  Neighbors S' = Neighbors S /\ LoadRefinements S' = LoadRefinements S /\
  SafepointNumbering S' = SafepointNumbering S /\
  ReverseSafepointNumbering S' = ReverseSafepointNumbering S /\
  ReturnsTwice S' = ReturnsTwice S /\ LiveSets S' = LiveSets S /\
  LiveIfLiveOut S' = LiveIfLiveOut S /\ Allocas S' = Allocas S /\
  forall BB, Safepoints (getBBS S' BB) = Safepoints (getBBS S BB) /\
             TopmostSafepoint (getBBS S' BB) = TopmostSafepoint (getBBS S BB) /\
             HasSafepoint (getBBS S' BB) = HasSafepoint (getBBS S BB) /\
             Done (getBBS S' BB) = Done (getBBS S BB).

(** No bit vector of a block and no live set is longer than the
    identifiers handed out. *)
Definition widths_ok (S : State) : Prop :=
  bounded (Z.to_nat (MaxPtrNumber S + 1)) S /\
  Forall (fun LS : BitVector => (length LS <= Z.to_nat (MaxPtrNumber S + 1))%nat) (LiveSets S).

(** The tables of the numbering: exactly the identifiers handed out have an
    entry in the reverse numbering; the reverse entry of the identifier of a
    value of PtrNumbering, and of every identifier of a numbered vector, is
    that value; the identifiers of a numbered vector are distinct. *)
Definition numbering_tables (S : State) : Prop :=
  (forall n, is_Some (ReversePtrNumbering S !! n) <-> 0 <= n <= MaxPtrNumber S) /\
  (forall (v : Value) n, PtrNumbering S !! v = Some n ->
     n = -1 \/ ReversePtrNumbering S !! n = Some v) /\
  (forall (v : Value) l n, AllVectorNumbering S !! v = Some l -> n ∈ l ->
     ReversePtrNumbering S !! n = Some v) /\
  (forall (v : Value) l, AllVectorNumbering S !! v = Some l -> NoDup l).

(** [S.LiveSets[S.BBStates[Pred].Safepoints.front()]]: the live set of the
    last safepoint of [Pred], as AddInPredLiveOuts reads it. *)
Definition LastLiveSet (S : State) (Pred : BasicBlock) : BitVector :=
  default [] (LiveSets S !! Z.to_nat (default 0 (head (Safepoints (getBBS S Pred))))).

(** What the work list loop of AddInPredLiveOuts maintains: a block is
    visited once, while [First] holds [LiveIn] is empty and no visited block
    has a safepoint, and [LiveIn] lies in the live set of the last safepoint
    of every visited block that has one. *)
Definition AddInPred_inv (F : Function) (S : State)
    (a : list BasicBlock * list BasicBlock * bool * BitVector) : Prop :=
  let '(WorkList, Visited, First, LiveIn) := a in
  NoDup Visited /\ (forall B, B ∈ Visited -> B ∈ (blocks F).*1) /\
  (First = true ->
     LiveIn = BV.empty /\ forall B, B ∈ Visited -> HasSafepoint (getBBS S B) = false) /\
  forall i, BV.test LiveIn i = true ->
    forall B, B ∈ Visited -> HasSafepoint (getBBS S B) = true ->
      BV.test (LastLiveSet S B) i = true.

(** Work left for the loop: the blocks on the work list and the blocks not
    yet visited. *)
Definition AddInPred_measure (F : Function)
    (a : list BasicBlock * list BasicBlock * bool * BitVector) : nat :=
  let '(WorkList, Visited, _, _) := a in
  (length WorkList + (length (blocks F) - length Visited))%nat.

(** ** Vocabulary for the stores into the frame *)

(** [S.LiveSets[sp]] as PlaceGCFrameStores reads it. *)
Definition LiveSet_at (S : State) (sp : Z) : BitVector :=
  default [] (LiveSets S !! Z.to_nat sp).

(** [st] is a store to the slot [slotnum] of the frame: its address is a
    GEP on [GCFrame] whose one index is the constant [slotnum]. *)
Definition frame_store (F : Function) (GCFrame : Value) (slotnum : Z) (st : Value) : Prop :=
  exists Val gep slot : Value,
    (st < next_value F)%nat /\ (gep < next_value F)%nat /\ (slot < next_value F)%nat /\
    getKind F st = StoreInst Val gep /\
    getKind F gep = GetElementPtrInst GCFrame [slot] /\
    getKind F slot = ConstantInt slotnum.

(** [*LastLive] when the loop over the safepoints of a block reaches entry
    [j] of the reversed list [l]: the result of AddInPredLiveOuts for the
    first one, the live set of the safepoint before it for the others. *)
Definition LastLive_at (S : State) (LiveIn : BitVector) (l : list Z) (j : nat) : BitVector :=
  match j with
  | O => LiveIn
  | Datatypes.S j' => match l !! j' with Some sp => LiveSet_at S sp | None => [] end
  end.

(** Block [b'] is block [b] with instructions from below [n] added before
    its last one. *)
Definition block_kept (n : nat) (b b' : BasicBlock * list Value) : Prop :=
  b'.1 = b.1 /\ last b'.2 = last b.2 /\ (forall v, v ∈ b.2 -> v ∈ b'.2) /\
  (forall v, v ∈ b'.2 -> v ∈ b.2 \/ (v < n)%nat).

(** [F'] has the values of [F], and the blocks of [F], in which
    instructions were added before the last one. *)
Definition same_cfg (F F' : Function) : Prop :=
  extends F F' /\ Forall2 (block_kept (next_value F')) (blocks F) (blocks F').

(** Every instruction of a block lies below the next free address. *)
Definition insts_below (F : Function) : Prop :=
  Forall (fun b : BasicBlock * list Value => Forall (fun v => (v < next_value F)%nat) b.2)
         (blocks F).

(** Some store of [stores] goes to the slot of identifier [R]. *)
Definition slot_stored (MinColorRoot : Z) (Colors : list Z) (GCFrame : Value)
    (F : Function) (stores : list Value) (R : nat) : Prop :=
  exists st, st ∈ stores /\
    frame_store F GCFrame (to_unsigned (getColor Colors (Z.of_nat R) + MinColorRoot)) st.

(** ** Vocabulary for the unrooted sets *)

(** DownExposedUnrooted is as long as Defs in every block and, as long as
    the identifiers fit an unsigned, UnrootedOut holds DownExposedUnrooted
    in every block but [cur] (in every block for [None]). *)
Definition unrooted_seeded (cur : option BasicBlock) (S : State) : Prop :=
  (forall BB, length (DownExposedUnrooted (getBBS S BB)) = length (Defs (getBBS S BB))) /\
  (MaxPtrNumber S < 2 ^ 32 - 1 ->
   forall BB, cur <> Some BB -> forall i,
     BV.test (UnrootedOut (getBBS S BB)) i = BV.test (DownExposedUnrooted (getBBS S BB)) i).

(** UnrootedOut of every block is what it was in [S0] together with, in a
    block without safepoint, UnrootedIn. *)
Definition unrooted_out_eq (S0 S : State) : Prop :=
  forall B, HasSafepoint (getBBS S B) = HasSafepoint (getBBS S0 B) /\
    forall i, BV.test (UnrootedOut (getBBS S B)) i =
              BV.test (UnrootedOut (getBBS S0 B)) i ||
              (negb (HasSafepoint (getBBS S0 B)) && BV.test (UnrootedIn (getBBS S B)) i).

(** ** Vocabulary for the scratch frame of CleanupIR *)

(** [Fr] is an alloca of elements of type [T] in [F]. *)
Definition is_alloca_of (T : Ty) (F : Function) (Fr : Value) : Prop :=
  (Fr < next_value F)%nat /\
  exists c ty, values F !! Fr = Some (mkValue (AllocaInst T c) ty).

(** ** Vocabulary for the pops of the frame *)

(** [BB->getTerminator()] is a return. *)
Definition returns (F : Function) (BB : BasicBlock) : bool :=
  match getTerminator F BB with
  | Some Term => match getKind F Term with ReturnInst _ => true | _ => false end
  | None => false
  end.

(** [pop] restores pgcstack from the frame: it stores the load of slot 1 of
    [gcframe] through the pgcstack field of [ptls], cast or not. *)
Definition frame_pop (P : LateLowerGCFrame) (F : Function) (gcframe ptls pop : Value) : Prop :=
  exists ld slot one pgc pgcstack off : Value,
    (pop < next_value F)%nat /\ (ld < next_value F)%nat /\ (slot < next_value F)%nat /\
    (one < next_value F)%nat /\ (pgc < next_value F)%nat /\
    (pgcstack < next_value F)%nat /\ (off < next_value F)%nat /\
    getKind F pop = StoreInst ld pgc /\
    getKind F ld = LoadInst slot [] /\
    getKind F slot = GetElementPtrInst gcframe [one] /\
    getKind F one = ConstantInt 1 /\
    (pgc = pgcstack \/ getKind F pgc = BitCastInst pgcstack) /\
    getKind F pgcstack = GetElementPtrInst ptls [off] /\
    getKind F off = ConstantInt (pgcstack_offset P).

(** ** More example functions *)

Module MoreExamples.
Import Examples.

(** A pointer loaded before a returns_twice call and used after it. *)
Definition returns_twice_call : Function :=
  mkFunction
    (list_to_map (prelude ++
       [(10%nat, ptls_call);
        (11%nat, mkValue (LoadInst 3%nat []) T_prjl);
        (12%nat, mkValue (CallInst 1%nat [3%nat] [] C_CC true) VoidTy);
        (13%nat, mkValue (CallInst 1%nat [11%nat] [] C_CC false) VoidTy);
        (14%nat, ret)]))
    [(0%nat, [10; 11; 12; 13; 14]%nat)] 20%nat.

(** A returns_twice call of memcmp, which LocalScan does not take for a
    safepoint. *)
Definition returns_twice_memcmp : Function :=
  mkFunction
    (list_to_map (prelude ++
       [(6%nat, mkValue (GlobalFunction "memcmp") T_fn);
        (10%nat, ptls_call);
        (11%nat, mkValue (LoadInst 3%nat []) T_prjl);
        (12%nat, mkValue (CallInst 6%nat [3%nat] [] C_CC true) VoidTy);
        (13%nat, mkValue (CallInst 1%nat [11%nat] [] C_CC false) VoidTy);
        (14%nat, ret)]))
    [(0%nat, [10; 11; 12; 13; 14]%nat)] 20%nat.

(** The state after LocalScan and ComputeLiveness. *)
Definition live_state (F : Function) : State :=
  match ComputeLiveness 100 F (scanned_state F) with
  | Ok St => St
  | _ => State_init
  end.

(** The colours ColorRoots gives on that state. *)
Definition colors_of (F : Function) : list Z :=
  match ColorRoots (live_state F) with
  | Ok (Colors, _) => Colors
  | _ => []
  end.

(** The stores PlaceGCFrameStores creates for a frame at value 3 whose
    roots start at slot 2. *)
Definition stores_of (F : Function) : Function * list Value :=
  match PlaceGCFrameStores (pass_of F) F (live_state F) 2 (colors_of F) 3%nat with
  | Ok r => r
  | _ => (F, [])
  end.

(** The function and the frame PlaceRootsAndUpdateCalls gives. *)
Definition rooted_of (F : Function) : Function * FrameInfo :=
  match PlaceRootsAndUpdateCalls (pass_of F) F (colors_of F) (live_state F) with
  | Ok (F', Some fr) => (F', fr)
  | _ => (F, mkFrameInfo 0 0%nat (mkPushInfo 0%nat 0%nat 0%nat) [] [])
  end.

(** Two blocks that each load a pointer and a third that joins them. *)
Definition phi_join : Function :=
  mkFunction
    (list_to_map (prelude ++
       [(10%nat, ptls_call);
        (11%nat, mkValue (LoadInst 3%nat []) T_prjl);
        (12%nat, br 2%nat);
        (13%nat, mkValue (LoadInst 3%nat []) T_prjl);
        (14%nat, br 2%nat);
        (15%nat, mkValue (PHINode [(11%nat, 0%nat); (13%nat, 1%nat)]) T_prjl);
        (16%nat, mkValue (CallInst 1%nat [15%nat] [] C_CC false) VoidTy);
        (17%nat, ret)]))
    [(0%nat, [10; 11; 12]%nat); (1%nat, [13; 14]%nat); (2%nat, [15; 16; 17]%nat)] 20%nat.

(** What LiftPhi gives for a phi of a function, from the empty state. *)
Definition lifted_of (F : Function) (Phi : Value) : Z * Function * State :=
  match LiftPhi 100 (pass_of F) F State_init Phi with
  | Ok r => r
  | _ => (0, F, State_init)
  end.

(** A jlcall with two frame arguments and one with one. *)
Definition two_jlcalls : Function :=
  mkFunction
    (list_to_map (prelude ++
       [(10%nat, ptls_call);
        (11%nat, mkValue (CallInst 5%nat [3%nat; 3%nat] [] JLCALL_CC false) T_prjl);
        (12%nat, mkValue (CallInst 5%nat [3%nat; 11%nat] [] JLCALL_F_CC false) T_prjl);
        (13%nat, ret)]))
    [(0%nat, [10; 11; 12; 13]%nat)] 20%nat.

(** What CleanupIR gives on a function. *)
Definition cleanup_of (F : Function) : Function * CleanupInfo * option Value :=
  match CleanupIR (pass_of F) F with
  | Ok r => r
  | _ => (F, mkCleanupInfo false 0 [], None)
  end.

End MoreExamples.

(** ** The way of the scan to a def *)

(** The first [k] turns of the loop of LocalScan over the instructions of
    [BB]: the function, the state and the iterator after them. *)
Fixpoint scan_turns (k : nat) (fuel : nat) (P : LateLowerGCFrame) (F : Function) (S : State)
    (BB : BasicBlock) (it : option Value) : Res (Function * State * option Value) :=
  match k, it with
  | Datatypes.S k', Some Inst =>
      '(F, S) ← scan_inst fuel P F S BB Inst;
      scan_turns k' fuel P F S BB (inst_before Inst (getInsts F BB))
  | _, _ => Ok (F, S, it)
  end.

(** What the body of the loop does for [Inst] before it calls MaybeNoteDef
    on it, with the refinement it passes: [None] for an instruction whose
    def it does not note. *)
Definition scan_inst_def (fuel : nat) (P : LateLowerGCFrame) (F : Function) (S : State)
    (Inst : Value) : option (Res (Z * Function * State)) :=
  let A := AddressSpace P in
  match getKind F Inst with
  | CallInst callee _ _ _ _ =>
      if isIntrinsicCall F callee then None else Some (Ok (-2, F, S))
  | LoadInst ptr tbaa =>
      Some (if isLoadFromImmut tbaa && isSpecialPtr A (getType F ptr) then
              Number fuel P F S ptr
            else if isPointerTy (getType F Inst) && isSpecialPtr A (getType F Inst) then
              match LooksLikeFrameRef fuel A F ptr with
              | None => OutOfFuel
              | Some true => Ok (-1, F, S)
              | Some false => Ok (-2, F, S)
              end
            else Ok (-2, F, S))
  | SelectInst _ _ _ | PHINode _ =>
      if negb (isSpecialPtr A (getType F Inst)) then None
      else if negb (getValueAddrSpace F Inst =? Tracked A) then None
      else Some (Ok (-2, F, S))
  | AddrSpaceCastInst _ =>
      if getValueAddrSpace F Inst =? Tracked A then Some (Ok (-2, F, S)) else None
  | _ => None
  end.

(** The numbering that MaybeNoteDef does of [Def]: the identifiers that it
    goes on to pass to NoteDef, one after the other. *)
Definition MaybeNoteDef_numbers (fuel : nat) (P : LateLowerGCFrame) (F : Function) (S : State)
    (Def : Value) : Res (list Z * Function * State) :=
  let A := AddressSpace P in
  let RT := getType F Def in
  if isSpecialPtr A RT then
    _ ← assert (getValueAddrSpace F Def =? Tracked A)
               "Returned value of GC interest, but not tracked?";
    '(Num, F, S) ← Number fuel P F S Def;
    Ok ([Num], F, S)
  else if isUnionRep A RT then
    '(Num, F, S) ← Number fuel P F S Def;
    Ok ([Num], F, S)
  else if isSpecialPtrVec A RT then
    '(Nums, S) ← NumberVector fuel P F S Def;
    Ok (Nums, F, S)
  else Ok ([], F, S).

(** The defs that MaybeNoteDef then records: NoteDef and the refinement
    for each identifier in turn. *)
Definition NoteDefs (S : State) (BB : BasicBlock) (Nums : list Z) (SafepointsSoFar : list Z)
    (RefinedPtr : Z) : Res State :=
  foldl (fun r Num => S ← r; S ← NoteDef S BB Num SafepointsSoFar;
                      Ok (refine S Num RefinedPtr))
        (Ok S) Nums.

(** ** Where a store of the frame is placed and what it stores *)

(** [x] comes before [y] in the list. *)
Definition before (l : list Value) (x y : Value) : Prop :=
  exists l1 l2, l = l1 ++ x :: l2 /\ y ∈ l2.

(** In every block that holds the instruction [pos], [I] comes before it. *)
Definition placed_before (F : Function) (I pos : Value) : Prop :=
  forall b, b ∈ blocks F -> pos ∈ b.2 -> before b.2 I pos.

(** [Val] is the value [v] as PlaceGCFrameStore stores it: behind the
    extractelement that GetPtrForNumber makes for an element of a vector,
    the extractvalue that MaybeExtractUnion makes for a union and the
    bitcast to T_prjlvalue, where they are made. *)
Definition root_value (F : Function) (v Val : Value) : Prop :=
  exists V0 V1 : Value,
    (V0 = v \/ ((V0 < next_value F)%nat /\ exists c, getKind F V0 = ExtractElementInst v c)) /\
    (V1 = V0 \/ ((V1 < next_value F)%nat /\ getKind F V1 = ExtractValueInst V0 [0%nat])) /\
    (Val = V1 \/ ((Val < next_value F)%nat /\ getKind F Val = BitCastInst V1)).

(** [st] stores the value [v] to slot [slotnum] of [GCFrame]. *)
Definition root_store (F : Function) (GCFrame : Value) (slotnum : Z) (v st : Value) : Prop :=
  exists Val gep slot : Value,
    (st < next_value F)%nat /\ (gep < next_value F)%nat /\ (slot < next_value F)%nat /\
    getKind F st = StoreInst Val gep /\
    getKind F gep = GetElementPtrInst GCFrame [slot] /\
    getKind F slot = ConstantInt slotnum /\
    root_value F v Val.

(** [F'] is [F] with new instructions placed among the old ones. *)
Definition inserted_into (F F' : Function) : Prop :=
  same_cfg F F' /\
  forall I pos, (pos < next_value F)%nat -> placed_before F I pos -> placed_before F' I pos.

(** Among [stores] is a store of the value of identifier [R] to the slot of
    its colour, placed before the call of safepoint [sp] when that is a
    value of [F0]. *)
Definition root_stored (S : State) (MinColorRoot : Z) (Colors : list Z) (GCFrame : Value)
    (F0 F : Function) (stores : list Value) (R : nat) (sp : Z) : Prop :=
  exists st CI v : Value,
    st ∈ stores /\
    ReverseSafepointNumbering S !! Z.to_nat sp = Some CI /\
    ReversePtrNumbering S !! Z.of_nat R = Some v /\
    root_store F GCFrame (to_unsigned (getColor Colors (Z.of_nat R) + MinColorRoot)) v st /\
    ((CI < next_value F0)%nat -> placed_before F st CI).

(** ** The numbering that the scan keeps *)

(** The casts that the search of a base value steps through are typed as
    in valid IR: none has the type of a union, and a value that is no
    pointer, reached from a pointer, is where the search ends. *)
Definition casts_typed (A : AddressSpaces) (F : Function) : Prop :=
  forall x y : Value, base_step A F x = Some y ->
    isUnionRep A (getType F x) = false /\
    (isPointerTy (getType F x) = true -> isPointerTy (getType F y) = false ->
     base_step A F y = None).

Definition casts_typed_b (A : AddressSpaces) (F : Function) : bool :=
  forallb (fun e : Value * ValueInfo =>
             match base_step A F e.1 with
             | None => true
             | Some y =>
                 negb (isUnionRep A (getType F e.1)) &&
                 (negb (isPointerTy (getType F e.1)) || isPointerTy (getType F y)
                  || match base_step A F y with None => true | Some _ => false end)
             end)
          (map_to_list (values F)).

(** The values and their operands lie below the next free address, and
    the casts are typed. *)
Definition well_formed (A : AddressSpaces) (F : Function) : Prop :=
  fresh F /\ closed F /\ casts_typed A F.

(** T_prjlvalue is a pointer type, when it is set. *)
Definition T_prjlvalue_pointer (P : LateLowerGCFrame) : bool :=
  match T_prjlvalue P with
  | Some T => isPointerTy T
  | None => true
  end.

(** [r] is a select of pointers that are not tracked, with no tracked base
    on either side: LiftSelect gives it -1 and caches nothing. *)
Definition unlifted_select (A : AddressSpaces) (F : Function) (r : Value) : Prop :=
  is_rooted_in_parent A F r = false /\
  isSelect (getKind F r) && negb (getValueAddrSpace F r =? Tracked A) = true /\
  exists fuel C T Fv TB FB,
    getKind F r = SelectInst C T Fv /\
    FindBaseValue fuel A F State_init T false = Ok TB /\
    FindBaseValue fuel A F State_init Fv false = Ok FB /\
    negb (extractedAddrSpace A F TB =? Tracked A)
    && negb (extractedAddrSpace A F FB =? Tracked A) = true.

(** The base value [r] has the number [m]: it is cached with it, or it is
    a select that LiftSelect gives -1. *)
Definition settled (P : LateLowerGCFrame) (F : Function) (S : State) (r : Value) (m : Z)
    : Prop :=
  AllPtrNumbering S !! r = Some m \/
  (m = -1 /\ AllPtrNumbering S !! r = None /\ unlifted_select (AddressSpace P) F r).

(** The cache AllPtrNumbering holds values of the function, and a cached
    pointer that the search steps through has the number of the base value
    that the search from its operand ends at. *)
Definition numbering_settled (P : LateLowerGCFrame) (F : Function) (S : State) : Prop :=
  (forall (x : Value) m, AllPtrNumbering S !! x = Some m -> (x < next_value F)%nat) /\
  forall (x : Value) m y,
    AllPtrNumbering S !! x = Some m -> isPointerTy (getType F x) = true ->
    base_step (AddressSpace P) F x = Some y ->
    exists fuel r c,
      FindBaseValue_loop fuel (AddressSpace P) F S true y = Some (r, c) /\
      (c = false -> is_base (getKind F r) = true) /\
      settled P F S r m.

(** What the scan keeps of the function and the numbering. *)
Definition scan_numbered (P : LateLowerGCFrame) (F : Function) (S : State) : Prop :=
  well_formed (AddressSpace P) F /\ numbering_settled P F S.

(** * Properties *)

(** ** Bit vectors as sets of indices *)

Section BitVectorFacts.
Implicit Types a b bv : BitVector.
Implicit Types i j n : nat.

Lemma BV_test_lt bv i : BV.test bv i = true -> (i < length bv)%nat.
Proof.
  unfold BV.test. destruct (bv !! i) eqn:E; simpl; [|done].
  intros _. by eapply lookup_lt_Some.
Qed.

Lemma BV_test_ge bv i : (length bv <= i)%nat -> BV.test bv i = false.
Proof. intros H. unfold BV.test. by rewrite lookup_ge_None_2. Qed.

Lemma BV_test_map (f : nat -> bool) n i :
  BV.test (f <$> seq 0 n) i = if decide (i < n)%nat then f i else false.
Proof.
  unfold BV.test. rewrite list_lookup_fmap.
  case_decide.
  - by rewrite lookup_seq_lt.
  - rewrite lookup_seq_ge; [done|lia].
Qed.

Lemma BV_test_or a b i : BV.test (BV.or a b) i = BV.test a i || BV.test b i.
Proof.
  unfold BV.or. rewrite BV_test_map. case_decide; [done|].
  rewrite !BV_test_ge; [done|lia..].
Qed.

Lemma BV_test_and a b i : BV.test (BV.and a b) i = BV.test a i && BV.test b i.
Proof.
  unfold BV.and. rewrite BV_test_map. case_decide; [done|].
  rewrite (BV_test_ge a); [done|lia].
Qed.

Lemma BV_test_flip a i :
  BV.test (BV.flip a) i = if decide (i < length a)%nat then negb (BV.test a i) else false.
Proof.
  unfold BV.flip, BV.test. rewrite list_lookup_fmap.
  case_decide as H.
  - apply lookup_lt_is_Some_2 in H as [x ->]. done.
  - rewrite lookup_ge_None_2; [done|lia].
Qed.

Lemma BV_test_resize bv n i :
  BV.test (BV.resize n bv) i = if decide (i < n)%nat then BV.test bv i else false.
Proof.
  unfold BV.resize, BV.test. case_decide.
  - destruct (decide (i < length bv)%nat).
    + by rewrite lookup_resize.
    + rewrite lookup_resize_new; [|lia..]. rewrite lookup_ge_None_2; [done|lia].
  - rewrite lookup_resize_old; [done|lia].
Qed.

Lemma BV_test_reset bv i : BV.test (BV.reset bv) i = false.
Proof.
  unfold BV.reset, BV.test.
  destruct (replicate (length bv) false !! i) eqn:E; [|done].
  by apply lookup_replicate in E as [-> _].
Qed.

Lemma BV_test_empty i : BV.test BV.empty i = false.
Proof. done. Qed.

Lemma BV_test_assign bv (z : Z) (v : bool) i :
  BV.test (BV.assign bv z v) i =
    if decide (0 <= z /\ Z.to_nat z = i /\ (i < length bv)%nat) then v else BV.test bv i.
Proof.
  unfold BV.assign, BV.test.
  destruct (Z.leb_spec 0 z).
  - destruct (decide (Z.to_nat z = i)) as [->|Hne].
    + case_decide as Hd.
      * rewrite list_lookup_insert_eq; [done|lia].
      * rewrite list_insert_ge; [done|lia].
    + rewrite list_lookup_insert_ne; [|done]. case_decide; [lia|done].
  - case_decide; [lia|done].
Qed.

Lemma BV_length_assign bv z v : length (BV.assign bv z v) = length bv.
Proof. unfold BV.assign. case_match; [by rewrite length_insert|done]. Qed.

Lemma BV_length_or a b : length (BV.or a b) = Nat.max (length a) (length b).
Proof. unfold BV.or. by rewrite length_fmap, length_seq. Qed.

Lemma BV_length_and a b : length (BV.and a b) = length a.
Proof. unfold BV.and. by rewrite length_fmap, length_seq. Qed.

Lemma BV_eqb_true a b : BV.eqb a b = true <-> forall i, BV.test a i = BV.test b i.
Proof.
  unfold BV.eqb. rewrite forallb_forall. split.
  - intros H i. destruct (decide (i < Nat.max (length a) (length b))%nat).
    + apply Bool.eqb_prop, H, list_elem_of_In, elem_of_seq. lia.
    + rewrite !BV_test_ge; [done|lia..].
  - intros H i _. rewrite H. apply Bool.eqb_reflx.
Qed.

Lemma forallb_false_witness {A} (f : A -> bool) (l : list A) :
  forallb f l = false -> exists x, x ∈ l /\ f x = false.
Proof.
  induction l as [|x l IH]; simpl; [done|].
  destruct (f x) eqn:E; simpl.
  - intros H. destruct (IH H) as (y & Hy & Hf). exists y. split; [by right|done].
  - intros _. exists x. split; [by left|done].
Qed.

Lemma BV_eqb_false a b : BV.eqb a b = false -> exists i, BV.test a i <> BV.test b i.
Proof.
  intros H. apply forallb_false_witness in H as (i & _ & Hi).
  exists i. intros Heq. rewrite Heq, Bool.eqb_reflx in Hi. done.
Qed.

Lemma BV_elem_of_bits bv i : i ∈ BV.bits bv <-> BV.test bv i = true.
Proof.
  unfold BV.bits. rewrite list_elem_of_filter, elem_of_seq.
  split; [tauto|]. intros H. split; [done|]. apply BV_test_lt in H. lia.
Qed.

Lemma HasBitSet_test bv (z : Z) :
  HasBitSet bv z = true <-> 0 <= z /\ BV.test bv (Z.to_nat z) = true.
Proof.
  unfold HasBitSet. rewrite andb_true_iff, Z.leb_le. done.
Qed.
End BitVectorFacts.

(** ** The refinement pass *)

Section Refinement.
Variable R : gmap Z Z.
Implicit Types LS : BitVector.

Lemma refine_step_length LS k : length (refine_step R LS k) = length LS.
Proof.
  unfold refine_step. repeat case_match; try done; apply BV_length_assign.
Qed.

Lemma refine_step_other LS k j : j <> k -> BV.test (refine_step R LS k) j = BV.test LS j.
Proof.
  intros Hne. unfold refine_step. repeat case_match; try done.
  rewrite BV_test_assign. case_decide; [lia|done].
Qed.

Lemma refine_step_at LS k :
  BV.test (refine_step R LS k) k =
    BV.test LS k &&
    negb (match R !! Z.of_nat k with
          | Some RefinedPtr => (RefinedPtr =? -1) || HasBitSet LS RefinedPtr
          | None => false
          end).
Proof.
  unfold refine_step. destruct (BV.test LS k) eqn:Hk; [|by rewrite Hk].
  destruct (R !! Z.of_nat k) as [r|]; [|by rewrite Hk].
  destruct ((r =? -1) || HasBitSet LS r); [|by rewrite Hk].
  rewrite BV_test_assign. apply BV_test_lt in Hk.
  case_decide; [done|lia].
Qed.

Lemma RefinementScan_S LS k :
  RefinementScan R LS (S k) = refine_step R (RefinementScan R LS k) k.
Proof. unfold RefinementScan. by rewrite seq_S, foldl_snoc. Qed.

Lemma RefinementScan_length LS k : length (RefinementScan R LS k) = length LS.
Proof.
  induction k as [|k IH]; [done|].
  by rewrite RefinementScan_S, refine_step_length.
Qed.

(** Bits at or above the scan position are still the original ones. *)
Lemma RefinementScan_above LS k j :
  (k <= j)%nat -> BV.test (RefinementScan R LS k) j = BV.test LS j.
Proof.
  induction k as [|k IH]; [done|]. intros Hj.
  rewrite RefinementScan_S, refine_step_other; [|lia]. apply IH. lia.
Qed.

(** Bits below the scan position are final. *)
Lemma RefinementScan_below LS k j :
  (j < k)%nat -> BV.test (RefinementScan R LS k) j = BV.test (RefinementScan R LS (S j)) j.
Proof.
  induction k as [|k IH]; [lia|]. intros Hj.
  destruct (decide (j = k)) as [->|Hne]; [done|].
  rewrite RefinementScan_S, refine_step_other; [|done]. apply IH. lia.
Qed.

Lemma ApplyRefinements_scan LS : ApplyRefinements R LS = RefinementScan R LS (length LS).
Proof. done. Qed.

Lemma ApplyRefinements_test LS j :
  BV.test (ApplyRefinements R LS) j = BV.test (RefinementScan R LS (S j)) j.
Proof.
  rewrite ApplyRefinements_scan.
  destruct (decide (j < length LS)%nat).
  - by apply RefinementScan_below.
  - rewrite !BV_test_ge; [done|rewrite RefinementScan_length; lia..].
Qed.

Lemma RefinementScan_test LS k j :
  BV.test (RefinementScan R LS k) j =
    if decide (j < k)%nat then BV.test (ApplyRefinements R LS) j else BV.test LS j.
Proof.
  case_decide.
  - rewrite ApplyRefinements_test. by apply RefinementScan_below.
  - apply RefinementScan_above. lia.
Qed.

Lemma ApplyRefinements_spec LS j :
  BV.test (ApplyRefinements R LS) j =
    BV.test LS j &&
    negb (match R !! Z.of_nat j with
          | Some RefinedPtr =>
              (RefinedPtr =? -1) || HasBitSet (RefinementScan R LS j) RefinedPtr
          | None => false
          end).
Proof.
  rewrite ApplyRefinements_test, RefinementScan_S, refine_step_at.
  by rewrite RefinementScan_above.
Qed.

Lemma ApplyRefinements_subset LS j :
  BV.test (ApplyRefinements R LS) j = true -> BV.test LS j = true.
Proof. rewrite ApplyRefinements_spec. by intros [? _]%andb_true_iff. Qed.
End Refinement.

(** ** The loop over the safepoints in ComputeLiveSets *)

Section LiveSetLoop.
Variable F : Function.

Lemma same_analysis_refl S : same_analysis S S.
Proof. by repeat split. Qed.

Lemma same_analysis_trans S1 S2 S3 :
  same_analysis S1 S2 -> same_analysis S2 S3 -> same_analysis S1 S3.
Proof. unfold same_analysis. intros. destruct_and!. repeat split; congruence. Qed.

Lemma same_analysis_getBBS S S' BB : same_analysis S S' -> getBBS S' BB = getBBS S BB.
Proof. intros (H & _). unfold getBBS. by rewrite H. Qed.

Lemma LiveSet_step_same S it : same_analysis S (LiveSet_step F S it).
Proof.
  destruct it as [sp idx]. unfold LiveSet_step.
  repeat case_match; try apply same_analysis_refl.
  repeat split. simpl. by rewrite length_insert.
Qed.

Lemma LiveSet_step_other S it n :
  Z.to_nat it.2 <> n -> LiveSets (LiveSet_step F S it) !! n = LiveSets S !! n.
Proof.
  destruct it as [sp idx]. simpl. intros Hne. unfold LiveSet_step.
  repeat case_match; try done. simpl. by rewrite list_lookup_insert_ne.
Qed.

Lemma LiveSet_step_at S sp idx BB LS :
  getParent F sp = Some BB -> LiveSets S !! Z.to_nat idx = Some LS ->
  LiveSets (LiveSet_step F S (sp, idx)) !! Z.to_nat idx =
    Some (FinalLiveSet S (getBBS S BB)
            (default [] (LiveIfLiveOut S !! Z.to_nat idx)) LS).
Proof.
  intros HP HL. unfold LiveSet_step. rewrite HP, HL. simpl.
  apply list_lookup_insert_eq. by eapply lookup_lt_Some.
Qed.

Lemma LiveSet_loop_same l S : same_analysis S (foldl (LiveSet_step F) S l).
Proof.
  revert S. induction l as [|it l IH]; intros S; simpl; [apply same_analysis_refl|].
  eapply same_analysis_trans; [apply LiveSet_step_same|apply IH].
Qed.

Lemma LiveSet_loop_other l S n :
  (forall it, it ∈ l -> Z.to_nat it.2 <> n) ->
  LiveSets (foldl (LiveSet_step F) S l) !! n = LiveSets S !! n.
Proof.
  revert S. induction l as [|it l IH]; intros S H; simpl; [done|].
  rewrite IH; [|intros; apply H; by right].
  apply LiveSet_step_other, H. by left.
Qed.

Lemma FinalLiveSet_same S S' BBS L LS :
  same_analysis S S' -> FinalLiveSet S' BBS L LS = FinalLiveSet S BBS L LS.
Proof. intros (_ & H & _). unfold FinalLiveSet. by rewrite H. Qed.

Lemma LiveSet_loop_at l S sp idx BB LS :
  NoDup ((fun it : Value * Z => Z.to_nat it.2) <$> l) ->
  (sp, idx) ∈ l ->
  getParent F sp = Some BB -> LiveSets S !! Z.to_nat idx = Some LS ->
  LiveSets (foldl (LiveSet_step F) S l) !! Z.to_nat idx =
    Some (FinalLiveSet S (getBBS S BB)
            (default [] (LiveIfLiveOut S !! Z.to_nat idx)) LS).
Proof.
  revert S. induction l as [|it l IH]; intros S Hnd Hin HP HL; [by inversion Hin|].
  simpl. rewrite fmap_cons in Hnd. apply NoDup_cons in Hnd as [Hnotin Hnd].
  apply elem_of_cons in Hin as [<-|Hin].
  - rewrite LiveSet_loop_other.
    + by apply LiveSet_step_at.
    + intros it' Hit' Heq. apply Hnotin. simpl. rewrite <- Heq.
      apply list_elem_of_fmap. by exists it'.
  - assert (Z.to_nat it.2 <> Z.to_nat idx) as Hne.
    { intros Heq. apply Hnotin. rewrite Heq. apply list_elem_of_fmap. by exists (sp, idx). }
    pose proof (LiveSet_step_same S it) as Hs.
    erewrite (IH _ Hnd Hin HP).
    + rewrite (FinalLiveSet_same _ _ _ _ _ Hs), (same_analysis_getBBS _ _ _ Hs).
      destruct Hs as (_ & _ & -> & _). done.
    + rewrite LiveSet_step_other; done.
Qed.

Lemma SafepointNumbering_NoDup S :
  SafepointNumbering_wf S ->
  NoDup ((fun it : Value * Z => Z.to_nat it.2) <$> map_to_list (SafepointNumbering S)).
Proof.
  intros Hwf. apply NoDup_fmap_2_strong; [|apply NoDup_map_to_list].
  intros [sp1 i1] [sp2 i2] H1 H2 Heq. simpl in Heq.
  apply elem_of_map_to_list in H1, H2.
  destruct (Hwf _ _ H1) as [Hp1 Hr1], (Hwf _ _ H2) as [Hp2 Hr2].
  rewrite Heq in Hr1. f_equal; [congruence|lia].
Qed.

Lemma ComputeLiveSets_LiveSets S n :
  LiveSets (ComputeLiveSets F S) !! n =
  LiveSets (foldl (LiveSet_step F) S (map_to_list (SafepointNumbering S))) !! n.
Proof. done. Qed.

Lemma ComputeLiveSets_same S : 
  BBStates (ComputeLiveSets F S) = BBStates S /\
  SafepointNumbering (ComputeLiveSets F S) = SafepointNumbering S /\
  LoadRefinements (ComputeLiveSets F S) = LoadRefinements S /\
  MaxPtrNumber (ComputeLiveSets F S) = MaxPtrNumber S /\
  ReturnsTwice (ComputeLiveSets F S) = ReturnsTwice S.
Proof.
  pose proof (LiveSet_loop_same (map_to_list (SafepointNumbering S)) S) as H.
  unfold same_analysis in H. destruct_and!. unfold ComputeLiveSets. simpl. done.
Qed.

(** The live set recorded for a safepoint is the outcome of the three steps
    of the loop body on the live set of the local scan. *)
Lemma ComputeLiveSets_at S sp idx BB LS :
  SafepointNumbering_wf S ->
  SafepointNumbering S !! sp = Some idx ->
  getParent F sp = Some BB -> LiveSets S !! Z.to_nat idx = Some LS ->
  LiveSets (ComputeLiveSets F S) !! Z.to_nat idx =
    Some (FinalLiveSet S (getBBS S BB)
            (default [] (LiveIfLiveOut S !! Z.to_nat idx)) LS).
Proof.
  intros Hwf Hsp HP HL. rewrite ComputeLiveSets_LiveSets.
  apply LiveSet_loop_at with (sp := sp); try done.
  - by apply SafepointNumbering_NoDup.
  - by apply elem_of_map_to_list.
Qed.
End LiveSetLoop.

(** ** Colouring *)

Section Coloring.
Implicit Types C : list Z.

Lemma getColor_lookup C (i : nat) : getColor C (Z.of_nat i) = default (-1) (C !! i).
Proof.
  unfold getColor. destruct (Z.leb_spec 0 (Z.of_nat i)); [|lia].
  by rewrite Nat2Z.id.
Qed.

Lemma setColor_length C i c : length (setColor C i c) = length C.
Proof. unfold setColor. case_match; [apply length_insert|done]. Qed.

Lemma setColor_lookup C (i : Z) c (j : nat) x :
  setColor C i c !! j = Some x ->
  (0 <= i /\ Z.to_nat i = j /\ x = c) \/ (C !! j = Some x /\ (0 <= i -> Z.to_nat i <> j)).
Proof.
  unfold setColor. destruct (Z.leb_spec 0 i); [|intros; right; split; [done|lia]].
  destruct (decide (Z.to_nat i = j)) as [<-|Hne].
  - intros Hl. left. pose proof (lookup_lt_Some _ _ _ Hl) as Hlt.
    rewrite length_insert in Hlt.
    rewrite list_lookup_insert_eq in Hl; [|done]. naive_solver.
  - rewrite list_lookup_insert_ne; [|done]. intros. by right.
Qed.

Lemma preassign_bit_ok a Idx : preassigned a -> preassigned (preassign_bit a Idx).
Proof.
  intros [Hp Hc]. unfold preassign_bit. case_match; [|done].
  split; simpl; [lia|]. intros i c [(_ & _ & ->)|[Hl _]]%setColor_lookup; [lia|].
  destruct (Hc _ _ Hl); [by left|right; lia].
Qed.

Lemma preassign_bit_length a Idx : length (preassign_bit a Idx).1 = length a.1.
Proof. unfold preassign_bit. case_match; [apply setColor_length|done]. Qed.

Lemma preassign_bits_ok l a :
  preassigned a -> preassigned (foldl preassign_bit a l) /\
                   length (foldl preassign_bit a l).1 = length a.1.
Proof.
  revert a. induction l as [|x l IH]; intros a Ha; simpl; [done|].
  destruct (IH (preassign_bit a x) (preassign_bit_ok _ _ Ha)) as [H1 H2].
  split; [done|]. by rewrite H2, preassign_bit_length.
Qed.

Lemma preassign_calls_ok S l a r :
  preassigned a ->
  foldl (preassign_call S) (Ok a) l = Ok r ->
  preassigned r /\ length r.1 = length a.1.
Proof.
  revert a. induction l as [|it l IH]; intros a Ha; simpl.
  - by intros [= <-].
  - destruct (SafepointNumbering S !! it) as [Num|] eqn:E; simpl.
    + intros Hf.
      destruct (preassign_bits_ok
                  (BV.bits (default [] (LiveSets S !! Z.to_nat Num))) a Ha) as [H1 H2].
      destruct (IH _ H1 Hf) as [H3 H4]. split; [done|congruence].
    + assert (forall l', foldl (preassign_call S) (Abort "std::out_of_range") l' =
                         Abort "std::out_of_range") as Hab.
      { induction l' as [|y l' IHl']; [done|]. simpl. apply IHl'. }
      by rewrite Hab.
Qed.

Lemma PreAssign_ok S C0 P :
  PreAssign S = Ok (C0, P) ->
  preassigned (C0, P) /\ length C0 = Z.to_nat (MaxPtrNumber S + 1).
Proof.
  intros H. eapply preassign_calls_ok in H as [H1 H2].
  - split; [done|]. simpl in H2. by rewrite H2, length_replicate.
  - split; simpl; [lia|]. intros i c [-> _]%lookup_replicate. by left.
Qed.
End Coloring.

Section Greedy.
Variable N : list (list Z).
Variable P : Z.
Hypothesis P_nonneg : 0 <= P.
Hypothesis N_sym : forall i j, (i < length N)%nat -> (j < length N)%nat ->
                               adjacent N i j -> adjacent N j i.
Implicit Types C : list Z.

(** The colours marked as used are those of the coloured neighbours. *)
Lemma mark_neighbor_test C acc nb k :
  BV.test (mark_neighbor C P acc nb) k = true <->
  BV.test acc k = true \/
  (getColor C nb <> -1 /\ P <= getColor C nb /\
   Z.to_nat (getColor C nb - P) = k /\ (k < length acc)%nat).
Proof.
  unfold mark_neighbor.
  destruct (Z.eqb_spec (getColor C nb) (-1)) as [Hm|Hm]; [naive_solver|].
  destruct (Z.ltb_spec (getColor C nb) P) as [Hlt|Hge]; [naive_solver lia|].
  rewrite BV_test_assign. case_decide as Hd.
  - split; [intros _; right; naive_solver|done].
  - split; [by left|]. intros [?|(_ & _ & ? & ?)]; [done|].
    exfalso. apply Hd. split; [lia|done].
Qed.

Lemma mark_neighbor_length C acc nb : length (mark_neighbor C P acc nb) = length acc.
Proof. unfold mark_neighbor. repeat case_match; try done. apply BV_length_assign. Qed.

Lemma mark_neighbors_test C Ns acc k :
  BV.test (foldl (mark_neighbor C P) acc Ns) k = true <->
  BV.test acc k = true \/
  exists nb, nb ∈ Ns /\ getColor C nb <> -1 /\ P <= getColor C nb /\
             Z.to_nat (getColor C nb - P) = k /\ (k < length acc)%nat.
Proof.
  revert acc. induction Ns as [|nb Ns IH]; intros acc; simpl.
  - split; [by left|]. intros [?|(nb & Hin & _)]; [done|by inversion Hin].
  - rewrite IH, mark_neighbor_test, mark_neighbor_length. split.
    + intros [[?|?]|(x & Hin & ?)]; [by left|right; exists nb|right; exists x].
      * split; [by left|done].
      * split; [by right|done].
    + intros [?|(x & Hin & ?)]; [by left; left|].
      apply elem_of_cons in Hin as [->|Hin]; [by left; right|].
      right. by exists x.
Qed.

Lemma mark_neighbors_length C Ns acc :
  length (foldl (mark_neighbor C P) acc Ns) = length acc.
Proof.
  revert acc. induction Ns as [|nb Ns IH]; intros acc; simpl; [done|].
  by rewrite IH, mark_neighbor_length.
Qed.

Lemma find_first_spec (bv : BitVector) :
  (BV.find_first bv = -1 /\ forall k, BV.test bv k = false) \/
  (exists k, BV.find_first bv = Z.of_nat k /\ BV.test bv k = true).
Proof.
  unfold BV.find_first. destruct (BV.bits bv) as [|k l] eqn:E.
  - left. split; [done|]. intros k. apply not_true_is_false.
    rewrite <- BV_elem_of_bits, E. by inversion 1.
  - right. exists k. split; [done|]. apply BV_elem_of_bits. rewrite E. by left.
Qed.

Lemma color_element_ok S C Max O v :
  Neighbors S = N ->
  proper N P C Max ->
  let G := color_element S P (mkGreedy C Max O) v in
  proper N P (Colors G) (MaxAssignedColor G) /\ length (Colors G) = length C /\
  Ordering G = O.
Proof.
  intros HN (HMax & Hrange & Hadj). unfold color_element. simpl.
  destruct (Z.eqb_spec (getColor C v) (-1)) as [Hv|Hv]; simpl; [|done].
  rewrite HN.
  destruct (default [] (N !! Z.to_nat v)) as [|n0 Ns0] eqn:ENs; [done|].
  assert (default [] (N !! Z.to_nat v) <> []) as HNs by (by rewrite ENs).
  rewrite <- ENs. clear n0 Ns0 ENs.
  set (Ns := default [] (N !! Z.to_nat v)) in *.
  set (U0 := BV.reset (BV.resize (Z.to_nat (Max + 2)) BV.empty)).
  set (U := foldl (mark_neighbor C P) U0 Ns).
  assert (length U = Z.to_nat (Max + 2)) as HlenU.
  { unfold U. rewrite mark_neighbors_length. unfold U0, BV.reset, BV.resize.
    by rewrite length_replicate, length_resize. }
  assert (forall k, BV.test U k = true ->
            exists nb, nb ∈ Ns /\ getColor C nb <> -1 /\ P <= getColor C nb /\
                       Z.to_nat (getColor C nb - P) = k) as HU1.
  { intros k [Hk|(nb & ?)]%mark_neighbors_test; [|naive_solver].
    unfold U0 in Hk. by rewrite BV_test_reset in Hk. }
  assert (forall k, BV.test U k = true -> Z.of_nat k <= Max) as HU2.
  { intros k (nb & Hin & Hc1 & Hc2 & <-)%HU1.
    unfold getColor in *. destruct (0 <=? nb); [|done].
    destruct (C !! Z.to_nat nb) as [c|] eqn:E; simpl in *; [|done].
    specialize (Hrange _ _ E Hc2). lia. }
  destruct (find_first_spec (BV.flip U)) as [[_ Hnone]|(k & -> & Hk)].
  { exfalso. specialize (Hnone (Z.to_nat (Max + 1))).
    rewrite BV_test_flip, decide_True in Hnone; [|lia].
    apply negb_false_iff, HU2 in Hnone. lia. }
  rewrite BV_test_flip in Hk. case_decide as Hklt; [|done].
  apply negb_true_iff in Hk.
  split; [|split; [apply setColor_length|done]].
  simpl. split; [|split].
  - destruct (Z.ltb_spec Max (Z.of_nat k)); lia.
  - intros i c [(_ & _ & ->)|[Hl _]]%setColor_lookup Hc.
    + destruct (Z.ltb_spec Max (Z.of_nat k)); lia.
    + specialize (Hrange _ _ Hl Hc). destruct (Z.ltb_spec Max (Z.of_nat k)); lia.
  - assert (forall j, j <> Z.to_nat v -> C !! j = Some (Z.of_nat k + P) ->
                      ~ Z.of_nat j ∈ Ns) as Hnew.
    { intros j Hj Hl Hin.
      assert (BV.test U k = true) as Habs; [|congruence].
      apply mark_neighbors_test. right. exists (Z.of_nat j).
      rewrite getColor_lookup, Hl. simpl.
      assert (length U0 = length U) as HlenU0.
      { unfold U. by rewrite mark_neighbors_length. }
      repeat split; [done|lia..]. }
    intros i j c Hij [(Hv0 & <- & ->)|[Hi Hiv]]%setColor_lookup
                      [(Hv0' & <- & Hc')|[Hj Hjv]]%setColor_lookup Hc.
    + done.
    + by apply Hnew.
    + subst c. intros Ha. apply N_sym in Ha.
      * revert Ha. apply Hnew; [lia|done].
      * unfold adjacent in Ha. destruct (N !! i) eqn:E; [|by inversion Ha].
        by eapply lookup_lt_Some.
      * destruct (decide (Z.to_nat v < length N)%nat); [done|].
        exfalso. apply HNs. unfold Ns. rewrite lookup_ge_None_2; [done|lia].
    + by eapply Hadj.
Qed.
End Greedy.

Section GreedyLoop.
Variable S : State.
Variable P : Z.
Hypothesis P_nonneg : 0 <= P.
Hypothesis N_sym : forall i j, (i < length (Neighbors S))%nat -> (j < length (Neighbors S))%nat ->
                               adjacent (Neighbors S) i j -> adjacent (Neighbors S) j i.

Lemma greedy_loop_ok fuel G G' :
  proper (Neighbors S) P (Colors G) (MaxAssignedColor G) ->
  greedy_loop fuel S P G = Ok G' ->
  proper (Neighbors S) P (Colors G') (MaxAssignedColor G') /\
  length (Colors G') = length (Colors G).
Proof.
  revert G. induction fuel as [|fuel IH]; intros G HG; simpl; [done|].
  destruct (PEO_next (Neighbors S) (Ordering G)) as [v O'].
  destruct (v =? -1); [by intros [= <-]|].
  intros Hloop.
  destruct (color_element_ok (Neighbors S) P P_nonneg N_sym S
              (Colors G) (MaxAssignedColor G) O' v eq_refl HG) as (H1 & H2 & _).
  destruct (IH _ H1 Hloop) as [H3 H4]. split; [done|congruence].
Qed.
End GreedyLoop.

(** ** The interference graph *)

Section Interference.
Variable S : State.

Lemma InterferenceGraph_length :
  length (InterferenceGraph S) = Z.to_nat (MaxPtrNumber S + 1).
Proof. unfold InterferenceGraph. by rewrite length_fmap, length_seq. Qed.

Lemma InterferenceGraph_lookup (i : nat) :
  (i < Z.to_nat (MaxPtrNumber S + 1))%nat ->
  InterferenceGraph S !! i = Some (Z.of_nat <$> BV.bits (NeighborBits S (Z.of_nat i))).
Proof.
  intros H. unfold InterferenceGraph. rewrite list_lookup_fmap, lookup_seq_lt; done.
Qed.

Lemma NeighborBits_fold l acc (i j : nat) :
  BV.test (foldl (fun acc (it : Value * Z) =>
             let LS := default [] (LiveSets S !! Z.to_nat it.2) in
             if negb (Z.of_nat (length LS) <=? Z.of_nat i) && BV.test LS (Z.to_nat (Z.of_nat i))
             then BV.or acc LS else acc) acc l) j = true <->
  BV.test acc j = true \/
  exists it, it ∈ l /\
    BV.test (default [] (LiveSets S !! Z.to_nat it.2)) i = true /\
    BV.test (default [] (LiveSets S !! Z.to_nat it.2)) j = true.
Proof.
  revert acc. induction l as [|it l IH]; intros acc; simpl.
  - split; [by left|]. intros [?|(it & Hin & _)]; [done|by inversion Hin].
  - rewrite IH. clear IH. rewrite Nat2Z.id.
    set (LS := default [] (LiveSets S !! Z.to_nat it.2)).
    destruct (BV.test LS i) eqn:Hi.
    + pose proof (BV_test_lt _ _ Hi).
      destruct (Z.leb_spec (Z.of_nat (length LS)) (Z.of_nat i)); [lia|]. simpl.
      rewrite BV_test_or. split.
      * intros [[?|?]%orb_true_iff|(x & Hin & ?)]; [by left|right; exists it|right; exists x].
        -- split; [by left|done].
        -- split; [by right|done].
      * intros [?|(x & Hin & ? & ?)]; [left; apply orb_true_iff; by left|].
        apply elem_of_cons in Hin as [->|Hin].
        -- left. apply orb_true_iff. by right.
        -- right. by exists x.
    + rewrite andb_false_r. split.
      * intros [?|(x & Hin & ?)]; [by left|right; exists x]. split; [by right|done].
      * intros [?|(x & Hin & Hx & ?)]; [by left|].
        apply elem_of_cons in Hin as [->|Hin]; [fold LS in Hx; congruence|].
        right. by exists x.
Qed.

Lemma NeighborBits_test (i j : nat) :
  BV.test (NeighborBits S (Z.of_nat i)) j = true <->
  exists sp idx LS, SafepointNumbering S !! sp = Some idx /\
    LiveSets S !! Z.to_nat idx = Some LS /\
    BV.test LS i = true /\ BV.test LS j = true.
Proof.
  unfold NeighborBits. rewrite NeighborBits_fold.
  rewrite BV_test_resize, BV_test_empty. split.
  - intros [H|([sp idx] & Hin & Hi & Hj)]; [by case_decide|].
    apply elem_of_map_to_list in Hin. simpl in *.
    destruct (LiveSets S !! Z.to_nat idx) as [LS|] eqn:E; [|done].
    by exists sp, idx, LS.
  - intros (sp & idx & LS & Hsp & HLS & Hi & Hj). right. exists (sp, idx).
    split; [by apply elem_of_map_to_list|]. simpl. by rewrite HLS.
Qed.

Lemma InterferenceGraph_adjacent (i j : nat) :
  adjacent (InterferenceGraph S) i j <->
  (i < Z.to_nat (MaxPtrNumber S + 1))%nat /\
  BV.test (NeighborBits S (Z.of_nat i)) j = true.
Proof.
  unfold adjacent. split.
  - intros H. destruct (InterferenceGraph S !! i) as [l|] eqn:E; [|by inversion H].
    pose proof (lookup_lt_Some _ _ _ E) as Hlt. rewrite InterferenceGraph_length in Hlt.
    split; [done|]. rewrite InterferenceGraph_lookup in E; [|done].
    injection E as <-. simpl in H.
    apply list_elem_of_fmap in H as (j' & Hj & Hin).
    apply Nat2Z.inj in Hj as <-. by apply BV_elem_of_bits.
  - intros [Hlt Ht]. rewrite InterferenceGraph_lookup; [|done]. simpl.
    apply list_elem_of_fmap. exists j. split; [done|]. by apply BV_elem_of_bits.
Qed.

Lemma InterferenceGraph_sym (i j : nat) :
  (j < length (InterferenceGraph S))%nat ->
  adjacent (InterferenceGraph S) i j -> adjacent (InterferenceGraph S) j i.
Proof.
  rewrite InterferenceGraph_length, !InterferenceGraph_adjacent, !NeighborBits_test.
  intros Hj [Hi (sp & idx & LS & ?)]. split; [done|]. exists sp, idx, LS. naive_solver.
Qed.
End Interference.

Lemma ColorRoots_fuel_proper fuel S Colors P :
  (forall i j, (i < length (Neighbors S))%nat -> (j < length (Neighbors S))%nat ->
               adjacent (Neighbors S) i j -> adjacent (Neighbors S) j i) ->
  ColorRoots_fuel fuel S = Ok (Colors, P) ->
  0 <= P /\ length Colors = Z.to_nat (MaxPtrNumber S + 1) /\
  forall (i j : nat) c, i <> j -> Colors !! i = Some c -> Colors !! j = Some c -> P <= c ->
    ~ adjacent (Neighbors S) i j.
Proof.
  intros Hsym. unfold ColorRoots_fuel.
  destruct (PreAssign S) as [[C0 P0]| |] eqn:EP; simpl; [|done..].
  destruct (greedy_loop _ _ _ _) as [G| |] eqn:EG; simpl; [|done..].
  intros [= <- <-].
  apply PreAssign_ok in EP as [[HP HC0] Hlen]. simpl in *.
  eapply greedy_loop_ok in EG as [(_ & _ & Hadj) Hlen']; try done.
  - simpl in Hlen'. split; [done|]. split; [congruence|done].
  - simpl. split; [lia|]. split.
    + intros i c Hc Hge. destruct (HC0 _ _ Hc); lia.
    + intros i j c _ Hc _ Hge. destruct (HC0 _ _ Hc); lia.
Qed.

(** C1.  Two distinct identifiers that ColorRoots gives the same colour, that
    colour being at least the number [P] of colours pre-assigned for
    returns_twice calls, are not both in the live set (as left by
    ComputeLiveSets, refinements applied) of any safepoint. *)
Theorem same_color_never_colive (F : Function) (S : State) (Colors : list Z) (P : Z) :
  Neighbors S = [] ->
  ColorRoots (ComputeLiveSets F S) = Ok (Colors, P) ->
  forall (i j : nat) (c : Z),
    i <> j -> Colors !! i = Some c -> Colors !! j = Some c -> P <= c ->
    forall sp idx LS,
      SafepointNumbering (ComputeLiveSets F S) !! sp = Some idx ->
      LiveSets (ComputeLiveSets F S) !! Z.to_nat idx = Some LS ->
      ~ (BV.test LS i = true /\ BV.test LS j = true).
Proof.
  intros HN. unfold ColorRoots, ComputeLiveSets.
  set (S1 := foldl (LiveSet_step F) S (map_to_list (SafepointNumbering S))).
  assert (Neighbors S1 = []) as HN1.
  { pose proof (LiveSet_loop_same F (map_to_list (SafepointNumbering S)) S) as H.
    unfold same_analysis in H. fold S1 in H. destruct_and!. congruence. }
  rewrite HN1. simpl.
  set (S' := setNeighbors S1 (InterferenceGraph S1)).
  intros HC i j c Hij Hi Hj Hc sp idx LS Hsp HLS [Hti Htj].
  apply ColorRoots_fuel_proper in HC as (HP & Hlen & Hadj).
  - apply (Hadj i j c); try done. simpl.
    apply InterferenceGraph_adjacent. split.
    + apply lookup_lt_Some in Hi. simpl in Hlen. lia.
    + apply NeighborBits_test. by exists sp, idx, LS.
  - simpl. intros a b _ Hb. by apply InterferenceGraph_sym.
Qed.

(** ** Dataflow *)

Section DataflowBasics.
Lemma getBBS_setBBS S BB BBS BB' :
  getBBS (setBBS S BB BBS) BB' = if decide (BB = BB') then BBS else getBBS S BB'.
Proof.
  unfold getBBS, setBBS. simpl. case_decide as H.
  - subst. by rewrite lookup_insert_eq.
  - by rewrite lookup_insert_ne.
Qed.

Lemma fold_or_test {A} (g : A -> BitVector) (l : list A) (init : BitVector) i :
  BV.test (foldl (fun acc x => BV.or acc (g x)) init l) i = true <->
  BV.test init i = true \/ exists x, x ∈ l /\ BV.test (g x) i = true.
Proof.
  revert init. induction l as [|x l IH]; intros init; simpl.
  - split; [by left|]. intros [?|(x & Hin & _)]; [done|by inversion Hin].
  - rewrite IH, BV_test_or, orb_true_iff. split.
    + intros [[?|?]|(y & Hin & ?)]; [by left|right; exists x|right; exists y].
      * split; [by left|done].
      * split; [by right|done].
    + intros [?|(y & Hin & ?)]; [by left; left|].
      apply elem_of_cons in Hin as [->|Hin]; [by left; right|right; by exists y].
Qed.

Lemma fold_or_length {A} (g : A -> BitVector) (l : list A) (init : BitVector) W :
  (length init <= W)%nat -> (forall x, x ∈ l -> (length (g x) <= W)%nat) ->
  (length (foldl (fun acc x => BV.or acc (g x)) init l) <= W)%nat.
Proof.
  revert init. induction l as [|x l IH]; intros init Hi Hl; simpl; [done|].
  apply IH.
  - rewrite BV_length_or. specialize (Hl x ltac:(by left)). lia.
  - intros y Hy. apply Hl. by right.
Qed.

Lemma NewLiveOut_test F S BB i :
  BV.test (NewLiveOut F S BB) i = true <->
  BV.test (PhiOuts (getBBS S BB)) i = true \/
  exists Succ, Succ ∈ successors F BB /\ BV.test (LiveIn (getBBS S Succ)) i = true.
Proof. unfold NewLiveOut. apply fold_or_test. Qed.

Lemma NewUnrootedIn_test F S BB i :
  BV.test (NewUnrootedIn F S BB) i = true <->
  exists Pred, Pred ∈ predecessors F BB /\ BV.test (UnrootedOut (getBBS S Pred)) i = true.
Proof.
  unfold NewUnrootedIn. rewrite fold_or_test, BV_test_empty. naive_solver.
Qed.

Lemma NewLiveIn_test BBS i :
  BV.test (NewLiveIn BBS) i =
    (BV.test (LiveOut BBS) i &&
     (if decide (i < length (Defs BBS))%nat then negb (BV.test (Defs BBS) i) else false))
    || BV.test (UpExposedUses BBS) i || BV.test (UpExposedUsesUnrooted BBS) i.
Proof. unfold NewLiveIn. by rewrite !BV_test_or, BV_test_and, BV_test_flip. Qed.

(** With [Defs] as long as [LiveOut], the intersection with the flipped
    [Defs] is the set difference. *)
Lemma NewLiveIn_test_diff BBS i :
  (length (LiveOut BBS) <= length (Defs BBS))%nat ->
  BV.test (NewLiveIn BBS) i =
    (BV.test (LiveOut BBS) i && negb (BV.test (Defs BBS) i))
    || BV.test (UpExposedUses BBS) i || BV.test (UpExposedUsesUnrooted BBS) i.
Proof.
  intros H. rewrite NewLiveIn_test. case_decide as Hd; [done|].
  rewrite (BV_test_ge (LiveOut BBS)); [done|lia].
Qed.

Lemma filter_length_mono {A} (P Q : A -> Prop)
    `{!forall x, Decision (P x)} `{!forall x, Decision (Q x)} (l : list A) :
  (forall x, P x -> Q x) -> (length (filter P l) <= length (filter Q l))%nat.
Proof.
  intros HPQ. induction l as [|x l IH]; [done|].
  rewrite !filter_cons. repeat case_decide; simpl; try lia. naive_solver.
Qed.

Lemma filter_length_strict {A} (P Q : A -> Prop)
    `{!forall x, Decision (P x)} `{!forall x, Decision (Q x)} (l : list A) x :
  (forall x, P x -> Q x) -> x ∈ l -> ~ P x -> Q x ->
  (length (filter P l) < length (filter Q l))%nat.
Proof.
  intros HPQ Hin HP HQ. induction l as [|y l IH]; [by inversion Hin|].
  pose proof (filter_length_mono P Q l HPQ).
  rewrite !filter_cons. apply elem_of_cons in Hin as [<-|Hin].
  - rewrite decide_False, decide_True by done. simpl. lia.
  - specialize (IH Hin). repeat case_decide; simpl; try lia. naive_solver.
Qed.

Lemma card_le W (a b : BitVector) : BV_subset a b -> (card W a <= card W b)%nat.
Proof. intros Hab. unfold card. by apply filter_length_mono. Qed.

Lemma card_lt W (a b : BitVector) i :
  BV_subset a b -> (i < W)%nat -> BV.test a i = false -> BV.test b i = true ->
  (card W a < card W b)%nat.
Proof.
  intros Hab Hi Ha Hb. unfold card. apply filter_length_strict with (x := i); try done.
  - apply elem_of_seq. lia.
  - congruence.
Qed.

Lemma card_bound W (a : BitVector) : (card W a <= W)%nat.
Proof.
  unfold card. etrans; [apply length_filter|]. by rewrite length_seq.
Qed.

Lemma BV_subset_refl (a : BitVector) : BV_subset a a.
Proof. by intros i. Qed.

(** A changed vector that only gained bits has more of them. *)
Lemma card_changed W (old new : BitVector) :
  BV_subset old new -> (length new <= W)%nat -> BV.eqb new old = false ->
  (card W old < card W new)%nat.
Proof.
  intros Hsub Hlen [i Hi]%BV_eqb_false.
  destruct (BV.test new i) eqn:En.
  - destruct (BV.test old i) eqn:Eo; [done|].
    apply (card_lt W old new i); try done. apply BV_test_lt in En. lia.
  - destruct (BV.test old i) eqn:Eo; [|done]. apply Hsub in Eo. congruence.
Qed.
End DataflowBasics.

Section DataflowStep.
Variable W : nat.
Variable F : Function.
Hypothesis W_small : Z.of_nat W < 2 ^ 32.

Lemma grows_refl S : grows S S.
Proof. intros BB. repeat split; apply BV_subset_refl. Qed.

Lemma grows_trans S1 S2 S3 : grows S1 S2 -> grows S2 S3 -> grows S1 S3.
Proof.
  intros H1 H2 BB. destruct (H1 BB) as (?&?&?&?), (H2 BB) as (?&?&?&?).
  repeat split; intros i Hi; eauto.
Qed.

Lemma same_local_refl S : same_local S S.
Proof. intros BB i. done. Qed.

Lemma same_local_trans S1 S2 S3 : same_local S1 S2 -> same_local S2 S3 -> same_local S1 S3.
Proof.
  intros H1 H2 BB i. destruct (H1 BB i) as (?&?&?&?&?), (H2 BB i) as (?&?&?&?&?).
  repeat split; congruence.
Qed.

(** The right-hand sides of the equations are monotone. *)
Lemma NewLiveOut_mono S S' BB :
  grows S S' -> same_local S S' -> BV_subset (NewLiveOut F S BB) (NewLiveOut F S' BB).
Proof.
  intros Hg Hl i. rewrite !NewLiveOut_test. intros [H|(Succ & Hin & H)].
  - left. destruct (Hl BB i) as (_ & -> & _). done.
  - right. exists Succ. split; [done|]. by apply Hg.
Qed.

Lemma NewUnrootedIn_mono S S' BB :
  grows S S' -> BV_subset (NewUnrootedIn F S BB) (NewUnrootedIn F S' BB).
Proof.
  intros Hg i. rewrite !NewUnrootedIn_test. intros (Pred & Hin & H).
  exists Pred. split; [done|]. by apply Hg.
Qed.

Lemma NewLiveIn_mono B B' :
  (length (LiveOut B) <= length (Defs B))%nat ->
  (length (LiveOut B') <= length (Defs B'))%nat ->
  BBState_same_local B B' -> BV_subset (LiveOut B) (LiveOut B') ->
  BV_subset (NewLiveIn B) (NewLiveIn B').
Proof.
  intros HK HK' Hl Ho i. rewrite !NewLiveIn_test_diff by done.
  destruct (Hl i) as (-> & _ & -> & -> & _).
  rewrite !orb_true_iff, andb_true_iff. intros [[[H1 H2]|H]|H]; [|tauto..].
  left. left. rewrite (Ho _ H1). done.
Qed.

Lemma NewLiveOut_length S BB :
  bounded W S -> (length (NewLiveOut F S BB) <= W)%nat.
Proof.
  intros Hb. apply fold_or_length.
  - destruct (Hb BB) as (_ & ? & _). done.
  - intros Succ _. destruct (Hb Succ) as (_ & _ & _ & _ & _ & ? & _). done.
Qed.

Lemma NewUnrootedIn_length S BB :
  bounded W S -> (length (NewUnrootedIn F S BB) <= W)%nat.
Proof.
  intros Hb. apply fold_or_length; [simpl; lia|].
  intros Pred _. destruct (Hb Pred) as (_ & _ & _ & _ & _ & _ & _ & _ & ?). done.
Qed.

Lemma NewLiveIn_length B : BBState_width W B -> (length (NewLiveIn B) <= W)%nat.
Proof.
  intros (? & ? & ? & ? & ? & ? & ? & ? & ?). unfold NewLiveIn.
  rewrite !BV_length_or, BV_length_and. lia.
Qed.

(** Replacing the state of one block by one that has gained bits and is
    still below the equations keeps the invariant. *)
Lemma dataflow_inv_update S BB B' :
  dataflow_inv W F S ->
  BBState_width W B' -> BBState_aligned B' ->
  BBState_same_local (getBBS S BB) B' -> BBState_grows (getBBS S BB) B' ->
  (length (LiveOut B') <= length (Defs B'))%nat ->
  BV_subset (LiveOut B') (NewLiveOut F S BB) ->
  BV_subset (LiveIn B') (NewLiveIn B') ->
  BV_subset (UnrootedIn B') (NewUnrootedIn F S BB) ->
  dataflow_inv W F (setBBS S BB B') /\ grows S (setBBS S BB B') /\
  same_local S (setBBS S BB B').
Proof.
  intros (Hb & Ha & He) Hw Hal Hsl Hgr HK Hout Hin Hun.
  assert (grows S (setBBS S BB B')) as Hg.
  { intros X. rewrite getBBS_setBBS. case_decide as HX; [by subst|].
    repeat split; apply BV_subset_refl. }
  assert (same_local S (setBBS S BB B')) as Hl.
  { intros X. rewrite getBBS_setBBS. case_decide as HX; [by subst|]. by intros i. }
  split; [|done]. split; [|split].
  - intros X. rewrite getBBS_setBBS. case_decide; [done|apply Hb].
  - intros X. rewrite getBBS_setBBS. case_decide; [done|apply Ha].
  - intros X. destruct (He X) as (HKX & HoX & HiX & HuX).
    rewrite getBBS_setBBS. case_decide as HX.
    + subst X. split; [done|]. split; [|split; [done|]].
      * intros i Hi. eapply NewLiveOut_mono; eauto.
      * intros i Hi. eapply NewUnrootedIn_mono; eauto.
    + split; [done|]. split; [|split; [done|]].
      * intros i Hi. eapply NewLiveOut_mono; eauto.
      * intros i Hi. eapply NewUnrootedIn_mono; eauto.
Qed.
Lemma MaybeResize_grow B n :
  (0 < n <= W)%nat -> BBState_width W B -> BBState_aligned B ->
  let B' := MaybeResize B (to_unsigned (Z.of_nat n - 1)) in
  BBState_width W B' /\ BBState_aligned B' /\ BBState_same_local B B' /\
  (n <= length (Defs B'))%nat /\
  LiveIn B' = LiveIn B /\ LiveOut B' = LiveOut B /\
  UnrootedIn B' = UnrootedIn B /\ UnrootedOut B' = UnrootedOut B.
Proof.
  intros Hn Hw Hal. unfold MaybeResize, to_unsigned.
  rewrite (Z.mod_small (Z.of_nat n - 1)) by lia.
  replace (Z.of_nat n - 1 + 1) with (Z.of_nat n) by lia.
  rewrite (Z.mod_small (Z.of_nat n)) by lia. rewrite Nat2Z.id.
  destruct (Z.leb_spec (Z.of_nat (length (Defs B))) (Z.of_nat n - 1)) as [Hle|Hgt]; simpl.
  - destruct Hw as (? & ? & ? & ? & ? & ? & ? & ? & ?).
    destruct Hal as (Ha1 & Ha2 & Ha3 & Ha4).
    unfold BBState_width, BBState_aligned, BBState_same_local, BV.resize. simpl.
    rewrite !length_resize.
    repeat split; try done; try lia.
    all: try lia.
    all: change (resize n false ?l) with (BV.resize n l); rewrite BV_test_resize;
      case_decide as Hd; [done|]; symmetry; apply BV_test_ge; lia.
  - split; [done|]. split; [done|]. split; [by intros i|]. split; [lia|done].
Qed.

Lemma update_LiveOut_spec S BB S' c :
  dataflow_inv W F S -> update_LiveOut F S BB = (S', c) ->
  dataflow_inv W F S' /\ grows S S' /\ same_local S S' /\
  (c = false -> S' = S /\ BV.eqb (NewLiveOut F S BB) (LiveOut (getBBS S BB)) = true) /\
  (c = true -> (BBState_card W (getBBS S BB) < BBState_card W (getBBS S' BB))%nat).
Proof.
  intros Hinv. pose proof Hinv as (Hb & Ha & He). unfold update_LiveOut.
  destruct (BV.eqb _ _) eqn:Eeq; simpl.
  { intros [= <- <-]. split; [done|]. split; [apply grows_refl|].
    split; [apply same_local_refl|]. split; done. }
  intros [= <- <-].
  set (B := getBBS S BB) in *. set (New := NewLiveOut F S BB) in *.
  destruct (He BB) as (HK & Hout & Hin & Hun). fold B New in HK, Hout, Hin, Hun.
  assert (0 < length New <= W)%nat as Hn.
  { split; [|by apply NewLiveOut_length].
    apply BV_eqb_false in Eeq as [i Hi].
    destruct (BV.test New i) eqn:En; [apply BV_test_lt in En; lia|].
    destruct (BV.test (LiveOut B) i) eqn:Eo; [|done]. apply Hout in Eo. congruence. }
  assert (BBState_width W (setLiveOut B New)) as Hw1.
  { pose proof (Hb BB) as Hw0. fold B in Hw0.
    destruct Hw0 as (? & ? & ? & ? & ? & ? & ? & ? & ?).
    repeat split; simpl; try done. lia. }
  destruct (MaybeResize_grow (setLiveOut B New) (length New) Hn Hw1 (Ha BB))
    as (Hw' & Hal' & Hsl' & HK' & HLI & HLO & HUI & HUO).
  set (B' := MaybeResize (setLiveOut B New) (to_unsigned (Z.of_nat (length New) - 1))) in *.
  simpl in HLI, HLO, HUI, HUO.
  assert (BBState_grows B B') as Hgr.
  { unfold BBState_grows. rewrite HLI, HLO, HUI, HUO.
    repeat split; try apply BV_subset_refl. done. }
  destruct (dataflow_inv_update S BB B' Hinv Hw' Hal') as (H1 & H2 & H3).
  - done.
  - done.
  - by rewrite HLO.
  - rewrite HLO. apply BV_subset_refl.
  - rewrite HLI. intros i Hi. apply Hin in Hi. revert i Hi.
    apply NewLiveIn_mono; try done; [by rewrite HLO|by rewrite HLO].
  - by rewrite HUI.
  - split; [done|]. split; [done|]. split; [done|]. split; [done|].
    intros _. rewrite getBBS_setBBS, decide_True by done.
    unfold BBState_card. rewrite HLI, HLO, HUI, HUO. fold B.
    pose proof (card_changed W (LiveOut B) New Hout (proj2 Hn) Eeq). lia.
Qed.

Lemma update_LiveIn_spec S BB S' c :
  dataflow_inv W F S -> update_LiveIn S BB = (S', c) ->
  dataflow_inv W F S' /\ grows S S' /\ same_local S S' /\
  (c = false -> S' = S /\ BV.eqb (NewLiveIn (getBBS S BB)) (LiveIn (getBBS S BB)) = true) /\
  (c = true -> (BBState_card W (getBBS S BB) < BBState_card W (getBBS S' BB))%nat).
Proof.
  intros Hinv. pose proof Hinv as (Hb & Ha & He). unfold update_LiveIn.
  destruct (BV.eqb _ _) eqn:Eeq; simpl.
  { intros [= <- <-]. split; [done|]. split; [apply grows_refl|].
    split; [apply same_local_refl|]. split; done. }
  intros [= <- <-].
  set (B := getBBS S BB) in *.
  destruct (He BB) as (HK & Hout & Hin & Hun). fold B in HK, Hout, Hin, Hun.
  pose proof (NewLiveIn_length B (Hb BB)) as Hlen.
  destruct (dataflow_inv_update S BB (setLiveIn B (NewLiveIn B)) Hinv)
    as (H1 & H2 & H3).
  - pose proof (Hb BB) as Hw0. fold B in Hw0.
    destruct Hw0 as (? & ? & ? & ? & ? & ? & ? & ? & ?).
    repeat split; simpl; done.
  - apply (Ha BB).
  - by intros i.
  - repeat split; try apply BV_subset_refl. done.
  - done.
  - done.
  - apply BV_subset_refl.
  - done.
  - split; [done|]. split; [done|]. split; [done|]. split; [done|].
    intros _. rewrite getBBS_setBBS, decide_True by done.
    unfold BBState_card. simpl. fold B.
    pose proof (card_changed W (LiveIn B) (NewLiveIn B) Hin Hlen Eeq). lia.
Qed.

Lemma update_Unrooted_spec S BB S' c :
  dataflow_inv W F S -> update_Unrooted F S BB = (S', c) ->
  dataflow_inv W F S' /\ grows S S' /\ same_local S S' /\
  (c = false -> S' = S /\
     BV.eqb (NewUnrootedIn F S BB) (UnrootedIn (getBBS S BB)) = true) /\
  (c = true -> (BBState_card W (getBBS S BB) < BBState_card W (getBBS S' BB))%nat).
Proof.
  intros Hinv. pose proof Hinv as (Hb & Ha & He). unfold update_Unrooted.
  destruct (BV.eqb _ _) eqn:Eeq; simpl.
  { intros [= <- <-]. split; [done|]. split; [apply grows_refl|].
    split; [apply same_local_refl|]. split; done. }
  intros [= <- <-].
  set (B := getBBS S BB) in *. set (New := NewUnrootedIn F S BB) in *.
  destruct (He BB) as (HK & Hout & Hin & Hun). fold B New in HK, Hout, Hin, Hun.
  pose proof (NewUnrootedIn_length S BB Hb) as Hlen. fold New in Hlen.
  set (B' := if HasSafepoint B then setUnrootedIn B New
             else setUnrootedOut (setUnrootedIn B New)
                    (BV.or (UnrootedOut B) New)).
  assert (BBState_grows B B') as Hgr.
  { unfold B'. destruct (HasSafepoint B); repeat split; simpl;
      try apply BV_subset_refl; try done.
    intros i Hi. rewrite BV_test_or, Hi. done. }
  assert (card W (UnrootedOut B) <= card W (UnrootedOut B'))%nat as HcO.
  { apply card_le. apply Hgr. }
  assert (LiveIn B' = LiveIn B /\ LiveOut B' = LiveOut B /\ UnrootedIn B' = New)
    as (HLI & HLO & HUI).
  { unfold B'. by destruct (HasSafepoint B). }
  destruct (dataflow_inv_update S BB B' Hinv) as (H1 & H2 & H3).
  - pose proof (Hb BB) as Hw0. fold B in Hw0.
    destruct Hw0 as (? & ? & ? & ? & ? & ? & ? & ? & ?).
    unfold B'. destruct (HasSafepoint B); repeat split; simpl; try done.
    rewrite BV_length_or. lia.
  - pose proof (Ha BB) as Hal. fold B in Hal. unfold B'.
    by destruct (HasSafepoint B).
  - unfold B'. destruct (HasSafepoint B) eqn:EH; intros i; simpl; by rewrite ?EH.
  - done.
  - unfold B'. by destruct (HasSafepoint B).
  - by rewrite HLO.
  - rewrite HLI. intros i Hi. apply Hin in Hi. revert i Hi.
    apply NewLiveIn_mono; try done.
    + unfold B'. by destruct (HasSafepoint B).
    + unfold B'. destruct (HasSafepoint B) eqn:EH; intros i; simpl; by rewrite ?EH.
    + rewrite HLO. apply BV_subset_refl.
  - rewrite HUI. apply BV_subset_refl.
  - split; [done|]. split; [done|]. split; [done|]. split; [done|].
    intros _. rewrite getBBS_setBBS, decide_True by done.
    unfold BBState_card. fold B. rewrite HLI, HLO, HUI.
    pose proof (card_changed W (UnrootedIn B) New Hun Hlen Eeq). lia.
Qed.

End DataflowStep.

Section DataflowLoop.
Variable W : nat.
Variable F : Function.
Hypothesis W_small : Z.of_nat W < 2 ^ 32.

Lemma BBState_card_le B B' : BBState_grows B B' -> (BBState_card W B <= BBState_card W B')%nat.
Proof.
  intros (H1 & H2 & H3 & H4). unfold BBState_card.
  pose proof (card_le W _ _ H1). pose proof (card_le W _ _ H2).
  pose proof (card_le W _ _ H3). pose proof (card_le W _ _ H4). lia.
Qed.

Lemma BBState_card_bound B : (BBState_card W B <= 4 * W)%nat.
Proof.
  unfold BBState_card.
  pose proof (card_bound W (LiveIn B)). pose proof (card_bound W (LiveOut B)).
  pose proof (card_bound W (UnrootedIn B)). pose proof (card_bound W (UnrootedOut B)). lia.
Qed.

Lemma cards_le L S S' : grows S S' -> (cards W L S <= cards W L S')%nat.
Proof.
  intros Hg. unfold cards. induction L as [|X L IH]; simpl; [done|].
  pose proof (BBState_card_le _ _ (Hg X)). lia.
Qed.

Lemma cards_lt L S S' BB :
  grows S S' -> BB ∈ L ->
  (BBState_card W (getBBS S BB) < BBState_card W (getBBS S' BB))%nat ->
  (cards W L S < cards W L S')%nat.
Proof.
  intros Hg Hin Hlt. unfold cards. induction L as [|X L IH]; [by inversion Hin|].
  simpl. pose proof (cards_le L S S' Hg) as Hle. unfold cards in Hle.
  apply elem_of_cons in Hin as [<-|Hin]; [lia|].
  specialize (IH Hin). pose proof (BBState_card_le _ _ (Hg X)). lia.
Qed.

Lemma cards_bound L S : (cards W L S <= 4 * W * length L)%nat.
Proof.
  unfold cards. induction L as [|X L IH]; simpl; [lia|].
  pose proof (BBState_card_bound (getBBS S X)). lia.
Qed.

Lemma dataflow_block_spec S c BB S' c' :
  dataflow_inv W F S -> dataflow_block F (S, c) BB = (S', c') ->
  dataflow_inv W F S' /\ grows S S' /\ same_local S S' /\
  (c' = false -> c = false /\ S' = S /\ fixpoint_at F S BB) /\
  (c = true -> c' = true) /\
  (c' = true -> c = false ->
     (BBState_card W (getBBS S BB) < BBState_card W (getBBS S' BB))%nat).
Proof.
  intros Hinv. unfold dataflow_block. simpl.
  destruct (update_LiveOut F S BB) as [S1 c1] eqn:E1.
  destruct (update_LiveIn S1 BB) as [S2 c2] eqn:E2.
  destruct (update_Unrooted F S2 BB) as [S3 c3] eqn:E3.
  intros [= <- <-].
  destruct (update_LiveOut_spec W F W_small _ _ _ _ Hinv E1) as (I1 & G1 & L1 & U1 & C1).
  destruct (update_LiveIn_spec W F _ _ _ _ I1 E2) as (I2 & G2 & L2 & U2 & C2).
  destruct (update_Unrooted_spec W F _ _ _ _ I2 E3) as (I3 & G3 & L3 & U3 & C3).
  split; [done|].
  split; [eauto using grows_trans|].
  split; [eauto using same_local_trans|].
  split; [|split].
  - intros Hc. destruct c, c1, c2, c3; try done.
    destruct (U1 eq_refl) as [-> ?]. destruct (U2 eq_refl) as [-> ?].
    destruct (U3 eq_refl) as [-> ?]. done.
  - by intros ->.
  - intros Hc ->. simpl in Hc.
    pose proof (BBState_card_le _ _ (G1 BB)). pose proof (BBState_card_le _ _ (G2 BB)).
    pose proof (BBState_card_le _ _ (G3 BB)).
    destruct c1; [specialize (C1 eq_refl); lia|].
    destruct c2; [specialize (C2 eq_refl); lia|].
    destruct c3; [specialize (C3 eq_refl); lia|done].
Qed.

Lemma dataflow_fold_spec L l S c S' c' :
  (forall b, b ∈ l -> b ∈ L) ->
  dataflow_inv W F S -> foldl (dataflow_block F) (S, c) l = (S', c') ->
  dataflow_inv W F S' /\ grows S S' /\ same_local S S' /\
  (c' = false -> c = false /\ S' = S /\ forall b, b ∈ l -> fixpoint_at F S b) /\
  (c = true -> c' = true) /\
  (c' = true -> c = false -> (cards W L S < cards W L S')%nat).
Proof.
  revert S c. induction l as [|BB l IH]; intros S c HL Hinv; simpl.
  - intros [= <- <-]. split; [done|]. split; [apply grows_refl|].
    split; [apply same_local_refl|]. split; [|split; [done|congruence]].
    intros ->. split; [done|]. split; [done|]. intros b Hb. by inversion Hb.
  - destruct (dataflow_block F (S, c) BB) as [S1 c1] eqn:E1. intros Hf.
    destruct (dataflow_block_spec _ _ _ _ _ Hinv E1) as (I1 & G1 & L1 & U1 & T1 & C1).
    destruct (IH S1 c1 ltac:(intros; apply HL; by right) I1 Hf)
      as (I2 & G2 & L2 & U2 & T2 & C2).
    split; [done|]. split; [eauto using grows_trans|].
    split; [eauto using same_local_trans|]. split; [|split].
    + intros Hc. destruct (U2 Hc) as (-> & -> & Hfix).
      destruct (U1 eq_refl) as (-> & -> & Hfix1).
      split; [done|]. split; [done|]. intros b [->|Hb]%elem_of_cons; eauto.
    + eauto.
    + intros Hc ->. destruct c1.
      * specialize (C1 eq_refl eq_refl).
        pose proof (cards_lt L S S1 BB G1 ltac:(apply HL; by left) C1).
        pose proof (cards_le L S1 S' G2). lia.
      * specialize (C2 Hc eq_refl). pose proof (cards_le L S S1 G1). lia.
Qed.

Lemma dataflow_pass_spec S S' c :
  dataflow_inv W F S -> dataflow_pass F S = (S', c) ->
  dataflow_inv W F S' /\ grows S S' /\ same_local S S' /\
  (c = false -> S' = S /\ forall b, b ∈ ReversePostOrderTraversal F -> fixpoint_at F S b) /\
  (c = true ->
     (cards W (ReversePostOrderTraversal F) S < cards W (ReversePostOrderTraversal F) S')%nat).
Proof.
  intros Hinv Hp.
  destruct (dataflow_fold_spec (ReversePostOrderTraversal F) _ _ _ _ _
              ltac:(done) Hinv Hp) as (I & G & L & U & _ & C).
  split; [done|]. split; [done|]. split; [done|]. split.
  - intros Hc. by destruct (U Hc) as (_ & ? & ?).
  - intros Hc. by apply C.
Qed.

(** Whatever the bound, a loop that ends does so at a fixed point. *)
Lemma dataflow_loop_Ok fuel S S' :
  dataflow_inv W F S -> dataflow_loop fuel F S = Ok S' ->
  dataflow_inv W F S' /\ grows S S' /\ same_local S S' /\
  forall b, b ∈ ReversePostOrderTraversal F -> fixpoint_at F S' b.
Proof.
  revert S. induction fuel as [|fuel IH]; intros S Hinv; simpl; [done|].
  destruct (dataflow_pass F S) as [S1 c] eqn:E.
  destruct (dataflow_pass_spec _ _ _ Hinv E) as (I & G & L & U & C).
  destruct c.
  - intros Hl. destruct (IH _ I Hl) as (I2 & G2 & L2 & Hfix).
    split; [done|]. split; [eauto using grows_trans|].
    split; [eauto using same_local_trans|done].
  - intros [= <-]. destruct (U eq_refl) as [-> Hfix]. done.
Qed.

(** The loop ends within the number of bits the variables can gain. *)
Lemma dataflow_loop_ends fuel S :
  dataflow_inv W F S ->
  (4 * W * length (ReversePostOrderTraversal F)
     - cards W (ReversePostOrderTraversal F) S < fuel)%nat ->
  exists S', dataflow_loop fuel F S = Ok S'.
Proof.
  revert S. induction fuel as [|fuel IH]; intros S Hinv Hfuel; simpl; [lia|].
  destruct (dataflow_pass F S) as [S1 c] eqn:E.
  destruct (dataflow_pass_spec _ _ _ Hinv E) as (I & G & L & U & C).
  destruct c; [|by eexists].
  apply IH; [done|]. specialize (C eq_refl).
  pose proof (cards_bound (ReversePostOrderTraversal F) S1). lia.
Qed.

Lemma seeded_inv S : seeded S -> bounded W S -> dataflow_inv W F S.
Proof.
  intros Hs Hb. split; [done|]. split; [intros BB; apply Hs|].
  intros BB. destruct (Hs BB) as (_ & HO & HU & HI). rewrite HO, HU.
  split; [simpl; lia|]. split; [by intros i|]. split; [|by intros i].
  intros i Hi. rewrite NewLiveIn_test, HO. simpl. by rewrite <- HI.
Qed.
End DataflowLoop.

Lemma dataflow_loop_iter fuel F S S' :
  dataflow_loop fuel F S = Ok S' ->
  exists n, (n < fuel)%nat /\ dataflow_pass F (dataflow_iter n F S) = (S', false).
Proof.
  revert S. induction fuel as [|fuel IH]; intros S; simpl; [done|].
  destruct (dataflow_pass F S) as [S1 c] eqn:E. destruct c.
  - intros (n & Hn & Hp)%IH. exists (Datatypes.S n). split; [lia|].
    simpl. by rewrite E.
  - intros [= <-]. exists 0%nat. split; [lia|done].
Qed.

Lemma dataflow_iter_grows W F S n :
  Z.of_nat W < 2 ^ 32 -> dataflow_inv W F S ->
  dataflow_inv W F (dataflow_iter n F S) /\
  grows (dataflow_iter n F S) (dataflow_iter (Datatypes.S n) F S).
Proof.
  intros HW. revert S. induction n as [|n IH]; intros S Hinv.
  - simpl. split; [done|].
    destruct (dataflow_pass F S) as [S1 c] eqn:E.
    by destruct (dataflow_pass_spec W F HW _ _ _ Hinv E) as (_ & ? & _).
  - change (dataflow_iter (Datatypes.S n) F S) with (dataflow_iter n F (dataflow_pass F S).1).
    change (dataflow_iter (Datatypes.S (Datatypes.S n)) F S)
      with (dataflow_iter (Datatypes.S n) F (dataflow_pass F S).1).
    apply IH. destruct (dataflow_pass F S) as [S1 c] eqn:E.
    by destruct (dataflow_pass_spec W F HW _ _ _ Hinv E) as (? & _).
Qed.

(** When the loop of ComputeLiveness, started from a seeded state, has
    converged, every basic block that the reverse post-order traversal
    visits satisfies the two dataflow equations. *)
Lemma dataflow_equations_seeded (W : nat) (F : Function) (S S' : State) (fuel : nat) :
  Z.of_nat W < 2 ^ 32 -> bounded W S -> seeded S ->
  dataflow_loop fuel F S = Ok S' ->
  forall B, B ∈ ReversePostOrderTraversal F -> dataflow_equations_at F S' B.
Proof.
  intros HW Hb Hs Hloop B HB i.
  pose proof (seeded_inv W F S Hs Hb) as Hinv.
  destruct (dataflow_loop_Ok W F HW _ _ _ Hinv Hloop) as ((_ & _ & He) & _ & _ & Hfix).
  destruct (Hfix B HB) as (Ho & Hi & _). destruct (He B) as (HK & _).
  rewrite BV_eqb_true in Ho, Hi. split.
  - rewrite <- Hi, NewLiveIn_test_diff by done.
    destruct (BV.test (LiveOut (getBBS S' B)) i), (BV.test (Defs (getBBS S' B)) i),
      (BV.test (UpExposedUses (getBBS S' B)) i),
      (BV.test (UpExposedUsesUnrooted (getBBS S' B)) i); done.
  - rewrite <- Ho. apply NewLiveOut_test.
Qed.

(** From a seeded state the four dataflow bit sets of every block only
    gain bits from one trip through the blocks to the next, and within
    [4 * W * n] trips ([n] blocks visited, bit vectors of at most [W] bits)
    a trip changes nothing. *)
Lemma dataflow_ends_seeded (W : nat) (F : Function) (S : State) :
  Z.of_nat W < 2 ^ 32 -> bounded W S -> seeded S ->
  (forall n, grows (dataflow_iter n F S) (dataflow_iter (Datatypes.S n) F S)) /\
  exists n S',
    (n <= 4 * W * length (ReversePostOrderTraversal F))%nat /\
    dataflow_pass F (dataflow_iter n F S) = (S', false) /\
    dataflow_loop (Datatypes.S (4 * W * length (ReversePostOrderTraversal F))) F S = Ok S'.
Proof.
  intros HW Hb Hs. pose proof (seeded_inv W F S Hs Hb) as Hinv. split.
  - intros n. by apply (dataflow_iter_grows W).
  - destruct (dataflow_loop_ends W F HW
                (Datatypes.S (4 * W * length (ReversePostOrderTraversal F))) S Hinv)
      as [S' HS']; [lia|].
    destruct (dataflow_loop_iter _ _ _ _ HS') as (n & Hn & Hp).
    exists n, S'. split; [lia|done].
Qed.

(** ** The checks are sound *)

Lemma bounded_b_sound W S : bounded_b W S = true -> bounded W S.
Proof.
  intros H BB. unfold getBBS. destruct (BBStates S !! BB) as [BBS|] eqn:E; simpl.
  - unfold bounded_b in H. rewrite forallb_forall in H.
    specialize (H (BB, BBS)). simpl in H.
    assert (BBState_width_b W BBS = true) as Hw.
    { apply H, list_elem_of_In, elem_of_map_to_list, E. }
    unfold BBState_width_b in Hw. rewrite !andb_true_iff, !Nat.leb_le in Hw.
    unfold BBState_width. tauto.
  - unfold BBState_width. simpl. repeat split; lia.
Qed.

Lemma seeded_b_sound S : seeded_b S = true -> seeded S.
Proof.
  intros H BB. unfold getBBS. destruct (BBStates S !! BB) as [BBS|] eqn:E; simpl.
  - unfold seeded_b in H. rewrite forallb_forall in H.
    specialize (H (BB, BBS)). simpl in H.
    assert (BBState_seeded_b BBS = true) as Hw.
    { apply H, list_elem_of_In, elem_of_map_to_list, E. }
    unfold BBState_seeded_b in Hw. rewrite !andb_true_iff, !Nat.eqb_eq in Hw.
    destruct Hw as ((((((H1 & H2) & H3) & H4) & H5) & H6) & H7).
    split; [done|]. split; [by apply nil_length_inv|]. split; [by apply nil_length_inv|].
    intros i. rewrite BV_eqb_true in H7. by rewrite H7, BV_test_or.
  - repeat split.
Qed.

Lemma SafepointNumbering_wf_b_sound S :
  SafepointNumbering_wf_b S = true -> SafepointNumbering_wf S.
Proof.
  intros H sp idx Hsp. unfold SafepointNumbering_wf_b in H. rewrite forallb_forall in H.
  specialize (H (sp, idx)). simpl in H.
  assert ((0 <=? idx) &&
          bool_decide (ReverseSafepointNumbering S !! Z.to_nat idx = Some sp) = true) as Hw.
  { apply H, list_elem_of_In, elem_of_map_to_list, Hsp. }
  apply andb_true_iff in Hw as [H1 H2]. apply Z.leb_le in H1.
  apply bool_decide_eq_true in H2. done.
Qed.

(** ** Instances on the example functions *)

Lemma same_color_never_colive_witness :
  Neighbors (Examples.analysed_state Examples.two_roots) = [] /\
  ColorRoots (ComputeLiveSets Examples.two_roots (Examples.analysed_state Examples.two_roots))
    = Ok ([0; 0], 0) /\
  ~ (BV.test [false; true] 0 = true /\ BV.test [false; true] 1 = true).
Proof.
  split; [reflexivity|]. split; [vm_compute; reflexivity|].
  refine (same_color_never_colive Examples.two_roots
            (Examples.analysed_state Examples.two_roots) [0; 0] 0 eq_refl _
            0%nat 1%nat 0 _ eq_refl eq_refl _ 12%nat 1 [false; true] _ _).
  - vm_compute. reflexivity.
  - lia.
  - lia.
  - vm_compute. reflexivity.
  - vm_compute. reflexivity.
Defined.

(** ** Live sets of the safepoints *)

Lemma AddLiveOuts_subset BBS L LS i :
  BV.test LS i = true -> BV.test (AddLiveOuts BBS L LS) i = true.
Proof.
  unfold AddLiveOuts. revert LS. induction L as [|Live L IH]; intros LS H; simpl; [done|].
  apply IH. case_match; [|done]. rewrite BV_test_assign. by case_decide.
Qed.

Lemma UnrefinedLiveSet_LiveAcross BBS L LS i :
  BV.test (LiveIn BBS) i = true -> BV.test (LiveOut BBS) i = true ->
  BV.test (UnrefinedLiveSet BBS L LS) i = true.
Proof.
  intros Hi Ho. unfold UnrefinedLiveSet. apply AddLiveOuts_subset.
  rewrite BV_test_or, BV_test_and, Hi, Ho. apply orb_true_r.
Qed.

(** C2 fails as stated: in [live_across] the pointer loaded from the
    argument frame is in LiveIn and in LiveOut of the middle block, and its
    refinement -1 takes it out of the live set of the call in that block. *)
Lemma live_across_refined_away :
  ~ LiveAcross_kept Examples.live_across (Examples.analysed_state Examples.live_across).
Proof.
  intros H.
  specialize (H 13%nat 1 1%nat [false]).
  assert (BV.test [false] 0 = true) as Hf; [|discriminate Hf].
  apply H; vm_compute; reflexivity.
Qed.

(** C2, as the code has it.  For a safepoint of block [B], the live set
    before the refinements are applied holds LiveIn[B] ∩ LiveOut[B]; the
    live set finally recorded is the outcome of the refinement pass on it,
    and holds every identifier of LiveIn[B] ∩ LiveOut[B] except those whose
    refinement is -1 or is in the set when the pass examines them. *)
Theorem live_across_unless_refined (F : Function) (S : State) (sp : Value) (idx : Z)
    (B : BasicBlock) (LS0 : BitVector) :
  SafepointNumbering_wf S ->
  SafepointNumbering S !! sp = Some idx -> getParent F sp = Some B ->
  LiveSets S !! Z.to_nat idx = Some LS0 ->
  let U := UnrefinedLiveSet (getBBS S B) (default [] (LiveIfLiveOut S !! Z.to_nat idx)) LS0 in
  exists LS,
    LiveSets (ComputeLiveSets F S) !! Z.to_nat idx = Some LS /\
    LS = ApplyRefinements (LoadRefinements S) U /\
    forall i,
      BV.test (BV.and (LiveIn (getBBS S B)) (LiveOut (getBBS S B))) i = true ->
      BV.test U i = true /\
      (BV.test LS i = true \/
       exists RefinedPtr,
         LoadRefinements S !! Z.of_nat i = Some RefinedPtr /\
         (RefinedPtr = -1 \/
          HasBitSet (RefinementScan (LoadRefinements S) U i) RefinedPtr = true)).
Proof.
  intros Hwf Hsp HB HLS U. eexists. split; [by apply (ComputeLiveSets_at F S sp)|].
  split; [done|]. intros i Hi.
  rewrite BV_test_and in Hi. apply andb_true_iff in Hi as [Hin Hout].
  assert (BV.test U i = true) as HU by by apply UnrefinedLiveSet_LiveAcross.
  split; [done|]. unfold FinalLiveSet. fold U.
  rewrite ApplyRefinements_spec, HU. simpl.
  destruct (LoadRefinements S !! Z.of_nat i) as [r|]; [|by left].
  destruct ((r =? -1) || HasBitSet (RefinementScan (LoadRefinements S) U i) r) eqn:E.
  - right. exists r. split; [done|].
    apply orb_true_iff in E as [E|E]; [left; lia|by right].
  - by left.
Qed.

Lemma live_across_unless_refined_witness :
  SafepointNumbering_wf (Examples.analysed_state Examples.live_across) /\
  exists LS,
    LiveSets (ComputeLiveSets Examples.live_across
                (Examples.analysed_state Examples.live_across)) !! 1%nat = Some LS /\
    (BV.test LS 0 = true \/
     exists RefinedPtr,
       LoadRefinements (Examples.analysed_state Examples.live_across) !! 0 = Some RefinedPtr /\
       (RefinedPtr = -1 \/
        HasBitSet (RefinementScan (LoadRefinements (Examples.analysed_state Examples.live_across))
                     (UnrefinedLiveSet
                        (getBBS (Examples.analysed_state Examples.live_across) 1%nat) [] [])
                     0) RefinedPtr = true)).
Proof.
  assert (SafepointNumbering_wf (Examples.analysed_state Examples.live_across)) as Hwf.
  { apply SafepointNumbering_wf_b_sound. vm_compute. reflexivity. }
  split; [exact Hwf|].
  destruct (live_across_unless_refined Examples.live_across
              (Examples.analysed_state Examples.live_across) 13%nat 1 1%nat [] Hwf)
    as (LS & HLS & _ & Hi); [vm_compute; reflexivity..|].
  exists LS. split; [exact HLS|].
  apply (Hi 0%nat). vm_compute. reflexivity.
Defined.

(** ** The dataflow equations and unreachable blocks *)

(** C3 fails as stated: in [unreachable_blocks] the loop converges, and
    block 1, which no path from the entry block reaches, has an empty
    LiveOut although identifier 0 is in LiveIn of its successor. *)
Lemma unreachable_block_breaks_equations :
  exists S',
    dataflow_loop 100 Examples.unreachable_blocks
      (Examples.scanned_state Examples.unreachable_blocks) = Ok S' /\
    ~ dataflow_equations_everywhere Examples.unreachable_blocks S'.
Proof.
  eexists. split; [vm_compute; reflexivity|].
  intros H.
  assert (1%nat ∈ (blocks Examples.unreachable_blocks).*1) as Hin by (apply (bool_decide_eq_true_1 _); vm_compute; reflexivity).
  destruct (H 1%nat Hin 0%nat) as [_ [_ H1]]. clear H; rename H1 into H.
  assert (false = true) as Hf; [|discriminate Hf].
  etransitivity; [|apply H].
  - vm_compute. reflexivity.
  - right. exists 2%nat. split; [apply (bool_decide_eq_true_1 _) | ]; vm_compute; reflexivity.
Qed.

(** ** The refinement pass is a single scan *)

(** C4.  The live set recorded for a safepoint is one left-to-right scan
    ([refine_step] at each index once) of the set [U] built from the local
    live set, LiveIn ∩ LiveOut and the live-out defs.  An identifier [i] of
    [U] with refinement entry [RefinedPtr] is removed exactly when
    [RefinedPtr] is -1 or is in the set [L] as the scan has left it on
    reaching [i] (final below [i], still [U] from [i] on); an identifier
    without entry, or whose refinement is neither, stays; nothing is added. *)
Theorem refinement_single_pass (F : Function) (S : State) (sp : Value) (idx : Z)
    (B : BasicBlock) (LS0 : BitVector) :
  SafepointNumbering_wf S ->
  SafepointNumbering S !! sp = Some idx -> getParent F sp = Some B ->
  LiveSets S !! Z.to_nat idx = Some LS0 ->
  let R := LoadRefinements S in
  let U := UnrefinedLiveSet (getBBS S B) (default [] (LiveIfLiveOut S !! Z.to_nat idx)) LS0 in
  exists LS,
    LiveSets (ComputeLiveSets F S) !! Z.to_nat idx = Some LS /\
    LS = foldl (refine_step R) U (seq 0 (length U)) /\
    (forall i, BV.test LS i = true -> BV.test U i = true) /\
    forall i, BV.test U i = true ->
      let L := RefinementScan R U i in
      (forall j, BV.test L j = if decide (j < i)%nat then BV.test LS j else BV.test U j) /\
      match R !! Z.of_nat i with
      | Some RefinedPtr =>
          BV.test LS i = false <-> RefinedPtr = -1 \/ HasBitSet L RefinedPtr = true
      | None => BV.test LS i = true
      end.
Proof.
  intros Hwf Hsp HB HLS R U. eexists. split; [by apply (ComputeLiveSets_at F S sp)|].
  unfold FinalLiveSet. fold U R. split; [done|]. split.
  - intros i. apply ApplyRefinements_subset.
  - intros i HU. split.
    + intros j. apply RefinementScan_test.
    + rewrite ApplyRefinements_spec, HU. simpl.
      destruct (R !! Z.of_nat i) as [r|]; [|done].
      rewrite negb_false_iff, orb_true_iff, Z.eqb_eq. done.
Qed.

Lemma refinement_single_pass_witness :
  SafepointNumbering_wf (Examples.analysed_state Examples.live_across) /\
  exists LS,
    LiveSets (ComputeLiveSets Examples.live_across
                (Examples.analysed_state Examples.live_across)) !! 1%nat = Some LS /\
    BV.test LS 0 = false.
Proof.
  assert (SafepointNumbering_wf (Examples.analysed_state Examples.live_across)) as Hwf.
  { apply SafepointNumbering_wf_b_sound. vm_compute. reflexivity. }
  split; [exact Hwf|].
  destruct (refinement_single_pass Examples.live_across
              (Examples.analysed_state Examples.live_across) 13%nat 1 1%nat [] Hwf)
    as (LS & HLS & _ & _ & Hi); [vm_compute; reflexivity..|].
  exists LS. split; [exact HLS|].
  destruct (Hi 0%nat) as [_ Hr]; [vm_compute; reflexivity|].
  change (LoadRefinements (Examples.analysed_state Examples.live_across) !! Z.of_nat 0)
    with (@Some Z (-1)) in Hr || (vm_compute in Hr).
  apply Hr. by left.
Defined.

(** ** SSA violations in the local scan *)

Section SSAViolation.
Implicit Types S : State.
Implicit Types BBS : BBState.

Lemma MaybeResize_HasBitSet BBS (Num : Z) :
  - 2 ^ 31 <= Num < 2 ^ 31 ->
  HasBitSet (Defs (MaybeResize BBS (to_unsigned Num))) Num = HasBitSet (Defs BBS) Num.
Proof.
  intros HN. unfold HasBitSet. destruct (Z.leb_spec 0 Num) as [Hp|Hn]; [|done]. simpl.
  unfold MaybeResize, to_unsigned. rewrite (Z.mod_small Num) by lia.
  rewrite (Z.mod_small (Num + 1)) by lia.
  destruct (Z.leb_spec (Z.of_nat (length (Defs BBS))) Num) as [Hle|Hgt]; [|done]. simpl.
  rewrite BV_test_resize. case_decide; [done|lia].
Qed.

Lemma NoteDef_checks_own_block S BB (Num : Z) (sps : list Z) :
  Num <> -1 -> - 2 ^ 31 <= Num < 2 ^ 31 ->
  if HasBitSet (Defs (getBBS S BB)) Num
  then NoteDef S BB Num sps = Abort "SSA Violation or misnumbering?"
  else exists S', NoteDef S BB Num sps = Ok S'.
Proof.
  intros Hne HN. unfold NoteDef.
  destruct (Z.eqb_spec Num (-1)) as [|_]; [done|]. simpl.
  rewrite MaybeResize_HasBitSet by done.
  destruct (HasBitSet (Defs (getBBS S BB)) Num); simpl; [done|]. by eexists.
Qed.

Lemma MaybeNoteDef_abort fuel P F S BB Def sps RefinedPtr Num F1 S1 :
  isSpecialPtr (AddressSpace P) (getType F Def) = true ->
  getValueAddrSpace F Def = Tracked (AddressSpace P) ->
  Number fuel P F S Def = Ok (Num, F1, S1) ->
  Num <> -1 -> - 2 ^ 31 <= Num < 2 ^ 31 ->
  HasBitSet (Defs (getBBS S1 BB)) Num = true ->
  MaybeNoteDef fuel P F S BB Def sps RefinedPtr = Abort "SSA Violation or misnumbering?".
Proof.
  intros Hsp HAS HNum Hne HN Hbit. unfold MaybeNoteDef.
  rewrite Hsp, HAS, Z.eqb_refl, HNum. simpl.
  pose proof (NoteDef_checks_own_block S1 BB Num sps Hne HN) as H.
  rewrite Hbit in H. by rewrite H.
Qed.

Lemma LocalScan_block_Abort fuel P msg bs :
  foldl (LocalScan_block fuel P) (Abort msg) bs = Abort msg.
Proof. induction bs as [|b bs IH]; [done|]. simpl. apply IH. Qed.

Lemma LocalScan_abort fuel P F bs1 b bs2 F1 S1 msg :
  blocks F = bs1 ++ b :: bs2 ->
  foldl (LocalScan_block fuel P) (Ok (F, State_init)) bs1 = Ok (F1, S1) ->
  scan_block fuel fuel P F1 (setBBS S1 b.1 (getBBS S1 b.1)) b.1 (last (getInsts F1 b.1))
    = Abort msg ->
  LocalScan fuel P F = Abort msg.
Proof.
  intros Hb H1 Ha. unfold LocalScan. rewrite Hb, foldl_app, H1. simpl.
  rewrite Ha. simpl. apply LocalScan_block_Abort.
Qed.

Lemma runOnFunction_abort sf df P F ptls msg :
  is_Some (ptls_getter P) -> find_ptlsStates P F = Some ptls ->
  LocalScan sf (set_ptlsStates P (Some ptls)) F = Abort msg ->
  runOnFunction sf df P F = Abort msg.
Proof.
  intros [g Hg] Hf Ha. unfold runOnFunction. by rewrite Hg, Hf, Ha.
Qed.
End SSAViolation.

(** C9 fails as stated: the scan of [cast_back] sets the Defs bit of
    identifier 0 in block 0 and again in block 1 and returns, and the pass
    runs to its end. *)
Lemma def_in_another_block_not_detected :
  ~ SSA_violations_abort 100 (Examples.pass_of Examples.cast_back) Examples.cast_back /\
  exists R, LateLowerGCFramePass 100 100 Examples.cfg Examples.cast_back = Ok R.
Proof.
  split.
  - intros H.
    assert (exists F', LocalScan 100 (Examples.pass_of Examples.cast_back) Examples.cast_back
                       = Ok (F', Examples.scanned_state Examples.cast_back)) as [F' E].
    { eexists. vm_compute. reflexivity. }
    apply (H _ _ E 0%nat 1%nat 0); [lia|..]; vm_compute; reflexivity.
  - eexists. vm_compute. reflexivity.
Qed.

(** ** Creating values *)

Section Extends.
Implicit Types F G : Function.

Lemma extends_refl F : extends F F.
Proof. by split. Qed.

Lemma extends_trans F G H : extends F G -> extends G H -> extends F H.
Proof.
  intros [H1 H2] [H3 H4]. split; [lia|].
  intros v Hv. rewrite H4 by lia. by apply H2.
Qed.

Lemma extends_addValue F k t : extends F (addValue F k t).1.
Proof.
  split; simpl; [lia|]. intros v Hv. apply lookup_insert_ne. lia.
Qed.

Lemma extends_setBlocks F bs : extends F (setBlocks F bs).
Proof. by split. Qed.

Lemma extends_insertBefore F pos I : extends F (insertBefore F pos I).
Proof. apply extends_setBlocks. Qed.

Lemma extends_insertAfter F pos I : extends F (insertAfter F pos I).
Proof. apply extends_setBlocks. Qed.

Lemma extends_createBefore F pos k t : extends F (createBefore F pos k t).1.
Proof.
  unfold createBefore. simpl.
  eapply extends_trans; [apply (extends_addValue F k t)|apply extends_insertBefore].
Qed.

Lemma createBefore_lookup F pos k t :
  (createBefore F pos k t).2 = next_value F /\
  next_value (createBefore F pos k t).1 = Datatypes.S (next_value F) /\
  values (createBefore F pos k t).1 !! next_value F = Some (mkValue k t).
Proof. unfold createBefore. simpl. by rewrite lookup_insert_eq. Qed.

Lemma extends_Builder_CreateBitCast F pos V t :
  extends F (Builder_CreateBitCast F pos V t).1.
Proof.
  unfold Builder_CreateBitCast. repeat case_match;
    [apply extends_refl|apply extends_addValue|apply extends_createBefore].
Qed.

Lemma extends_CreateBitCast F pos V t : extends F (CreateBitCast F pos V t).1.
Proof.
  unfold CreateBitCast. case_match; [apply extends_refl|apply extends_createBefore].
Qed.

Lemma replaceAllUsesWith_lookup F old new v :
  values (replaceAllUsesWith F old new) !! v =
    (fun vi => mkValue (subst_kind old new (kind vi)) (type vi)) <$> values F !! v.
Proof. unfold replaceAllUsesWith. simpl. apply lookup_fmap. Qed.
End Extends.

(** ** Clean-up of jlcalls *)

Section CleanupFacts.
Variable P : LateLowerGCFrame.

Lemma StoreFrameArgs_next T Frame CI (args : list Value) F z :
  Nat.le (next_value F)
   (next_value (foldl (fun (a : Function * Z) arg =>
          let '(F, slot) := a in
          let '(F, c) := addValue F (ConstantInt slot) (T_int32 P) in
          let '(F, gep) := createBefore F CI (GetElementPtrInst Frame [c]) (PointerTy T 0) in
          let '(F, _) := createBefore F CI (StoreInst arg gep) VoidTy in
          (F, slot + 1))
       (F, z) args).1).
Proof.
  revert F z. induction args as [|a args IH]; intros F z; simpl; [done|].
  etransitivity; [|apply IH]. simpl. unfold Nat.le. lia.
Qed.

Lemma LowerJLCall_no_frameargs F Frame CI callee args CC rt F' NewCall :
  (CI < next_value F)%nat ->
  LowerJLCall P F Frame CI callee args CC rt = Ok (F', NewCall, 0) ->
  exists T newFptr ra argv argc,
    T_prjlvalue P = Some T /\
    values F' !! NewCall
      = Some (mkValue (CallInst newFptr (ra ++ [argv; argc]) [] C_CC rt) T) /\
    values F' !! argv = Some (mkValue ConstantPointerNull (PointerTy T 0)) /\
    values F' !! argc = Some (mkValue (ConstantInt 0) (T_int32 P)).
Proof.
  intros HCI. unfold LowerJLCall.
  destruct (T_prjlvalue P) as [T|]; [|done]. destruct Frame as [Frame|]; [|done].
  set (isF := CallingConv_eqb CC JLCALL_F_CC).
  set (n := to_size_t _).
  set (F1 := StoreFrameArgs P T Frame CI F _).
  assert (next_value F <= next_value F1)%nat as Hle by apply StoreFrameArgs_next.
  destruct (Z.eqb_spec n 0) as [Hn|Hn]; simpl.
  2:{ destruct (Builder_CreateBitCast _ _ _ _) as [F4 fp]. intros [= _ _ ?]. done. }
  rewrite Hn.
  match goal with |- context [Builder_CreateBitCast ?G ?a ?b ?c] =>
    pose proof (extends_Builder_CreateBitCast G a b c) as [He1 He2];
    destruct (Builder_CreateBitCast G a b c) as [F0 fp] end.
  simpl in He1, He2. intros [= <- <-].
  exists T, (subst_value CI (next_value F0) fp),
    (subst_value CI (next_value F0) <$> (if isF then take 1 args else [])),
    (next_value F1), (Datatypes.S (next_value F1)).
  split; [done|]. rewrite !replaceAllUsesWith_lookup. simpl.
  rewrite lookup_insert_eq, !lookup_insert_ne by lia.
  rewrite !He2 by lia.
  rewrite lookup_insert_eq, lookup_insert_ne, lookup_insert_eq by lia. simpl.
  split; [|done]. rewrite fmap_app. simpl.
  assert (forall x, (next_value F1 <= x)%nat -> subst_value CI (next_value F0) x = x) as Hs.
  { intros x Hx. unfold subst_value. rewrite decide_False; [done|lia]. }
  rewrite (Hs (next_value F1)), (Hs (Datatypes.S (next_value F1))) by lia. done.
Qed.

Lemma LowerJLCall_nframeargs F Frame CI callee args CC rt F' NewCall n :
  LowerJLCall P F Frame CI callee args CC rt = Ok (F', NewCall, n) -> 0 <= n.
Proof.
  unfold LowerJLCall.
  destruct (T_prjlvalue P) as [T|]; [|done]. destruct Frame as [Frame|]; [|done].
  repeat match goal with |- context [let '(_, _) := ?x in _] => destruct x end.
  intros [= _ _ <-]. unfold to_size_t. apply Z.mod_pos_bound. lia.
Qed.

Lemma CleanupInst_jlcall Frame F info Inst callee args bundles CC rt :
  getKind F Inst = CallInst callee args bundles CC rt ->
  gc_flush_func P <> Some callee -> pointer_from_objref_func P <> Some callee ->
  alloc_obj_func P <> Some callee ->
  CC = JLCALL_CC \/ CC = JLCALL_F_CC ->
  CleanupInst P Frame (Ok (F, info)) Inst =
    '(F1, NewCall, nframeargs) ← LowerJLCall P F Frame Inst callee args CC rt;
    Ok (eraseFromParent F1 Inst,
        mkCleanupInfo true (Z.max (maxframeargs info) nframeargs)
                      (jlcalls info ++ [(Inst, NewCall, nframeargs)])).
Proof.
  intros HK H1 H2 H3 HCC. unfold CleanupInst. simpl. rewrite HK.
  rewrite !bool_decide_eq_false_2 by done.
  assert (CallingConv_eqb CC JLCALL_CC || CallingConv_eqb CC JLCALL_F_CC = true) as ->.
  { destruct HCC as [-> | ->]; done. }
  destruct (LowerJLCall P F Frame Inst callee args CC rt) as [[[F1 NewCall] n]| |]; done.
Qed.

Lemma maxframeargs_ok_max info e :
  maxframeargs_ok info -> 0 <= e.2 ->
  maxframeargs_ok (mkCleanupInfo true (Z.max (maxframeargs info) e.2) (jlcalls info ++ [e])).
Proof.
  intros (H0 & H1 & H2) He. split; [simpl; lia|]. split; simpl.
  - intros e' [Hin| ->%list_elem_of_singleton]%elem_of_app; [|lia].
    specialize (H1 _ Hin). lia.
  - destruct (Z.max_spec (maxframeargs info) e.2) as [[_ ->]|[_ ->]].
    + right. exists e. split; [|done]. apply elem_of_app. right. by left.
    + destruct H2 as [H2|(e' & Hin & He')]; [by left|].
      right. exists e'. split; [|done]. apply elem_of_app. by left.
Qed.

Lemma CleanupInst_maxframeargs Frame F info Inst F' info' :
  maxframeargs_ok info ->
  CleanupInst P Frame (Ok (F, info)) Inst = Ok (F', info') ->
  maxframeargs_ok info'.
Proof.
  intros HI. unfold CleanupInst. simpl.
  destruct (getKind F Inst) as [| | | | | | |callee args bundles CC rt| | | | | | | | | | | | | |];
    try (by intros [= <- <-]).
  destruct (bool_decide (gc_flush_func P = Some callee)); simpl; [by intros [= <- <-]|].
  destruct (bool_decide (pointer_from_objref_func P = Some callee)); simpl;
    [by intros [= <- <-]|].
  destruct (bool_decide (alloc_obj_func P = Some callee)); simpl.
  { destruct (LowerAllocObj _ _ _ _); simpl; [|done..]. by intros [= <- <-]. }
  destruct (CallingConv_eqb CC JLCALL_CC || CallingConv_eqb CC JLCALL_F_CC); simpl.
  { destruct (LowerJLCall _ _ _ _ _ _ _ _) as [[[F1 NewCall] n]| |] eqn:EL; simpl; [|done..].
    intros [= <- <-]. apply LowerJLCall_nframeargs in EL.
    by apply (maxframeargs_ok_max info (Inst, NewCall, n)). }
  destruct (length args =? _)%nat; simpl; by intros [= <- <-].
Qed.

Lemma foldl_Res_invariant {A B : Type} (I : A -> Prop) (f : Res A -> B -> Res A)
    (l : list B) :
  (forall b m, f (Abort m) b = Abort m) -> (forall b, f OutOfFuel b = OutOfFuel) ->
  (forall a b a', I a -> f (Ok a) b = Ok a' -> I a') ->
  forall a a', I a -> foldl f (Ok a) l = Ok a' -> I a'.
Proof.
  intros HA HO Hstep. induction l as [|b l IH]; intros a a' Ha; simpl.
  - by intros [= <-].
  - destruct (f (Ok a) b) as [a1|m|] eqn:E.
    + apply IH. by eapply Hstep.
    + assert (foldl f (Abort m) l = Abort m) as ->; [|done].
      clear IH. induction l as [|b' l IHl]; simpl; [done|]. by rewrite HA.
    + assert (foldl f OutOfFuel l = OutOfFuel) as ->; [|done].
      clear IH. induction l as [|b' l IHl]; simpl; [done|]. by rewrite HO.
Qed.

Lemma CleanupBlock_maxframeargs Frame F info b F' info' :
  maxframeargs_ok info ->
  CleanupBlock P Frame (Ok (F, info)) b = Ok (F', info') ->
  maxframeargs_ok info'.
Proof.
  intros HI H. unfold CleanupBlock in H. simpl in H.
  apply (foldl_Res_invariant (fun a : Function * CleanupInfo => maxframeargs_ok a.2)
           (CleanupInst P Frame) (getInsts F b.1)) with (a := (F, info)) (a' := (F', info'));
    try done.
  intros [F1 i1] Inst [F2 i2]. simpl. apply CleanupInst_maxframeargs.
Qed.

Lemma CleanupLoop_maxframeargs Frame F bs F' info' :
  foldl (CleanupBlock P Frame) (Ok (F, mkCleanupInfo false 0 [])) bs = Ok (F', info') ->
  maxframeargs_ok info'.
Proof.
  intros H.
  apply (foldl_Res_invariant (fun a : Function * CleanupInfo => maxframeargs_ok a.2)
           (CleanupBlock P Frame) bs) with (a := (F, mkCleanupInfo false 0 []))
           (a' := (F', info')); try done.
  - intros [F1 i1] b [F2 i2]. simpl. apply CleanupBlock_maxframeargs.
  - split; [done|]. split; [|by left]. simpl. intros e He. by apply elem_of_nil in He.
Qed.

Lemma eraseFromParent_gone (F : Function) (I : Value) :
  values (eraseFromParent F I) !! I = None /\
  forall b, b ∈ blocks (eraseFromParent F I) -> I ∉ b.2.
Proof.
  split; [apply lookup_delete_eq|]. simpl.
  intros b (b0 & -> & _)%list_elem_of_fmap. simpl.
  intros [Hne _]%list_elem_of_filter. done.
Qed.

Lemma CleanupIR_no_frameargs F F' info fr :
  CleanupIR P F = Ok (F', info, fr) ->
  maxframeargs_ok info /\
  (maxframeargs info = 0 ->
   fr = None /\
   (is_Some (T_prjlvalue P) ->
    values F' !! Datatypes.S (next_value F) = None /\
    forall b, b ∈ blocks F' -> Datatypes.S (next_value F) ∉ b.2)).
Proof.
  unfold CleanupIR.
  destruct (T_prjlvalue P) as [T|].
  - set (FF := match head (getInsts F (getEntryBlock F)) with Some _ => _ | None => _ end).
    assert (FF.2 = Some (Datatypes.S (next_value F))) as HFF.
    { unfold FF. by destruct (head (getInsts F (getEntryBlock F))). }
    destruct FF as [F0 Frame]. simpl in HFF. subst Frame.
    destruct (foldl _ _ _) as [[F1 info1]| |] eqn:E; simpl; [|done..].
    apply CleanupLoop_maxframeargs in E.
    destruct (Z.eqb_spec (maxframeargs info1) 0) as [Hz|Hnz].
    + intros [= <- <- <-]. split; [done|]. intros _. split; [done|].
      intros _. apply eraseFromParent_gone.
    + intros [= <- <- <-]. split; [done|]. done.
  - destruct (foldl _ _ _) as [[F1 info1]| |] eqn:E; simpl; [|done..].
    apply CleanupLoop_maxframeargs in E.
    intros [= <- <- <-]. split; [done|]. intros _. split; [done|].
    by intros [? ?].
Qed.
End CleanupFacts.

(** C10.  The arm of CleanupIR for a call with calling convention JLCALL_CC
    or JLCALL_F_CC ([CleanupInst] on such a call is [LowerJLCall] and the
    erasure of the call): when the number of frame arguments is zero, the
    replacement call ends with a null pointer constant of type
    T_prjlvalue* as argument array and the constant 0 of type i32 as
    argument count.  And when every jlcall that CleanupIR lowered had zero
    frame arguments, [maxframeargs] is zero and the scratch alloca created
    at the head of the entry block is erased: it is neither a value nor an
    instruction of any block of the function returned. *)
Theorem jlcall_without_frameargs (P : LateLowerGCFrame) :
  (forall F Frame CI callee args CC rt F' NewCall,
     (CI < next_value F)%nat ->
     LowerJLCall P F Frame CI callee args CC rt = Ok (F', NewCall, 0) ->
     exists T newFptr ra argv argc,
       T_prjlvalue P = Some T /\
       values F' !! NewCall
         = Some (mkValue (CallInst newFptr (ra ++ [argv; argc]) [] C_CC rt) T) /\
       values F' !! argv = Some (mkValue ConstantPointerNull (PointerTy T 0)) /\
       values F' !! argc = Some (mkValue (ConstantInt 0) (T_int32 P))) /\
  (forall Frame F info Inst callee args bundles CC rt,
     getKind F Inst = CallInst callee args bundles CC rt ->
     gc_flush_func P <> Some callee -> pointer_from_objref_func P <> Some callee ->
     alloc_obj_func P <> Some callee ->
     CC = JLCALL_CC \/ CC = JLCALL_F_CC ->
     CleanupInst P Frame (Ok (F, info)) Inst =
       '(F1, NewCall, nframeargs) ← LowerJLCall P F Frame Inst callee args CC rt;
       Ok (eraseFromParent F1 Inst,
           mkCleanupInfo true (Z.max (maxframeargs info) nframeargs)
                         (jlcalls info ++ [(Inst, NewCall, nframeargs)]))) /\
  (forall F F' info fr,
     CleanupIR P F = Ok (F', info, fr) ->
     (forall e, e ∈ jlcalls info -> e.2 = 0) ->
     maxframeargs info = 0 /\ fr = None /\
     (is_Some (T_prjlvalue P) ->
      values F' !! Datatypes.S (next_value F) = None /\
      forall b, b ∈ blocks F' -> Datatypes.S (next_value F) ∉ b.2)).
Proof.
  split; [apply LowerJLCall_no_frameargs|]. split; [apply CleanupInst_jlcall|].
  intros F F' info fr H Hall.
  destruct (CleanupIR_no_frameargs P F F' info fr H) as [(_ & _ & Hmax) Herase].
  assert (maxframeargs info = 0) as Hz.
  { destruct Hmax as [Hz|(e & Hin & He)]; [done|]. rewrite <- He. by apply Hall. }
  split; [done|]. by apply Herase.
Qed.

Lemma jlcall_without_frameargs_witness :
  exists F' info,
    CleanupIR (Examples.pass_of Examples.alloca_and_jlcall) Examples.alloca_and_jlcall
      = Ok (F', info, None) /\
    (exists NewCall, jlcalls info = [(12%nat, NewCall, 0)]) /\
    maxframeargs info = 0 /\
    values F' !! 21%nat = None.
Proof.
  eexists _, _. split; [vm_compute; reflexivity|]. split; [eexists; reflexivity|].
  match goal with |- maxframeargs ?i = 0 /\ values ?F !! _ = None =>
    destruct (proj2 (proj2 (jlcall_without_frameargs
                              (Examples.pass_of Examples.alloca_and_jlcall)))
                Examples.alloca_and_jlcall F i None) as (Hm & _ & He)
  end.
  - vm_compute. reflexivity.
  - intros e He. apply list_elem_of_singleton in He. by rewrite He.
  - split; [exact Hm|]. apply He. vm_compute. by eexists.
Defined.


(** ** Functions without safepoints *)

Section NoSafepoint.
Variable P : LateLowerGCFrame.
Variable F : Function.

Lemma getFunction_Some name v :
  getFunction F name = Some v -> getKind F v = GlobalFunction name.
Proof.
  unfold getFunction.
  destruct (list_find _ _) as [[i [v' vi]]|] eqn:E; [|done]. simpl. intros [= ->].
  apply list_find_Some in E as (Hl & Hn & _). simpl in Hn.
  apply list_elem_of_lookup_2, elem_of_map_to_list in Hl.
  unfold getKind. rewrite Hl. unfold isFunctionNamed in Hn.
  destruct (kind vi); try done. apply String.eqb_eq in Hn. by subst.
Qed.

Lemma getInsts_elem BB (x : Value) :
  x ∈ getInsts F BB -> exists b, b ∈ blocks F /\ x ∈ b.2.
Proof.
  unfold getInsts. destruct (list_find _ _) as [[i b]|] eqn:E; simpl.
  - intros Hx. exists b. split; [|done].
    apply list_find_Some in E as (Hl & _). by eapply list_elem_of_lookup_2.
  - by intros ?%elem_of_nil.
Qed.

Lemma ptls_call_is_safepoint Inst :
  ptls_getter P = getFunction F "jl_get_ptls_states" ->
  pointer_from_objref_func P = getFunction F "julia.pointer_from_objref" ->
  is_ptls_call P F Inst = true -> isSafepoint P F Inst = true.
Proof.
  intros Hg Hp. unfold is_ptls_call, isSafepoint.
  destruct (getKind F Inst) as [| | | | | | |callee args bundles CC rt| | | | | | | | | | | | | |];
    try done.
  intros Hc%bool_decide_eq_true. rewrite Hg in Hc.
  pose proof (getFunction_Some _ _ Hc) as Hk.
  unfold isIntrinsicCall, isKnownNonSafepoint, getCalledFunction. rewrite Hk. simpl.
  rewrite orb_false_r. apply negb_true_iff, bool_decide_eq_false.
  rewrite Hp. intros Heq. symmetry in Heq. apply getFunction_Some in Heq.
  rewrite Hk in Heq. discriminate Heq.
Qed.

Lemma no_safepoint_no_ptls_call :
  ptls_getter P = getFunction F "jl_get_ptls_states" ->
  pointer_from_objref_func P = getFunction F "julia.pointer_from_objref" ->
  safepoints P F = [] -> find_ptlsStates P F = None.
Proof.
  intros Hg Hp Hs. unfold find_ptlsStates.
  destruct (list_find _ _) as [[i Inst]|] eqn:E; [|done]. exfalso.
  apply list_find_Some in E as (Hl & Hc & _).
  apply list_elem_of_lookup_2, getInsts_elem in Hl as (b & Hb & Hin).
  assert (Inst ∈ safepoints P F) as Hsp.
  { unfold safepoints. apply list_elem_of_bind. exists b. split; [|done].
    apply list_elem_of_filter. split; [|done]. by apply ptls_call_is_safepoint. }
  rewrite Hs in Hsp. by apply elem_of_nil in Hsp.
Qed.
End NoSafepoint.

(** C6.  In a function without safepoints (no call that LocalScan would
    number) the entry block holds no call of the ptls getter, which would be
    one: runOnFunction is CleanupIR alone.  The root placement does not run,
    so no GC frame is allocated and neither push nor pop is emitted. *)
Theorem zero_safepoints_no_frame (sf df : nat) (P : LateLowerGCFrame) (F : Function) :
  ptls_getter P = getFunction F "jl_get_ptls_states" ->
  pointer_from_objref_func P = getFunction F "julia.pointer_from_objref" ->
  safepoints P F = [] ->
  runOnFunction sf df P F
    = ('(F', info, _) ← CleanupIR P F; Ok (mkPassResult F' None info)) /\
  forall R, runOnFunction sf df P F = Ok R -> result_frame R = None.
Proof.
  intros Hg Hp Hs.
  assert (runOnFunction sf df P F
          = ('(F', info, _) ← CleanupIR P F; Ok (mkPassResult F' None info))) as Hrun.
  { unfold runOnFunction. rewrite (no_safepoint_no_ptls_call P F Hg Hp Hs).
    by destruct (ptls_getter P). }
  split; [done|]. intros R. rewrite Hrun.
  destruct (CleanupIR P F) as [[[F' info] fr]| |]; simpl; [|done..].
  by intros [= <-].
Qed.

Lemma zero_safepoints_no_frame_witness :
  safepoints (doInitialization Examples.cfg Examples.no_safepoint).1 Examples.no_safepoint = [] /\
  exists R,
    runOnFunction 100 100 (doInitialization Examples.cfg Examples.no_safepoint).1
                  Examples.no_safepoint = Ok R /\
    result_frame R = None.
Proof.
  split; [vm_compute; reflexivity|].
  eexists. split; [vm_compute; reflexivity|].
  apply (proj2 (zero_safepoints_no_frame 100 100
                  (doInitialization Examples.cfg Examples.no_safepoint).1
                  Examples.no_safepoint eq_refl eq_refl eq_refl)).
  vm_compute. reflexivity.
Defined.


(** ** Root placement keeps what it has created *)

(** One step of a computation in [Res]: the bind on a result, without
    unfolding what follows. *)
Ltac bind_ok := unfold mbind, Res_bind; cbv beta iota zeta.

Section Preserves.
Variable b0 : nat.
Implicit Types F G : Function.

Lemma preserves_refl F : preserves b0 F F.
Proof. by split. Qed.

Lemma preserves_trans F G H : preserves b0 F G -> preserves b0 G H -> preserves b0 F H.
Proof.
  intros (H1 & H2 & H3) (H4 & H5 & H6). split; [lia|]. split.
  - intros v vi Hp. by apply H5, H2.
  - intros v vi Hp He. apply (H6 v vi); [by apply H2|by apply (H3 v vi)].
Qed.

Lemma preserves_addValue F k t : preserves b0 F (addValue F k t).1.
Proof.
  split; [simpl; lia|]. split.
  - intros v vi (Hv & Hl & Hk & Ho). split; [simpl; lia|]. split; [|done].
    simpl. rewrite lookup_insert_ne by lia. done.
  - intros v vi _ He. exact He.
Qed.

Lemma elem_of_insert_before (pos I x : Value) l : x ∈ l -> x ∈ insert_before pos I l.
Proof.
  induction l as [|y l IH]; simpl; [done|]. intros Hx.
  case_decide; [by right|]. apply elem_of_cons in Hx as [->|Hx]; [by left|].
  right. by apply IH.
Qed.

Lemma elem_of_insert_after (pos I x : Value) l : x ∈ l -> x ∈ insert_after pos I l.
Proof.
  induction l as [|y l IH]; simpl; [done|]. intros Hx.
  case_decide.
  - apply elem_of_cons in Hx as [->|Hx]; [by left|]. right. by right.
  - apply elem_of_cons in Hx as [->|Hx]; [by left|]. right. by apply IH.
Qed.

Lemma elem_of_insert_before_new (pos I : Value) l : pos ∈ l -> I ∈ insert_before pos I l.
Proof.
  induction l as [|y l IH]; simpl; [by intros ?%elem_of_nil|]. intros Hx.
  case_decide; [by left|]. apply elem_of_cons in Hx as [->|Hx]; [done|].
  right. by apply IH.
Qed.

Lemma preserves_blocks F (f : list Value -> list Value) :
  (forall x l, x ∈ l -> x ∈ f l) ->
  preserves b0 F (setBlocks F ((fun b => (b.1, f b.2)) <$> blocks F)).
Proof.
  intros Hf. split; [done|]. split; [done|].
  intros v vi _ (e & l & rest & Hb & Hv). exists e, (f l), ((fun b => (b.1, f b.2)) <$> rest).
  simpl. rewrite Hb. split; [done|]. by apply Hf.
Qed.

Lemma preserves_insertBefore F pos I : preserves b0 F (insertBefore F pos I).
Proof. apply preserves_blocks. intros x l. apply elem_of_insert_before. Qed.

Lemma preserves_insertAfter F pos I : preserves b0 F (insertAfter F pos I).
Proof. apply preserves_blocks. intros x l. apply elem_of_insert_after. Qed.

Lemma preserves_createBefore F pos k t : preserves b0 F (createBefore F pos k t).1.
Proof.
  unfold createBefore. simpl.
  eapply preserves_trans; [apply (preserves_addValue F k t)|apply preserves_insertBefore].
Qed.

Lemma preserves_eraseFromParent F (I : Value) :
  (forall v vi, placed b0 F v vi -> v <> I) ->
  preserves b0 F (eraseFromParent F I).
Proof.
  intros Hne. split; [done|]. split.
  - intros v vi Hp. pose proof (Hne _ _ Hp) as Hv. destruct Hp as (Hr & Hl & Hk & Ho).
    split; [done|]. split; [|done]. simpl. by rewrite lookup_delete_ne.
  - intros v vi Hp (e & l & rest & Hb & Hv). pose proof (Hne _ _ Hp) as Hi.
    exists e, (filter (fun x => x <> I) l),
      ((fun b => (b.1, filter (fun x => x <> I) b.2)) <$> rest).
    simpl. rewrite Hb. split; [done|]. by apply list_elem_of_filter.
Qed.

Lemma subst_list_id (old new : Value) (l : list Value) :
  (forall o, o ∈ l -> o <> old) -> subst_value old new <$> l = l.
Proof.
  induction l as [|x l IH]; intros H; simpl; [done|].
  unfold subst_value at 1. rewrite decide_False by (apply H; by left).
  f_equal. apply IH. intros o Ho. apply H. by right.
Qed.

Lemma subst_value_id (old new x : Value) : x <> old -> subst_value old new x = x.
Proof. intros H. unfold subst_value. by rewrite decide_False. Qed.

Lemma subst_kind_id (old new : Value) k :
  (forall o, o ∈ operands k -> o <> old) -> subst_kind old new k = k.
Proof.
  intros H. destruct k; simpl in *; try done;
    rewrite ?subst_value_id; try done;
    try (apply H; set_solver).
  - rewrite !subst_list_id; [done|intros o Ho; apply H; set_solver..].
  - f_equal. induction incoming as [|[x bb] inc IH]; simpl; [done|].
    rewrite subst_value_id by (apply H; set_solver). f_equal.
    apply IH. intros o Ho. apply H. simpl. by right.
  - rewrite !subst_list_id; [done|intros o Ho; apply H; set_solver..].
  - destruct ret; simpl; [|done]. rewrite subst_value_id; [done|]. apply H. set_solver.
  - rewrite !subst_list_id; [done|intros o Ho; apply H; set_solver..].
  - rewrite !subst_list_id; [done|intros o Ho; apply H; set_solver..].
Qed.

Lemma preserves_replaceAllUsesWith F (old new : Value) :
  (old < b0)%nat -> preserves b0 F (replaceAllUsesWith F old new).
Proof.
  intros Hold. split; [done|]. split; [|done].
  intros v [k t] (Hr & Hl & Hk & Ho). split; [done|]. split; [|done].
  rewrite replaceAllUsesWith_lookup, Hl. simpl. rewrite subst_kind_id; [done|].
  intros o Hin. specialize (Ho o Hin). simpl in Ho. lia.
Qed.

Lemma preserves_CreateBitCast F pos V t : preserves b0 F (CreateBitCast F pos V t).1.
Proof.
  unfold CreateBitCast. case_match; [apply preserves_refl|apply preserves_createBefore].
Qed.

Lemma preserves_CreateConstGEP1_32 P F pos Ptr Idx0 :
  preserves b0 F (CreateConstGEP1_32 P F pos Ptr Idx0).1.
Proof.
  unfold CreateConstGEP1_32.
  eapply preserves_trans; [apply (preserves_addValue F (ConstantInt Idx0) (T_int32 P))|].
  apply preserves_createBefore.
Qed.

Lemma preserves_Insert_pgcstack P F pos ptls :
  preserves b0 F (Insert_pgcstack P F pos ptls).1.
Proof.
  unfold Insert_pgcstack.
  eapply preserves_trans;
    [apply (preserves_addValue F (ConstantInt (pgcstack_offset P)) (T_int32 P))|].
  apply preserves_createBefore.
Qed.

Lemma preserves_MaybeExtractUnion A F Val pos :
  preserves b0 F (MaybeExtractUnion A F Val pos).1.
Proof.
  unfold MaybeExtractUnion. case_match; [apply preserves_createBefore|apply preserves_refl].
Qed.

Lemma preserves_PopGCFrame P F gcframe pos ptls F' st :
  PopGCFrame P F gcframe pos ptls = Ok (F', st) -> preserves b0 F F'.
Proof.
  unfold PopGCFrame. destruct (T_prjlvalue P) as [T|]; [|done].
  pose proof (preserves_CreateConstGEP1_32 P F pos gcframe 1) as H1.
  destruct (CreateConstGEP1_32 P F pos gcframe 1) as [F1 gcpop].
  pose proof (preserves_createBefore F1 pos (LoadInst gcpop [])
                (pointeeType (getType F1 gcpop))) as H2.
  destruct (createBefore F1 pos _ _) as [F2 inst].
  pose proof (preserves_Insert_pgcstack P F2 pos ptls) as H3.
  destruct (Insert_pgcstack P F2 pos ptls) as [F3 pgcstack].
  pose proof (preserves_CreateBitCast F3 pos pgcstack (PointerTy T 0)) as H4.
  destruct (CreateBitCast F3 pos pgcstack (PointerTy T 0)) as [F4 pgc].
  pose proof (preserves_createBefore F4 pos (StoreInst inst pgc) VoidTy) as H5.
  destruct (createBefore F4 pos _ _) as [F5 st5]. simpl in *.
  intros [= <- <-]. eauto using preserves_trans.
Qed.

Lemma preserves_GetPtrForNumber P F S Num pos F' Val :
  GetPtrForNumber P F S Num pos = Ok (F', Val) -> preserves b0 F F'.
Proof.
  unfold GetPtrForNumber. destruct (ReversePtrNumbering S !! Num) as [V|]; [|done].
  case_match; [|intros [= <- <-]; apply preserves_refl].
  set (Idx := match list_find _ _ with Some (i, _) => i | None => _ end).
  pose proof (preserves_addValue F (ConstantInt (Z.of_nat Idx)) (IntegerTy 32)) as H1.
  destruct (addValue F (ConstantInt (Z.of_nat Idx)) (IntegerTy 32)) as [F1 c].
  cbv beta iota zeta.
  match goal with |- Ok (createBefore ?a ?b ?c ?d) = _ -> _ =>
    pose proof (preserves_createBefore a b c d) as H2;
    destruct (createBefore a b c d) as [F2 x] end.
  simpl in *. intros [= <- <-]. eauto using preserves_trans.
Qed.

Lemma preserves_PlaceGCFrameStore P F S R Min Colors GCFrame pos F' st :
  PlaceGCFrameStore P F S R Min Colors GCFrame pos = Ok (F', st) -> preserves b0 F F'.
Proof.
  unfold PlaceGCFrameStore. destruct (T_prjlvalue P) as [T|]; [|done].
  destruct (GetPtrForNumber P F S R pos) as [[F1 Val]| |] eqn:E1; bind_ok; [|done..].
  apply preserves_GetPtrForNumber in E1.
  match goal with |- context [addValue F1 ?k ?t] =>
    pose proof (preserves_addValue F1 k t) as H2; destruct (addValue F1 k t) as [F2 slot] end.
  match goal with |- context [createBefore F2 ?a ?k ?t] =>
    pose proof (preserves_createBefore F2 a k t) as H3;
    destruct (createBefore F2 a k t) as [F3 gep] end.
  pose proof (preserves_MaybeExtractUnion (AddressSpace P) F3 Val pos) as H4.
  destruct (MaybeExtractUnion (AddressSpace P) F3 Val pos) as [F4 Val4].
  match goal with |- context [if ?c then createBefore F4 ?a ?k ?t else _] =>
    pose proof (preserves_createBefore F4 a k t) as H5;
    destruct c; [destruct (createBefore F4 a k t) as [F5 Val5]|] end.
  - match goal with |- Ok (createBefore ?a ?b ?c ?d) = _ -> _ =>
      pose proof (preserves_createBefore a b c d) as H6;
      destruct (createBefore a b c d) as [F6 x] end.
    simpl in *. intros [= <- <-]. eauto 10 using preserves_trans.
  - match goal with |- Ok (createBefore ?a ?b ?c ?d) = _ -> _ =>
      pose proof (preserves_createBefore a b c d) as H6;
      destruct (createBefore a b c d) as [F6 x] end.
    simpl in *. intros [= <- <-]. eauto 10 using preserves_trans.
Qed.

Lemma preserves_PlaceStores_safepoint P S Min Colors GCFrame F LL sts sp F' LL' sts' :
  PlaceStores_safepoint P S Min Colors GCFrame (Ok (F, LL, sts)) sp = Ok (F', LL', sts') ->
  preserves b0 F F'.
Proof.
  unfold PlaceStores_safepoint. bind_ok.
  destruct (ReverseSafepointNumbering S !! Z.to_nat sp) as [pos|]; [|done].
  destruct (foldl _ _ _) as [[F1 sts1]| |] eqn:E; bind_ok; [|done..].
  intros [= <- _ _].
  apply (foldl_Res_invariant (fun a : Function * list Value => preserves b0 F a.1) _ _
           (fun _ _ => eq_refl) (fun _ => eq_refl)) with (a := (F, sts)) (a' := (F1, sts1)) in E;
    [done| |apply preserves_refl].
  intros [Fa sa] Idx [Fb sb] Ha. bind_ok. simpl in Ha.
  destruct (negb _); [|intros [= <- <-]; done].
  destruct (PlaceGCFrameStore _ _ _ _ _ _ _ _) as [[F2 st]| |] eqn:E2; bind_ok; [|done..].
  intros [= <- <-]. simpl. apply preserves_PlaceGCFrameStore in E2.
  eauto using preserves_trans.
Qed.

Lemma preserves_PlaceGCFrameStores P F S Min Colors GCFrame F' sts :
  PlaceGCFrameStores P F S Min Colors GCFrame = Ok (F', sts) -> preserves b0 F F'.
Proof.
  unfold PlaceGCFrameStores. intros E.
  apply (foldl_Res_invariant (fun a : Function * list Value => preserves b0 F a.1) _ _
           (fun _ _ => eq_refl) (fun _ => eq_refl)) with (a := (F, [])) (a' := (F', sts)) in E;
    [done| |apply preserves_refl].
  intros [Fa sa] b [Fb sb] Ha. bind_ok. simpl in Ha.
  destruct (negb _); [intros [= <- <-]; done|].
  destruct (AddInPredLiveOuts Fa S b.1) as [LiveIn| |]; bind_ok; [|done..].
  destruct (foldl (PlaceStores_safepoint _ _ _ _ _) _ _) as [[[F1 LL1] sts1]| |] eqn:E1;
    bind_ok; [|done..].
  intros [= <- <-]. simpl.
  eapply preserves_trans; [exact Ha|]. clear Ha.
  apply (foldl_Res_invariant
           (fun a : Function * BitVector * list Value => preserves b0 Fa a.1.1) _ _
           (fun _ _ => eq_refl) (fun _ => eq_refl))
    with (a := (Fa, LiveIn, sa)) (a' := (F1, LL1, sts1)) in E1;
    [done| |apply preserves_refl].
  intros [[Fc Lc] sc] sp [[Fd Ld] sd] Hc Hd. simpl in *.
  apply preserves_PlaceStores_safepoint in Hd. eauto using preserves_trans.
Qed.

Lemma preserves_pops P F gcframe ptls (bs : list (BasicBlock * list Value)) F' pops :
  foldl (fun r (b : BasicBlock * list Value) =>
           '(F, pops) ← r;
           match getTerminator F b.1 with
           | Some Term =>
               match getKind F Term with
               | ReturnInst _ =>
                   '(F, pop) ← PopGCFrame P F gcframe Term ptls;
                   Ok (F, pops ++ [pop])
               | _ => Ok (F, pops)
               end
           | None => Ok (F, pops)
           end)
        (Ok (F, [])) bs = Ok (F', pops) ->
  preserves b0 F F'.
Proof.
  intros E.
  apply (foldl_Res_invariant (fun a : Function * list Value => preserves b0 F a.1) _ _
           (fun _ _ => eq_refl) (fun _ => eq_refl)) with (a := (F, [])) (a' := (F', pops)) in E;
    [done| |apply preserves_refl].
  intros [Fa sa] b [Fb sb] Ha. bind_ok. simpl in Ha.
  destruct (getTerminator Fa b.1) as [Term|]; [|intros [= <- <-]; done].
  destruct (getKind Fa Term); try (intros [= <- <-]; done).
  destruct (PopGCFrame _ _ _ _ _) as [[F2 st]| |] eqn:E2; bind_ok; [|done..].
  intros [= <- <-]. simpl. apply preserves_PopGCFrame in E2. eauto using preserves_trans.
Qed.

Lemma foldl_Res_invariant_elem {A B : Type} (I : A -> Prop) (f : Res A -> B -> Res A)
    (l : list B) :
  (forall b m, f (Abort m) b = Abort m) -> (forall b, f OutOfFuel b = OutOfFuel) ->
  (forall a b a', b ∈ l -> I a -> f (Ok a) b = Ok a' -> I a') ->
  forall a a', I a -> foldl f (Ok a) l = Ok a' -> I a'.
Proof.
  intros HA HO. induction l as [|b l IH]; intros Hstep a a' Ha; simpl.
  - by intros [= <-].
  - destruct (f (Ok a) b) as [a1|m|] eqn:E.
    + apply IH; [|eapply Hstep; [by left|done..]].
      intros ? ? ? ?. apply Hstep. by right.
    + assert (foldl f (Abort m) l = Abort m) as ->; [|done].
      clear -HA. induction l as [|b' l IHl]; simpl; [done|]. by rewrite HA.
    + assert (foldl f OutOfFuel l = OutOfFuel) as ->; [|done].
      clear -HO. induction l as [|b' l IHl]; simpl; [done|]. by rewrite HO.
Qed.

Lemma isLifetimeMarker_isCall F U :
  isLifetimeMarker F U = true -> isCall (getKind F U) = true.
Proof. unfold isLifetimeMarker. by destruct (getKind F U). Qed.

Lemma RecursivelyVisit_markers fuel F V TD TD' :
  RecursivelyVisit fuel F V TD = Ok TD' ->
  (forall I, I ∈ TD -> isLifetimeMarker F I = true) ->
  forall I, I ∈ TD' -> isLifetimeMarker F I = true.
Proof.
  revert V TD TD'. induction fuel as [|fuel IH]; intros V TD TD'; simpl; [done|].
  intros E HTD. revert E.
  refine (foldl_Res_invariant
            (fun TD : list Value => forall I, I ∈ TD -> isLifetimeMarker F I = true) _ _
            (fun _ _ => eq_refl) (fun _ => eq_refl) _ TD TD' HTD).
  clear TD TD' HTD. intros TD U TD' HTD. bind_ok.
  set (TD1 := if isLifetimeMarker F U then TD ++ [U] else TD).
  assert (forall I, I ∈ TD1 -> isLifetimeMarker F I = true) as H1.
  { unfold TD1. destruct (isLifetimeMarker F U) eqn:EU; [|done].
    intros I [HI| ->%list_elem_of_singleton]%elem_of_app; [by apply HTD|done]. }
  destruct (getKind F U); try done; try (by intros [= <-]);
    intros E; by apply (IH _ _ _ E).
Qed.

Lemma preserves_erase_markers F0 (l : list Value) :
  (forall I, I ∈ l -> isCall (getKind F0 I) = true) ->
  forall F, values F ⊆ values F0 -> preserves b0 F (foldl eraseFromParent F l).
Proof.
  induction l as [|I l IH]; intros Hl F Hsub; simpl; [apply preserves_refl|].
  eapply preserves_trans.
  - apply (preserves_eraseFromParent F I). intros v vi (_ & Hv & Hk & _) ->.
    assert (isCall (getKind F0 I) = true) as Hc by (apply Hl; by left).
    unfold getKind in Hc. rewrite (lookup_weaken _ _ _ _ Hv Hsub) in Hc. congruence.
  - apply IH; [intros; apply Hl; by right|].
    simpl. etransitivity; [apply delete_subseteq|done].
Qed.

Lemma preserves_ReplaceAlloca P gcframe F slot AI F' slot' :
  (AI < b0)%nat ->
  ReplaceAlloca P gcframe (Ok (F, slot)) AI = Ok (F', slot') -> preserves b0 F F'.
Proof.
  intros HAI. unfold ReplaceAlloca. bind_ok.
  destruct (T_prjlvalue P) as [T|]; [|done].
  pose proof (preserves_addValue F (ConstantInt slot) (T_int32 P)) as H1.
  destruct (addValue F (ConstantInt slot) (T_int32 P)) as [F1 c]. cbv beta iota zeta.
  pose proof (preserves_addValue F1 (GetElementPtrInst gcframe [c]) (PointerTy T 0)) as H2.
  destruct (addValue F1 (GetElementPtrInst gcframe [c]) (PointerTy T 0)) as [F2 gep].
  cbv beta iota zeta.
  pose proof (preserves_insertAfter F2 gcframe gep) as H3.
  set (F3 := insertAfter F2 gcframe gep) in *.
  destruct (RecursivelyVisit _ F3 AI []) as [TD| |] eqn:E; bind_ok; [|done..].
  intros [= <- _].
  pose proof (RecursivelyVisit_markers _ _ _ _ _ E) as HTD.
  assert (preserves b0 F3 (foldl eraseFromParent F3 TD)) as H4.
  { apply (preserves_erase_markers F3); [|done].
    intros I HI. apply isLifetimeMarker_isCall, HTD; [|done]. by intros ? ?%elem_of_nil. }
  pose proof (preserves_replaceAllUsesWith (foldl eraseFromParent F3 TD) AI gep HAI) as H5.
  assert (preserves b0 (replaceAllUsesWith (foldl eraseFromParent F3 TD) AI gep)
            (eraseFromParent (replaceAllUsesWith (foldl eraseFromParent F3 TD) AI gep) AI)) as H6.
  { apply preserves_eraseFromParent. intros v vi ((Hv & _) & _). lia. }
  simpl in *. eauto 10 using preserves_trans.
Qed.

Lemma preserves_ReplaceAllocas P gcframe F (Al : list Value) z F' slot' :
  (forall AI, AI ∈ Al -> (AI < b0)%nat) ->
  foldl (ReplaceAlloca P gcframe) (Ok (F, z)) Al = Ok (F', slot') -> preserves b0 F F'.
Proof.
  intros HAl E.
  apply (foldl_Res_invariant_elem (fun a : Function * Z => preserves b0 F a.1) _ _
           (fun _ _ => eq_refl) (fun _ => eq_refl)) with (a := (F, z)) (a' := (F', slot')) in E;
    [done| |apply preserves_refl].
  intros [Fa sa] AI [Fb sb] Hin Ha Hb. simpl in *.
  apply preserves_ReplaceAlloca in Hb; [|by apply HAl]. eauto using preserves_trans.
Qed.

Lemma placed_addValue F k t :
  (b0 <= next_value F)%nat -> isCall k = false ->
  (forall o, o ∈ operands k -> (b0 <= o)%nat) ->
  placed b0 (addValue F k t).1 (addValue F k t).2 (mkValue k t).
Proof.
  intros Hb Hk Ho. split; [simpl; lia|]. split; [|done]. simpl. apply lookup_insert_eq.
Qed.

Lemma placed_createBefore F pos k t :
  (b0 <= next_value F)%nat -> isCall k = false ->
  (forall o, o ∈ operands k -> (b0 <= o)%nat) ->
  placed b0 (createBefore F pos k t).1 (createBefore F pos k t).2 (mkValue k t).
Proof.
  intros Hb Hk Ho. split; [simpl; lia|]. split; [|done]. simpl. apply lookup_insert_eq.
Qed.

Lemma in_entry_createBefore F pos k t :
  in_entry pos F -> in_entry (createBefore F pos k t).2 (createBefore F pos k t).1.
Proof.
  intros (e & l & rest & Hb & Hp). unfold createBefore, insertBefore. simpl. rewrite Hb.
  eexists _, _, _. split; [reflexivity|]. simpl. by apply elem_of_insert_before_new.
Qed.

Lemma inst_after_elem (I x : Value) l : inst_after I l = Some x -> x ∈ l.
Proof.
  induction l as [|y l IH]; simpl; [done|]. case_decide.
  - destruct l as [|z l]; simpl; [done|]. intros [= ->]. right. by left.
  - intros H'. right. by apply IH.
Qed.

Lemma getParent_entry F (I : Value) :
  getParent F I = Some (getEntryBlock F) ->
  exists e l rest, blocks F = (e, l) :: rest /\ getInsts F (getEntryBlock F) = l.
Proof.
  unfold getParent, getEntryBlock, getInsts. destruct (blocks F) as [|[e l] rest]; [done|].
  intros _. exists e, l, rest. split; [done|]. simpl. by rewrite decide_True.
Qed.
End Preserves.

Section MaxColor.
Implicit Types Colors : list Z.

Lemma MaxColor_fold Colors (m : Z) :
  let M := foldl (fun Max C => if Max <? C then C else Max) m Colors in
  m <= M /\ (forall c, c ∈ Colors -> c <= M) /\ (M = m \/ M ∈ Colors).
Proof.
  revert m. induction Colors as [|c Colors IH]; intros m; simpl.
  - split; [lia|]. split; [by intros ? ?%elem_of_nil|by left].
  - destruct (IH (if m <? c then c else m)) as (H1 & H2 & H3).
    destruct (Z.ltb_spec m c).
    + split; [lia|]. split.
      * intros x [->|Hx]%elem_of_cons; [done|by apply H2].
      * right. destruct H3 as [->|H3]; [by left|by right].
    + split; [lia|]. split.
      * intros x [->|Hx]%elem_of_cons; [lia|by apply H2].
      * destruct H3 as [H3|H3]; [by left|right; by right].
Qed.

Lemma MaxColor_spec Colors :
  -1 <= MaxColor Colors /\ (forall c, c ∈ Colors -> c <= MaxColor Colors) /\
  (MaxColor Colors = -1 \/ MaxColor Colors ∈ Colors).
Proof. apply (MaxColor_fold Colors (-1)). Qed.
End MaxColor.

(** ** The frame and the push sequence *)

Lemma in_entry_addValue F k t (x : Value) : in_entry x F -> in_entry x (addValue F k t).1.
Proof. done. Qed.

Lemma in_entry_old_createBefore F pos k t (x : Value) :
  in_entry x F -> in_entry x (createBefore F pos k t).1.
Proof.
  intros (e & l & rest & Hb & Hp). unfold createBefore, insertBefore. simpl. rewrite Hb.
  eexists _, _, _. split; [reflexivity|]. simpl. by apply elem_of_insert_before.
Qed.

Ltac step_add b0 Hp Hv Ho :=
  match goal with
  | |- context [addValue ?F ?k ?t] =>
      pose proof (preserves_addValue b0 F k t) as Hp;
      pose proof (placed_addValue b0 F k t) as Hv;
      pose proof (in_entry_addValue F k t) as Ho;
      destruct (addValue F k t) as [? ?]; simpl in Hp, Hv, Ho; cbv beta iota zeta
  end.

Ltac step_create b0 Hp Hv He Ho :=
  match goal with
  | |- context [createBefore ?F ?pos ?k ?t] =>
      pose proof (preserves_createBefore b0 F pos k t) as Hp;
      pose proof (placed_createBefore b0 F pos k t) as Hv;
      pose proof (in_entry_createBefore F pos k t) as He;
      pose proof (in_entry_old_createBefore F pos k t pos) as Ho;
      destruct (createBefore F pos k t) as [? ?]; simpl in Hp, Hv, He, Ho; cbv beta iota zeta
  end.

Lemma placed_lt b0 F v vi : placed b0 F v vi -> (b0 <= v)%nat /\ (b0 <= next_value F)%nat.
Proof. intros ((? & ?) & _). lia. Qed.

Lemma elem_of_1 (x : Value) (b0 : nat) :
  (b0 <= x)%nat -> forall o : Value, o ∈ [x] -> (b0 <= o)%nat.
Proof. intros ? o Hx%list_elem_of_singleton. by subst. Qed.

Lemma elem_of_2 (x y : Value) (b0 : nat) :
  (b0 <= x)%nat -> (b0 <= y)%nat -> forall o : Value, o ∈ [x; y] -> (b0 <= o)%nat.
Proof.
  intros ? ? o [->|Hx]%elem_of_cons; [done|]. apply list_elem_of_singleton in Hx. by subst.
Qed.

Lemma in_entry_getParent F (I : Value) :
  in_entry I F -> getParent F I = Some (getEntryBlock F).
Proof.
  intros (e & l & rest & Hb & HI). unfold getParent, getEntryBlock. rewrite Hb. simpl.
  by rewrite decide_True.
Qed.

Lemma in_entry_insertBefore F (pos I x : Value) :
  in_entry x F -> in_entry x (insertBefore F pos I).
Proof.
  intros (e & l & rest & Hb & Hp). unfold insertBefore. simpl. rewrite Hb.
  eexists _, _, _. split; [reflexivity|]. simpl. by apply elem_of_insert_before.
Qed.

Lemma in_entry_insertAfter F (pos I x : Value) :
  in_entry x F -> in_entry x (insertAfter F pos I).
Proof.
  intros (e & l & rest & Hb & Hp). unfold insertAfter. simpl. rewrite Hb.
  eexists _, _, _. split; [reflexivity|]. simpl. by apply elem_of_insert_after.
Qed.

Section Push.
Variable b0 : nat.

Lemma PushGCFrame_spec P F gcframe NRoots ptls F' push :
  (b0 <= gcframe)%nat -> (b0 <= next_value F)%nat ->
  PushGCFrame P F gcframe NRoots ptls = Ok (F', push) ->
  preserves b0 F F' /\
  exists count slot0c slot0 zero t1 t2 t3,
    placed b0 F' (push_count_store push) (mkValue (StoreInst count slot0c) VoidTy) /\
    placed b0 F' count (mkValue (ConstantInt (to_unsigned (Z.shiftl NRoots 1))) t1) /\
    (slot0c = slot0 \/ placed b0 F' slot0c (mkValue (BitCastInst slot0) t2)) /\
    placed b0 F' slot0 (mkValue (GetElementPtrInst gcframe [zero]) t3) /\
    placed b0 F' zero (mkValue (ConstantInt 0) (T_int32 P)) /\
    (in_entry ptls F -> in_entry (push_count_store push) F').
Proof.
  intros Hg Hb. unfold PushGCFrame.
  destruct (getParent F ptls) as [BB|] eqn:EP; [|done].
  destruct (inst_after ptls (getInsts F BB)) as [Pt|] eqn:EA; [|done].
  destruct (T_prjlvalue P) as [T|]; [|done]. destruct (T_ppjlvalue P) as [TPP|]; [|done].
  assert (in_entry ptls F -> in_entry Pt F) as HPt.
  { intros Hptls. apply in_entry_getParent in Hptls. rewrite EP in Hptls.
    injection Hptls as ->. destruct (getParent_entry F ptls EP) as (e & l & rest & Hbl & Hl).
    exists e, l, rest. split; [done|]. rewrite Hl in EA. by eapply inst_after_elem. }
  unfold CreateConstGEP1_32 at 1.
  step_add b0 Hp1 Hv1 Ho1. step_create b0 Hp2 Hv2 He2 Ho2.
  specialize (Hv1 Hb eq_refl ltac:(by intros ? ?%elem_of_nil)).
  destruct (placed_lt _ _ _ _ Hv1) as [Hz Hb1].
  specialize (Hv2 Hb1 eq_refl ltac:(by apply elem_of_2)).
  destruct (placed_lt _ _ _ _ Hv2) as [Hs0 Hb2].
  match goal with |- context [CreateBitCast ?G ?a ?b ?c] =>
    assert (exists G' sc, CreateBitCast G a b c = (G', sc) /\ preserves b0 G G' /\
              (b0 <= sc)%nat /\ (b0 <= next_value G')%nat /\
              (in_entry Pt G -> in_entry Pt G') /\
              (sc = b \/ exists t2, placed b0 G' sc (mkValue (BitCastInst b) t2)))
      as (G' & sc & -> & Hp3 & Hsc & Hb3 & Ho3 & Hv3) end.
  { unfold CreateBitCast. case_match.
    - eexists _, _. split; [done|]. split; [apply preserves_refl|].
      split; [done|]. split; [done|]. split; [done|]. by left.
    - match goal with |- context [createBefore ?G ?a ?k ?t] =>
        pose proof (placed_createBefore b0 G a k t Hb2 eq_refl ltac:(by apply elem_of_1)) as Hx;
        pose proof (preserves_createBefore b0 G a k t);
        pose proof (in_entry_old_createBefore G a k t a);
        destruct (createBefore G a k t) as [G' sc] end.
      simpl in *. eexists _, _. split; [done|]. destruct (placed_lt _ _ _ _ Hx).
      split; [done|]. split; [done|]. split; [done|]. split; [done|]. right. by eexists. }
  cbv beta iota zeta.
  step_add b0 Hp4 Hv4 Ho4. specialize (Hv4 Hb3 eq_refl ltac:(by intros ? ?%elem_of_nil)).
  destruct (placed_lt _ _ _ _ Hv4) as [Hc Hb4].
  step_create b0 Hp5 Hv5 He5 Ho5. specialize (Hv5 Hb4 eq_refl ltac:(by apply elem_of_2)).
  match goal with |- context [Insert_pgcstack ?a ?G ?b ?c] =>
    pose proof (preserves_Insert_pgcstack b0 a G b c) as Hp6;
    destruct (Insert_pgcstack a G b c) as [? ?] end.
  cbv beta iota zeta.
  match goal with |- context [createBefore ?G ?a ?k ?t] =>
    pose proof (preserves_createBefore b0 G a k t) as Hp7;
    destruct (createBefore G a k t) as [? ?] end.
  cbv beta iota zeta.
  match goal with |- context [CreateConstGEP1_32 ?a ?G ?b ?c ?d] =>
    pose proof (preserves_CreateConstGEP1_32 b0 a G b c d) as Hp8;
    destruct (CreateConstGEP1_32 a G b c d) as [? ?] end.
  cbv beta iota zeta.
  match goal with |- context [CreateBitCast ?G ?a ?b ?c] =>
    pose proof (preserves_CreateBitCast b0 G a b c) as Hp9;
    destruct (CreateBitCast G a b c) as [? ?] end.
  cbv beta iota zeta.
  match goal with |- context [createBefore ?G ?a ?k ?t] =>
    pose proof (preserves_createBefore b0 G a k t) as Hp10;
    destruct (createBefore G a k t) as [? ?] end.
  cbv beta iota zeta.
  match goal with |- context [CreateBitCast ?G ?a ?b ?c] =>
    pose proof (preserves_CreateBitCast b0 G a b c) as Hp11;
    destruct (CreateBitCast G a b c) as [? ?] end.
  cbv beta iota zeta.
  match goal with |- context [createBefore ?G ?a ?k ?t] =>
    pose proof (preserves_createBefore b0 G a k t) as Hp12;
    destruct (createBefore G a k t) as [? ?] end.
  simpl in *. intros [= -> <-]. simpl.
  assert (preserves b0 f2 F') as Hr2 by eauto 10 using preserves_trans.
  assert (preserves b0 f1 F') as Hr1 by eauto using preserves_trans.
  assert (preserves b0 G' F') as HrG by eauto using preserves_trans.
  assert (preserves b0 f0 F') as Hr0 by eauto using preserves_trans.
  assert (preserves b0 f F') as Hrf by eauto using preserves_trans.
  split; [eauto using preserves_trans|].
  assert (in_entry ptls F -> in_entry v2 F') as Hentry.
  { intros HBB. destruct Hr2 as (_ & _ & Hin). eapply Hin; [done|].
    apply He5, Ho4, Ho3, Ho2, Ho1, HPt, HBB. }
  destruct Hv3 as [->|[t2 Hv3]].
  - exists v1, v0, v0, v, (T_size P), VoidTy, (getType f gcframe).
    split; [by apply Hr2|]. split; [by apply Hr1|]. split; [by left|].
    split; [by apply Hr0|]. split; [by apply Hrf|done].
  - exists v1, sc, v0, v, (T_size P), t2, (getType f gcframe).
    split; [by apply Hr2|]. split; [by apply Hr1|]. split; [right; by apply HrG|].
    split; [by apply Hr0|]. split; [by apply Hrf|done].
Qed.
End Push.

Lemma head_entry F (first : Value) :
  head (getInsts F (getEntryBlock F)) = Some first -> in_entry first F.
Proof.
  unfold getEntryBlock, getInsts. destruct (blocks F) as [|[e l] rest] eqn:E; [done|].
  simpl. rewrite decide_True by done. simpl. destruct l as [|x l]; [done|].
  intros [= ->]. exists e, (first :: l), rest. split; [done|by left].
Qed.

Lemma in_entry_insertBefore_new F (pos I : Value) :
  in_entry pos F -> in_entry I (insertBefore F pos I).
Proof.
  intros (e & l & rest & Hb & Hp). unfold insertBefore. simpl. rewrite Hb.
  eexists _, _, _. split; [reflexivity|]. simpl. by apply elem_of_insert_before_new.
Qed.

Lemma placed_getKind b0 F v vi : placed b0 F v vi -> getKind F v = kind vi /\ getType F v = type vi.
Proof. intros (_ & H & _). unfold getKind, getType. by rewrite H. Qed.

(** C5.  When PlaceRootsAndUpdateCalls emits a frame (some colour was
    assigned or some alloca is to be sunk), and the counts fit an unsigned
    and the allocas are values of the function, the root count is
    NRoots = MaxColor + 1 + |Allocas|, MaxColor being the largest colour in
    [Colors]; the frame is an alloca of NRoots + 2 values of type
    T_prjlvalue in the entry block; and the first store of the push
    sequence, in the entry block with the ptls call, writes the constant
    NRoots << 1 through a pointer computed from slot 0 of the frame. *)
Theorem gc_frame_layout (P : LateLowerGCFrame) (F : Function) (Colors : list Z) (S : State)
    (F' : Function) (fr : FrameInfo) :
  (forall AI, AI ∈ Allocas S -> (AI < next_value F)%nat) ->
  2 * (MaxColor Colors + 1 + Z.of_nat (length (Allocas S))) < 2 ^ 32 ->
  PlaceRootsAndUpdateCalls P F Colors S = Ok (F', Some fr) ->
  let NRoots := MaxColor Colors + 1 + Z.of_nat (length (Allocas S)) in
  (forall c, c ∈ Colors -> c <= MaxColor Colors) /\
  (MaxColor Colors = -1 \/ MaxColor Colors ∈ Colors) /\
  (MaxColor Colors <> -1 \/ Allocas S <> []) /\
  frame_NRoots fr = NRoots /\
  exists T n count slot0c slot0 zero,
    T_prjlvalue P = Some T /\
    getKind F' (frame_alloca fr) = AllocaInst T n /\
    getType F' (frame_alloca fr) = PointerTy T 0 /\
    getKind F' n = ConstantInt (NRoots + 2) /\
    in_entry (frame_alloca fr) F' /\
    getKind F' (push_count_store (frame_push fr)) = StoreInst count slot0c /\
    getKind F' count = ConstantInt (Z.shiftl NRoots 1) /\
    (slot0c = slot0 \/ getKind F' slot0c = BitCastInst slot0) /\
    getKind F' slot0 = GetElementPtrInst (frame_alloca fr) [zero] /\
    getKind F' zero = ConstantInt 0 /\
    (forall ptls, ptlsStates P = Some ptls -> in_entry ptls F ->
                  in_entry (push_count_store (frame_push fr)) F').
Proof.
  intros HAl Hfit. destruct (MaxColor_spec Colors) as (Hge & Hmax & Hin).
  unfold PlaceRootsAndUpdateCalls.
  destruct (negb (MaxColor Colors =? -1) || negb (length (Allocas S) =? 0)%nat) eqn:Hc; [|done].
  assert (MaxColor Colors <> -1 \/ Allocas S <> []) as Hneed.
  { apply orb_true_iff in Hc as [Hc|Hc]; apply negb_true_iff in Hc.
    - left. by apply Z.eqb_neq.
    - right. apply Nat.eqb_neq in Hc. by destruct (Allocas S). }
  set (N := MaxColor Colors + 1 + Z.of_nat (length (Allocas S))) in *.
  assert (to_unsigned N = N) as HN by (apply Z.mod_small; lia).
  assert (to_unsigned (N + 2) = N + 2) as HN2 by (apply Z.mod_small; lia).
  assert (to_unsigned (Z.shiftl N 1) = Z.shiftl N 1) as HN1.
  { rewrite Z.shiftl_mul_pow2 by lia. apply Z.mod_small. lia. }
  rewrite HN, HN2.
  destruct (T_prjlvalue P) as [T|]; [|done].
  destruct (ptlsStates P) as [ptls|]; [|done].
  destruct (head (getInsts F (getEntryBlock F))) as [first|] eqn:Hfirst; [|done].
  apply head_entry in Hfirst.
  set (b0 := next_value F).
  step_add b0 Hp1 Hv1 Ho1. specialize (Hv1 (le_n _) eq_refl ltac:(by intros ? ?%elem_of_nil)).
  destruct (placed_lt _ _ _ _ Hv1) as [Hn Hb1].
  step_add b0 Hp2 Hv2 Ho2. specialize (Hv2 Hb1 eq_refl ltac:(by apply elem_of_1)).
  destruct (placed_lt _ _ _ _ Hv2) as [Hg Hb2].
  pose proof (preserves_insertBefore b0 f0 first v0) as Hp3.
  assert (in_entry v0 (insertBefore f0 first v0)) as Hgin.
  { apply in_entry_insertBefore_new. by apply Ho2, Ho1. }
  assert (in_entry ptls F -> in_entry ptls (insertBefore f0 first v0)) as Hpin.
  { intros Hx. by apply in_entry_insertBefore, Ho2, Ho1. }
  set (Fa := insertBefore f0 first v0) in *.
  step_add b0 Hp4 Hv4 Ho4.
  match goal with |- context [insertAfter ?G ?a ?b] =>
    pose proof (preserves_insertAfter b0 G a b) as Hp5;
    pose proof (in_entry_insertAfter G a b ptls) as Ho5;
    set (Fb := insertAfter G a b) in * end.
  step_add b0 Hp6 Hv6 Ho6. step_add b0 Hp7 Hv7 Ho7. step_add b0 Hp8 Hv8 Ho8.
  step_add b0 Hp9 Hv9 Ho9. step_add b0 Hp10 Hv10 Ho10. step_add b0 Hp11 Hv11 Ho11.
  match goal with |- context [insertAfter ?G ?a ?b] =>
    pose proof (preserves_insertAfter b0 G a b) as Hp12;
    pose proof (in_entry_insertAfter G a b ptls) as Ho12;
    set (Fc := insertAfter G a b) in * end.
  assert (preserves b0 Fa Fc) as Hpre by eauto 12 using preserves_trans.
  assert (placed b0 Fa v0 (mkValue (AllocaInst T v) (PointerTy T 0))) as Hgc by by apply Hp3.
  assert (placed b0 Fa v (mkValue (ConstantInt (N + 2)) (T_int32 P))) as Hcnt
    by by apply Hp3, Hp2.
  assert (in_entry ptls F -> in_entry ptls Fc) as Hpin'.
  { intros Hx. apply Ho12, Ho11, Ho10, Ho9, Ho8, Ho7, Ho6, Ho5, Ho4, Hpin, Hx. }
  destruct (PushGCFrame P Fc v0 N ptls) as [[F7 push]| |] eqn:EPush; bind_ok; [|done..].
  destruct (foldl (ReplaceAlloca P v0) _ _) as [[F8 AllocaSlot]| |] eqn:ERep; bind_ok; [|done..].
  destruct (PlaceGCFrameStores P F8 S AllocaSlot Colors v0) as [[F9 stores]| |] eqn:ESt;
    bind_ok; [|done..].
  match goal with |- context [foldl ?f (Ok (F9, [])) (blocks F9)] =>
    destruct (foldl f (Ok (F9, [])) (blocks F9)) as [[F10 pops]| |] eqn:EPop end;
    bind_ok; [|done..].
  intros [= <- <-]. simpl.
  assert (b0 <= next_value Fc)%nat as HbFc.
  { destruct Hpre as (? & _). unfold Fa in *. simpl in *. lia. }
  destruct (PushGCFrame_spec b0 P Fc v0 N ptls F7 push Hg HbFc EPush)
    as (Hpush & count & slot0c & slot0 & zero & t1 & t2 & t3 & Hst & Hcount & Hcast & Hslot
        & Hzero & Hsin).
  apply (preserves_ReplaceAllocas b0) in ERep; [|done].
  apply (preserves_PlaceGCFrameStores b0) in ESt.
  apply (preserves_pops b0) in EPop.
  assert (preserves b0 F7 F10) as Hlate by eauto using preserves_trans.
  assert (preserves b0 Fa F10) as Hall by eauto using preserves_trans.
  split; [done|]. split; [done|]. split; [done|]. split; [done|].
  exists T, v, count, slot0c, slot0, zero. split; [done|].
  destruct (placed_getKind _ _ _ _ (proj1 (proj2 Hall) _ _ Hgc)) as [Hk1 Ht1].
  destruct (placed_getKind _ _ _ _ (proj1 (proj2 Hall) _ _ Hcnt)) as [Hk2 _].
  destruct (placed_getKind _ _ _ _ (proj1 (proj2 Hlate) _ _ Hst)) as [Hk3 _].
  destruct (placed_getKind _ _ _ _ (proj1 (proj2 Hlate) _ _ Hcount)) as [Hk4 _].
  destruct (placed_getKind _ _ _ _ (proj1 (proj2 Hlate) _ _ Hslot)) as [Hk5 _].
  destruct (placed_getKind _ _ _ _ (proj1 (proj2 Hlate) _ _ Hzero)) as [Hk6 _].
  simpl in *. rewrite HN1 in Hk4.
  split; [done|]. split; [done|]. split; [done|]. split.
  { destruct Hall as (_ & _ & Hin'). by apply (Hin' _ _ Hgc). }
  split; [done|]. split; [done|]. split.
  { destruct Hcast as [->|Hcast]; [by left|]. right.
    by destruct (placed_getKind _ _ _ _ (proj1 (proj2 Hlate) _ _ Hcast)). }
  split; [done|]. split; [done|].
  intros ? [= <-] Hptls. destruct Hlate as (_ & _ & Hin'). apply (Hin' _ _ Hst).
  by apply Hsin, Hpin'.
Qed.

Lemma gc_frame_layout_witness :
  (forall AI, AI ∈ Allocas (Examples.coloured_state Examples.alloca_and_jlcall) ->
              (AI < next_value Examples.alloca_and_jlcall)%nat) /\
  exists F' fr,
    PlaceRootsAndUpdateCalls (Examples.pass_of Examples.alloca_and_jlcall)
      Examples.alloca_and_jlcall (Examples.colours Examples.alloca_and_jlcall)
      (Examples.coloured_state Examples.alloca_and_jlcall) = Ok (F', Some fr) /\
    frame_NRoots fr = 1 /\
    exists n count slot0c,
      getKind F' (frame_alloca fr) = AllocaInst Examples.T_prjl n /\
      getKind F' n = ConstantInt 3 /\
      getKind F' (push_count_store (frame_push fr)) = StoreInst count slot0c /\
      getKind F' count = ConstantInt 2 /\
      in_entry (push_count_store (frame_push fr)) F'.
Proof.
  assert (forall AI, AI ∈ Allocas (Examples.coloured_state Examples.alloca_and_jlcall) ->
                     (AI < next_value Examples.alloca_and_jlcall)%nat) as HAl.
  { intros AI HAI. vm_compute in HAI. apply list_elem_of_singleton in HAI. subst AI.
    vm_compute. lia. }
  split; [exact HAl|].
  eexists _, _. split; [vm_compute; reflexivity|].
  match goal with |- frame_NRoots ?fr = _ /\ (exists n count slot0c, getKind ?F' _ = _ /\ _) =>
    destruct (gc_frame_layout (Examples.pass_of Examples.alloca_and_jlcall)
                Examples.alloca_and_jlcall (Examples.colours Examples.alloca_and_jlcall)
                (Examples.coloured_state Examples.alloca_and_jlcall) F' fr HAl)
      as (_ & _ & _ & HN & T & n & count & slot0c & slot0 & zero & HT & Hk1 & _ & Hk2 & _
          & Hk3 & Hk4 & _ & _ & _ & Hin)
  end.
  - vm_compute. reflexivity.
  - vm_compute. reflexivity.
  - split; [exact HN|]. exists n, count, slot0c.
    injection HT as <-.
    split; [exact Hk1|]. split; [exact Hk2|]. split; [exact Hk3|]. split; [exact Hk4|].
    apply (Hin 10%nat); [reflexivity|].
    exists 0%nat, [10; 11; 12; 13]%nat, []. split; [reflexivity|]. by left.
Defined.


(** ** The search of the base value *)

Section BaseWalk.
Variable A : AddressSpaces.
Variable F : Function.
Variable S : State.

Lemma FindBaseValue_loop_eq fuel y :
  FindBaseValue_loop (Datatypes.S fuel) A F S true y =
    if isCached F S y then Some (y, true)
    else match base_step A F y with
         | Some V' => FindBaseValue_loop fuel A F S true V'
         | None => Some (y, false)
         end.
Proof. done. Qed.

Lemma FindBaseValue_loop_S fuel y res :
  FindBaseValue_loop fuel A F S true y = Some res ->
  FindBaseValue_loop (Datatypes.S fuel) A F S true y = Some res.
Proof.
  revert y. induction fuel as [|fuel IH]; intros y; [done|].
  rewrite (FindBaseValue_loop_eq (Datatypes.S fuel)), (FindBaseValue_loop_eq fuel).
  destruct (isCached F S y); [done|].
  destruct (base_step A F y); [by apply IH|done].
Qed.

Lemma FindBaseValue_loop_mono fuel fuel' y res :
  (fuel <= fuel')%nat ->
  FindBaseValue_loop fuel A F S true y = Some res ->
  FindBaseValue_loop fuel' A F S true y = Some res.
Proof.
  induction 1 as [|fuel' _ IH]; [done|]. intros H. by apply FindBaseValue_loop_S, IH.
Qed.

Lemma FindBaseValue_loop_det fuel fuel' y res res' :
  FindBaseValue_loop fuel A F S true y = Some res ->
  FindBaseValue_loop fuel' A F S true y = Some res' -> res = res'.
Proof.
  intros H H'.
  apply (FindBaseValue_loop_mono _ (Nat.max fuel fuel')) in H; [|lia].
  apply (FindBaseValue_loop_mono _ (Nat.max fuel fuel')) in H'; [|lia]. congruence.
Qed.

Lemma FindBaseValue_loop_cached fuel y :
  isCached F S y = true ->
  FindBaseValue_loop (Datatypes.S fuel) A F S true y = Some (y, true).
Proof. intros H. by rewrite FindBaseValue_loop_eq, H. Qed.

Lemma FindBaseValue_loop_step fuel y y' :
  isCached F S y = false -> base_step A F y = Some y' ->
  FindBaseValue_loop (Datatypes.S fuel) A F S true y = FindBaseValue_loop fuel A F S true y'.
Proof. intros H H'. by rewrite FindBaseValue_loop_eq, H, H'. Qed.

Lemma cast_operand_base_step w x : cast_operand F w = Some x -> base_step A F w = Some x.
Proof.
  unfold cast_operand, base_step. destruct (getKind F w); try done.
Qed.

Lemma isCached_pointer y :
  isPointerTy (getType F y) = true ->
  isCached F S y = bool_decide (is_Some (AllPtrNumbering S !! y)).
Proof. intros H. unfold isCached. by rewrite H. Qed.

Lemma isSpecialPtr_isPointerTy t : isSpecialPtr A t = true -> isPointerTy t = true.
Proof. by destruct t. Qed.
End BaseWalk.

Section Resolves.
Variable P : LateLowerGCFrame.
Variable F : Function.
Variable S : State.

Lemma Number_at_cached fuel V r m :
  AllPtrNumbering S !! r = Some m -> Number_at fuel P F S V r = Ok (m, F, S).
Proof. intros H. unfold Number_at. by rewrite H. Qed.

(** A value that resolves to [m] and is cached is cached with [m]. *)
Lemma resolves_cached y m my :
  resolves P F S y m -> isPointerTy (getType F y) = true ->
  AllPtrNumbering S !! y = Some my -> my = m.
Proof.
  intros (fuel & r & c & Hw & Hst) Hty Hy.
  destruct fuel as [|fuel]; [done|].
  rewrite FindBaseValue_loop_cached in Hw.
  - injection Hw as <- <-. apply (Hst 0%nat y my F S). by apply Number_at_cached.
  - rewrite isCached_pointer by done. apply bool_decide_eq_true. by eexists.
Qed.

(** A value that resolves to [m] and is not cached hands this on to the
    value the search steps to. *)
Lemma resolves_step y y' m :
  resolves P F S y m -> isPointerTy (getType F y) = true ->
  AllPtrNumbering S !! y = None -> base_step (AddressSpace P) F y = Some y' ->
  resolves P F S y' m.
Proof.
  intros (fuel & r & c & Hw & Hst) Hty Hy Hs.
  destruct fuel as [|fuel]; [done|].
  rewrite (FindBaseValue_loop_step _ _ _ _ _ y') in Hw; [by exists fuel, r, c| |done].
  rewrite isCached_pointer by done. apply bool_decide_eq_false. rewrite Hy. by intros [? ?].
Qed.

(** Along a chain of casts above [v], every cached value has the number
    that [v] resolves to. *)
Lemma chain_resolves k w v m :
  numbering_consistent P F S ->
  cast_chain (AddressSpace P) F k w v = true ->
  resolves P F S w m -> resolves P F S v m.
Proof.
  intros Hinv. revert w. induction k as [|k IH]; intros w; simpl.
  - intros [_ ->%bool_decide_eq_true]%andb_true_iff. done.
  - intros [Hty Hc]%andb_true_iff Hres.
    destruct (cast_operand F w) as [x|] eqn:Hx; [|done].
    apply (IH x Hc). apply isSpecialPtr_isPointerTy in Hty.
    pose proof (cast_operand_base_step (AddressSpace P) F w x Hx) as Hstep.
    destruct (AllPtrNumbering S !! w) as [mw|] eqn:Hw.
    + assert (mw = m) as -> by by eapply resolves_cached. by eapply Hinv.
    + by eapply resolves_step.
Qed.
End Resolves.

(** ** What numbering does to the function and the cache *)

Section NumberEffect.
Variable P : LateLowerGCFrame.

Lemma extends_MaybeExtractUnion A F Val pos : extends F (MaybeExtractUnion A F Val pos).1.
Proof.
  unfold MaybeExtractUnion. case_match; [apply extends_createBefore|apply extends_refl].
Qed.

Lemma cache_grown_refl S n : cache_grown S S n.
Proof. intros z mz H. by left. Qed.

Lemma cache_grown_insert S (All : gmap Value Z) (k : Value) n :
  (forall z mz, All !! z = Some mz -> AllPtrNumbering S !! z = Some mz \/ mz = n) ->
  forall z mz, <[k := n]> All !! z = Some mz -> AllPtrNumbering S !! z = Some mz \/ mz = n.
Proof.
  intros H z mz. rewrite lookup_insert. case_decide; [|apply H].
  intros [= <-]. by right.
Qed.

Lemma LiftSelect_effect fuel A F S SI n F' S' :
  LiftSelect fuel A F S SI = Ok (n, F', S') -> extends F F' /\ cache_grown S S' n.
Proof.
  unfold LiftSelect. destruct (getKind F SI); try done.
  match goal with |- mbind _ ?m = _ -> _ => destruct m as [TrueBase| |] end;
    bind_ok; [|done..].
  match goal with |- match ?m with _ => _ end = _ -> _ => destruct m as [FalseBase| |] end;
    [|done..].
  pose proof (extends_MaybeExtractUnion A F TrueBase SI) as H1.
  destruct (MaybeExtractUnion A F TrueBase SI) as [F1 TB].
  pose proof (extends_MaybeExtractUnion A F1 FalseBase SI) as H2.
  destruct (MaybeExtractUnion A F1 FalseBase SI) as [F2 FB]. simpl in H1, H2.
  assert (exists F3 TB3,
            (if negb (getValueAddrSpace F2 TB =? Tracked A)
             then addValue F2 ConstantPointerNull (getType F2 FB) else (F2, TB)) = (F3, TB3) /\
            extends F2 F3) as (F3 & TB3 & -> & H3).
  { destruct (negb _); eexists _, _; (split; [reflexivity|]);
      [apply extends_addValue|apply extends_refl]. }
  assert (exists F4 FB4,
            (if negb (getValueAddrSpace F3 FB =? Tracked A)
             then addValue F3 ConstantPointerNull (getType F3 TB3) else (F3, FB)) = (F4, FB4) /\
            extends F3 F4) as (F4 & FB4 & -> & H4).
  { destruct (negb _); eexists _, _; (split; [reflexivity|]);
      [apply extends_addValue|apply extends_refl]. }
  destruct (negb (getValueAddrSpace F4 TB3 =? Tracked A)).
  - intros [= <- <- <-]. split; [eauto using extends_trans|apply cache_grown_refl].
  - match goal with |- context [createBefore F4 ?a ?k ?t] =>
      pose proof (extends_createBefore F4 a k t) as H5;
      destruct (createBefore F4 a k t) as [F5 SB] end.
    simpl in H5. intros [= <- <- <-]. split; [eauto 6 using extends_trans|].
    unfold cache_grown. simpl. apply cache_grown_insert, cache_grown_insert. by left.
Qed.

Lemma LiftPhi_incoming_extends fuel A T F S incoming acc F' lifted :
  LiftPhi_incoming fuel A T F S incoming acc = Ok (F', lifted) -> extends F F'.
Proof.
  revert F acc. induction incoming as [|[Incoming IB] rest IH]; intros F acc; simpl.
  - intros [= <- _]. apply extends_refl.
  - destruct (FindBaseValue fuel A F S Incoming false) as [Base| |]; bind_ok; [|done..].
    assert (exists F1 B1,
              (if negb (getValueAddrSpace F Base =? Tracked A)
               then addValue F ConstantPointerNull T else (F, Base)) = (F1, B1) /\
              extends F F1) as (F1 & B1 & -> & H1).
    { destruct (negb _); eexists _, _; (split; [reflexivity|]);
        [apply extends_addValue|apply extends_refl]. }
    assert (exists F2 B2,
              (if negb (Ty_eqb (getType F1 B1) T)
               then match getTerminator F1 IB with
                    | Some Term => createBefore F1 Term (BitCastInst B1) T
                    | None => addValue F1 (BitCastInst B1) T
                    end
               else (F1, B1)) = (F2, B2) /\
              extends F1 F2) as (F2 & B2 & -> & H2).
    { destruct (negb _); [destruct (getTerminator F1 IB)|]; eexists _, _;
        (split; [apply surjective_pairing|]);
        [apply extends_createBefore|apply extends_addValue|apply extends_refl]. }
    intros H. apply IH in H. eauto using extends_trans.
Qed.

Lemma LiftPhi_effect fuel F S Phi n F' S' :
  LiftPhi fuel P F S Phi = Ok (n, F', S') -> extends F F' /\ cache_grown S S' n.
Proof.
  unfold LiftPhi. destruct (getKind F Phi); try done.
  destruct (T_prjlvalue P) as [T|]; [|done].
  pose proof (extends_createBefore F Phi (PHINode []) T) as H1.
  pose proof (createBefore_lookup F Phi (PHINode []) T) as (Hl & _).
  destruct (createBefore F Phi (PHINode []) T) as [F1 lift]. simpl in H1, Hl. subst lift.
  destruct (LiftPhi_incoming _ _ _ _ _ _ _) as [[F2 lifted]| |] eqn:E; bind_ok; [|done..].
  apply LiftPhi_incoming_extends in E. intros [= <- <- <-]. split.
  - pose proof (extends_trans _ _ _ H1 E) as [Hn Hv]. split; [done|].
    intros v Hlt. simpl. rewrite lookup_insert_ne by lia. by apply Hv.
  - unfold cache_grown. simpl. apply cache_grown_insert, cache_grown_insert. by left.
Qed.

Lemma Number_at_effect fuel F S V r n F1 S1 :
  Number_at fuel P F S V r = Ok (n, F1, S1) ->
  (AllPtrNumbering S !! r = Some n /\ F1 = F /\ S1 = S) \/
  (extends F F1 /\ AllPtrNumbering S1 !! V = Some n /\ cache_grown S S1 n).
Proof.
  unfold Number_at. destruct (AllPtrNumbering S !! r) as [m|] eqn:Hr.
  { intros [= <- <- <-]. by left. }
  intros H. right. revert H.
  destruct (is_rooted_in_parent _ _ _).
  { intros [= <- <- <-]. split; [apply extends_refl|]. split.
    - simpl. rewrite lookup_insert. case_decide; [done|]. apply lookup_insert_eq.
    - unfold cache_grown. simpl. apply cache_grown_insert, cache_grown_insert. by left. }
  destruct (isSelect _ && _).
  { destruct (LiftSelect _ _ _ _ _) as [[[n' F'] S']| |] eqn:E; bind_ok; [|done..].
    intros [= <- <- <-]. apply LiftSelect_effect in E as [He Hc].
    split; [done|]. split; [simpl; apply lookup_insert_eq|].
    unfold cache_grown. simpl. apply cache_grown_insert. apply Hc. }
  destruct (isPHI _ && _).
  { destruct (LiftPhi _ _ _ _ _) as [[[n' F'] S']| |] eqn:E; bind_ok; [|done..].
    intros [= <- <- <-]. apply LiftPhi_effect in E as [He Hc].
    split; [done|]. split; [simpl; apply lookup_insert_eq|].
    unfold cache_grown. simpl. apply cache_grown_insert. apply Hc. }
  destruct (isExtractValue _ && _); [done|].
  destruct (assert _ _); bind_ok; [|done..].
  intros [= <- <- <-]. split; [apply extends_refl|]. split.
  - simpl. rewrite lookup_insert. case_decide; [done|]. apply lookup_insert_eq.
  - unfold cache_grown. simpl. apply cache_grown_insert, cache_grown_insert. by left.
Qed.
End NumberEffect.

(** ** Base invariance of the numbering *)

Section BaseInvariance.
Variable P : LateLowerGCFrame.

Lemma Number_inv fuel F S V n F1 S1 :
  Number fuel P F S V = Ok (n, F1, S1) ->
  exists r c,
    FindBaseValue_loop fuel (AddressSpace P) F S true V = Some (r, c) /\
    (c = false -> is_base (getKind F r) = true) /\
    Number_at fuel P F S V r = Ok (n, F1, S1).
Proof.
  unfold Number, FindBaseValue.
  destruct (assert _ _); bind_ok; [|done..].
  destruct (FindBaseValue_loop fuel (AddressSpace P) F S true V) as [[r [|]]|]; bind_ok; [| |done].
  - intros H. by exists r, true.
  - unfold assert. destruct (is_base (getKind F r)) eqn:Hb; bind_ok; [|done].
    intros H. by exists r, false.
Qed.

Lemma Number_of_walk fuel F S V r c :
  isSpecialPtr (AddressSpace P) (getType F V) = true ->
  FindBaseValue_loop fuel (AddressSpace P) F S true V = Some (r, c) ->
  (c = false -> is_base (getKind F r) = true) ->
  Number fuel P F S V = Number_at fuel P F S V r.
Proof.
  intros Hty Hw Hb. unfold Number, FindBaseValue. rewrite Hty, Hw. simpl.
  destruct c; [done|]. by rewrite Hb.
Qed.

Lemma special_exists F (w : Value) :
  isSpecialPtr (AddressSpace P) (getType F w) = true -> is_Some (values F !! w).
Proof. unfold getType. destruct (values F !! w); [by eexists|done]. Qed.

Lemma extends_get F F1 (w : Value) :
  fresh F -> extends F F1 -> is_Some (values F !! w) ->
  getKind F1 w = getKind F w /\ getType F1 w = getType F w.
Proof.
  intros Hf [_ He] Hw. unfold getKind, getType. rewrite He; [done|by apply Hf].
Qed.

Lemma cast_chain_special F k w v :
  cast_chain (AddressSpace P) F k w v = true -> isSpecialPtr (AddressSpace P) (getType F w) = true.
Proof. destruct k; simpl; by intros [? _]%andb_true_iff. Qed.

(** The search from the top of a chain, in a function and a cache that
    extend those of the chain: it ends at a cached value of the chain, or
    it reaches the bottom of the chain. *)
Lemma chain_walk F F1 S1 v k w fuel0 :
  fresh F -> extends F F1 -> cast_chain (AddressSpace P) F k w v = true ->
  FindBaseValue_loop (fuel0 + k) (AddressSpace P) F1 S1 true w = FindBaseValue_loop fuel0 (AddressSpace P) F1 S1 true v \/
  exists z j mz,
    cast_chain (AddressSpace P) F j z v = true /\ AllPtrNumbering S1 !! z = Some mz /\
    FindBaseValue_loop (fuel0 + k) (AddressSpace P) F1 S1 true w = Some (z, true).
Proof.
  intros Hf He. revert w. induction k as [|k IH]; intros w Hc.
  - simpl in Hc. apply andb_true_iff in Hc as [_ ->%bool_decide_eq_true].
    left. by rewrite Nat.add_0_r.
  - pose proof (cast_chain_special _ _ _ _ Hc) as Hty.
    destruct (extends_get F F1 w Hf He (special_exists _ _ Hty)) as [HK HT].
    assert (isPointerTy (getType F1 w) = true) as Hp.
    { rewrite HT. by eapply isSpecialPtr_isPointerTy. }
    replace (fuel0 + Datatypes.S k)%nat with (Datatypes.S (fuel0 + k)) by lia.
    destruct (AllPtrNumbering S1 !! w) as [mw|] eqn:Hw.
    + right. exists w, (Datatypes.S k), mw. split; [done|]. split; [done|].
      apply FindBaseValue_loop_cached. rewrite isCached_pointer by done.
      apply bool_decide_eq_true. rewrite Hw. by eexists.
    + simpl in Hc. apply andb_true_iff in Hc as [_ Hc].
      destruct (cast_operand F w) as [x|] eqn:Hx; [|done].
      assert (base_step (AddressSpace P) F1 w = Some x) as Hs.
      { apply cast_operand_base_step. unfold cast_operand in *. by rewrite HK. }
      rewrite (FindBaseValue_loop_step _ _ _ _ _ x); [by apply IH| |done].
      rewrite isCached_pointer by done. apply bool_decide_eq_false. rewrite Hw.
      by intros [? ?].
Qed.

(** In a consistent state, a cached value of a chain above [v] holds the
    number of [v]. *)
Lemma chain_cached_number F S v j z mz fuel r c n F1 S1 :
  numbering_consistent P F S ->
  cast_chain (AddressSpace P) F j z v = true -> AllPtrNumbering S !! z = Some mz ->
  FindBaseValue_loop fuel (AddressSpace P) F S true v = Some (r, c) ->
  Number_at fuel P F S v r = Ok (n, F1, S1) ->
  mz = n.
Proof.
  intros Hinv Hc Hz Hw Hn.
  assert (resolves P F S v mz) as (fuel' & r' & c' & Hw' & Hst).
  { destruct j as [|j].
    - pose proof (cast_chain_special _ _ _ _ Hc) as Hty.
      simpl in Hc. apply andb_true_iff in Hc as [_ ->%bool_decide_eq_true].
      exists 1%nat, v, true. split.
      + apply FindBaseValue_loop_cached.
        rewrite isCached_pointer by by eapply isSpecialPtr_isPointerTy.
        apply bool_decide_eq_true. rewrite Hz. by eexists.
      + intros fuel' V n' F' S' H. rewrite (Number_at_cached P F S fuel' V v mz Hz) in H.
        by injection H as <- _ _.
    - pose proof (cast_chain_special _ _ _ _ Hc) as Hty.
      simpl in Hc. apply andb_true_iff in Hc as [_ Hc].
      destruct (cast_operand F z) as [x|] eqn:Hx; [|done].
      apply (chain_resolves P F S j x v mz Hinv Hc).
      apply (Hinv z mz x Hz); [by eapply isSpecialPtr_isPointerTy|].
      by apply cast_operand_base_step. }
  pose proof (FindBaseValue_loop_det _ _ _ _ _ _ _ _ Hw Hw') as [= <- <-].
  symmetry. by eapply Hst.
Qed.

Lemma cast_chain_bottom F k w v :
  cast_chain (AddressSpace P) F k w v = true -> isSpecialPtr (AddressSpace P) (getType F v) = true.
Proof.
  revert w. induction k as [|k IH]; intros w Hc; simpl in Hc.
  - by apply andb_true_iff in Hc as [Hs ->%bool_decide_eq_true].
  - apply andb_true_iff in Hc as [_ Hc].
    destruct (cast_operand F w); [by eapply IH|done].
Qed.

Lemma cast_chain_extends F F1 k w v :
  fresh F -> extends F F1 -> cast_chain (AddressSpace P) F k w v = true -> cast_chain (AddressSpace P) F1 k w v = true.
Proof.
  intros Hf He. revert w. induction k as [|k IH]; intros w Hc;
    pose proof (cast_chain_special _ _ _ _ Hc) as Hty;
    destruct (extends_get F F1 w Hf He (special_exists _ _ Hty)) as [HK HT];
    simpl in *; rewrite HT, Hty; simpl.
  - by apply andb_true_iff in Hc as [_ Hc].
  - apply andb_true_iff in Hc as [_ Hc]. unfold cast_operand in *. rewrite HK.
    destruct (getKind F w); try done; by apply IH.
Qed.
End BaseInvariance.

(** In a state whose cache is consistent, when Number gives the
    identifier [n] to a pointer [v] of a special address space, it then
    gives [n] to every value [w] obtained from [v] by a chain of [k]
    bitcasts and GEPs ([k] more turns of the search suffice), and leaves
    the function and the state as they are. *)
Lemma base_invariance_forward (P : LateLowerGCFrame) (F : Function) (S : State) (fuel k : nat)
    (v w : Value) (n : Z) (F1 : Function) (S1 : State) :
  fresh F -> numbering_consistent P F S ->
  cast_chain (AddressSpace P) F k w v = true ->
  Number fuel P F S v = Ok (n, F1, S1) ->
  Number (fuel + k) P F1 S1 w = Ok (n, F1, S1).
Proof.
  intros Hf Hinv Hc HN.
  destruct (Number_inv P _ _ _ _ _ _ _ HN) as (r & c & Hw & Hb & Hat).
  assert (1 <= fuel)%nat as Hfuel by (destruct fuel; [done|lia]).
  destruct (Number_at_effect P _ _ _ _ _ _ _ _ Hat) as [(Hr & -> & ->)|(He & Hv & Hg)].
  - pose proof (cast_chain_special P _ _ _ _ Hc) as Hty.
    destruct (chain_walk P F F S v k w fuel Hf (extends_refl F) Hc)
      as [Hwalk|(z & j & mz & Hcz & Hz & Hwalk)].
    + rewrite Hw in Hwalk.
      rewrite (Number_of_walk P _ _ _ _ r c Hty Hwalk Hb). by apply Number_at_cached.
    + rewrite (Number_of_walk P _ _ _ _ z true Hty Hwalk); [|done].
      rewrite (Number_at_cached P F S _ w z mz Hz).
      by rewrite (chain_cached_number P F S v j z mz fuel r c n F S Hinv Hcz Hz Hw Hat).
  - pose proof (cast_chain_extends P F F1 k w v Hf He Hc) as Hc1.
    pose proof (cast_chain_special P _ _ _ _ Hc1) as Hty.
    assert (FindBaseValue_loop 1 (AddressSpace P) F1 S1 true v = Some (v, true)) as Hv1.
    { apply FindBaseValue_loop_cached. rewrite isCached_pointer.
      - apply bool_decide_eq_true. rewrite Hv. by eexists.
      - apply (isSpecialPtr_isPointerTy (AddressSpace P)).
        by apply (cast_chain_bottom P F1 k w v). }
    destruct (chain_walk P F F1 S1 v k w 1 Hf He Hc)
      as [Hwalk|(z & j & mz & Hcz & Hz & Hwalk)].
    + rewrite Hv1 in Hwalk.
      apply (FindBaseValue_loop_mono _ _ _ _ (fuel + k)) in Hwalk; [|lia].
      rewrite (Number_of_walk P _ _ _ _ v true Hty Hwalk); [|done].
      by apply Number_at_cached.
    + apply (FindBaseValue_loop_mono _ _ _ _ (fuel + k)) in Hwalk; [|lia].
      rewrite (Number_of_walk P _ _ _ _ z true Hty Hwalk); [|done].
      rewrite (Number_at_cached P F1 S1 _ w z mz Hz).
      destruct (Hg z mz Hz) as [Hold| ->]; [|done].
      by rewrite (chain_cached_number P F S v j z mz fuel r c n F1 S1 Hinv Hcz Hold Hw Hat).
Qed.

(** The cache of the initial state, which is empty, is consistent. *)
Lemma numbering_consistent_init P F : numbering_consistent P F State_init.
Proof. intros x m y H. unfold State_init in H. simpl in H. by rewrite lookup_empty in H. Qed.

Lemma numbering_consistent_b_sound fuel P F S :
  numbering_consistent_b fuel P F S = true -> numbering_consistent P F S.
Proof.
  intros H x m y Hx Hty Hs. unfold numbering_consistent_b in H.
  rewrite forallb_forall in H. specialize (H (x, m)). simpl in H.
  rewrite Hty, Hs in H.
  destruct (FindBaseValue_loop fuel (AddressSpace P) F S true y) as [[r c]|] eqn:Hw.
  - exists fuel, r, c. split; [done|]. intros fuel' V n F' S' HN.
    assert (AllPtrNumbering S !! r = Some m) as Hr.
    { apply (bool_decide_eq_true_1 _), H, list_elem_of_In, elem_of_map_to_list, Hx. }
    rewrite (Number_at_cached P F S fuel' V r m Hr) in HN. by injection HN as <- _ _.
  - assert (false = true) as Hf; [|done].
    apply H, list_elem_of_In, elem_of_map_to_list, Hx.
Qed.

Lemma fresh_b_sound F : fresh_b F = true -> fresh F.
Proof.
  intros H v [vi Hv]. unfold fresh_b in H. rewrite forallb_forall in H.
  specialize (H (v, vi)). simpl in H. apply Nat.ltb_lt, H.
  apply list_elem_of_In, elem_of_map_to_list, Hv.
Qed.

(** ** The search of the base value in an extended function *)

Section WalkExtends.
Variable A : AddressSpaces.
Variables F F1 : Function.
Hypothesis Hclosed : closed F.
Hypothesis Hext : extends F F1.

Lemma below_get (y : Value) :
  (y < next_value F)%nat -> getKind F1 y = getKind F y /\ getType F1 y = getType F y.
Proof. intros Hy. destruct Hext as [_ He]. unfold getKind, getType. by rewrite He. Qed.

Lemma operand_below (y o : Value) :
  o ∈ operands (getKind F y) -> (o < next_value F)%nat.
Proof.
  unfold getKind. destruct (values F !! y) as [vi|] eqn:Hy.
  - by apply (Hclosed y vi).
  - simpl. by intros ?%elem_of_nil.
Qed.

Lemma base_step_below y y' : base_step A F y = Some y' -> (y' < next_value F)%nat.
Proof.
  intros H. apply (operand_below y). unfold base_step in H.
  destruct (getKind F y); simpl; try done.
  - injection H as <-. by left.
  - destruct (_ =? _); [done|]. injection H as <-. by left.
  - injection H as <-. by left.
  - destruct (isUnionRep _ _); [|done]. injection H as <-. by left.
Qed.

Lemma base_step_extends y :
  (y < next_value F)%nat -> base_step A F1 y = base_step A F y.
Proof.
  intros Hy. destruct (below_get y Hy) as [HK HT]. unfold base_step. rewrite HK.
  destruct (getKind F y) eqn:E; try done.
  - assert (op < next_value F)%nat as Ho by (apply (operand_below y); rewrite E; by left).
    unfold getValueAddrSpace. by destruct (below_get op Ho) as [_ ->].
  - assert (agg < next_value F)%nat as Ho by (apply (operand_below y); rewrite E; by left).
    by destruct (below_get agg Ho) as [_ ->].
Qed.

(** The search without the cache is the same in the extended function. *)
Lemma walk_nocache_extends S S1 fuel y :
  (y < next_value F)%nat ->
  FindBaseValue_loop fuel A F1 S1 false y = FindBaseValue_loop fuel A F S false y.
Proof.
  revert y. induction fuel as [|fuel IH]; intros y Hy; [done|]. simpl.
  rewrite base_step_extends by done.
  destruct (base_step A F y) as [y'|] eqn:E; [|done].
  apply IH. by eapply base_step_below.
Qed.

Lemma walk_below S b fuel y r c :
  (y < next_value F)%nat ->
  FindBaseValue_loop fuel A F S b y = Some (r, c) -> (r < next_value F)%nat.
Proof.
  revert y. induction fuel as [|fuel IH]; intros y Hy; [done|]. simpl.
  destruct (b && isCached F S y); [by intros [= <- _]|].
  destruct (base_step A F y) as [y'|] eqn:E; [|by intros [= <- _]].
  apply IH. by eapply base_step_below.
Qed.

Lemma FindBaseValue_nocache_extends S S1 fuel y :
  (y < next_value F)%nat ->
  FindBaseValue fuel A F1 S1 y false = FindBaseValue fuel A F S y false.
Proof.
  intros Hy. unfold FindBaseValue. rewrite (walk_nocache_extends S S1) by done.
  destruct (FindBaseValue_loop fuel A F S false y) as [[r c]|] eqn:E; [|done].
  apply walk_below in E; [|done]. by destruct (below_get r E) as [-> _].
Qed.

(** The search with a cache that has grown by entries for [n]: it ends
    where it ended, or earlier at a value cached with [n]. *)
Lemma walk_grown S S1 n fuel (y r : Value) c :
  cache_kept F S S1 -> cache_grown S S1 n ->
  AllVectorNumbering S1 = AllVectorNumbering S ->
  (y < next_value F)%nat ->
  FindBaseValue_loop fuel A F S true y = Some (r, c) ->
  exists r2 c2,
    FindBaseValue_loop fuel A F1 S1 true y = Some (r2, c2) /\
    ((r2 = r /\ c2 = c) \/ (c2 = true /\ AllPtrNumbering S1 !! r2 = Some n)).
Proof.
  intros Hk Hg HV. revert y. induction fuel as [|fuel IH]; intros y Hy; [done|].
  rewrite !FindBaseValue_loop_eq.
  destruct (below_get y Hy) as [HK HT].
  unfold isCached. rewrite HT, HV.
  destruct (isPointerTy (getType F y)) eqn:Hp.
  - destruct (AllPtrNumbering S !! y) as [m|] eqn:Hm.
    + rewrite (Hk y m Hy Hm). rewrite !bool_decide_eq_true_2 by by eexists.
      intros [= <- <-]. exists y, true. split; [done|]. by left.
    + rewrite (bool_decide_eq_false_2 (is_Some None)) by by intros [? ?].
      destruct (AllPtrNumbering S1 !! y) as [m1|] eqn:Hm1.
      * rewrite bool_decide_eq_true_2 by by eexists. intros _.
        exists y, true. split; [done|]. right. split; [done|].
        destruct (Hg y m1 Hm1) as [H| ->]; [congruence|done].
      * rewrite (bool_decide_eq_false_2 (is_Some None)) by by intros [? ?].
        rewrite base_step_extends by done.
        destruct (base_step A F y) as [y'|] eqn:E.
        -- apply IH. by eapply base_step_below.
        -- intros [= <- <-]. exists y, false. split; [done|]. by left.
  - destruct (bool_decide _).
    + intros [= <- <-]. exists y, true. split; [done|]. by left.
    + rewrite base_step_extends by done.
      destruct (base_step A F y) as [y'|] eqn:E.
      * apply IH. by eapply base_step_below.
      * intros [= <- <-]. exists y, false. split; [done|]. by left.
Qed.
End WalkExtends.

Section NoCacheWalk.
Variable A : AddressSpaces.
Variable F : Function.
Variable S : State.

Lemma walk_nocache_S fuel y res :
  FindBaseValue_loop fuel A F S false y = Some res ->
  FindBaseValue_loop (Datatypes.S fuel) A F S false y = Some res.
Proof.
  revert y. induction fuel as [|fuel IH]; intros y; [done|].
  change (FindBaseValue_loop (Datatypes.S (Datatypes.S fuel)) A F S false y)
    with (match base_step A F y with
          | Some V' => FindBaseValue_loop (Datatypes.S fuel) A F S false V'
          | None => Some (y, false)
          end).
  change (FindBaseValue_loop (Datatypes.S fuel) A F S false y)
    with (match base_step A F y with
          | Some V' => FindBaseValue_loop fuel A F S false V'
          | None => Some (y, false)
          end).
  destruct (base_step A F y); [by apply IH|done].
Qed.

Lemma walk_nocache_mono fuel fuel' y res :
  (fuel <= fuel')%nat ->
  FindBaseValue_loop fuel A F S false y = Some res ->
  FindBaseValue_loop fuel' A F S false y = Some res.
Proof.
  induction 1 as [|fuel' _ IH]; [done|]. intros H. by apply walk_nocache_S, IH.
Qed.

Lemma FindBaseValue_nocache_det fuel fuel' y x x' :
  FindBaseValue fuel A F S y false = Ok x ->
  FindBaseValue fuel' A F S y false = Ok x' -> x = x'.
Proof.
  unfold FindBaseValue.
  destruct (FindBaseValue_loop fuel A F S false y) as [[r c]|] eqn:E; [|done].
  destruct (FindBaseValue_loop fuel' A F S false y) as [[r' c']|] eqn:E'; [|done].
  apply (walk_nocache_mono _ (Nat.max fuel fuel')) in E; [|lia].
  apply (walk_nocache_mono _ (Nat.max fuel fuel')) in E'; [|lia].
  assert (r' = r /\ c' = c) as [-> ->] by (split; congruence).
  destruct c.
  - by intros [= <-] [= <-].
  - destruct (assert _ _); bind_ok; [|done..]. by intros [= <-] [= <-].
Qed.
End NoCacheWalk.

Section LiftSelectCases.
Variable A : AddressSpaces.

Lemma extends_AS F F' (y : Value) :
  extends F F' -> (y < next_value F)%nat ->
  getType F' y = getType F y /\ getValueAddrSpace F' y = getValueAddrSpace F y.
Proof.
  intros [_ He] Hy. unfold getValueAddrSpace, getType. by rewrite He.
Qed.

Lemma MaybeExtractUnion_AS F Val pos :
  (Val < next_value F)%nat ->
  extends F (MaybeExtractUnion A F Val pos).1 /\
  ((MaybeExtractUnion A F Val pos).2 < next_value (MaybeExtractUnion A F Val pos).1)%nat /\
  getValueAddrSpace (MaybeExtractUnion A F Val pos).1 (MaybeExtractUnion A F Val pos).2
    = extractedAddrSpace A F Val.
Proof.
  intros HV. split; [apply extends_MaybeExtractUnion|].
  unfold MaybeExtractUnion, extractedAddrSpace.
  destruct (isUnionRep A (getType F Val)); [|done].
  destruct (createBefore_lookup F pos (ExtractValueInst Val [0%nat])
              (firstElementType (getType F Val))) as (-> & -> & Hl).
  split; [lia|]. unfold getValueAddrSpace. unfold getType at 1. by rewrite Hl.
Qed.

Lemma extractedAddrSpace_extends F F' (y : Value) :
  extends F F' -> (y < next_value F)%nat ->
  extractedAddrSpace A F' y = extractedAddrSpace A F y.
Proof.
  intros He Hy. unfold extractedAddrSpace. by destruct (extends_AS F F' y He Hy) as [-> _].
Qed.

(** LiftSelect gives -1 and leaves the state when neither base is tracked,
    and caches the select otherwise. *)
Lemma LiftSelect_cases fuel F S (SI : Value) n F' S' :
  (forall y x, y ∈ operands (getKind F SI) ->
               FindBaseValue fuel A F S y false = Ok x -> (x < next_value F)%nat) ->
  LiftSelect fuel A F S SI = Ok (n, F', S') ->
  exists C T Fv TB FB,
    getKind F SI = SelectInst C T Fv /\
    FindBaseValue fuel A F S T false = Ok TB /\
    FindBaseValue fuel A F S Fv false = Ok FB /\
    AllVectorNumbering S' = AllVectorNumbering S /\
    (forall (z : Value) m, (z < next_value F)%nat -> z <> SI ->
       AllPtrNumbering S !! z = Some m -> AllPtrNumbering S' !! z = Some m) /\
    ((negb (extractedAddrSpace A F TB =? Tracked A)
      && negb (extractedAddrSpace A F FB =? Tracked A) = true /\ n = -1 /\ S' = S) \/
     (negb (extractedAddrSpace A F TB =? Tracked A)
      && negb (extractedAddrSpace A F FB =? Tracked A) = false /\
      AllPtrNumbering S' !! SI = Some n)).
Proof.
  intros Hb. unfold LiftSelect. destruct (getKind F SI) as [| | | | | | | |C T Fv| | | | | | | | | | | | |] eqn:HK;
    try done.
  destruct (FindBaseValue fuel A F S T false) as [TB| |] eqn:ET; bind_ok; [|done..].
  destruct (FindBaseValue fuel A F S Fv false) as [FB| |] eqn:EF; [|done..].
  assert (TB < next_value F)%nat as HTB.
  { apply (Hb T); [|done]. simpl. right. by left. }
  assert (FB < next_value F)%nat as HFB.
  { apply (Hb Fv); [|done]. simpl. right. right. by left. }
  destruct (MaybeExtractUnion_AS F TB SI HTB) as (He1 & Hlt1 & HAS1).
  destruct (MaybeExtractUnion A F TB SI) as [F1 TB']. simpl in He1, Hlt1, HAS1.
  assert (FB < next_value F1)%nat as HFB1 by (destruct He1; lia).
  destruct (MaybeExtractUnion_AS F1 FB SI HFB1) as (He2 & Hlt2 & HAS2).
  destruct (MaybeExtractUnion A F1 FB SI) as [F2 FB']. simpl in He2, Hlt2, HAS2.
  rewrite (extractedAddrSpace_extends F F1 FB He1 HFB) in HAS2.
  destruct (extends_AS F1 F2 TB' He2 Hlt1) as [_ HAS1'].
  rewrite HAS1 in HAS1'. rewrite HAS1'.
  intros H. exists C, T, Fv, TB, FB. split; [done|]. split; [done|]. split; [done|].
  revert H.
  destruct (Z.eqb_spec (extractedAddrSpace A F TB) (Tracked A)) as [HT|HT]; cbn [negb andb].
  - (* the true base is tracked *)
    match goal with |- context [if ?b then addValue F2 ?k ?t else _] =>
      assert (exists F4 FB4, (if b then addValue F2 k t else (F2, FB')) = (F4, FB4) /\
                              extends F2 F4) as (F4 & FB4 & -> & He4)
    end.
    { destruct (negb _); eexists _, _; (split; [reflexivity|]);
        [apply extends_addValue|apply extends_refl]. }
    destruct (extends_AS F2 F4 TB' He4) as [_ ->]; [destruct He2; lia|].
    rewrite HAS1'. rewrite (proj2 (Z.eqb_eq _ _) HT). cbn [negb].
    intros [= <- <- <-]. simpl. split; [done|]. split.
    + intros z m Hz Hne Hm. rewrite lookup_insert_ne.
      * rewrite lookup_insert_ne by done. done.
      * destruct He1, He2, He4. lia.
    + right. split; [done|]. rewrite lookup_insert. case_decide; [done|].
      apply lookup_insert_eq.
  - (* the true base is replaced by a null pointer of the type of the false base *)
    pose proof (extends_addValue F2 ConstantPointerNull (getType F2 FB')) as He3.
    destruct (addValue F2 ConstantPointerNull (getType F2 FB')) as [F3 TB3] eqn:E3.
    simpl in He3.
    assert (getValueAddrSpace F3 TB3 = extractedAddrSpace A F FB /\ (TB3 < next_value F3)%nat)
      as [HAS3 Hlt3].
    { unfold addValue in E3. injection E3 as <- <-. simpl. split; [|lia].
      unfold getValueAddrSpace at 1. unfold getType at 1. simpl.
      rewrite lookup_insert_eq. simpl. apply HAS2. }
    destruct (extends_AS F2 F3 FB' He3 Hlt2) as [_ HASF].
    rewrite HASF, HAS2.
    match goal with |- context [if ?b then addValue F3 ?k ?t else _] =>
      assert (exists F4 FB4, (if b then addValue F3 k t else (F3, FB')) = (F4, FB4) /\
                              extends F3 F4) as (F4 & FB4 & -> & He4)
    end.
    { destruct (negb _); eexists _, _; (split; [reflexivity|]);
        [apply extends_addValue|apply extends_refl]. }
    destruct (extends_AS F3 F4 TB3 He4 Hlt3) as [_ ->]. rewrite HAS3.
    destruct (Z.eqb_spec (extractedAddrSpace A F FB) (Tracked A)) as [HF|HF]; cbn [negb andb].
    + intros [= <- <- <-]. simpl. split; [done|]. split.
      * intros z m Hz Hne Hm. rewrite lookup_insert_ne.
        -- rewrite lookup_insert_ne by done. done.
        -- destruct He1, He2, He3, He4. lia.
      * right. split; [done|]. rewrite lookup_insert. case_decide; [done|].
        apply lookup_insert_eq.
    + intros [= <- <- <-]. split; [done|]. split; [done|]. by left.
Qed.
End LiftSelectCases.

(** ** Numbering a value after a value above it *)

Section NumberUncached.
Variable P : LateLowerGCFrame.

Lemma LiftPhi_kept fuel F S (Phi : Value) n F' S' :
  LiftPhi fuel P F S Phi = Ok (n, F', S') ->
  AllVectorNumbering S' = AllVectorNumbering S /\
  (forall (z : Value) m, (z < next_value F)%nat -> z <> Phi ->
     AllPtrNumbering S !! z = Some m -> AllPtrNumbering S' !! z = Some m) /\
  AllPtrNumbering S' !! Phi = Some n.
Proof.
  unfold LiftPhi. destruct (getKind F Phi); try done.
  destruct (T_prjlvalue P) as [T|]; [|done].
  pose proof (createBefore_lookup F Phi (PHINode []) T) as (Hl & _).
  destruct (createBefore F Phi (PHINode []) T) as [F1 lift]. simpl in Hl. subst lift.
  destruct (LiftPhi_incoming _ _ _ _ _ _ _) as [[F2 lifted]| |] eqn:E; bind_ok; [|done..].
  intros [= <- <- <-]. simpl. split; [done|]. split.
  - intros z m Hz Hne Hm. rewrite lookup_insert_ne by lia. by rewrite lookup_insert_ne.
  - rewrite lookup_insert. case_decide; [done|]. apply lookup_insert_eq.
Qed.

(** Numbering a base value that is not in the cache: the entries of the
    cache stay, and the base value is cached, unless it is a select that
    LiftSelect has found rooted. *)
Lemma Number_at_uncached fuel F S (V r : Value) n F1 S1 :
  (forall y x, y ∈ operands (getKind F r) ->
               FindBaseValue fuel (AddressSpace P) F S y false = Ok x ->
               (x < next_value F)%nat) ->
  AllPtrNumbering S !! r = None -> AllPtrNumbering S !! V = None ->
  Number_at fuel P F S V r = Ok (n, F1, S1) ->
  cache_kept F S S1 /\ AllVectorNumbering S1 = AllVectorNumbering S /\
  (AllPtrNumbering S1 !! r = Some n \/
   (n = -1 /\ MaxPtrNumber S1 = MaxPtrNumber S /\
    is_rooted_in_parent (AddressSpace P) F r = false /\
    isSelect (getKind F r)
      && negb (getValueAddrSpace F r =? Tracked (AddressSpace P)) = true /\
    exists C T Fv TB FB,
      getKind F r = SelectInst C T Fv /\
      FindBaseValue fuel (AddressSpace P) F S T false = Ok TB /\
      FindBaseValue fuel (AddressSpace P) F S Fv false = Ok FB /\
      negb (extractedAddrSpace (AddressSpace P) F TB =? Tracked (AddressSpace P))
      && negb (extractedAddrSpace (AddressSpace P) F FB =? Tracked (AddressSpace P)) = true)).
Proof.
  intros Hb Hr HV. unfold Number_at. rewrite Hr.
  destruct (is_rooted_in_parent _ _ _) eqn:Hroot.
  { intros [= <- <- <-]. simpl. split; [|split; [done|]].
    - intros z m Hz Hm. simpl. assert (z <> r) by congruence. assert (z <> V) by congruence.
      by rewrite !lookup_insert_ne.
    - left. apply lookup_insert_eq. }
  destruct (isSelect _ && _) eqn:Hsel.
  { destruct (LiftSelect _ _ _ _ _) as [[[n' F'] S']| |] eqn:E; bind_ok; [|done..].
    intros [= <- <- <-].
    apply LiftSelect_cases in E as (C & T & Fv & TB & FB & HK & HT & HF & HVec & Hkept & Hcase);
      [|done].
    simpl. split; [|split; [done|]].
    - intros z m Hz Hm. simpl. assert (z <> r) by congruence. assert (z <> V) by congruence.
      rewrite lookup_insert_ne by done. by apply Hkept.
    - destruct (decide (V = r)) as [->|Hne].
      { left. apply lookup_insert_eq. }
      rewrite lookup_insert_ne by done.
      destruct Hcase as [(Hc & -> & ->)|[Hc Hn]]; [|by left].
      right. split; [done|]. split; [done|]. split; [done|]. split; [done|].
      by exists C, T, Fv, TB, FB. }
  destruct (isPHI _ && _).
  { destruct (LiftPhi _ _ _ _ _) as [[[n' F'] S']| |] eqn:E; bind_ok; [|done..].
    intros [= <- <- <-]. apply LiftPhi_kept in E as (HVec & Hkept & Hn).
    simpl. split; [|split; [done|]].
    - intros z m Hz Hm. simpl. assert (z <> r) by congruence. assert (z <> V) by congruence.
      rewrite lookup_insert_ne by done. by apply Hkept.
    - left. rewrite lookup_insert. by case_decide. }
  destruct (isExtractValue _ && _); [done|].
  destruct (assert _ _); bind_ok; [|done..].
  intros [= <- <- <-]. simpl. split; [|split; [done|]].
  - intros z m Hz Hm. simpl. assert (z <> r) by congruence. assert (z <> V) by congruence.
    by rewrite !lookup_insert_ne.
  - left. apply lookup_insert_eq.
Qed.

(** A select that LiftSelect has found rooted is found rooted again in an
    extension of the function. *)
Lemma Number_at_rooted_again fuel fuel' F F1 S S1 (V r : Value) C T Fv TB FB n' F2 S2 :
  closed F -> extends F F1 -> (r < next_value F)%nat ->
  is_rooted_in_parent (AddressSpace P) F r = false ->
  isSelect (getKind F r)
    && negb (getValueAddrSpace F r =? Tracked (AddressSpace P)) = true ->
  getKind F r = SelectInst C T Fv ->
  FindBaseValue fuel (AddressSpace P) F S T false = Ok TB ->
  FindBaseValue fuel (AddressSpace P) F S Fv false = Ok FB ->
  negb (extractedAddrSpace (AddressSpace P) F TB =? Tracked (AddressSpace P))
  && negb (extractedAddrSpace (AddressSpace P) F FB =? Tracked (AddressSpace P)) = true ->
  AllPtrNumbering S1 !! r = None ->
  Number_at fuel' P F1 S1 V r = Ok (n', F2, S2) -> n' = -1.
Proof.
  intros Hc He Hr Hroot Hsel HK HT HF Hcond Hun.
  destruct (below_get F F1 He r Hr) as [HK1 HT1].
  destruct (extends_AS F F1 r He Hr) as [_ HAS1].
  assert (forall y, y ∈ operands (getKind F r) -> (y < next_value F)%nat) as Hop.
  { intros y. by apply operand_below. }
  assert (forall y x, y ∈ operands (getKind F r) ->
            FindBaseValue fuel' (AddressSpace P) F1 S1 y false = Ok x ->
            FindBaseValue fuel' (AddressSpace P) F S y false = Ok x /\ (x < next_value F)%nat)
    as Hwalk.
  { intros y x Hy Hx.
    rewrite (FindBaseValue_nocache_extends (AddressSpace P) F F1 Hc He S S1) in Hx
      by by apply Hop.
    split; [done|]. unfold FindBaseValue in Hx.
    destruct (FindBaseValue_loop fuel' (AddressSpace P) F S false y) as [[x' c]|] eqn:E;
      [|done].
    apply (walk_below (AddressSpace P) F Hc) in E; [|by apply Hop].
    destruct c; [by injection Hx as <-|].
    destruct (assert _ _); [|done..]. by injection Hx as <-. }
  unfold Number_at. rewrite Hun.
  unfold is_rooted_in_parent in *. rewrite HK1, HAS1, Hroot, Hsel.
  destruct (LiftSelect _ _ _ _ _) as [[[n'' F''] S'']| |] eqn:E; bind_ok; [|done..].
  intros [= <- _ _].
  apply LiftSelect_cases in E as (C' & T' & Fv' & TB' & FB' & HK' & HT' & HF' & _ & _ & Hcase).
  - rewrite HK1, HK in HK'. injection HK' as <- <- <-.
    apply Hwalk in HT' as [HT' HTB]; [|rewrite HK; simpl; right; by left].
    apply Hwalk in HF' as [HF' HFB]; [|rewrite HK; simpl; right; right; by left].
    pose proof (FindBaseValue_nocache_det _ _ _ _ _ _ _ _ HT HT') as <-.
    pose proof (FindBaseValue_nocache_det _ _ _ _ _ _ _ _ HF HF') as <-.
    rewrite !(extractedAddrSpace_extends (AddressSpace P) F F1) in Hcase by done.
    rewrite Hcond in Hcase. by destruct Hcase as [(_ & -> & _)|[? _]].
  - intros y x Hy Hx. rewrite HK1 in Hy. apply Hwalk in Hx as [_ Hx]; [|done].
    destruct He. lia.
Qed.
End NumberUncached.

Section Backward.
Variable P : LateLowerGCFrame.

Lemma special_below F (w : Value) :
  fresh F -> isSpecialPtr (AddressSpace P) (getType F w) = true -> (w < next_value F)%nat.
Proof. intros Hf Hty. by apply Hf, (special_exists P). Qed.

Lemma FindBaseValue_below F S fuel (y x : Value) b :
  closed F -> (y < next_value F)%nat ->
  FindBaseValue fuel (AddressSpace P) F S y b = Ok x -> (x < next_value F)%nat.
Proof.
  intros Hc Hy. unfold FindBaseValue.
  destruct (FindBaseValue_loop fuel (AddressSpace P) F S b y) as [[x' c]|] eqn:E; [|done].
  apply (walk_below (AddressSpace P) F Hc) in E; [|done].
  destruct c; [by intros [= <-]|].
  destruct (assert _ _); bind_ok; [|done..]. by intros [= <-].
Qed.

(** When Number has given the identifier [n] to the top [w] of a chain of
    casts above [v], it gives [n] to [v] whenever it gives it an
    identifier; and when the identifier of [w] was a new one, it gives [n]
    to [v] and leaves the function and the state as they are. *)
Lemma base_invariance_backward F S fuel k (v w : Value) n F1 S1 :
  fresh F -> closed F -> numbering_consistent P F S ->
  cast_chain (AddressSpace P) F k w v = true ->
  Number fuel P F S w = Ok (n, F1, S1) ->
  (forall fuel' n' F2 S2, Number fuel' P F1 S1 v = Ok (n', F2, S2) -> n' = n) /\
  (MaxPtrNumber S < MaxPtrNumber S1 -> Number fuel P F1 S1 v = Ok (n, F1, S1)).
Proof.
  intros Hf Hc Hinv Hch HN.
  destruct (Number_inv P _ _ _ _ _ _ _ HN) as (r & c & Hw & Hb & Hat).
  pose proof (special_below F w Hf (cast_chain_special P _ _ _ _ Hch)) as Hwlt.
  pose proof (cast_chain_bottom P _ _ _ _ Hch) as Hvty.
  pose proof (special_below F v Hf Hvty) as Hvlt.
  assert (FindBaseValue_loop (fuel + k) (AddressSpace P) F S true w = Some (r, c)) as Hw'.
  { eapply FindBaseValue_loop_mono; [|done]. lia. }
  destruct (chain_walk P F F S v k w fuel Hf (extends_refl F) Hch)
    as [Hwv|(z & j & mz & Hchz & Hz & Hwz)].
  2:{ (* the search from [w] ends at a cached value of the chain *)
    rewrite Hw' in Hwz. injection Hwz as -> ->.
    rewrite (Number_at_cached P F S fuel w z mz Hz) in Hat. injection Hat as <- <- <-.
    split; [|lia]. intros fuel' n' F2 S2 HN2.
    destruct (Number_inv P _ _ _ _ _ _ _ HN2) as (r2 & c2 & Hw2 & _ & Hat2).
    symmetry. by eapply (chain_cached_number P F S v j z mz). }
  rewrite Hw' in Hwv. symmetry in Hwv.
  destruct (AllPtrNumbering S !! r) as [m|] eqn:Hr.
  { (* the search passes [v] and ends at a cached value *)
    rewrite (Number_at_cached P F S fuel w r m Hr) in Hat. injection Hat as <- <- <-.
    split; [|lia]. intros fuel' n' F2 S2 HN2.
    destruct (Number_inv P _ _ _ _ _ _ _ HN2) as (r2 & c2 & Hw2 & _ & Hat2).
    pose proof (FindBaseValue_loop_det _ _ _ _ _ _ _ _ Hwv Hw2) as [= <- <-].
    rewrite (Number_at_cached P F S fuel' v r m Hr) in Hat2. by injection Hat2 as <- _ _. }
  (* the search passes [v] and ends at a value that is then numbered *)
  assert (AllPtrNumbering S !! w = None) as Hwun.
  { destruct (AllPtrNumbering S !! w) as [mw|] eqn:E; [|done].
    destruct fuel as [|fuel]; [done|].
    rewrite FindBaseValue_loop_cached in Hw.
    - injection Hw as <- <-. congruence.
    - rewrite isCached_pointer
        by (eapply isSpecialPtr_isPointerTy, cast_chain_special; done).
      apply bool_decide_eq_true. rewrite E. by eexists. }
  pose proof (walk_below (AddressSpace P) F Hc S true fuel w r c Hwlt Hw) as Hrlt.
  destruct (Number_at_effect P _ _ _ _ _ _ _ _ Hat) as [(Hr' & _)|(He & HwS1 & Hg)];
    [congruence|].
  destruct (Number_at_uncached P fuel F S w r n F1 S1) as (Hk & HVec & Hdisj); try done.
  { intros y x Hy. apply FindBaseValue_below; [done|]. by apply (operand_below F Hc r). }
  destruct (walk_grown (AddressSpace P) F F1 Hc He S S1 n fuel v r c Hk Hg HVec Hvlt Hwv)
    as (r2' & c2' & Hw1 & Halt).
  destruct (below_get F F1 He r Hrlt) as [HKr HTr].
  split.
  - intros fuel' n' F2 S2 HN2.
    destruct (Number_inv P _ _ _ _ _ _ _ HN2) as (r2 & c2 & Hw2 & _ & Hat2).
    pose proof (FindBaseValue_loop_det _ _ _ _ _ _ _ _ Hw1 Hw2) as [= <- <-].
    destruct Halt as [[-> ->]|[_ Hn]].
    + destruct (AllPtrNumbering S1 !! r) as [m'|] eqn:Hr1.
      * rewrite (Number_at_cached P F1 S1 fuel' v r m' Hr1) in Hat2.
        injection Hat2 as <- _ _. destruct (Hg r m' Hr1) as [?| ->]; [congruence|done].
      * destruct Hdisj as [?|(-> & _ & Hroot & Hsel & C & T & Fv & TB & FB & HK & HT & HF & Hcond)];
          [congruence|].
        by eapply (Number_at_rooted_again P fuel fuel' F F1 S S1 v r).
    + rewrite (Number_at_cached P F1 S1 fuel' v r2' n Hn) in Hat2. by injection Hat2 as <- _ _.
  - intros HM.
    assert (AllPtrNumbering S1 !! r = Some n) as Hr1.
    { destruct Hdisj as [?|(_ & HM' & _)]; [done|lia]. }
    destruct (below_get F F1 He v Hvlt) as [_ HTv].
    rewrite (Number_of_walk P fuel F1 S1 v r2' c2').
    + apply Number_at_cached. by destruct Halt as [[-> _]|[_ ?]].
    + by rewrite HTv.
    + done.
    + intros ->. destruct Halt as [[-> <-]|[? _]]; [|done]. rewrite HKr. by apply Hb.
Qed.
End Backward.

Lemma closed_b_sound F : closed_b F = true -> closed F.
Proof.
  intros H v vi o Hv Ho. unfold closed_b in H. rewrite forallb_forall in H.
  specialize (H (v, vi)). simpl in H. rewrite forallb_forall in H.
  apply Nat.ltb_lt, H; [|by apply list_elem_of_In].
  apply list_elem_of_In, elem_of_map_to_list, Hv.
Qed.

(** In a function whose values and operands lie below the next free
    address and a state whose cache is consistent, let [w] be obtained from
    the pointer [v] of a special address space by a chain of [k] bitcasts
    and GEPs.  When Number gives the identifier [n] to [v], it then gives [n]
    to [w] ([k] more turns of the search suffice) and leaves the function
    and the state as they are.  When Number gives [n] to [w] first, every
    identifier it then gives to [v] is [n]; and when [n] was a new
    identifier, it does give [n] to [v], leaving the function and the state
    as they are. *)
Lemma base_invariance_consistent (P : LateLowerGCFrame) (F : Function) (S : State) (fuel k : nat)
    (v w : Value) (n : Z) (F1 : Function) (S1 : State) :
  fresh F -> closed F -> numbering_consistent P F S ->
  cast_chain (AddressSpace P) F k w v = true ->
  (Number fuel P F S v = Ok (n, F1, S1) -> Number (fuel + k) P F1 S1 w = Ok (n, F1, S1)) /\
  (Number fuel P F S w = Ok (n, F1, S1) ->
   (forall fuel' n' F2 S2, Number fuel' P F1 S1 v = Ok (n', F2, S2) -> n' = n) /\
   (MaxPtrNumber S < MaxPtrNumber S1 -> Number fuel P F1 S1 v = Ok (n, F1, S1))).
Proof.
  intros Hf Hc Hinv Hch. split.
  - by apply (base_invariance_forward P F S fuel k v w n F1 S1).
  - by apply (base_invariance_backward P F S fuel k v w n F1 S1).
Qed.

(** ** The local scan seeds the dataflow *)

(** *** Numbering leaves the block states alone *)

Section NumberingFrame.
Variable P : LateLowerGCFrame.

Lemma LiftSelect_BBStates fuel A F S SI n F' S' :
  LiftSelect fuel A F S SI = Ok (n, F', S') -> BBStates S' = BBStates S.
Proof.
  unfold LiftSelect. destruct (getKind F SI); try done.
  match goal with |- mbind _ ?m = _ -> _ => destruct m as [TrueBase| |] end;
    bind_ok; [|done..].
  match goal with |- match ?m with _ => _ end = _ -> _ => destruct m as [FalseBase| |] end;
    [|done..].
  repeat match goal with |- context [let '(_, _) := ?x in _] => destruct x end.
  destruct (negb _); by intros [= _ _ <-].
Qed.

Lemma LiftPhi_BBStates fuel F S Phi n F' S' :
  LiftPhi fuel P F S Phi = Ok (n, F', S') -> BBStates S' = BBStates S.
Proof.
  unfold LiftPhi. destruct (getKind F Phi); try done.
  destruct (T_prjlvalue P) as [T|]; [|done].
  destruct (createBefore F Phi (PHINode []) T) as [F1 lift].
  destruct (LiftPhi_incoming _ _ _ _ _ _ _) as [[F2 lifted]| |]; bind_ok; [|done..].
  by intros [= _ _ <-].
Qed.

Lemma Number_at_BBStates fuel F S V r n F' S' :
  Number_at fuel P F S V r = Ok (n, F', S') -> BBStates S' = BBStates S.
Proof.
  unfold Number_at. destruct (AllPtrNumbering S !! r); [by intros [= _ _ <-]|].
  destruct (is_rooted_in_parent _ _ _); [by intros [= _ _ <-]|].
  destruct (isSelect _ && _).
  { destruct (LiftSelect _ _ _ _ _) as [[[n' F1] S1]| |] eqn:E; bind_ok; [|done..].
    intros [= _ _ <-]. simpl. by eapply LiftSelect_BBStates. }
  destruct (isPHI _ && _).
  { destruct (LiftPhi _ _ _ _ _) as [[[n' F1] S1]| |] eqn:E; bind_ok; [|done..].
    intros [= _ _ <-]. simpl. by eapply LiftPhi_BBStates. }
  destruct (isExtractValue _ && _); [done|].
  destruct (assert _ _); bind_ok; [|done..]. by intros [= _ _ <-].
Qed.

Lemma Number_BBStates fuel F S V n F' S' :
  Number fuel P F S V = Ok (n, F', S') -> BBStates S' = BBStates S.
Proof.
  unfold Number. destruct (assert _ _); bind_ok; [|done..].
  destruct (FindBaseValue _ _ _ _ _ _); bind_ok; [|done..]. apply Number_at_BBStates.
Qed.

Lemma NumberVector_BBStates fuel F S V Nums S' :
  NumberVector fuel P F S V = Ok (Nums, S') -> BBStates S' = BBStates S.
Proof.
  unfold NumberVector. destruct (AllVectorNumbering S !! V); [by intros [= _ <-]|].
  destruct (FindBaseValue _ _ _ _ _ _) as [r| |]; bind_ok; [|done..].
  destruct (AllVectorNumbering S !! r); [by intros [= _ <-]|].
  match goal with |- match ?m with _ => _ end = _ -> _ =>
    assert (forall S1, m = Ok S1 -> BBStates S1 = BBStates S) as H1;
    [|destruct m as [S1| |]; [|done..]] end.
  { intros S1. destruct (_ || _); [by intros [= <-]|].
    destruct (getKind F r); try (by intros [= <-]); done. }
  specialize (H1 S1 eq_refl).
  destruct (AllVectorNumbering S1 !! r); intros [= _ <-]; done.
Qed.
End NumberingFrame.

Section NumberingRange.
Variable P : LateLowerGCFrame.

Lemma in_range_insert (All : gmap Value Z) (k : Value) (n M : Z) :
  -1 <= n <= M ->
  (forall x m, All !! x = Some m -> -1 <= m <= M) ->
  forall x m, <[k := n]> All !! x = Some m -> -1 <= m <= M.
Proof.
  intros Hn H x m. rewrite lookup_insert. case_decide; [by intros [= <-]|apply H].
Qed.

Lemma in_range_weaken (All : gmap Value Z) (M M' : Z) :
  M <= M' ->
  (forall x m, All !! x = Some m -> -1 <= m <= M) ->
  forall x m, All !! x = Some m -> -1 <= m <= M'.
Proof. intros HM H x m Hx. specialize (H x m Hx). lia. Qed.

Lemma LiftSelect_range fuel A F S SI n F' S' :
  LiftSelect fuel A F S SI = Ok (n, F', S') -> numbering_in_range S ->
  numbering_in_range S' /\ MaxPtrNumber S <= MaxPtrNumber S' /\ -1 <= n <= MaxPtrNumber S'.
Proof.
  intros H HR. pose proof HR as (HM & HP & HV). revert H.
  unfold LiftSelect. destruct (getKind F SI); try done.
  match goal with |- mbind _ ?m = _ -> _ => destruct m as [TrueBase| |] end;
    bind_ok; [|done..].
  match goal with |- match ?m with _ => _ end = _ -> _ => destruct m as [FalseBase| |] end;
    [|done..].
  repeat match goal with |- context [let '(_, _) := ?x in _] => destruct x end.
  destruct (negb _); intros [= <- _ <-].
  - split; [done|]. lia.
  - simpl. split; [|lia]. split; [simpl; lia|]. split; simpl.
    + apply in_range_insert; [lia|]. apply in_range_insert; [lia|].
      eapply in_range_weaken; [|done]. lia.
    + intros x l m Hx Hm. specialize (HV x l m Hx Hm). lia.
Qed.

Lemma LiftPhi_range fuel F S Phi n F' S' :
  LiftPhi fuel P F S Phi = Ok (n, F', S') -> numbering_in_range S ->
  numbering_in_range S' /\ MaxPtrNumber S <= MaxPtrNumber S' /\ -1 <= n <= MaxPtrNumber S'.
Proof.
  intros H HR. pose proof HR as (HM & HP & HV). revert H.
  unfold LiftPhi. destruct (getKind F Phi); try done.
  destruct (T_prjlvalue P) as [T|]; [|done].
  destruct (createBefore F Phi (PHINode []) T) as [F1 lift].
  destruct (LiftPhi_incoming _ _ _ _ _ _ _) as [[F2 lifted]| |]; bind_ok; [|done..].
  intros [= <- _ <-]. simpl. split; [|lia]. split; [simpl; lia|]. split; simpl.
  - apply in_range_insert; [lia|]. apply in_range_insert; [lia|].
    eapply in_range_weaken; [|done]. lia.
  - intros x l m Hx Hm. specialize (HV x l m Hx Hm). lia.
Qed.

Lemma Number_at_range fuel F S V r n F' S' :
  Number_at fuel P F S V r = Ok (n, F', S') -> numbering_in_range S ->
  numbering_in_range S' /\ MaxPtrNumber S <= MaxPtrNumber S' /\ -1 <= n <= MaxPtrNumber S'.
Proof.
  intros H HR. pose proof HR as (HM & HP & HV). revert H. unfold Number_at.
  destruct (AllPtrNumbering S !! r) as [m|] eqn:Hr.
  { intros [= <- _ <-]. specialize (HP r m Hr). split; [done|]. lia. }
  destruct (is_rooted_in_parent _ _ _).
  { intros [= <- _ <-]. simpl. split; [|lia]. split; [done|]. split; [|done]. simpl.
    apply in_range_insert; [lia|]. by apply in_range_insert; [lia|]. }
  destruct (isSelect _ && _).
  { destruct (LiftSelect _ _ _ _ _) as [[[n' F1] S1]| |] eqn:E; bind_ok; [|done..].
    intros [= <- _ <-]. apply LiftSelect_range in E as ((HM1 & HP1 & HV1) & Hle & Hn); [|done].
    simpl. split; [|done]. split; [done|]. split; [|done]. simpl.
    by apply in_range_insert. }
  destruct (isPHI _ && _).
  { destruct (LiftPhi _ _ _ _ _) as [[[n' F1] S1]| |] eqn:E; bind_ok; [|done..].
    intros [= <- _ <-]. apply LiftPhi_range in E as ((HM1 & HP1 & HV1) & Hle & Hn); [|done].
    simpl. split; [|done]. split; [done|]. split; [|done]. simpl.
    by apply in_range_insert. }
  destruct (isExtractValue _ && _); [done|].
  destruct (assert _ _); bind_ok; [|done..].
  intros [= <- _ <-]. simpl. split; [|lia]. split; [simpl; lia|]. split; simpl.
  - apply in_range_insert; [lia|]. apply in_range_insert; [lia|].
    eapply in_range_weaken; [|done]. lia.
  - intros x l m Hx Hm. specialize (HV x l m Hx Hm). lia.
Qed.

Lemma Number_range fuel F S V n F' S' :
  Number fuel P F S V = Ok (n, F', S') -> numbering_in_range S ->
  numbering_in_range S' /\ MaxPtrNumber S <= MaxPtrNumber S' /\ -1 <= n <= MaxPtrNumber S'.
Proof.
  unfold Number. destruct (assert _ _); bind_ok; [|done..].
  destruct (FindBaseValue _ _ _ _ _ _); bind_ok; [|done..]. apply Number_at_range.
Qed.
End NumberingRange.

(** *** What a step of the scan does to the block states *)

Section ScanRel.
Variable P : LateLowerGCFrame.
Variable W : nat.
Hypothesis HW : Z.of_nat W < 2 ^ 32.

Lemma scan_rel_refl BB S : scan_rel W BB S S.
Proof. intros X HX. split; [done|]. intros _. split; [done|]. by intros i. Qed.

Lemma scan_rel_trans BB S1 S2 S3 :
  scan_rel W BB S1 S2 -> scan_rel W BB S2 S3 -> scan_rel W BB S1 S3.
Proof.
  intros H1 H2 X HX. destruct (H1 X HX) as [Hf1 Ho1]. destruct (H2 X Hf1) as [Hf2 Ho2].
  split; [done|]. intros Hne.
  destruct (Ho1 Hne) as [Hl1 Ht1], (Ho2 Hne) as [Hl2 Ht2].
  split; [congruence|]. intros i. destruct (Ht1 i), (Ht2 i). split; congruence.
Qed.

Lemma scan_rel_BBStates BB S S' : BBStates S' = BBStates S -> scan_rel W BB S S'.
Proof.
  intros H X. unfold getBBS. rewrite H. intros HX.
  split; [done|]. intros _. split; [done|]. by intros i.
Qed.

Lemma scan_rel_setBBS BB S Y B' :
  (BBState_fresh W (getBBS S Y) ->
   BBState_fresh W B' /\
   (Y <> BB ->
    LiveIn B' = LiveIn (getBBS S Y) /\
    forall i,
      BV.test (UpExposedUses B') i = BV.test (UpExposedUses (getBBS S Y)) i /\
      BV.test (UpExposedUsesUnrooted B') i = BV.test (UpExposedUsesUnrooted (getBBS S Y)) i)) ->
  scan_rel W BB S (setBBS S Y B').
Proof.
  intros H X HX. rewrite getBBS_setBBS. case_decide as HY.
  - subst X. by apply H.
  - split; [done|]. intros _. split; [done|]. by intros i.
Qed.

Lemma fresh_MaybeResize B Idx :
  0 <= Idx < Z.of_nat W -> BBState_fresh W B -> BBState_fresh W (MaybeResize B Idx).
Proof.
  intros HI (Ha & Hlo & Hui & Hw). unfold MaybeResize. case_match; [|done].
  split; [|split; [done|split; [done|]]]; unfold BBState_aligned, BV.resize; simpl;
    rewrite !length_resize; [done|].
  unfold to_unsigned. rewrite Z.mod_small by lia. split; [lia|apply Hw].
Qed.

Lemma MaybeResize_tests B Idx :
  0 <= Idx < Z.of_nat W -> BBState_aligned B ->
  LiveIn (MaybeResize B Idx) = LiveIn B /\
  forall i,
    BV.test (UpExposedUses (MaybeResize B Idx)) i = BV.test (UpExposedUses B) i /\
    BV.test (UpExposedUsesUnrooted (MaybeResize B Idx)) i = BV.test (UpExposedUsesUnrooted B) i.
Proof.
  intros HI (Ha1 & Ha2 & Ha3 & Ha4). unfold MaybeResize.
  destruct (Z.leb_spec (Z.of_nat (length (Defs B))) Idx) as [Hle|Hgt]; [|done].
  simpl. split; [done|]. intros i. rewrite !BV_test_resize.
  unfold to_unsigned. rewrite Z.mod_small by lia.
  case_decide; [done|]. rewrite !BV_test_ge; [done|lia..].
Qed.

Lemma to_unsigned_small Num : 0 <= Num < Z.of_nat W -> to_unsigned Num = Num.
Proof. intros H. unfold to_unsigned. rewrite Z.mod_small; lia. Qed.

Lemma fresh_setUse B Uses Num :
  0 <= Num < Z.of_nat W -> BBState_fresh W B -> BBState_fresh W (setUse B Uses Num).
Proof.
  intros HN HB. apply (fresh_MaybeResize _ (to_unsigned Num)) in HB;
    [|by rewrite to_unsigned_small].
  destruct HB as ((Ha1 & Ha2 & Ha3 & Ha4) & Hlo & Hui & Hw).
  unfold setUse. destruct Uses; (split; [|done]); unfold BBState_aligned; simpl;
    rewrite ?BV_length_assign; done.
Qed.

Lemma setUse_PhiOuts_tests B Num :
  0 <= Num < Z.of_nat W -> BBState_aligned B ->
  LiveIn (setUse B UsesPhiOuts Num) = LiveIn B /\
  forall i,
    BV.test (UpExposedUses (setUse B UsesPhiOuts Num)) i = BV.test (UpExposedUses B) i /\
    BV.test (UpExposedUsesUnrooted (setUse B UsesPhiOuts Num)) i =
      BV.test (UpExposedUsesUnrooted B) i.
Proof.
  intros HN Ha. unfold setUse. simpl. apply MaybeResize_tests; [|done].
  by rewrite to_unsigned_small.
Qed.

Lemma setUse_rel BB S Y Uses Num :
  Y = BB \/ Uses = UsesPhiOuts -> 0 <= Num < Z.of_nat W ->
  scan_rel W BB S (setBBS S Y (setUse (getBBS S Y) Uses Num)).
Proof.
  intros HY HN. apply scan_rel_setBBS. intros Hf. split; [by apply fresh_setUse|].
  intros Hne. destruct HY as [->| ->]; [done|].
  apply setUse_PhiOuts_tests; [done|apply Hf].
Qed.

Lemma setUses_rel BB Y Uses Nums S :
  Y = BB \/ Uses = UsesPhiOuts ->
  (forall m, m ∈ Nums -> 0 <= m < Z.of_nat W) ->
  scan_rel W BB S (foldl (fun S Num => setBBS S Y (setUse (getBBS S Y) Uses Num)) S Nums).
Proof.
  intros HY. revert S. induction Nums as [|m Nums IH]; intros S Hm; simpl.
  - apply scan_rel_refl.
  - eapply scan_rel_trans; [apply setUse_rel; [done|apply Hm; by left]|].
    apply IH. intros m' Hm'. apply Hm. by right.
Qed.

Lemma NoteDef_rel S BB Num sps S' :
  0 <= Num < Z.of_nat W -> NoteDef S BB Num sps = Ok S' -> scan_rel W BB S S'.
Proof.
  intros HN. unfold NoteDef.
  match goal with |- mbind _ ?m = _ -> _ => destruct m end; bind_ok; [|done..].
  match goal with |- match ?m with _ => _ end = _ -> _ => destruct m end; [|done..].
  intros [= <-].
  eapply scan_rel_trans; [|by apply scan_rel_BBStates].
  apply scan_rel_setBBS. intros Hf. split; [|done].
  apply (fresh_MaybeResize _ (to_unsigned Num)) in Hf; [|by rewrite to_unsigned_small].
  destruct Hf as ((Ha1 & Ha2 & Ha3 & Ha4) & Hlo & Hui & Hw1 & Hw2).
  split; [|simpl; by rewrite BV_length_assign]. unfold BBState_aligned. simpl.
  destruct (HasSafepoint _); rewrite ?BV_length_assign; done.
Qed.

Lemma refine_rel BB S Num R : scan_rel W BB S (refine S Num R).
Proof.
  unfold refine. destruct (R =? -2); [apply scan_rel_refl|]. by apply scan_rel_BBStates.
Qed.

Lemma NoteSafepoint_rel S BB CI : scan_rel W BB S (NoteSafepoint S BB CI).2.
Proof.
  unfold NoteSafepoint. cbv zeta. simpl.
  eapply scan_rel_trans; [|by apply scan_rel_BBStates].
  apply scan_rel_setBBS. intros ((Ha1 & Ha2 & Ha3 & Ha4) & Hlo & Hui & Hw).
  split; [|done]. split; [|done]. unfold BBState_aligned. simpl.
  rewrite BV_length_or. unfold BV.reset. rewrite length_replicate. lia.
Qed.

Lemma setSafepointInfo_rel S BB n :
  scan_rel W BB S (setBBS S BB (setSafepointInfo (getBBS S BB) n)).
Proof. apply scan_rel_setBBS. intros Hf. done. Qed.
End ScanRel.

Section ScanSteps.
Variable P : LateLowerGCFrame.

Lemma same_numbering_trans S1 S2 S3 :
  same_numbering S1 S2 -> same_numbering S2 S3 -> same_numbering S1 S3.
Proof. intros (? & ? & ?) (? & ? & ?). repeat split; congruence. Qed.

Lemma same_numbering_setUses Y Uses Nums S :
  same_numbering S (foldl (fun S Num => setBBS S Y (setUse (getBBS S Y) Uses Num)) S Nums).
Proof.
  revert S. induction Nums as [|m Nums IH]; intros S; simpl; [done|].
  destruct (IH (setBBS S Y (setUse (getBBS S Y) Uses m))) as (? & ? & ?). done.
Qed.

Lemma same_numbering_NoteDef S BB Num sps S' R :
  NoteDef S BB Num sps = Ok S' -> same_numbering S (refine S' Num R).
Proof.
  unfold NoteDef.
  match goal with |- mbind _ ?m = _ -> _ => destruct m end; bind_ok; [|done..].
  match goal with |- match ?m with _ => _ end = _ -> _ => destruct m end; [|done..].
  intros [= <-]. unfold refine. by destruct (R =? -2).
Qed.

Lemma NoteDef_not_rooted S BB Num sps S' : NoteDef S BB Num sps = Ok S' -> Num <> -1.
Proof.
  unfold NoteDef. destruct (Z.eqb_spec Num (-1)) as [->|]; [|done].
  by bind_ok.
Qed.

Lemma scan_step_refl BB S : scan_step BB S S.
Proof. intros HR. split; [done|]. split; [lia|]. intros W _. apply scan_rel_refl. Qed.

Lemma scan_step_trans BB S1 S2 S3 :
  scan_step BB S1 S2 -> scan_step BB S2 S3 -> scan_step BB S1 S3.
Proof.
  intros H1 H2 HR. destruct (H1 HR) as (HR2 & Hle1 & Hs1).
  destruct (H2 HR2) as (HR3 & Hle2 & Hs2).
  split; [done|]. split; [lia|]. intros W Hb.
  eapply scan_rel_trans; [apply Hs1; lia|by apply Hs2].
Qed.

Lemma scan_step_same BB S S' :
  same_numbering S S' -> (forall W, MaxPtrNumber S < Z.of_nat W < 2 ^ 32 -> scan_rel W BB S S') ->
  scan_step BB S S'.
Proof.
  intros (HM & HA & HV) Hrel (H1 & H2 & H3).
  split; [|split; [lia|]].
  - unfold numbering_in_range. rewrite HM, HA, HV. done.
  - intros W HW. apply Hrel. lia.
Qed.

Lemma Number_step fuel F S BB V n F' S' :
  Number fuel P F S V = Ok (n, F', S') -> scan_step BB S S'.
Proof.
  intros H HR. pose proof (Number_range _ _ _ _ _ _ _ _ H HR) as (HR' & Hle & _).
  split; [done|]. split; [done|]. intros W _.
  apply scan_rel_BBStates. by eapply Number_BBStates.
Qed.

Lemma NumberVector_range fuel F S V Nums S' :
  NumberVector fuel P F S V = Ok (Nums, S') -> numbering_in_range S ->
  numbering_in_range S' /\ MaxPtrNumber S <= MaxPtrNumber S' /\
  forall m, m ∈ Nums -> 0 <= m <= MaxPtrNumber S'.
Proof.
  intros H HR. pose proof HR as (HM & HP & HV). revert H. unfold NumberVector.
  cbv zeta.
  destruct (AllVectorNumbering S !! V) as [l|] eqn:HV0.
  { intros [= <- <-]. split; [done|]. split; [lia|]. intros m. by apply (HV _ _ _ HV0). }
  destruct (FindBaseValue _ _ _ _ _ _) as [C| |]; bind_ok; [|done..].
  destruct (AllVectorNumbering S !! C) as [l|] eqn:HC.
  { intros [= <- <-]. split; [done|]. split; [lia|]. intros m. by apply (HV _ _ _ HC). }
  set (n := numElements (getType F C)).
  set (Numbers := (fun i : nat => MaxPtrNumber S + 1 + Z.of_nat i) <$> seq 0 n).
  assert (HNum : forall m, m ∈ Numbers -> 0 <= m <= MaxPtrNumber S + Z.of_nat n).
  { intros m Hm. apply list_elem_of_fmap in Hm as (i & -> & Hi).
    apply elem_of_seq in Hi. lia. }
  assert (forall S1, numbering_in_range S1 -> MaxPtrNumber S <= MaxPtrNumber S1 ->
    match AllVectorNumbering S1 !! C with
    | Some Numbers => Ok (Numbers, S1)
    | None => Ok ([], setVectorNumbering S1 (MaxPtrNumber S1)
                        (<[C := []]> (AllVectorNumbering S1)) (ReversePtrNumbering S1))
    end = Ok (Nums, S') ->
    numbering_in_range S' /\ MaxPtrNumber S <= MaxPtrNumber S' /\
    forall m, m ∈ Nums -> 0 <= m <= MaxPtrNumber S') as Hfin.
  { intros S1 HR1 Hle. pose proof HR1 as (HM1 & HP1 & HV1).
    destruct (AllVectorNumbering S1 !! C) as [l|] eqn:HC1.
    - intros [= <- <-]. split; [done|]. split; [lia|]. intros m. by apply (HV1 _ _ _ HC1).
    - intros [= <- <-]. split; [|split; [done|]]; [|intros m Hm; by apply elem_of_nil in Hm].
      split; [done|]. split; [done|]. simpl. intros x l m.
      rewrite lookup_insert. case_decide; [|by apply HV1].
      intros [= <-] Hm. by apply elem_of_nil in Hm. }
  destruct (isConstant _ || _).
  { bind_ok. apply Hfin; [|simpl; lia].
    split; [done|]. split; [done|]. simpl. intros x l m.
    rewrite lookup_insert. case_decide; [|by apply HV].
    intros [= <-] Hm. by apply elem_of_nil in Hm. }
  destruct (getKind F C); bind_ok; try done; try (by apply Hfin; [done|lia]).
  apply Hfin; [|simpl; lia].
  split; [simpl; lia|]. split; simpl.
  - intros x m Hx. specialize (HP x m Hx). lia.
  - intros x l m. rewrite lookup_insert. case_decide.
    + intros [= <-]. apply HNum.
    + intros Hx Hm. specialize (HV x l m Hx Hm). lia.
Qed.

Lemma NumberVector_step fuel F S BB V Nums S' :
  NumberVector fuel P F S V = Ok (Nums, S') -> scan_step BB S S'.
Proof.
  intros H HR. pose proof (NumberVector_range _ _ _ _ _ _ H HR) as (HR' & Hle & _).
  split; [done|]. split; [done|]. intros W _.
  apply scan_rel_BBStates. by eapply NumberVector_BBStates.
Qed.

Lemma NoteUse_step fuel F S BB Y V Uses F' S' :
  Y = BB \/ Uses = UsesPhiOuts ->
  NoteUse fuel P F S Y V Uses = Ok (F', S') -> scan_step BB S S'.
Proof.
  intros HY. unfold NoteUse.
  destruct (isConstant _); [intros [= _ <-]; apply scan_step_refl|].
  destruct (isSpecialPtrVec _ _).
  - destruct (NumberVector _ _ _ _ _) as [[Nums S1]| |] eqn:E; bind_ok; [|done..].
    intros [= _ <-] HR.
    pose proof (NumberVector_range _ _ _ _ _ _ E HR) as (HR1 & Hle & HN).
    pose proof (NumberVector_BBStates _ _ _ _ _ _ _ E) as HB.
    destruct (same_numbering_setUses Y Uses Nums S1) as (HM & HA & HV).
    split; [|split].
    + unfold numbering_in_range. by rewrite HM, HA, HV.
    + lia.
    + intros W Hb. eapply scan_rel_trans; [by apply scan_rel_BBStates|].
      apply setUses_rel; [lia|done|]. intros m Hm. specialize (HN m Hm). lia.
  - destruct (Number _ _ _ _ _) as [[[Num F1] S1]| |] eqn:E; bind_ok; [|done..].
    destruct (Z.eqb_spec Num (-1)) as [->|Hne]; intros [= _ <-].
    { by eapply Number_step. }
    intros HR. pose proof (Number_range _ _ _ _ _ _ _ _ E HR) as (HR1 & Hle & HN).
    split; [done|]. split; [done|]. simpl. intros W Hb.
    eapply scan_rel_trans; [apply scan_rel_BBStates; by eapply Number_BBStates|].
    apply setUse_rel; [lia|done|lia].
Qed.

Lemma NoteDef_step S BB Num sps S' R :
  -1 <= Num <= MaxPtrNumber S ->
  NoteDef S BB Num sps = Ok S' -> scan_step BB S (refine S' Num R).
Proof.
  intros HN H. apply scan_step_same; [by eapply same_numbering_NoteDef|].
  intros W HW. pose proof (NoteDef_not_rooted _ _ _ _ _ H).
  eapply scan_rel_trans; [|apply refine_rel].
  eapply NoteDef_rel; [lia| |done]. lia.
Qed.
End ScanSteps.

(** *** The scan of an instruction, of a block, of the function *)

Section ScanFunction.
Variable P : LateLowerGCFrame.

Lemma Number_NoteDef_step fuel F S BB V Num F1 S1 sps S2 R :
  Number fuel P F S V = Ok (Num, F1, S1) -> NoteDef S1 BB Num sps = Ok S2 ->
  scan_step BB S (refine S2 Num R).
Proof.
  intros HNum HDef HR.
  pose proof (Number_range _ _ _ _ _ _ _ _ HNum HR) as (HR1 & Hle & HN).
  assert (scan_step BB S (refine S2 Num R)) as Hs; [|by apply Hs].
  apply (scan_step_trans BB S S1); [by eapply Number_step|by eapply NoteDef_step].
Qed.

Lemma MaybeNoteDef_step fuel F S BB Def sps R F' S' :
  MaybeNoteDef fuel P F S BB Def sps R = Ok (F', S') -> scan_step BB S S'.
Proof.
  unfold MaybeNoteDef. cbv zeta.
  assert (forall r : Res (Z * Function * State), Number fuel P F S Def = r ->
    ('(Num, F1, S1) ← r; S2 ← NoteDef S1 BB Num sps; Ok (F1, refine S2 Num R)) = Ok (F', S') ->
    scan_step BB S S') as HN.
  { intros r Hr. destruct r as [[[Num F1] S1]| |]; bind_ok; [|done..].
    destruct (NoteDef S1 BB Num sps) as [S2| |] eqn:E; [|done..].
    intros [= _ <-]. by eapply Number_NoteDef_step. }
  destruct (isSpecialPtr _ _).
  { destruct (assert _ _); bind_ok; [|done..]. by apply HN. }
  destruct (isUnionRep _ _); [by apply HN|].
  destruct (isSpecialPtrVec _ _); [|intros [= _ <-]; apply scan_step_refl].
  destruct (NumberVector _ _ _ _ _) as [[Nums S1]| |] eqn:E; bind_ok; [|done..].
  match goal with |- match ?m with _ => _ end = _ -> _ => destruct m as [S2| |] eqn:E2 end;
    [|done..].
  intros [= _ <-] HR.
  pose proof (NumberVector_range _ _ _ _ _ _ _ E HR) as (HR1 & Hle & HNums).
  assert (scan_step BB S S2) as Hs; [|by apply Hs].
  apply (scan_step_trans BB S S1); [by eapply NumberVector_step|].
  apply (foldl_Res_invariant_elem
           (fun a => same_numbering S1 a /\ scan_step BB S1 a) _ Nums) in E2;
    [apply E2|done|done| |by split; [|apply scan_step_refl]].
  intros a Num a' HNum [Hs Ha]. bind_ok.
  destruct (NoteDef a BB Num sps) as [S3| |] eqn:E3; [|done..].
  intros [= <-]. split.
  - eapply same_numbering_trans; [done|by eapply same_numbering_NoteDef].
  - eapply scan_step_trans; [done|]. eapply NoteDef_step; [|done].
    destruct Hs as (-> & _). specialize (HNums _ HNum). lia.
Qed.

Lemma NoteOperandUses_step fuel F S BB UI Uses F' S' :
  NoteOperandUses fuel P F S BB UI Uses = Ok (F', S') -> scan_step BB S S'.
Proof.
  unfold NoteOperandUses.
  refine (foldl_Res_invariant (fun a : Function * State => scan_step BB S a.2) _ _ _ _ _
            (F, S) (F', S') _); [done|done| |apply scan_step_refl].
  intros [F1 S1] V [F2 S2] Ha. bind_ok. simpl in *.
  destruct (negb _); [by intros [= _ <-]|].
  intros H. eapply scan_step_trans; [done|]. eapply NoteUse_step; [|done]. by left.
Qed.

Lemma safepoint_step S BB CI :
  scan_step BB S
    (setBBS (NoteSafepoint S BB CI).2 BB
       (setSafepointInfo (getBBS (NoteSafepoint S BB CI).2 BB) (NoteSafepoint S BB CI).1)).
Proof.
  apply scan_step_same; [done|]. intros W HW.
  eapply scan_rel_trans; [apply NoteSafepoint_rel|apply setSafepointInfo_rel].
Qed.

Lemma LiftSelect_step fuel F S BB SI n F' S' :
  LiftSelect fuel (AddressSpace P) F S SI = Ok (n, F', S') -> scan_step BB S S'.
Proof.
  intros H HR. pose proof (LiftSelect_range _ _ _ _ _ _ _ _ H HR) as (HR' & Hle & _).
  split; [done|]. split; [done|]. intros W _.
  apply scan_rel_BBStates. by eapply LiftSelect_BBStates.
Qed.

Lemma LiftPhi_step fuel F S BB Phi n F' S' :
  LiftPhi fuel P F S Phi = Ok (n, F', S') -> scan_step BB S S'.
Proof.
  intros H HR. pose proof (LiftPhi_range _ _ _ _ _ _ _ _ H HR) as (HR' & Hle & _).
  split; [done|]. split; [done|]. intros W _.
  apply scan_rel_BBStates. by eapply LiftPhi_BBStates.
Qed.

Ltac bind_pair F1 S1 E :=
  match goal with
  | |- mbind _ ?m = _ -> _ => destruct m as [[F1 S1]| |] eqn:E
  | |- match ?m with _ => _ end = _ -> _ => destruct m as [[F1 S1]| |] eqn:E
  end; bind_ok; [|done..].

Lemma scan_inst_step fuel F S BB Inst F' S' :
  scan_inst fuel P F S BB Inst = Ok (F', S') -> scan_step BB S S'.
Proof.
  unfold scan_inst. cbv zeta. destruct (getKind F Inst) eqn:HK;
    try (intros [= _ <-]; apply scan_step_refl).
  - (* load *)
    match goal with |- mbind _ ?m = _ -> _ => destruct m as [[[R F0] S0]| |] eqn:E0 end;
      bind_ok; [|done..].
    bind_pair F1 S1 E1. intros E2.
    apply MaybeNoteDef_step in E1. apply NoteOperandUses_step in E2.
    apply (scan_step_trans BB S S0 S'); [|by apply (scan_step_trans BB S0 S1 S')].
    revert E0. destruct (_ && _); [by apply Number_step|].
    destruct (_ && _); [|intros [= _ _ <-]; apply scan_step_refl].
    destruct (LooksLikeFrameRef _ _ _ _) as [[]|]; [..|done];
      intros [= _ _ <-]; apply scan_step_refl.
  - (* store *) apply NoteOperandUses_step.
  - (* call *)
    destruct (isIntrinsicCall F callee); [intros [= _ <-]; apply scan_step_refl|].
    bind_pair F1 S1 E1. bind_pair F2 S2 E2. bind_pair F3 S3 E3.
    apply MaybeNoteDef_step in E1. apply NoteOperandUses_step in E2.
    match type of E3 with foldl _ _ ?l = _ => 
      apply (foldl_Res_invariant (fun a : Function * State => scan_step BB S a.2) _ l) in E3
    end; [|done|done| |simpl; by apply (scan_step_trans BB S S1 S2)].
    2:{ intros [Fa Sa] V [Fb Sb] Ha. bind_ok. simpl in *.
        destruct (isUnionRep _ _); [|by intros [= _ <-]].
        intros H. eapply scan_step_trans; [done|]. eapply NoteUse_step; [|done]. by left. }
    simpl in E3. intros H. eapply scan_step_trans; [done|]. revert H.
    destruct returns_twice, (isKnownNonSafepoint _ _ _); intros [= _ <-].
    + by apply scan_step_same; [|intros W _; apply scan_rel_BBStates].
    + apply (scan_step_trans BB S3 (setReturnsTwice S3 (ReturnsTwice S3 ++ [Inst])));
        [|exact (safepoint_step (setReturnsTwice S3 (ReturnsTwice S3 ++ [Inst])) BB Inst)].
      by apply scan_step_same; [|intros W _; apply scan_rel_BBStates].
    + apply scan_step_refl.
    + exact (safepoint_step S3 BB Inst).
  - (* select *)
    destruct (negb _); [intros [= _ <-]; apply scan_step_refl|].
    destruct (negb _).
    + destruct (AllPtrNumbering S !! Inst); [intros [= _ <-]; apply scan_step_refl|].
      destruct (LiftSelect _ _ _ _ _) as [[[n F1] S1]| |] eqn:E; bind_ok; [|done..].
      intros [= _ <-]. by eapply LiftSelect_step.
    + bind_pair F1 S1 E1. intros E2.
      apply MaybeNoteDef_step in E1. apply NoteOperandUses_step in E2.
      by apply (scan_step_trans BB S S1 S').
  - (* phi *)
    destruct (negb _); [intros [= _ <-]; apply scan_step_refl|].
    destruct (negb _).
    + destruct (AllPtrNumbering S !! Inst); [intros [= _ <-]; apply scan_step_refl|].
      destruct (LiftPhi _ _ _ _ _) as [[[n F1] S1]| |] eqn:E; bind_ok; [|done..].
      intros [= _ <-]. by eapply LiftPhi_step.
    + bind_pair F1 S1 E1. apply MaybeNoteDef_step in E1.
      refine (foldl_Res_invariant (fun a : Function * State => scan_step BB S a.2) _ _ _ _ _
                (_, _) (F', S') _); [done|done| |done].
      intros [Fa Sa] inc [Fb Sb] Ha. bind_ok. simpl in *.
      intros H. eapply scan_step_trans; [done|]. eapply NoteUse_step; [|done]. by right.
  - (* addrspacecast *)
    destruct (_ =? _); [apply MaybeNoteDef_step|intros [= _ <-]; apply scan_step_refl].
  - (* alloca *)
    destruct (_ && _); intros [= _ <-]; [|apply scan_step_refl].
    by apply scan_step_same; [|intros W _; apply scan_rel_BBStates].
  - (* return *) apply NoteOperandUses_step.
Qed.

Lemma scan_block_step n fuel F S BB it F' S' :
  scan_block n fuel P F S BB it = Ok (F', S') -> scan_step BB S S'.
Proof.
  revert F S it. induction n as [|n IH]; intros F S [Inst|]; simpl;
    try done; try (intros [= _ <-]; apply scan_step_refl).
  destruct (scan_inst fuel P F S BB Inst) as [[F1 S1]| |] eqn:E; bind_ok; [|done..].
  intros H. apply scan_inst_step in E. apply IH in H. by eapply scan_step_trans.
Qed.

Lemma seeded_fresh W S :
  seeded S /\ bounded W S <-> forall X,
    BBState_fresh W (getBBS S X) /\
    forall i, BV.test (LiveIn (getBBS S X)) i =
              BV.test (UpExposedUses (getBBS S X)) i ||
              BV.test (UpExposedUsesUnrooted (getBBS S X)) i.
Proof.
  split.
  - intros [Hs Hb] X. destruct (Hs X) as (Ha & Hlo & Hui & Hli).
    destruct (Hb X) as (? & ? & ? & ? & ? & ? & ? & ? & ?). done.
  - intros H. split; intros X; destruct (H X) as [(Ha & Hlo & Hui & H1 & H2 & H3) Hli].
    + done.
    + destruct Ha as (Ha1 & Ha2 & Ha3 & Ha4). unfold BBState_width.
      rewrite Hlo, Hui, Ha1, Ha2, Ha3, Ha4. simpl. repeat split; (done || lia).
Qed.

(** After the scan of a block the block states are seeded for the dataflow
    and within every width that the identifiers are below. *)
Lemma LocalScan_block_seeded fuel F S b F' S' :
  numbering_in_range S ->
  (forall W, MaxPtrNumber S < Z.of_nat W < 2 ^ 32 -> seeded S /\ bounded W S) ->
  LocalScan_block fuel P (Ok (F, S)) b = Ok (F', S') ->
  numbering_in_range S' /\
  (forall W, MaxPtrNumber S' < Z.of_nat W < 2 ^ 32 -> seeded S' /\ bounded W S').
Proof.
  intros HR Hseed. unfold LocalScan_block. bind_ok.
  destruct (scan_block _ _ _ _ _ _ _) as [[F1 S1]| |] eqn:E; [|done..].
  intros [= _ <-]. apply scan_block_step in E.
  destruct E as (HR1 & Hle & Hrel); [done|]. simpl in Hle.
  split; [done|]. simpl. intros W Hb.
  specialize (Hrel W Hb). specialize (Hseed W ltac:(lia)).
  rewrite seeded_fresh in Hseed. apply seeded_fresh.
  intros X. destruct (Hseed X) as (Hfr & Hli).
  destruct (Hrel X) as [Hf Ho].
  { rewrite getBBS_setBBS. by case_decide; subst. }
  rewrite getBBS_setBBS. case_decide as HX.
  - subst X. destruct Hf as ((Ha1 & Ha2 & Ha3 & Ha4) & Hlo1 & Hui1 & Hw1 & Hw2 & Hw3). simpl.
    split; [|intros i; apply BV_test_or].
    unfold BBState_fresh, BBState_aligned, setDone. simpl. rewrite BV_length_or.
    repeat split; (done || lia).
  - split; [done|]. destruct Ho as [Hl Ht]; [done|]. intros i.
    destruct (Ht i) as [-> ->]. rewrite Hl.
    rewrite getBBS_setBBS. case_decide; [by subst|]. apply Hli.
Qed.

(** LocalScan leaves the state that ComputeLiveness starts from: all the
    block states are seeded, and their bit vectors have at most
    [MaxPtrNumber + 1] bits. *)
Lemma LocalScan_seeded fuel F F' S :
  LocalScan fuel P F = Ok (F', S) ->
  -1 <= MaxPtrNumber S /\
  forall W, MaxPtrNumber S < Z.of_nat W < 2 ^ 32 -> seeded S /\ bounded W S.
Proof.
  unfold LocalScan. intros H.
  apply (foldl_Res_invariant
           (fun a : Function * State =>
              numbering_in_range a.2 /\
              forall W, MaxPtrNumber a.2 < Z.of_nat W < 2 ^ 32 -> seeded a.2 /\ bounded W a.2)
           _ (blocks F)) in H; [|done|done| |].
  - destruct H as [(HM & _) H]. done.
  - intros [Fa Sa] b [Fb Sb] [Ha1 Ha2]. by apply LocalScan_block_seeded.
  - simpl. split; [by split|]. intros W _. apply seeded_fresh. intros X.
    unfold getBBS, State_init. simpl. rewrite lookup_empty. simpl.
    split; [|done]. repeat split; simpl; lia.
Qed.
End ScanFunction.

(** C3, as the code has it.  When the loop of ComputeLiveness, run on what
    LocalScan leaves, has converged, every basic block that the reverse
    post-order traversal visits, that is every block reachable from the
    entry block, satisfies
    LiveIn = UpExposedUses ∪ UpExposedUsesUnrooted ∪ (LiveOut \ Defs) and
    LiveOut = PhiOuts ∪ the union of LiveIn over its successors.  The
    identifiers are taken to fit an int. *)
Theorem dataflow_equations_at_fixpoint (sf df : nat) (P : LateLowerGCFrame)
    (F F' : Function) (S S' : State) :
  LocalScan sf P F = Ok (F', S) -> MaxPtrNumber S < 2 ^ 31 ->
  dataflow_loop df F' S = Ok S' ->
  forall B, B ∈ ReversePostOrderTraversal F' -> dataflow_equations_at F' S' B.
Proof.
  intros HL HM Hloop. apply LocalScan_seeded in HL as [Hge Hseed].
  destruct (Hseed (Z.to_nat (MaxPtrNumber S + 1))) as [Hs Hb]; [lia|].
  apply (dataflow_equations_seeded (Z.to_nat (MaxPtrNumber S + 1)) F' S S' df);
    [lia|done..].
Qed.

Lemma dataflow_equations_at_fixpoint_witness :
  LocalScan 100 (Examples.pass_of Examples.live_across) Examples.live_across
    = Ok (Examples.live_across, Examples.scanned_state Examples.live_across) /\
  MaxPtrNumber (Examples.scanned_state Examples.live_across) < 2 ^ 31 /\
  dataflow_loop 100 Examples.live_across (Examples.scanned_state Examples.live_across)
    = Ok (Examples.analysed_state Examples.live_across) /\
  dataflow_equations_at Examples.live_across (Examples.analysed_state Examples.live_across) 1%nat.
Proof.
  assert (LocalScan 100 (Examples.pass_of Examples.live_across) Examples.live_across
          = Ok (Examples.live_across, Examples.scanned_state Examples.live_across)) as HL.
  { vm_compute. reflexivity. }
  assert (MaxPtrNumber (Examples.scanned_state Examples.live_across) < 2 ^ 31) as HM.
  { vm_compute. reflexivity. }
  assert (dataflow_loop 100 Examples.live_across (Examples.scanned_state Examples.live_across)
          = Ok (Examples.analysed_state Examples.live_across)) as Hl.
  { vm_compute. reflexivity. }
  split; [exact HL|]. split; [exact HM|]. split; [exact Hl|].
  apply (dataflow_equations_at_fixpoint 100 100 (Examples.pass_of Examples.live_across)
           Examples.live_across Examples.live_across
           (Examples.scanned_state Examples.live_across)
           (Examples.analysed_state Examples.live_across) HL HM Hl).
  apply (bool_decide_eq_true_1 _). vm_compute. reflexivity.
Defined.

(** C8.  On what LocalScan leaves, whatever the CFG, the four dataflow bit
    sets of every block only gain bits from one trip through the blocks to
    the next, and therefore within [4 * W * n] trips ([n] blocks visited,
    [W = MaxPtrNumber + 1] bits in a bit vector at most) a trip changes
    nothing and the loop of ComputeLiveness ends.  The identifiers are taken
    to fit an int. *)
Theorem dataflow_terminates (sf : nat) (P : LateLowerGCFrame) (F F' : Function) (S : State) :
  LocalScan sf P F = Ok (F', S) -> MaxPtrNumber S < 2 ^ 31 ->
  let N := (4 * Z.to_nat (MaxPtrNumber S + 1) * length (ReversePostOrderTraversal F'))%nat in
  (forall n, grows (dataflow_iter n F' S) (dataflow_iter (Datatypes.S n) F' S)) /\
  exists n S',
    (n <= N)%nat /\
    dataflow_pass F' (dataflow_iter n F' S) = (S', false) /\
    dataflow_loop (Datatypes.S N) F' S = Ok S' /\
    ComputeLiveness (Datatypes.S N) F' S = Ok (ComputeLiveSets F' S').
Proof.
  intros HL HM N. apply LocalScan_seeded in HL as [Hge Hseed].
  destruct (Hseed (Z.to_nat (MaxPtrNumber S + 1))) as [Hs Hb]; [lia|].
  destruct (dataflow_ends_seeded (Z.to_nat (MaxPtrNumber S + 1)) F' S) as [Hg (n & S' & Hn & Hp & Hl)];
    [lia|done..|].
  split; [done|]. exists n, S'. split; [done|]. split; [done|]. split; [done|].
  unfold ComputeLiveness, N. by rewrite Hl.
Qed.

Lemma dataflow_terminates_witness :
  LocalScan 100 (Examples.pass_of Examples.live_across) Examples.live_across
    = Ok (Examples.live_across, Examples.scanned_state Examples.live_across) /\
  MaxPtrNumber (Examples.scanned_state Examples.live_across) < 2 ^ 31 /\
  exists n S',
    (n <= 4 * 1 * length (ReversePostOrderTraversal Examples.live_across))%nat /\
    dataflow_pass Examples.live_across
      (dataflow_iter n Examples.live_across (Examples.scanned_state Examples.live_across))
      = (S', false) /\
    dataflow_loop (Datatypes.S (4 * 1 * length (ReversePostOrderTraversal Examples.live_across)))
      Examples.live_across (Examples.scanned_state Examples.live_across) = Ok S' /\
    ComputeLiveness (Datatypes.S (4 * 1 * length (ReversePostOrderTraversal Examples.live_across)))
      Examples.live_across (Examples.scanned_state Examples.live_across)
      = Ok (ComputeLiveSets Examples.live_across S').
Proof.
  assert (LocalScan 100 (Examples.pass_of Examples.live_across) Examples.live_across
          = Ok (Examples.live_across, Examples.scanned_state Examples.live_across)) as HL.
  { vm_compute. reflexivity. }
  assert (MaxPtrNumber (Examples.scanned_state Examples.live_across) < 2 ^ 31) as HM.
  { vm_compute. reflexivity. }
  split; [exact HL|]. split; [exact HM|].
  apply (dataflow_terminates 100 (Examples.pass_of Examples.live_across)
           Examples.live_across Examples.live_across
           (Examples.scanned_state Examples.live_across) HL HM).
Defined.

(** ** The interference graph that ComputeLiveSets builds *)

Lemma BV_bits_NoDup (bv : BitVector) : NoDup (BV.bits bv).
Proof. unfold BV.bits. apply NoDup_filter, NoDup_seq. Qed.

(** X1.  From a state without neighbour lists, ComputeLiveSets leaves one
    list per identifier; identifier [j] is listed for [i] exactly when some
    numbered safepoint has both in its final live set, so that [i] is its
    own neighbour exactly when it is live at some safepoint; no list holds an
    identifier twice; and the relation is symmetric between identifiers. *)
Theorem interference_graph_spec (F : Function) (S : State) (i j : nat) :
  Neighbors S = [] ->
  let S' := ComputeLiveSets F S in
  let colive (a b : nat) :=
    exists sp idx LS,
      SafepointNumbering S' !! sp = Some idx /\ LiveSets S' !! Z.to_nat idx = Some LS /\
      BV.test LS a = true /\ BV.test LS b = true in
  length (Neighbors S') = Z.to_nat (MaxPtrNumber S + 1) /\
  NoDup (default [] (Neighbors S' !! i)) /\
  ((i < length (Neighbors S'))%nat -> adjacent (Neighbors S') i j <-> colive i j) /\
  ((i < length (Neighbors S'))%nat -> (j < length (Neighbors S'))%nat ->
   adjacent (Neighbors S') i j -> adjacent (Neighbors S') j i).
Proof.
  intros HN S' colive. unfold S', ComputeLiveSets in *.
  set (S1 := foldl (LiveSet_step F) S (map_to_list (SafepointNumbering S))) in *.
  pose proof (LiveSet_loop_same F (map_to_list (SafepointNumbering S)) S) as Hs.
  fold S1 in Hs. destruct Hs as (_ & _ & _ & _ & HM & _ & HN1 & _).
  rewrite HN1, HN. simpl.
  assert (length (InterferenceGraph S1) = Z.to_nat (MaxPtrNumber S + 1)) as Hlen.
  { by rewrite InterferenceGraph_length, HM. }
  split; [done|]. split; [|split].
  - destruct (decide (i < Z.to_nat (MaxPtrNumber S1 + 1))%nat) as [Hi|Hi].
    + rewrite InterferenceGraph_lookup by done. simpl.
      apply NoDup_fmap_2; [apply Nat2Z.inj'|apply BV_bits_NoDup].
    + rewrite lookup_ge_None_2; [apply NoDup_nil_2|].
      rewrite InterferenceGraph_length. lia.
  - intros Hi. rewrite InterferenceGraph_adjacent, NeighborBits_test.
    unfold colive. simpl. rewrite HM. split; [by intros [_ ?]|]. intros H. split; [lia|done].
  - intros _ Hj. by apply InterferenceGraph_sym.
Qed.

Lemma interference_graph_spec_witness :
  Neighbors (Examples.analysed_state Examples.two_roots) = [] /\
  length (Neighbors (ComputeLiveSets Examples.two_roots
                       (Examples.analysed_state Examples.two_roots))) = 2%nat.
Proof.
  assert (Neighbors (Examples.analysed_state Examples.two_roots) = []) as H.
  { vm_compute. reflexivity. }
  split; [exact H|].
  exact (proj1 (interference_graph_spec Examples.two_roots
                  (Examples.analysed_state Examples.two_roots) 0%nat 1%nat H)).
Defined.

(** ** The perfect elimination order *)

Section PopLevels.

Lemma elem_of_rev {A} (x : A) (l : list A) : x ∈ rev l <-> x ∈ l.
Proof. rewrite !list_elem_of_In. symmetry. apply in_rev. Qed.

Lemma replicate_snoc {A} k (a : A) : replicate k a ++ [a] = a :: replicate k a.
Proof. induction k as [|k IH]; [done|]. simpl. by rewrite IH. Qed.

Lemma rev_replicate {A} k (a : A) : rev (replicate k a) = replicate k a.
Proof.
  induction k as [|k IH]; [done|]. simpl. by rewrite IH, replicate_snoc.
Qed.

Lemma pop_level_spec (l : list Z) x rest :
  pop_level l = (x, rest) ->
  (x = -1 /\ rest = [] /\ forall y, y ∈ l -> y = -1) \/
  (x <> -1 /\ exists k, l = replicate k (-1) ++ x :: rest).
Proof.
  revert x rest. induction l as [|a l IH]; intros x rest; simpl.
  - intros [= <- <-]. left. split; [done|]. split; [done|]. by intros y ?%elem_of_nil.
  - destruct (Z.eqb_spec a (-1)) as [->|Ha].
    + intros H. destruct (IH _ _ H) as [(-> & -> & Hall)|(Hx & k & ->)].
      * left. split; [done|]. split; [done|].
        intros y [->|Hy]%elem_of_cons; [done|by apply Hall].
      * right. split; [done|]. by exists (Datatypes.S k).
    + intros [= <- <-]. right. split; [done|]. by exists 0%nat.
Qed.

(** What the two loops of [next] do to the levels [L]: they give an entry
    [x] of a level, found at [(w0, p0)], and leave every other entry that
    is not dead where it was; or they give -1, and every entry was dead. *)
Lemma pop_levels_spec (Lrev : list (list Z)) x Rrev :
  pop_levels Lrev = (x, Rrev) ->
  (x = -1 /\ Rrev = [] /\ forall lvl y, lvl ∈ Lrev -> y ∈ lvl -> y = -1) \/
  (x <> -1 /\ exists dropped pre k rest,
     Lrev = dropped ++ (pre ++ x :: replicate k (-1)) :: rest /\
     (forall lvl y, lvl ∈ dropped -> y ∈ lvl -> y = -1) /\
     Rrev = match pre with [] => rest | _ => pre :: rest end).
Proof.
  revert x Rrev. induction Lrev as [|lvl Lrev IH]; intros x Rrev; simpl.
  - intros [= <- <-]. left. split; [done|]. split; [done|]. by intros l y ?%elem_of_nil.
  - destruct (pop_level (rev lvl)) as [x0 rest0] eqn:E.
    destruct (pop_level_spec _ _ _ E) as [(-> & -> & Hall)|(Hx0 & k & Hrev)].
    + simpl. intros H. destruct (IH _ _ H) as [(-> & -> & Hall')|(Hx & d & pre & k & rest & -> & Hd & ->)].
      * left. split; [done|]. split; [done|].
        intros l y [->|Hl]%elem_of_cons Hy; [|by eapply Hall'].
        apply Hall. by apply elem_of_rev.
      * right. split; [done|]. exists (lvl :: d), pre, k, rest. split; [done|]. split; [|done].
        intros l y [->|Hl]%elem_of_cons Hy; [|by eapply Hd].
        apply Hall. by apply elem_of_rev.
    + destruct (Z.eqb_spec x0 (-1)) as [?|_]; [done|].
      intros [= <- <-]. right. split; [done|].
      exists [], (rev rest0), k, Lrev. simpl. split; [|split].
      * f_equal. rewrite <- (rev_involutive lvl), Hrev, rev_app_distr. simpl.
        by rewrite rev_replicate, <- app_assoc.
      * by intros l y ?%elem_of_nil.
      * destruct rest0 as [|a r]; [done|]. simpl.
        destruct (rev r ++ [a]) eqn:E'; [|done]. by destruct (rev r).
Qed.

Lemma pop_levels_lookup (L : list (list Z)) x Rrev :
  pop_levels (rev L) = (x, Rrev) ->
  (length (rev Rrev) <= length L)%nat /\
  ((x = -1 /\ Rrev = [] /\
    forall (w p : nat) lvl y, L !! w = Some lvl -> lvl !! p = Some y -> y = -1) \/
   (x <> -1 /\ exists (w0 p0 : nat) lvl0,
      L !! w0 = Some lvl0 /\ lvl0 !! p0 = Some x /\
      (forall (w p : nat) lvl' y, rev Rrev !! w = Some lvl' -> lvl' !! p = Some y ->
         (exists lvl, L !! w = Some lvl /\ lvl !! p = Some y) /\ (w, p) <> (w0, p0)) /\
      (forall (w p : nat) lvl y, L !! w = Some lvl -> lvl !! p = Some y -> y <> -1 ->
         (w = w0 /\ p = p0) \/
         (exists lvl', rev Rrev !! w = Some lvl' /\ lvl' !! p = Some y)))).
Proof.
  intros H. destruct (pop_levels_spec _ _ _ H)
    as [(-> & -> & Hall)|(Hx & d & pre & k & rest & HL & Hd & ->)].
  - split; [simpl; lia|]. left. split; [done|]. split; [done|].
    intros w p lvl y Hw Hp. apply (Hall lvl); [|by eapply list_elem_of_lookup_2].
    apply elem_of_rev. by eapply list_elem_of_lookup_2.
  - assert (L = rev rest ++ (pre ++ x :: replicate k (-1)) :: rev d) as ->.
    { rewrite <- (rev_involutive L), HL, rev_app_distr. simpl. by rewrite <- app_assoc. }
    clear HL H.
    assert (rev (match pre with [] => rest | _ :: _ => pre :: rest end) =
            rev rest ++ match pre with [] => [] | _ => [pre] end) as ->.
    { destruct pre; [by rewrite app_nil_r|done]. }
    split.
    { rewrite !length_app. simpl. destruct pre; simpl; lia. }
    right. split; [done|].
    exists (length (rev rest)), (length pre), (pre ++ x :: replicate k (-1)).
    split; [by rewrite list_lookup_middle|].
    split; [by rewrite list_lookup_middle|]. split.
    + intros w p lvl' y Hw Hp.
      destruct (decide (w < length (rev rest))%nat) as [Hlt|Hge].
      * rewrite lookup_app_l in Hw by done. split; [|intros [= ? ?]; lia].
        exists lvl'. by rewrite lookup_app_l.
      * rewrite lookup_app_r in Hw by lia.
        destruct pre as [|a pre']; [by rewrite lookup_nil in Hw|].
        destruct (w - length (rev rest))%nat as [|m] eqn:Em; [|by destruct m].
        injection Hw as <-.
        assert (w = length (rev rest)) as -> by lia.
        pose proof (lookup_lt_Some _ _ _ Hp) as Hplt.
        split; [|intros [= ?]; simpl in *; lia].
        eexists. rewrite list_lookup_middle by done. split; [done|].
        by rewrite lookup_app_l.
    + intros w p lvl y Hw Hp Hy.
      destruct (decide (w < length (rev rest))%nat) as [Hlt|Hge].
      * right. exists lvl. rewrite lookup_app_l in Hw by done. by rewrite lookup_app_l.
      * rewrite lookup_app_r in Hw by lia.
        destruct (w - length (rev rest))%nat as [|m] eqn:Em.
        -- injection Hw as <-. assert (w = length (rev rest)) as -> by lia.
           destruct (decide (p < length pre)%nat) as [Hp1|Hp1].
           ++ right. rewrite lookup_app_l in Hp by done.
              exists pre. split; [|done]. rewrite lookup_app_r by lia.
              rewrite Nat.sub_diag. destruct pre; [simpl in Hp1; lia|done].
           ++ rewrite lookup_app_r in Hp by lia.
              destruct (p - length pre)%nat as [|q] eqn:Eq; [left; split; [done|lia]|].
              simpl in Hp. apply lookup_replicate in Hp as [-> _]. done.
        -- simpl in Hw. exfalso. apply Hy, (Hd lvl).
           ++ apply elem_of_rev. by eapply list_elem_of_lookup_2.
           ++ by eapply list_elem_of_lookup_2.
Qed.
End PopLevels.

Section PEO.
Variable N : list (list Z).
Hypothesis N_wf : Neighbors_wf N.
Hypothesis N_small : Z.of_nat (length N) < 2 ^ 31.

Lemma Neighbors_wf_lookup (v : nat) l :
  N !! v = Some l -> NoDup l /\ forall y, y ∈ l -> 0 <= y < Z.of_nat (length N).
Proof.
  intros Hl. unfold Neighbors_wf in N_wf. rewrite Forall_lookup in N_wf.
  destruct (N_wf _ _ Hl) as [Hnd Hr]. split; [done|]. by rewrite Forall_forall in Hr.
Qed.

Lemma filter_insert_length {A} (f : A -> Prop) `{!forall x, Decision (f x)}
    (l : list A) (i : nat) (e e' : A) :
  l !! i = Some e ->
  (length (filter f (<[i := e']> l)) + (if decide (f e) then 1 else 0) =
   length (filter f l) + (if decide (f e') then 1 else 0))%nat.
Proof.
  intros Hl. rewrite insert_take_drop by (by eapply lookup_lt_Some).
  rewrite <- (take_drop_middle l i e Hl) at 3.
  rewrite !filter_app, !filter_cons, !length_app.
  repeat case_decide; simpl; lia.
Qed.

Lemma set_weight_insert E (x : nat) e w :
  E !! x = Some e -> set_weight E (Z.of_nat x) w = <[x := mkElement w (pos e)]> E.
Proof.
  intros He. unfold set_weight. rewrite Nat2Z.id.
  apply list_eq. intros i. destruct (decide (i = x)) as [->|Hne].
  - rewrite list_lookup_alter, He. simpl.
    rewrite list_lookup_insert_eq; [|by eapply lookup_lt_Some]. by rewrite decide_True.
  - by rewrite list_lookup_alter_ne, list_lookup_insert_ne.
Qed.

Lemma UINT_MAX_val : UINT_MAX = 4294967295.
Proof. done. Qed.

Lemma reached_insert_mono w E (i : nat) e e' :
  E !! i = Some e ->
  (weight e = UINT_MAX \/ w <= weight e -> weight e' = UINT_MAX \/ w <= weight e') ->
  (reached w E <= reached w (<[i := e']> E))%nat.
Proof.
  intros He Himp. unfold reached.
  pose proof (filter_insert_length (fun e => weight e = UINT_MAX \/ w <= weight e)
                E i e e' He) as H.
  repeat case_decide; lia.
Qed.

Lemma reached_insert_new w E (i : nat) e e' :
  E !! i = Some e ->
  ~ (weight e = UINT_MAX \/ w <= weight e) -> (weight e' = UINT_MAX \/ w <= weight e') ->
  reached w (<[i := e']> E) = Datatypes.S (reached w E).
Proof.
  intros He Hn Hy. unfold reached.
  pose proof (filter_insert_length (fun e => weight e = UINT_MAX \/ w <= weight e)
                E i e e' He) as H.
  repeat case_decide; lia.
Qed.

Lemma reached_le w E : (reached w E <= length E)%nat.
Proof. apply length_filter. Qed.

Lemma live_insert P (i : nat) e e' Lv :
  Elements P !! i = Some e ->
  forall y, live (mkPEO (<[i := e']> (Elements P)) Lv) y <->
            (live P y /\ Z.to_nat y <> i) \/ (y = Z.of_nat i /\ weight e' <> UINT_MAX).
Proof.
  intros He y. unfold live. simpl.
  destruct (decide (Z.to_nat y = i)) as [<-|Hne].
  - rewrite list_lookup_insert_eq by (by eapply lookup_lt_Some). split.
    + intros (Hy & e0 & [= <-] & Hw). right. split; [lia|done].
    + intros [[_ ?]|[-> Hw]]; [done|]. split; [lia|]. by exists e'.
  - rewrite list_lookup_insert_ne by done. split; [by left|].
    intros [[? _]|[-> _]]; [done|]. by rewrite Nat2Z.id in Hne.
Qed.

Lemma pop_retire R P x Rrev :
  PEO_inv R P -> R < 2 ^ 31 ->
  pop_levels (rev (Levels P)) = (x, Rrev) -> x <> -1 ->
  let P2 := mkPEO (set_weight (Elements P) x UINT_MAX) (rev Rrev) in
  live P x /\ PEO_inv R P2 /\ length (Elements P2) = length (Elements P) /\
  live_count P = Datatypes.S (live_count P2) /\
  (forall y, live P2 y <-> live P y /\ y <> x).
Proof.
  intros (HR & HL & HE & HLv & Hlen) HRs Hpop Hx.
  destruct (pop_levels_lookup _ _ _ Hpop)
    as [HLen' [(? & _)|(_ & w0 & p0 & lvl0 & Hw0 & Hp0 & Hkeep & Hkept)]]; [done|].
  destruct (HLv _ _ _ _ Hw0 Hp0) as [?|[Hx0 Hex]]; [done|].
  pose proof (lookup_lt_Some _ _ _ Hw0) as Hw0lt.
  pose proof UINT_MAX_val as HU.
  assert (exists x', x = Z.of_nat x') as [x' ->] by (exists (Z.to_nat x); lia).
  rewrite Nat2Z.id in Hex. clear Hx0.
  simpl. rewrite (set_weight_insert _ _ _ _ Hex). simpl.
  assert (live P (Z.of_nat x')) as Hlive.
  { split; [lia|]. rewrite Nat2Z.id. eexists. split; [done|]. simpl. lia. }
  split; [done|]. split; [|split; [|split]].
  - split; [done|]. split; [simpl; lia|]. simpl. split; [|split].
    + intros z e Hz. destruct (decide (z = x')) as [->|Hne].
      * rewrite list_lookup_insert_eq in Hz by (by eapply lookup_lt_Some).
        injection Hz as <-. by left.
      * rewrite list_lookup_insert_ne in Hz by done.
        destruct (HE _ _ Hz) as [?|(Hw & Hp & lvl & Hlv & Hlp)]; [by left|].
        right. split; [done|]. split; [done|].
        destruct (Hkept _ _ _ _ Hlv Hlp) as [[Ew Ep]|(lvl' & ? & ?)]; [lia| |by exists lvl'].
        exfalso. rewrite Ew in Hlv. rewrite Hw0 in Hlv. injection Hlv as <-.
        rewrite Ep, Hp0 in Hlp. injection Hlp as Hzx. lia.
    + intros w p lvl' y Hw Hp.
      destruct (Hkeep _ _ _ _ Hw Hp) as [(lvl & Hlv & Hlp) Hne].
      destruct (HLv _ _ _ _ Hlv Hlp) as [?|[Hy Hey]]; [by left|].
      right. split; [done|].
      rewrite list_lookup_insert_ne; [done|].
      intros Heq. rewrite Heq, Hey in Hex. injection Hex as ? ?.
      apply Hne. f_equal; lia.
    + intros w lvl' Hw.
      etrans; [|apply (reached_insert_mono _ _ _ _ _ Hex); by left].
      destruct (decide (length lvl' = 0)%nat) as [->|Hnz]; [lia|].
      destruct (lookup_lt_is_Some_2 lvl' (length lvl' - 1)) as [y Hy]; [lia|].
      destruct (Hkeep _ _ _ _ Hw Hy) as [(lvl & Hlv & Hlp) _].
      apply lookup_lt_Some in Hlp. specialize (Hlen _ _ Hlv). lia.
  - by rewrite length_insert.
  - unfold live_count. simpl.
    pose proof (filter_insert_length (fun e => weight e <> UINT_MAX)
                  (Elements P) x' _ (mkElement UINT_MAX (Z.of_nat p0)) Hex) as H.
    simpl in H. repeat case_decide; try lia; try done.
  - intros y. rewrite (live_insert P x' _ _ _ Hex). simpl. split.
    + intros [[? ?]|[_ ?]]; [|done]. split; [done|]. intros ->. by rewrite Nat2Z.id in *.
    + intros [Hy Hne]. left. split; [done|]. destruct Hy as [Hy _]. lia.
Qed.

Lemma raise_levels (L : list (list Z)) (we pe : nat) lvl (y : Z) :
  L !! we = Some lvl ->
  let L1 := alter (fun lvl => <[pe := -1]> lvl) we L in
  let w := Z.of_nat (Datatypes.S we) in
  let L2 := if Z.of_nat (length L1) <=? w then L1 ++ [[]] else L1 in
  let L3 := alter (fun lvl => lvl ++ [y]) (Datatypes.S we) L2 in
  (length L3 <= Nat.max (length L) (Datatypes.S (Datatypes.S we)))%nat /\
  forall k : nat, L3 !! k =
    if decide (k = Datatypes.S we) then Some (default [] (L !! Datatypes.S we) ++ [y])
    else if decide (k = we) then Some (<[pe := -1]> lvl) else L !! k.
Proof.
  intros Hwe L1 w L2 L3. pose proof (lookup_lt_Some _ _ _ Hwe) as Hlt.
  assert (length L1 = length L) as HL1 by apply length_alter.
  assert (forall k, L1 !! k = if decide (k = we) then Some (<[pe := -1]> lvl) else L !! k) as HL1k.
  { intros k. unfold L1. rewrite list_lookup_alter. repeat case_decide; try done.
    by rewrite Hwe. }
  split.
  - unfold L3. rewrite length_alter. unfold L2.
    destruct (Z.leb_spec (Z.of_nat (length L1)) w); [rewrite length_app; simpl|]; lia.
  - intros k. unfold L3. rewrite list_lookup_alter. case_decide as Hk.
    + subst k. rewrite decide_True by done. unfold L2.
      destruct (Z.leb_spec (Z.of_nat (length L1)) w) as [Hle|Hgt].
      * assert (length L1 = Datatypes.S we) as Hlen by (unfold w in Hle; lia).
        rewrite lookup_app_r by lia. rewrite Hlen, Nat.sub_diag. simpl.
        rewrite (lookup_ge_None_2 L) by lia. done.
      * rewrite HL1k, decide_False by lia.
        destruct (lookup_lt_is_Some_2 L (Datatypes.S we)) as [l Hl]; [unfold w in Hgt; lia|].
        by rewrite Hl.
    + rewrite decide_False by done. unfold L2.
      destruct (Z.leb_spec (Z.of_nat (length L1)) w) as [Hle|Hgt]; [|apply HL1k].
      assert (length L1 = Datatypes.S we) as Hlen by (unfold w in Hle; lia).
      destruct (decide (k < length L1)%nat).
      * rewrite lookup_app_l by done. apply HL1k.
      * rewrite lookup_ge_None_2 by (rewrite length_app; simpl; lia).
        rewrite decide_False by lia. symmetry. apply lookup_ge_None_2. lia.
Qed.

Lemma raise_step R x P y :
  PEO_inv (R + 1) P -> R + 1 < 2 ^ 31 -> Z.of_nat (length (Elements P)) < 2 ^ 31 ->
  0 <= y ->
  (forall e, Elements P !! Z.to_nat y = Some e -> weight e = UINT_MAX \/ weight e <= R) ->
  let P' := raise x P y in
  PEO_inv (R + 1) P' /\ length (Elements P') = length (Elements P) /\
  (forall z : nat, z <> Z.to_nat y -> Elements P' !! z = Elements P !! z) /\
  live_count P' = live_count P /\ (forall z, live P' z <-> live P z).
Proof.
  intros HI HR Hn Hy Hwy.
  assert (PEO_inv (R + 1) P /\ length (Elements P) = length (Elements P) /\
          (forall z : nat, z <> Z.to_nat y -> Elements P !! z = Elements P !! z) /\
          live_count P = live_count P /\ (forall z, live P z <-> live P z)) as Htriv by done.
  unfold raise. destruct (Z.eqb_spec y x); [done|].
  destruct (Elements P !! Z.to_nat y) as [e|] eqn:He; [|done].
  destruct (Z.eqb_spec (weight e) UINT_MAX) as [|Hlive]; [done|].
  clear Htriv. pose proof UINT_MAX_val as HU.
  destruct HI as (_ & HL & HE & HLv & Hlen).
  destruct (Hwy _ eq_refl) as [?|HwR]; [done|].
  destruct (HE _ _ He) as [?|(Hw & Hp & lvl & Hlv & Hlp)]; [done|].
  rewrite Z2Nat.id in Hlp by done.
  assert (to_unsigned (weight e + 1) = Z.of_nat (Datatypes.S (Z.to_nat (weight e)))) as Hw1.
  { unfold to_unsigned. rewrite Z.mod_small; lia. }
  rewrite Hw1, Nat2Z.id.
  set (we := Z.to_nat (weight e)) in *. set (pe := Z.to_nat (pos e)) in *.
  destruct (raise_levels (Levels P) we pe lvl y Hlv) as [HL3len HL3].
  cbv zeta in HL3len, HL3.
  set (L3 := alter (fun lvl => lvl ++ [y]) (Datatypes.S we) _) in *.
  set (old := default [] (Levels P !! Datatypes.S we)) in *.
  assert (length old <= reached (Z.of_nat (Datatypes.S we)) (Elements P))%nat as Hold.
  { unfold old. destruct (Levels P !! Datatypes.S we) as [l|] eqn:El; simpl; [|lia].
    by apply Hlen. }
  pose proof (reached_le (Z.of_nat (Datatypes.S we)) (Elements P)) as Hrl.
  assert (to_unsigned (Z.of_nat (length (default [] (L3 !! Datatypes.S we))) - 1) =
          Z.of_nat (length old)) as Hp1.
  { rewrite HL3, decide_True by done. simpl. rewrite length_app. simpl.
    unfold to_unsigned. rewrite Z.mod_small; lia. }
  rewrite Hp1. cbv zeta.
  set (e' := mkElement (Z.of_nat (Datatypes.S we)) (Z.of_nat (length old))).
  pose proof (lookup_lt_Some _ _ _ He) as Hylt.
  assert (Z.of_nat we = weight e) as Hwe by (unfold we; lia).
  assert (Z.of_nat pe = pos e) as Hpe' by (unfold pe; lia).
  split; [|split; [|split; [|split]]].
  - split; [lia|]. split; [simpl; lia|]. simpl. split; [|split].
    + intros z ez Hz. destruct (decide (z = Z.to_nat y)) as [->|Hne].
      * rewrite list_lookup_insert_eq in Hz by done. injection Hz as <-.
        right. simpl. split; [lia|]. split; [lia|]. rewrite !Nat2Z.id.
        exists (old ++ [y]). rewrite HL3, decide_True by done. split; [done|].
        rewrite list_lookup_middle by done. f_equal. lia.
      * rewrite list_lookup_insert_ne in Hz by done.
        destruct (HE _ _ Hz) as [?|(Hwz & Hpz & lz & Hlz & Hlpz)]; [by left|].
        right. split; [done|]. split; [done|]. rewrite HL3.
        case_decide as Hk1; [|case_decide as Hk2].
        -- exists (old ++ [y]). split; [done|]. unfold old. rewrite <- Hk1, Hlz. simpl.
           rewrite lookup_app_l; [done|]. by eapply lookup_lt_Some.
        -- exists (<[pe := -1]> lvl). split; [done|].
           rewrite Hk2, Hlv in Hlz. injection Hlz as <-.
           rewrite list_lookup_insert_ne; [done|].
           intros Hpe. rewrite <- Hpe, Hlp in Hlpz. injection Hlpz as ?. lia.
        -- by exists lz.
    + intros w p lvl' y' Hw' Hp'. rewrite HL3 in Hw'.
      case_decide as Hk1; [|case_decide as Hk2].
      * injection Hw' as <-. subst w.
        destruct (decide (p < length old)%nat) as [Hpo|Hpo].
        -- rewrite lookup_app_l in Hp' by done.
           assert (exists l, Levels P !! Datatypes.S we = Some l /\ old = l) as (l & El & Eo).
           { unfold old in *. destruct (Levels P !! Datatypes.S we) as [l|];
               [by exists l|simpl in Hpo; lia]. }
           rewrite Eo in Hp'.
           destruct (HLv _ _ _ _ El Hp') as [?|[Hy' Hey']]; [by left|].
           right. split; [done|]. rewrite list_lookup_insert_ne; [done|].
           intros Heq. rewrite Heq, Hey' in He. injection He as He.
           rewrite <- He in Hwe, Hpe'. simpl in Hwe, Hpe'. lia.
        -- rewrite lookup_app_r in Hp' by lia.
           destruct (p - length old)%nat as [|q] eqn:Eq; [|by destruct q].
           injection Hp' as <-. right. split; [done|].
           rewrite list_lookup_insert_eq by done. unfold e'. do 2 f_equal. lia.
      * injection Hw' as <-. subst w.
        destruct (decide (p = pe)) as [->|Hpe].
        -- rewrite list_lookup_insert_eq in Hp' by (by eapply lookup_lt_Some).
           injection Hp' as <-. by left.
        -- rewrite list_lookup_insert_ne in Hp' by done.
           destruct (HLv _ _ _ _ Hlv Hp') as [?|[Hy' Hey']]; [by left|].
           right. split; [done|]. rewrite list_lookup_insert_ne; [done|].
           intros Heq. rewrite Heq, Hey' in He. injection He as He.
           rewrite <- He in Hwe, Hpe'. simpl in Hwe, Hpe'. lia.
      * destruct (HLv _ _ _ _ Hw' Hp') as [?|[Hy' Hey']]; [by left|].
        right. split; [done|]. rewrite list_lookup_insert_ne; [done|].
        intros Heq. rewrite Heq, Hey' in He. injection He as He.
        rewrite <- He in Hwe, Hpe'. simpl in Hwe, Hpe'. lia.
    + intros w lvl' Hw'. rewrite HL3 in Hw'.
      case_decide as Hk1; [|case_decide as Hk2].
      * injection Hw' as <-. subst w. rewrite length_app. simpl.
        rewrite (reached_insert_new _ _ _ _ e' He); [lia| |right; simpl; lia].
        intros [?|?]; [done|lia].
      * injection Hw' as <-. subst w. rewrite length_insert.
        etrans; [by apply Hlen|]. apply (reached_insert_mono _ _ _ _ _ He).
        intros _. right. simpl. lia.
      * etrans; [by apply Hlen|]. apply (reached_insert_mono _ _ _ _ _ He).
        intros [?|?]; [done|]. right. simpl. lia.
  - simpl. by rewrite length_insert.
  - intros z Hz. simpl. by rewrite list_lookup_insert_ne.
  - unfold live_count. simpl.
    pose proof (filter_insert_length (fun e => weight e <> UINT_MAX)
                  (Elements P) _ _ e' He) as H.
    simpl in H. repeat case_decide; try lia; try done.
  - intros z. rewrite (live_insert P _ _ e' _ He). split.
    + intros [[? _]|[-> _]]; [done|]. split; [lia|]. rewrite Z2Nat.id by done.
      by exists e.
    + intros Hz. destruct (decide (Z.to_nat z = Z.to_nat y)) as [Heq|Hne]; [|by left].
      right. destruct Hz as [Hz _]. split; [lia|]. simpl. lia.
Qed.

Lemma PEO_inv_mono R R' P : PEO_inv R P -> R <= R' -> PEO_inv R' P.
Proof.
  intros (HR & HL & HE & HLv & Hlen) Hle. split; [lia|]. split; [lia|].
  split; [|done]. intros z e Hz.
  destruct (HE _ _ Hz) as [?|(? & ? & ?)]; [by left|right]. split; [lia|done].
Qed.

Lemma raise_fold R x Ns : forall P,
  NoDup Ns -> (forall y, y ∈ Ns -> 0 <= y) ->
  PEO_inv (R + 1) P -> R + 1 < 2 ^ 31 -> Z.of_nat (length (Elements P)) < 2 ^ 31 ->
  (forall y e, y ∈ Ns -> Elements P !! Z.to_nat y = Some e ->
     weight e = UINT_MAX \/ weight e <= R) ->
  let P' := foldl (raise x) P Ns in
  PEO_inv (R + 1) P' /\ length (Elements P') = length (Elements P) /\
  live_count P' = live_count P /\ (forall z, live P' z <-> live P z).
Proof.
  induction Ns as [|y Ns IH]; intros P Hnd Hpos HI HR Hn Hw; simpl; [done|].
  apply NoDup_cons in Hnd as [Hy Hnd].
  assert (0 <= y) as Hy0 by (apply Hpos; by left).
  destruct (raise_step R x P y HI HR Hn Hy0) as (HI1 & Hl1 & Hsame & Hlc & Hlive).
  { intros e. apply Hw. by left. }
  destruct (IH (raise x P y)) as (HI2 & Hl2 & Hlc2 & Hlive2); try done.
  - intros z Hz. apply Hpos. by right.
  - by rewrite Hl1.
  - intros z e Hz. rewrite Hsame.
    + apply Hw. by right.
    + intros Heq. assert (z = y); [|by subst].
      assert (0 <= z) by (apply Hpos; by right). lia.
  - split; [done|]. split; [congruence|]. split; [congruence|].
    intros z. by rewrite Hlive2.
Qed.

Lemma filter_all {A} (f : A -> Prop) `{!forall x, Decision (f x)} (l : list A) :
  (forall x, x ∈ l -> f x) -> filter f l = l.
Proof.
  induction l as [|a l IH]; intros Hall; [done|].
  rewrite filter_cons, decide_True by (apply Hall; by left).
  f_equal. apply IH. intros x Hx. apply Hall. by right.
Qed.

Lemma filter_none {A} (f : A -> Prop) `{!forall x, Decision (f x)} (l : list A) :
  (forall x, x ∈ l -> ~ f x) -> filter f l = [].
Proof.
  induction l as [|a l IH]; intros Hall; [done|].
  rewrite filter_cons, decide_False by (apply Hall; by left).
  apply IH. intros x Hx. apply Hall. by right.
Qed.

Lemma PEO_next_spec R P x P' :
  PEO_inv R P -> length (Elements P) = length N ->
  R + Z.of_nat (live_count P) = Z.of_nat (length N) ->
  PEO_next N P = (x, P') ->
  (x = -1 /\ live_count P = 0%nat) \/
  (x <> -1 /\ live P x /\ PEO_inv (R + 1) P' /\ length (Elements P') = length N /\
   live_count P = Datatypes.S (live_count P') /\
   (forall y, live P' y <-> live P y /\ y <> x)).
Proof.
  intros HI Hlen HR. unfold PEO_next.
  destruct (pop_levels (rev (Levels P))) as [x0 Rrev] eqn:Hpop.
  destruct (Z.eqb_spec x0 (-1)) as [->|Hx].
  - intros [= <- <-]. left. split; [done|].
    destruct (pop_levels_lookup _ _ _ Hpop) as [_ [(_ & _ & Hall)|[? _]]]; [|done].
    unfold live_count. rewrite filter_none; [done|].
    intros e [i Hi]%list_elem_of_lookup_1 Hw.
    destruct HI as (_ & _ & HE & _).
    destruct (HE _ _ Hi) as [?|(_ & _ & lvl & Hlv & Hlp)]; [done|].
    specialize (Hall _ _ _ _ Hlv Hlp). lia.
  - intros [= <- <-]. right. split; [done|].
    assert (R < 2 ^ 31 - 1) as HRs.
    { destruct (pop_retire R P x0 Rrev HI) as (_ & _ & _ & Hlc & _); try done; [|lia].
      destruct HI as (? & HL & _).
      destruct (pop_levels_lookup _ _ _ Hpop) as [_ [[? _]|(_ & w0 & p0 & lvl0 & Hw0 & _)]];
        [done|]. apply lookup_lt_Some in Hw0. lia. }
    destruct (pop_retire R P x0 Rrev HI) as (Hlive & HI2 & Hl2 & Hlc & Hl); try done; [lia|].
    simpl in *.
    set (P2 := mkPEO (set_weight (Elements P) x0 UINT_MAX) (rev Rrev)) in *.
    destruct (raise_fold R x0 (default [] (N !! Z.to_nat x0)) P2)
      as (HI3 & Hl3 & Hlc3 & Hlive3).
    + destruct (N !! Z.to_nat x0) as [l|] eqn:El; simpl; [|constructor].
      by apply (Neighbors_wf_lookup _ _ El).
    + destruct (N !! Z.to_nat x0) as [l|] eqn:El; simpl; [|by inversion 1].
      intros y Hy. by apply (Neighbors_wf_lookup _ _ El).
    + apply (PEO_inv_mono R); [done|lia].
    + lia.
    + simpl. rewrite Hl2. lia.
    + intros y e _ He. destruct HI2 as (_ & _ & HE & _). simpl in HE.
      destruct (HE _ _ He) as [?|[? _]]; [by left|right; lia].
    + split; [done|]. split; [done|]. split; [by rewrite Hl3, <- Hlen|].
      split; [by rewrite Hlc3|]. intros y. by rewrite Hlive3.
Qed.

Lemma PEO_order_spec fuel : forall P R,
  PEO_inv R P -> length (Elements P) = length N ->
  R + Z.of_nat (live_count P) = Z.of_nat (length N) ->
  (live_count P < fuel)%nat ->
  NoDup (PEO_order fuel N P) /\ (forall y, y ∈ PEO_order fuel N P -> live P y) /\
  length (PEO_order fuel N P) = live_count P.
Proof.
  induction fuel as [|fuel IH]; intros P R HI Hlen HR Hf; [lia|]. simpl.
  destruct (PEO_next N P) as [x P'] eqn:Hn.
  destruct (PEO_next_spec R P x P' HI Hlen HR Hn)
    as [[-> Hz]|(Hx & Hlive & HI' & Hlen' & Hlc & Hl)].
  - simpl. split; [constructor|]. split; [by inversion 1|done].
  - destruct (Z.eqb_spec x (-1)); [done|].
    destruct (IH P' (R + 1) HI' Hlen') as (Hnd & Hall & Hlo); [lia..|].
    split; [|split].
    + constructor; [|done]. intros Hin. apply Hall, Hl in Hin. by destruct Hin.
    + intros y [->|Hy]%elem_of_cons; [done|]. by apply Hl, Hall.
    + simpl. lia.
Qed.

Lemma PEOIterator_init_inv :
  PEO_inv 0 (PEOIterator_init N) /\ length (Elements (PEOIterator_init N)) = length N /\
  live_count (PEOIterator_init N) = length N.
Proof.
  unfold PEOIterator_init. simpl.
  assert (forall (i : nat) e, ((fun i : nat => mkElement 0 (Z.of_nat i)) <$> seq 0 (length N)) !! i
            = Some e -> (i < length N)%nat /\ e = mkElement 0 (Z.of_nat i)) as HE.
  { intros i e. rewrite list_lookup_fmap.
    destruct (seq 0 (length N) !! i) as [j|] eqn:Ej; [|done].
    apply lookup_seq in Ej as [-> ?]. by intros [= <-]. }
  split; [|split].
  - split; [done|]. split; [simpl; lia|]. simpl. split; [|split].
    + intros x e [Hx ->]%HE. right. simpl. split; [lia|]. split; [lia|].
      eexists. split; [done|]. rewrite Nat2Z.id, list_lookup_fmap, lookup_seq_lt; done.
    + intros [|w] p lvl y; [|by destruct w]. intros [= <-]. rewrite list_lookup_fmap.
      destruct (seq 0 (length N) !! p) as [j|] eqn:Ej; [|done].
      apply lookup_seq in Ej as [-> ?]. intros [= <-]. right. split; [lia|].
      rewrite Nat2Z.id, list_lookup_fmap, lookup_seq_lt; done.
    + intros [|w] lvl; [|by destruct w]. intros [= <-]. unfold reached.
      rewrite filter_all.
      * by rewrite !length_fmap.
      * intros e [i [_ ->]%HE]%list_elem_of_lookup_1. right. simpl. lia.
  - by rewrite length_fmap, length_seq.
  - unfold live_count. simpl. rewrite filter_all.
    + by rewrite length_fmap, length_seq.
    + intros e [i [_ ->]%HE]%list_elem_of_lookup_1. simpl. pose proof UINT_MAX_val. lia.
Qed.

Lemma live_init y : live (PEOIterator_init N) y -> 0 <= y < Z.of_nat (length N).
Proof.
  intros [Hy (e & He & _)]. apply lookup_lt_Some in He.
  destruct PEOIterator_init_inv as (_ & Hl & _). lia.
Qed.
End PEO.

(** X2.  On a graph whose neighbour lists hold vertices, none twice, the
    iterator gives out every vertex exactly once and then -1: the elements
    of any run with more calls than vertices are a permutation of the
    vertices. *)
Theorem PEO_order_complete (N : list (list Z)) (fuel : nat) :
  Neighbors_wf N -> Z.of_nat (length N) < 2 ^ 31 -> (length N < fuel)%nat ->
  PEO_order fuel N (PEOIterator_init N) ≡ₚ Z.of_nat <$> seq 0 (length N).
Proof.
  intros Hwf Hsmall Hfuel.
  destruct (PEOIterator_init_inv N) as (HI & Hl & Hlc).
  destruct (PEO_order_spec N Hwf Hsmall fuel _ 0 HI Hl) as (Hnd & Hall & Hlen); [lia..|].
  apply submseteq_length_Permutation.
  - apply NoDup_submseteq; [done|]. intros y Hy%Hall%live_init.
    apply list_elem_of_fmap. exists (Z.to_nat y). split; [lia|].
    apply elem_of_seq. lia.
  - rewrite length_fmap, length_seq. lia.
Qed.

Lemma PEO_order_complete_witness :
  Neighbors_wf [[0; 1]; [0; 1]; [2]] /\
  PEO_order 4 [[0; 1]; [0; 1]; [2]] (PEOIterator_init [[0; 1]; [0; 1]; [2]])
    ≡ₚ [0; 1; 2].
Proof.
  assert (Neighbors_wf [[0; 1]; [0; 1]; [2]]) as H.
  { unfold Neighbors_wf. apply (bool_decide_unpack _). vm_compute. reflexivity. }
  split; [exact H|].
  apply (PEO_order_complete [[0; 1]; [0; 1]; [2]] 4 H); [vm_compute; reflexivity|simpl; lia].
Defined.

Section ColorElement.
Variable S : State.
Variable P : Z.
Hypothesis P_nonneg : 0 <= P.

Lemma color_element_assigns C Max O v :
  ranged P C Max ->
  let G := color_element S P (mkGreedy C Max O) v in
  ranged P (Colors G) (MaxAssignedColor G) /\ length (Colors G) = length C /\
  Ordering G = O /\
  (forall (j : nat) c, C !! j = Some c -> c <> -1 -> Colors G !! j = Some c) /\
  (forall (j : nat) c, Colors G !! j = Some c -> c <> -1 ->
     C !! j = Some c \/ (j = Z.to_nat v /\ P <= c /\ has_neighbors (Neighbors S) j)) /\
  (0 <= v -> (Z.to_nat v < length C)%nat -> has_neighbors (Neighbors S) (Z.to_nat v) ->
   exists c, Colors G !! Z.to_nat v = Some c /\ 0 <= c).
Proof.
  intros (HMax & Hrange). unfold color_element. simpl.
  destruct (Z.eqb_spec (getColor C v) (-1)) as [Hc|Hc]; simpl.
  2:{ split; [done|]. split; [done|]. split; [done|]. split; [done|].
      split; [by left|]. intros Hv Hlt _.
      unfold getColor in Hc. destruct (Z.leb_spec 0 v); [|lia].
      destruct (C !! Z.to_nat v) as [c|] eqn:E; [|done]. simpl in Hc.
      exists c. split; [done|]. destruct (Hrange _ _ E). lia. }
  destruct (default [] (Neighbors S !! Z.to_nat v)) as [|n0 Ns0] eqn:ENs.
  { split; [done|]. split; [done|]. split; [done|]. split; [done|].
    split; [by left|]. intros _ _ Hn. by unfold has_neighbors in Hn. }
  assert (has_neighbors (Neighbors S) (Z.to_nat v)) as HNs.
  { unfold has_neighbors. by rewrite ENs. }
  rewrite <- ENs. clear n0 Ns0 ENs.
  set (Ns := default [] (Neighbors S !! Z.to_nat v)) in *.
  set (U0 := BV.reset (BV.resize (Z.to_nat (Max + 2)) BV.empty)).
  set (U := foldl (mark_neighbor C P) U0 Ns).
  assert (length U = Z.to_nat (Max + 2)) as HlenU.
  { unfold U. rewrite mark_neighbors_length. unfold U0, BV.reset, BV.resize.
    by rewrite length_replicate, length_resize. }
  assert (forall k, BV.test U k = true -> Z.of_nat k <= Max) as HU2.
  { intros k [Hk|(nb & Hin & Hc1 & Hc2 & <- & _)]%mark_neighbors_test.
    - unfold U0 in Hk. by rewrite BV_test_reset in Hk.
    - unfold getColor in *. destruct (0 <=? nb); [|done].
      destruct (C !! Z.to_nat nb) as [c|] eqn:E; simpl in *; [|done].
      destruct (Hrange _ _ E) as [_ Hr]. specialize (Hr Hc2). lia. }
  destruct (find_first_spec (BV.flip U)) as [[_ Hnone]|(k & -> & Hk)].
  { exfalso. specialize (Hnone (Z.to_nat (Max + 1))).
    rewrite BV_test_flip, decide_True in Hnone; [|lia].
    apply negb_false_iff, HU2 in Hnone. lia. }
  rewrite BV_test_flip in Hk. case_decide as Hklt; [|done].
  simpl. split; [|split; [apply setColor_length|]]; [|split; [done|]]; [|split; [|split]].
  - split; [destruct (Z.ltb_spec Max (Z.of_nat k)); lia|].
    intros i c [(_ & _ & ->)|[Hl _]]%setColor_lookup.
    + destruct (Z.ltb_spec Max (Z.of_nat k)); lia.
    + destruct (Hrange _ _ Hl) as [? Hr]. split; [done|]. intros Hp. specialize (Hr Hp).
      destruct (Z.ltb_spec Max (Z.of_nat k)); lia.
  - intros j c Hj Hcj. unfold setColor. destruct (Z.leb_spec 0 v); [|done].
    rewrite list_lookup_insert_ne; [done|]. intros <-.
    unfold getColor in Hc. destruct (Z.leb_spec 0 v); [|lia].
    rewrite Hj in Hc. done.
  - intros j c [(_ & <- & ->)|[Hl _]]%setColor_lookup Hcj; [right|by left].
    split; [done|]. split; [lia|done].
  - intros Hv Hlt _. exists (Z.of_nat k + P). split; [|lia].
    unfold setColor. destruct (Z.leb_spec 0 v); [|lia].
    by rewrite list_lookup_insert_eq.
Qed.

Lemma greedy_loop_keeps fuel : forall G G',
  ranged P (Colors G) (MaxAssignedColor G) ->
  greedy_loop fuel S P G = Ok G' ->
  length (Colors G') = length (Colors G) /\
  (forall (j : nat) c, Colors G !! j = Some c -> c <> -1 -> Colors G' !! j = Some c) /\
  (forall (j : nat) c, Colors G' !! j = Some c ->
     -1 <= c /\ (c <> -1 -> Colors G !! j = Some c \/
                             (P <= c /\ has_neighbors (Neighbors S) j))).
Proof.
  induction fuel as [|fuel IH]; intros G G' HG; simpl; [done|].
  destruct (PEO_next (Neighbors S) (Ordering G)) as [v O'] eqn:En.
  destruct (Z.eqb_spec v (-1)) as [->|Hv].
  - intros [= <-]. simpl. split; [done|]. split; [done|].
    intros j c Hj. split; [by apply HG in Hj as [? _]|]. by left.
  - intros Hloop.
    destruct (color_element_assigns (Colors G) (MaxAssignedColor G) O' v HG)
      as (H1 & H2 & H3 & H4 & H5 & _).
    destruct (IH _ _ H1 Hloop) as (H6 & H7 & H8).
    split; [by rewrite H6|]. split.
    + intros j c Hj Hc. apply H7; [|done]. by apply H4.
    + intros j c Hj. destruct (H8 _ _ Hj) as [Hge Hor]. split; [done|].
      intros Hc. destruct (Hor Hc) as [Hold|?]; [|by right].
      destruct (H5 _ _ Hold Hc) as [?|(_ & ? & ?)]; [by left|by right].
Qed.

Section Total.
Hypothesis N_wf : Neighbors_wf (Neighbors S).
Hypothesis N_small : Z.of_nat (length (Neighbors S)) < 2 ^ 31.

Lemma greedy_loop_total fuel : forall G R,
  PEO_inv R (Ordering G) -> length (Elements (Ordering G)) = length (Neighbors S) ->
  R + Z.of_nat (live_count (Ordering G)) = Z.of_nat (length (Neighbors S)) ->
  (live_count (Ordering G) < fuel)%nat ->
  ranged P (Colors G) (MaxAssignedColor G) ->
  length (Colors G) = length (Neighbors S) ->
  exists G', greedy_loop fuel S P G = Ok G' /\
    forall y, live (Ordering G) y -> has_neighbors (Neighbors S) (Z.to_nat y) ->
      exists c, Colors G' !! Z.to_nat y = Some c /\ 0 <= c.
Proof.
  induction fuel as [|fuel IH]; intros G R HI Hlen HR Hf HG HC; [lia|]. simpl.
  destruct (PEO_next (Neighbors S) (Ordering G)) as [x O'] eqn:Hn.
  destruct (PEO_next_spec (Neighbors S) N_wf N_small R _ x O' HI Hlen HR Hn)
    as [[-> Hz]|(Hx & Hlive & HI' & Hlen' & Hlc & Hl)].
  - simpl. eexists. split; [done|]. simpl. intros y (Hy & e & He & Hw) _. exfalso.
    unfold live_count in Hz. apply length_zero_iff_nil in Hz.
    assert (e ∈ filter (fun e => weight e <> UINT_MAX) (Elements (Ordering G))) as Hin.
    { apply list_elem_of_filter. split; [done|]. by eapply list_elem_of_lookup_2. }
    rewrite Hz in Hin. by inversion Hin.
  - destruct (Z.eqb_spec x (-1)); [done|].
    destruct (color_element_assigns (Colors G) (MaxAssignedColor G) O' x HG)
      as (H1 & H2 & H3 & H4 & H5 & H6).
    set (G1 := color_element S P _ x) in *.
    destruct (IH G1 (R + 1)) as (G' & HG' & Hcol).
    + by rewrite H3.
    + by rewrite H3.
    + rewrite H3. lia.
    + rewrite H3. lia.
    + done.
    + congruence.
    + exists G'. split; [done|]. intros y Hy Hny.
      destruct (decide (y = x)) as [->|Hne].
      * destruct Hlive as (Hx0 & e & He & _). apply lookup_lt_Some in He.
        destruct H6 as (c & Hc & Hc0); [done|lia|done|].
        destruct (greedy_loop_keeps fuel G1 G' H1 HG') as (_ & Hk & _).
        exists c. split; [|done]. apply Hk; [done|lia].
      * apply Hcol; [|done]. rewrite H3. by apply Hl.
Qed.
End Total.
End ColorElement.

Section PreAssignSpec.
Variable S : State.

Lemma preassign_bit_spec a Idx :
  preassigned a -> distinct_colors a.1 ->
  let r := preassign_bit a Idx in
  preassigned r /\ distinct_colors r.1 /\ length r.1 = length a.1 /\ a.2 <= r.2 /\
  (forall (i : nat) c, a.1 !! i = Some c -> c <> -1 -> r.1 !! i = Some c) /\
  (forall (i : nat) c, r.1 !! i = Some c -> c <> -1 ->
     a.1 !! i = Some c \/ (i = Idx /\ a.2 <= c)) /\
  ((Idx < length a.1)%nat -> exists c, r.1 !! Idx = Some c /\ c <> -1).
Proof.
  intros Ha Hd. pose proof (preassign_bit_ok a Idx Ha) as Hok.
  pose proof (preassign_bit_length a Idx) as Hlen. destruct Ha as [Hp Hc].
  unfold preassign_bit in *. rewrite getColor_lookup in *.
  destruct (Z.eqb_spec (default (-1) (a.1 !! Idx)) (-1)) as [He|He]; simpl in *.
  - unfold setColor in *. destruct (Z.leb_spec 0 (Z.of_nat Idx)); [|lia].
    rewrite Nat2Z.id in *.
    split; [done|]. split; [|split; [done|split; [lia|split; [|split]]]].
    + intros i j c Hi Hj Hne.
      destruct (decide (i = Idx)) as [->|Hi'], (decide (j = Idx)) as [->|Hj']; [done|..].
      * rewrite list_lookup_insert_ne in Hj by done.
        apply lookup_lt_Some in Hi as Hlt. rewrite length_insert in Hlt.
        rewrite list_lookup_insert_eq in Hi by done. injection Hi as <-.
        destruct (Hc _ _ Hj); lia.
      * rewrite list_lookup_insert_ne in Hi by done.
        apply lookup_lt_Some in Hj as Hlt. rewrite length_insert in Hlt.
        rewrite list_lookup_insert_eq in Hj by done. injection Hj as <-.
        destruct (Hc _ _ Hi); lia.
      * rewrite list_lookup_insert_ne in Hi, Hj by done. by eapply Hd.
    + intros i c Hi Hne. rewrite list_lookup_insert_ne; [done|].
      intros <-. rewrite Hi in He. done.
    + intros i c Hi Hne. destruct (decide (i = Idx)) as [->|Hi'].
      * apply lookup_lt_Some in Hi as Hlt. rewrite length_insert in Hlt.
        rewrite list_lookup_insert_eq in Hi by done. injection Hi as <-.
        right. split; [done|lia].
      * rewrite list_lookup_insert_ne in Hi by done. by left.
    + intros Hlt. exists a.2. rewrite list_lookup_insert_eq by done. split; [done|lia].
  - split; [done|]. split; [done|]. split; [done|]. split; [lia|].
    split; [done|]. split; [by left|].
    intros [c Hl]%lookup_lt_is_Some_2. rewrite Hl in He. by exists c.
Qed.

Lemma preassign_bits_spec l : forall a,
  preassigned a -> distinct_colors a.1 ->
  let r := foldl preassign_bit a l in
  preassigned r /\ distinct_colors r.1 /\ length r.1 = length a.1 /\ a.2 <= r.2 /\
  (forall (i : nat) c, a.1 !! i = Some c -> c <> -1 -> r.1 !! i = Some c) /\
  (forall (i : nat) c, r.1 !! i = Some c -> c <> -1 ->
     a.1 !! i = Some c \/ (i ∈ l /\ a.2 <= c)) /\
  (forall i, i ∈ l -> (i < length a.1)%nat -> exists c, r.1 !! i = Some c /\ c <> -1).
Proof.
  induction l as [|Idx l IH]; intros a Ha Hd; simpl.
  - split; [done|]. split; [done|]. split; [done|]. split; [lia|].
    split; [done|]. split; [by left|]. by inversion 1.
  - destruct (preassign_bit_spec a Idx Ha Hd) as (H1 & H2 & H3 & H4 & H5 & H6 & H7).
    destruct (IH _ H1 H2) as (I1 & I2 & I3 & I4 & I5 & I6 & I7).
    split; [done|]. split; [done|]. split; [congruence|]. split; [lia|].
    split; [|split].
    + intros i c Hi Hne. apply I5; [|done]. by apply H5.
    + intros i c Hi Hne. destruct (I6 _ _ Hi Hne) as [Hold|[Hin Hge]].
      * destruct (H6 _ _ Hold Hne) as [?|[-> ?]]; [by left|right].
        split; [by left|done].
      * right. split; [by right|lia].
    + intros i [->|Hin]%elem_of_cons Hlt.
      * destruct (H7 Hlt) as (c & Hc & Hne). exists c. split; [|done]. by apply I5.
      * apply I7; [done|]. by rewrite H3.
Qed.

Lemma preassign_calls_abort l : forall a,
  (exists sp, sp ∈ l /\ SafepointNumbering S !! sp = None) ->
  foldl (preassign_call S) (Ok a) l = Abort "std::out_of_range".
Proof.
  assert (forall l', foldl (preassign_call S) (Abort "std::out_of_range") l' =
                     Abort "std::out_of_range") as Hab.
  { induction l' as [|y l' IHl']; [done|]. simpl. apply IHl'. }
  induction l as [|it l IH]; intros a (sp & Hin & Hsp); [by inversion Hin|]. simpl.
  destruct (SafepointNumbering S !! it) as [Num|] eqn:E; simpl; [|apply Hab].
  apply IH. apply elem_of_cons in Hin as [->|Hin]; [congruence|]. by exists sp.
Qed.

Lemma preassign_calls_spec l : forall a,
  preassigned a -> distinct_colors a.1 ->
  (forall sp, sp ∈ l -> is_Some (SafepointNumbering S !! sp)) ->
  exists r, foldl (preassign_call S) (Ok a) l = Ok r /\
    preassigned r /\ distinct_colors r.1 /\ length r.1 = length a.1 /\ a.2 <= r.2 /\
    (forall (i : nat) c, a.1 !! i = Some c -> c <> -1 -> r.1 !! i = Some c) /\
    (forall (i : nat) c, r.1 !! i = Some c -> c <> -1 ->
       a.1 !! i = Some c \/ (a.2 <= c /\ exists sp, sp ∈ l /\ live_at S sp i)) /\
    (forall sp i, sp ∈ l -> live_at S sp i -> (i < length a.1)%nat ->
       exists c, r.1 !! i = Some c /\ c <> -1).
Proof.
  induction l as [|it l IH]; intros a Ha Hd Hnum; simpl.
  - exists a. split; [done|]. split; [done|]. split; [done|]. split; [done|].
    split; [lia|]. split; [done|]. split; [by left|]. by inversion 1.
  - destruct (Hnum it) as [Num HNum]; [by left|]. rewrite HNum. simpl.
    set (LS := default [] (LiveSets S !! Z.to_nat Num)).
    destruct (preassign_bits_spec (BV.bits LS) a Ha Hd) as (H1 & H2 & H3 & H4 & H5 & H6 & H7).
    destruct (IH _ H1 H2) as (r & Hr & I1 & I2 & I3 & I4 & I5 & I6 & I7).
    { intros sp Hsp. apply Hnum. by right. }
    exists r. split; [done|]. split; [done|]. split; [done|]. split; [congruence|].
    split; [lia|]. split; [|split].
    + intros i c Hi Hne. apply I5; [|done]. by apply H5.
    + intros i c Hi Hne. destruct (I6 _ _ Hi Hne) as [Hold|(Hge & sp & Hin & Hl)].
      * destruct (H6 _ _ Hold Hne) as [?|[Hb ?]]; [by left|right].
        split; [done|]. exists it. split; [by left|].
        apply BV_elem_of_bits in Hb. exists Num. unfold LS in Hb.
        destruct (LiveSets S !! Z.to_nat Num) as [LS'|] eqn:ELS; [|done].
        by exists LS'.
      * right. split; [lia|]. exists sp. split; [by right|done].
    + intros sp i [->|Hin]%elem_of_cons Hl Hlt.
      * destruct Hl as (idx & LS' & Hidx & HLS & Ht).
        rewrite HNum in Hidx. injection Hidx as <-.
        destruct (H7 i) as (c & Hc & Hne); [|done|].
        { apply BV_elem_of_bits. unfold LS. by rewrite HLS. }
        exists c. split; [|done]. by apply I5.
      * eapply I7; [done..|]. by rewrite H3.
Qed.

Lemma PreAssign_numbered C0 P0 :
  PreAssign S = Ok (C0, P0) ->
  forall sp, sp ∈ ReturnsTwice S -> is_Some (SafepointNumbering S !! sp).
Proof.
  intros H sp Hsp. destruct (SafepointNumbering S !! sp) eqn:E; [done|].
  unfold PreAssign in H. rewrite preassign_calls_abort in H; [done|]. by exists sp.
Qed.

Lemma PreAssign_spec :
  (forall sp, sp ∈ ReturnsTwice S -> is_Some (SafepointNumbering S !! sp)) ->
  exists C0 P0, PreAssign S = Ok (C0, P0) /\
    preassigned (C0, P0) /\ distinct_colors C0 /\
    length C0 = Z.to_nat (MaxPtrNumber S + 1) /\
    (forall (i : nat) c, C0 !! i = Some c -> c <> -1 ->
       exists sp, sp ∈ ReturnsTwice S /\ live_at S sp i) /\
    (forall sp (i : nat), sp ∈ ReturnsTwice S -> live_at S sp i ->
       (i < Z.to_nat (MaxPtrNumber S + 1))%nat ->
       exists c, C0 !! i = Some c /\ 0 <= c < P0).
Proof.
  intros Hnum. unfold PreAssign.
  destruct (preassign_calls_spec (ReturnsTwice S)
              (replicate (Z.to_nat (MaxPtrNumber S + 1)) (-1), 0))
    as ([C0 P0] & Hr & H1 & H2 & H3 & H4 & H5 & H6 & H7); simpl in *.
  - split; simpl; [lia|]. intros i c [-> _]%lookup_replicate. by left.
  - intros i j c [-> _]%lookup_replicate. done.
  - done.
  - exists C0, P0. split; [done|]. split; [done|]. split; [done|].
    rewrite length_replicate in *. split; [done|]. split.
    + intros i c Hi Hne. destruct (H6 _ _ Hi Hne) as [[-> _]%lookup_replicate|[_ ?]]; done.
    + intros sp i Hsp Hl Hlt. destruct (H7 sp i Hsp Hl Hlt) as (c & Hc & Hne).
      exists c. split; [done|]. destruct H1 as [_ H1]. destruct (H1 _ _ Hc); simpl in *; [done|lia].
Qed.
End PreAssignSpec.

Section ColorRootsResult.
Variable S : State.
Hypothesis N_wf : Neighbors_wf (Neighbors S).
Hypothesis N_len : length (Neighbors S) = Z.to_nat (MaxPtrNumber S + 1).
Hypothesis N_small : Z.of_nat (length (Neighbors S)) < 2 ^ 31.

Lemma greedy_from_PreAssign C0 P0 :
  PreAssign S = Ok (C0, P0) ->
  exists Colors, ColorRoots S = Ok (Colors, P0) /\ 0 <= P0 /\
    length Colors = Z.to_nat (MaxPtrNumber S + 1) /\
    (forall (j : nat) c, C0 !! j = Some c -> c <> -1 -> Colors !! j = Some c) /\
    (forall (j : nat) c, Colors !! j = Some c ->
       -1 <= c /\ (c <> -1 -> C0 !! j = Some c \/
                               (P0 <= c /\ has_neighbors (Neighbors S) j))) /\
    (forall i : nat, (i < Z.to_nat (MaxPtrNumber S + 1))%nat ->
       has_neighbors (Neighbors S) i -> exists c, Colors !! i = Some c /\ 0 <= c).
Proof.
  intros HP. pose proof (PreAssign_ok _ _ _ HP) as [[HP0 HC0] Hlen]. simpl in *.
  destruct (PEOIterator_init_inv (Neighbors S)) as (HI & Hl & Hlc).
  set (G0 := mkGreedy C0 (-1) (PEOIterator_init (Neighbors S))).
  assert (ranged P0 (Colors G0) (MaxAssignedColor G0)) as Hr.
  { split; [simpl; lia|]. simpl. intros i c Hc. destruct (HC0 _ _ Hc); lia. }
  destruct (greedy_loop_total S P0 HP0 N_wf N_small (Datatypes.S (length (Neighbors S))) G0 0)
    as (G' & HG' & Hcol); simpl; try done; try lia.
  destruct (greedy_loop_keeps S P0 HP0 _ G0 G' Hr HG') as (Hlen' & Hkeep & Hnew).
  exists (Colors G'). unfold ColorRoots, ColorRoots_fuel. rewrite HP. bind_ok.
  fold G0. rewrite HG'. split; [done|]. split; [done|]. simpl in *.
  split; [congruence|]. split; [done|]. split; [done|].
  intros i Hi Hn. destruct (Hcol (Z.of_nat i)) as (c & Hc & Hc0).
  - split; [lia|]. rewrite Nat2Z.id.
    destruct (lookup_lt_is_Some_2 (Elements (PEOIterator_init (Neighbors S))) i) as [e He].
    { unfold PEOIterator_init. simpl. rewrite length_fmap, length_seq. lia. }
    exists e. split; [done|]. unfold PEOIterator_init in He. simpl in He.
    rewrite list_lookup_fmap in He.
    destruct (seq 0 (length (Neighbors S)) !! i); [|done]. injection He as <-. done.
  - by rewrite Nat2Z.id.
  - rewrite Nat2Z.id in Hc. by exists c.
Qed.
End ColorRootsResult.

Section AfterLiveSets.
Variable F : Function.
Variable S : State.
Hypothesis N_empty : Neighbors S = [].
Let S' := ComputeLiveSets F S.

Lemma ComputeLiveSets_Neighbors :
  Neighbors S' = InterferenceGraph (foldl (LiveSet_step F) S (map_to_list (SafepointNumbering S))).
Proof.
  unfold S', ComputeLiveSets.
  pose proof (LiveSet_loop_same F (map_to_list (SafepointNumbering S)) S) as Hs.
  destruct Hs as (_ & _ & _ & _ & _ & _ & HN1 & _). simpl. by rewrite HN1, N_empty.
Qed.

Lemma ComputeLiveSets_Neighbors_length :
  length (Neighbors S') = Z.to_nat (MaxPtrNumber S' + 1).
Proof.
  rewrite ComputeLiveSets_Neighbors, InterferenceGraph_length.
  unfold S', ComputeLiveSets. done.
Qed.

Lemma ComputeLiveSets_adjacent (i j : nat) :
  adjacent (Neighbors S') i j <->
  (i < Z.to_nat (MaxPtrNumber S' + 1))%nat /\
  exists sp idx LS, SafepointNumbering S' !! sp = Some idx /\
    LiveSets S' !! Z.to_nat idx = Some LS /\ BV.test LS i = true /\ BV.test LS j = true.
Proof.
  rewrite ComputeLiveSets_Neighbors, InterferenceGraph_adjacent, NeighborBits_test.
  unfold S', ComputeLiveSets. done.
Qed.

Lemma ComputeLiveSets_has_neighbors (i : nat) :
  (i < Z.to_nat (MaxPtrNumber S' + 1))%nat ->
  has_neighbors (Neighbors S') i <-> exists sp, live_at S' sp i.
Proof.
  intros Hi. unfold has_neighbors. split.
  - intros Hn. destruct (default [] (Neighbors S' !! i)) as [|y l] eqn:E; [done|].
    assert (y ∈ default [] (Neighbors S' !! i)) as Hy by (rewrite E; by left).
    rewrite ComputeLiveSets_Neighbors in Hy. rewrite InterferenceGraph_lookup in Hy.
    2:{ unfold S', ComputeLiveSets in Hi. done. }
    simpl in Hy. apply list_elem_of_fmap in Hy as (j & -> & Hj).
    assert (adjacent (Neighbors S') i j) as Ha.
    { apply ComputeLiveSets_adjacent. split; [done|].
      apply BV_elem_of_bits, NeighborBits_test in Hj. unfold S', ComputeLiveSets. done. }
    apply ComputeLiveSets_adjacent in Ha as (_ & sp & idx & LS & ? & ? & ? & _).
    exists sp, idx, LS. done.
  - intros (sp & idx & LS & Hsp & HLS & Ht).
    assert (adjacent (Neighbors S') i i) as Ha.
    { apply ComputeLiveSets_adjacent. split; [done|]. by exists sp, idx, LS. }
    unfold adjacent in Ha. intros E. rewrite E in Ha. by inversion Ha.
Qed.

Lemma ComputeLiveSets_Neighbors_wf :
  (forall sp idx LS, SafepointNumbering S' !! sp = Some idx ->
     LiveSets S' !! Z.to_nat idx = Some LS ->
     (length LS <= Z.to_nat (MaxPtrNumber S' + 1))%nat) ->
  Neighbors_wf (Neighbors S').
Proof.
  intros Hw. apply Forall_lookup. intros v l Hl.
  pose proof (lookup_lt_Some _ _ _ Hl) as Hv.
  rewrite ComputeLiveSets_Neighbors_length in Hv. split.
  - rewrite ComputeLiveSets_Neighbors, InterferenceGraph_lookup in Hl.
    2:{ unfold S', ComputeLiveSets in Hv. done. }
    injection Hl as <-. apply NoDup_fmap_2; [apply Nat2Z.inj'|apply BV_bits_NoDup].
  - apply Forall_forall. intros y Hy. rewrite ComputeLiveSets_Neighbors_length.
    assert (exists j : nat, y = Z.of_nat j /\ adjacent (Neighbors S') v j) as (j & -> & Ha).
    { pose proof Hl as Hl'.
      rewrite ComputeLiveSets_Neighbors, InterferenceGraph_lookup in Hl.
      2:{ unfold S', ComputeLiveSets in Hv. done. }
      injection Hl as <-. apply list_elem_of_fmap in Hy as (j & -> & Hj).
      exists j. split; [done|]. unfold adjacent. rewrite Hl'. simpl.
      apply list_elem_of_fmap. by exists j. }
    apply ComputeLiveSets_adjacent in Ha as (_ & sp & idx & LS & Hsp & HLS & _ & Hj).
    apply BV_test_lt in Hj. specialize (Hw _ _ _ Hsp HLS). lia.
Qed.
End AfterLiveSets.

(** After ComputeLiveSets, when every returns_twice call is a numbered
    safepoint and no live set is wider than the identifiers, ColorRoots
    returns one colour per identifier, and the colour is 0 or more exactly
    for the identifiers that are live at some safepoint. *)
Lemma ColorRoots_after_live_sets (F : Function) (S : State) :
  let S' := ComputeLiveSets F S in
  Neighbors S = [] -> MaxPtrNumber S < 2 ^ 31 - 1 ->
  Forall (fun sp => is_Some (SafepointNumbering S !! sp)) (ReturnsTwice S) ->
  Forall (fun LS => (length LS <= Z.to_nat (MaxPtrNumber S + 1))%nat) (LiveSets S') ->
  exists Colors P,
    ColorRoots S' = Ok (Colors, P) /\
    length Colors = Z.to_nat (MaxPtrNumber S + 1) /\
    forall (i : nat) c, Colors !! i = Some c ->
      -1 <= c /\ (0 <= c <-> exists sp, live_at S' sp i).
Proof.
  intros S' HN HM Hnum Hw. rewrite Forall_forall in Hnum. rewrite Forall_lookup in Hw.
  destruct (ComputeLiveSets_same F S) as (_ & HSN & _ & HMax & HRT). fold S' in HSN, HMax, HRT.
  pose proof (ComputeLiveSets_Neighbors_length F S HN) as Hlen. fold S' in Hlen.
  assert (Neighbors_wf (Neighbors S')) as Hwf.
  { apply ComputeLiveSets_Neighbors_wf; [done|]. fold S'. rewrite HMax.
    intros sp idx LS _ HLS. by apply (Hw _ _ HLS). }
  destruct (PreAssign_spec S') as (C0 & P0 & HP & _ & _ & _ & Hpre & _).
  { rewrite HRT, HSN. done. }
  destruct (greedy_from_PreAssign S' Hwf Hlen) with (C0 := C0) (P0 := P0)
    as (Colors & HC & HP0 & HlenC & Hkeep & Hnew & Hcol); [lia|done|].
  exists Colors, P0. split; [done|]. split; [by rewrite <- HMax|].
  intros i c Hi. destruct (Hnew _ _ Hi) as [Hge Hor]. split; [done|].
  assert (i < Z.to_nat (MaxPtrNumber S' + 1))%nat as Hilt.
  { rewrite <- HlenC. by eapply lookup_lt_Some. }
  split.
  - intros Hc. destruct Hor as [Hold|[_ Hn]]; [lia| |].
    + destruct (Hpre _ _ Hold) as (sp & _ & Hl); [lia|]. by exists sp.
    + by apply (ComputeLiveSets_has_neighbors F S HN).
  - intros Hl. apply (ComputeLiveSets_has_neighbors F S HN) in Hl; [|done].
    destruct (Hcol i Hilt Hl) as (c' & Hc' & ?). congruence.
Qed.

(** Under the same conditions on the graph, ColorRoots either returns or
    fails on the lookup of a returns_twice call in SafepointNumbering. *)
Lemma ColorRoots_outcome_after_live_sets (F : Function) (S : State) :
  let S' := ComputeLiveSets F S in
  Neighbors S = [] -> MaxPtrNumber S < 2 ^ 31 - 1 ->
  Forall (fun LS => (length LS <= Z.to_nat (MaxPtrNumber S + 1))%nat) (LiveSets S') ->
  (ColorRoots S' = Abort "std::out_of_range" \/
   exists Colors P, ColorRoots S' = Ok (Colors, P)) /\
  (ColorRoots S' = Abort "std::out_of_range" <->
   exists sp, sp ∈ ReturnsTwice S /\ SafepointNumbering S !! sp = None).
Proof.
  intros S' HN HM Hw. rewrite Forall_lookup in Hw.
  destruct (ComputeLiveSets_same F S) as (_ & HSN & _ & HMax & HRT). fold S' in HSN, HMax, HRT.
  pose proof (ComputeLiveSets_Neighbors_length F S HN) as Hlen. fold S' in Hlen.
  assert (Neighbors_wf (Neighbors S')) as Hwf.
  { apply ComputeLiveSets_Neighbors_wf; [done|]. fold S'. rewrite HMax.
    intros sp idx LS _ HLS. by apply (Hw _ _ HLS). }
  assert ((exists sp, sp ∈ ReturnsTwice S /\ SafepointNumbering S !! sp = None) ->
          ColorRoots S' = Abort "std::out_of_range") as Hab.
  { intros Hex. unfold ColorRoots, ColorRoots_fuel, PreAssign.
    rewrite preassign_calls_abort; [done|]. by rewrite HRT, HSN. }
  assert ((forall sp, sp ∈ ReturnsTwice S -> is_Some (SafepointNumbering S !! sp)) ->
          exists Colors P, ColorRoots S' = Ok (Colors, P)) as Hok.
  { intros Hnum. destruct (PreAssign_spec S') as (C0 & P0 & HP & _).
    { rewrite HRT, HSN. done. }
    destruct (greedy_from_PreAssign S' Hwf Hlen) with (C0 := C0) (P0 := P0)
      as (Colors & HC & _); [lia|done|]. by exists Colors, P0. }
  destruct (decide (Forall (fun sp => is_Some (SafepointNumbering S !! sp)) (ReturnsTwice S)))
    as [Hall|Hex].
  - rewrite Forall_forall in Hall. destruct (Hok Hall) as (Colors & P & HC).
    split; [right; by exists Colors, P|]. split; [by rewrite HC|].
    intros (sp & Hin & Hsp). apply Hall in Hin as [? ?]. congruence.
  - apply not_Forall_Exists in Hex; [|apply _]. apply Exists_exists in Hex as (sp & Hin & Hsp).
    assert (exists sp, sp ∈ ReturnsTwice S /\ SafepointNumbering S !! sp = None) as Hex'.
    { exists sp. split; [done|]. by apply eq_None_not_Some. }
    split; [left; by apply Hab|]. split; [done|by apply Hab].
Qed.

(** X5.  The colours below the count [P] that ColorRoots returns are the
    permanent slots of returns_twice calls: every identifier live at such a
    call has one, and no two identifiers share one. *)
Theorem returns_twice_slots_dedicated (S : State) (Colors : list Z) (P : Z) :
  ColorRoots S = Ok (Colors, P) ->
  (forall sp (i : nat), sp ∈ ReturnsTwice S -> live_at S sp i -> (i < length Colors)%nat ->
     exists c, Colors !! i = Some c /\ 0 <= c < P) /\
  (forall (i j : nat) c, Colors !! i = Some c -> Colors !! j = Some c -> 0 <= c < P -> i = j).
Proof.
  unfold ColorRoots, ColorRoots_fuel.
  destruct (PreAssign S) as [[C0 P0]| |] eqn:EP; bind_ok; [|done..].
  destruct (greedy_loop _ _ _ _) as [G| |] eqn:EG; [|done..].
  intros [= <- <-].
  destruct (PreAssign_spec S (PreAssign_numbered S _ _ EP))
    as (C0' & P0' & HP & [HP0 HC0] & Hd & Hlen & Hpre & Hcov).
  rewrite EP in HP. injection HP as <- <-. simpl in HP0, HC0.
  apply greedy_loop_keeps in EG as (HlenG & Hkeep & Hnew); [|done|].
  2:{ split; [simpl; lia|]. simpl. intros i c Hc. destruct (HC0 _ _ Hc); lia. }
  simpl in *. split.
  - intros sp i Hsp Hl Hi. destruct (Hcov sp i Hsp Hl) as (c & Hc & Hr); [lia|].
    exists c. split; [|done]. apply Hkeep; [done|lia].
  - intros i j c Hi Hj Hc.
    destruct (Hnew _ _ Hi) as [_ [Hi'|[? _]]]; [lia| |lia].
    destruct (Hnew _ _ Hj) as [_ [Hj'|[? _]]]; [lia| |lia].
    apply (Hd i j c); [done..|lia].
Qed.

Lemma returns_twice_slots_dedicated_witness :
  ColorRoots (MoreExamples.live_state MoreExamples.returns_twice_call) = Ok ([0], 1) /\
  forall (i j : nat) c, [0] !! i = Some c -> [0] !! j = Some c -> 0 <= c < 1 -> i = j.
Proof.
  assert (ColorRoots (MoreExamples.live_state MoreExamples.returns_twice_call) = Ok ([0], 1))
    as H by (vm_compute; reflexivity).
  split; [exact H|].
  exact (proj2 (returns_twice_slots_dedicated _ _ _ H)).
Defined.

(** ** Invariants of the local scan *)

Section NumberingOnly.
Variable P : LateLowerGCFrame.

Lemma numbering_only_refl S : numbering_only S S.
Proof. by repeat split. Qed.

Lemma numbering_only_trans S1 S2 S3 :
  numbering_only S1 S2 -> numbering_only S2 S3 -> numbering_only S1 S3.
Proof. unfold numbering_only. intros. destruct_and!. repeat split; congruence. Qed.

Lemma LiftSelect_only fuel A F S SI n F' S' :
  LiftSelect fuel A F S SI = Ok (n, F', S') -> numbering_only S S'.
Proof.
  unfold LiftSelect. destruct (getKind F SI); try done.
  match goal with |- mbind _ ?m = _ -> _ => destruct m as [TrueBase| |] end;
    bind_ok; [|done..].
  match goal with |- match ?m with _ => _ end = _ -> _ => destruct m as [FalseBase| |] end;
    [|done..].
  repeat match goal with |- context [let '(_, _) := ?x in _] => destruct x end.
  destruct (negb _); by intros [= _ _ <-].
Qed.

Lemma LiftPhi_only fuel F S Phi n F' S' :
  LiftPhi fuel P F S Phi = Ok (n, F', S') -> numbering_only S S'.
Proof.
  unfold LiftPhi. destruct (getKind F Phi); try done.
  destruct (T_prjlvalue P) as [T|]; [|done].
  destruct (createBefore F Phi (PHINode []) T) as [F1 lift].
  destruct (LiftPhi_incoming _ _ _ _ _ _ _) as [[F2 lifted]| |]; bind_ok; [|done..].
  by intros [= _ _ <-].
Qed.

Lemma Number_at_only fuel F S V r n F' S' :
  Number_at fuel P F S V r = Ok (n, F', S') -> numbering_only S S'.
Proof.
  unfold Number_at. destruct (AllPtrNumbering S !! r); [by intros [= _ _ <-]|].
  destruct (is_rooted_in_parent _ _ _); [by intros [= _ _ <-]|].
  destruct (isSelect _ && _).
  { destruct (LiftSelect _ _ _ _ _) as [[[n' F1] S1]| |] eqn:E; bind_ok; [|done..].
    intros [= _ _ <-]. apply LiftSelect_only in E. exact E. }
  destruct (isPHI _ && _).
  { destruct (LiftPhi _ _ _ _ _) as [[[n' F1] S1]| |] eqn:E; bind_ok; [|done..].
    intros [= _ _ <-]. apply LiftPhi_only in E. exact E. }
  destruct (isExtractValue _ && _); [done|].
  destruct (assert _ _); bind_ok; [|done..]. by intros [= _ _ <-].
Qed.

Lemma Number_only fuel F S V n F' S' :
  Number fuel P F S V = Ok (n, F', S') -> numbering_only S S'.
Proof.
  unfold Number. destruct (assert _ _); bind_ok; [|done..].
  destruct (FindBaseValue _ _ _ _ _ _); bind_ok; [|done..]. apply Number_at_only.
Qed.

Lemma NumberVector_only fuel F S V Nums S' :
  NumberVector fuel P F S V = Ok (Nums, S') -> numbering_only S S'.
Proof.
  unfold NumberVector. destruct (AllVectorNumbering S !! V); [by intros [= _ <-]|].
  destruct (FindBaseValue _ _ _ _ _ _) as [r| |]; bind_ok; [|done..].
  destruct (AllVectorNumbering S !! r); [by intros [= _ <-]|].
  match goal with |- match ?m with _ => _ end = _ -> _ =>
    assert (forall S1, m = Ok S1 -> numbering_only S S1) as H1;
    [|destruct m as [S1| |]; [|done..]] end.
  { intros S1. destruct (_ || _); [by intros [= <-]|].
    destruct (getKind F r); try (by intros [= <-]); done. }
  specialize (H1 S1 eq_refl).
  destruct (AllVectorNumbering S1 !! r); intros [= _ <-]; [done|].
  eapply numbering_only_trans; [done|]. by repeat split.
Qed.
End NumberingOnly.

(** A property of the state that the steps of the scan keep is kept by the
    scan of the function. *)
Section ScanInvariantBlock.
Variable P : LateLowerGCFrame.
Variable I : BasicBlock -> State -> Prop.
Variable I0 : State -> Prop.
Hypothesis I_Number : forall cur fuel F S V n F' S',
  numbering_in_range S -> I cur S -> Number fuel P F S V = Ok (n, F', S') -> I cur S'.
Hypothesis I_NumberVector : forall cur fuel F S V Nums S',
  numbering_in_range S -> I cur S -> NumberVector fuel P F S V = Ok (Nums, S') -> I cur S'.
Hypothesis I_LiftSelect : forall cur fuel F S SI n F' S',
  numbering_in_range S -> I cur S ->
  LiftSelect fuel (AddressSpace P) F S SI = Ok (n, F', S') -> I cur S'.
Hypothesis I_LiftPhi : forall cur fuel F S Phi n F' S',
  numbering_in_range S -> I cur S -> LiftPhi fuel P F S Phi = Ok (n, F', S') -> I cur S'.
Hypothesis I_begin : forall S BB, I0 S -> I BB (setBBS S BB (getBBS S BB)).
Hypothesis I_NoteDef : forall S BB Num sps S',
  I BB S -> 0 <= Num <= MaxPtrNumber S -> NoteDef S BB Num sps = Ok S' -> I BB S'.
Hypothesis I_refine : forall cur S Num R, I cur S -> I cur (refine S Num R).
Hypothesis I_setUse : forall cur S BB Uses Num,
  I cur S -> 0 <= Num <= MaxPtrNumber S ->
  I cur (setBBS S BB (setUse (getBBS S BB) Uses Num)).
Hypothesis I_ReturnsTwice : forall cur S Inst,
  I cur S -> I cur (setReturnsTwice S (ReturnsTwice S ++ [Inst])).
Hypothesis I_safepoint : forall S BB CI,
  I BB S -> I BB (setBBS (NoteSafepoint S BB CI).2 BB
                    (setSafepointInfo (getBBS (NoteSafepoint S BB CI).2 BB)
                                      (NoteSafepoint S BB CI).1)).
Hypothesis I_Allocas : forall cur S Inst, I cur S -> I cur (setAllocas S (Allocas S ++ [Inst])).
Hypothesis I_setDone : forall S BB, I BB S -> I0 (setBBS S BB (setDone (getBBS S BB))).

Lemma Number_J cur fuel F S V n F' S' :
  Number fuel P F S V = Ok (n, F', S') -> scan_inv (I cur) S -> scan_inv (I cur) S' /\ -1 <= n <= MaxPtrNumber S'.
Proof.
  intros H [HR HI]. destruct (Number_range _ _ _ _ _ _ _ _ H HR) as (HR' & Hle & Hn).
  split; [|done]. split; [done|]. exact (I_Number _ _ _ _ _ _ _ _ HR HI H).
Qed.

Lemma NumberVector_J cur fuel F S V Nums S' :
  NumberVector fuel P F S V = Ok (Nums, S') -> scan_inv (I cur) S ->
  scan_inv (I cur) S' /\ forall m, m ∈ Nums -> 0 <= m <= MaxPtrNumber S'.
Proof.
  intros H [HR HI]. destruct (NumberVector_range _ _ _ _ _ _ _ H HR) as (HR' & Hle & Hn).
  split; [|done]. split; [done|]. exact (I_NumberVector _ _ _ _ _ _ _ HR HI H).
Qed.

Lemma setUses_J cur Y Uses Nums : forall S,
  scan_inv (I cur) S -> (forall m, m ∈ Nums -> 0 <= m <= MaxPtrNumber S) ->
  scan_inv (I cur) (foldl (fun S Num => setBBS S Y (setUse (getBBS S Y) Uses Num)) S Nums).
Proof.
  induction Nums as [|m Nums IH]; intros S HJ HN; simpl; [done|].
  apply IH.
  - destruct HJ as [HR HI]. split; [exact HR|]. apply I_setUse; [done|]. apply HN. by left.
  - intros k Hk. simpl. apply HN. by right.
Qed.

Lemma NoteUse_J cur fuel F S Y V Uses F' S' :
  NoteUse fuel P F S Y V Uses = Ok (F', S') -> scan_inv (I cur) S -> scan_inv (I cur) S'.
Proof.
  unfold NoteUse. destruct (isConstant _); [by intros [= _ <-]|].
  destruct (isSpecialPtrVec _ _).
  - destruct (NumberVector _ _ _ _ _) as [[Nums S1]| |] eqn:E; bind_ok; [|done..].
    intros [= _ <-] HJ. destruct (NumberVector_J _ _ _ _ _ _ _ E HJ) as [HJ1 HN].
    by apply setUses_J.
  - destruct (Number _ _ _ _ _) as [[[Num F1] S1]| |] eqn:E; bind_ok; [|done..].
    intros H HJ. destruct (Number_J _ _ _ _ _ _ _ _ E HJ) as [HJ1 HN]. revert H.
    destruct (Z.eqb_spec Num (-1)) as [->|Hne]; intros [= _ <-]; [done|].
    destruct HJ1 as [HR1 HI1]. split; [exact HR1|]. apply I_setUse; [done|lia].
Qed.

Lemma NoteDef_J S BB Num sps S' R :
  -1 <= Num <= MaxPtrNumber S ->
  NoteDef S BB Num sps = Ok S' -> scan_inv (I BB) S -> scan_inv (I BB) (refine S' Num R).
Proof.
  intros HN H [HR HI]. pose proof (NoteDef_not_rooted _ _ _ _ _ H) as Hne.
  split.
  - destruct (same_numbering_NoteDef S BB Num sps S' R H) as (HM & HA & HV).
    unfold numbering_in_range. by rewrite HM, HA, HV.
  - apply I_refine. eapply I_NoteDef; [done| |done]. lia.
Qed.

Lemma MaybeNoteDef_J fuel F S BB Def sps R F' S' :
  MaybeNoteDef fuel P F S BB Def sps R = Ok (F', S') -> scan_inv (I BB) S -> scan_inv (I BB) S'.
Proof.
  unfold MaybeNoteDef. cbv zeta.
  assert (forall r : Res (Z * Function * State), Number fuel P F S Def = r ->
    ('(Num, F1, S1) ← r; S2 ← NoteDef S1 BB Num sps; Ok (F1, refine S2 Num R)) = Ok (F', S') ->
    scan_inv (I BB) S -> scan_inv (I BB) S') as HN.
  { intros r Hr. destruct r as [[[Num F1] S1]| |]; bind_ok; [|done..].
    destruct (NoteDef S1 BB Num sps) as [S2| |] eqn:E; [|done..].
    intros [= _ <-] HJ. destruct (Number_J _ _ _ _ _ _ _ _ Hr HJ) as [HJ1 Hn].
    by eapply NoteDef_J. }
  destruct (isSpecialPtr _ _).
  { destruct (assert _ _); bind_ok; [|done..]. by apply HN. }
  destruct (isUnionRep _ _); [by apply HN|].
  destruct (isSpecialPtrVec _ _); [|by intros [= _ <-]].
  destruct (NumberVector _ _ _ _ _) as [[Nums S1]| |] eqn:E; bind_ok; [|done..].
  match goal with |- match ?m with _ => _ end = _ -> _ => destruct m as [S2| |] eqn:E2 end;
    [|done..].
  intros [= _ <-] HJ. destruct (NumberVector_J _ _ _ _ _ _ _ E HJ) as [HJ1 HNums].
  apply (foldl_Res_invariant_elem
           (fun a => same_numbering S1 a /\ scan_inv (I BB) a) _ Nums) in E2;
    [apply E2|done|done| |by split].
  intros a Num a' HNum [Hs Ha]. bind_ok.
  destruct (NoteDef a BB Num sps) as [S3| |] eqn:E3; [|done..].
  intros [= <-]. split.
  - eapply same_numbering_trans; [done|by eapply same_numbering_NoteDef].
  - eapply NoteDef_J; [|done..]. destruct Hs as (-> & _). specialize (HNums _ HNum). lia.
Qed.

Lemma NoteOperandUses_J cur fuel F S BB UI Uses F' S' :
  NoteOperandUses fuel P F S BB UI Uses = Ok (F', S') -> scan_inv (I cur) S -> scan_inv (I cur) S'.
Proof.
  unfold NoteOperandUses. intros H HJ.
  apply (foldl_Res_invariant (fun a : Function * State => scan_inv (I cur) a.2) _ _) in H;
    [done|done|done| |done].
  intros [F1 S1] V [F2 S2] Ha. bind_ok. simpl in *.
  destruct (negb _); [by intros [= _ <-]|]. intros H1. by eapply NoteUse_J.
Qed.

Lemma safepoint_J S BB CI :
  scan_inv (I BB) S ->
  scan_inv (I BB) (setBBS (NoteSafepoint S BB CI).2 BB
       (setSafepointInfo (getBBS (NoteSafepoint S BB CI).2 BB) (NoteSafepoint S BB CI).1)).
Proof. intros [HR HI]. split; [exact HR|]. by apply I_safepoint. Qed.

Ltac bind_pair F1 S1 E :=
  match goal with
  | |- mbind _ ?m = _ -> _ => destruct m as [[F1 S1]| |] eqn:E
  | |- match ?m with _ => _ end = _ -> _ => destruct m as [[F1 S1]| |] eqn:E
  end; bind_ok; [|done..].

Lemma scan_inst_J fuel F S BB Inst F' S' :
  scan_inst fuel P F S BB Inst = Ok (F', S') -> scan_inv (I BB) S -> scan_inv (I BB) S'.
Proof.
  unfold scan_inst. cbv zeta. destruct (getKind F Inst) eqn:HK;
    try (by intros [= _ <-]).
  - (* load *)
    match goal with |- mbind _ ?m = _ -> _ => destruct m as [[[R F0] S0]| |] eqn:E0 end;
      bind_ok; [|done..].
    bind_pair F1 S1 E1. intros E2 HJ.
    apply (NoteOperandUses_J _ _ _ _ _ _ _ _ _ E2), (MaybeNoteDef_J _ _ _ _ _ _ _ _ _ E1).
    revert E0. destruct (_ && _); [intros E0; by apply (Number_J _ _ _ _ _ _ _ _ E0)|].
    destruct (_ && _); [|by intros [= _ _ <-]].
    destruct (LooksLikeFrameRef _ _ _ _) as [[]|]; [..|done]; by intros [= _ _ <-].
  - (* store *) apply NoteOperandUses_J.
  - (* call *)
    destruct (isIntrinsicCall F callee); [by intros [= _ <-]|].
    bind_pair F1 S1 E1. bind_pair F2 S2 E2. bind_pair F3 S3 E3.
    intros H HJ.
    apply (MaybeNoteDef_J _ _ _ _ _ _ _ _ _ E1) in HJ.
    apply (NoteOperandUses_J _ _ _ _ _ _ _ _ _ E2) in HJ.
    match type of E3 with foldl _ _ ?l = _ =>
      apply (foldl_Res_invariant (fun a : Function * State => scan_inv (I BB) a.2) _ l) in E3
    end; [|done|done| |done].
    2:{ intros [Fa Sa] V [Fb Sb] Ha. bind_ok. simpl in *.
        destruct (isUnionRep _ _); [|by intros [= _ <-]].
        intros H1. by eapply NoteUse_J. }
    simpl in E3. revert H.
    destruct returns_twice, (isKnownNonSafepoint _ _ _); intros [= _ <-].
    + destruct E3 as [HR HI]. split; [exact HR|]. by apply I_ReturnsTwice.
    + apply (safepoint_J (setReturnsTwice S3 (ReturnsTwice S3 ++ [Inst])) BB Inst).
      destruct E3 as [HR HI]. split; [exact HR|]. by apply I_ReturnsTwice.
    + done.
    + by apply (safepoint_J S3 BB Inst).
  - (* select *)
    destruct (negb _); [by intros [= _ <-]|].
    destruct (negb _).
    + destruct (AllPtrNumbering S !! Inst); [by intros [= _ <-]|].
      destruct (LiftSelect _ _ _ _ _) as [[[n F1] S1]| |] eqn:E; bind_ok; [|done..].
      intros [= _ <-] [HR HI].
      destruct (LiftSelect_range _ _ _ _ _ _ _ _ E HR) as (HR' & Hle & _).
      split; [done|]. exact (I_LiftSelect _ _ _ _ _ _ _ _ HR HI E).
    + bind_pair F1 S1 E1. intros E2 HJ.
      by apply (NoteOperandUses_J _ _ _ _ _ _ _ _ _ E2), (MaybeNoteDef_J _ _ _ _ _ _ _ _ _ E1).
  - (* phi *)
    destruct (negb _); [by intros [= _ <-]|].
    destruct (negb _).
    + destruct (AllPtrNumbering S !! Inst); [by intros [= _ <-]|].
      destruct (LiftPhi _ _ _ _ _) as [[[n F1] S1]| |] eqn:E; bind_ok; [|done..].
      intros [= _ <-] [HR HI].
      destruct (LiftPhi_range _ _ _ _ _ _ _ _ E HR) as (HR' & Hle & _).
      split; [done|]. exact (I_LiftPhi _ _ _ _ _ _ _ _ HR HI E).
    + bind_pair F1 S1 E1. intros H HJ.
      apply (MaybeNoteDef_J _ _ _ _ _ _ _ _ _ E1) in HJ.
      apply (foldl_Res_invariant (fun a : Function * State => scan_inv (I BB) a.2) _ _) in H;
        [done|done|done| |done].
      intros [Fa Sa] inc [Fb Sb] Ha. bind_ok. simpl in *.
      intros H1. by eapply NoteUse_J.
  - (* addrspacecast *)
    destruct (_ =? _); [apply MaybeNoteDef_J|by intros [= _ <-]].
  - (* alloca *)
    destruct (_ && _); intros [= _ <-]; [|done].
    intros [HR HI]. split; [exact HR|]. by apply I_Allocas.
  - (* return *) apply NoteOperandUses_J.
Qed.

Lemma scan_block_J n fuel F S BB it F' S' :
  scan_block n fuel P F S BB it = Ok (F', S') -> scan_inv (I BB) S -> scan_inv (I BB) S'.
Proof.
  revert F S it. induction n as [|n IH]; intros F S [Inst|]; simpl;
    try done; try (by intros [= _ <-]).
  destruct (scan_inst fuel P F S BB Inst) as [[F1 S1]| |] eqn:E; bind_ok; [|done..].
  intros H HJ. apply (IH _ _ _ H). by apply (scan_inst_J _ _ _ _ _ _ _ E).
Qed.

Lemma LocalScan_invariant_block fuel F F' S :
  I0 State_init -> LocalScan fuel P F = Ok (F', S) -> numbering_in_range S /\ I0 S.
Proof.
  unfold LocalScan. intros H0 H.
  apply (foldl_Res_invariant (fun a : Function * State => scan_inv I0 a.2) _ (blocks F)) in H;
    [done|done|done| |].
  - intros [Fa Sa] b [Fb Sb] Ha. unfold LocalScan_block. bind_ok.
    destruct (scan_block _ _ _ _ _ _ _) as [[F1 S1]| |] eqn:E; [|done..].
    intros [= _ <-]. simpl in *.
    apply scan_block_J in E as [HR HI].
    + split; [exact HR|]. by apply I_setDone.
    + destruct Ha as [HR HI]. split; [exact HR|]. by apply I_begin.
  - simpl. split; [by split|done].
Qed.
End ScanInvariantBlock.

(** The same for a property that is the same in and between the blocks. *)
Section ScanInvariantNumbering.
Variable P : LateLowerGCFrame.
Variable I : State -> Prop.
Hypothesis I_Number : forall fuel F S V n F' S',
  numbering_in_range S -> I S -> Number fuel P F S V = Ok (n, F', S') -> I S'.
Hypothesis I_NumberVector : forall fuel F S V Nums S',
  numbering_in_range S -> I S -> NumberVector fuel P F S V = Ok (Nums, S') -> I S'.
Hypothesis I_LiftSelect : forall fuel F S SI n F' S',
  numbering_in_range S -> I S ->
  LiftSelect fuel (AddressSpace P) F S SI = Ok (n, F', S') -> I S'.
Hypothesis I_LiftPhi : forall fuel F S Phi n F' S',
  numbering_in_range S -> I S -> LiftPhi fuel P F S Phi = Ok (n, F', S') -> I S'.
Hypothesis I_begin : forall S BB, I S -> I (setBBS S BB (getBBS S BB)).
Hypothesis I_NoteDef : forall S BB Num sps S',
  I S -> 0 <= Num <= MaxPtrNumber S -> NoteDef S BB Num sps = Ok S' -> I S'.
Hypothesis I_refine : forall S Num R, I S -> I (refine S Num R).
Hypothesis I_setUse : forall S BB Uses Num,
  I S -> 0 <= Num <= MaxPtrNumber S -> I (setBBS S BB (setUse (getBBS S BB) Uses Num)).
Hypothesis I_ReturnsTwice : forall S Inst,
  I S -> I (setReturnsTwice S (ReturnsTwice S ++ [Inst])).
Hypothesis I_safepoint : forall S BB CI,
  I S -> I (setBBS (NoteSafepoint S BB CI).2 BB
              (setSafepointInfo (getBBS (NoteSafepoint S BB CI).2 BB)
                                (NoteSafepoint S BB CI).1)).
Hypothesis I_Allocas : forall S Inst, I S -> I (setAllocas S (Allocas S ++ [Inst])).
Hypothesis I_setDone : forall S BB, I S -> I (setBBS S BB (setDone (getBBS S BB))).

Lemma LocalScan_invariant_numbering fuel F F' S :
  I State_init -> LocalScan fuel P F = Ok (F', S) -> numbering_in_range S /\ I S.
Proof.
  apply (LocalScan_invariant_block P (fun _ => I) I); done.
Qed.
End ScanInvariantNumbering.

(** The same for a property that does not depend on the numbering of the
    values. *)
Section ScanInvariant.
Variable P : LateLowerGCFrame.
Variable I : State -> Prop.
Hypothesis I_numbering : forall S S',
  I S -> numbering_only S S' -> MaxPtrNumber S <= MaxPtrNumber S' -> I S'.
Hypothesis I_begin : forall S BB, I S -> I (setBBS S BB (getBBS S BB)).
Hypothesis I_NoteDef : forall S BB Num sps S',
  I S -> 0 <= Num <= MaxPtrNumber S -> NoteDef S BB Num sps = Ok S' -> I S'.
Hypothesis I_refine : forall S Num R, I S -> I (refine S Num R).
Hypothesis I_setUse : forall S BB Uses Num,
  I S -> 0 <= Num <= MaxPtrNumber S -> I (setBBS S BB (setUse (getBBS S BB) Uses Num)).
Hypothesis I_ReturnsTwice : forall S Inst,
  I S -> I (setReturnsTwice S (ReturnsTwice S ++ [Inst])).
Hypothesis I_safepoint : forall S BB CI,
  I S -> I (setBBS (NoteSafepoint S BB CI).2 BB
              (setSafepointInfo (getBBS (NoteSafepoint S BB CI).2 BB)
                                (NoteSafepoint S BB CI).1)).
Hypothesis I_Allocas : forall S Inst, I S -> I (setAllocas S (Allocas S ++ [Inst])).
Hypothesis I_setDone : forall S BB, I S -> I (setBBS S BB (setDone (getBBS S BB))).

Lemma LocalScan_invariant fuel F F' S :
  I State_init -> LocalScan fuel P F = Ok (F', S) -> numbering_in_range S /\ I S.
Proof.
  apply (LocalScan_invariant_numbering P I); try done.
  - intros fuel' F0 S0 V n F1 S1 HR HI H.
    destruct (Number_range _ _ _ _ _ _ _ _ H HR) as (_ & Hle & _).
    eapply I_numbering; [done| |done]. by eapply Number_only.
  - intros fuel' F0 S0 V Nums S1 HR HI H.
    destruct (NumberVector_range _ _ _ _ _ _ _ H HR) as (_ & Hle & _).
    eapply I_numbering; [done| |done]. by eapply NumberVector_only.
  - intros fuel' F0 S0 SI n F1 S1 HR HI H.
    destruct (LiftSelect_range _ _ _ _ _ _ _ _ H HR) as (_ & Hle & _).
    eapply I_numbering; [done| |done]. by eapply LiftSelect_only.
  - intros fuel' F0 S0 Phi n F1 S1 HR HI H.
    destruct (LiftPhi_range _ _ _ _ _ _ _ _ H HR) as (_ & Hle & _).
    eapply I_numbering; [done| |done]. by eapply LiftPhi_only.
Qed.
End ScanInvariant.

Section SafepointTables.


Lemma safepoint_tables_getBBS S S' :
  MaxSafepointNumber S' = MaxSafepointNumber S ->
  ReverseSafepointNumbering S' = ReverseSafepointNumbering S ->
  length (LiveSets S') = length (LiveSets S) ->
  length (LiveIfLiveOut S') = length (LiveIfLiveOut S) ->
  SafepointNumbering S' = SafepointNumbering S ->
  (forall X, same_safepoints (getBBS S X) (getBBS S' X)) ->
  safepoint_tables S -> safepoint_tables S'.
Proof.
  intros HM HR HL HO HN HB (H1 & H2 & H3 & H4 & H5 & H6 & H7 & H8).
  unfold safepoint_tables, SafepointNumbering_wf, block_safepoints_wf.
  rewrite HM, HR, HL, HO, HN.
  split; [done|]. split; [done|]. split; [done|]. split; [done|]. split; [done|].
  split; [|split].
  - intros X. destruct (HB X) as (-> & -> & ->). apply H6.
  - intros idx Hidx. destruct (H7 idx Hidx) as [X HX]. exists X.
    by destruct (HB X) as (-> & _).
  - intros X X' idx. destruct (HB X) as (-> & _). destruct (HB X') as (-> & _). apply H8.
Qed.

Lemma MaybeResize_safepoints B Idx :
  Safepoints (MaybeResize B Idx) = Safepoints B /\
  TopmostSafepoint (MaybeResize B Idx) = TopmostSafepoint B /\
  HasSafepoint (MaybeResize B Idx) = HasSafepoint B.
Proof. unfold MaybeResize. by case_match. Qed.

Lemma setUse_safepoints B Uses Num : same_safepoints B (setUse B Uses Num).
Proof.
  unfold same_safepoints, setUse. destruct (MaybeResize_safepoints B (to_unsigned Num))
    as (H1 & H2 & H3). by destruct Uses.
Qed.

Lemma safepoint_tables_setBBS S BB B' :
  same_safepoints (getBBS S BB) B' -> safepoint_tables S -> safepoint_tables (setBBS S BB B').
Proof.
  intros HB. apply safepoint_tables_getBBS; try done.
  intros X. rewrite getBBS_setBBS. case_decide; [by subst|done].
Qed.

Lemma NoteDef_tables S BB Num sps S' :
  safepoint_tables S -> NoteDef S BB Num sps = Ok S' -> safepoint_tables S'.
Proof.
  intros HI. unfold NoteDef.
  match goal with |- mbind _ ?m = _ -> _ => destruct m end; bind_ok; [|done..].
  match goal with |- match ?m with _ => _ end = _ -> _ => destruct m end; [|done..].
  intros [= <-]. revert HI.
  destruct (MaybeResize_safepoints (getBBS S BB) (to_unsigned Num)) as (H1 & H2 & H3).
  apply safepoint_tables_getBBS; try done.
  - simpl. clear. revert sps. generalize (LiveIfLiveOut S).
    intros L sps. revert L. induction sps as [|sp sps IH]; intros L; simpl; [done|].
    by rewrite IH, length_alter.
  - intros X. simpl. change (getBBS (setLiveIfLiveOut ?S0 ?L) X) with (getBBS S0 X).
    rewrite getBBS_setBBS. case_decide; [by subst|done].
Qed.

Lemma last_snoc_Z (l : list Z) x : last (l ++ [x]) = Some x.
Proof. induction l as [|a [|b l] IH]; done. Qed.

Lemma safepoint_tables_step S BB CI :
  safepoint_tables S ->
  safepoint_tables
    (setBBS (NoteSafepoint S BB CI).2 BB
       (setSafepointInfo (getBBS (NoteSafepoint S BB CI).2 BB) (NoteSafepoint S BB CI).1)).
Proof.
  intros (H1 & H2 & H3 & H4 & H5 & H6 & H7 & H8).
  set (S2 := setBBS (NoteSafepoint S BB CI).2 BB _).
  set (M := MaxSafepointNumber S) in *.
  set (B0 := getBBS S BB).
  assert (exists B1, Safepoints B1 = Safepoints B0 ++ [M + 1] /\ HasSafepoint B1 = true /\
            TopmostSafepoint B1 = M + 1 /\
            forall X, getBBS S2 X = if decide (BB = X) then B1 else getBBS S X)
    as (B1 & HB1 & HB2 & HB3 & HB).
  { eexists. split; [|split; [|split]]; [| |
      |intros X; unfold S2; rewrite getBBS_setBBS; case_decide; [reflexivity|];
       unfold NoteSafepoint; cbv zeta; simpl;
       change (getBBS (setSafepointData ?S0 _ _ _ _ _) X) with (getBBS S0 X);
       rewrite getBBS_setBBS; case_decide; done].
    - unfold NoteSafepoint. cbv zeta. simpl.
      change (getBBS (setSafepointData ?S0 _ _ _ _ _) BB) with (getBBS S0 BB).
      rewrite getBBS_setBBS, decide_True by done. reflexivity.
    - done.
    - done. }
  assert (MaxSafepointNumber S2 = M + 1) as HM by done.
  assert (ReverseSafepointNumbering S2 = ReverseSafepointNumbering S ++ [CI]) as HR by done.
  assert (length (LiveSets S2) = Datatypes.S (length (LiveSets S))) as HL.
  { unfold S2, NoteSafepoint. simpl. rewrite length_app. simpl. lia. }
  assert (length (LiveIfLiveOut S2) = Datatypes.S (length (LiveIfLiveOut S))) as HO.
  { unfold S2, NoteSafepoint. simpl. rewrite length_app. simpl. lia. }
  assert (SafepointNumbering S2 = <[CI := M + 1]> (SafepointNumbering S)) as HN by done.
  clearbody S2.
  assert (forall Y idx, idx ∈ Safepoints (getBBS S Y) -> 0 <= idx <= M) as Hold.
  { intros Y idx HY. destruct (H6 Y) as (Hr & _). by apply Hr. }
  unfold safepoint_tables, SafepointNumbering_wf. rewrite HM, HR, HL, HO, HN, length_app. simpl.
  split; [lia|]. split; [lia|]. split; [lia|]. split; [lia|]. split; [|split; [|split]].
  - intros sp idx. rewrite lookup_insert. case_decide as Hsp.
    + intros [= <-]. split; [lia|]. subst sp.
      rewrite lookup_app_r by lia. replace (Z.to_nat (M + 1) - _)%nat with 0%nat by lia. done.
    + intros Hl. destruct (H5 _ _ Hl) as [Hi Hr]. split; [done|].
      rewrite lookup_app_l; [done|]. by eapply lookup_lt_Some.
  - intros X. rewrite HB. destruct (H6 X) as (Hr & Hs & Hh). case_decide as HX.
    + subst X. fold B0 in Hr, Hs, Hh. unfold block_safepoints_wf. rewrite HB1, HB2, HB3.
      split; [|split].
      * intros idx [Hin|Heq%list_elem_of_singleton]%elem_of_app; [|lia].
        specialize (Hr _ Hin). lia.
      * intros i j a b Hij Hi Hj.
        destruct (decide (j < length (Safepoints B0))%nat) as [Hjl|Hjl].
        -- rewrite lookup_app_l in Hi, Hj by lia. exact (Hs i j a b Hij Hi Hj).
        -- rewrite lookup_app_r in Hj by lia.
           destruct (j - length (Safepoints B0))%nat as [|k] eqn:Ek; [|by destruct k].
           injection Hj as <-. rewrite lookup_app_l in Hi by lia.
           apply list_elem_of_lookup_2, Hr in Hi. lia.
      * apply last_snoc_Z.
    + split; [|done]. intros idx Hin. specialize (Hr _ Hin). lia.
  - intros idx Hidx. destruct (decide (idx = M + 1)) as [->|Hne].
    + exists BB. rewrite HB, decide_True, HB1 by done. apply elem_of_app. right. by left.
    + destruct (H7 idx) as [X HX]; [lia|]. exists X. rewrite HB.
      case_decide; [subst; rewrite HB1; apply elem_of_app; by left|done].
  - intros X X' idx. rewrite !HB.
    repeat case_decide; subst; try done; rewrite ?HB1.
    + intros [Hin|Heq%list_elem_of_singleton]%elem_of_app HX'.
      * by apply (H8 _ _ idx).
      * apply Hold in HX'. lia.
    + intros HX [Hin|Heq%list_elem_of_singleton]%elem_of_app.
      * by apply (H8 _ _ idx).
      * apply Hold in HX. lia.
    + apply H8.
Qed.

Lemma LocalScan_safepoint_tables fuel P F F' S :
  LocalScan fuel P F = Ok (F', S) -> safepoint_tables S.
Proof.
  intros H. apply (LocalScan_invariant P safepoint_tables) in H; [by destruct H|..].
  - intros S1 S2 HI (HM & _ & HB & _ & HN & HR & _ & HL & HO & _) _. revert HI.
    apply safepoint_tables_getBBS; try done; try congruence.
    intros X. unfold getBBS. by rewrite HB.
  - intros S1 BB. by apply safepoint_tables_setBBS.
  - intros S1 BB Num sps S2 HI _. by apply NoteDef_tables.
  - intros S1 Num R. unfold refine. case_match; [done|].
    by apply safepoint_tables_getBBS.
  - intros S1 BB Uses Num HI _. revert HI. apply safepoint_tables_setBBS, setUse_safepoints.
  - intros S1 Inst. by apply safepoint_tables_getBBS.
  - intros S1 BB CI. apply safepoint_tables_step.
  - intros S1 Inst. by apply safepoint_tables_getBBS.
  - intros S1 BB. by apply safepoint_tables_setBBS.
  - split; [done|]. split; [done|]. split; [done|]. split; [done|]. split; [done|].
    split; [|split].
    + intros X. unfold getBBS, State_init. simpl. rewrite lookup_empty. simpl.
      split; [by inversion 1|]. split; [|done]. intros i j a b _ Hi. by destruct i.
    + simpl. lia.
    + intros X X' idx. unfold getBBS, State_init. simpl. rewrite lookup_empty. simpl.
      by inversion 1.
Qed.
End SafepointTables.

(** ** What the dataflow loop leaves alone *)

Section DataflowFrame.
Variable F : Function.

Lemma vectors_only_refl S : vectors_only S S.
Proof. by repeat split. Qed.

Lemma vectors_only_trans S1 S2 S3 :
  vectors_only S1 S2 -> vectors_only S2 S3 -> vectors_only S1 S3.
Proof.
  unfold vectors_only. intros H1 H2. destruct_and!.
  repeat (split; [congruence|]). intros BB.
  repeat match goal with H : forall BB : BasicBlock, _ |- _ => specialize (H BB) end.
  destruct_and!. repeat split; congruence.
Qed.

Lemma vectors_only_setBBS S BB B' :
  Safepoints B' = Safepoints (getBBS S BB) ->
  TopmostSafepoint B' = TopmostSafepoint (getBBS S BB) ->
  HasSafepoint B' = HasSafepoint (getBBS S BB) -> Done B' = Done (getBBS S BB) ->
  vectors_only S (setBBS S BB B').
Proof.
  intros H1 H2 H3 H4. repeat (split; [done|]). intros X.
  rewrite getBBS_setBBS. case_decide; [by subst|done].
Qed.

Lemma update_LiveOut_only S BB : vectors_only S (update_LiveOut F S BB).1.
Proof.
  unfold update_LiveOut. cbv zeta. case_match; [|apply vectors_only_refl]. simpl.
  apply vectors_only_setBBS; unfold MaybeResize; by case_match.
Qed.

Lemma update_LiveIn_only S BB : vectors_only S (update_LiveIn S BB).1.
Proof.
  unfold update_LiveIn. cbv zeta. case_match; [|apply vectors_only_refl]. simpl.
  by apply vectors_only_setBBS.
Qed.

Lemma update_Unrooted_only S BB : vectors_only S (update_Unrooted F S BB).1.
Proof.
  unfold update_Unrooted. cbv zeta. case_match; [|apply vectors_only_refl]. simpl.
  apply vectors_only_setBBS; by case_match.
Qed.

Lemma dataflow_block_only a BB : vectors_only a.1 (dataflow_block F a BB).1.
Proof.
  unfold dataflow_block.
  pose proof (update_LiveOut_only a.1 BB) as H1.
  destruct (update_LiveOut F a.1 BB) as [S1 c1].
  pose proof (update_LiveIn_only S1 BB) as H2.
  destruct (update_LiveIn S1 BB) as [S2 c2].
  pose proof (update_Unrooted_only S2 BB) as H3.
  destruct (update_Unrooted F S2 BB) as [S3 c3]. simpl in *.
  eapply vectors_only_trans; [done|]. by eapply vectors_only_trans.
Qed.

Lemma dataflow_pass_only S : vectors_only S (dataflow_pass F S).1.
Proof.
  unfold dataflow_pass.
  assert (forall l a, vectors_only a.1 (foldl (dataflow_block F) a l).1) as H.
  { induction l as [|b l IH]; intros a; simpl; [apply vectors_only_refl|].
    eapply vectors_only_trans; [apply dataflow_block_only|apply IH]. }
  apply (H _ (S, false)).
Qed.

Lemma dataflow_loop_only fuel S S' :
  dataflow_loop fuel F S = Ok S' -> vectors_only S S'.
Proof.
  revert S. induction fuel as [|fuel IH]; intros S; simpl; [done|].
  pose proof (dataflow_pass_only S) as H.
  destruct (dataflow_pass F S) as [S1 c]. simpl in H. destruct c.
  - intros H1%IH. by eapply vectors_only_trans.
  - by intros [= <-].
Qed.
End DataflowFrame.

(** ** The widths of the bit vectors *)

Section Widths.

Lemma to_unsigned_le z : 0 <= z -> 0 <= to_unsigned z <= z.
Proof.
  intros Hz. unfold to_unsigned. split; [apply Z.mod_pos_bound; lia|].
  apply Z.mod_le; lia.
Qed.

Lemma BBState_width_mono W W' B : (W <= W')%nat -> BBState_width W B -> BBState_width W' B.
Proof. unfold BBState_width. intros. destruct_and!. repeat split; lia. Qed.

Lemma MaybeResize_width W B Num :
  0 <= Num < Z.of_nat W -> BBState_width W B ->
  BBState_width W (MaybeResize B (to_unsigned Num)).
Proof.
  intros HN HB. unfold MaybeResize. case_match; [|done].
  pose proof (to_unsigned_le Num ltac:(lia)) as H1.
  pose proof (to_unsigned_le (to_unsigned Num + 1) ltac:(lia)) as H2.
  unfold BBState_width in *. simpl. unfold BV.resize. rewrite !length_resize.
  destruct_and!. repeat split; lia.
Qed.

Lemma widths_ok_setBBS S BB B' :
  BBState_width (Z.to_nat (MaxPtrNumber S + 1)) B' -> widths_ok S -> widths_ok (setBBS S BB B').
Proof.
  intros HB [Hb HL]. split; [|done]. intros X. simpl.
  rewrite getBBS_setBBS. case_decide; [done|apply Hb].
Qed.

Lemma setUse_width W B Uses Num :
  0 <= Num < Z.of_nat W -> BBState_width W B -> BBState_width W (setUse B Uses Num).
Proof.
  intros HN HB. apply (MaybeResize_width _ _ _ HN) in HB.
  unfold setUse. unfold BBState_width in *.
  destruct Uses; simpl; rewrite ?BV_length_assign; done.
Qed.

Lemma NoteDef_widths S BB Num sps S' :
  widths_ok S -> 0 <= Num <= MaxPtrNumber S -> NoteDef S BB Num sps = Ok S' -> widths_ok S'.
Proof.
  intros HI HN. unfold NoteDef.
  match goal with |- mbind _ ?m = _ -> _ => destruct m end; bind_ok; [|done..].
  match goal with |- match ?m with _ => _ end = _ -> _ => destruct m end; [|done..].
  intros [= <-].
  assert (BBState_width (Z.to_nat (MaxPtrNumber S + 1))
            (MaybeResize (getBBS S BB) (to_unsigned Num))) as HB.
  { apply MaybeResize_width; [lia|]. apply HI. }
  set (B1 := MaybeResize (getBBS S BB) (to_unsigned Num)) in *.
  apply (widths_ok_setBBS S BB
           (setLocal B1 (BV.assign (Defs B1) Num true) (PhiOuts B1)
              (BV.assign (UpExposedUsesUnrooted B1) Num false)
              (BV.assign (UpExposedUses B1) Num false)
              (if HasSafepoint B1 then DownExposedUnrooted B1
               else BV.assign (DownExposedUnrooted B1) Num true))) in HI.
  - exact HI.
  - unfold BBState_width in *. simpl. rewrite !BV_length_assign.
    destruct (HasSafepoint B1); rewrite ?BV_length_assign; done.
Qed.

Lemma BV_length_reset (bv : BitVector) : length (BV.reset bv) = length bv.
Proof. unfold BV.reset. apply length_replicate. Qed.

Lemma safepoint_widths S BB CI :
  widths_ok S ->
  widths_ok
    (setBBS (NoteSafepoint S BB CI).2 BB
       (setSafepointInfo (getBBS (NoteSafepoint S BB CI).2 BB) (NoteSafepoint S BB CI).1)).
Proof.
  intros [Hb HL]. pose proof (Hb BB) as HB.
  set (W := Z.to_nat (MaxPtrNumber S + 1)) in *.
  set (B0 := getBBS S BB) in *.
  assert (length (BV.or (UpExposedUses B0) (UpExposedUsesUnrooted B0)) <= W)%nat as Hor.
  { rewrite BV_length_or. unfold BBState_width in HB. lia. }
  split.
  - intros X. rewrite getBBS_setBBS. fold W. case_decide.
    + unfold NoteSafepoint. cbv zeta. simpl.
      change (getBBS (setSafepointData ?S0 _ _ _ _ _) BB) with (getBBS S0 BB).
      rewrite getBBS_setBBS, decide_True by done. fold B0.
      unfold BBState_width in *. simpl. rewrite BV_length_reset. destruct_and!.
      repeat split; done.
    + unfold NoteSafepoint. cbv zeta. simpl.
      change (getBBS (setSafepointData ?S0 _ _ _ _ _) X) with (getBBS S0 X).
      rewrite getBBS_setBBS, decide_False by done. apply Hb.
  - unfold NoteSafepoint. cbv zeta. simpl. fold B0 W.
    apply Forall_app. split; [done|]. by constructor.
Qed.

Lemma LocalScan_widths fuel P F F' S :
  LocalScan fuel P F = Ok (F', S) -> widths_ok S.
Proof.
  intros H. apply (LocalScan_invariant P widths_ok) in H; [by destruct H|..].
  - intros S1 S2 [Hb HL] (_ & _ & HB & _ & _ & _ & _ & HLS & _) Hle. split.
    + intros X. unfold getBBS. rewrite HB.
      eapply BBState_width_mono; [|apply (Hb X)]. lia.
    + rewrite HLS. eapply Forall_impl; [done|]. simpl. intros LS ?. lia.
  - intros S1 BB HI. apply widths_ok_setBBS; [|done]. apply HI.
  - intros S1 BB Num sps S2. apply NoteDef_widths.
  - intros S1 Num R. unfold refine. by case_match.
  - intros S1 BB Uses Num HI HN. apply widths_ok_setBBS; [|done].
    apply setUse_width; [lia|]. apply HI.
  - done.
  - intros S1 BB CI. apply safepoint_widths.
  - done.
  - intros S1 BB HI. apply widths_ok_setBBS; [|done].
    pose proof (proj1 HI BB) as HB. unfold BBState_width in *. simpl.
    rewrite BV_length_or. destruct_and!. repeat split; lia.
  - split; [|constructor]. intros X. unfold getBBS, State_init. simpl.
    rewrite lookup_empty. simpl. unfold BBState_width. simpl. repeat split; lia.
Qed.
End Widths.

(** ** The analysis as a whole: LocalScan, then ComputeLiveness *)

Section LiveSetWidths.
Variable F : Function.

Lemma ApplyRefinements_length R LS : length (ApplyRefinements R LS) = length LS.
Proof.
  unfold ApplyRefinements. generalize (seq 0 (length LS)). intros l. revert LS.
  induction l as [|k l IH]; intros LS; simpl; [done|].
  by rewrite IH, refine_step_length.
Qed.

Lemma AddLiveOuts_length BBS l LS : length (AddLiveOuts BBS l LS) = length LS.
Proof.
  unfold AddLiveOuts. revert LS. induction l as [|k l IH]; intros LS; simpl; [done|].
  rewrite IH. case_match; [apply BV_length_assign|done].
Qed.

Lemma FinalLiveSet_length S BBS l LS :
  length (FinalLiveSet S BBS l LS) = Nat.max (length LS) (length (LiveIn BBS)).
Proof.
  unfold FinalLiveSet, UnrefinedLiveSet.
  by rewrite ApplyRefinements_length, AddLiveOuts_length, BV_length_or, BV_length_and.
Qed.

Lemma LiveSet_step_widths W S it :
  bounded W S -> Forall (fun LS : BitVector => (length LS <= W)%nat) (LiveSets S) ->
  Forall (fun LS : BitVector => (length LS <= W)%nat) (LiveSets (LiveSet_step F S it)).
Proof.
  intros Hb HL. destruct it as [sp idx]. unfold LiveSet_step.
  destruct (getParent F sp) as [BB|]; [|done].
  destruct (LiveSets S !! Z.to_nat idx) as [LS|] eqn:E; [|done]. simpl.
  apply Forall_insert; [done|]. rewrite FinalLiveSet_length.
  rewrite Forall_lookup in HL. specialize (HL _ _ E).
  destruct (Hb BB) as (_ & _ & _ & _ & _ & ? & _). lia.
Qed.

Lemma ComputeLiveSets_widths W S :
  bounded W S -> Forall (fun LS : BitVector => (length LS <= W)%nat) (LiveSets S) ->
  bounded W (ComputeLiveSets F S) /\
  Forall (fun LS : BitVector => (length LS <= W)%nat) (LiveSets (ComputeLiveSets F S)).
Proof.
  intros Hb HL. split.
  - intros X. unfold getBBS. destruct (ComputeLiveSets_same F S) as (-> & _). apply Hb.
  - unfold ComputeLiveSets. simpl. generalize (map_to_list (SafepointNumbering S)).
    intros l. revert S Hb HL.
    induction l as [|it l IH]; intros S Hb HL; simpl; [done|].
    apply IH; [|by apply LiveSet_step_widths].
    intros X. rewrite (same_analysis_getBBS S _ X (LiveSet_step_same F S it)). apply Hb.
Qed.

Lemma LiveSet_loop_numbers l : forall S,
  MaxSafepointNumber (foldl (LiveSet_step F) S l) = MaxSafepointNumber S /\
  ReverseSafepointNumbering (foldl (LiveSet_step F) S l) = ReverseSafepointNumbering S.
Proof.
  induction l as [|it l IH]; intros S; simpl; [done|].
  destruct (IH (LiveSet_step F S it)) as [-> ->].
  destruct it as [sp idx]. unfold LiveSet_step. by repeat case_match.
Qed.
End LiveSetWidths.

Section Analysis.
Variable P : LateLowerGCFrame.
Variables (sf df : nat) (F F' : Function) (S S' : State).
Hypothesis scanned : LocalScan sf P F = Ok (F', S).
Hypothesis analysed : ComputeLiveness df F' S = Ok S'.

Lemma analysis_dataflow :
  exists S1, dataflow_loop df F' S = Ok S1 /\ S' = ComputeLiveSets F' S1 /\ vectors_only S S1.
Proof.
  revert analysed. unfold ComputeLiveness.
  destruct (dataflow_loop df F' S) as [S1| |] eqn:E; bind_ok; [|done..].
  intros [= <-]. exists S1. split; [done|]. split; [done|]. by eapply dataflow_loop_only.
Qed.

Lemma LocalScan_Neighbors : Neighbors S = [].
Proof.
  pose proof scanned as H.
  apply (LocalScan_invariant P (fun S => Neighbors S = [])) in H; [by destruct H|..];
    try done.
  - intros S1 S2 H1 (_ & H2 & _) _. congruence.
  - intros S1 BB Num sps S2 HI _. unfold NoteDef.
    match goal with |- mbind _ ?m = _ -> _ => destruct m end; bind_ok; [|done..].
    match goal with |- match ?m with _ => _ end = _ -> _ => destruct m end; [|done..].
    by intros [= <-].
  - intros S1 Num R. unfold refine. by case_match.
Qed.

Lemma analysis_safepoint_tables : safepoint_tables S'.
Proof.
  destruct analysis_dataflow as (S1 & _ & -> & Hv).
  pose proof (LocalScan_safepoint_tables _ _ _ _ _ scanned) as HT.
  destruct Hv as (_ & HM & _ & _ & _ & _ & _ & _ & HN & HR & _ & HL & HO & _ & HB).
  assert (safepoint_tables S1) as HT1.
  { revert HT. apply safepoint_tables_getBBS; try done; try congruence.
    intros X. by destruct (HB X) as (? & ? & ? & _). }
  revert HT1. destruct (ComputeLiveSets_same F' S1) as (HB' & HN' & _).
  pose proof (LiveSet_loop_same F' (map_to_list (SafepointNumbering S1)) S1)
    as (_ & _ & HO' & _ & _ & _ & _ & HL').
  destruct (LiveSet_loop_numbers F' (map_to_list (SafepointNumbering S1)) S1) as [HM' HR'].
  apply safepoint_tables_getBBS.
  - exact HM'.
  - exact HR'.
  - exact HL'.
  - unfold ComputeLiveSets. simpl. by rewrite HO'.
  - done.
  - intros X. unfold getBBS. by rewrite HB'.
Qed.

Hypothesis small : MaxPtrNumber S < 2 ^ 31 - 1.

Lemma analysis_widths : MaxPtrNumber S' = MaxPtrNumber S /\ widths_ok S'.
Proof.
  destruct analysis_dataflow as (S1 & Hloop & -> & Hv).
  destruct (LocalScan_seeded P sf F F' S scanned) as [HM Hseed].
  set (W := Z.to_nat (MaxPtrNumber S + 1)).
  destruct (Hseed W) as [Hs Hb]; [unfold W; lia|].
  assert (Z.of_nat W < 2 ^ 32) as HW by (unfold W; lia).
  destruct (dataflow_loop_Ok W F' HW df S S1 (seeded_inv W F' S Hs Hb) Hloop)
    as ((Hb1 & _) & _).
  pose proof (LocalScan_widths _ _ _ _ _ scanned) as [_ HL]. fold W in HL.
  destruct Hv as (HM1 & _ & _ & _ & _ & _ & _ & _ & _ & _ & _ & HL1 & _).
  rewrite <- HL1 in HL.
  destruct (ComputeLiveSets_same F' S1) as (_ & _ & _ & HM2 & _).
  split; [congruence|]. unfold widths_ok. rewrite HM2, HM1. fold W.
  by apply ComputeLiveSets_widths.
Qed.

Lemma analysis_Neighbors_wf :
  Neighbors_wf (Neighbors S') /\ length (Neighbors S') = Z.to_nat (MaxPtrNumber S' + 1).
Proof.
  destruct analysis_widths as [HM [_ HL]].
  destruct analysis_dataflow as (S1 & Hloop & -> & Hv).
  assert (Neighbors S1 = []) as HN.
  { destruct Hv as (_ & _ & _ & _ & _ & _ & -> & _). apply LocalScan_Neighbors. }
  split; [|by apply ComputeLiveSets_Neighbors_length].
  apply ComputeLiveSets_Neighbors_wf; [done|].
  intros sp idx LS _ HLS. rewrite Forall_lookup in HL. apply (HL _ _ HLS).
Qed.
End Analysis.

(** X3.  On the state that LocalScan and ComputeLiveness leave, if every
    returns_twice call is a numbered safepoint, ColorRoots returns one
    colour per identifier; the colour is 0 or more exactly for the
    identifiers that are in the live set of some safepoint, and -1 for all
    others. *)
Theorem ColorRoots_colours_live (P : LateLowerGCFrame) (sf df : nat) (F F' : Function)
    (S S' : State) :
  LocalScan sf P F = Ok (F', S) -> MaxPtrNumber S < 2 ^ 31 - 1 ->
  ComputeLiveness df F' S = Ok S' ->
  Forall (fun sp => is_Some (SafepointNumbering S' !! sp)) (ReturnsTwice S') ->
  exists Colors P0,
    ColorRoots S' = Ok (Colors, P0) /\
    length Colors = Z.to_nat (MaxPtrNumber S' + 1) /\
    forall (i : nat) c, Colors !! i = Some c ->
      -1 <= c /\ (0 <= c <-> exists sp, live_at S' sp i).
Proof.
  intros Hscan Hsmall Hlive Hnum.
  destruct (analysis_widths P sf df F F' S S' Hscan Hlive Hsmall) as [HM [_ HL]].
  destruct (analysis_dataflow df F' S S' Hlive) as (S1 & _ & -> & Hv).
  assert (Neighbors S1 = []) as HN.
  { destruct Hv as (_ & _ & _ & _ & _ & _ & -> & _). by eapply LocalScan_Neighbors. }
  destruct (ComputeLiveSets_same F' S1) as (_ & HSN & _ & HM1 & HRT).
  rewrite HSN, HRT in Hnum. rewrite HM1 in HL.
  destruct (ColorRoots_after_live_sets F' S1 HN) as (Colors & P0 & HC & Hlen & Hcol);
    [lia|done|done|].
  exists Colors, P0. split; [done|]. split; [congruence|done].
Qed.

Lemma ColorRoots_colours_live_witness :
  LocalScan 100 (Examples.pass_of MoreExamples.returns_twice_call)
    MoreExamples.returns_twice_call
    = Ok (MoreExamples.returns_twice_call,
          Examples.scanned_state MoreExamples.returns_twice_call) /\
  exists Colors P0,
    ColorRoots (MoreExamples.live_state MoreExamples.returns_twice_call) = Ok (Colors, P0) /\
    length Colors = 1%nat.
Proof.
  assert (LocalScan 100 (Examples.pass_of MoreExamples.returns_twice_call)
            MoreExamples.returns_twice_call
          = Ok (MoreExamples.returns_twice_call,
                Examples.scanned_state MoreExamples.returns_twice_call)) as HL.
  { vm_compute. reflexivity. }
  assert (MaxPtrNumber (Examples.scanned_state MoreExamples.returns_twice_call) < 2 ^ 31 - 1)
    as HM by (vm_compute; reflexivity).
  assert (ComputeLiveness 100 MoreExamples.returns_twice_call
            (Examples.scanned_state MoreExamples.returns_twice_call)
          = Ok (MoreExamples.live_state MoreExamples.returns_twice_call)) as HC.
  { vm_compute. reflexivity. }
  assert (Forall (fun sp => is_Some (SafepointNumbering
                     (MoreExamples.live_state MoreExamples.returns_twice_call) !! sp))
            (ReturnsTwice (MoreExamples.live_state MoreExamples.returns_twice_call))) as HR.
  { apply (bool_decide_unpack _). vm_compute. reflexivity. }
  split; [exact HL|].
  destruct (ColorRoots_colours_live _ _ _ _ _ _ _ HL HM HC HR) as (Colors & P0 & H1 & H2 & _).
  exists Colors, P0. split; [exact H1|exact H2].
Defined.

(** X4.  On the state that LocalScan and ComputeLiveness leave, ColorRoots
    either returns or fails on the lookup of a returns_twice call in
    SafepointNumbering, and it fails exactly when some returns_twice call is
    not a numbered safepoint; the loop over the elimination order always
    ends. *)
Theorem ColorRoots_fails_on_unnumbered (P : LateLowerGCFrame) (sf df : nat) (F F' : Function)
    (S S' : State) :
  LocalScan sf P F = Ok (F', S) -> MaxPtrNumber S < 2 ^ 31 - 1 ->
  ComputeLiveness df F' S = Ok S' ->
  (ColorRoots S' = Abort "std::out_of_range" \/
   exists Colors P0, ColorRoots S' = Ok (Colors, P0)) /\
  (ColorRoots S' = Abort "std::out_of_range" <->
   exists sp, sp ∈ ReturnsTwice S' /\ SafepointNumbering S' !! sp = None).
Proof.
  intros Hscan Hsmall Hlive.
  destruct (analysis_widths P sf df F F' S S' Hscan Hlive Hsmall) as [HM [_ HL]].
  destruct (analysis_dataflow df F' S S' Hlive) as (S1 & _ & -> & Hv).
  assert (Neighbors S1 = []) as HN.
  { destruct Hv as (_ & _ & _ & _ & _ & _ & -> & _). by eapply LocalScan_Neighbors. }
  destruct (ComputeLiveSets_same F' S1) as (_ & HSN & _ & HM1 & HRT).
  rewrite HSN, HRT. rewrite HM1 in HL.
  apply (ColorRoots_outcome_after_live_sets F' S1 HN); [lia|done].
Qed.

Lemma ColorRoots_fails_on_unnumbered_witness :
  LocalScan 100 (Examples.pass_of MoreExamples.returns_twice_memcmp)
    MoreExamples.returns_twice_memcmp
    = Ok (MoreExamples.returns_twice_memcmp,
          Examples.scanned_state MoreExamples.returns_twice_memcmp) /\
  (ColorRoots (MoreExamples.live_state MoreExamples.returns_twice_memcmp)
     = Abort "std::out_of_range" <->
   exists sp, sp ∈ ReturnsTwice (MoreExamples.live_state MoreExamples.returns_twice_memcmp) /\
     SafepointNumbering (MoreExamples.live_state MoreExamples.returns_twice_memcmp) !! sp = None).
Proof.
  assert (LocalScan 100 (Examples.pass_of MoreExamples.returns_twice_memcmp)
            MoreExamples.returns_twice_memcmp
          = Ok (MoreExamples.returns_twice_memcmp,
                Examples.scanned_state MoreExamples.returns_twice_memcmp)) as HL.
  { vm_compute. reflexivity. }
  assert (MaxPtrNumber (Examples.scanned_state MoreExamples.returns_twice_memcmp) < 2 ^ 31 - 1)
    as HM by (vm_compute; reflexivity).
  assert (ComputeLiveness 100 MoreExamples.returns_twice_memcmp
            (Examples.scanned_state MoreExamples.returns_twice_memcmp)
          = Ok (MoreExamples.live_state MoreExamples.returns_twice_memcmp)) as HC.
  { vm_compute. reflexivity. }
  split; [exact HL|].
  exact (proj2 (ColorRoots_fails_on_unnumbered _ _ _ _ _ _ _ HL HM HC)).
Defined.

(** X6.  LocalScan leaves the tables of the safepoints consistent, and
    ComputeLiveness keeps them so: ReverseSafepointNumbering, LiveSets and
    LiveIfLiveOut have one entry for each of the numbers
    0..MaxSafepointNumber, a numbered call is the entry of its number in
    the reverse numbering, the list of a block holds handed-out numbers in
    increasing order with TopmostSafepoint last and is empty exactly when
    HasSafepoint is false, and every number is in the list of exactly
    one block. *)
Theorem safepoint_tables_consistent (P : LateLowerGCFrame) (sf df : nat) (F F' : Function)
    (S S' : State) :
  LocalScan sf P F = Ok (F', S) ->
  safepoint_tables S /\ (ComputeLiveness df F' S = Ok S' -> safepoint_tables S').
Proof.
  intros Hscan. split; [by eapply LocalScan_safepoint_tables|].
  intros Hlive. by eapply analysis_safepoint_tables.
Qed.

Lemma safepoint_tables_consistent_witness :
  LocalScan 100 (Examples.pass_of MoreExamples.returns_twice_call)
    MoreExamples.returns_twice_call
    = Ok (MoreExamples.returns_twice_call,
          Examples.scanned_state MoreExamples.returns_twice_call) /\
  safepoint_tables (Examples.scanned_state MoreExamples.returns_twice_call).
Proof.
  assert (LocalScan 100 (Examples.pass_of MoreExamples.returns_twice_call)
            MoreExamples.returns_twice_call
          = Ok (MoreExamples.returns_twice_call,
                Examples.scanned_state MoreExamples.returns_twice_call)) as HL.
  { vm_compute. reflexivity. }
  split; [exact HL|].
  exact (proj1 (safepoint_tables_consistent _ 100 100 _ _ _ State_init HL)).
Defined.

(** X7.  After LocalScan no bit vector of a block and no live set has more
    bits than identifiers were handed out, so every identifier in one of
    them is at most MaxPtrNumber; ComputeLiveness keeps MaxPtrNumber and
    this bound. *)
Theorem analysis_within_identifiers (P : LateLowerGCFrame) (sf df : nat) (F F' : Function)
    (S S' : State) :
  LocalScan sf P F = Ok (F', S) ->
  widths_ok S /\
  (MaxPtrNumber S < 2 ^ 31 - 1 -> ComputeLiveness df F' S = Ok S' ->
   MaxPtrNumber S' = MaxPtrNumber S /\ widths_ok S' /\
   forall sp i, live_at S' sp i -> 0 <= Z.of_nat i <= MaxPtrNumber S).
Proof.
  intros Hscan. split; [by eapply LocalScan_widths|]. intros Hsmall Hlive.
  destruct (analysis_widths P sf df F F' S S' Hscan Hlive Hsmall) as [HM HW].
  split; [done|]. split; [done|].
  intros sp i (idx & LS & _ & HLS & Ht). apply BV_test_lt in Ht.
  destruct HW as [_ HL]. rewrite Forall_lookup in HL. specialize (HL _ _ HLS). lia.
Qed.

Lemma analysis_within_identifiers_witness :
  LocalScan 100 (Examples.pass_of Examples.two_roots) Examples.two_roots
    = Ok (Examples.two_roots, Examples.scanned_state Examples.two_roots) /\
  widths_ok (Examples.scanned_state Examples.two_roots).
Proof.
  assert (LocalScan 100 (Examples.pass_of Examples.two_roots) Examples.two_roots
          = Ok (Examples.two_roots, Examples.scanned_state Examples.two_roots)) as HL.
  { vm_compute. reflexivity. }
  split; [exact HL|].
  exact (proj1 (analysis_within_identifiers _ 100 100 _ _ _ State_init HL)).
Defined.

(** ** The tables of the numbering *)

Section NumberingTables.
Variable P : LateLowerGCFrame.

(** Handing out the identifier after the last one to [b]. *)
Lemma numbering_tables_new S (b : Value) All AllVec :
  numbering_tables S -> -1 <= MaxPtrNumber S ->
  AllVec = AllVectorNumbering S ->
  numbering_tables
    (mkState (MaxPtrNumber S + 1) (MaxSafepointNumber S) All AllVec
       (<[b := MaxPtrNumber S + 1]> (PtrNumbering S))
       (<[MaxPtrNumber S + 1 := b]> (ReversePtrNumbering S))
       (Neighbors S) (BBStates S) (LoadRefinements S) (SafepointNumbering S)
       (ReverseSafepointNumbering S) (ReturnsTwice S) (LiveSets S) (LiveIfLiveOut S)
       (Allocas S)).
Proof.
  intros (H1 & H2 & H3 & H4) HM ->. split; [|split; [|split; [|exact H4]]]; simpl.
  - intros n. rewrite lookup_insert. case_decide as Hn; [split; [lia|done]|].
    rewrite H1. lia.
  - intros v n. rewrite lookup_insert. case_decide as Hv.
    + intros [= <-]. right. subst. by rewrite lookup_insert_eq.
    + intros Hl. destruct (H2 _ _ Hl) as [?|Hr]; [by left|right].
      rewrite lookup_insert_ne; [done|]. intros <-.
      assert (is_Some (ReversePtrNumbering S !! (MaxPtrNumber S + 1))) as Hs by done.
      apply H1 in Hs. lia.
  - intros v l n Hl Hn. specialize (H3 _ _ _ Hl Hn).
    rewrite lookup_insert_ne; [done|]. intros <-.
    assert (is_Some (ReversePtrNumbering S !! (MaxPtrNumber S + 1))) as Hs by done.
    apply H1 in Hs. lia.
Qed.

Lemma LiftSelect_tables fuel A F S SI n F' S' :
  numbering_in_range S -> numbering_tables S ->
  LiftSelect fuel A F S SI = Ok (n, F', S') -> numbering_tables S'.
Proof.
  intros (HM & _) HT. unfold LiftSelect. destruct (getKind F SI); try done.
  match goal with |- mbind _ ?m = _ -> _ => destruct m as [TrueBase| |] end;
    bind_ok; [|done..].
  match goal with |- match ?m with _ => _ end = _ -> _ => destruct m as [FalseBase| |] end;
    [|done..].
  repeat match goal with |- context [let '(_, _) := ?x in _] => destruct x end.
  destruct (negb _); intros [= _ _ <-]; [done|].
  by apply numbering_tables_new.
Qed.

Lemma LiftPhi_tables fuel F S Phi n F' S' :
  numbering_in_range S -> numbering_tables S ->
  LiftPhi fuel P F S Phi = Ok (n, F', S') -> numbering_tables S'.
Proof.
  intros (HM & _) HT. unfold LiftPhi. destruct (getKind F Phi); try done.
  destruct (T_prjlvalue P) as [T|]; [|done].
  destruct (createBefore F Phi (PHINode []) T) as [F1 lift].
  destruct (LiftPhi_incoming _ _ _ _ _ _ _) as [[F2 lifted]| |]; bind_ok; [|done..].
  intros [= _ _ <-]. by apply numbering_tables_new.
Qed.

Lemma numbering_tables_All S All :
  numbering_tables S -> numbering_tables (setAllPtrNumbering S All).
Proof. done. Qed.

Lemma Number_at_tables fuel F S V r n F' S' :
  numbering_in_range S -> numbering_tables S ->
  Number_at fuel P F S V r = Ok (n, F', S') -> numbering_tables S'.
Proof.
  intros HR HT. pose proof HR as (HM & _). unfold Number_at.
  destruct (AllPtrNumbering S !! r); [by intros [= _ _ <-]|].
  destruct (is_rooted_in_parent _ _ _).
  { intros [= _ _ <-]. destruct HT as (H1 & H2 & H3 & H4). split; [done|]. split; [|done].
    simpl. intros v m. rewrite lookup_insert. case_decide; [intros [= <-]; by left|apply H2]. }
  destruct (isSelect _ && _).
  { destruct (LiftSelect _ _ _ _ _) as [[[n' F1] S1]| |] eqn:E; bind_ok; [|done..].
    intros [= _ _ <-]. apply numbering_tables_All. by eapply LiftSelect_tables. }
  destruct (isPHI _ && _).
  { destruct (LiftPhi _ _ _ _ _) as [[[n' F1] S1]| |] eqn:E; bind_ok; [|done..].
    intros [= _ _ <-]. apply numbering_tables_All. by eapply LiftPhi_tables. }
  destruct (isExtractValue _ && _); [done|].
  destruct (assert _ _); bind_ok; [|done..]. intros [= _ _ <-].
  by apply numbering_tables_new.
Qed.

Lemma Number_tables fuel F S V n F' S' :
  numbering_in_range S -> numbering_tables S ->
  Number fuel P F S V = Ok (n, F', S') -> numbering_tables S'.
Proof.
  intros HR HT. unfold Number. destruct (assert _ _); bind_ok; [|done..].
  destruct (FindBaseValue _ _ _ _ _ _); bind_ok; [|done..]. by apply Number_at_tables.
Qed.

Lemma fold_insert_lookup (V : Value) (Nums : list Z) (Rev : gmap Z Value) n :
  foldl (fun Rev Num => <[Num := V]> Rev) Rev Nums !! n =
  if decide (n ∈ Nums) then Some V else Rev !! n.
Proof.
  revert Rev. induction Nums as [|m Nums IH]; intros Rev; simpl.
  - destruct (decide (n ∈ [])) as [Hin|Hin]; [by inversion Hin|done].
  - rewrite IH. destruct (decide (n ∈ Nums)) as [Hin|Hin].
    + rewrite decide_True; [done|]. by right.
    + rewrite lookup_insert. destruct (decide (m = n)) as [->|Hne].
      * rewrite decide_True; [done|]. by left.
      * rewrite decide_False; [done|]. by intros [->|?]%elem_of_cons.
Qed.

Lemma numbering_tables_vector S (V : Value) :
  numbering_tables S -> AllVectorNumbering S !! V = None ->
  numbering_tables (setVectorNumbering S (MaxPtrNumber S)
                      (<[V := []]> (AllVectorNumbering S)) (ReversePtrNumbering S)).
Proof.
  intros (H1 & H2 & H3 & H4) HV. split; [done|]. split; [done|]. simpl. split.
  - intros v l' n. rewrite lookup_insert.
    case_decide; [intros [= <-]; by inversion 1|apply H3].
  - intros v l'. rewrite lookup_insert.
    case_decide; [intros [= <-]; constructor|apply H4].
Qed.

Lemma NumberVector_tables fuel F S V Nums S' :
  numbering_in_range S -> numbering_tables S ->
  NumberVector fuel P F S V = Ok (Nums, S') -> numbering_tables S'.
Proof.
  intros HR HT. pose proof HR as (HM & _). unfold NumberVector. cbv zeta.
  destruct (AllVectorNumbering S !! V) as [l|] eqn:HV0; [by intros [= _ <-]|].
  destruct (FindBaseValue _ _ _ _ _ _) as [C| |]; bind_ok; [|done..].
  destruct (AllVectorNumbering S !! C) as [l|] eqn:HC; [by intros [= _ <-]|].
  assert (forall S1, numbering_tables S1 ->
    match AllVectorNumbering S1 !! C with
    | Some Numbers => Ok (Numbers, S1)
    | None => Ok ([], setVectorNumbering S1 (MaxPtrNumber S1)
                        (<[C := []]> (AllVectorNumbering S1)) (ReversePtrNumbering S1))
    end = Ok (Nums, S') -> numbering_tables S') as Hfin.
  { intros S1 HT1. destruct (AllVectorNumbering S1 !! C) as [l|] eqn:HC1.
    - by intros [= _ <-].
    - intros [= _ <-]. by apply (numbering_tables_vector S1 C). }
  destruct (isConstant _ || _).
  { bind_ok. apply Hfin. by apply (numbering_tables_vector S V). }
  destruct (getKind F C); bind_ok; try done; try (by apply Hfin).
  apply Hfin. destruct HT as (H1 & H2 & H3 & H4).
  set (k := numElements (getType F C)).
  set (Numbers := (fun i : nat => MaxPtrNumber S + 1 + Z.of_nat i) <$> seq 0 k).
  assert (forall m, m ∈ Numbers <-> MaxPtrNumber S < m <= MaxPtrNumber S + Z.of_nat k) as HN.
  { intros m. unfold Numbers. rewrite list_elem_of_fmap. split.
    - intros (i & -> & Hi%elem_of_seq). lia.
    - intros Hm. exists (Z.to_nat (m - MaxPtrNumber S - 1)). split; [lia|].
      apply elem_of_seq. lia. }
  assert (forall n, is_Some (ReversePtrNumbering S !! n) -> ~ n ∈ Numbers) as Hold.
  { intros n Hn%H1 Hin%HN. lia. }
  split; [|split; [|split]]; simpl.
  - intros n. rewrite fold_insert_lookup. case_decide as Hin.
    + apply HN in Hin. split; [lia|done].
    + rewrite H1. rewrite HN in Hin. lia.
  - intros v n Hl. destruct (H2 _ _ Hl) as [?|Hr]; [by left|right].
    rewrite fold_insert_lookup, decide_False; [done|]. by apply Hold.
  - intros v l n. rewrite lookup_insert. case_decide as Hv.
    + intros [= <-] Hn. subst v. by rewrite fold_insert_lookup, decide_True.
    + intros Hl Hn. specialize (H3 _ _ _ Hl Hn).
      rewrite fold_insert_lookup, decide_False; [done|]. by apply Hold.
  - intros v l. rewrite lookup_insert. case_decide as Hv; [|apply H4].
    intros [= <-]. unfold Numbers. apply NoDup_fmap_2; [|apply NoDup_seq].
    intros i j Hij. lia.
Qed.

Lemma LocalScan_numbering_tables fuel F F' S :
  LocalScan fuel P F = Ok (F', S) -> numbering_in_range S /\ numbering_tables S.
Proof.
  apply (LocalScan_invariant_numbering P numbering_tables); try done.
  - intros fuel' F0 S0 V n F1 S1. apply Number_tables.
  - intros fuel' F0 S0 V Nums S1. apply NumberVector_tables.
  - intros fuel' F0 S0 SI n F1 S1. apply LiftSelect_tables.
  - intros fuel' F0 S0 Phi n F1 S1. apply LiftPhi_tables.
  - intros S0 BB Num sps S1 HI _. unfold NoteDef.
    match goal with |- mbind _ ?m = _ -> _ => destruct m end; bind_ok; [|done..].
    match goal with |- match ?m with _ => _ end = _ -> _ => destruct m end; [|done..].
    by intros [= <-].
  - intros S0 Num R. unfold refine. by case_match.
  - split; [|split; [|split]]; simpl.
    + intros n. rewrite lookup_empty. split; [by intros [? ?]|lia].
    + intros v n. by rewrite lookup_empty.
    + intros v l n. by rewrite lookup_empty.
    + intros v l. by rewrite lookup_empty.
Qed.
End NumberingTables.

Lemma LiveSet_loop_numbering F l : forall S,
  PtrNumbering (foldl (LiveSet_step F) S l) = PtrNumbering S /\
  ReversePtrNumbering (foldl (LiveSet_step F) S l) = ReversePtrNumbering S /\
  AllVectorNumbering (foldl (LiveSet_step F) S l) = AllVectorNumbering S.
Proof.
  induction l as [|it l IH]; intros S; simpl; [done|].
  destruct (IH (LiveSet_step F S it)) as (-> & -> & ->).
  destruct it as [sp idx]. unfold LiveSet_step. by repeat case_match.
Qed.

Lemma analysis_numbering_tables P sf df F F' S S' :
  LocalScan sf P F = Ok (F', S) -> ComputeLiveness df F' S = Ok S' ->
  numbering_tables S'.
Proof.
  intros Hscan Hlive.
  destruct (analysis_dataflow df F' S S' Hlive) as (S1 & _ & -> & Hv).
  destruct (LocalScan_numbering_tables P sf F F' S Hscan) as [_ HT].
  destruct Hv as (HM & _ & _ & HV & HP & HR & _).
  destruct (LiveSet_loop_numbering F' (map_to_list (SafepointNumbering S1)) S1)
    as (HP' & HR' & HV').
  destruct (ComputeLiveSets_same F' S1) as (_ & _ & _ & HM' & _).
  unfold numbering_tables. rewrite HM', HM.
  unfold ComputeLiveSets. simpl. rewrite HP', HR', HV', HP, HR, HV. exact HT.
Qed.

Lemma list_find_NoDup (l : list Z) (k : nat) n :
  NoDup l -> l !! k = Some n -> list_find (fun m => m = n) l = Some (k, n).
Proof.
  intros Hnd Hk. apply list_find_Some. split; [done|]. split; [done|].
  intros j y Hj Hlt ->. assert (j = k) by (by eapply NoDup_lookup). lia.
Qed.

Lemma GetPtrForNumber_vector P F0 S (v : Value) l (k : nat) n pos :
  numbering_tables S -> AllVectorNumbering S !! v = Some l -> l !! k = Some n ->
  isSpecialPtrVec (AddressSpace P) (getType F0 v) = true ->
  exists F2 Val c, GetPtrForNumber P F0 S n pos = Ok (F2, Val) /\
    getKind F2 Val = ExtractElementInst v c /\
    getKind F2 c = ConstantInt (Z.of_nat k).
Proof.
  intros (_ & _ & H3 & H4) Hl Hk Hty.
  assert (n ∈ l) as Hin by (by eapply list_elem_of_lookup_2).
  unfold GetPtrForNumber. rewrite (H3 _ _ _ Hl Hin), Hty, Hl. simpl.
  rewrite (list_find_NoDup l k n (H4 _ _ Hl) Hk).
  eexists _, _, _. split; [reflexivity|].
  unfold getKind. simpl. rewrite lookup_insert_eq. simpl. split; [done|].
  rewrite lookup_insert_ne by lia. by rewrite lookup_insert_eq.
Qed.

(** X8.  After LocalScan, and still after ComputeLiveness, exactly the
    identifiers 0..MaxPtrNumber have an entry in ReversePtrNumbering; the entry
    of the identifier that PtrNumbering gives a value, and of every identifier
    of a numbered vector, is that value; the identifiers of one vector are
    distinct. *)
Theorem numbering_tables_consistent (P : LateLowerGCFrame) (sf df : nat) (F F' : Function)
    (S S' : State) :
  LocalScan sf P F = Ok (F', S) ->
  numbering_tables S /\ (ComputeLiveness df F' S = Ok S' -> numbering_tables S').
Proof.
  intros Hscan. split; [by destruct (LocalScan_numbering_tables P sf F F' S Hscan)|].
  exact (analysis_numbering_tables P sf df F F' S S' Hscan).
Qed.

Lemma numbering_tables_consistent_witness :
  LocalScan 100 (Examples.pass_of Examples.two_roots) Examples.two_roots
    = Ok (Examples.two_roots, Examples.scanned_state Examples.two_roots) /\
  numbering_tables (Examples.scanned_state Examples.two_roots).
Proof.
  assert (LocalScan 100 (Examples.pass_of Examples.two_roots) Examples.two_roots
          = Ok (Examples.two_roots, Examples.scanned_state Examples.two_roots)) as HL.
  { vm_compute. reflexivity. }
  split; [exact HL|].
  exact (proj1 (numbering_tables_consistent _ 100 100 _ _ _ State_init HL)).
Defined.

(** X9.  GetPtrForNumber after the analysis: it finds a value for every
    identifier that is live at a safepoint; for the identifier that
    PtrNumbering gives a value that is not a vector of tracked pointers it
    gives back that value and leaves the function alone; for the k-th
    identifier of a numbered vector of tracked pointers it creates an
    extractelement of that vector at the constant index k. *)
Theorem GetPtrForNumber_round_trip (P : LateLowerGCFrame) (sf df : nat) (F F' : Function)
    (S S' : State) (F0 : Function) (pos : Value) :
  LocalScan sf P F = Ok (F', S) -> MaxPtrNumber S < 2 ^ 31 - 1 ->
  ComputeLiveness df F' S = Ok S' ->
  (forall sp (i : nat), live_at S' sp i ->
     exists F2 Val, GetPtrForNumber P F0 S' (Z.of_nat i) pos = Ok (F2, Val)) /\
  (forall (v : Value) n, PtrNumbering S' !! v = Some n -> 0 <= n ->
     isSpecialPtrVec (AddressSpace P) (getType F0 v) = false ->
     GetPtrForNumber P F0 S' n pos = Ok (F0, v)) /\
  (forall (v : Value) l (k : nat) n,
     AllVectorNumbering S' !! v = Some l -> l !! k = Some n ->
     isSpecialPtrVec (AddressSpace P) (getType F0 v) = true ->
     exists F2 Val c, GetPtrForNumber P F0 S' n pos = Ok (F2, Val) /\
       getKind F2 Val = ExtractElementInst v c /\
       getKind F2 c = ConstantInt (Z.of_nat k)).
Proof.
  intros Hscan Hsmall Hlive.
  pose proof (analysis_numbering_tables P sf df F F' S S' Hscan Hlive) as HT.
  destruct (analysis_widths P sf df F F' S S' Hscan Hlive Hsmall) as [HM [_ HL]].
  split; [|split].
  - intros sp i (idx & LS & _ & HLS & Ht). apply BV_test_lt in Ht.
    rewrite Forall_lookup in HL. specialize (HL _ _ HLS).
    destruct HT as (H1 & _).
    destruct (proj2 (H1 (Z.of_nat i))) as [w Hw]; [lia|].
    unfold GetPtrForNumber. rewrite Hw.
    destruct (isSpecialPtrVec _ _); [|by eauto].
    repeat match goal with |- context [let '(_, _) := ?x in _] => destruct x end.
    by eauto.
  - intros v n Hv Hn Hty. destruct HT as (_ & H2 & _).
    destruct (H2 _ _ Hv) as [?|Hr]; [lia|].
    unfold GetPtrForNumber. by rewrite Hr, Hty.
  - intros v l k n Hl Hk Hty. by apply (GetPtrForNumber_vector P F0 S' v l k n pos).
Qed.

Lemma GetPtrForNumber_round_trip_witness :
  LocalScan 100 (Examples.pass_of Examples.two_roots) Examples.two_roots
    = Ok (Examples.two_roots, Examples.scanned_state Examples.two_roots) /\
  MaxPtrNumber (Examples.scanned_state Examples.two_roots) < 2 ^ 31 - 1 /\
  ComputeLiveness 100 Examples.two_roots (Examples.scanned_state Examples.two_roots)
    = Ok (MoreExamples.live_state Examples.two_roots) /\
  (forall (v : Value) n,
     PtrNumbering (MoreExamples.live_state Examples.two_roots) !! v = Some n -> 0 <= n ->
     isSpecialPtrVec (AddressSpace (Examples.pass_of Examples.two_roots))
       (getType Examples.two_roots v) = false ->
     GetPtrForNumber (Examples.pass_of Examples.two_roots) Examples.two_roots
       (MoreExamples.live_state Examples.two_roots) n 12%nat = Ok (Examples.two_roots, v)).
Proof.
  assert (LocalScan 100 (Examples.pass_of Examples.two_roots) Examples.two_roots
          = Ok (Examples.two_roots, Examples.scanned_state Examples.two_roots)) as HL.
  { vm_compute. reflexivity. }
  assert (MaxPtrNumber (Examples.scanned_state Examples.two_roots) < 2 ^ 31 - 1) as HM.
  { vm_compute. reflexivity. }
  assert (ComputeLiveness 100 Examples.two_roots (Examples.scanned_state Examples.two_roots)
          = Ok (MoreExamples.live_state Examples.two_roots)) as HC.
  { vm_compute. reflexivity. }
  split; [exact HL|]. split; [exact HM|]. split; [exact HC|].
  exact (proj1 (proj2 (GetPtrForNumber_round_trip _ 100 100 _ _ _ _
                         Examples.two_roots 12%nat HL HM HC))).
Defined.

(** ** The work list of AddInPredLiveOuts *)

Section AddInPred.
Variables (F : Function) (S : State).

Lemma predecessors_blocks BB Pred : Pred ∈ predecessors F BB -> Pred ∈ (blocks F).*1.
Proof.
  unfold predecessors. intros (b & Hin & Hb)%list_elem_of_bind.
  apply list_elem_of_bind in Hin as (s & Hs%list_elem_of_singleton & _).
  apply list_elem_of_fmap. by exists b.
Qed.

Lemma Visited_length (Visited : list BasicBlock) :
  NoDup Visited -> (forall B, B ∈ Visited -> B ∈ (blocks F).*1) ->
  (length Visited <= length (blocks F))%nat.
Proof.
  intros Hnd Hsub. rewrite <- (length_fmap fst (blocks F)).
  apply submseteq_length. by apply NoDup_submseteq.
Qed.

Lemma AddInPred_block_spec a Pred :
  AddInPred_inv F S a -> Pred ∈ (blocks F).*1 ->
  AddInPred_inv F S (AddInPred_block F S a Pred) /\
  (AddInPred_measure F (AddInPred_block F S a Pred) <= AddInPred_measure F a)%nat /\
  Pred ∈ (AddInPred_block F S a Pred).1.1.2 /\
  forall B, B ∈ a.1.1.2 -> B ∈ (AddInPred_block F S a Pred).1.1.2.
Proof.
  destruct a as [[[WL V] First] LiveIn]. intros (Hnd & Hsub & Hf & Hl) HP.
  unfold AddInPred_block. case_bool_decide as Hv; [done|].
  assert (NoDup (Pred :: V)) as Hnd' by (by constructor).
  assert (forall B, B ∈ Pred :: V -> B ∈ (blocks F).*1) as Hsub'.
  { intros B [->|HB]%elem_of_cons; [done|by apply Hsub]. }
  pose proof (Visited_length _ Hnd' Hsub') as Hlen. simpl in Hlen.
  destruct (HasSafepoint (getBBS S Pred)) eqn:Hsp; simpl; cbv zeta.
  - destruct First.
    + split; [|split; [unfold AddInPred_measure; simpl; lia|split; [by left|by right]]].
      split; [done|]. split; [done|]. split; [done|].
      intros i Hi B [->|HB]%elem_of_cons HB'.
      * destruct (Hf eq_refl) as [-> _]. rewrite BV_test_or, BV_test_empty in Hi. exact Hi.
      * destruct (Hf eq_refl) as [_ Hno]. rewrite (Hno _ HB) in HB'. done.
    + split; [|split; [unfold AddInPred_measure; simpl; lia|split; [by left|by right]]].
      split; [done|]. split; [done|]. split; [done|].
      intros i Hi B HB HB'. rewrite BV_test_and in Hi.
      apply andb_true_iff in Hi as [Hi1 Hi2].
      apply elem_of_cons in HB as [->|HB]; [exact Hi2|by apply Hl].
  - split; [|split; [unfold AddInPred_measure; rewrite length_app; simpl; lia|split; [by left|by right]]].
    split; [done|]. split; [done|]. split.
    + intros HF. destruct (Hf HF) as [-> Hno]. split; [done|].
      intros B [->|HB]%elem_of_cons; [done|by apply Hno].
    + intros i Hi B [->|HB]%elem_of_cons HB'; [congruence|by apply Hl].
Qed.

Lemma AddInPred_fold_spec l : forall a,
  AddInPred_inv F S a -> (forall Pred, Pred ∈ l -> Pred ∈ (blocks F).*1) ->
  AddInPred_inv F S (foldl (AddInPred_block F S) a l) /\
  (AddInPred_measure F (foldl (AddInPred_block F S) a l) <= AddInPred_measure F a)%nat /\
  (forall Pred, Pred ∈ l -> Pred ∈ (foldl (AddInPred_block F S) a l).1.1.2) /\
  forall B, B ∈ a.1.1.2 -> B ∈ (foldl (AddInPred_block F S) a l).1.1.2.
Proof.
  induction l as [|Pred l IH]; intros a Ha Hl; simpl.
  - split; [done|]. split; [lia|]. split; [by inversion 1|done].
  - destruct (AddInPred_block_spec a Pred Ha) as (Ha1 & Hm1 & Hp1 & Hv1); [apply Hl; by left|].
    destruct (IH _ Ha1) as (Ha2 & Hm2 & Hp2 & Hv2); [intros ? ?; apply Hl; by right|].
    split; [done|]. split; [lia|]. split.
    + intros P' [->|HP']%elem_of_cons; [by apply Hv2|by apply Hp2].
    + intros B HB. by apply Hv2, Hv1.
Qed.

Lemma AddInPred_loop_spec fuel : forall a,
  AddInPred_inv F S a -> (AddInPred_measure F a < fuel)%nat ->
  exists LiveIn, AddInPred_loop fuel F S a = Ok LiveIn /\
    forall i, BV.test LiveIn i = true ->
      forall B, B ∈ a.1.1.2 -> HasSafepoint (getBBS S B) = true ->
        BV.test (LastLiveSet S B) i = true.
Proof.
  induction fuel as [|fuel IH]; intros a Ha Hm; [lia|].
  destruct a as [[[WL V] First] LiveIn]. simpl.
  destruct (last WL) as [BB|] eqn:Hlast.
  - assert (WL <> []) as Hne by (by intros ->).
    assert (0 < length WL)%nat as Hlen by (destruct WL; [done|simpl; lia]).
    set (a1 := (take (length WL - 1) WL, V, First, LiveIn)).
    assert (AddInPred_inv F S a1) as Ha1 by exact Ha.
    assert (AddInPred_measure F a1 < AddInPred_measure F (WL, V, First, LiveIn))%nat as Hm1.
    { unfold a1. simpl. rewrite length_take. lia. }
    destruct (AddInPred_fold_spec (predecessors F BB) a1 Ha1) as (Ha2 & Hm2 & _ & Hv2).
    { intros Pred. apply predecessors_blocks. }
    destruct (IH _ Ha2) as (L & HL & Hpost); [lia|].
    exists L. split; [exact HL|]. intros i Hi B HB. apply Hpost; [done|]. by apply Hv2.
  - exists LiveIn. split; [done|]. by destruct Ha as (_ & _ & _ & Hl).
Qed.
End AddInPred.

(** X10.  AddInPredLiveOuts comes to an end on every control flow graph,
    loops included, since a block enters the work list once.  An identifier
    in its result is live at the last safepoint of every predecessor of the
    block that has a safepoint; for a block without predecessors the result
    is empty. *)
Theorem AddInPredLiveOuts_total (F : Function) (S : State) (BB : BasicBlock) :
  exists LiveIn, AddInPredLiveOuts F S BB = Ok LiveIn /\
    (forall i Pred, BV.test LiveIn i = true -> Pred ∈ predecessors F BB ->
       HasSafepoint (getBBS S Pred) = true -> BV.test (LastLiveSet S Pred) i = true) /\
    (predecessors F BB = [] -> LiveIn = BV.empty).
Proof.
  unfold AddInPredLiveOuts.
  set (a0 := ([], [], true, BV.empty) : list BasicBlock * list BasicBlock * bool * BitVector).
  assert (AddInPred_inv F S a0) as Ha0.
  { split; [constructor|]. split; [by inversion 1|]. split; [split; [done|by inversion 1]|].
    intros i Hi. by rewrite BV_test_empty in Hi. }
  destruct (AddInPred_fold_spec F S (predecessors F BB) a0 Ha0) as (Ha1 & Hm1 & Hp1 & _).
  { intros Pred. apply predecessors_blocks. }
  destruct (AddInPred_loop_spec F S (Datatypes.S (length (blocks F))) _ Ha1)
    as (L & HL & Hpost).
  { assert (AddInPred_measure F a0 = length (blocks F)) as Hm0
      by (unfold a0, AddInPred_measure; simpl; lia).
    lia. }
  exists L. split; [exact HL|]. split.
  - intros i Pred Hi HP. apply Hpost; [done|]. by apply Hp1.
  - intros Hnil. rewrite Hnil in HL. simpl in HL. by injection HL as <-.
Qed.

Lemma AddInPredLiveOuts_total_witness :
  exists LiveIn,
    AddInPredLiveOuts Examples.live_across (MoreExamples.live_state Examples.live_across) 1%nat
      = Ok LiveIn.
Proof.
  destruct (AddInPredLiveOuts_total Examples.live_across
              (MoreExamples.live_state Examples.live_across) 1%nat) as (LiveIn & HL & _).
  exists LiveIn. exact HL.
Defined.

(** ** The stores into the frame (PlaceGCFrameStores) *)

Lemma foldl_Res_cons {A B : Type} (f : Res A -> B -> Res A) (b : B) (l : list B) a a' :
  (forall b m, f (Abort m) b = Abort m) -> (forall b, f OutOfFuel b = OutOfFuel) ->
  foldl f (Ok a) (b :: l) = Ok a' ->
  exists a1, f (Ok a) b = Ok a1 /\ foldl f (Ok a1) l = Ok a'.
Proof.
  intros HA HO. simpl. destruct (f (Ok a) b) as [a1|m|] eqn:E.
  - intros H. by exists a1.
  - assert (foldl f (Abort m) l = Abort m) as ->; [|done].
    induction l as [|b' l IHl]; simpl; [done|]. by rewrite HA.
  - assert (foldl f OutOfFuel l = OutOfFuel) as ->; [|done].
    induction l as [|b' l IHl]; simpl; [done|]. by rewrite HO.
Qed.

Section SameCfg.
Implicit Types F G : Function.

Lemma block_kept_refl n b : block_kept n b b.
Proof. split; [done|]. split; [done|]. split; [done|]. intros v Hv. by left. Qed.

Lemma same_cfg_refl F : same_cfg F F.
Proof.
  split; [apply extends_refl|]. apply Forall_Forall2_diag, Forall_forall.
  intros b _. apply block_kept_refl.
Qed.

Lemma same_cfg_trans F G H : same_cfg F G -> same_cfg G H -> same_cfg F H.
Proof.
  intros [H1 H2] [H3 H4]. split; [by eapply extends_trans|].
  destruct H3 as [Hn _].
  revert H4. generalize (blocks H). induction H2 as [|b1 b2 l1 l2 Hb _ IH]; intros l3 H4.
  - inversion H4. constructor.
  - inversion H4 as [|? b3 ? l3' Hb' H4']; subst. constructor; [|by apply IH].
    destruct Hb as (Ha & Hb & Hc & Hd), Hb' as (He & Hf & Hg & Hh). split; [congruence|].
    split; [congruence|]. split; [intros v Hv; by apply Hg, Hc|].
    intros v Hv. destruct (Hh v Hv) as [Hv2|?]; [|by right].
    destruct (Hd v Hv2) as [?|?]; [by left|right; lia].
Qed.

Lemma same_cfg_addValue F k t : same_cfg F (addValue F k t).1.
Proof.
  split; [apply extends_addValue|]. simpl. apply Forall_Forall2_diag, Forall_forall.
  intros b _. apply block_kept_refl.
Qed.

Lemma last_insert_before pos I (l : list Value) : last (insert_before pos I l) = last l.
Proof.
  induction l as [|x l IH]; simpl; [done|]. case_decide; [done|].
  destruct l as [|y l]; [done|]. simpl in *.
  destruct (decide (y = pos)); simpl; [done|].
  destruct (insert_before pos I l) eqn:E; [by destruct l; [|simpl in E; case_decide]|].
  exact IH.
Qed.

Lemma elem_of_insert_before_inv (pos I x : Value) l :
  x ∈ insert_before pos I l -> x ∈ l \/ x = I.
Proof.
  induction l as [|y l IH]; simpl; [by left|]. case_decide.
  - intros [->|Hx]%elem_of_cons; [by right|by left].
  - intros [->|Hx]%elem_of_cons; [left; by left|].
    destruct (IH Hx) as [?|?]; [left; by right|by right].
Qed.

Lemma same_cfg_createBefore F pos k t : same_cfg F (createBefore F pos k t).1.
Proof.
  split; [apply extends_createBefore|]. unfold createBefore. simpl.
  apply Forall2_fmap_r, Forall_Forall2_diag, Forall_forall. intros [BB l] _.
  split; [done|]. simpl. split; [apply last_insert_before|]. split.
  - intros v. apply elem_of_insert_before.
  - intros v [?|Hv]%elem_of_insert_before_inv; [by left|right; subst v; lia].
Qed.

Lemma same_cfg_fmap F F' :
  same_cfg F F' ->
  (fun b : BasicBlock * list Value => (b.1, last b.2)) <$> blocks F' =
  (fun b : BasicBlock * list Value => (b.1, last b.2)) <$> blocks F.
Proof.
  intros [_ H]. induction H as [|b b' l l' (H1 & H2 & _) _ IH]; [done|].
  rewrite !fmap_cons, IH. simpl. by rewrite H1, H2.
Qed.

Lemma same_cfg_below F F' : same_cfg F F' -> insts_below F -> insts_below F'.
Proof.
  intros [[Hn _] H] HB. unfold insts_below in *.
  remember (blocks F) as l eqn:El. remember (blocks F') as l' eqn:El'. clear El El'.
  induction H as [|b b' l l' (_ & _ & _ & H4) _ IH]; [constructor|].
  inversion HB as [|? ? Hb HB']; subst. constructor; [|by apply IH].
  rewrite Forall_forall in Hb. apply Forall_forall. intros v Hv.
  destruct (H4 v Hv) as [Hv'|?]; [|done]. specialize (Hb v Hv'). lia.
Qed.

Lemma same_cfg_getInsts F F' BB (v : Value) :
  same_cfg F F' -> v ∈ getInsts F BB -> v ∈ getInsts F' BB.
Proof.
  intros [_ H]. unfold getInsts.
  induction H as [|[B l0] [B' l0'] l l' (H1 & _ & H3 & _) _ IH]; [done|].
  simpl in *. subst B'. destruct (decide (B = BB)); simpl; [apply H3|].
  destruct (list_find _ l) as [[? ?]|], (list_find _ l') as [[? ?]|]; simpl in *; done.
Qed.

Lemma same_cfg_MaybeExtractUnion A F Val pos : same_cfg F (MaybeExtractUnion A F Val pos).1.
Proof.
  unfold MaybeExtractUnion. case_match; [apply same_cfg_createBefore|apply same_cfg_refl].
Qed.

Lemma same_cfg_GetPtrForNumber P F S Num pos F' Val :
  GetPtrForNumber P F S Num pos = Ok (F', Val) -> same_cfg F F'.
Proof.
  unfold GetPtrForNumber. destruct (ReversePtrNumbering S !! Num) as [V|]; [|done].
  case_match; [|intros [= <- <-]; apply same_cfg_refl].
  set (Idx := match list_find _ _ with Some (i, _) => i | None => _ end).
  pose proof (same_cfg_addValue F (ConstantInt (Z.of_nat Idx)) (IntegerTy 32)) as H1.
  destruct (addValue F (ConstantInt (Z.of_nat Idx)) (IntegerTy 32)) as [F1 c].
  cbv beta iota zeta.
  match goal with |- Ok (createBefore ?a ?b ?c ?d) = _ -> _ =>
    pose proof (same_cfg_createBefore a b c d) as H2;
    destruct (createBefore a b c d) as [F2 x] end.
  simpl in *. intros [= <- <-]. eauto using same_cfg_trans.
Qed.

Lemma getKind_Some F (v : Value) vi : values F !! v = Some vi -> getKind F v = kind vi.
Proof. intros H. unfold getKind. by rewrite H. Qed.

Lemma extends_getKind F F' (v : Value) :
  extends F F' -> (v < next_value F)%nat -> getKind F' v = getKind F v.
Proof. intros [_ He] Hv. unfold getKind. by rewrite He. Qed.

Lemma frame_store_extends F F' GCFrame n st :
  extends F F' -> frame_store F GCFrame n st -> frame_store F' GCFrame n st.
Proof.
  intros [Hn He] (Val & gep & slot & H1 & H2 & H3 & H4 & H5 & H6).
  exists Val, gep, slot.
  rewrite !(extends_getKind F F') by (done || by split).
  repeat split; try done; lia.
Qed.
End SameCfg.

Section FrameStores.
Variables (P : LateLowerGCFrame) (S : State) (MinColorRoot : Z) (Colors : list Z)
          (GCFrame : Value).

Lemma PlaceGCFrameStore_spec F R pos F' st :
  PlaceGCFrameStore P F S R MinColorRoot Colors GCFrame pos = Ok (F', st) ->
  same_cfg F F' /\
  frame_store F' GCFrame (to_unsigned (getColor Colors R + MinColorRoot)) st.
Proof.
  unfold PlaceGCFrameStore. destruct (T_prjlvalue P) as [T|]; [|done].
  destruct (GetPtrForNumber P F S R pos) as [[F1 Val]| |] eqn:E1; bind_ok; [|done..].
  apply same_cfg_GetPtrForNumber in E1.
  set (n := to_unsigned (getColor Colors R + MinColorRoot)).
  pose proof (same_cfg_addValue F1 (ConstantInt n) (T_int32 P)) as H2.
  assert (values (addValue F1 (ConstantInt n) (T_int32 P)).1 !! next_value F1
          = Some (mkValue (ConstantInt n) (T_int32 P)) /\
          next_value (addValue F1 (ConstantInt n) (T_int32 P)).1
          = Datatypes.S (next_value F1) /\
          (addValue F1 (ConstantInt n) (T_int32 P)).2 = next_value F1) as (Hs1 & Hs2 & Hs3).
  { unfold addValue. cbn [fst snd values next_value]. by rewrite lookup_insert_eq. }
  destruct (addValue F1 (ConstantInt n) (T_int32 P)) as [F2 slot].
  cbn [fst snd] in H2, Hs1, Hs2, Hs3. subst slot.
  pose proof (same_cfg_createBefore F2 pos (GetElementPtrInst GCFrame [next_value F1])
                (PointerTy T 0)) as H3.
  destruct (createBefore_lookup F2 pos (GetElementPtrInst GCFrame [next_value F1])
              (PointerTy T 0)) as (Hg1 & Hg2 & Hg3).
  destruct (createBefore F2 pos _ _) as [F3 gep]. cbn [fst snd] in H3, Hg1, Hg2, Hg3. subst gep.
  pose proof (same_cfg_MaybeExtractUnion (AddressSpace P) F3 Val pos) as H4.
  destruct (MaybeExtractUnion (AddressSpace P) F3 Val pos) as [F4 Val4]. cbn [fst snd] in H4.
  assert (exists F5 Val5, same_cfg F4 F5 /\
            (if negb (Ty_eqb (getType F4 Val4) T)
             then createBefore F4 pos (BitCastInst Val4) T else (F4, Val4)) = (F5, Val5))
    as (F5 & Val5 & H5 & E5).
  { destruct (negb _).
    - pose proof (same_cfg_createBefore F4 pos (BitCastInst Val4) T) as H5.
      destruct (createBefore F4 pos _ _) as [F5 Val5]. by exists F5, Val5.
    - exists F4, Val4. split; [apply same_cfg_refl|done]. }
  rewrite E5.
  pose proof (same_cfg_createBefore F5 pos (StoreInst Val5 (next_value F2)) VoidTy) as H6.
  destruct (createBefore_lookup F5 pos (StoreInst Val5 (next_value F2)) VoidTy)
    as (Ht1 & Ht2 & Ht3).
  destruct (createBefore F5 pos _ _) as [F6 st6]. cbn [fst snd] in H6, Ht1, Ht2, Ht3. subst st6.
  intros [= <- <-].
  split; [eauto 10 using same_cfg_trans|].
  assert (extends F3 F6) as He36.
  { eapply extends_trans; [apply H4|]. eapply extends_trans; [apply H5|apply H6]. }
  pose proof He36 as [Hn36 _].
  exists Val5, (next_value F2), (next_value F1).
  rewrite (getKind_Some _ _ _ Ht3).
  rewrite !(extends_getKind F3 F6) by (done || lia).
  rewrite (getKind_Some _ _ _ Hg3).
  rewrite (extends_getKind F2 F3) by (apply H3 || lia).
  rewrite (getKind_Some _ _ _ Hs1). simpl.
  repeat split; try done; lia.
Qed.

Lemma slot_stored_mono F F' stores stores' R :
  extends F F' -> (forall st, st ∈ stores -> st ∈ stores') ->
  slot_stored MinColorRoot Colors GCFrame F stores R -> slot_stored MinColorRoot Colors GCFrame F' stores' R.
Proof.
  intros He Hs (st & Hin & Hst). exists st. split; [by apply Hs|].
  by eapply frame_store_extends.
Qed.

Lemma store_loop_spec (LastLive : BitVector) (pos : Value) (l : list nat) :
  forall F stores F' stores',
  foldl (fun r (Idx : nat) =>
           '(F, stores) ← r;
           if negb (HasBitSet LastLive (Z.of_nat Idx)) then
             '(F, st) ← PlaceGCFrameStore P F S (Z.of_nat Idx) MinColorRoot Colors
                                          GCFrame pos;
             Ok (F, stores ++ [st])
           else Ok (F, stores))
        (Ok (F, stores)) l = Ok (F', stores') ->
  same_cfg F F' /\ (forall st, st ∈ stores -> st ∈ stores') /\
  (forall R, R ∈ l -> BV.test LastLive R = false -> slot_stored MinColorRoot Colors GCFrame F' stores' R) /\
  (forall st, st ∈ stores' -> st ∈ stores \/
     exists R, R ∈ l /\
       frame_store F' GCFrame (to_unsigned (getColor Colors (Z.of_nat R) + MinColorRoot)) st).
Proof.
  induction l as [|Idx l IH]; intros F stores F' stores'.
  - simpl. intros [= <- <-]. split; [apply same_cfg_refl|]. split; [done|].
    split; [by intros ? ?%elem_of_nil|by left].
  - intros E. apply foldl_Res_cons in E as ([F1 stores1] & E1 & E2); [|done..].
    destruct (IH _ _ _ _ E2) as (Hc2 & Hs2 & Hcov2 & Hsnd2). clear IH E2.
    revert E1. bind_ok.
    assert (HasBitSet LastLive (Z.of_nat Idx) = BV.test LastLive Idx) as ->.
    { unfold HasBitSet. rewrite Nat2Z.id. by destruct (Z.leb_spec 0 (Z.of_nat Idx)); [|lia]. }
    destruct (BV.test LastLive Idx) eqn:Ht; simpl.
    + intros [= <- <-]. split; [done|]. split; [done|]. split.
      * intros R [->|HR]%elem_of_cons Hf; [congruence|by apply Hcov2].
      * intros st Hst. destruct (Hsnd2 _ Hst) as [?|(R & HR & Hfs)]; [by left|].
        right. exists R. split; [by right|done].
    + destruct (PlaceGCFrameStore _ _ _ _ _ _ _ _) as [[F2 st]| |] eqn:E3; bind_ok; [|done..].
      intros [= <- <-]. apply PlaceGCFrameStore_spec in E3 as [Hc1 Hfs1].
      split; [by eapply same_cfg_trans|]. split.
      { intros st' Hin. apply Hs2, elem_of_app. by left. }
      split.
      * intros R [->|HR]%elem_of_cons Hf; [|by apply Hcov2].
        exists st. split; [apply Hs2, elem_of_app; right; by apply list_elem_of_singleton|].
        eapply frame_store_extends; [apply Hc2|done].
      * intros st' Hst. destruct (Hsnd2 _ Hst) as [Hin|(R & HR & Hfs)].
        -- apply elem_of_app in Hin as [?|Heq%list_elem_of_singleton]; [by left|].
           subst st'. right. exists Idx. split; [by left|].
           eapply frame_store_extends; [apply Hc2|done].
        -- right. exists R. split; [by right|done].
Qed.

Lemma PlaceStores_safepoint_spec F LL stores sp F' LL' stores' :
  PlaceStores_safepoint P S MinColorRoot Colors GCFrame (Ok (F, LL, stores)) sp
    = Ok (F', LL', stores') ->
  LL' = LiveSet_at S sp /\ same_cfg F F' /\ (forall st, st ∈ stores -> st ∈ stores') /\
  (forall R, BV.test (LiveSet_at S sp) R = true -> BV.test LL R = false ->
     slot_stored MinColorRoot Colors GCFrame F' stores' R) /\
  (forall st, st ∈ stores' -> st ∈ stores \/
     exists R, BV.test (LiveSet_at S sp) R = true /\
       frame_store F' GCFrame (to_unsigned (getColor Colors (Z.of_nat R) + MinColorRoot)) st).
Proof.
  unfold PlaceStores_safepoint. bind_ok.
  destruct (ReverseSafepointNumbering S !! Z.to_nat sp) as [pos|]; [|done].
  destruct (foldl _ _ _) as [[F1 sts1]| |] eqn:E; bind_ok; [|done..].
  intros [= <- <- <-]. apply store_loop_spec in E as (Hc & Hs & Hcov & Hsnd).
  split; [done|]. split; [done|]. split; [done|]. split.
  - intros R HR. apply Hcov. by apply BV_elem_of_bits.
  - intros st Hst. destruct (Hsnd _ Hst) as [?|(R & HR%BV_elem_of_bits & Hfs)]; [by left|].
    right. by exists R.
Qed.

Lemma safepoints_loop_spec (l : list Z) : forall F LL stores F' LL' stores',
  foldl (PlaceStores_safepoint P S MinColorRoot Colors GCFrame) (Ok (F, LL, stores)) l
    = Ok (F', LL', stores') ->
  same_cfg F F' /\ (forall st, st ∈ stores -> st ∈ stores') /\
  (forall (j : nat) sp R, l !! j = Some sp -> BV.test (LiveSet_at S sp) R = true ->
     BV.test (LastLive_at S LL l j) R = false -> slot_stored MinColorRoot Colors GCFrame F' stores' R) /\
  (forall st, st ∈ stores' -> st ∈ stores \/
     exists sp R, sp ∈ l /\ BV.test (LiveSet_at S sp) R = true /\
       frame_store F' GCFrame (to_unsigned (getColor Colors (Z.of_nat R) + MinColorRoot)) st).
Proof.
  induction l as [|sp0 l IH]; intros F LL stores F' LL' stores'.
  - simpl. intros [= <- <- <-]. split; [apply same_cfg_refl|]. split; [done|].
    split; [by intros [|?] ? ? ?|by left].
  - intros E. apply foldl_Res_cons in E as ([[F1 LL1] stores1] & E1 & E2); [|done..].
    destruct (IH _ _ _ _ _ _ E2) as (Hc2 & Hs2 & Hcov2 & Hsnd2). clear IH E2.
    apply PlaceStores_safepoint_spec in E1 as (-> & Hc1 & Hs1 & Hcov1 & Hsnd1).
    split; [by eapply same_cfg_trans|]. split; [by intros st ?; apply Hs2, Hs1|]. split.
    + intros [|j] sp R Hj HR Hf; simpl in Hj, Hf.
      * injection Hj as <-. eapply slot_stored_mono; [apply Hc2|apply Hs2|]. by apply Hcov1.
      * apply (Hcov2 j sp R Hj HR). destruct j as [|j]; simpl in *; done.
    + intros st Hst. destruct (Hsnd2 _ Hst) as [Hin|(sp & R & Hsp & HR & Hfs)].
      * destruct (Hsnd1 _ Hin) as [?|(R & HR & Hfs)]; [by left|].
        right. exists sp0, R. split; [by left|]. split; [done|].
        eapply frame_store_extends; [apply Hc2|done].
      * right. exists sp, R. split; [by right|done].
Qed.

Lemma blocks_loop_spec (bs : list (BasicBlock * list Value)) : forall F stores F' stores',
  foldl (fun r (b : BasicBlock * list Value) =>
           '(F, stores) ← r;
           let BBS := getBBS S b.1 in
           if negb (HasSafepoint BBS) then Ok (F, stores)
           else
             LiveIn ← AddInPredLiveOuts F S b.1;
             '(F, _, stores) ←
               foldl (PlaceStores_safepoint P S MinColorRoot Colors GCFrame)
                     (Ok (F, LiveIn, stores)) (rev (Safepoints BBS));
             Ok (F, stores))
        (Ok (F, stores)) bs = Ok (F', stores') ->
  same_cfg F F' /\ (forall st, st ∈ stores -> st ∈ stores') /\
  (forall b, b ∈ bs -> HasSafepoint (getBBS S b.1) = true ->
     exists Fa LiveIn, same_cfg F Fa /\ AddInPredLiveOuts Fa S b.1 = Ok LiveIn /\
       forall (j : nat) sp R, rev (Safepoints (getBBS S b.1)) !! j = Some sp ->
         BV.test (LiveSet_at S sp) R = true ->
         BV.test (LastLive_at S LiveIn (rev (Safepoints (getBBS S b.1))) j) R = false ->
         slot_stored MinColorRoot Colors GCFrame F' stores' R) /\
  (forall st, st ∈ stores' -> st ∈ stores \/
     exists b sp R, b ∈ bs /\ HasSafepoint (getBBS S b.1) = true /\
       sp ∈ Safepoints (getBBS S b.1) /\ BV.test (LiveSet_at S sp) R = true /\
       frame_store F' GCFrame (to_unsigned (getColor Colors (Z.of_nat R) + MinColorRoot)) st).
Proof.
  induction bs as [|b0 bs IH]; intros F stores F' stores'.
  - simpl. intros [= <- <-]. split; [apply same_cfg_refl|]. split; [done|].
    split; [by intros ? ?%elem_of_nil|by left].
  - intros E. apply foldl_Res_cons in E as ([F1 stores1] & E1 & E2); [|done..].
    destruct (IH _ _ _ _ E2) as (Hc2 & Hs2 & Hcov2 & Hsnd2). clear IH E2.
    revert E1. bind_ok. destruct (HasSafepoint (getBBS S b0.1)) eqn:Hsp; simpl.
    + destruct (AddInPredLiveOuts F S b0.1) as [LiveIn| |] eqn:EL; bind_ok; [|done..].
      destruct (foldl (PlaceStores_safepoint _ _ _ _ _) _ _) as [[[F2 LL2] sts2]| |] eqn:E3;
        bind_ok; [|done..].
      intros [= <- <-]. apply safepoints_loop_spec in E3 as (Hc1 & Hs1 & Hcov1 & Hsnd1).
      split; [by eapply same_cfg_trans|]. split; [by intros st ?; apply Hs2, Hs1|]. split.
      * intros b [->|Hb]%elem_of_cons Hb'.
        -- exists F, LiveIn. split; [apply same_cfg_refl|]. split; [done|].
           intros j sp R Hj HR Hf. eapply slot_stored_mono; [apply Hc2|apply Hs2|].
           by eapply Hcov1.
        -- destruct (Hcov2 b Hb Hb') as (Fa & LiveIn' & Hca & HLa & Hcova).
           exists Fa, LiveIn'. split; [by eapply same_cfg_trans|done].
      * intros st Hst. destruct (Hsnd2 _ Hst) as [Hin|(b & sp & R & Hb & ?)].
        -- destruct (Hsnd1 _ Hin) as [?|(sp & R & Hin' & HR & Hfs)]; [by left|].
           apply (proj1 (elem_of_rev sp _)) in Hin'. right. exists b0, sp, R. split; [by left|]. split; [done|]. split; [done|].
           split; [done|]. eapply frame_store_extends; [apply Hc2|done].
        -- right. exists b, sp, R. split; [by right|done].
    + intros [= <- <-]. split; [done|]. split; [done|]. split.
      * intros b [->|Hb]%elem_of_cons Hb'; [congruence|by apply Hcov2].
      * intros st Hst. destruct (Hsnd2 _ Hst) as [?|(b & sp & R & Hb & ?)]; [by left|].
        right. exists b, sp, R. split; [by right|done].
Qed.
End FrameStores.

Section SameCfgPredecessors.
Variables (F Fa : Function).
Hypothesis cfg : same_cfg F Fa.
Hypothesis below : insts_below F.

Lemma last_find_block (BB : BasicBlock) (l : list (BasicBlock * list Value)) : forall l',
  (fun b : BasicBlock * list Value => (b.1, last b.2)) <$> l' =
  (fun b : BasicBlock * list Value => (b.1, last b.2)) <$> l ->
  last (match list_find (fun b : BasicBlock * list Value => b.1 = BB) l' with
        | Some (_, b) => b.2 | None => [] end) =
  last (match list_find (fun b : BasicBlock * list Value => b.1 = BB) l with
        | Some (_, b) => b.2 | None => [] end).
Proof.
  induction l as [|[B i] l IH]; intros [|[B' i'] l']; simpl; try done.
  intros [= -> Hi Hl]. specialize (IH _ Hl).
  destruct (decide (B = BB)); simpl; [done|].
  destruct (list_find _ l') as [[? ?]|], (list_find _ l) as [[? ?]|]; simpl in *; done.
Qed.

Lemma same_cfg_last_insts BB : last (getInsts Fa BB) = last (getInsts F BB).
Proof. unfold getInsts. apply last_find_block, same_cfg_fmap, cfg. Qed.

Lemma last_insts_below BB (T : Value) :
  last (getInsts F BB) = Some T -> (T < next_value F)%nat.
Proof.
  unfold getInsts. destruct (list_find _ _) as [[k b]|] eqn:E; [|done].
  apply list_find_Some in E as (Hk & _). intros HT.
  assert (b ∈ blocks F) as Hb by (by eapply list_elem_of_lookup_2).
  unfold insts_below in below. rewrite Forall_forall in below.
  specialize (below _ Hb). rewrite Forall_forall in below. apply below.
  apply last_Some in HT as [l' ->]. apply elem_of_app. right. by left.
Qed.

Lemma same_cfg_successors BB : successors Fa BB = successors F BB.
Proof.
  unfold successors, getTerminator. rewrite same_cfg_last_insts.
  destruct (last (getInsts F BB)) as [T|] eqn:E; [|done].
  apply last_insts_below in E.
  rewrite (extends_getKind F Fa T (proj1 cfg) E).
  destruct (isTerminator (getKind F T)); [|done].
  by rewrite (extends_getKind F Fa T (proj1 cfg) E).
Qed.

Lemma same_cfg_getTerminator BB : getTerminator Fa BB = getTerminator F BB.
Proof.
  unfold getTerminator. rewrite same_cfg_last_insts.
  destruct (last (getInsts F BB)) as [T|] eqn:E; [|done].
  apply last_insts_below in E.
  by rewrite (extends_getKind F Fa T (proj1 cfg) E).
Qed.

Lemma same_cfg_returns BB : returns Fa BB = returns F BB.
Proof.
  unfold returns. rewrite same_cfg_getTerminator.
  destruct (getTerminator F BB) as [T|] eqn:E; [|done].
  assert (T < next_value F)%nat as HT.
  { unfold getTerminator in E. destruct (last (getInsts F BB)) as [T'|] eqn:E'; [|done].
    destruct (isTerminator _); [|done]. injection E as <-. by apply last_insts_below in E'. }
  by rewrite (extends_getKind F Fa T (proj1 cfg) HT).
Qed.

Lemma bind_fst {A B C} (g : A -> list C) (l : list (A * B)) :
  (b ← l; g b.1) = l.*1 ≫= g.
Proof. induction l as [|b l IH]; [done|]. csimpl. by rewrite IH. Qed.

Lemma same_cfg_blocks : (blocks Fa).*1 = (blocks F).*1.
Proof.
  pose proof (same_cfg_fmap F Fa cfg) as H. apply (f_equal (fmap fst)) in H.
  rewrite <- !list_fmap_compose in H. exact H.
Qed.

Lemma same_cfg_predecessors BB : predecessors Fa BB = predecessors F BB.
Proof.
  unfold predecessors.
  rewrite (bind_fst (fun B => filter (fun succ => succ = BB) (successors Fa B) ≫= fun _ => [B])).
  rewrite (bind_fst (fun B => filter (fun succ => succ = BB) (successors F B) ≫= fun _ => [B])).
  rewrite same_cfg_blocks. apply list_bind_ext; [|done].
  intros B. by rewrite same_cfg_successors.
Qed.

Lemma same_cfg_AddInPred_loop S fuel : forall a,
  AddInPred_loop fuel Fa S a = AddInPred_loop fuel F S a.
Proof.
  induction fuel as [|fuel IH]; intros [[[WL V] First] LiveIn]; simpl; [done|].
  destruct (last WL) as [BB|]; [|done]. by rewrite IH, same_cfg_predecessors.
Qed.

Lemma same_cfg_AddInPredLiveOuts S BB :
  AddInPredLiveOuts Fa S BB = AddInPredLiveOuts F S BB.
Proof.
  unfold AddInPredLiveOuts. rewrite same_cfg_AddInPred_loop.
  assert (length (blocks Fa) = length (blocks F)) as ->; [|done].
  rewrite <- (length_fmap fst (blocks Fa)), same_cfg_blocks. apply length_fmap.
Qed.
End SameCfgPredecessors.

(** X11.  Every store that PlaceGCFrameStores creates is a store through a
    GEP on the frame whose index is the constant Colors[R] + MinColorRoot,
    for an identifier R in the live set of a safepoint of a block of the
    function that has a safepoint. *)
Theorem frame_stores_go_to_root_slots (P : LateLowerGCFrame) (F : Function) (S : State)
    (MinColorRoot : Z) (Colors : list Z) (GCFrame : Value) (F' : Function)
    (stores : list Value) :
  PlaceGCFrameStores P F S MinColorRoot Colors GCFrame = Ok (F', stores) ->
  forall st, st ∈ stores ->
    exists (b : BasicBlock * list Value) sp (R : nat),
      b ∈ blocks F /\ HasSafepoint (getBBS S b.1) = true /\
      sp ∈ Safepoints (getBBS S b.1) /\ BV.test (LiveSet_at S sp) R = true /\
      frame_store F' GCFrame (to_unsigned (getColor Colors (Z.of_nat R) + MinColorRoot)) st.
Proof.
  unfold PlaceGCFrameStores. intros E st Hst.
  apply blocks_loop_spec in E as (_ & _ & _ & Hsnd).
  destruct (Hsnd _ Hst) as [[]%elem_of_nil|H]. exact H.
Qed.

Lemma frame_stores_go_to_root_slots_witness :
  PlaceGCFrameStores (Examples.pass_of Examples.two_roots) Examples.two_roots
    (MoreExamples.live_state Examples.two_roots) 2
    (MoreExamples.colors_of Examples.two_roots) 3%nat
    = Ok ((MoreExamples.stores_of Examples.two_roots).1,
          (MoreExamples.stores_of Examples.two_roots).2) /\
  forall st, st ∈ (MoreExamples.stores_of Examples.two_roots).2 ->
    exists (b : BasicBlock * list Value) sp (R : nat),
      b ∈ blocks Examples.two_roots /\
      HasSafepoint (getBBS (MoreExamples.live_state Examples.two_roots) b.1) = true /\
      sp ∈ Safepoints (getBBS (MoreExamples.live_state Examples.two_roots) b.1) /\
      BV.test (LiveSet_at (MoreExamples.live_state Examples.two_roots) sp) R = true /\
      frame_store (MoreExamples.stores_of Examples.two_roots).1 3%nat
        (to_unsigned (getColor (MoreExamples.colors_of Examples.two_roots) (Z.of_nat R) + 2))
        st.
Proof.
  assert (PlaceGCFrameStores (Examples.pass_of Examples.two_roots) Examples.two_roots
            (MoreExamples.live_state Examples.two_roots) 2
            (MoreExamples.colors_of Examples.two_roots) 3%nat
          = Ok ((MoreExamples.stores_of Examples.two_roots).1,
                (MoreExamples.stores_of Examples.two_roots).2)) as HP.
  { vm_compute. reflexivity. }
  split; [exact HP|].
  exact (frame_stores_go_to_root_slots _ _ _ _ _ _ _ _ HP).
Defined.

(** ** The unrooted sets *)

Section UnrootedSeeded.
Variable P : LateLowerGCFrame.

Lemma unrooted_seeded_getBBS cur S S' :
  MaxPtrNumber S <= MaxPtrNumber S' -> (forall X, getBBS S' X = getBBS S X) ->
  unrooted_seeded cur S -> unrooted_seeded cur S'.
Proof.
  intros HM HB [Ha Hu]. split.
  - intros BB. rewrite HB. apply Ha.
  - intros HM' BB Hne i. rewrite HB. apply Hu; [lia|done].
Qed.

Lemma unrooted_seeded_numbering cur S S' :
  numbering_only S S' -> MaxPtrNumber S <= MaxPtrNumber S' ->
  unrooted_seeded cur S -> unrooted_seeded cur S'.
Proof.
  intros (_ & _ & HB & _) HM. apply unrooted_seeded_getBBS; [done|].
  intros X. unfold getBBS. by rewrite HB.
Qed.

Lemma MaybeResize_unrooted B Idx :
  0 <= Idx < 2 ^ 32 - 1 ->
  length (DownExposedUnrooted B) = length (Defs B) ->
  length (DownExposedUnrooted (MaybeResize B Idx)) = length (Defs (MaybeResize B Idx)) /\
  UnrootedOut (MaybeResize B Idx) = UnrootedOut B /\
  forall i, BV.test (DownExposedUnrooted (MaybeResize B Idx)) i
            = BV.test (DownExposedUnrooted B) i.
Proof.
  intros HI Ha. unfold MaybeResize.
  destruct (Z.leb_spec (Z.of_nat (length (Defs B))) Idx) as [Hle|Hgt]; [|done]. simpl.
  split; [unfold BV.resize; by rewrite !length_resize|]. split; [done|].
  intros i. rewrite BV_test_resize. unfold to_unsigned. rewrite Z.mod_small by lia.
  case_decide; [done|]. rewrite BV_test_ge; [done|lia].
Qed.

Lemma setUse_unrooted B Uses Num :
  0 <= Num < 2 ^ 32 - 1 ->
  length (DownExposedUnrooted B) = length (Defs B) ->
  length (DownExposedUnrooted (setUse B Uses Num)) = length (Defs (setUse B Uses Num)) /\
  UnrootedOut (setUse B Uses Num) = UnrootedOut B /\
  forall i, BV.test (DownExposedUnrooted (setUse B Uses Num)) i
            = BV.test (DownExposedUnrooted B) i.
Proof.
  intros HN Ha. unfold setUse.
  assert (to_unsigned Num = Num) as -> by (unfold to_unsigned; rewrite Z.mod_small; lia).
  destruct (MaybeResize_unrooted B Num HN Ha) as (H1 & H2 & H3).
  destruct Uses; simpl; done.
Qed.

Lemma setUse_aligned B Uses Num :
  length (DownExposedUnrooted B) = length (Defs B) ->
  length (DownExposedUnrooted (setUse B Uses Num)) = length (Defs (setUse B Uses Num)).
Proof.
  intros Ha. unfold setUse, MaybeResize.
  destruct (_ <=? _); destruct Uses; simpl; unfold BV.resize; rewrite ?length_resize; done.
Qed.

Lemma NoteDef_others S BB Num sps S' :
  NoteDef S BB Num sps = Ok S' ->
  MaxPtrNumber S' = MaxPtrNumber S /\
  (forall X, X <> BB -> getBBS S' X = getBBS S X) /\
  (length (DownExposedUnrooted (getBBS S BB)) = length (Defs (getBBS S BB)) ->
   length (DownExposedUnrooted (getBBS S' BB)) = length (Defs (getBBS S' BB))).
Proof.
  unfold NoteDef.
  match goal with |- mbind _ ?m = _ -> _ => destruct m end; bind_ok; [|done..].
  match goal with |- match ?m with _ => _ end = _ -> _ => destruct m end; [|done..].
  intros [= <-]. split; [done|]. split.
  - intros X HX. change (getBBS (setLiveIfLiveOut ?s ?l) X) with (getBBS s X).
    rewrite getBBS_setBBS. by rewrite decide_False.
  - intros Ha. change (getBBS (setLiveIfLiveOut ?s ?l) BB) with (getBBS s BB).
    rewrite getBBS_setBBS, decide_True by done. simpl.
    unfold MaybeResize. destruct (_ <=? _); simpl; destruct (HasSafepoint _);
      rewrite ?BV_length_assign; unfold BV.resize; rewrite ?length_resize; done.
Qed.

Lemma LocalScan_unrooted_seeded fuel F F' S :
  LocalScan fuel P F = Ok (F', S) -> numbering_in_range S /\ unrooted_seeded None S.
Proof.
  apply (LocalScan_invariant_block P (fun cur => unrooted_seeded (Some cur))
           (unrooted_seeded None)).
  - intros cur fuel' F0 S0 V n F1 S1 HR HI H.
    destruct (Number_range _ _ _ _ _ _ _ _ H HR) as (_ & Hle & _).
    eapply unrooted_seeded_numbering; [|done..]. by eapply Number_only.
  - intros cur fuel' F0 S0 V Nums S1 HR HI H.
    destruct (NumberVector_range _ _ _ _ _ _ _ H HR) as (_ & Hle & _).
    eapply unrooted_seeded_numbering; [|done..]. by eapply NumberVector_only.
  - intros cur fuel' F0 S0 SI n F1 S1 HR HI H.
    destruct (LiftSelect_range _ _ _ _ _ _ _ _ H HR) as (_ & Hle & _).
    eapply unrooted_seeded_numbering; [|done..]. by eapply LiftSelect_only.
  - intros cur fuel' F0 S0 Phi n F1 S1 HR HI H.
    destruct (LiftPhi_range _ _ _ _ _ _ _ _ H HR) as (_ & Hle & _).
    eapply unrooted_seeded_numbering; [|done..]. by eapply LiftPhi_only.
  - (* begin *)
    intros S0 BB [Ha Hu].
    assert (forall X, getBBS (setBBS S0 BB (getBBS S0 BB)) X = getBBS S0 X) as HB.
    { intros X. rewrite getBBS_setBBS. case_decide; by subst. }
    split.
    + intros X. rewrite HB. apply Ha.
    + intros HM X _ i. rewrite HB. by apply Hu.
  - (* NoteDef *)
    intros S0 BB Num sps S1 [Ha Hu] HN H.
    destruct (NoteDef_others _ _ _ _ _ H) as (HM & HO & HA). split.
    + intros X. destruct (decide (X = BB)) as [->|HX]; [by apply HA|].
      rewrite HO by done. apply Ha.
    + rewrite HM. intros HM' X HX i. rewrite HO by congruence. by apply Hu.
  - (* refine *)
    intros cur S0 Num R. unfold refine. by case_match.
  - (* setUse *)
    intros cur S0 BB Uses Num [Ha Hu] HN. split.
    + intros X. rewrite getBBS_setBBS. case_decide; [|apply Ha]. subst X.
      apply setUse_aligned, Ha.
    + intros HM X HX i. rewrite getBBS_setBBS. simpl in HM.
      case_decide; [|by apply Hu]. subst X.
      destruct (setUse_unrooted (getBBS S0 BB) Uses Num ltac:(lia) (Ha BB)) as (_ & -> & ->).
      by apply Hu.
  - (* returns_twice *) done.
  - (* safepoint *)
    intros S0 BB CI [Ha Hu].
    set (S1 := setBBS _ _ _).
    assert (MaxPtrNumber S1 = MaxPtrNumber S0) as HM by done.
    assert (forall X, X <> BB -> getBBS S1 X = getBBS S0 X) as HO.
    { intros X HX. unfold S1. rewrite getBBS_setBBS, decide_False by done.
      unfold NoteSafepoint. cbv zeta. simpl.
      change (getBBS (setSafepointData ?s _ _ _ _ _) X) with (getBBS s X).
      rewrite getBBS_setBBS. by rewrite decide_False. }
    assert (length (DownExposedUnrooted (getBBS S1 BB)) = length (Defs (getBBS S1 BB))) as HA.
    { unfold S1. rewrite getBBS_setBBS, decide_True by done. simpl.
      unfold NoteSafepoint. cbv zeta. simpl.
      change (getBBS (setSafepointData ?s _ _ _ _ _) BB) with (getBBS s BB).
      rewrite getBBS_setBBS, decide_True by done. simpl. apply Ha. }
    clearbody S1. split.
    + intros X. destruct (decide (X = BB)) as [->|HX]; [done|]. rewrite HO by done. apply Ha.
    + rewrite HM. intros HM' X HX i. rewrite HO by congruence. by apply Hu.
  - (* alloca *) done.
  - (* the seed at the end of the block *)
    intros S0 BB [Ha Hu]. split.
    + intros X. rewrite getBBS_setBBS. case_decide; [subst; simpl|]; apply Ha.
    + intros HM X _ i. rewrite getBBS_setBBS. case_decide as HX; [by subst|].
      apply Hu; [done|congruence].
  - (* the empty state *)
    split; [done|]. by intros _ BB _ i.
Qed.
End UnrootedSeeded.

Section UnrootedDataflow.
Variables (W : nat) (F : Function).
Hypothesis W_small : Z.of_nat W < 2 ^ 32.
Variable S0 : State.

Lemma unrooted_out_eq_setBBS S BB B' :
  unrooted_out_eq S0 S ->
  HasSafepoint B' = HasSafepoint (getBBS S BB) ->
  (forall i, BV.test (UnrootedOut B') i =
             BV.test (UnrootedOut (getBBS S0 BB)) i ||
             (negb (HasSafepoint (getBBS S0 BB)) && BV.test (UnrootedIn B') i)) ->
  unrooted_out_eq S0 (setBBS S BB B').
Proof.
  intros HU Hsp Hout X. rewrite getBBS_setBBS. case_decide as HX; [subst X|apply HU].
  destruct (HU BB) as [H1 _]. split; [congruence|done].
Qed.

Lemma update_LiveOut_unrooted S BB S' c :
  unrooted_out_eq S0 S -> update_LiveOut F S BB = (S', c) -> unrooted_out_eq S0 S'.
Proof.
  intros HU. unfold update_LiveOut. destruct (negb _); intros [= <- <-]; [|done].
  destruct (HU BB) as [H1 H2]. apply unrooted_out_eq_setBBS; [done|..];
    unfold MaybeResize; destruct (_ <=? _); simpl; done.
Qed.

Lemma update_LiveIn_unrooted S BB S' c :
  unrooted_out_eq S0 S -> update_LiveIn S BB = (S', c) -> unrooted_out_eq S0 S'.
Proof.
  intros HU. unfold update_LiveIn. destruct (negb _); intros [= <- <-]; [|done].
  destruct (HU BB) as [H1 H2]. by apply unrooted_out_eq_setBBS.
Qed.

Lemma update_Unrooted_unrooted S BB S' c :
  dataflow_inv W F S ->
  unrooted_out_eq S0 S -> update_Unrooted F S BB = (S', c) -> unrooted_out_eq S0 S'.
Proof.
  intros (_ & _ & He) HU. unfold update_Unrooted.
  destruct (negb _); intros [= <- <-]; [|done].
  destruct (HU BB) as [H1 H2]. destruct (He BB) as (_ & _ & _ & Hsub).
  apply unrooted_out_eq_setBBS; [done|..]; simpl.
  - destruct (HasSafepoint (getBBS S BB)) eqn:Hsp; simpl; exact Hsp.
  - intros i. rewrite <- H1. destruct (HasSafepoint (getBBS S BB)) eqn:Hsp; simpl.
    + rewrite H2, <- H1. simpl. done.
    + rewrite BV_test_or, H2, <- H1. simpl.
      destruct (BV.test (UnrootedOut (getBBS S0 BB)) i); simpl; [done|].
      destruct (BV.test (UnrootedIn (getBBS S BB)) i) eqn:Hin; simpl; [|done].
      symmetry. by apply Hsub.
Qed.

Lemma dataflow_block_unrooted S c BB S' c' :
  dataflow_inv W F S -> unrooted_out_eq S0 S ->
  dataflow_block F (S, c) BB = (S', c') -> unrooted_out_eq S0 S'.
Proof.
  intros Hinv HU. unfold dataflow_block. simpl.
  destruct (update_LiveOut F S BB) as [S1 c1] eqn:E1.
  destruct (update_LiveIn S1 BB) as [S2 c2] eqn:E2.
  destruct (update_Unrooted F S2 BB) as [S3 c3] eqn:E3.
  intros [= <- <-].
  destruct (update_LiveOut_spec W F W_small _ _ _ _ Hinv E1) as (I1 & _).
  destruct (update_LiveIn_spec W F _ _ _ _ I1 E2) as (I2 & _).
  apply (update_Unrooted_unrooted _ _ _ _ I2) in E3; [done|].
  apply (update_LiveIn_unrooted _ _ _ _) in E2; [done|].
  by apply (update_LiveOut_unrooted _ _ _ _) in E1.
Qed.

Lemma dataflow_fold_unrooted l : forall S c S' c',
  dataflow_inv W F S -> unrooted_out_eq S0 S ->
  foldl (dataflow_block F) (S, c) l = (S', c') -> unrooted_out_eq S0 S'.
Proof.
  induction l as [|BB l IH]; intros S c S' c' Hinv HU; simpl; [by intros [= <- <-]|].
  destruct (dataflow_block F (S, c) BB) as [S1 c1] eqn:E1. intros Hf.
  destruct (dataflow_block_spec W F W_small _ _ _ _ _ Hinv E1) as (I1 & _).
  apply (IH _ _ _ _ I1) in Hf; [done|].
  exact (dataflow_block_unrooted _ _ _ _ _ Hinv HU E1).
Qed.

Lemma dataflow_loop_unrooted fuel : forall S S',
  dataflow_inv W F S -> unrooted_out_eq S0 S ->
  dataflow_loop fuel F S = Ok S' -> unrooted_out_eq S0 S'.
Proof.
  induction fuel as [|fuel IH]; intros S S' Hinv HU; simpl; [done|].
  destruct (dataflow_pass F S) as [S1 c] eqn:E.
  destruct (dataflow_pass_spec W F W_small _ _ _ Hinv E) as (I1 & _).
  assert (unrooted_out_eq S0 S1) as HU1
    by exact (dataflow_fold_unrooted _ _ _ _ _ Hinv HU E).
  destruct c; [by apply IH|by intros [= <-]].
Qed.
End UnrootedDataflow.

(** X13.  The equations of the unrooted sets.  When the loop of
    ComputeLiveness, run on what LocalScan leaves, has converged, UnrootedOut
    of every block is the DownExposedUnrooted that LocalScan left for it
    together with, if the block has no safepoint, its UnrootedIn; and
    UnrootedIn of every block that the reverse post-order traversal visits
    is the union of UnrootedOut over its predecessors.  The identifiers are
    taken to fit an int. *)
Theorem unrooted_equations_at_fixpoint (sf df : nat) (P : LateLowerGCFrame)
    (F F' : Function) (S S' : State) :
  LocalScan sf P F = Ok (F', S) -> MaxPtrNumber S < 2 ^ 31 ->
  dataflow_loop df F' S = Ok S' ->
  (forall B i,
     BV.test (UnrootedOut (getBBS S' B)) i =
       BV.test (DownExposedUnrooted (getBBS S B)) i ||
       (negb (HasSafepoint (getBBS S B)) && BV.test (UnrootedIn (getBBS S' B)) i)) /\
  (forall B, HasSafepoint (getBBS S' B) = HasSafepoint (getBBS S B)) /\
  (forall B, B ∈ ReversePostOrderTraversal F' -> forall i,
     BV.test (UnrootedIn (getBBS S' B)) i = true <->
     exists Pred, Pred ∈ predecessors F' B /\
       BV.test (UnrootedOut (getBBS S' Pred)) i = true).
Proof.
  intros HL HM Hloop.
  destruct (LocalScan_unrooted_seeded P sf F F' S HL) as [_ [_ Hseed]].
  destruct (LocalScan_seeded P sf F F' S HL) as [Hge Hs].
  set (W := Z.to_nat (MaxPtrNumber S + 1)).
  destruct (Hs W) as [Hsd Hb]; [unfold W; lia|].
  assert (Z.of_nat W < 2 ^ 32) as HW by (unfold W; lia).
  pose proof (seeded_inv W F' S Hsd Hb) as Hinv.
  assert (unrooted_out_eq S S) as HU0.
  { intros B. split; [done|]. intros i. destruct (Hsd B) as (_ & _ & -> & _).
    rewrite BV_test_empty. by destruct (BV.test _ _), (negb _). }
  pose proof (dataflow_loop_unrooted W F' HW S df S S' Hinv HU0 Hloop) as HU.
  destruct (dataflow_loop_Ok W F' HW df S S' Hinv Hloop) as (_ & _ & _ & Hfix).
  split; [|split].
  - intros B i. destruct (HU B) as [_ ->]. by rewrite Hseed by (lia || done).
  - intros B. by destruct (HU B).
  - intros B HB i. destruct (Hfix B HB) as (_ & _ & H3).
    rewrite BV_eqb_true in H3. rewrite <- H3. apply NewUnrootedIn_test.
Qed.

Lemma unrooted_equations_at_fixpoint_witness :
  LocalScan 100 (Examples.pass_of Examples.live_across) Examples.live_across
    = Ok (Examples.live_across, Examples.scanned_state Examples.live_across) /\
  MaxPtrNumber (Examples.scanned_state Examples.live_across) < 2 ^ 31 /\
  dataflow_loop 100 Examples.live_across (Examples.scanned_state Examples.live_across)
    = Ok (Examples.analysed_state Examples.live_across) /\
  forall B, HasSafepoint (getBBS (Examples.analysed_state Examples.live_across) B)
            = HasSafepoint (getBBS (Examples.scanned_state Examples.live_across) B).
Proof.
  assert (LocalScan 100 (Examples.pass_of Examples.live_across) Examples.live_across
          = Ok (Examples.live_across, Examples.scanned_state Examples.live_across)) as HL.
  { vm_compute. reflexivity. }
  assert (MaxPtrNumber (Examples.scanned_state Examples.live_across) < 2 ^ 31) as HM.
  { vm_compute. reflexivity. }
  assert (dataflow_loop 100 Examples.live_across (Examples.scanned_state Examples.live_across)
          = Ok (Examples.analysed_state Examples.live_across)) as Hl.
  { vm_compute. reflexivity. }
  split; [exact HL|]. split; [exact HM|]. split; [exact Hl|].
  exact (proj1 (proj2 (unrooted_equations_at_fixpoint 100 100 _ _ _ _ _ HL HM Hl))).
Defined.

(** ** The scratch frame of CleanupIR *)

Section ScratchFrame.
Variable P : LateLowerGCFrame.
Variables (T : Ty) (Fr : Value).

Lemma alloca_extends F F' : extends F F' -> is_alloca_of T F Fr -> is_alloca_of T F' Fr.
Proof.
  intros [Hn He] [Hlt (c & ty & Hv)]. split; [lia|]. exists c, ty. by rewrite He.
Qed.

Lemma alloca_replaceAllUsesWith F old new :
  is_alloca_of T F Fr -> is_alloca_of T (replaceAllUsesWith F old new) Fr.
Proof.
  intros [Hlt (c & ty & Hv)]. split; [done|].
  exists (subst_value old new c), ty. by rewrite replaceAllUsesWith_lookup, Hv.
Qed.

Lemma alloca_eraseFromParent F (I : Value) :
  I <> Fr -> is_alloca_of T F Fr -> is_alloca_of T (eraseFromParent F I) Fr.
Proof.
  intros Hne [Hlt (c & ty & Hv)]. split; [done|]. exists c, ty. simpl.
  by rewrite lookup_delete_ne.
Qed.

Lemma extends_StoreFrameArgs T' Frame CI (args : list Value) : forall F z,
  extends F (foldl (fun (a : Function * Z) arg =>
          let '(F, slot) := a in
          let '(F, c) := addValue F (ConstantInt slot) (T_int32 P) in
          let '(F, gep) := createBefore F CI (GetElementPtrInst Frame [c]) (PointerTy T' 0) in
          let '(F, _) := createBefore F CI (StoreInst arg gep) VoidTy in
          (F, slot + 1))
       (F, z) args).1.
Proof.
  induction args as [|a args IH]; intros F z; [apply extends_refl|].
  cbn [foldl].
  pose proof (extends_addValue F (ConstantInt z) (T_int32 P)) as H1.
  destruct (addValue F (ConstantInt z) (T_int32 P)) as [F1 c].
  pose proof (extends_createBefore F1 CI (GetElementPtrInst Frame [c]) (PointerTy T' 0)) as H2.
  destruct (createBefore F1 CI (GetElementPtrInst Frame [c]) (PointerTy T' 0)) as [F2 gep].
  pose proof (extends_createBefore F2 CI (StoreInst a gep) VoidTy) as H3.
  destruct (createBefore F2 CI (StoreInst a gep) VoidTy) as [F3 st].
  cbn [fst] in *. eapply extends_trans; [|apply IH]. eauto using extends_trans.
Qed.

Lemma alloca_LowerJLCall F Frame CI callee args CC rt F' NewCall n :
  LowerJLCall P F Frame CI callee args CC rt = Ok (F', NewCall, n) ->
  is_alloca_of T F Fr -> is_alloca_of T F' Fr.
Proof.
  unfold LowerJLCall. destruct (T_prjlvalue P) as [T'|]; [|done].
  destruct Frame as [Frame|]; [|done]. cbv zeta.
  set (nf := to_size_t _).
  set (F1 := StoreFrameArgs P T' Frame CI F _).
  assert (extends F F1) as H1 by apply extends_StoreFrameArgs.
  clearbody F1.
  assert (exists F2 argv, extends F1 F2 /\
            (if nf =? 0 then addValue F1 ConstantPointerNull (PointerTy T' 0)
             else (F1, Frame)) = (F2, argv)) as (F2 & argv & H2 & ->).
  { destruct (nf =? 0).
    - eexists _, _. split; [|reflexivity]. apply extends_addValue.
    - eexists _, _. split; [|reflexivity]. apply extends_refl. }
  pose proof (extends_addValue F2 (ConstantInt (to_unsigned nf)) (T_int32 P)) as H3.
  destruct (addValue F2 _ _) as [F3 argc].
  match goal with |- context [Builder_CreateBitCast F3 ?a ?b ?c] =>
    pose proof (extends_Builder_CreateBitCast F3 a b c) as H4;
    destruct (Builder_CreateBitCast F3 a b c) as [F4 newFptr] end.
  match goal with |- context [createBefore F4 ?a ?b ?c] =>
    pose proof (extends_createBefore F4 a b c) as H5;
    destruct (createBefore F4 a b c) as [F5 NewCall5] end.
  cbn [fst snd] in *. intros [= <- _ _] HK.
  apply alloca_replaceAllUsesWith. eapply alloca_extends; [|exact HK].
  eauto 10 using extends_trans.
Qed.

Lemma alloca_LowerAllocObj F CI args F' :
  LowerAllocObj P F CI args = Ok F' -> is_alloca_of T F Fr -> is_alloca_of T F' Fr.
Proof.
  unfold LowerAllocObj. destruct (assert _ _); bind_ok; [|done..].
  destruct args as [|ptls [|szv [|tag [|? ?]]]]; try done.
  destruct (T_prjlvalue P) as [T'|]; [|done].
  destruct (T_pjlvalue_der P) as [Tder|]; [|done].
  destruct (T_ppjlvalue_der P) as [Tpder|]; [|done].
  destruct (getKind F szv); try done.
  destruct (jl_gc_classify_pools P _) as [offset osize].
  match goal with |- match ?m with _ => _ end = _ -> _ =>
    assert (forall F1 newI, m = Ok (F1, newI) -> extends F F1) as HE;
      [|destruct m as [[F1 newI]| |]; [specialize (HE _ _ eq_refl)|done..]] end.
  { intros F1 newI. destruct (_ <? _).
    - destruct (big_alloc_func P); [|done].
      match goal with |- context [addValue F ?k ?t] =>
        pose proof (extends_addValue F k t) as H1; destruct (addValue F k t) as [Fa c] end.
      match goal with |- Ok (createBefore ?a ?b ?c ?d) = _ -> _ =>
        pose proof (extends_createBefore a b c d) as H2;
        destruct (createBefore a b c d) as [Fb x] end.
      cbn [fst] in *. intros [= <- _]. eauto using extends_trans.
    - destruct (pool_alloc_func P); [|done].
      match goal with |- context [addValue F ?k ?t] =>
        pose proof (extends_addValue F k t) as H1; destruct (addValue F k t) as [Fa c] end.
      match goal with |- context [addValue Fa ?k ?t] =>
        pose proof (extends_addValue Fa k t) as H1'; destruct (addValue Fa k t) as [Fa' c'] end.
      match goal with |- Ok (createBefore ?a ?b ?c ?d) = _ -> _ =>
        pose proof (extends_createBefore a b c d) as H2;
        destruct (createBefore a b c d) as [Fb x] end.
      cbn [fst] in *. intros [= <- _]. eauto using extends_trans. }
  match goal with |- context [createBefore F1 ?a ?b ?c] =>
    pose proof (extends_createBefore F1 a b c) as H2;
    destruct (createBefore F1 a b c) as [F2 derived] end.
  match goal with |- context [Builder_CreateBitCast F2 ?a ?b ?c] =>
    pose proof (extends_Builder_CreateBitCast F2 a b c) as H3;
    destruct (Builder_CreateBitCast F2 a b c) as [F3 cast] end.
  match goal with |- context [addValue F3 ?k ?t] =>
    pose proof (extends_addValue F3 k t) as H4; destruct (addValue F3 k t) as [F4 m1] end.
  match goal with |- context [createBefore F4 ?a ?b ?c] =>
    pose proof (extends_createBefore F4 a b c) as H5;
    destruct (createBefore F4 a b c) as [F5 tagaddr] end.
  match goal with |- context [createBefore F5 ?a ?b ?c] =>
    pose proof (extends_createBefore F5 a b c) as H6;
    destruct (createBefore F5 a b c) as [F6 st] end.
  cbn [fst snd] in *. intros [= <-] HK.
  apply alloca_replaceAllUsesWith. eapply alloca_extends; [|exact HK].
  eauto 10 using extends_trans.
Qed.

Lemma alloca_CleanupInst Frame F info Inst F' info' :
  CleanupInst P Frame (Ok (F, info)) Inst = Ok (F', info') ->
  is_alloca_of T F Fr -> is_alloca_of T F' Fr.
Proof.
  unfold CleanupInst. bind_ok. intros H HK.
  destruct (decide (Inst = Fr)) as [->|HI].
  { revert H. destruct HK as [Hlt (c & ty & Hv)].
    assert (getKind F Fr = AllocaInst T c) as -> by (unfold getKind; by rewrite Hv).
    intros [= <- _]. split; [done|]. by exists c, ty. }
  revert H.
  destruct (getKind F Inst) as [| | | | | | |callee args bundles CC rt| | | | | | | | | | | | | |];
    try (by intros [= <- _]).
  destruct (bool_decide (gc_flush_func P = Some callee)); bind_ok.
  { intros [= <- _]. by apply alloca_eraseFromParent. }
  destruct (bool_decide (pointer_from_objref_func P = Some callee)); bind_ok.
  { match goal with |- context [createBefore F ?a ?b ?c] =>
      pose proof (extends_createBefore F a b c) as H1;
      destruct (createBefore F a b c) as [F1 ptr] end.
    cbn [fst] in H1. bind_ok. intros [= <- _]. apply alloca_eraseFromParent; [done|].
    apply alloca_replaceAllUsesWith. by eapply alloca_extends. }
  destruct (bool_decide (alloc_obj_func P = Some callee)); bind_ok.
  { destruct (LowerAllocObj _ _ _ _) as [F1| |] eqn:E; bind_ok; [|done..].
    intros [= <- _]. apply alloca_eraseFromParent; [done|]. by eapply alloca_LowerAllocObj. }
  destruct (CallingConv_eqb CC JLCALL_CC || CallingConv_eqb CC JLCALL_F_CC); bind_ok.
  { destruct (LowerJLCall _ _ _ _ _ _ _ _) as [[[F1 NewCall] n]| |] eqn:EL; bind_ok; [|done..].
    intros [= <- _]. apply alloca_eraseFromParent; [done|]. by eapply alloca_LowerJLCall. }
  destruct (length args =? _)%nat; bind_ok; [by intros [= <- _]|].
  match goal with |- context [createBefore F ?a ?b ?c] =>
    pose proof (extends_createBefore F a b c) as H1;
    destruct (createBefore F a b c) as [F1 NewCall] end.
  cbn [fst] in H1. bind_ok. intros [= <- _]. apply alloca_eraseFromParent; [done|].
  apply alloca_replaceAllUsesWith. by eapply alloca_extends.
Qed.

Lemma alloca_CleanupLoop Frame bs : forall F info F' info',
  foldl (CleanupBlock P Frame) (Ok (F, info)) bs = Ok (F', info') ->
  is_alloca_of T F Fr -> is_alloca_of T F' Fr.
Proof.
  intros F info F' info' H HK.
  apply (foldl_Res_invariant (fun a : Function * CleanupInfo => is_alloca_of T a.1 Fr)
           (CleanupBlock P Frame) bs) with (a := (F, info)) (a' := (F', info')); try done.
  intros [F1 i1] b [F2 i2] H1 H2. unfold CleanupBlock in H2. simpl in H1, H2.
  apply (foldl_Res_invariant (fun a : Function * CleanupInfo => is_alloca_of T a.1 Fr)
           (CleanupInst P Frame) (getInsts F1 b.1)) with (a := (F1, i1)) (a' := (F2, i2));
    try done.
  intros [Fa ia] Inst [Fb ib] Ha Hb. cbn [fst snd] in *.
  exact (alloca_CleanupInst _ _ _ _ _ _ Hb Ha).
Qed.
End ScratchFrame.

Section NoFrame.
Variable P : LateLowerGCFrame.

Lemma CleanupInst_no_frame F info Inst F' info' :
  CleanupInst P None (Ok (F, info)) Inst = Ok (F', info') ->
  maxframeargs info' = maxframeargs info.
Proof.
  unfold CleanupInst. bind_ok.
  destruct (getKind F Inst) as [| | | | | | |callee args bundles CC rt| | | | | | | | | | | | | |];
    try (by intros [= _ <-]).
  destruct (bool_decide (gc_flush_func P = Some callee)); bind_ok; [by intros [= _ <-]|].
  destruct (bool_decide (pointer_from_objref_func P = Some callee)); bind_ok.
  { destruct (createBefore _ _ _ _). bind_ok. by intros [= _ <-]. }
  destruct (bool_decide (alloc_obj_func P = Some callee)); bind_ok.
  { destruct (LowerAllocObj _ _ _ _); bind_ok; [|done..]. by intros [= _ <-]. }
  destruct (CallingConv_eqb CC JLCALL_CC || CallingConv_eqb CC JLCALL_F_CC); bind_ok.
  { unfold LowerJLCall. by destruct (T_prjlvalue P). }
  destruct (length args =? _)%nat; bind_ok; [by intros [= _ <-]|].
  destruct (createBefore _ _ _ _). bind_ok. by intros [= _ <-].
Qed.

Lemma CleanupLoop_no_frame bs F F' info' :
  foldl (CleanupBlock P None) (Ok (F, mkCleanupInfo false 0 [])) bs = Ok (F', info') ->
  maxframeargs info' = 0.
Proof.
  intros H.
  apply (foldl_Res_invariant (fun a : Function * CleanupInfo => maxframeargs a.2 = 0)
           (CleanupBlock P None) bs) with (a := (F, mkCleanupInfo false 0 []))
           (a' := (F', info')); try done.
  intros [F1 i1] b [F2 i2] H1 H2. unfold CleanupBlock in H2. simpl in H1, H2.
  apply (foldl_Res_invariant (fun a : Function * CleanupInfo => maxframeargs a.2 = 0)
           (CleanupInst P None) (getInsts F1 b.1)) with (a := (F1, i1)) (a' := (F2, i2));
    try done.
  intros [Fa ia] Inst [Fb ib] Ha Hb. simpl in *.
  apply CleanupInst_no_frame in Hb. congruence.
Qed.
End NoFrame.

(** X14.  CleanupIR sizes the scratch frame for the largest jlcall:
    maxframeargs is at least the number of frame arguments of every jlcall
    lowered; the scratch alloca is kept exactly when maxframeargs is not
    zero, and then it still is an alloca of T_prjlvalue in the function
    returned, whose count operand is the constant maxframeargs. *)
Theorem scratch_frame_sized (P : LateLowerGCFrame) (F F' : Function) (info : CleanupInfo)
    (fr : option Value) :
  CleanupIR P F = Ok (F', info, fr) ->
  (forall e, e ∈ jlcalls info -> 0 <= e.2 <= maxframeargs info) /\
  (fr = None <-> maxframeargs info = 0) /\
  (forall Fr, fr = Some Fr ->
     exists T c, T_prjlvalue P = Some T /\
       getKind F' Fr = AllocaInst T c /\
       getKind F' c = ConstantInt (to_unsigned (maxframeargs info))).
Proof.
  unfold CleanupIR.
  destruct (T_prjlvalue P) as [T|].
  - set (FF := match head (getInsts F (getEntryBlock F)) with Some _ => _ | None => _ end).
    assert (exists F0 Fr, FF = (F0, Some Fr) /\ is_alloca_of T F0 Fr) as (F0 & Fr & -> & HK).
    { unfold FF. destruct (head (getInsts F (getEntryBlock F))) as [StartOff|].
      - destruct (addValue F (ConstantInt 0) (T_int32 P)) as [Fa c].
        destruct (createBefore_lookup Fa StartOff (AllocaInst T c) (PointerTy T 0))
          as (H1 & H2 & H3).
        destruct (createBefore Fa StartOff _ _) as [Fb Frame]. cbn [fst snd] in *. subst Frame.
        exists Fb, (next_value Fa). split; [done|]. split; [lia|]. by eexists _, _.
      - destruct (addValue F (ConstantInt 0) (T_int32 P)) as [Fa c].
        exists (addValue Fa (AllocaInst T c) (PointerTy T 0)).1, (next_value Fa).
        split; [done|]. split; [simpl; lia|].
        eexists _, _. simpl. by rewrite lookup_insert_eq. }
    destruct (foldl _ _ _) as [[F1 info1]| |] eqn:E; bind_ok; [|done..].
    pose proof (CleanupLoop_maxframeargs P _ _ _ _ _ E) as (H0 & H1 & _).
    apply (alloca_CleanupLoop P T Fr) in E; [|done].
    destruct (Z.eqb_spec (maxframeargs info1) 0) as [Hz|Hnz].
    + intros [= <- <- <-]. split; [done|]. split; [done|]. by intros Fr' [=].
    + destruct E as [Hlt (c0 & ty & Hv)].
      intros [= <- <- <-]. split; [done|]. split; [split; [done|lia]|].
      intros Fr' [= <-]. exists T, (next_value F1). split; [done|].
      unfold setOperand0, addValue. cbn [fst snd values].
      rewrite lookup_insert_ne by lia. rewrite Hv. unfold getKind. simpl.
      rewrite lookup_insert_eq. simpl. split; [done|].
      rewrite lookup_insert_ne by lia. by rewrite lookup_insert_eq.
  - destruct (foldl _ _ _) as [[F1 info1]| |] eqn:E; bind_ok; [|done..].
    pose proof (CleanupLoop_maxframeargs P _ _ _ _ _ E) as (H0 & H1 & _).
    apply CleanupLoop_no_frame in E.
    intros [= <- <- <-]. split; [done|]. split; [done|]. by intros Fr [=].
Qed.

Lemma scratch_frame_sized_witness :
  CleanupIR (Examples.pass_of MoreExamples.two_jlcalls) MoreExamples.two_jlcalls
    = Ok ((MoreExamples.cleanup_of MoreExamples.two_jlcalls).1.1,
          (MoreExamples.cleanup_of MoreExamples.two_jlcalls).1.2,
          (MoreExamples.cleanup_of MoreExamples.two_jlcalls).2) /\
  maxframeargs (MoreExamples.cleanup_of MoreExamples.two_jlcalls).1.2 = 2 /\
  forall Fr, (MoreExamples.cleanup_of MoreExamples.two_jlcalls).2 = Some Fr ->
    exists T c, T_prjlvalue (Examples.pass_of MoreExamples.two_jlcalls) = Some T /\
      getKind (MoreExamples.cleanup_of MoreExamples.two_jlcalls).1.1 Fr = AllocaInst T c /\
      getKind (MoreExamples.cleanup_of MoreExamples.two_jlcalls).1.1 c
        = ConstantInt (to_unsigned
            (maxframeargs (MoreExamples.cleanup_of MoreExamples.two_jlcalls).1.2)).
Proof.
  assert (CleanupIR (Examples.pass_of MoreExamples.two_jlcalls) MoreExamples.two_jlcalls
          = Ok ((MoreExamples.cleanup_of MoreExamples.two_jlcalls).1.1,
                (MoreExamples.cleanup_of MoreExamples.two_jlcalls).1.2,
                (MoreExamples.cleanup_of MoreExamples.two_jlcalls).2)) as HC.
  { vm_compute. reflexivity. }
  split; [exact HC|]. split; [vm_compute; reflexivity|].
  exact (proj2 (proj2 (scratch_frame_sized _ _ _ _ _ HC))).
Defined.

(** ** The pops of the frame *)

Section InstsBelow.
Implicit Types F : Function.

Lemma insts_below_blocks F F' :
  (next_value F <= next_value F')%nat ->
  (forall b', b' ∈ blocks F' -> forall v, v ∈ b'.2 ->
     (exists b, b ∈ blocks F /\ v ∈ b.2) \/ (v < next_value F')%nat) ->
  insts_below F -> insts_below F'.
Proof.
  intros Hn Hb HB. unfold insts_below in *. rewrite Forall_forall in HB.
  apply Forall_forall. intros b' Hb'. apply Forall_forall. intros v Hv.
  destruct (Hb b' Hb' v Hv) as [(b & Hin & Hvb)|?]; [|done].
  specialize (HB b Hin). rewrite Forall_forall in HB. specialize (HB v Hvb). lia.
Qed.

Lemma insts_below_addValue F k t : insts_below F -> insts_below (addValue F k t).1.
Proof.
  apply insts_below_blocks; [simpl; lia|]. simpl. intros b' Hb' v Hv. left. by exists b'.
Qed.

Lemma elem_of_insert_after_inv (pos I x : Value) l :
  x ∈ insert_after pos I l -> x ∈ l \/ x = I.
Proof.
  induction l as [|y l IH]; simpl; [by left|]. case_decide.
  - intros [->|Hx]%elem_of_cons; [left; by left|].
    apply elem_of_cons in Hx as [->|Hx]; [by right|left; by right].
  - intros [->|Hx]%elem_of_cons; [left; by left|].
    destruct (IH Hx) as [?|?]; [left; by right|by right].
Qed.

Lemma insts_below_insertBefore F pos I :
  (I < next_value F)%nat -> insts_below F -> insts_below (insertBefore F pos I).
Proof.
  intros HI. apply insts_below_blocks; [done|]. simpl.
  intros b' (b & -> & Hb)%list_elem_of_fmap v Hv. simpl in Hv.
  apply elem_of_insert_before_inv in Hv as [?| ->]; [left; by exists b|by right].
Qed.

Lemma insts_below_insertAfter F pos I :
  (I < next_value F)%nat -> insts_below F -> insts_below (insertAfter F pos I).
Proof.
  intros HI. apply insts_below_blocks; [done|]. simpl.
  intros b' (b & -> & Hb)%list_elem_of_fmap v Hv. simpl in Hv.
  apply elem_of_insert_after_inv in Hv as [?| ->]; [left; by exists b|by right].
Qed.

Lemma insts_below_eraseFromParent F I : insts_below F -> insts_below (eraseFromParent F I).
Proof.
  apply insts_below_blocks; [done|]. simpl.
  intros b' (b & -> & Hb)%list_elem_of_fmap v Hv. simpl in Hv.
  apply list_elem_of_filter in Hv as [_ Hv]. left. by exists b.
Qed.

Lemma insts_below_erase_all (l : list Value) : forall F,
  insts_below F -> insts_below (foldl eraseFromParent F l).
Proof.
  induction l as [|I l IH]; intros F HB; simpl; [done|].
  by apply IH, insts_below_eraseFromParent.
Qed.

Lemma insts_below_replaceAllUsesWith F old new :
  insts_below F -> insts_below (replaceAllUsesWith F old new).
Proof.
  apply insts_below_blocks; [done|]. simpl. intros b' Hb' v Hv. left. by exists b'.
Qed.

Lemma insts_below_ReplaceAlloca P gcframe F slot AI F' slot' :
  ReplaceAlloca P gcframe (Ok (F, slot)) AI = Ok (F', slot') ->
  insts_below F -> insts_below F'.
Proof.
  unfold ReplaceAlloca. bind_ok. destruct (T_prjlvalue P) as [T|]; [|done].
  intros H HB.
  apply (insts_below_addValue F (ConstantInt slot) (T_int32 P)) in HB.
  destruct (addValue F (ConstantInt slot) (T_int32 P)) as [F1 c]. cbn [fst] in HB.
  cbv beta iota zeta in H.
  apply (insts_below_addValue F1 (GetElementPtrInst gcframe [c]) (PointerTy T 0)) in HB.
  assert ((addValue F1 (GetElementPtrInst gcframe [c]) (PointerTy T 0)).2
          < next_value (addValue F1 (GetElementPtrInst gcframe [c]) (PointerTy T 0)).1)%nat
    as Hlt by (simpl; lia).
  destruct (addValue F1 (GetElementPtrInst gcframe [c]) (PointerTy T 0)) as [F2 gep].
  cbn [fst snd] in HB, Hlt. cbv beta iota zeta in H.
  apply (insts_below_insertAfter F2 gcframe gep Hlt) in HB.
  set (F3 := insertAfter F2 gcframe gep) in *.
  revert H. destruct (RecursivelyVisit _ F3 AI []) as [TD| |]; bind_ok; [|done..].
  intros [= <- _].
  by apply insts_below_eraseFromParent, insts_below_replaceAllUsesWith, insts_below_erase_all.
Qed.

Lemma insts_below_ReplaceAllocas P gcframe F (Al : list Value) z F' slot' :
  foldl (ReplaceAlloca P gcframe) (Ok (F, z)) Al = Ok (F', slot') ->
  insts_below F -> insts_below F'.
Proof.
  intros E HB.
  apply (foldl_Res_invariant (fun a : Function * Z => insts_below a.1) _ _
           (fun _ _ => eq_refl) (fun _ => eq_refl)) with (a := (F, z)) (a' := (F', slot')) in E;
    [done| |done].
  intros [Fa sa] AI [Fb sb] Ha Hb. cbn [fst] in *.
  exact (insts_below_ReplaceAlloca _ _ _ _ _ _ _ Hb Ha).
Qed.
End InstsBelow.

Lemma getInsts_map_blocks (g : list Value -> list Value) (BB : BasicBlock)
    (l : list (BasicBlock * list Value)) :
  g [] = [] ->
  match list_find (fun b : BasicBlock * list Value => b.1 = BB)
          ((fun b : BasicBlock * list Value => (b.1, g b.2)) <$> l) with
  | Some (_, b) => b.2 | None => [] end =
  g (match list_find (fun b : BasicBlock * list Value => b.1 = BB) l with
     | Some (_, b) => b.2 | None => [] end).
Proof.
  intros Hg. rewrite list_find_fmap.
  rewrite (list_find_ext _ (fun b : BasicBlock * list Value => b.1 = BB)) by done.
  by destruct (list_find _ l) as [[? ?]|].
Qed.

Section SameCfgBuilders.
Variable P : LateLowerGCFrame.

Lemma same_cfg_CreateConstGEP1_32 F pos Ptr Idx0 :
  same_cfg F (CreateConstGEP1_32 P F pos Ptr Idx0).1.
Proof.
  unfold CreateConstGEP1_32.
  pose proof (same_cfg_addValue F (ConstantInt Idx0) (T_int32 P)) as H1.
  destruct (addValue F (ConstantInt Idx0) (T_int32 P)) as [F1 Idx].
  eapply same_cfg_trans; [exact H1|apply same_cfg_createBefore].
Qed.

Lemma same_cfg_Insert_pgcstack F pos ptls : same_cfg F (Insert_pgcstack P F pos ptls).1.
Proof.
  unfold Insert_pgcstack.
  pose proof (same_cfg_addValue F (ConstantInt (pgcstack_offset P)) (T_int32 P)) as H1.
  destruct (addValue F (ConstantInt (pgcstack_offset P)) (T_int32 P)) as [F1 Idx].
  eapply same_cfg_trans; [exact H1|apply same_cfg_createBefore].
Qed.

Lemma same_cfg_CreateBitCast F pos V t : same_cfg F (CreateBitCast F pos V t).1.
Proof.
  unfold CreateBitCast. case_match; [apply same_cfg_refl|apply same_cfg_createBefore].
Qed.

Lemma same_cfg_PushGCFrame F gcframe NRoots ptls F' push :
  PushGCFrame P F gcframe NRoots ptls = Ok (F', push) -> same_cfg F F'.
Proof.
  unfold PushGCFrame. destruct (getParent F ptls) as [BB|]; [|done].
  destruct (inst_after _ _) as [Pt|]; [|done].
  destruct (T_prjlvalue P) as [T|]; [|done].
  destruct (T_ppjlvalue P) as [TPP|]; [|done].
  pose proof (same_cfg_CreateConstGEP1_32 F Pt gcframe 0) as H1.
  destruct (CreateConstGEP1_32 P F Pt gcframe 0) as [F1 slot0].
  pose proof (same_cfg_CreateBitCast F1 Pt slot0 (PointerTy (T_size P) 0)) as H2.
  destruct (CreateBitCast F1 Pt slot0 _) as [F2 slot0c].
  match goal with |- context [addValue F2 ?k ?t] =>
    pose proof (same_cfg_addValue F2 k t) as H3; destruct (addValue F2 k t) as [F3 count] end.
  pose proof (same_cfg_createBefore F3 Pt (StoreInst count slot0c) VoidTy) as H4.
  destruct (createBefore F3 Pt _ _) as [F4 st1].
  pose proof (same_cfg_Insert_pgcstack F4 Pt ptls) as H5.
  destruct (Insert_pgcstack P F4 Pt ptls) as [F5 pgcstack].
  match goal with |- context [createBefore F5 ?a ?k ?t] =>
    pose proof (same_cfg_createBefore F5 a k t) as H6;
    destruct (createBefore F5 a k t) as [F6 prev] end.
  pose proof (same_cfg_CreateConstGEP1_32 F6 Pt gcframe 1) as H7.
  destruct (CreateConstGEP1_32 P F6 Pt gcframe 1) as [F7 slot1].
  pose proof (same_cfg_CreateBitCast F7 Pt slot1 (PointerTy TPP 0)) as H8.
  destruct (CreateBitCast F7 Pt slot1 _) as [F8 slot1c].
  pose proof (same_cfg_createBefore F8 Pt (StoreInst prev slot1c) VoidTy) as H9.
  destruct (createBefore F8 Pt _ _) as [F9 st2].
  pose proof (same_cfg_CreateBitCast F9 Pt pgcstack (PointerTy (PointerTy T 0) 0)) as H10.
  destruct (CreateBitCast F9 Pt pgcstack _) as [F10 pgc].
  pose proof (same_cfg_createBefore F10 Pt (StoreInst gcframe pgc) VoidTy) as H11.
  destruct (createBefore F10 Pt _ _) as [F11 st3].
  cbn [fst snd] in *. intros [= <- _]. eauto 15 using same_cfg_trans.
Qed.

Lemma same_cfg_PlaceGCFrameStores F S Min Colors GCFrame F' sts :
  PlaceGCFrameStores P F S Min Colors GCFrame = Ok (F', sts) -> same_cfg F F'.
Proof. unfold PlaceGCFrameStores. intros E. by apply blocks_loop_spec in E as (? & _). Qed.

Lemma frame_pop_extends F F' gcframe ptls pop :
  extends F F' -> frame_pop P F gcframe ptls pop -> frame_pop P F' gcframe ptls pop.
Proof.
  intros He (ld & slot & one & pgc & pgcstack & off & H).
  destruct H as (H1 & H2 & H3 & H4 & H5 & H6 & H7 & K1 & K2 & K3 & K4 & K5 & K6 & K7).
  exists ld, slot, one, pgc, pgcstack, off.
  rewrite !(extends_getKind F F') by done. destruct He as [Hn _].
  repeat split; try done; lia.
Qed.

Lemma PopGCFrame_spec F gcframe Term ptls F' pop :
  PopGCFrame P F gcframe Term ptls = Ok (F', pop) ->
  same_cfg F F' /\ frame_pop P F' gcframe ptls pop /\
  forall BB, Term ∈ getInsts F BB -> pop ∈ getInsts F' BB.
Proof.
  unfold PopGCFrame. destruct (T_prjlvalue P) as [T|]; [|done].
  unfold CreateConstGEP1_32, Insert_pgcstack.
  pose proof (same_cfg_addValue F (ConstantInt 1) (T_int32 P)) as H1.
  assert (getKind (addValue F (ConstantInt 1) (T_int32 P)).1 (next_value F) = ConstantInt 1 /\
          next_value (addValue F (ConstantInt 1) (T_int32 P)).1 = Datatypes.S (next_value F) /\
          (addValue F (ConstantInt 1) (T_int32 P)).2 = next_value F) as (K1 & N1 & E1).
  { unfold getKind. simpl. by rewrite lookup_insert_eq. }
  destruct (addValue F (ConstantInt 1) (T_int32 P)) as [F1 one]. cbn [fst snd] in *. subst one.
  match goal with |- context [createBefore F1 ?a ?k ?t] =>
    pose proof (same_cfg_createBefore F1 a k t) as H2;
    destruct (createBefore_lookup F1 a k t) as (E2 & N2 & V2);
    destruct (createBefore F1 a k t) as [F2 gcpop] end.
  cbn [fst snd] in *. subst gcpop.
  match goal with |- context [createBefore F2 ?a ?k ?t] =>
    pose proof (same_cfg_createBefore F2 a k t) as H3;
    destruct (createBefore_lookup F2 a k t) as (E3 & N3 & V3);
    destruct (createBefore F2 a k t) as [F3 inst] end.
  cbn [fst snd] in *. subst inst.
  match goal with |- context [addValue F3 ?k ?t] =>
    pose proof (same_cfg_addValue F3 k t) as H4;
    assert (getKind (addValue F3 k t).1 (next_value F3) = k /\
            next_value (addValue F3 k t).1 = Datatypes.S (next_value F3) /\
            (addValue F3 k t).2 = next_value F3) as (K4 & N4 & E4)
      by (unfold getKind; simpl; by rewrite lookup_insert_eq);
    destruct (addValue F3 k t) as [F4 off] end.
  cbn [fst snd] in *. subst off.
  match goal with |- context [createBefore F4 ?a ?k ?t] =>
    pose proof (same_cfg_createBefore F4 a k t) as H5;
    destruct (createBefore_lookup F4 a k t) as (E5 & N5 & V5);
    destruct (createBefore F4 a k t) as [F5 pgcstack] end.
  cbn [fst snd] in *. subst pgcstack.
  assert (exists F6 pgc, CreateBitCast F5 Term (next_value F4) (PointerTy T 0) = (F6, pgc) /\
            same_cfg F5 F6 /\ (pgc < next_value F6)%nat /\
            (pgc = next_value F4 \/ getKind F6 pgc = BitCastInst (next_value F4)))
    as (F6 & pgc & -> & H6 & L6 & K6).
  { unfold CreateBitCast. destruct (Ty_eqb _ _).
    - exists F5, (next_value F4). split; [done|]. split; [apply same_cfg_refl|].
      split; [lia|by left].
    - pose proof (same_cfg_createBefore F5 Term (BitCastInst (next_value F4)) (PointerTy T 0))
        as H6.
      destruct (createBefore_lookup F5 Term (BitCastInst (next_value F4)) (PointerTy T 0))
        as (E6 & N6 & V6).
      destruct (createBefore F5 Term _ _) as [F6 pgc]. cbn [fst snd] in *. subst pgc.
      exists F6, (next_value F5). split; [done|]. split; [done|]. split; [lia|].
      right. by rewrite (getKind_Some _ _ _ V6). }
  match goal with |- context [createBefore F6 ?a ?k ?t] =>
    pose proof (same_cfg_createBefore F6 a k t) as H7;
    destruct (createBefore_lookup F6 a k t) as (E7 & N7 & V7);
    pose proof (elem_of_insert_before_new a (next_value F6)) as Hnew;
    assert (blocks (createBefore F6 a k t).1
            = (fun b => (b.1, insert_before a (next_value F6) b.2)) <$> blocks F6) as HB7
      by done;
    destruct (createBefore F6 a k t) as [F7 st] end.
  cbn [fst snd] in *. subst st. intros [= <- <-].
  assert (same_cfg F F6) as H06 by eauto 10 using same_cfg_trans.
  pose proof (proj1 H6) as [Hn56 _]. pose proof (proj1 H7) as He67.
  split; [by eapply same_cfg_trans|]. split.
  - exists (next_value F2), (next_value F1), (next_value F), pgc, (next_value F4),
      (next_value F3).
    rewrite (getKind_Some _ _ _ V7).
    assert (extends F3 F7) as He37.
    { eapply extends_trans; [apply H4|]. eapply extends_trans; [apply H5|].
      eapply extends_trans; [apply H6|apply H7]. }
    assert (extends F5 F7) as He57 by (eapply extends_trans; [apply H6|apply H7]).
    rewrite (extends_getKind F3 F7 (next_value F2) He37) by lia.
    rewrite (getKind_Some _ _ _ V3).
    rewrite (extends_getKind F3 F7 (next_value F1) He37) by lia.
    rewrite (extends_getKind F2 F3 (next_value F1)) by (apply H3 || lia).
    rewrite (getKind_Some _ _ _ V2).
    rewrite (extends_getKind F3 F7 (next_value F) He37) by lia.
    rewrite (extends_getKind F2 F3 (next_value F)) by (apply H3 || lia).
    rewrite (extends_getKind F1 F2 (next_value F)) by (apply H2 || lia).
    rewrite K1.
    rewrite (extends_getKind F5 F7 (next_value F4) He57) by lia.
    rewrite (getKind_Some _ _ _ V5).
    rewrite (extends_getKind F5 F7 (next_value F3) He57) by lia.
    rewrite (extends_getKind F4 F5 (next_value F3)) by (apply H5 || lia).
    rewrite K4. simpl.
    assert (pgc = next_value F4 \/ getKind F7 pgc = BitCastInst (next_value F4)) as K6'.
    { destruct K6 as [?|K6]; [by left|right].
      by rewrite (extends_getKind F6 F7 pgc He67 L6). }
    destruct He67 as [Hn67 _].
    repeat split; try done; lia.
  - intros BB HT. apply (same_cfg_getInsts F F6 BB Term H06) in HT.
    unfold getInsts in *. rewrite HB7.
    rewrite (getInsts_map_blocks (insert_before Term (next_value F6)) BB (blocks F6) eq_refl).
    by apply Hnew.
Qed.
End SameCfgBuilders.

Lemma filter_ext_bool {A} (f g : A -> bool) (l : list A) :
  (forall x, f x = g x) ->
  filter (fun x => f x = true) l = filter (fun x => g x = true) l.
Proof.
  intros H. induction l as [|x l IH]; [done|].
  rewrite !filter_cons, IH. specialize (H x).
  destruct (decide (f x = true)), (decide (g x = true)); congruence.
Qed.

Section Pops.
Variables (P : LateLowerGCFrame) (gcframe ptls : Value) (F0 : Function).
Hypothesis below : insts_below F0.

Lemma pops_loop_spec (l : list (BasicBlock * list Value)) : forall Fa pops F' pops',
  same_cfg F0 Fa ->
  foldl (fun r (b : BasicBlock * list Value) =>
           '(F, pops) ← r;
           match getTerminator F b.1 with
           | Some Term =>
               match getKind F Term with
               | ReturnInst _ =>
                   '(F, pop) ← PopGCFrame P F gcframe Term ptls;
                   Ok (F, pops ++ [pop])
               | _ => Ok (F, pops)
               end
           | None => Ok (F, pops)
           end)
        (Ok (Fa, pops)) l = Ok (F', pops') ->
  same_cfg Fa F' /\
  exists new, pops' = pops ++ new /\
    Forall2 (fun BB pop => pop ∈ getInsts F' BB /\ frame_pop P F' gcframe ptls pop)
            (filter (fun BB => returns F0 BB = true) l.*1) new.
Proof.
  induction l as [|b l IH]; intros Fa pops F' pops' Hc.
  - simpl. intros [= <- <-]. split; [apply same_cfg_refl|]. exists [].
    split; [by rewrite app_nil_r|constructor].
  - intros E. apply foldl_Res_cons in E as ([F1 pops1] & E1 & E2); [|done..].
    revert E1. bind_ok.
    pose proof (same_cfg_returns F0 Fa Hc below b.1) as Hret. unfold returns in Hret at 1.
    rewrite fmap_cons, filter_cons.
    destruct (getTerminator Fa b.1) as [Term|] eqn:ET.
    2:{ intros [= <- <-]. rewrite decide_False by congruence. by apply IH. }
    assert (Term ∈ getInsts Fa b.1) as HTin.
    { unfold getTerminator in ET. destruct (last (getInsts Fa b.1)) as [T'|] eqn:EL; [|done].
      destruct (isTerminator _); [|done]. injection ET as <-.
      apply last_Some in EL as [l' ->]. apply elem_of_app. right. by left. }
    destruct (getKind Fa Term) eqn:EK;
      try (intros [= <- <-]; rewrite decide_False by congruence; by apply IH).
    destruct (PopGCFrame P Fa gcframe Term ptls) as [[F2 pop]| |] eqn:EP; bind_ok; [|done..].
    intros [= <- <-]. rewrite decide_True by done.
    apply PopGCFrame_spec in EP as (Hc2 & Hpop & Hin).
    destruct (IH F2 (pops ++ [pop]) F' pops' (same_cfg_trans _ _ _ Hc Hc2) E2)
      as (Hc3 & new & -> & HF).
    split; [by eapply same_cfg_trans|].
    exists (pop :: new). split; [by rewrite <- app_assoc|].
    constructor; [|done]. split.
    + apply (same_cfg_getInsts F2 F' b.1 pop Hc3). by apply Hin.
    + eapply frame_pop_extends; [apply Hc3|done].
Qed.
End Pops.

Ltac below_add HB :=
  match goal with
  | |- context [addValue ?F ?k ?t] =>
      apply (insts_below_addValue F k t) in HB;
      let H := fresh "Hlt" in
      assert ((addValue F k t).2 < next_value (addValue F k t).1)%nat as H by (simpl; lia);
      destruct (addValue F k t) as [? ?]; cbn [fst snd] in HB, H; cbv beta iota zeta
  end.

(** X15.  One pop for every return.  When PlaceRootsAndUpdateCalls emits a
    frame for a function whose instructions lie below the next free value,
    the pops it created are, in the order of the blocks, one for each block
    whose terminator is a return: the pop is an instruction of that block and
    stores the load of slot 1 of the frame through the pgcstack field of the
    thread state. *)
Theorem one_pop_per_return (P : LateLowerGCFrame) (F : Function) (Colors : list Z)
    (S : State) (F' : Function) (fr : FrameInfo) :
  insts_below F ->
  PlaceRootsAndUpdateCalls P F Colors S = Ok (F', Some fr) ->
  exists ptls, ptlsStates P = Some ptls /\
    Forall2 (fun BB pop => pop ∈ getInsts F' BB /\
                           frame_pop P F' (frame_alloca fr) ptls pop)
            (filter (fun BB => returns F' BB = true) (blocks F').*1) (frame_pops fr).
Proof.
  intros HB. unfold PlaceRootsAndUpdateCalls.
  destruct (negb (MaxColor Colors =? -1) || negb (length (Allocas S) =? 0)%nat); [|done].
  destruct (T_prjlvalue P) as [T|]; [|done].
  destruct (ptlsStates P) as [ptls|]; [|done].
  destruct (head (getInsts F (getEntryBlock F))) as [first|]; [|done].
  below_add HB. below_add HB.
  match goal with |- context [insertBefore ?G ?a ?b] =>
    apply (insts_below_insertBefore G a b Hlt0) in HB;
    assert (b < next_value (insertBefore G a b))%nat as Hg by exact Hlt0;
    set (Fa := insertBefore G a b) in * end.
  below_add HB.
  match goal with |- context [insertAfter ?G ?a ?b] =>
    apply (insts_below_insertAfter G a b Hlt1) in HB;
    set (Fb := insertAfter G a b) in * end.
  below_add HB. below_add HB. below_add HB. below_add HB. below_add HB. below_add HB.
  match goal with |- context [insertAfter ?G ?a ?b] =>
    apply (insts_below_insertAfter G a b Hlt7) in HB;
    set (Fc := insertAfter G a b) in * end.
  match goal with |- context [PushGCFrame P Fc ?g ?n ptls] =>
    destruct (PushGCFrame P Fc g n ptls) as [[F7 push]| |] eqn:EPush end; bind_ok; [|done..].
  apply same_cfg_PushGCFrame in EPush. apply (same_cfg_below _ _ EPush) in HB.
  destruct (foldl (ReplaceAlloca P _) _ _) as [[F8 AllocaSlot]| |] eqn:ERep; bind_ok; [|done..].
  apply (insts_below_ReplaceAllocas _ _ _ _ _ _ _ ERep) in HB.
  destruct (PlaceGCFrameStores P F8 S AllocaSlot Colors _) as [[F9 stores]| |] eqn:ESt;
    bind_ok; [|done..].
  apply same_cfg_PlaceGCFrameStores in ESt. apply (same_cfg_below _ _ ESt) in HB.
  match goal with |- context [foldl ?f (Ok (F9, [])) (blocks F9)] =>
    destruct (foldl f (Ok (F9, [])) (blocks F9)) as [[F10 pops]| |] eqn:EPop end;
    bind_ok; [|done..].
  intros [= <- <-]. simpl.
  apply (pops_loop_spec P _ ptls F9 HB (blocks F9) F9 [] F10 pops (same_cfg_refl F9)) in EPop
    as (Hc & new & -> & HF).
  exists ptls. split; [done|]. simpl.
  rewrite (same_cfg_blocks F9 F10 Hc).
  rewrite (filter_ext_bool (returns F10) (returns F9)); [done|].
  intros BB. by apply same_cfg_returns.
Qed.

Lemma one_pop_per_return_witness :
  insts_below Examples.two_roots /\
  PlaceRootsAndUpdateCalls (Examples.pass_of Examples.two_roots) Examples.two_roots
    (MoreExamples.colors_of Examples.two_roots) (MoreExamples.live_state Examples.two_roots)
    = Ok ((MoreExamples.rooted_of Examples.two_roots).1,
          Some (MoreExamples.rooted_of Examples.two_roots).2) /\
  length (frame_pops (MoreExamples.rooted_of Examples.two_roots).2) = 1%nat /\
  exists ptls, ptlsStates (Examples.pass_of Examples.two_roots) = Some ptls /\
    Forall2 (fun BB pop =>
               pop ∈ getInsts (MoreExamples.rooted_of Examples.two_roots).1 BB /\
               frame_pop (Examples.pass_of Examples.two_roots)
                 (MoreExamples.rooted_of Examples.two_roots).1
                 (frame_alloca (MoreExamples.rooted_of Examples.two_roots).2) ptls pop)
      (filter (fun BB => returns (MoreExamples.rooted_of Examples.two_roots).1 BB = true)
              (blocks (MoreExamples.rooted_of Examples.two_roots).1).*1)
      (frame_pops (MoreExamples.rooted_of Examples.two_roots).2).
Proof.
  assert (insts_below Examples.two_roots) as HB.
  { unfold insts_below. apply (bool_decide_unpack _). vm_compute. reflexivity. }
  assert (PlaceRootsAndUpdateCalls (Examples.pass_of Examples.two_roots) Examples.two_roots
            (MoreExamples.colors_of Examples.two_roots)
            (MoreExamples.live_state Examples.two_roots)
          = Ok ((MoreExamples.rooted_of Examples.two_roots).1,
                Some (MoreExamples.rooted_of Examples.two_roots).2)) as HP.
  { vm_compute. reflexivity. }
  split; [exact HB|]. split; [exact HP|]. split; [vm_compute; reflexivity|].
  exact (one_pop_per_return _ _ _ _ _ _ HB HP).
Defined.

(** ** The lifted phi *)

Lemma Ty_eqb_eq : forall a b : Ty, Ty_eqb a b = true -> a = b.
Proof.
  fix IH 1. intros a b. destruct a as [e1 a1|e1 n1|l1|w1|r1 p1|s1|], b as [e2 a2|e2 n2|l2|w2|r2 p2|s2|];
    simpl; try done.
  - intros [H1 H2]%andb_true_iff. apply IH in H1. apply Z.eqb_eq in H2. congruence.
  - intros [H1 H2]%andb_true_iff. apply IH in H1. apply Nat.eqb_eq in H2. congruence.
  - intros H. f_equal. revert l2 H.
    induction l1 as [|x xs IHl]; intros [|y ys]; try done.
    intros [H1 H2]%andb_true_iff. f_equal; [by apply IH|by apply IHl].
  - intros H%Nat.eqb_eq. congruence.
  - intros [H1 H2]%andb_true_iff. apply IH in H1. f_equal; [done|]. revert p2 H2.
    induction p1 as [|x xs IHl]; intros [|y ys]; try done.
    intros [H2 H3]%andb_true_iff. f_equal; [by apply IH|by apply IHl].
  - intros H%String.eqb_eq. congruence.
Qed.

Section LiftedPhi.
Variables (fuel : nat) (A : AddressSpaces) (T : Ty) (S : State).
Hypothesis T_not_void : T <> VoidTy.

Lemma fresh_addValue F k t : fresh F -> fresh (addValue F k t).1.
Proof.
  intros HF v. simpl. rewrite lookup_insert. case_decide; [intros _; lia|].
  intros Hv. specialize (HF v Hv). lia.
Qed.

Lemma fresh_createBefore F pos k t : fresh F -> fresh (createBefore F pos k t).1.
Proof. intros HF. unfold createBefore. simpl. exact (fresh_addValue F k t HF). Qed.

Lemma getType_None F (v : Value) : values F !! v = None -> getType F v = VoidTy.
Proof. intros H. unfold getType. by rewrite H. Qed.

Lemma typed_below F (v : Value) : fresh F -> getType F v = T -> (v < next_value F)%nat.
Proof.
  intros HF Ht. apply HF. destruct (values F !! v) as [vi|] eqn:E; [by exists vi|].
  exfalso. apply T_not_void. rewrite <- Ht. by apply getType_None.
Qed.

Lemma extends_getType F F' (v : Value) :
  extends F F' -> (v < next_value F)%nat -> getType F' v = getType F v.
Proof. intros [_ He] Hv. unfold getType. by rewrite He. Qed.

Lemma LiftPhi_incoming_spec incoming : forall F acc F' lifted,
  fresh F -> (forall v, v ∈ acc.*1 -> getType F v = T) ->
  LiftPhi_incoming fuel A T F S incoming acc = Ok (F', lifted) ->
  extends F F' /\ fresh F' /\ lifted.*2 = acc.*2 ++ incoming.*2 /\
  forall v, v ∈ lifted.*1 -> getType F' v = T.
Proof.
  induction incoming as [|[Incoming IB] rest IH]; intros F acc F' lifted HF Hacc; simpl.
  - intros [= <- <-]. split; [apply extends_refl|]. split; [done|].
    split; [by rewrite app_nil_r|done].
  - destruct (FindBaseValue fuel A F S Incoming false) as [Base| |]; bind_ok; [|done..].
    assert (exists F1 B1,
              (if negb (getValueAddrSpace F Base =? Tracked A)
               then addValue F ConstantPointerNull T else (F, Base)) = (F1, B1) /\
              extends F F1 /\ fresh F1) as (F1 & B1 & -> & H1 & HF1).
    { destruct (negb _); eexists _, _; (split; [reflexivity|]).
      - split; [apply extends_addValue|by apply fresh_addValue].
      - split; [apply extends_refl|done]. }
    assert (exists F2 B2,
              (if negb (Ty_eqb (getType F1 B1) T)
               then match getTerminator F1 IB with
                    | Some Term => createBefore F1 Term (BitCastInst B1) T
                    | None => addValue F1 (BitCastInst B1) T
                    end
               else (F1, B1)) = (F2, B2) /\
              extends F1 F2 /\ fresh F2 /\ getType F2 B2 = T) as (F2 & B2 & -> & H2 & HF2 & HT2).
    { destruct (Ty_eqb (getType F1 B1) T) eqn:Eq; simpl.
      - exists F1, B1. split; [done|]. split; [apply extends_refl|]. split; [done|].
        by apply Ty_eqb_eq.
      - destruct (getTerminator F1 IB) as [Term|].
        + destruct (createBefore_lookup F1 Term (BitCastInst B1) T) as (E & _ & V).
          pose proof (extends_createBefore F1 Term (BitCastInst B1) T) as He.
          pose proof (fresh_createBefore F1 Term (BitCastInst B1) T HF1) as Hf.
          destruct (createBefore F1 Term _ _) as [F2 B2]. cbn [fst snd] in *. subst B2.
          exists F2, (next_value F1). split; [done|]. split; [done|]. split; [done|].
          unfold getType. by rewrite V.
        + eexists _, _. split; [reflexivity|]. split; [apply extends_addValue|].
          split; [by apply fresh_addValue|]. unfold getType. simpl.
          by rewrite lookup_insert_eq. }
    intros E. apply IH in E as (H3 & HF3 & Hl & Ht); [|done|].
    + split; [eauto using extends_trans|]. split; [done|]. split; [|done].
      rewrite Hl, fmap_app. simpl. by rewrite <- app_assoc.
    + intros v. rewrite fmap_app, elem_of_app. simpl.
      intros [Hv| ->%list_elem_of_singleton]; [|done].
      specialize (Hacc v Hv).
      rewrite (extends_getType F F2); [done|by eapply extends_trans|by apply typed_below].
Qed.
End LiftedPhi.

(** X16.  The phi that LiftPhi builds.  With T_prjlvalue a type other than
    void and a value table that lies below its next free address, LiftPhi
    creates a phi of type T_prjlvalue with one incoming value for each
    incoming value of Phi, from the same blocks in the same order, each of
    type T_prjlvalue; it hands out the identifier after the last one, for
    both Phi and the new phi, and records the new phi as the value of that
    identifier. *)
Theorem lifted_phi_well_formed (fuel : nat) (P : LateLowerGCFrame) (F : Function) (S : State)
    (Phi : Value) (n : Z) (F' : Function) (S' : State) (T : Ty) :
  T_prjlvalue P = Some T -> T <> VoidTy -> fresh F ->
  LiftPhi fuel P F S Phi = Ok (n, F', S') ->
  exists incoming (lift : Value) lifted,
    getKind F Phi = PHINode incoming /\
    getKind F' lift = PHINode lifted /\ getType F' lift = T /\
    lifted.*2 = incoming.*2 /\
    (forall v, v ∈ lifted.*1 -> getType F' v = T) /\
    n = MaxPtrNumber S + 1 /\ MaxPtrNumber S' = n /\
    PtrNumbering S' !! lift = Some n /\
    AllPtrNumbering S' !! lift = Some n /\ AllPtrNumbering S' !! Phi = Some n /\
    ReversePtrNumbering S' !! n = Some lift.
Proof.
  intros HT Hvoid HF. unfold LiftPhi. rewrite HT.
  destruct (getKind F Phi) as [| | | | | | | | |incoming| | | | | | | | | | | |] eqn:EK; try done.
  pose proof (fresh_createBefore F Phi (PHINode []) T HF) as HF1.
  destruct (createBefore_lookup F Phi (PHINode []) T) as (El & Nl & Vl).
  destruct (createBefore F Phi (PHINode []) T) as [F1 lift]. cbn [fst snd] in *. subst lift.
  destruct (LiftPhi_incoming _ _ _ _ _ _ _) as [[F2 lifted]| |] eqn:E; bind_ok; [|done..].
  apply (LiftPhi_incoming_spec fuel (AddressSpace P) T S Hvoid) in E
    as (He & HF2 & Hl & Ht); [|done|by intros v ?%elem_of_nil].
  intros [= <- <- <-]. exists incoming, (next_value F), lifted.
  split; [done|]. unfold getKind, getType. simpl. rewrite lookup_insert_eq. simpl.
  split; [done|]. split; [done|]. split; [done|]. split.
  - intros v Hv. rewrite lookup_insert. case_decide; [done|]. exact (Ht v Hv).
  - split; [done|]. split; [done|]. rewrite !lookup_insert_eq. split; [done|].
    split; [done|]. split; [|done]. rewrite lookup_insert. case_decide; [done|].
    by rewrite lookup_insert_eq.
Qed.

Lemma lifted_phi_well_formed_witness :
  T_prjlvalue (Examples.pass_of MoreExamples.phi_join) = Some Examples.T_prjl /\
  Examples.T_prjl <> VoidTy /\ fresh MoreExamples.phi_join /\
  LiftPhi 100 (Examples.pass_of MoreExamples.phi_join) MoreExamples.phi_join State_init 15%nat
    = Ok ((MoreExamples.lifted_of MoreExamples.phi_join 15%nat).1.1,
          (MoreExamples.lifted_of MoreExamples.phi_join 15%nat).1.2,
          (MoreExamples.lifted_of MoreExamples.phi_join 15%nat).2) /\
  exists incoming (lift : Value) lifted,
    getKind MoreExamples.phi_join 15%nat = PHINode incoming /\
    getKind (MoreExamples.lifted_of MoreExamples.phi_join 15%nat).1.2 lift = PHINode lifted /\
    lifted.*2 = incoming.*2.
Proof.
  assert (T_prjlvalue (Examples.pass_of MoreExamples.phi_join) = Some Examples.T_prjl) as HT.
  { vm_compute. reflexivity. }
  assert (Examples.T_prjl <> VoidTy) as HV by discriminate.
  assert (fresh MoreExamples.phi_join) as HF.
  { apply fresh_b_sound. vm_compute. reflexivity. }
  assert (LiftPhi 100 (Examples.pass_of MoreExamples.phi_join) MoreExamples.phi_join
            State_init 15%nat
          = Ok ((MoreExamples.lifted_of MoreExamples.phi_join 15%nat).1.1,
                (MoreExamples.lifted_of MoreExamples.phi_join 15%nat).1.2,
                (MoreExamples.lifted_of MoreExamples.phi_join 15%nat).2)) as HL.
  { vm_compute. reflexivity. }
  split; [exact HT|]. split; [exact HV|]. split; [exact HF|]. split; [exact HL|].
  destruct (lifted_phi_well_formed _ _ _ _ _ _ _ _ _ HT HV HF HL)
    as (incoming & lift & lifted & H1 & H2 & _ & H4 & _).
  exists incoming, lift, lifted. split; [exact H1|]. split; [exact H2|exact H4].
Defined.

(** ** The number of colours *)

Lemma colored_setColor C (i : nat) c :
  C !! i = Some (-1) -> c <> -1 ->
  colored (setColor C (Z.of_nat i) c) = Datatypes.S (colored C).
Proof.
  intros Hi Hc. unfold setColor, colored.
  destruct (Z.leb_spec 0 (Z.of_nat i)); [|lia]. rewrite Nat2Z.id.
  pose proof (filter_insert_length [] (fun c => c <> -1) C i (-1)%Z c Hi) as H'.
  rewrite decide_False in H' by (intros ?; done). rewrite decide_True in H' by done. lia.
Qed.

Lemma colored_le C : (colored C <= length C)%nat.
Proof. apply length_filter. Qed.

Section ColourCount.
Variable S : State.
Variable P : Z.
Hypothesis P_nonneg : 0 <= P.

Lemma color_element_count C Max O v :
  ranged P C Max -> 0 <= v -> length C = length (Neighbors S) ->
  Max + 1 + P <= Z.of_nat (colored C) ->
  let G := color_element S P (mkGreedy C Max O) v in
  MaxAssignedColor G + 1 + P <= Z.of_nat (colored (Colors G)).
Proof.
  intros (HMax & Hrange) Hv Hlen Hcount. unfold color_element. simpl.
  destruct (Z.eqb_spec (getColor C v) (-1)) as [Hc|Hc]; simpl; [|done].
  destruct (default [] (Neighbors S !! Z.to_nat v)) as [|n0 Ns0] eqn:ENs; [done|].
  assert (Z.to_nat v < length C)%nat as Hlt.
  { rewrite Hlen. apply lookup_lt_is_Some.
    destruct (Neighbors S !! Z.to_nat v); [done|]. simpl in ENs. done. }
  rewrite <- ENs. clear n0 Ns0 ENs.
  set (Ns := default [] (Neighbors S !! Z.to_nat v)) in *.
  set (U0 := BV.reset (BV.resize (Z.to_nat (Max + 2)) BV.empty)).
  set (U := foldl (mark_neighbor C P) U0 Ns).
  assert (length U = Z.to_nat (Max + 2)) as HlenU.
  { unfold U. rewrite mark_neighbors_length. unfold U0, BV.reset, BV.resize.
    by rewrite length_replicate, length_resize. }
  assert (C !! Z.to_nat v = Some (-1)) as HCv.
  { unfold getColor in Hc. destruct (Z.leb_spec 0 v); [|lia].
    destruct (lookup_lt_is_Some_2 C (Z.to_nat v) Hlt) as [c Hcv]. rewrite Hcv in Hc.
    simpl in Hc. by subst c. }
  destruct (find_first_spec (BV.flip U)) as [[-> _]|(k & -> & Hk)]; simpl.
  - (* no free colour: the size of the vector excludes it, the bound holds anyway *)
    destruct (Z.ltb_spec Max (-1)); [lia|].
    unfold setColor. destruct (Z.leb_spec 0 v); [|lia].
    pose proof (filter_insert_length [] (fun c => c <> -1) C (Z.to_nat v) (-1)%Z (-1 + P)%Z HCv) as H'.
    unfold colored in *. rewrite decide_False in H' by (intros ?; done).
    destruct (decide (-1 + P <> -1)); lia.
  - rewrite BV_test_flip in Hk. case_decide as Hklt; [|done].
    replace v with (Z.of_nat (Z.to_nat v)) at 1 by lia.
    rewrite colored_setColor; [|done|lia].
    destruct (Z.ltb_spec Max (Z.of_nat k)); lia.
Qed.

Section Loop.
Hypothesis N_wf : Neighbors_wf (Neighbors S).
Hypothesis N_small : Z.of_nat (length (Neighbors S)) < 2 ^ 31.

Lemma greedy_loop_count fuel : forall G G' R,
  PEO_inv R (Ordering G) -> length (Elements (Ordering G)) = length (Neighbors S) ->
  R + Z.of_nat (live_count (Ordering G)) = Z.of_nat (length (Neighbors S)) ->
  ranged P (Colors G) (MaxAssignedColor G) ->
  length (Colors G) = length (Neighbors S) ->
  MaxAssignedColor G + 1 + P <= Z.of_nat (colored (Colors G)) ->
  greedy_loop fuel S P G = Ok G' ->
  ranged P (Colors G') (MaxAssignedColor G') /\
  MaxAssignedColor G' + 1 + P <= Z.of_nat (colored (Colors G')).
Proof.
  induction fuel as [|fuel IH]; intros G G' R HI Hlen HR HG HC Hcount; [done|]. simpl.
  destruct (PEO_next (Neighbors S) (Ordering G)) as [x O'] eqn:Hn.
  destruct (PEO_next_spec (Neighbors S) N_wf N_small R _ x O' HI Hlen HR Hn)
    as [[-> Hz]|(Hx & Hlive & HI' & Hlen' & Hlc & Hl)].
  - simpl. by intros [= <-].
  - destruct (Z.eqb_spec x (-1)); [done|].
    destruct (color_element_assigns S P P_nonneg (Colors G) (MaxAssignedColor G) O' x HG)
      as (H1 & H2 & H3 & _).
    pose proof (color_element_count (Colors G) (MaxAssignedColor G) O' x HG
                  (proj1 Hlive) HC Hcount) as H4.
    set (G1 := color_element S P _ x) in *.
    apply (IH G1 G' (R + 1)); try done.
    + by rewrite H3.
    + by rewrite H3.
    + rewrite H3. lia.
    + congruence.
Qed.
End Loop.
End ColourCount.

Section PreAssignCount.
Variable S : State.

Lemma preassign_bit_count a Idx :
  0 <= a.2 -> (Idx < length a.1)%nat -> a.2 <= Z.of_nat (colored a.1) ->
  (preassign_bit a Idx).2 <= Z.of_nat (colored (preassign_bit a Idx).1) /\
  0 <= (preassign_bit a Idx).2 /\ length (preassign_bit a Idx).1 = length a.1.
Proof.
  intros Hp Hlt Hc. unfold preassign_bit. rewrite getColor_lookup.
  destruct (lookup_lt_is_Some_2 a.1 Idx Hlt) as [c Hi]. rewrite Hi. simpl.
  destruct (Z.eqb_spec c (-1)) as [->|Hne]; simpl; [|done].
  rewrite colored_setColor by (done || lia). rewrite setColor_length. lia.
Qed.

Lemma preassign_bits_count l : forall a,
  0 <= a.2 -> (forall i, i ∈ l -> (i < length a.1)%nat) ->
  a.2 <= Z.of_nat (colored a.1) ->
  (foldl preassign_bit a l).2 <= Z.of_nat (colored (foldl preassign_bit a l).1) /\
  0 <= (foldl preassign_bit a l).2 /\ length (foldl preassign_bit a l).1 = length a.1.
Proof.
  induction l as [|Idx l IH]; intros a Hp Hl Hc; simpl; [done|].
  destruct (preassign_bit_count a Idx Hp (Hl _ ltac:(by left)) Hc) as (H1 & H2 & H3).
  destruct (IH (preassign_bit a Idx) H2) as (H4 & H5 & H6); [|done|].
  - intros i Hi. rewrite H3. apply Hl. by right.
  - split; [done|]. split; [done|congruence].
Qed.

Lemma preassign_calls_count (W : nat) l : forall a r,
  Forall (fun LS : BitVector => (length LS <= W)%nat) (LiveSets S) ->
  0 <= a.2 -> length a.1 = W -> a.2 <= Z.of_nat (colored a.1) ->
  foldl (preassign_call S) (Ok a) l = Ok r ->
  r.2 <= Z.of_nat (colored r.1) /\ 0 <= r.2 /\ length r.1 = W.
Proof.
  induction l as [|it l IH]; intros a r HW Hp Hlen Hc; simpl.
  - by intros [= <-].
  - destruct (SafepointNumbering S !! it) as [Num|]; simpl.
    2:{ intros E. exfalso. revert E. clear. induction l as [|? ? IHl]; simpl; [done|].
        exact IHl. }
    set (LS := default [] (LiveSets S !! Z.to_nat Num)).
    destruct (preassign_bits_count (BV.bits LS) a Hp) as (H1 & H2 & H3); [|done|].
    + intros i Hi%BV_elem_of_bits%BV_test_lt. rewrite Hlen.
      unfold LS in Hi. destruct (LiveSets S !! Z.to_nat Num) as [LS'|] eqn:E; simpl in Hi; [|lia].
      rewrite Forall_lookup in HW. specialize (HW _ _ E). simpl in HW. lia.
    + apply IH; [done|done|congruence|done].
Qed.

Lemma PreAssign_count C0 P0 :
  Forall (fun LS : BitVector => (length LS <= Z.to_nat (MaxPtrNumber S + 1))%nat)
         (LiveSets S) ->
  PreAssign S = Ok (C0, P0) -> P0 <= Z.of_nat (colored C0).
Proof.
  intros HW H. unfold PreAssign in H.
  apply (preassign_calls_count (Z.to_nat (MaxPtrNumber S + 1))) in H as (H1 & _); try done.
  - simpl. by rewrite length_replicate.
  - simpl. lia.
Qed.
End PreAssignCount.

Lemma ColorRoots_count (S : State) (Colors : list Z) (P0 : Z) :
  Neighbors_wf (Neighbors S) -> Z.of_nat (length (Neighbors S)) < 2 ^ 31 ->
  length (Neighbors S) = Z.to_nat (MaxPtrNumber S + 1) ->
  Forall (fun LS : BitVector => (length LS <= Z.to_nat (MaxPtrNumber S + 1))%nat)
         (LiveSets S) ->
  ColorRoots S = Ok (Colors, P0) ->
  forall c, c ∈ Colors -> c < Z.of_nat (colored Colors).
Proof.
  intros Hwf Hsmall HlenN HW. unfold ColorRoots, ColorRoots_fuel.
  destruct (PreAssign S) as [[C0 P]| |] eqn:HP; bind_ok; [|done..].
  destruct (greedy_loop _ _ _ _) as [G'| |] eqn:HG; bind_ok; [|done..].
  intros [= <- <-].
  pose proof (PreAssign_ok _ _ _ HP) as [[HP0 HC0] Hlen]. cbn [fst snd] in HP0, HC0.
  pose proof (PreAssign_count S C0 P HW HP) as Hcount.
  destruct (PEOIterator_init_inv (Neighbors S)) as (HI & Hl & Hlc).
  set (G0 := mkGreedy C0 (-1) (PEOIterator_init (Neighbors S))) in *.
  assert (ranged P (Colors G0) (MaxAssignedColor G0)) as Hr.
  { split; [simpl; lia|]. simpl. intros i c Hc. destruct (HC0 _ _ Hc); lia. }
  destruct (greedy_loop_count S P HP0 Hwf Hsmall _ G0 G' 0 HI Hl
              ltac:(simpl; rewrite Hlc; lia) Hr ltac:(simpl; lia) ltac:(simpl; lia) HG) as [[HM Hr'] Hc'].
  intros c [i Hi]%list_elem_of_lookup_1. destruct (Hr' _ _ Hi) as [Hge Hle].
  destruct (Z.le_gt_cases P c) as [Hpc|Hpc]; [specialize (Hle Hpc); lia|lia].
Qed.

(** X17.  The colours fit the identifiers.  On the state that LocalScan and
    ComputeLiveness leave (identifiers fitting an int), every colour that
    ColorRoots hands out is less than the number of identifiers that got a
    colour, so MaxColor + 1, the number of colour slots of the frame, is at
    most that number and at most the number of identifiers. *)
Theorem colours_fit_identifiers (P : LateLowerGCFrame) (sf df : nat) (F F' : Function)
    (S S' : State) (Colors : list Z) (P0 : Z) :
  LocalScan sf P F = Ok (F', S) -> MaxPtrNumber S < 2 ^ 31 - 1 ->
  ComputeLiveness df F' S = Ok S' ->
  ColorRoots S' = Ok (Colors, P0) ->
  (forall c, c ∈ Colors -> c < Z.of_nat (colored Colors)) /\
  MaxColor Colors + 1 <= Z.of_nat (colored Colors) <= MaxPtrNumber S' + 1.
Proof.
  intros Hscan Hsmall Hlive HC.
  destruct (analysis_widths P sf df F F' S S' Hscan Hlive Hsmall) as [HM [_ HL]].
  destruct (analysis_Neighbors_wf P sf df F F' S S' Hscan Hlive Hsmall) as [Hwf Hlen].
  pose proof (LocalScan_seeded P sf F F' S Hscan) as [Hge _].
  assert (forall c, c ∈ Colors -> c < Z.of_nat (colored Colors)) as Hall.
  { apply (ColorRoots_count S' Colors P0); try done. rewrite Hlen. lia. }
  split; [done|]. split.
  - destruct (MaxColor_spec Colors) as (_ & _ & [->|Hin]); [lia|].
    specialize (Hall _ Hin). lia.
  - pose proof (colored_le Colors) as Hle.
    assert (length Colors = Z.to_nat (MaxPtrNumber S' + 1)) as HlenC.
    { revert HC. unfold ColorRoots, ColorRoots_fuel.
      destruct (PreAssign S') as [[C0 Pa]| |] eqn:HP; bind_ok; [|done..].
      destruct (greedy_loop _ _ _ _) as [G'| |] eqn:HG; bind_ok; [|done..].
      intros [= <- <-].
      pose proof (PreAssign_ok _ _ _ HP) as [[HP0 HC0] Hl0]. cbn [fst snd] in HP0, HC0.
      assert (ranged Pa C0 (-1)) as Hr.
      { split; [lia|]. intros i c Hc. destruct (HC0 _ _ Hc); lia. }
      destruct (greedy_loop_keeps S' Pa HP0 _ (mkGreedy C0 (-1) _) G' Hr HG) as (Hl' & _).
      simpl in Hl'.
      congruence. }
    lia.
Qed.

Lemma colours_fit_identifiers_witness :
  LocalScan 100 (Examples.pass_of Examples.two_roots) Examples.two_roots
    = Ok (Examples.two_roots, Examples.scanned_state Examples.two_roots) /\
  MaxColor [0; 0] + 1 <= Z.of_nat (colored [0; 0])
    <= MaxPtrNumber (MoreExamples.live_state Examples.two_roots) + 1.
Proof.
  assert (LocalScan 100 (Examples.pass_of Examples.two_roots) Examples.two_roots
          = Ok (Examples.two_roots, Examples.scanned_state Examples.two_roots)) as HL.
  { vm_compute. reflexivity. }
  assert (MaxPtrNumber (Examples.scanned_state Examples.two_roots) < 2 ^ 31 - 1)
    as HM by (vm_compute; reflexivity).
  assert (ComputeLiveness 100 Examples.two_roots (Examples.scanned_state Examples.two_roots)
          = Ok (MoreExamples.live_state Examples.two_roots)) as HC.
  { vm_compute. reflexivity. }
  assert (ColorRoots (MoreExamples.live_state Examples.two_roots) = Ok ([0; 0], 0)) as HR.
  { vm_compute. reflexivity. }
  split; [exact HL|].
  exact (proj2 (colours_fit_identifiers _ _ _ _ _ _ _ _ _ HL HM HC HR)).
Defined.

(** ** From a def whose bit is set to the abort of the pass *)

Section SSAViolationPath.
Variable P : LateLowerGCFrame.

Lemma NoteDefs_Abort BB sps R msg l :
  foldl (fun r Num => S ← r; S ← NoteDef S BB Num sps; Ok (refine S Num R)) (Abort msg) l
  = Abort msg.
Proof. induction l as [|x l IH]; [done|]. simpl. exact IH. Qed.

(** The loop of MaybeNoteDef over the identifiers stops at the first def
    that NoteDef refuses. *)
Lemma NoteDefs_abort S BB Nums sps R (j : nat) Num S' msg :
  Nums !! j = Some Num -> NoteDefs S BB (take j Nums) sps R = Ok S' ->
  NoteDef S' BB Num sps = Abort msg ->
  NoteDefs S BB Nums sps R = Abort msg.
Proof.
  intros Hj Hpre Hab. unfold NoteDefs in *.
  rewrite <- (take_drop_middle Nums j Num Hj), foldl_app, Hpre. simpl.
  rewrite Hab. simpl. apply NoteDefs_Abort.
Qed.

(** MaybeNoteDef numbers the value and then records the defs. *)
Lemma MaybeNoteDef_split fuel F S BB Def sps R :
  MaybeNoteDef fuel P F S BB Def sps R =
  ('(Nums, F, S) ← MaybeNoteDef_numbers fuel P F S Def;
   S ← NoteDefs S BB Nums sps R;
   Ok (F, S)).
Proof.
  unfold MaybeNoteDef, MaybeNoteDef_numbers, NoteDefs. cbv zeta.
  destruct (isSpecialPtr _ _).
  { destruct (assert _ _) as [?|?|]; simpl; [|done..].
    destruct (Number fuel P F S Def) as [[[Num F1] S1]| |]; simpl; [|done..].
    by destruct (NoteDef S1 BB Num sps). }
  destruct (isUnionRep _ _).
  { destruct (Number fuel P F S Def) as [[[Num F1] S1]| |]; simpl; [|done..].
    by destruct (NoteDef S1 BB Num sps). }
  destruct (isSpecialPtrVec _ _); [|done].
  by destruct (NumberVector fuel P F S Def) as [[Nums S1]| |].
Qed.

(** An abort of MaybeNoteDef on an instruction is the abort of the body of
    the loop for it. *)
Lemma scan_inst_def_abort fuel F S BB Inst R F0 S0 msg :
  scan_inst_def fuel P F S Inst = Some (Ok (R, F0, S0)) ->
  MaybeNoteDef fuel P F0 S0 BB Inst (Safepoints (getBBS S0 BB)) R = Abort msg ->
  scan_inst fuel P F S BB Inst = Abort msg.
Proof.
  unfold scan_inst_def, scan_inst. cbv zeta. destruct (getKind F Inst); try done.
  - (* load *) intros [= ->]. simpl. by intros ->.
  - (* call *)
    destruct (isIntrinsicCall F callee); [done|]. intros [= <- <- <-]. by intros ->.
  - (* select *)
    destruct (negb (isSpecialPtr _ _)); [done|]. destruct (negb (_ =? _)); [done|].
    intros [= <- <- <-]. by intros ->.
  - (* phi *)
    destruct (negb (isSpecialPtr _ _)); [done|]. destruct (negb (_ =? _)); [done|].
    intros [= <- <- <-]. by intros ->.
  - (* addrspacecast *)
    destruct (_ =? _); [|done]. intros [= <- <- <-]. by intros ->.
Qed.

(** The loop over the instructions goes on from where its first turns
    have come. *)
Lemma scan_block_turns fuel BB (k n : nat) : forall F S it F2 S2 it2,
  scan_turns k fuel P F S BB it = Ok (F2, S2, it2) ->
  scan_block (k + n) fuel P F S BB it = scan_block n fuel P F2 S2 BB it2.
Proof.
  induction k as [|k IH]; intros F S it F2 S2 it2.
  - simpl. by intros [= <- <- <-].
  - destruct it as [Inst|].
    + simpl. destruct (scan_inst fuel P F S BB Inst) as [[F1 S1]| |]; simpl; [|done..].
      apply IH.
    + simpl. intros [= <- <- <-]. by destruct n.
Qed.
End SSAViolationPath.

(** C9, as the code has it.  NoteDef looks at the Defs of the block being
    scanned only: the def of an identifier (an int other than -1) whose bit
    is set there stops with the diagnostic, any other def is recorded
    whatever the Defs of the other blocks hold.  And such a def stops the
    pass: when LocalScan has scanned the blocks before [b], its loop over
    the instructions of [b] has come to [Inst] after [k] turns, the body of
    the loop notes the def of [Inst], MaybeNoteDef gives [Inst] the
    identifiers [Nums] (one for a pointer or a union, several for a
    vector), the defs of the first [j] are recorded and the bit of the
    next, [Num], is set in the Defs of [b], then runOnFunction stops with
    the diagnostic, before any later phase. *)
Theorem SSA_violation_in_scanned_block_aborts :
  (forall S BB Num sps, Num <> -1 -> - 2 ^ 31 <= Num < 2 ^ 31 ->
     if HasBitSet (Defs (getBBS S BB)) Num
     then NoteDef S BB Num sps = Abort "SSA Violation or misnumbering?"
     else exists S', NoteDef S BB Num sps = Ok S') /\
  (forall sf df P F ptls bs1 b bs2 F1 S1 (k : nat) F2 S2 Inst R F3 S3 Nums F4 S4
          (j : nat) Num S5,
     is_Some (ptls_getter P) -> find_ptlsStates P F = Some ptls ->
     blocks F = bs1 ++ b :: bs2 ->
     foldl (LocalScan_block sf (set_ptlsStates P (Some ptls))) (Ok (F, State_init)) bs1
       = Ok (F1, S1) ->
     (k < sf)%nat ->
     scan_turns k sf (set_ptlsStates P (Some ptls)) F1 (setBBS S1 b.1 (getBBS S1 b.1)) b.1
                (last (getInsts F1 b.1)) = Ok (F2, S2, Some Inst) ->
     scan_inst_def sf (set_ptlsStates P (Some ptls)) F2 S2 Inst = Some (Ok (R, F3, S3)) ->
     MaybeNoteDef_numbers sf (set_ptlsStates P (Some ptls)) F3 S3 Inst = Ok (Nums, F4, S4) ->
     Nums !! j = Some Num ->
     NoteDefs S4 b.1 (take j Nums) (Safepoints (getBBS S3 b.1)) R = Ok S5 ->
     Num <> -1 -> - 2 ^ 31 <= Num < 2 ^ 31 ->
     HasBitSet (Defs (getBBS S5 b.1)) Num = true ->
     runOnFunction sf df P F = Abort "SSA Violation or misnumbering?").
Proof.
  split; [exact NoteDef_checks_own_block|].
  intros sf df P F ptls bs1 b bs2 F1 S1 k F2 S2 Inst R F3 S3 Nums F4 S4 j Num S5
         Hg Hp Hb Hpre Hk Hturns Hdef Hnum Hj Hdefs Hne Hint Hbit.
  apply (runOnFunction_abort sf df P F ptls _ Hg Hp).
  apply (LocalScan_abort sf _ F bs1 b bs2 F1 S1 _ Hb Hpre).
  replace sf with (k + Datatypes.S (sf - k - 1))%nat at 1 by lia.
  rewrite (scan_block_turns _ _ _ _ _ _ _ _ _ _ _ Hturns). simpl.
  assert (scan_inst sf (set_ptlsStates P (Some ptls)) F2 S2 b.1 Inst
          = Abort "SSA Violation or misnumbering?") as ->; [|done].
  apply (scan_inst_def_abort _ _ _ _ _ _ _ _ _ _ Hdef).
  rewrite MaybeNoteDef_split, Hnum. simpl.
  assert (NoteDefs S4 b.1 Nums (Safepoints (getBBS S3 b.1)) R
          = Abort "SSA Violation or misnumbering?") as ->; [|done].
  apply (NoteDefs_abort _ _ _ _ _ j Num S5 _ Hj Hdefs).
  pose proof (NoteDef_checks_own_block S5 b.1 Num (Safepoints (getBBS S3 b.1)) Hne Hint) as H.
  by rewrite Hbit in H.
Qed.

Lemma SSA_violation_in_scanned_block_aborts_witness :
  NoteDef (Examples.scanned_state Examples.cast_back) 0%nat 0 []
    = Abort "SSA Violation or misnumbering?" /\
  (exists S', NoteDef (Examples.scanned_state Examples.cast_back) 2%nat 0 [] = Ok S') /\
  runOnFunction 100 100 (doInitialization Examples.cfg Examples.cast_back_one_block).1
                Examples.cast_back_one_block
    = Abort "SSA Violation or misnumbering?".
Proof.
  destruct SSA_violation_in_scanned_block_aborts as [HN HR].
  split; [|split].
  - apply (HN (Examples.scanned_state Examples.cast_back) 0%nat 0 []); lia.
  - apply (HN (Examples.scanned_state Examples.cast_back) 2%nat 0 []); lia.
  - (* the load 11 is scanned after the cast 14 of its value back to a
       tracked pointer, which has the identifier of the load *)
    set (P := (doInitialization Examples.cfg Examples.cast_back_one_block).1).
    set (F := Examples.cast_back_one_block).
    let t := eval vm_compute in
      (scan_turns 3 100 (set_ptlsStates P (Some 10%nat)) F
                  (setBBS State_init 0%nat (getBBS State_init 0%nat)) 0%nat
                  (last (getInsts F 0%nat))) in
    match t with
    | Ok (?F2, ?S2, Some ?I) =>
        let u := eval vm_compute in
          (MaybeNoteDef_numbers 100 (set_ptlsStates P (Some 10%nat)) F2 S2 I) in
        match u with
        | Ok (?Nums, ?F4, ?S4) =>
            apply (HR 100%nat 100%nat P F 10%nat [] (0%nat, [10; 11; 12; 14; 15]%nat) []
                      F State_init 3%nat F2 S2 I (-2) F2 S2 Nums F4 S4 0%nat 0 S4)
        end
    end.
    + vm_compute. eexists. reflexivity.
    + vm_compute. reflexivity.
    + vm_compute. reflexivity.
    + vm_compute. reflexivity.
    + lia.
    + vm_compute. reflexivity.
    + vm_compute. reflexivity.
    + vm_compute. reflexivity.
    + vm_compute. reflexivity.
    + vm_compute. reflexivity.
    + lia.
    + lia.
    + vm_compute. reflexivity.
Defined.

(** ** What the stores into the frame store, and where *)

Section InsertedInto.
Implicit Types F G : Function.

Lemma before_insert_before (pos I x y : Value) l :
  before l x y -> before (insert_before pos I l) x y.
Proof.
  intros (l1 & l2 & -> & Hy). induction l1 as [|a l1 IH]; simpl.
  - case_decide.
    + exists [I], l2. by split.
    + exists [], (insert_before pos I l2). split; [done|]. by apply elem_of_insert_before.
  - case_decide.
    + exists (I :: a :: l1), l2. by split.
    + destruct IH as (k1 & k2 & -> & Hk). exists (a :: k1), k2. by split.
Qed.

Lemma before_new (pos I : Value) l : pos ∈ l -> before (insert_before pos I l) I pos.
Proof.
  induction l as [|x l IH]; [by intros ?%elem_of_nil|]. simpl. case_decide as Hx.
  - intros _. subst x. exists [], (pos :: l). split; [done|]. by left.
  - intros [->|Hin]%elem_of_cons; [done|]. destruct (IH Hin) as (k1 & k2 & -> & Hk).
    exists (x :: k1), k2. by split.
Qed.

Lemma placed_before_createBefore F pos k t (I p : Value) :
  (p < next_value F)%nat -> placed_before F I p ->
  placed_before (createBefore F pos k t).1 I p.
Proof.
  intros Hp H b. unfold createBefore. simpl.
  intros ([B l] & -> & Hb)%list_elem_of_fmap. simpl.
  intros [Hin| ->]%elem_of_insert_before_inv; [|lia].
  apply before_insert_before. by apply (H (B, l)).
Qed.

Lemma placed_before_new F pos k t :
  (pos < next_value F)%nat ->
  placed_before (createBefore F pos k t).1 (createBefore F pos k t).2 pos.
Proof.
  intros Hp b. unfold createBefore. simpl.
  intros ([B l] & -> & Hb)%list_elem_of_fmap. simpl.
  intros [Hin|Heq]%elem_of_insert_before_inv; [|lia].
  by apply before_new.
Qed.

Lemma inserted_into_refl F : inserted_into F F.
Proof. split; [apply same_cfg_refl|done]. Qed.

Lemma inserted_into_trans F G H : inserted_into F G -> inserted_into G H -> inserted_into F H.
Proof.
  intros [H1 H2] [H3 H4]. split; [by eapply same_cfg_trans|].
  intros I p Hp Hb. apply H4; [|by apply H2]. destruct H1 as [[Hn _] _]. lia.
Qed.

Lemma inserted_into_addValue F k t : inserted_into F (addValue F k t).1.
Proof. split; [apply same_cfg_addValue|done]. Qed.

Lemma inserted_into_createBefore F pos k t : inserted_into F (createBefore F pos k t).1.
Proof.
  split; [apply same_cfg_createBefore|]. intros I p. apply placed_before_createBefore.
Qed.

Lemma inserted_into_next F G : inserted_into F G -> (next_value F <= next_value G)%nat.
Proof. by intros [[[Hn _] _] _]. Qed.

Lemma inserted_into_extends F G : inserted_into F G -> extends F G.
Proof. by intros [[He _] _]. Qed.

Lemma root_value_extends F G (v Val : Value) :
  extends F G -> root_value F v Val -> root_value G v Val.
Proof.
  intros He (V0 & V1 & H0 & H1 & H2). pose proof He as [Hn _]. exists V0, V1.
  split; [|split].
  - destruct H0 as [?|(Hlt & c & Hk)]; [by left|right]. split; [lia|]. exists c.
    by rewrite (extends_getKind F G).
  - destruct H1 as [?|(Hlt & Hk)]; [by left|right]. split; [lia|].
    by rewrite (extends_getKind F G).
  - destruct H2 as [?|(Hlt & Hk)]; [by left|right]. split; [lia|].
    by rewrite (extends_getKind F G).
Qed.

Lemma root_store_extends F G GCFrame n (v st : Value) :
  extends F G -> root_store F GCFrame n v st -> root_store G GCFrame n v st.
Proof.
  intros He (Val & gep & slot & H1 & H2 & H3 & H4 & H5 & H6 & H7). pose proof He as [Hn _].
  exists Val, gep, slot. rewrite !(extends_getKind F G) by done.
  repeat split; try done; try lia. by apply (root_value_extends F G).
Qed.

Lemma GetPtrForNumber_value P F S Num pos F' (Val : Value) :
  GetPtrForNumber P F S Num pos = Ok (F', Val) ->
  inserted_into F F' /\
  exists v : Value, ReversePtrNumbering S !! Num = Some v /\
    (Val = v \/ ((Val < next_value F')%nat /\ exists c, getKind F' Val = ExtractElementInst v c)).
Proof.
  unfold GetPtrForNumber. destruct (ReversePtrNumbering S !! Num) as [V|]; [|done].
  case_match.
  2:{ intros [= <- <-]. split; [apply inserted_into_refl|]. exists V. split; [done|by left]. }
  set (Idx := match list_find _ _ with Some (i, _) => i | None => _ end).
  pose proof (inserted_into_addValue F (ConstantInt (Z.of_nat Idx)) (IntegerTy 32)) as H1.
  destruct (addValue F (ConstantInt (Z.of_nat Idx)) (IntegerTy 32)) as [F1 c].
  cbv beta iota zeta. cbn [fst snd] in H1.
  match goal with |- Ok (createBefore ?a ?b ?c ?d) = _ -> _ =>
    pose proof (inserted_into_createBefore a b c d) as H2;
    destruct (createBefore_lookup a b c d) as (Hg1 & Hg2 & Hg3);
    destruct (createBefore a b c d) as [F2 x] end.
  cbn [fst snd] in *. intros [= <- <-]. split; [by eapply inserted_into_trans|].
  exists V. split; [done|]. right. subst x. split; [lia|]. exists c.
  by rewrite (getKind_Some _ _ _ Hg3).
Qed.
End InsertedInto.

Section RootStores.
Variables (P : LateLowerGCFrame) (S : State) (MinColorRoot : Z) (Colors : list Z)
          (GCFrame : Value).

Lemma PlaceGCFrameStore_root F R pos F' (st : Value) :
  PlaceGCFrameStore P F S R MinColorRoot Colors GCFrame pos = Ok (F', st) ->
  inserted_into F F' /\
  exists v : Value, ReversePtrNumbering S !! R = Some v /\
    root_store F' GCFrame (to_unsigned (getColor Colors R + MinColorRoot)) v st /\
    ((pos < next_value F)%nat -> placed_before F' st pos).
Proof.
  unfold PlaceGCFrameStore. destruct (T_prjlvalue P) as [T|]; [|done].
  destruct (GetPtrForNumber P F S R pos) as [[F1 Val]| |] eqn:E1; bind_ok; [|done..].
  apply GetPtrForNumber_value in E1 as (H1 & v & Hv & HVal).
  set (n := to_unsigned (getColor Colors R + MinColorRoot)).
  pose proof (inserted_into_addValue F1 (ConstantInt n) (T_int32 P)) as H2.
  assert (values (addValue F1 (ConstantInt n) (T_int32 P)).1 !! next_value F1
          = Some (mkValue (ConstantInt n) (T_int32 P)) /\
          next_value (addValue F1 (ConstantInt n) (T_int32 P)).1
          = Datatypes.S (next_value F1) /\
          (addValue F1 (ConstantInt n) (T_int32 P)).2 = next_value F1) as (Hs1 & Hs2 & Hs3).
  { unfold addValue. cbn [fst snd values next_value]. by rewrite lookup_insert_eq. }
  destruct (addValue F1 (ConstantInt n) (T_int32 P)) as [F2 slot].
  cbn [fst snd] in H2, Hs1, Hs2, Hs3. subst slot.
  pose proof (inserted_into_createBefore F2 pos (GetElementPtrInst GCFrame [next_value F1])
                (PointerTy T 0)) as H3.
  destruct (createBefore_lookup F2 pos (GetElementPtrInst GCFrame [next_value F1])
              (PointerTy T 0)) as (Hg1 & Hg2 & Hg3).
  destruct (createBefore F2 pos _ _) as [F3 gep]. cbn [fst snd] in H3, Hg1, Hg2, Hg3. subst gep.
  (* the extractvalue of a union *)
  assert (exists F4 Val4 : _, MaybeExtractUnion (AddressSpace P) F3 Val pos = (F4, Val4) /\
            inserted_into F3 F4 /\
            (Val4 = Val \/ ((Val4 < next_value F4)%nat /\
                            getKind F4 Val4 = ExtractValueInst Val [0%nat])))
    as (F4 & Val4 & -> & H4 & HVal4).
  { unfold MaybeExtractUnion. destruct (isUnionRep _ _).
    - pose proof (inserted_into_createBefore F3 pos (ExtractValueInst Val [0%nat])
                    (firstElementType (getType F3 Val))) as H4.
      destruct (createBefore_lookup F3 pos (ExtractValueInst Val [0%nat])
                  (firstElementType (getType F3 Val))) as (Hx1 & Hx2 & Hx3).
      destruct (createBefore F3 pos _ _) as [F4 Val4]. cbn [fst snd] in *. subst Val4.
      exists F4, (next_value F3). split; [done|]. split; [done|]. right.
      split; [lia|]. by rewrite (getKind_Some _ _ _ Hx3).
    - exists F3, Val. split; [done|]. split; [apply inserted_into_refl|by left]. }
  (* the bitcast to T_prjlvalue *)
  assert (exists F5 Val5 : _,
            (if negb (Ty_eqb (getType F4 Val4) T)
             then createBefore F4 pos (BitCastInst Val4) T else (F4, Val4)) = (F5, Val5) /\
            inserted_into F4 F5 /\
            (Val5 = Val4 \/ ((Val5 < next_value F5)%nat /\ getKind F5 Val5 = BitCastInst Val4)))
    as (F5 & Val5 & -> & H5 & HVal5).
  { destruct (negb _).
    - pose proof (inserted_into_createBefore F4 pos (BitCastInst Val4) T) as H5.
      destruct (createBefore_lookup F4 pos (BitCastInst Val4) T) as (Hx1 & Hx2 & Hx3).
      destruct (createBefore F4 pos _ _) as [F5 Val5]. cbn [fst snd] in *. subst Val5.
      exists F5, (next_value F4). split; [done|]. split; [done|]. right.
      split; [lia|]. by rewrite (getKind_Some _ _ _ Hx3).
    - exists F4, Val4. split; [done|]. split; [apply inserted_into_refl|by left]. }
  pose proof (inserted_into_createBefore F5 pos (StoreInst Val5 (next_value F2)) VoidTy) as H6.
  pose proof (placed_before_new F5 pos (StoreInst Val5 (next_value F2)) VoidTy) as Hpl.
  destruct (createBefore_lookup F5 pos (StoreInst Val5 (next_value F2)) VoidTy)
    as (Ht1 & Ht2 & Ht3).
  destruct (createBefore F5 pos _ _) as [F6 st6]. cbn [fst snd] in H6, Hpl, Ht1, Ht2, Ht3.
  subst st6. intros [= <- <-].
  pose proof (inserted_into_next _ _ H1) as Hn1.
  pose proof (inserted_into_next _ _ H2) as Hn2.
  pose proof (inserted_into_next _ _ H3) as Hn3.
  pose proof (inserted_into_next _ _ H4) as Hn4.
  pose proof (inserted_into_next _ _ H5) as Hn5.
  pose proof (inserted_into_next _ _ H6) as Hn6.
  split; [eauto 10 using inserted_into_trans|].
  exists v. split; [done|]. split; [|intros Hpos; apply Hpl; lia].
  assert (extends F3 F6) as He36.
  { eapply extends_trans; [apply (inserted_into_extends _ _ H4)|].
    eapply extends_trans; [apply (inserted_into_extends _ _ H5)|].
    apply (inserted_into_extends _ _ H6). }
  exists Val5, (next_value F2), (next_value F1).
  rewrite (getKind_Some _ _ _ Ht3).
  rewrite !(extends_getKind F3 F6) by (done || lia).
  rewrite (getKind_Some _ _ _ Hg3).
  rewrite (extends_getKind F2 F3) by (apply (inserted_into_extends _ _ H3) || lia).
  rewrite (getKind_Some _ _ _ Hs1). simpl.
  repeat split; try done; try lia.
  (* the value stored *)
  assert (extends F1 F6) as He16.
  { eapply extends_trans; [apply (inserted_into_extends _ _ H2)|].
    eapply extends_trans; [apply (inserted_into_extends _ _ H3)|]. exact He36. }
  assert (extends F4 F6) as He46.
  { eapply extends_trans; [apply (inserted_into_extends _ _ H5)|].
    apply (inserted_into_extends _ _ H6). }
  exists Val, Val4. split; [|split].
  - destruct HVal as [?|(Hlt & c & Hk)]; [by left|right]. split; [lia|]. exists c.
    by rewrite (extends_getKind F1 F6).
  - destruct HVal4 as [?|(Hlt & Hk)]; [by left|right]. split; [lia|].
    by rewrite (extends_getKind F4 F6).
  - destruct HVal5 as [?|(Hlt & Hk)]; [by left|right]. split; [lia|].
    by rewrite (extends_getKind F5 F6) by (apply (inserted_into_extends _ _ H6) || done).
Qed.

Variable F0 : Function.

Lemma root_stored_mono F F' stores stores' R sp :
  (next_value F0 <= next_value F)%nat ->
  inserted_into F F' -> (forall st, st ∈ stores -> st ∈ stores') ->
  root_stored S MinColorRoot Colors GCFrame F0 F stores R sp ->
  root_stored S MinColorRoot Colors GCFrame F0 F' stores' R sp.
Proof.
  intros Hn [Hc Ho] Hs (st & CI & v & Hin & HCI & Hv & Hst & Hpl).
  exists st, CI, v. split; [by apply Hs|]. split; [done|]. split; [done|]. split.
  - eapply root_store_extends; [apply Hc|done].
  - intros Hlt. apply Ho; [lia|by apply Hpl].
Qed.

Lemma store_loop_root (LastLive : BitVector) (sp : Z) (pos : Value) (l : list nat) :
  ReverseSafepointNumbering S !! Z.to_nat sp = Some pos ->
  forall F stores F' stores',
  (next_value F0 <= next_value F)%nat ->
  foldl (fun r (Idx : nat) =>
           '(F, stores) ← r;
           if negb (HasBitSet LastLive (Z.of_nat Idx)) then
             '(F, st) ← PlaceGCFrameStore P F S (Z.of_nat Idx) MinColorRoot Colors
                                          GCFrame pos;
             Ok (F, stores ++ [st])
           else Ok (F, stores))
        (Ok (F, stores)) l = Ok (F', stores') ->
  inserted_into F F' /\ (forall st, st ∈ stores -> st ∈ stores') /\
  (forall R, R ∈ l -> BV.test LastLive R = false ->
     root_stored S MinColorRoot Colors GCFrame F0 F' stores' R sp).
Proof.
  intros Hpos. induction l as [|Idx l IH]; intros F stores F' stores' Hn.
  - simpl. intros [= <- <-]. split; [apply inserted_into_refl|]. split; [done|].
    by intros ? ?%elem_of_nil.
  - intros E. apply foldl_Res_cons in E as ([F1 stores1] & E1 & E2); [|done..].
    revert E1. bind_ok.
    assert (HasBitSet LastLive (Z.of_nat Idx) = BV.test LastLive Idx) as ->.
    { unfold HasBitSet. rewrite Nat2Z.id. by destruct (Z.leb_spec 0 (Z.of_nat Idx)); [|lia]. }
    destruct (BV.test LastLive Idx) eqn:Ht; simpl.
    + intros [= <- <-]. destruct (IH _ _ _ _ Hn E2) as (Hc2 & Hs2 & Hcov2).
      split; [done|]. split; [done|].
      intros R [->|HR]%elem_of_cons Hf; [congruence|by apply Hcov2].
    + destruct (PlaceGCFrameStore _ _ _ _ _ _ _ _) as [[F2 st]| |] eqn:E3; bind_ok; [|done..].
      intros [= <- <-]. apply PlaceGCFrameStore_root in E3 as (Hc1 & v & Hv & Hst & Hpl).
      pose proof (inserted_into_next _ _ Hc1) as Hn1.
      assert (next_value F0 <= next_value F2)%nat as Hn01 by lia.
      destruct (IH _ _ _ _ Hn01 E2) as (Hc2 & Hs2 & Hcov2).
      split; [by eapply inserted_into_trans|]. split.
      { intros st' Hin. apply Hs2, elem_of_app. by left. }
      intros R [->|HR]%elem_of_cons Hf; [|by apply Hcov2].
      apply (root_stored_mono F2 F' (stores ++ [st]) stores'); [lia|done|done|].
      exists st, pos, v. split; [apply elem_of_app; right; by apply list_elem_of_singleton|].
      split; [done|]. split; [done|]. split; [done|]. intros Hlt. apply Hpl. lia.
Qed.

Lemma PlaceStores_safepoint_root F LL stores sp F' LL' stores' :
  (next_value F0 <= next_value F)%nat ->
  PlaceStores_safepoint P S MinColorRoot Colors GCFrame (Ok (F, LL, stores)) sp
    = Ok (F', LL', stores') ->
  LL' = LiveSet_at S sp /\ inserted_into F F' /\ (forall st, st ∈ stores -> st ∈ stores') /\
  (forall R, BV.test (LiveSet_at S sp) R = true -> BV.test LL R = false ->
     root_stored S MinColorRoot Colors GCFrame F0 F' stores' R sp).
Proof.
  intros Hn. unfold PlaceStores_safepoint. bind_ok.
  destruct (ReverseSafepointNumbering S !! Z.to_nat sp) as [pos|] eqn:Hpos; [|done].
  destruct (foldl _ _ _) as [[F1 sts1]| |] eqn:E; bind_ok; [|done..].
  intros [= <- <- <-]. apply (store_loop_root _ sp pos _ Hpos _ _ _ _ Hn) in E as (Hc & Hs & Hcov).
  split; [done|]. split; [done|]. split; [done|].
  intros R HR. apply Hcov. by apply BV_elem_of_bits.
Qed.

Lemma safepoints_loop_root (l : list Z) : forall F LL stores F' LL' stores',
  (next_value F0 <= next_value F)%nat ->
  foldl (PlaceStores_safepoint P S MinColorRoot Colors GCFrame) (Ok (F, LL, stores)) l
    = Ok (F', LL', stores') ->
  inserted_into F F' /\ (forall st, st ∈ stores -> st ∈ stores') /\
  (forall (j : nat) sp R, l !! j = Some sp -> BV.test (LiveSet_at S sp) R = true ->
     BV.test (LastLive_at S LL l j) R = false ->
     root_stored S MinColorRoot Colors GCFrame F0 F' stores' R sp).
Proof.
  induction l as [|sp0 l IH]; intros F LL stores F' LL' stores' Hn.
  - simpl. intros [= <- <- <-]. split; [apply inserted_into_refl|]. split; [done|].
    by intros [|?] ? ? ?.
  - intros E. apply foldl_Res_cons in E as ([[F1 LL1] stores1] & E1 & E2); [|done..].
    apply (PlaceStores_safepoint_root _ _ _ _ _ _ _ Hn) in E1 as (-> & Hc1 & Hs1 & Hcov1).
    pose proof (inserted_into_next _ _ Hc1) as Hn1.
    assert (next_value F0 <= next_value F1)%nat as Hn01 by lia.
    destruct (IH _ _ _ _ _ _ Hn01 E2) as (Hc2 & Hs2 & Hcov2). clear IH E2.
    split; [by eapply inserted_into_trans|]. split; [by intros st ?; apply Hs2, Hs1|].
    intros [|j] sp R Hj HR Hf; simpl in Hj, Hf.
    + injection Hj as <-. apply (root_stored_mono F1 F' stores1 stores'); [lia|done|done|].
      by apply Hcov1.
    + apply (Hcov2 j sp R Hj HR). destruct j as [|j]; simpl in *; done.
Qed.

Lemma blocks_loop_root (bs : list (BasicBlock * list Value)) : forall F stores F' stores',
  (next_value F0 <= next_value F)%nat ->
  foldl (fun r (b : BasicBlock * list Value) =>
           '(F, stores) ← r;
           let BBS := getBBS S b.1 in
           if negb (HasSafepoint BBS) then Ok (F, stores)
           else
             LiveIn ← AddInPredLiveOuts F S b.1;
             '(F, _, stores) ←
               foldl (PlaceStores_safepoint P S MinColorRoot Colors GCFrame)
                     (Ok (F, LiveIn, stores)) (rev (Safepoints BBS));
             Ok (F, stores))
        (Ok (F, stores)) bs = Ok (F', stores') ->
  inserted_into F F' /\ (forall st, st ∈ stores -> st ∈ stores') /\
  (forall b, b ∈ bs -> HasSafepoint (getBBS S b.1) = true ->
     exists Fa LiveIn, same_cfg F Fa /\ AddInPredLiveOuts Fa S b.1 = Ok LiveIn /\
       forall (j : nat) sp R, rev (Safepoints (getBBS S b.1)) !! j = Some sp ->
         BV.test (LiveSet_at S sp) R = true ->
         BV.test (LastLive_at S LiveIn (rev (Safepoints (getBBS S b.1))) j) R = false ->
         root_stored S MinColorRoot Colors GCFrame F0 F' stores' R sp).
Proof.
  induction bs as [|b0 bs IH]; intros F stores F' stores' Hn.
  - simpl. intros [= <- <-]. split; [apply inserted_into_refl|]. split; [done|].
    by intros ? ?%elem_of_nil.
  - intros E. apply foldl_Res_cons in E as ([F1 stores1] & E1 & E2); [|done..].
    revert E1. bind_ok. destruct (HasSafepoint (getBBS S b0.1)) eqn:Hsp; simpl.
    + destruct (AddInPredLiveOuts F S b0.1) as [LiveIn| |] eqn:EL; bind_ok; [|done..].
      destruct (foldl (PlaceStores_safepoint _ _ _ _ _) _ _) as [[[F2 LL2] sts2]| |] eqn:E3;
        bind_ok; [|done..].
      intros [= <- <-]. apply (safepoints_loop_root _ _ _ _ _ _ _ Hn) in E3 as (Hc1 & Hs1 & Hcov1).
      pose proof (inserted_into_next _ _ Hc1) as Hn1.
      assert (next_value F0 <= next_value F2)%nat as Hn01 by lia.
      destruct (IH _ _ _ _ Hn01 E2) as (Hc2 & Hs2 & Hcov2). clear IH E2.
      split; [by eapply inserted_into_trans|]. split; [by intros st ?; apply Hs2, Hs1|].
      intros b [->|Hb]%elem_of_cons Hb'.
      * exists F, LiveIn. split; [apply same_cfg_refl|]. split; [done|].
        intros j sp R Hj HR Hf. apply (root_stored_mono F2 F' sts2 stores'); [lia|done|done|].
        by eapply Hcov1.
      * destruct (Hcov2 b Hb Hb') as (Fa & LiveIn' & Hca & HLa & Hcova).
        exists Fa, LiveIn'. split; [|done]. eapply same_cfg_trans; [apply Hc1|done].
    + intros [= <- <-]. destruct (IH _ _ _ _ Hn E2) as (Hc2 & Hs2 & Hcov2).
      split; [done|]. split; [done|].
      intros b [->|Hb]%elem_of_cons Hb'; [congruence|by apply Hcov2].
Qed.
End RootStores.

(** A block of [F] that holds [v] has a block of the same name in [F']
    that holds it. *)
Lemma same_cfg_block F F' b (v : Value) :
  same_cfg F F' -> b ∈ blocks F -> v ∈ b.2 ->
  exists b', b' ∈ blocks F' /\ b'.1 = b.1 /\ v ∈ b'.2.
Proof.
  intros [_ H] Hb Hv. induction H as [|b0 b0' l l' (H1 & _ & H3 & _) _ IH].
  - by apply elem_of_nil in Hb.
  - apply elem_of_cons in Hb as [->|Hb].
    + exists b0'. split; [by left|]. split; [done|by apply H3].
    + destruct (IH Hb) as (b' & Hb' & ?). exists b'. split; [by right|done].
Qed.

(** X12.  PlaceGCFrameStores stores every identifier that becomes live.  For
    a block with a safepoint, walking its safepoints from the top, let [R]
    be in the live set of safepoint [sp] and not in the live set before it
    (the result of AddInPredLiveOuts for the first safepoint, the live set
    of the safepoint above for the others).  Then among the stores created
    is one that stores the value of [R], ReversePtrNumbering[R] (behind
    the extractelement, extractvalue and bitcast that PlaceGCFrameStore
    makes), to slot Colors[R] + MinColorRoot of the frame, and in every
    block that holds the call of the safepoint,
    ReverseSafepointNumbering[sp], the store comes before the call. *)
Theorem newly_live_roots_are_stored (P : LateLowerGCFrame) (F : Function) (S : State)
    (MinColorRoot : Z) (Colors : list Z) (GCFrame : Value) (F' : Function)
    (stores : list Value) :
  insts_below F ->
  PlaceGCFrameStores P F S MinColorRoot Colors GCFrame = Ok (F', stores) ->
  forall b, b ∈ blocks F -> HasSafepoint (getBBS S b.1) = true ->
    exists LiveIn, AddInPredLiveOuts F S b.1 = Ok LiveIn /\
      forall (j : nat) sp (R : nat),
        rev (Safepoints (getBBS S b.1)) !! j = Some sp ->
        BV.test (LiveSet_at S sp) R = true ->
        BV.test (LastLive_at S LiveIn (rev (Safepoints (getBBS S b.1))) j) R = false ->
        exists st CI v : Value,
          st ∈ stores /\
          ReverseSafepointNumbering S !! Z.to_nat sp = Some CI /\
          ReversePtrNumbering S !! Z.of_nat R = Some v /\
          root_store F' GCFrame (to_unsigned (getColor Colors (Z.of_nat R) + MinColorRoot))
                     v st /\
          forall b0, b0 ∈ blocks F -> CI ∈ b0.2 ->
            exists b1, b1 ∈ blocks F' /\ b1.1 = b0.1 /\ before b1.2 st CI.
Proof.
  unfold PlaceGCFrameStores. intros Hbelow E b Hb Hsp.
  apply (blocks_loop_root P S MinColorRoot Colors GCFrame F) in E as ([Hcfg _] & _ & Hcov);
    [|done].
  destruct (Hcov b Hb Hsp) as (Fa & LiveIn & Hc & HL & H).
  exists LiveIn. split; [by rewrite <- (same_cfg_AddInPredLiveOuts F Fa Hc Hbelow)|].
  intros j sp R Hj HR Hf.
  destruct (H j sp R Hj HR Hf) as (st & CI & v & Hin & HCI & Hv & Hst & Hpl).
  exists st, CI, v. split; [done|]. split; [done|]. split; [done|]. split; [done|].
  intros b0 Hb0 HCI0.
  destruct (same_cfg_block F F' b0 CI Hcfg Hb0 HCI0) as (b1 & Hb1 & Hname & Hin1).
  exists b1. split; [done|]. split; [done|]. apply Hpl; [|done..].
  unfold insts_below in Hbelow. rewrite Forall_forall in Hbelow.
  specialize (Hbelow b0 Hb0). rewrite Forall_forall in Hbelow. by apply Hbelow.
Qed.

Lemma newly_live_roots_are_stored_witness :
  insts_below Examples.two_roots /\
  PlaceGCFrameStores (Examples.pass_of Examples.two_roots) Examples.two_roots
    (MoreExamples.live_state Examples.two_roots) 2
    (MoreExamples.colors_of Examples.two_roots) 3%nat
    = Ok ((MoreExamples.stores_of Examples.two_roots).1,
          (MoreExamples.stores_of Examples.two_roots).2) /\
  exists st CI v : Value,
    st ∈ (MoreExamples.stores_of Examples.two_roots).2 /\
    ReverseSafepointNumbering (MoreExamples.live_state Examples.two_roots) !! Z.to_nat 1
      = Some CI /\
    ReversePtrNumbering (MoreExamples.live_state Examples.two_roots) !! Z.of_nat 1 = Some v /\
    root_store (MoreExamples.stores_of Examples.two_roots).1 3%nat
      (to_unsigned (getColor (MoreExamples.colors_of Examples.two_roots) (Z.of_nat 1) + 2))
      v st /\
    forall b0, b0 ∈ blocks Examples.two_roots -> CI ∈ b0.2 ->
      exists b1, b1 ∈ blocks (MoreExamples.stores_of Examples.two_roots).1 /\
                 b1.1 = b0.1 /\ before b1.2 st CI.
Proof.
  assert (insts_below Examples.two_roots) as HB.
  { unfold insts_below. apply (bool_decide_unpack _). vm_compute. reflexivity. }
  assert (PlaceGCFrameStores (Examples.pass_of Examples.two_roots) Examples.two_roots
            (MoreExamples.live_state Examples.two_roots) 2
            (MoreExamples.colors_of Examples.two_roots) 3%nat
          = Ok ((MoreExamples.stores_of Examples.two_roots).1,
                (MoreExamples.stores_of Examples.two_roots).2)) as HP.
  { vm_compute. reflexivity. }
  assert ((0%nat, [10; 11; 12; 13; 14; 15]%nat) ∈ blocks Examples.two_roots) as Hin.
  { vm_compute. left. }
  assert (HasSafepoint (getBBS (MoreExamples.live_state Examples.two_roots) 0%nat) = true)
    as Hsp by (vm_compute; reflexivity).
  split; [exact HB|]. split; [exact HP|].
  destruct (newly_live_roots_are_stored _ _ _ _ _ _ _ _ HB HP _ Hin Hsp) as (LiveIn & HL & H).
  (* identifier 1, the load 11, becomes live at safepoint 1, the call 12 *)
  apply (H 1%nat 1 1%nat).
  - vm_compute. reflexivity.
  - vm_compute. reflexivity.
  - vm_compute. reflexivity.
Defined.

(** ** Lifting keeps the function well formed *)

Section WellFormed.
Variable A : AddressSpaces.
Implicit Types F G : Function.

Lemma getKind_absent F (x : Value) : values F !! x = None -> getKind F x = OtherInst [].
Proof. intros H. unfold getKind. by rewrite H. Qed.

Lemma base_step_absent F (x : Value) : values F !! x = None -> base_step A F x = None.
Proof. intros H. unfold base_step. by rewrite (getKind_absent F x H). Qed.

Lemma base_step_exists F (x y : Value) :
  fresh F -> base_step A F x = Some y -> (x < next_value F)%nat.
Proof.
  intros Hf H. apply Hf. destruct (values F !! x) eqn:E; [by eexists|].
  by rewrite base_step_absent in H.
Qed.

Lemma pointer_exists F (x : Value) :
  fresh F -> isPointerTy (getType F x) = true -> (x < next_value F)%nat.
Proof.
  intros Hf H. apply Hf. destruct (values F !! x) eqn:E; [by eexists|].
  by rewrite (getType_None F x E) in H.
Qed.

(** A new value whose operands are values, and which, if it is a cast, is
    no union and casts a value where the search ends. *)
Lemma well_formed_new F F' k t :
  well_formed A F ->
  values F' = <[next_value F := mkValue k t]> (values F) ->
  next_value F' = Datatypes.S (next_value F) ->
  (forall o, o ∈ operands k -> (o < next_value F)%nat) ->
  (forall y, base_step A F' (next_value F) = Some y ->
     isUnionRep A t = false /\ base_step A F y = None) ->
  well_formed A F' /\ extends F F'.
Proof.
  intros (Hf & Hc & Ht) Hv Hn Hop Hstep.
  assert (extends F F') as He.
  { split; [lia|]. intros v Hlt. rewrite Hv. apply lookup_insert_ne. lia. }
  assert (fresh F') as Hf'.
  { intros v. rewrite Hv, Hn, lookup_insert. case_decide; [intros _; lia|].
    intros H'. specialize (Hf v H'). lia. }
  assert (closed F') as Hc'.
  { intros v vi o. rewrite Hv, Hn, lookup_insert. case_decide as Heq.
    - intros [= <-] Ho. simpl in Ho. specialize (Hop o Ho). lia.
    - intros H' Ho. specialize (Hc v vi o H' Ho). lia. }
  split; [|done]. split; [done|]. split; [done|].
  intros x y Hxy.
  pose proof (base_step_exists F' x y Hf' Hxy) as Hx. rewrite Hn in Hx.
  pose proof (base_step_below A F' Hc' x y Hxy) as Hy'.
  destruct (decide (x = next_value F)) as [->|Hne].
  - destruct (Hstep y Hxy) as [Hu Hb].
    assert (getType F' (next_value F) = t) as ->.
    { unfold getType. by rewrite Hv, lookup_insert_eq. }
    split; [done|]. intros _ _.
    assert (y < next_value F)%nat as Hy.
    { apply Hop. unfold base_step, getKind in Hxy. rewrite Hv, lookup_insert_eq in Hxy.
      simpl in Hxy. destruct k; try done; simpl; repeat case_match; simplify_eq; by left. }
    by rewrite (base_step_extends A F F' Hc He y Hy).
  - assert (x < next_value F)%nat as Hx' by lia.
    rewrite (base_step_extends A F F' Hc He x Hx') in Hxy.
    pose proof (base_step_below A F Hc x y Hxy) as Hy.
    destruct (below_get F F' He x Hx') as [_ ->].
    destruct (below_get F F' He y Hy) as [_ ->].
    rewrite (base_step_extends A F F' Hc He y Hy). by apply Ht.
Qed.

Lemma well_formed_addValue F k t :
  well_formed A F ->
  (forall o, o ∈ operands k -> (o < next_value F)%nat) ->
  (forall y, base_step A (addValue F k t).1 (next_value F) = Some y ->
     isUnionRep A t = false /\ base_step A F y = None) ->
  well_formed A (addValue F k t).1.
Proof. intros H1 H2 H3. by apply (well_formed_new F (addValue F k t).1 k t). Qed.

Lemma well_formed_createBefore F pos k t :
  well_formed A F ->
  (forall o, o ∈ operands k -> (o < next_value F)%nat) ->
  (forall y, base_step A (createBefore F pos k t).1 (next_value F) = Some y ->
     isUnionRep A t = false /\ base_step A F y = None) ->
  well_formed A (createBefore F pos k t).1.
Proof. intros H1 H2 H3. by apply (well_formed_new F (createBefore F pos k t).1 k t). Qed.

(** The step of the search at a new value, by its kind. *)
Lemma base_step_new F F' k t :
  values F' !! next_value F = Some (mkValue k t) ->
  match k with
  | BitCastInst _ | AddrSpaceCastInst _ | GetElementPtrInst _ _ | ExtractValueInst _ _ => True
  | _ => base_step A F' (next_value F) = None
  end.
Proof. intros H. unfold base_step. rewrite (getKind_Some _ _ _ H). by destruct k. Qed.

(** The search without the cache ends where there is no further step. *)
Lemma walk_nocache_end F S fuel (y r : Value) c :
  FindBaseValue_loop fuel A F S false y = Some (r, c) -> c = false /\ base_step A F r = None.
Proof.
  revert y. induction fuel as [|fuel IH]; intros y; [done|]. simpl.
  destruct (base_step A F y) as [y'|] eqn:E; [apply IH|]. by intros [= <- <-].
Qed.

Lemma FindBaseValue_nocache_end F S fuel (y r : Value) :
  closed F -> (y < next_value F)%nat ->
  FindBaseValue fuel A F S y false = Ok r ->
  (r < next_value F)%nat /\ base_step A F r = None.
Proof.
  intros Hc Hy. unfold FindBaseValue.
  destruct (FindBaseValue_loop fuel A F S false y) as [[x c]|] eqn:E; [|done].
  pose proof (walk_below A F Hc _ _ _ _ _ _ Hy E) as Hlt.
  apply walk_nocache_end in E as [-> Hb]. destruct (assert _ _); bind_ok; [|done..].
  by intros [= <-].
Qed.
End WellFormed.

Section LiftWellFormed.
Variable A : AddressSpaces.
Implicit Types F G : Function.

Lemma isUnionRep_firstElementType t :
  isUnionRep A t = true -> isUnionRep A (firstElementType t) = false.
Proof.
  destruct t as [| |[|t0 [|t1 [|]]]| | | |]; try done. simpl. by destruct t0.
Qed.

Lemma MaybeExtractUnion_wf F (Val pos : Value) :
  well_formed A F -> (Val < next_value F)%nat -> base_step A F Val = None ->
  well_formed A (MaybeExtractUnion A F Val pos).1 /\
  ((MaybeExtractUnion A F Val pos).2 < next_value (MaybeExtractUnion A F Val pos).1)%nat.
Proof.
  intros Hwf HV Hb. unfold MaybeExtractUnion.
  destruct (isUnionRep A (getType F Val)) eqn:Hu; [|done].
  destruct (createBefore_lookup F pos (ExtractValueInst Val [0%nat])
              (firstElementType (getType F Val))) as (H1 & H2 & H3).
  split; [|rewrite H1, H2; lia].
  apply well_formed_createBefore; [done| |].
  - intros o [->|[]%elem_of_nil]%elem_of_cons. done.
  - intros y Hy. unfold base_step in Hy. rewrite (getKind_Some _ _ _ H3) in Hy. simpl in Hy.
    match type of Hy with (if ?b then _ else _) = _ => destruct b end; [|done].
    injection Hy as <-. split; [by apply isUnionRep_firstElementType|done].
Qed.

Lemma null_wf F t :
  well_formed A F ->
  well_formed A (addValue F ConstantPointerNull t).1 /\
  ((addValue F ConstantPointerNull t).2 < next_value (addValue F ConstantPointerNull t).1)%nat /\
  base_step A (addValue F ConstantPointerNull t).1 (addValue F ConstantPointerNull t).2 = None.
Proof.
  intros Hwf.
  assert (base_step A (addValue F ConstantPointerNull t).1 (next_value F) = None) as Hb.
  { unfold base_step, getKind. simpl. by rewrite lookup_insert_eq. }
  split; [|split; [simpl; lia|exact Hb]].
  apply well_formed_addValue; [done|by intros o ?%elem_of_nil|].
  intros y Hy. by rewrite Hb in Hy.
Qed.

Lemma well_formed_extends_next F G : extends F G -> (next_value F <= next_value G)%nat.
Proof. by intros [? _]. Qed.

(** LiftSelect keeps the function well formed; it gives -1 and leaves the
    state when neither base is tracked, and caches the select and the new
    select otherwise. *)
Lemma LiftSelect_spec fuel F S (SI : Value) n F' S' :
  well_formed A F ->
  LiftSelect fuel A F S SI = Ok (n, F', S') ->
  well_formed A F' /\ extends F F' /\
  exists C T Fv TB FB,
    getKind F SI = SelectInst C T Fv /\
    FindBaseValue fuel A F S T false = Ok TB /\
    FindBaseValue fuel A F S Fv false = Ok FB /\
    ((negb (extractedAddrSpace A F TB =? Tracked A)
      && negb (extractedAddrSpace A F FB =? Tracked A) = true /\ n = -1 /\ S' = S) \/
     (negb (extractedAddrSpace A F TB =? Tracked A)
      && negb (extractedAddrSpace A F FB =? Tracked A) = false /\
      exists SB : Value,
        (next_value F <= SB < next_value F')%nat /\ base_step A F' SB = None /\
        AllVectorNumbering S' = AllVectorNumbering S /\
        AllPtrNumbering S' = <[SB := n]> (<[SI := n]> (AllPtrNumbering S)))).
Proof.
  intros Hwf H. pose proof (proj1 (LiftSelect_effect _ _ _ _ _ _ _ _ H)) as Hext. revert H.
  pose proof Hwf as (Hf & Hc & Ht).
  unfold LiftSelect.
  destruct (getKind F SI) as [| | | | | | | |C T Fv| | | | | | | | | | | | |] eqn:HK;
    try done.
  destruct (FindBaseValue fuel A F S T false) as [TB| |] eqn:ET; bind_ok; [|done..].
  destruct (FindBaseValue fuel A F S Fv false) as [FB| |] eqn:EF; [|done..].
  assert (C < next_value F /\ T < next_value F /\ Fv < next_value F)%nat as (HC & HT & HFv)
    by (repeat split; apply (operand_below F Hc SI); rewrite HK; simpl;
        [by left|right; by left|right; right; by left]).
  destruct (FindBaseValue_nocache_end A F S fuel T TB Hc HT ET) as [HTB HTBs].
  destruct (FindBaseValue_nocache_end A F S fuel Fv FB Hc HFv EF) as [HFB HFBs].
  destruct (MaybeExtractUnion_wf F TB SI Hwf HTB HTBs) as (Hwf1 & Hlt1).
  destruct (MaybeExtractUnion_AS A F TB SI HTB) as (He1 & _ & HAS1).
  destruct (MaybeExtractUnion A F TB SI) as [F1 TB']; cbn [fst snd] in Hwf1, Hlt1, He1, HAS1.
  pose proof (well_formed_extends_next _ _ He1) as Hn1.
  assert (FB < next_value F1)%nat as HFB1 by lia.
  assert (base_step A F1 FB = None) as HFBs1
    by (by rewrite (base_step_extends A F F1 Hc He1 FB HFB)).
  destruct (MaybeExtractUnion_wf F1 FB SI Hwf1 HFB1 HFBs1) as (Hwf2 & Hlt2).
  destruct (MaybeExtractUnion_AS A F1 FB SI HFB1) as (He2 & _ & HAS2).
  destruct (MaybeExtractUnion A F1 FB SI) as [F2 FB']; cbn [fst snd] in Hwf2, Hlt2, He2, HAS2.
  pose proof (well_formed_extends_next _ _ He2) as Hn2.
  rewrite (extractedAddrSpace_extends A F F1 FB He1 HFB) in HAS2.
  destruct (extends_AS F1 F2 TB' He2 Hlt1) as [_ HAS1'].
  rewrite HAS1 in HAS1'; rewrite HAS1'.
  (* the replacement of the true base *)
  assert (exists F3 TB3 : _,
           (if negb (extractedAddrSpace A F TB =? Tracked A)
            then addValue F2 ConstantPointerNull (getType F2 FB') else (F2, TB')) = (F3, TB3) /\
           well_formed A F3 /\ extends F2 F3 /\ (TB3 < next_value F3)%nat /\
           getValueAddrSpace F3 TB3 =
             (if negb (extractedAddrSpace A F TB =? Tracked A)
              then extractedAddrSpace A F FB else extractedAddrSpace A F TB))
    as (F3 & TB3 & -> & Hwf3 & He3 & Hlt3 & HAS3).
  { destruct (negb (extractedAddrSpace A F TB =? Tracked A)).
    - destruct (null_wf F2 (getType F2 FB') Hwf2) as (Hw & Hl & _).
      pose proof (extends_addValue F2 ConstantPointerNull (getType F2 FB')) as He.
      eexists; eexists. split; [reflexivity|]. split; [exact Hw|]. split; [exact He|].
      split; [exact Hl|].
      unfold getValueAddrSpace at 1; unfold getType at 1; simpl.
      rewrite lookup_insert_eq; simpl; exact HAS2.
    - exists F2, TB'. split; [done|]. split; [done|]. split; [apply extends_refl|].
      split; [lia|done]. }
  pose proof (well_formed_extends_next _ _ He3) as Hn3.
  destruct (extends_AS F2 F3 FB' He3 Hlt2) as [_ HASF]; rewrite HASF, HAS2.
  (* the replacement of the false base *)
  assert (exists F4 FB4 : _,
           (if negb (extractedAddrSpace A F FB =? Tracked A)
            then addValue F3 ConstantPointerNull (getType F3 TB3) else (F3, FB')) = (F4, FB4) /\
           well_formed A F4 /\ extends F3 F4 /\ (FB4 < next_value F4)%nat)
    as (F4 & FB4 & -> & Hwf4 & He4 & Hlt4).
  { destruct (negb (extractedAddrSpace A F FB =? Tracked A)).
    - destruct (null_wf F3 (getType F3 TB3) Hwf3) as (Hw & Hl & _).
      pose proof (extends_addValue F3 ConstantPointerNull (getType F3 TB3)) as He.
      eexists; eexists. split; [reflexivity|]. split; [exact Hw|]. split; [exact He|exact Hl].
    - exists F3, FB'. split; [done|]. split; [done|]. split; [apply extends_refl|lia]. }
  pose proof (well_formed_extends_next _ _ He4) as Hn4.
  destruct (extends_AS F3 F4 TB3 He4 Hlt3) as [_ ->]; rewrite HAS3.
  assert (well_formed A (createBefore F4 SI (SelectInst C TB3 FB4) (getType F4 TB3)).1)
    as Hwf5.
  { apply well_formed_createBefore; [done| |].
    - intros o Ho; simpl in Ho.
      repeat (apply elem_of_cons in Ho as [->|Ho]); [lia..|by apply elem_of_nil in Ho].
    - intros y Hy.
      destruct (createBefore_lookup F4 SI (SelectInst C TB3 FB4) (getType F4 TB3))
        as (_ & _ & Hl).
      unfold base_step in Hy; by rewrite (getKind_Some _ _ _ Hl) in Hy. }
  destruct (createBefore_lookup F4 SI (SelectInst C TB3 FB4) (getType F4 TB3))
    as (Hs1 & Hs2 & Hs3).
  destruct (createBefore F4 SI (SelectInst C TB3 FB4) (getType F4 TB3)) as [F5 SB];
    cbn [fst snd] in Hwf5, Hs1, Hs2, Hs3.
  intros H. split; [|split; [exact Hext|]].
  - (* well formed *)
    revert H. destruct (negb (extractedAddrSpace A F TB =? Tracked A)) eqn:E1; cbn [negb andb].
    + destruct (negb (extractedAddrSpace A F FB =? Tracked A)) eqn:E2.
      * by intros [= _ <- _].
      * by intros [= _ <- _].
    + rewrite E1. by intros [= _ <- _].
  - (* the cache *)
    exists C, T, Fv, TB, FB. split; [done|]. split; [done|]. split; [done|].
    revert H.
    destruct (negb (extractedAddrSpace A F TB =? Tracked A)) eqn:E1; cbn [negb andb].
    + destruct (negb (extractedAddrSpace A F FB =? Tracked A)) eqn:E2.
      * intros [= <- <- <-]. by left.
      * intros [= <- <- <-]. right. split; [done|]. exists SB. subst SB.
        split; [lia|]. split; [|done].
        unfold base_step. by rewrite (getKind_Some _ _ _ Hs3).
    + rewrite E1. intros [= <- <- <-]. right. split; [done|]. exists SB. subst SB.
      split; [lia|]. split; [|done].
      unfold base_step. by rewrite (getKind_Some _ _ _ Hs3).
Qed.
End LiftWellFormed.

Section LiftPhiWellFormed.
Variable P : LateLowerGCFrame.
Let A := AddressSpace P.
Implicit Types F G : Function.

Lemma bitcast_wf F F' (Base : Value) T :
  well_formed A F -> isPointerTy T = true ->
  (Base < next_value F)%nat -> base_step A F Base = None ->
  values F' = <[next_value F := mkValue (BitCastInst Base) T]> (values F) ->
  next_value F' = Datatypes.S (next_value F) ->
  well_formed A F'.
Proof.
  intros Hwf HT HB Hb Hv Hn.
  apply (well_formed_new A F F' (BitCastInst Base) T Hwf Hv Hn).
  - intros o [->|[]%elem_of_nil]%elem_of_cons. done.
  - intros y Hy. unfold base_step, getKind in Hy. rewrite Hv, lookup_insert_eq in Hy.
    simpl in Hy. injection Hy as <-. split; [by destruct T|done].
Qed.

Lemma LiftPhi_incoming_wf fuel T S incoming : forall F acc F' lifted,
  isPointerTy T = true -> well_formed A F ->
  (forall inc, inc ∈ incoming -> (inc.1 < next_value F)%nat) ->
  (forall v : Value, v ∈ acc.*1 -> (v < next_value F)%nat) ->
  LiftPhi_incoming fuel A T F S incoming acc = Ok (F', lifted) ->
  well_formed A F' /\ forall v : Value, v ∈ lifted.*1 -> (v < next_value F')%nat.
Proof.
  induction incoming as [|[Incoming IncomingBlock] rest IH]; intros F acc F' lifted HT Hwf Hinc Hacc.
  - simpl. by intros [= <- <-].
  - simpl. pose proof Hwf as (Hf & Hc & Ht).
    assert (Incoming < next_value F)%nat as HI by (apply (Hinc (Incoming, IncomingBlock)); by left).
    destruct (FindBaseValue fuel A F S Incoming false) as [Base| |] eqn:EB; bind_ok; [|done..].
    destruct (FindBaseValue_nocache_end A F S fuel Incoming Base Hc HI EB) as [HB HBs].
    assert (exists F1 Base1 : _,
              (if negb (getValueAddrSpace F Base =? Tracked A)
               then addValue F ConstantPointerNull T else (F, Base)) = (F1, Base1) /\
              well_formed A F1 /\ extends F F1 /\ (Base1 < next_value F1)%nat /\
              base_step A F1 Base1 = None) as (F1 & Base1 & -> & Hwf1 & He1 & HB1 & HBs1).
    { destruct (negb _).
      - destruct (null_wf A F T Hwf) as (Hw & Hl & Hb).
        eexists; eexists. split; [reflexivity|]. split; [exact Hw|].
        split; [apply extends_addValue|]. split; [exact Hl|exact Hb].
      - exists F, Base. split; [done|]. split; [done|]. split; [apply extends_refl|done]. }
    pose proof (well_formed_extends_next _ _ He1) as Hn1.
    assert (exists F2 Base2 : _,
              (if negb (Ty_eqb (getType F1 Base1) T)
               then match getTerminator F1 IncomingBlock with
                    | Some Term => createBefore F1 Term (BitCastInst Base1) T
                    | None => addValue F1 (BitCastInst Base1) T
                    end
               else (F1, Base1)) = (F2, Base2) /\
              well_formed A F2 /\ extends F1 F2 /\ (Base2 < next_value F2)%nat)
      as (F2 & Base2 & -> & Hwf2 & He2 & HB2).
    { destruct (negb _).
      - destruct (getTerminator F1 IncomingBlock) as [Term|].
        + destruct (createBefore_lookup F1 Term (BitCastInst Base1) T) as (H1 & H2 & H3).
          eexists; eexists. split; [reflexivity|]. split; [|split].
          * by apply (bitcast_wf F1 _ Base1 T).
          * apply (extends_createBefore F1 Term (BitCastInst Base1) T).
          * simpl. lia.
        + eexists; eexists. split; [reflexivity|]. split; [|split].
          * by apply (bitcast_wf F1 _ Base1 T).
          * apply extends_addValue.
          * simpl. lia.
      - exists F1, Base1. split; [done|]. split; [done|]. split; [apply extends_refl|done]. }
    pose proof (well_formed_extends_next _ _ He2) as Hn2.
    apply IH; [done|done| |].
    + intros inc Hin. assert (inc.1 < next_value F)%nat by (apply Hinc; by right). lia.
    + intros v. rewrite fmap_app. intros [Hv|Hv]%elem_of_app.
      * specialize (Hacc v Hv). lia.
      * simpl in Hv. apply list_elem_of_singleton in Hv as ->. done.
Qed.

(** LiftPhi keeps the function well formed and caches the phi and the new
    phi. *)
Lemma LiftPhi_spec fuel F S (Phi : Value) n F' S' :
  T_prjlvalue_pointer P = true -> well_formed A F ->
  LiftPhi fuel P F S Phi = Ok (n, F', S') ->
  well_formed A F' /\ extends F F' /\
  isPHI (getKind F Phi) = true /\
  exists lift : Value,
    (next_value F <= lift < next_value F')%nat /\ base_step A F' lift = None /\
    AllVectorNumbering S' = AllVectorNumbering S /\
    AllPtrNumbering S' = <[lift := n]> (<[Phi := n]> (AllPtrNumbering S)).
Proof.
  intros HP Hwf H. pose proof (proj1 (LiftPhi_effect _ _ _ _ _ _ _ _ H)) as Hext. revert H.
  pose proof Hwf as (Hf & Hc & Ht).
  unfold LiftPhi. destruct (getKind F Phi) as [| | | | | | | | |incoming| | | | | | | | | | | |] eqn:HK;
    try done.
  unfold T_prjlvalue_pointer in HP. destruct (T_prjlvalue P) as [T|]; [|done].
  destruct (createBefore_lookup F Phi (PHINode []) T) as (H1 & H2 & H3).
  assert (well_formed A (createBefore F Phi (PHINode []) T).1) as Hwf1.
  { apply well_formed_createBefore; [done|by intros o ?%elem_of_nil|].
    intros y Hy. unfold base_step in Hy. by rewrite (getKind_Some _ _ _ H3) in Hy. }
  pose proof (extends_createBefore F Phi (PHINode []) T) as He1.
  destruct (createBefore F Phi (PHINode []) T) as [F1 lift]. cbn [fst snd] in *. subst lift.
  destruct (LiftPhi_incoming _ _ _ _ _ _ _) as [[F2 lifted]| |] eqn:E; bind_ok; [|done..].
  pose proof (LiftPhi_incoming_extends _ _ _ _ _ _ _ _ _ E) as He2.
  apply LiftPhi_incoming_wf in E as [Hwf2 Hlifted]; [|done|done| |by intros v ?%elem_of_nil].
  2:{ intros inc Hin. assert (inc.1 < next_value F)%nat; [|lia].
      apply (operand_below F Hc Phi). rewrite HK. simpl. by apply list_elem_of_fmap_2. }
  pose proof (well_formed_extends_next _ _ He2) as Hn2.
  intros [= <- <- <-]. split; [|split; [done|]]; [|split; [done|]].
  - (* the incoming values are set *)
    destruct Hwf2 as (Hf2 & Hc2 & Ht2).
    assert (values F2 !! next_value F = Some (mkValue (PHINode []) T)) as Hl2.
    { destruct He2 as [_ He2]. rewrite He2 by lia. done. }
    set (F3 := setValues F2 (<[next_value F := mkValue (PHINode lifted) T]> (values F2))).
    assert (forall x, getType F3 x = getType F2 x) as HTy.
    { intros x. unfold getType, F3. simpl. rewrite lookup_insert. case_decide; [|done].
      subst x. by rewrite Hl2. }
    assert (forall x, base_step A F3 x = base_step A F2 x) as Hbs.
    { intros x. destruct (decide (x = next_value F)) as [->|Hx].
      - unfold base_step. rewrite (getKind_Some F2 _ _ Hl2).
        assert (getKind F3 (next_value F) = PHINode lifted) as ->; [|done].
        unfold getKind, F3. simpl. by rewrite lookup_insert_eq.
      - assert (getKind F3 x = getKind F2 x) as HKd.
        { unfold getKind, F3. simpl. by rewrite lookup_insert_ne. }
        unfold base_step, getValueAddrSpace. rewrite HKd.
        destruct (getKind F2 x); try done; by rewrite !HTy. }
    split; [|split].
    + intros v. unfold F3. simpl. rewrite lookup_insert. case_decide; [intros _; lia|].
      apply Hf2.
    + intros v vi o. unfold F3. simpl. rewrite lookup_insert. case_decide.
      * intros [= <-]. simpl. apply Hlifted.
      * apply Hc2.
    + intros x y. rewrite !Hbs, !HTy. apply Ht2.
  - exists (next_value F). split; [simpl; lia|]. split; [|done].
    unfold base_step, getKind. simpl. by rewrite lookup_insert_eq.
Qed.
End LiftPhiWellFormed.

(** ** The search of a base value in a cache that grows *)

Section WalkEnd.
Variable A : AddressSpaces.
Variable F : Function.
Variable S : State.

(** Where the search ends, it ends at once. *)
Lemma walk_end_fix fuel (y r : Value) c :
  FindBaseValue_loop fuel A F S true y = Some (r, c) ->
  FindBaseValue_loop 1 A F S true r = Some (r, c).
Proof.
  revert y. induction fuel as [|fuel IH]; intros y; [done|].
  rewrite !FindBaseValue_loop_eq. destruct (isCached F S y) eqn:Hc.
  - intros [= <- <-]. by rewrite Hc.
  - destruct (base_step A F y) as [y'|] eqn:Hb; [apply IH|].
    intros [= <- <-]. by rewrite Hc, Hb.
Qed.

(** A pointer that is not cached and is no end of the search passes the
    search on to its operand. *)
Lemma walk_pointer_step fuel (x y r : Value) c :
  isPointerTy (getType F x) = true -> AllPtrNumbering S !! x = None ->
  base_step A F x = Some y ->
  FindBaseValue_loop fuel A F S true x = Some (r, c) ->
  exists fuel', FindBaseValue_loop fuel' A F S true y = Some (r, c).
Proof.
  intros Hp Hx Hb. destruct fuel as [|fuel]; [done|].
  rewrite FindBaseValue_loop_eq, (isCached_pointer F S x Hp), Hx, Hb.
  rewrite (bool_decide_eq_false_2 (is_Some None)) by by intros [? ?].
  intros H. by exists fuel.
Qed.

Lemma walk_uncached_end (x : Value) :
  isPointerTy (getType F x) = true -> AllPtrNumbering S !! x = None ->
  base_step A F x = None ->
  FindBaseValue_loop 1 A F S true x = Some (x, false).
Proof.
  intros Hp Hx Hb. rewrite FindBaseValue_loop_eq, (isCached_pointer F S x Hp), Hx, Hb.
  by rewrite (bool_decide_eq_false_2 (is_Some None)) by by intros [? ?].
Qed.
End WalkEnd.

Section WalkNew.
Variable A : AddressSpaces.
Variables F F1 : Function.
Hypothesis Hclosed : closed F.
Hypothesis Hext : extends F F1.

(** The search in a cache with more pointers: it ends where it ended, or
    earlier on its way at a pointer that is new in the cache. *)
Lemma walk_new S S1 fuel (y r : Value) c :
  cache_kept F S S1 -> AllVectorNumbering S1 = AllVectorNumbering S ->
  (y < next_value F)%nat ->
  FindBaseValue_loop fuel A F S true y = Some (r, c) ->
  exists (r2 : Value) c2,
    FindBaseValue_loop fuel A F1 S1 true y = Some (r2, c2) /\ (r2 < next_value F)%nat /\
    FindBaseValue_loop fuel A F S true r2 = Some (r, c) /\
    ((r2 = r /\ c2 = c) \/
     (c2 = true /\ AllPtrNumbering S !! r2 = None /\ is_Some (AllPtrNumbering S1 !! r2))).
Proof.
  intros Hk HV. revert y. induction fuel as [|fuel IH]; intros y Hy; [done|].
  intros Hw. pose proof Hw as Hw0. revert Hw.
  rewrite !FindBaseValue_loop_eq.
  destruct (below_get F F1 Hext y Hy) as [HK HT].
  unfold isCached. rewrite HT, HV.
  assert (forall y', base_step A F y = Some y' ->
            FindBaseValue_loop fuel A F S true y' = Some (r, c) ->
            exists (r2 : Value) c2,
              FindBaseValue_loop fuel A F1 S1 true y' = Some (r2, c2) /\
              (r2 < next_value F)%nat /\
              FindBaseValue_loop (Datatypes.S fuel) A F S true r2 = Some (r, c) /\
              ((r2 = r /\ c2 = c) \/
               (c2 = true /\ AllPtrNumbering S !! r2 = None /\
                is_Some (AllPtrNumbering S1 !! r2)))) as Hstep.
  { intros y' E Hw. destruct (IH y') as (r2 & c2 & H1 & H2 & H3 & H4);
      [by eapply base_step_below|done|].
    exists r2, c2. split; [done|]. split; [done|]. split; [|done].
    by apply FindBaseValue_loop_S. }
  destruct (isPointerTy (getType F y)) eqn:Hp.
  - destruct (AllPtrNumbering S !! y) as [m|] eqn:Hm.
    + rewrite (Hk y m Hy Hm). rewrite !bool_decide_eq_true_2 by by eexists.
      intros [= <- <-]. exists y, true. split; [done|]. split; [done|]. split; [done|]. by left.
    + rewrite (bool_decide_eq_false_2 (is_Some None)) by by intros [? ?].
      destruct (AllPtrNumbering S1 !! y) as [m1|] eqn:Hm1.
      * rewrite bool_decide_eq_true_2 by by eexists. intros Hw.
        exists y, true. split; [done|]. split; [done|]. split; [done|]. right.
        split; [done|]. split; [done|]. by eexists.
      * rewrite (bool_decide_eq_false_2 (is_Some None)) by by intros [? ?].
        rewrite (base_step_extends A F F1 Hclosed Hext) by done.
        destruct (base_step A F y) as [y'|] eqn:E; [by apply Hstep|].
        intros [= <- <-]. exists y, false. split; [done|]. split; [done|]. split; [done|].
        by left.
  - destruct (bool_decide _).
    + intros [= <- <-]. exists y, true. split; [done|]. split; [done|]. split; [done|]. by left.
    + rewrite (base_step_extends A F F1 Hclosed Hext) by done.
      destruct (base_step A F y) as [y'|] eqn:E; [by apply Hstep|].
      intros [= <- <-]. exists y, false. split; [done|]. split; [done|]. split; [done|].
      by left.
Qed.

Lemma unlifted_select_extends (r : Value) :
  (r < next_value F)%nat -> unlifted_select A F r -> unlifted_select A F1 r.
Proof.
  intros Hr (Hroot & Hsel & fuel & C & T & Fv & TB & FB & HK & HT & HF & Hcond).
  destruct (below_get F F1 Hext r Hr) as [HK1 HT1].
  destruct (extends_AS F F1 r Hext Hr) as [_ HAS1].
  assert (T < next_value F /\ Fv < next_value F)%nat as [HTlt HFlt].
  { split; apply (operand_below F Hclosed r); rewrite HK; simpl;
      [right; by left|right; right; by left]. }
  split; [|split].
  - unfold is_rooted_in_parent in *. by rewrite HK1, HAS1.
  - by rewrite HK1, HAS1.
  - exists fuel, C, T, Fv, TB, FB. split; [by rewrite HK1|].
    rewrite !(FindBaseValue_nocache_extends A F F1 Hclosed Hext State_init State_init) by done.
    split; [done|]. split; [done|].
    rewrite !(extractedAddrSpace_extends A F F1) by
      (done || (eapply (FindBaseValue_nocache_end A F); [done| |done]; done)).
    done.
Qed.
End WalkNew.

Section Settled.
Variable P : LateLowerGCFrame.
Let A := AddressSpace P.

(** Number gives an unlifted select -1 whenever it gives it a number. *)
Lemma unlifted_select_number fuel F F1 S1 (V r : Value) n F2 S2 :
  closed F -> extends F F1 -> (r < next_value F)%nat ->
  unlifted_select A F r -> AllPtrNumbering S1 !! r = None ->
  Number_at fuel P F1 S1 V r = Ok (n, F2, S2) -> n = -1.
Proof.
  intros Hc He Hr (Hroot & Hsel & fuel0 & C & T & Fv & TB & FB & HK & HT & HF & Hcond) Hun.
  by apply (Number_at_rooted_again P fuel0 fuel F F1 State_init S1 V r C T Fv TB FB).
Qed.

Lemma unlifted_select_det fuel F S (SI : Value) C T Fv TB FB :
  closed F -> unlifted_select A F SI ->
  getKind F SI = SelectInst C T Fv ->
  FindBaseValue fuel A F S T false = Ok TB ->
  FindBaseValue fuel A F S Fv false = Ok FB ->
  negb (extractedAddrSpace A F TB =? Tracked A)
  && negb (extractedAddrSpace A F FB =? Tracked A) = true.
Proof.
  intros Hc (_ & _ & fuel0 & C' & T' & Fv' & TB' & FB' & HK' & HT' & HF' & Hcond) HK HT HF.
  rewrite HK in HK'. injection HK' as <- <- <-.
  assert (T < next_value F /\ Fv < next_value F)%nat as [HTlt HFlt].
  { split; apply (operand_below F Hc SI); rewrite HK; simpl;
      [right; by left|right; right; by left]. }
  rewrite (FindBaseValue_nocache_extends A F F Hc (extends_refl F) S State_init) in HT' by done.
  rewrite (FindBaseValue_nocache_extends A F F Hc (extends_refl F) S State_init) in HF' by done.
  pose proof (FindBaseValue_nocache_det _ _ _ _ _ _ _ _ HT HT') as <-.
  by pose proof (FindBaseValue_nocache_det _ _ _ _ _ _ _ _ HF HF') as <-.
Qed.

Lemma settled_number fuel F S (V r : Value) m n F' S' :
  closed F -> (r < next_value F)%nat -> settled P F S r m ->
  Number_at fuel P F S V r = Ok (n, F', S') -> n = m.
Proof.
  intros Hc Hr [Hm|(-> & Hun & Hsel)] H.
  - rewrite (Number_at_cached P F S fuel V r m Hm) in H. by injection H as <- _ _.
  - by apply (unlifted_select_number fuel F F S V r n F' S' Hc (extends_refl F)).
Qed.

(** What is settled is consistent in the sense of the search. *)
Lemma numbering_settled_consistent F S :
  well_formed A F -> numbering_settled P F S -> numbering_consistent P F S.
Proof.
  intros (Hf & Hc & Ht) [Hbelow Hs] x m y Hx Hp Hb.
  destruct (Hs x m y Hx Hp Hb) as (fuel & r & c & Hw & _ & Hset).
  exists fuel, r, c. split; [done|]. intros fuel' V n F' S' HN.
  apply (settled_number fuel' F S V r m n F' S' Hc); [|done..].
  apply (walk_below A F Hc S true fuel y r c); [|done]. by apply (base_step_below A F Hc x).
Qed.
End Settled.

Section Grow.
Variable P : LateLowerGCFrame.

(** The numbering stays settled when the function is extended and the
    cache grows by entries for the number [n]: for new values where the
    search ends, and for values from which the search ends at a base value
    that is settled with [n] and was with no other number. *)
Lemma settled_grow F S F1 S1 n :
  well_formed (AddressSpace P) F -> well_formed (AddressSpace P) F1 -> extends F F1 ->
  numbering_settled P F S ->
  AllVectorNumbering S1 = AllVectorNumbering S ->
  (forall (z : Value) m, AllPtrNumbering S !! z = Some m -> AllPtrNumbering S1 !! z = Some m) ->
  (forall (z : Value) m, AllPtrNumbering S1 !! z = Some m ->
     AllPtrNumbering S !! z = Some m \/
     (m = n /\ (z < next_value F1)%nat /\
      (((next_value F <= z)%nat /\ base_step (AddressSpace P) F1 z = None) \/
       ((z < next_value F)%nat /\
        exists fuel (r : Value) c,
          FindBaseValue_loop fuel (AddressSpace P) F S true z = Some (r, c) /\
          (c = false -> is_base (getKind F r) = true) /\
          settled P F1 S1 r n /\
          (forall m', settled P F S r m' -> m' = n))))) ->
  numbering_settled P F1 S1.
Proof.
  intros (Hf & Hc & Ht) (Hf1 & Hc1 & Ht1) He [Hbelow Hs] HV Hkept Hnew.
  pose proof He as [Hn _].
  assert (cache_kept F S S1) as Hk by (intros z m _; apply Hkept).
  split.
  { intros x m Hx. destruct (Hnew x m Hx) as [Hold|(_ & Hlt & _)]; [|done].
    specialize (Hbelow x m Hold). lia. }
  (* a value new in the cache from which the search in [S] ends at [r0] *)
  assert (forall (r2 r0 : Value) c0 fuel m1,
            AllPtrNumbering S !! r2 = None -> AllPtrNumbering S1 !! r2 = Some m1 ->
            (r2 < next_value F)%nat ->
            FindBaseValue_loop fuel (AddressSpace P) F S true r2 = Some (r0, c0) ->
            m1 = n /\ forall m', settled P F S r0 m' -> m' = n) as Hnewkey.
  { intros r2 r0 c0 fuel m1 Hun Hm1 Hlt Hw.
    destruct (Hnew r2 m1 Hm1) as [Hold|(-> & _ & [[Hge _]|(_ & fuel' & r' & c' & Hw' & _ & _ & Hag)])];
      [congruence|lia|].
    split; [done|].
    by pose proof (FindBaseValue_loop_det _ _ _ _ _ _ _ _ Hw Hw') as [= <- <-]. }
  assert (forall fuel (y r0 : Value) c0 m0,
            (y < next_value F)%nat ->
            FindBaseValue_loop fuel (AddressSpace P) F S true y = Some (r0, c0) ->
            (c0 = false -> is_base (getKind F r0) = true) ->
            settled P F1 S1 r0 m0 ->
            (forall (r2 : Value) m1, AllPtrNumbering S !! r2 = None ->
               AllPtrNumbering S1 !! r2 = Some m1 -> (r2 < next_value F)%nat ->
               (exists fuel', FindBaseValue_loop fuel' (AddressSpace P) F S true r2 = Some (r0, c0)) ->
               m1 = m0) ->
            exists fuel' (r : Value) c,
              FindBaseValue_loop fuel' (AddressSpace P) F1 S1 true y = Some (r, c) /\
              (c = false -> is_base (getKind F1 r) = true) /\
              settled P F1 S1 r m0) as Hcore.
  { intros fuel y r0 c0 m0 Hy Hw Hbase Hset Hagree.
    destruct (walk_new (AddressSpace P) F F1 Hc He S S1 fuel y r0 c0 Hk HV Hy Hw)
      as (r2 & c2 & Hw1 & Hlt2 & Hw2 & [[-> ->]|(-> & Hun & [m1 Hm1])]).
    - exists fuel, r0, c0. split; [done|]. split; [|done].
      destruct (below_get F F1 He r0 Hlt2) as [-> _]. done.
    - exists fuel, r2, true. split; [done|]. split; [done|]. left.
      rewrite Hm1. f_equal. apply (Hagree r2 m1 Hun Hm1 Hlt2). by exists fuel. }
  intros x m y Hx Hp Hb.
  destruct (AllPtrNumbering S !! x) as [m'|] eqn:Hxs.
  - (* an entry of [S] *)
    assert (m' = m) as -> by (specialize (Hkept x m' Hxs); congruence).
    pose proof (Hbelow x m Hxs) as Hxlt.
    destruct (below_get F F1 He x Hxlt) as [_ HTx]. rewrite HTx in Hp.
    rewrite (base_step_extends (AddressSpace P) F F1 Hc He x Hxlt) in Hb.
    pose proof (base_step_below (AddressSpace P) F Hc x y Hb) as Hylt.
    destruct (Hs x m y Hxs Hp Hb) as (fuel & r0 & c0 & Hw & Hbase & Hset).
    pose proof (walk_below (AddressSpace P) F Hc S true fuel y r0 c0 Hylt Hw) as Hr0lt.
    apply (Hcore fuel y r0 c0 m Hylt Hw Hbase).
    + destruct Hset as [Hm|(-> & Hun & Hsel)]; [left; by apply Hkept|].
      pose proof (unlifted_select_extends (AddressSpace P) F F1 Hc He r0 Hr0lt Hsel) as Hsel1.
      destruct (AllPtrNumbering S1 !! r0) as [m1|] eqn:Hm1; [|right; done].
      pose proof (walk_end_fix (AddressSpace P) F S fuel y r0 c0 Hw) as Hfix.
      destruct (Hnewkey r0 r0 c0 1%nat m1 Hun Hm1 Hr0lt Hfix) as [-> Hag].
      left. rewrite Hm1. f_equal. symmetry. apply Hag. right. done.
    + intros r2 m1 Hun Hm1 Hlt [fuel' Hw2].
      destruct (Hnewkey r2 r0 c0 fuel' m1 Hun Hm1 Hlt Hw2) as [-> Hag].
      symmetry. by apply Hag.
  - (* a new entry *)
    destruct (Hnew x m Hx) as [Hold|(-> & Hxlt1 & [[Hge Hend]|(Hxlt & fuel & r & c & Hw & Hbase & Hset & Hag)])];
      [congruence|congruence|].
    destruct (below_get F F1 He x Hxlt) as [_ HTx]. rewrite HTx in Hp.
    rewrite (base_step_extends (AddressSpace P) F F1 Hc He x Hxlt) in Hb.
    pose proof (base_step_below (AddressSpace P) F Hc x y Hb) as Hylt.
    destruct (walk_pointer_step (AddressSpace P) F S fuel x y r c Hp Hxs Hb Hw) as [fuel' Hwy].
    apply (Hcore fuel' y r c n Hylt Hwy Hbase Hset).
    intros r2 m1 Hun Hm1 Hlt [fuel2 Hw2].
    by destruct (Hnewkey r2 r c fuel2 m1 Hun Hm1 Hlt Hw2) as [-> _].
Qed.

(** In particular it stays settled in an extension of the function. *)
Lemma settled_extends F S F1 :
  well_formed (AddressSpace P) F -> well_formed (AddressSpace P) F1 -> extends F F1 ->
  numbering_settled P F S -> numbering_settled P F1 S.
Proof.
  intros Hwf Hwf1 He Hs. apply (settled_grow F S F1 S 0 Hwf Hwf1 He Hs); [done|done|].
  intros z m Hz. by left.
Qed.
End Grow.

(** ** Numbering keeps the numbering settled *)

Section NumberSettled.
Variable P : LateLowerGCFrame.
Hypothesis T_pointer : T_prjlvalue_pointer P = true.

(** The cache after Number has numbered the base value [r] of [V], none
    of them cached: the old entries, [V], and [r] and the values that
    lifting [r] has made. *)
Lemma Number_at_spec fuel F S (V r : Value) n F1 S1 :
  well_formed (AddressSpace P) F ->
  (forall (x : Value) m, AllPtrNumbering S !! x = Some m -> (x < next_value F)%nat) ->
  (V < next_value F)%nat -> (r < next_value F)%nat ->
  AllPtrNumbering S !! r = None -> AllPtrNumbering S !! V = None ->
  Number_at fuel P F S V r = Ok (n, F1, S1) ->
  well_formed (AddressSpace P) F1 /\ extends F F1 /\
  AllVectorNumbering S1 = AllVectorNumbering S /\
  (forall (z : Value) m, AllPtrNumbering S !! z = Some m -> AllPtrNumbering S1 !! z = Some m) /\
  (forall (z : Value) m, AllPtrNumbering S1 !! z = Some m ->
     AllPtrNumbering S !! z = Some m \/
     (m = n /\ (z < next_value F1)%nat /\
      (z = V \/ z = r \/ ((next_value F <= z)%nat /\ base_step (AddressSpace P) F1 z = None)))) /\
  (AllPtrNumbering S1 !! r = Some n \/
   (n = -1 /\ unlifted_select (AddressSpace P) F r /\ AllPtrNumbering S1 !! r = None)).
Proof.
  intros Hwf Hbelow HV Hr Hrun HVun. pose proof Hwf as (Hf & Hc & Ht).
  unfold Number_at. rewrite Hrun.
  (* the cache gets [V] and [r] *)
  assert (forall (m0 : Z) (All' : gmap Value Z),
            All' = <[r := m0]> (<[V := m0]> (AllPtrNumbering S)) ->
            (forall (z : Value) m, AllPtrNumbering S !! z = Some m -> All' !! z = Some m) /\
            (forall (z : Value) m, All' !! z = Some m ->
               AllPtrNumbering S !! z = Some m \/
               (m = m0 /\ (z < next_value F)%nat /\
                (z = V \/ z = r \/
                 ((next_value F <= z)%nat /\ base_step (AddressSpace P) F z = None)))) /\
            All' !! r = Some m0) as Hboth.
  { intros m0 All' ->. split; [|split].
    - intros z m Hz. assert (z <> r) by congruence. assert (z <> V) by congruence.
      by rewrite !lookup_insert_ne.
    - intros z m [[<- <-]|[Hne [[<- <-]|[Hne' Hz]]%lookup_insert_Some]]%lookup_insert_Some.
      + right. split; [done|]. split; [done|]. right. by left.
      + right. split; [done|]. split; [done|]. by left.
      + by left.
    - apply lookup_insert_eq. }
  destruct (is_rooted_in_parent _ _ _) eqn:Hroot.
  { intros [= <- <- <-]. simpl. destruct (Hboth (-1) _ eq_refl) as (H1 & H2 & H3).
    split; [done|]. split; [apply extends_refl|]. split; [done|]. split; [done|].
    split; [done|]. by left. }
  destruct (isSelect _ && _) eqn:Hsel.
  { destruct (LiftSelect _ _ _ _ _) as [[[n' F'] S']| |] eqn:E; bind_ok; [|done..].
    intros [= <- <- <-].
    apply LiftSelect_spec in E as (Hwf' & He' & C & T & Fv & TB & FB & HK & HT & HF & Hcase);
      [|done].
    pose proof He' as [Hn' _].
    split; [done|]. split; [done|].
    destruct Hcase as [(Hcond & -> & ->)|(Hcond & SB & HSB & HSBs & HVec & HAll)]; simpl.
    - (* nothing is lifted: [V] alone is cached *)
      split; [done|]. split; [|split].
      + intros z m Hz. assert (z <> V) by congruence. by rewrite lookup_insert_ne.
      + intros z m [[<- <-]|[Hne Hz]]%lookup_insert_Some; [|by left].
        right. split; [done|]. split; [lia|]. by left.
      + destruct (decide (V = r)) as [->|Hne]; [left; apply lookup_insert_eq|].
        right. split; [done|]. split; [|by rewrite lookup_insert_ne].
        split; [done|]. split; [done|]. exists fuel, C, T, Fv, TB, FB.
        assert (T < next_value F /\ Fv < next_value F)%nat as [HTlt HFlt].
        { split; apply (operand_below F Hc r); rewrite HK; simpl;
            [right; by left|right; right; by left]. }
        rewrite !(FindBaseValue_nocache_extends (AddressSpace P) F F Hc (extends_refl F)
                    S State_init) by done.
        done.
    - (* the select and the new select are cached *)
      split; [done|]. rewrite HAll. split; [|split].
      + intros z m Hz. assert (z <> r) by congruence. assert (z <> V) by congruence.
        assert (z <> SB) by (specialize (Hbelow z m Hz); lia).
        by rewrite !lookup_insert_ne.
      + intros z m [[<- <-]|[Hne1 [[<- <-]|[Hne2 [[<- <-]|[Hne3 Hz]]%lookup_insert_Some]]%lookup_insert_Some]]%lookup_insert_Some.
        * right. split; [done|]. split; [lia|]. by left.
        * right. split; [done|]. split; [lia|]. right. right. split; [lia|done].
        * right. split; [done|]. split; [lia|]. right. by left.
        * by left.
      + left. destruct (decide (V = r)) as [->|Hne]; [apply lookup_insert_eq|].
        rewrite lookup_insert_ne by done.
        rewrite lookup_insert_ne by lia. apply lookup_insert_eq. }
  destruct (isPHI _ && _) eqn:Hphi.
  { destruct (LiftPhi _ _ _ _ _) as [[[n' F'] S']| |] eqn:E; bind_ok; [|done..].
    intros [= <- <- <-].
    apply LiftPhi_spec in E as (Hwf' & He' & _ & lift & Hlift & Hlifts & HVec & HAll);
      [|done|done].
    pose proof He' as [Hn' _].
    split; [done|]. split; [done|]. simpl. split; [done|]. rewrite HAll. split; [|split].
    + intros z m Hz. assert (z <> r) by congruence. assert (z <> V) by congruence.
      assert (z <> lift) by (specialize (Hbelow z m Hz); lia).
      by rewrite !lookup_insert_ne.
    + intros z m [[<- <-]|[Hne1 [[<- <-]|[Hne2 [[<- <-]|[Hne3 Hz]]%lookup_insert_Some]]%lookup_insert_Some]]%lookup_insert_Some.
      * right. split; [done|]. split; [lia|]. by left.
      * right. split; [done|]. split; [lia|]. right. right. split; [lia|done].
      * right. split; [done|]. split; [lia|]. right. by left.
      * by left.
    + left. destruct (decide (V = r)) as [->|Hne]; [apply lookup_insert_eq|].
      rewrite lookup_insert_ne by done.
      rewrite lookup_insert_ne by lia. apply lookup_insert_eq. }
  destruct (isExtractValue _ && _); [done|].
  destruct (assert _ _); bind_ok; [|done..].
  intros [= <- <- <-]. simpl. destruct (Hboth (MaxPtrNumber S + 1) _ eq_refl) as (H1 & H2 & H3).
  split; [done|]. split; [apply extends_refl|]. split; [done|]. split; [done|].
  split; [done|]. by left.
Qed.

(** A value that Number is asked for is cached only where the search from
    it ends. *)
Lemma Number_uncached fuel F S (V r : Value) c :
  casts_typed (AddressSpace P) F ->
  isSpecialPtr (AddressSpace P) (getType F V) || isUnionRep (AddressSpace P) (getType F V) = true ->
  FindBaseValue_loop fuel (AddressSpace P) F S true V = Some (r, c) ->
  AllPtrNumbering S !! r = None -> AllPtrNumbering S !! V = None.
Proof.
  intros Ht Hty Hw Hr. destruct (AllPtrNumbering S !! V) as [m|] eqn:HV; [|done].
  exfalso. destruct fuel as [|fuel]; [done|]. rewrite FindBaseValue_loop_eq in Hw.
  destruct (isPointerTy (getType F V)) eqn:Hp.
  - rewrite (isCached_pointer F S V Hp), HV in Hw.
    rewrite bool_decide_eq_true_2 in Hw by by eexists. injection Hw as <- <-. congruence.
  - assert (isUnionRep (AddressSpace P) (getType F V) = true) as Hu.
    { destruct (isSpecialPtr _ _) eqn:Es; [|done].
      apply (isSpecialPtr_isPointerTy (AddressSpace P)) in Es. congruence. }
    assert (base_step (AddressSpace P) F V = None) as Hb.
    { destruct (base_step (AddressSpace P) F V) as [y|] eqn:E; [|done].
      destruct (Ht V y E) as [Hn _]. congruence. }
    rewrite Hb in Hw. destruct (isCached F S V); injection Hw as <- <-; congruence.
Qed.

(** Number keeps the function well formed and the numbering settled. *)
Lemma Number_numbered fuel F S (V : Value) n F1 S1 :
  scan_numbered P F S -> Number fuel P F S V = Ok (n, F1, S1) -> scan_numbered P F1 S1.
Proof.
  intros [Hwf Hs] HN. pose proof Hwf as (Hf & Hc & Ht). pose proof Hs as [Hbelow _].
  destruct (Number_inv P _ _ _ _ _ _ _ HN) as (r & c & Hw & Hbase & Hat).
  assert (isSpecialPtr (AddressSpace P) (getType F V)
          || isUnionRep (AddressSpace P) (getType F V) = true) as Hty.
  { revert HN. unfold Number. by destruct (_ || _). }
  assert (V < next_value F)%nat as HV.
  { apply Hf. destruct (values F !! V) eqn:E; [by eexists|].
    by rewrite (getType_None F V E) in Hty. }
  pose proof (walk_below (AddressSpace P) F Hc S true fuel V r c HV Hw) as Hr.
  destruct (AllPtrNumbering S !! r) as [m|] eqn:Hrun.
  { rewrite (Number_at_cached P F S fuel V r m Hrun) in Hat. by injection Hat as <- <- <-. }
  pose proof (Number_uncached fuel F S V r c Ht Hty Hw Hrun) as HVun.
  destruct (Number_at_spec fuel F S V r n F1 S1 Hwf Hbelow HV Hr Hrun HVun Hat)
    as (Hwf1 & He & HVec & Hkept & Hnew & Hrn).
  split; [done|].
  assert (settled P F1 S1 r n) as Hset1.
  { destruct Hrn as [?|(-> & Hsel & Hun)]; [by left|]. right. split; [done|]. split; [done|].
    by apply (unlifted_select_extends (AddressSpace P) F F1 Hc He). }
  assert (forall m', settled P F S r m' -> m' = n) as Hag.
  { intros m' Hset. symmetry. by apply (settled_number P fuel F S V r m' n F1 S1 Hc Hr). }
  apply (settled_grow P F S F1 S1 n Hwf Hwf1 He Hs HVec Hkept).
  intros z m Hz. destruct (Hnew z m Hz) as [?|(-> & Hlt & Hkey)]; [by left|].
  right. split; [done|]. split; [done|].
  destruct Hkey as [->|[->|?]]; [right|right|by left].
  - split; [done|]. by exists fuel, r, c.
  - split; [done|]. exists 1%nat, r, c. split; [|done].
    by apply (walk_end_fix (AddressSpace P) F S fuel V).
Qed.

(** So does LiftSelect, called on a select that is a pointer and not
    cached. *)
Lemma LiftSelect_numbered fuel F S (SI : Value) n F1 S1 :
  scan_numbered P F S ->
  isPointerTy (getType F SI) = true -> AllPtrNumbering S !! SI = None ->
  LiftSelect fuel (AddressSpace P) F S SI = Ok (n, F1, S1) -> scan_numbered P F1 S1.
Proof.
  intros [Hwf Hs] Hp Hun E. pose proof Hwf as (Hf & Hc & Ht). pose proof Hs as [Hbelow _].
  apply LiftSelect_spec in E as (Hwf' & He' & C & T & Fv & TB & FB & HK & HT & HF & Hcase);
    [|done].
  split; [done|].
  destruct Hcase as [(Hcond & -> & ->)|(Hcond & SB & HSB & HSBs & HVec & HAll)].
  { by apply (settled_extends P F S F1). }
  pose proof (pointer_exists F SI Hf Hp) as HSI.
  apply (settled_grow P F S F1 S1 n Hwf Hwf' He' Hs HVec).
  - intros z m Hz. rewrite HAll. assert (z <> SI) by congruence.
    assert (z <> SB) by (specialize (Hbelow z m Hz); lia). by rewrite !lookup_insert_ne.
  - intros z m. rewrite HAll.
    intros [[<- <-]|[Hne1 [[<- <-]|[Hne2 Hz]]%lookup_insert_Some]]%lookup_insert_Some;
      [right|right|by left].
    + split; [done|]. split; [lia|]. left. split; [lia|done].
    + split; [done|]. split; [lia|]. right. split; [done|].
      exists 1%nat, SI, false. split; [|split; [|split]].
      * apply walk_uncached_end; [done|done|]. unfold base_step. by rewrite HK.
      * intros _. by rewrite HK.
      * left. rewrite HAll. rewrite lookup_insert_ne by lia. apply lookup_insert_eq.
      * intros m' [?|(_ & _ & Hsel)]; [congruence|].
        pose proof (unlifted_select_det P fuel F S SI C T Fv TB FB Hc Hsel HK HT HF).
        congruence.
Qed.

(** So does LiftPhi, called on a phi that is a pointer and not cached. *)
Lemma LiftPhi_numbered fuel F S (Phi : Value) n F1 S1 :
  scan_numbered P F S ->
  isPointerTy (getType F Phi) = true -> AllPtrNumbering S !! Phi = None ->
  LiftPhi fuel P F S Phi = Ok (n, F1, S1) -> scan_numbered P F1 S1.
Proof.
  intros [Hwf Hs] Hp Hun E. pose proof Hwf as (Hf & Hc & Ht). pose proof Hs as [Hbelow _].
  apply LiftPhi_spec in E as (Hwf' & He' & HK & lift & Hlift & Hlifts & HVec & HAll);
    [|done|done].
  split; [done|].
  pose proof (pointer_exists F Phi Hf Hp) as HPhi.
  apply (settled_grow P F S F1 S1 n Hwf Hwf' He' Hs HVec).
  - intros z m Hz. rewrite HAll. assert (z <> Phi) by congruence.
    assert (z <> lift) by (specialize (Hbelow z m Hz); lia). by rewrite !lookup_insert_ne.
  - intros z m. rewrite HAll.
    intros [[<- <-]|[Hne1 [[<- <-]|[Hne2 Hz]]%lookup_insert_Some]]%lookup_insert_Some;
      [right|right|by left].
    + split; [done|]. split; [lia|]. left. split; [lia|done].
    + split; [done|]. split; [lia|]. right. split; [done|].
      assert (base_step (AddressSpace P) F Phi = None) as Hb.
      { unfold base_step. by destruct (getKind F Phi). }
      exists 1%nat, Phi, false. split; [|split; [|split]].
      * by apply walk_uncached_end.
      * intros _. by destruct (getKind F Phi).
      * left. rewrite HAll. rewrite lookup_insert_ne by lia. apply lookup_insert_eq.
      * intros m' [?|(_ & _ & _ & Hsel & _)]; [congruence|].
        by destruct (getKind F Phi).
Qed.
End NumberSettled.

(** ** Numbering a vector keeps the numbering settled *)

Section VectorSettled.
Variable P : LateLowerGCFrame.

Lemma NumberVector_cache fuel F S (V : Value) Nums S' :
  NumberVector fuel P F S V = Ok (Nums, S') ->
  AllPtrNumbering S' = AllPtrNumbering S /\
  forall z : Value, is_Some (AllVectorNumbering S !! z) -> is_Some (AllVectorNumbering S' !! z).
Proof.
  unfold NumberVector. destruct (AllVectorNumbering S !! V); [by intros [= _ <-]|].
  destruct (FindBaseValue _ _ _ _ _ _) as [r| |]; bind_ok; [|done..].
  destruct (AllVectorNumbering S !! r); [by intros [= _ <-]|].
  match goal with |- match ?m with _ => _ end = _ -> _ =>
    assert (forall S1, m = Ok S1 ->
              AllPtrNumbering S1 = AllPtrNumbering S /\
              forall z : Value, is_Some (AllVectorNumbering S !! z) ->
                                is_Some (AllVectorNumbering S1 !! z)) as H1;
    [|destruct m as [S1| |]; [|done..]] end.
  { assert (forall l (z : Value), is_Some (AllVectorNumbering S !! z) ->
              is_Some (<[V := l]> (AllVectorNumbering S) !! z)) as Hins.
    { intros l z Hz. rewrite lookup_insert. by case_decide. }
    intros S1. destruct (_ || _); [intros [= <-]; split; [done|apply Hins]|].
    destruct (getKind F r); try (by intros [= <-]); try done.
    intros [= <-]. split; [done|]. apply Hins. }
  destruct (H1 S1 eq_refl) as [HA HVs].
  destruct (AllVectorNumbering S1 !! r); intros [= _ <-]; [done|].
  split; [done|]. intros z Hz. simpl. rewrite lookup_insert. case_decide; [done|by apply HVs].
Qed.

(** The search from a pointer, or from where it ends, does not depend on
    the vectors in the cache. *)
Lemma walk_vectors F S S' fuel (y r : Value) c :
  casts_typed (AddressSpace P) F ->
  AllPtrNumbering S' = AllPtrNumbering S ->
  (forall z : Value, is_Some (AllVectorNumbering S !! z) -> is_Some (AllVectorNumbering S' !! z)) ->
  isPointerTy (getType F y) = true \/ base_step (AddressSpace P) F y = None ->
  FindBaseValue_loop fuel (AddressSpace P) F S true y = Some (r, c) ->
  exists c', FindBaseValue_loop fuel (AddressSpace P) F S' true y = Some (r, c') /\
             (c' = false -> c = false).
Proof.
  intros Ht HA HV. revert y. induction fuel as [|fuel IH]; intros y Hy; [done|].
  rewrite !FindBaseValue_loop_eq. unfold isCached. rewrite HA.
  destruct (isPointerTy (getType F y)) eqn:Hp.
  - destruct (bool_decide _); [intros [= <- <-]; by exists true|].
    destruct (base_step (AddressSpace P) F y) as [y'|] eqn:E.
    + apply IH. destruct (isPointerTy (getType F y')) eqn:Hp'; [by left|right].
      by apply (Ht y y' E).
    + intros [= <- <-]. by exists false.
  - destruct Hy as [?|Hb]; [done|]. rewrite Hb.
    destruct (bool_decide (is_Some (AllVectorNumbering S !! y))) eqn:E1.
    + intros [= <- <-]. apply bool_decide_eq_true in E1.
      rewrite (bool_decide_eq_true_2 _ (HV y E1)). by exists true.
    + intros [= <- <-].
      destruct (bool_decide (is_Some (AllVectorNumbering S' !! y)));
        [by exists true|by exists false].
Qed.

Lemma NumberVector_numbered fuel F S (V : Value) Nums S' :
  scan_numbered P F S -> NumberVector fuel P F S V = Ok (Nums, S') -> scan_numbered P F S'.
Proof.
  intros [Hwf [Hbelow Hs]] H. pose proof Hwf as (Hf & Hc & Ht).
  apply NumberVector_cache in H as [HA HV]. split; [done|]. split.
  - intros x m. rewrite HA. apply Hbelow.
  - intros x m y. rewrite HA. intros Hx Hp Hb.
    destruct (Hs x m y Hx Hp Hb) as (fuel' & r & c & Hw & Hbase & Hset).
    destruct (walk_vectors F S S' fuel' y r c Ht HA HV) as (c' & Hw' & Hc'); [|done|].
    { destruct (isPointerTy (getType F y)) eqn:Hp'; [by left|right]. by apply (Ht x y Hb). }
    exists fuel', r, c'. split; [done|]. split; [intros Hcf; apply Hbase; by apply Hc'|].
    unfold settled in *. by rewrite HA.
Qed.

(** The numbering is settled in a state with the same caches. *)
Lemma scan_numbered_same F S S' :
  AllPtrNumbering S' = AllPtrNumbering S -> AllVectorNumbering S' = AllVectorNumbering S ->
  scan_numbered P F S -> scan_numbered P F S'.
Proof.
  intros HA HV [Hwf [Hbelow Hs]]. split; [done|].
  assert (forall fuel y, FindBaseValue_loop fuel (AddressSpace P) F S' true y
                         = FindBaseValue_loop fuel (AddressSpace P) F S true y) as Hsame.
  { induction fuel as [|fuel IH]; intros y; [done|].
    rewrite !FindBaseValue_loop_eq. unfold isCached. rewrite HA, HV.
    destruct (if isPointerTy (getType F y) then _ else _); [done|].
    destruct (base_step (AddressSpace P) F y) as [y'|]; [apply IH|done]. }
  split.
  - intros x m. rewrite HA. apply Hbelow.
  - intros x m y. rewrite HA. intros Hx Hp Hb.
    destruct (Hs x m y Hx Hp Hb) as (fuel' & r & c & Hw & Hbase & Hset).
    exists fuel', r, c. split; [by rewrite Hsame|]. split; [done|].
    unfold settled in *. by rewrite HA.
Qed.
End VectorSettled.

(** ** The scan keeps the numbering settled *)

Section ScanNumbered.
Variable P : LateLowerGCFrame.
Hypothesis T_pointer : T_prjlvalue_pointer P = true.

Lemma scan_numbered_same_numbering F S S' :
  same_numbering S S' -> scan_numbered P F S -> scan_numbered P F S'.
Proof. intros (_ & HA & HV). by apply scan_numbered_same. Qed.

Lemma NoteUse_numbered fuel F S Y V Uses F' S' :
  NoteUse fuel P F S Y V Uses = Ok (F', S') -> scan_numbered P F S -> scan_numbered P F' S'.
Proof.
  unfold NoteUse. destruct (isConstant _); [by intros [= <- <-]|].
  destruct (isSpecialPtrVec _ _).
  - destruct (NumberVector _ _ _ _ _) as [[Nums S1]| |] eqn:E; bind_ok; [|done..].
    intros [= <- <-] HJ. apply (NumberVector_numbered P _ _ _ _ _ _ HJ) in E.
    apply (scan_numbered_same_numbering F S1); [apply same_numbering_setUses|done].
  - destruct (Number _ _ _ _ _) as [[[Num F1] S1]| |] eqn:E; bind_ok; [|done..].
    intros H HJ. apply (Number_numbered P T_pointer _ _ _ _ _ _ _ HJ) in E. revert H.
    destruct (Num =? -1); intros [= <- <-]; [done|].
    by apply (scan_numbered_same P F1 S1).
Qed.

Lemma NoteDef_numbered F S BB Num sps S' R :
  NoteDef S BB Num sps = Ok S' -> scan_numbered P F S -> scan_numbered P F (refine S' Num R).
Proof.
  intros H. apply scan_numbered_same_numbering. by apply (same_numbering_NoteDef S BB Num sps).
Qed.

Lemma MaybeNoteDef_numbered fuel F S BB Def sps R F' S' :
  MaybeNoteDef fuel P F S BB Def sps R = Ok (F', S') ->
  scan_numbered P F S -> scan_numbered P F' S'.
Proof.
  unfold MaybeNoteDef. cbv zeta.
  assert (forall r : Res (Z * Function * State), Number fuel P F S Def = r ->
    ('(Num, F1, S1) ← r; S2 ← NoteDef S1 BB Num sps; Ok (F1, refine S2 Num R)) = Ok (F', S') ->
    scan_numbered P F S -> scan_numbered P F' S') as HN.
  { intros r Hr. destruct r as [[[Num F1] S1]| |]; bind_ok; [|done..].
    destruct (NoteDef S1 BB Num sps) as [S2| |] eqn:E; [|done..].
    intros [= <- <-] HJ. apply (Number_numbered P T_pointer _ _ _ _ _ _ _ HJ) in Hr.
    by apply (NoteDef_numbered F1 S1 BB Num sps). }
  destruct (isSpecialPtr _ _).
  { destruct (assert _ _); bind_ok; [|done..]. by apply HN. }
  destruct (isUnionRep _ _); [by apply HN|].
  destruct (isSpecialPtrVec _ _); [|by intros [= <- <-]].
  destruct (NumberVector _ _ _ _ _) as [[Nums S1]| |] eqn:E; bind_ok; [|done..].
  match goal with |- match ?m with _ => _ end = _ -> _ => destruct m as [S2| |] eqn:E2 end;
    [|done..].
  intros [= <- <-] HJ. apply (NumberVector_numbered P _ _ _ _ _ _ HJ) in E.
  apply (foldl_Res_invariant (fun a => scan_numbered P F a) _ Nums) in E2; [done|done|done| |done].
  intros a Num a' Ha. bind_ok.
  destruct (NoteDef a BB Num sps) as [S3| |] eqn:E3; [|done..].
  intros [= <-]. by apply (NoteDef_numbered F a BB Num sps).
Qed.

Lemma NoteOperandUses_numbered fuel F S BB UI Uses F' S' :
  NoteOperandUses fuel P F S BB UI Uses = Ok (F', S') ->
  scan_numbered P F S -> scan_numbered P F' S'.
Proof.
  unfold NoteOperandUses. intros H HJ.
  apply (foldl_Res_invariant (fun a : Function * State => scan_numbered P a.1 a.2) _ _) in H;
    [done|done|done| |done].
  intros [F1 S1] V [F2 S2] Ha. bind_ok. simpl in *.
  destruct (negb _); [by intros [= <- <-]|]. intros H1. by eapply NoteUse_numbered.
Qed.

Ltac bind_pair F1 S1 E :=
  match goal with
  | |- mbind _ ?m = _ -> _ => destruct m as [[F1 S1]| |] eqn:E
  | |- match ?m with _ => _ end = _ -> _ => destruct m as [[F1 S1]| |] eqn:E
  end; bind_ok; [|done..].

Lemma scan_inst_numbered fuel F S BB Inst F' S' :
  scan_inst fuel P F S BB Inst = Ok (F', S') ->
  scan_numbered P F S -> scan_numbered P F' S'.
Proof.
  unfold scan_inst. cbv zeta. destruct (getKind F Inst) eqn:HK;
    try (by intros [= <- <-]).
  - (* load *)
    match goal with |- mbind _ ?m = _ -> _ => destruct m as [[[R F0] S0]| |] eqn:E0 end;
      bind_ok; [|done..].
    bind_pair F1 S1 E1. intros E2 HJ.
    apply (NoteOperandUses_numbered _ _ _ _ _ _ _ _ E2),
          (MaybeNoteDef_numbered _ _ _ _ _ _ _ _ _ E1).
    revert E0. destruct (_ && _).
    { intros E0. by apply (Number_numbered P T_pointer _ _ _ _ _ _ _ HJ) in E0. }
    destruct (_ && _); [|by intros [= _ <- <-]].
    destruct (LooksLikeFrameRef _ _ _ _) as [[]|]; [..|done]; by intros [= _ <- <-].
  - (* store *) apply NoteOperandUses_numbered.
  - (* call *)
    destruct (isIntrinsicCall F callee); [by intros [= <- <-]|].
    bind_pair F1 S1 E1. bind_pair F2 S2 E2. bind_pair F3 S3 E3.
    intros H HJ.
    apply (MaybeNoteDef_numbered _ _ _ _ _ _ _ _ _ E1) in HJ.
    apply (NoteOperandUses_numbered _ _ _ _ _ _ _ _ E2) in HJ.
    match type of E3 with foldl _ _ ?l = _ =>
      apply (foldl_Res_invariant (fun a : Function * State => scan_numbered P a.1 a.2) _ l) in E3
    end; [|done|done| |done].
    2:{ intros [Fa Sa] V [Fb Sb] Ha. bind_ok. simpl in *.
        destruct (isUnionRep _ _); [|by intros [= <- <-]].
        intros H1. by eapply NoteUse_numbered. }
    simpl in E3. revert H.
    destruct returns_twice, (isKnownNonSafepoint _ _ _); intros [= <- <-];
      by apply (scan_numbered_same P F3 S3).
  - (* select *)
    destruct (negb (isSpecialPtr _ _)) eqn:Hsp; [by intros [= <- <-]|].
    destruct (negb (_ =? _)).
    + destruct (AllPtrNumbering S !! Inst) eqn:Hun; [by intros [= <- <-]|].
      destruct (LiftSelect _ _ _ _ _) as [[[n F1] S1]| |] eqn:E; bind_ok; [|done..].
      intros [= <- <-] HJ. apply (LiftSelect_numbered P fuel F S Inst n F1 S1); try done.
      apply (isSpecialPtr_isPointerTy (AddressSpace P)). by destruct (isSpecialPtr _ _).
    + bind_pair F1 S1 E1. intros E2 HJ.
      by apply (NoteOperandUses_numbered _ _ _ _ _ _ _ _ E2),
               (MaybeNoteDef_numbered _ _ _ _ _ _ _ _ _ E1).
  - (* phi *)
    destruct (negb (isSpecialPtr _ _)) eqn:Hsp; [by intros [= <- <-]|].
    destruct (negb (_ =? _)).
    + destruct (AllPtrNumbering S !! Inst) eqn:Hun; [by intros [= <- <-]|].
      destruct (LiftPhi _ _ _ _ _) as [[[n F1] S1]| |] eqn:E; bind_ok; [|done..].
      intros [= <- <-] HJ. apply (LiftPhi_numbered P T_pointer fuel F S Inst n F1 S1); try done.
      apply (isSpecialPtr_isPointerTy (AddressSpace P)). by destruct (isSpecialPtr _ _).
    + bind_pair F1 S1 E1. intros H HJ.
      apply (MaybeNoteDef_numbered _ _ _ _ _ _ _ _ _ E1) in HJ.
      apply (foldl_Res_invariant (fun a : Function * State => scan_numbered P a.1 a.2) _ _) in H;
        [done|done|done| |done].
      intros [Fa Sa] inc [Fb Sb] Ha. bind_ok. simpl in *.
      intros H1. by eapply NoteUse_numbered.
  - (* addrspacecast *)
    destruct (_ =? _); [apply MaybeNoteDef_numbered|by intros [= <- <-]].
  - (* alloca *)
    destruct (_ && _); intros [= <- <-]; [|done].
    by apply (scan_numbered_same P F S).
  - (* return *) apply NoteOperandUses_numbered.
Qed.

Lemma scan_block_numbered n fuel F S BB it F' S' :
  scan_block n fuel P F S BB it = Ok (F', S') ->
  scan_numbered P F S -> scan_numbered P F' S'.
Proof.
  revert F S it. induction n as [|n IH]; intros F S [Inst|]; simpl;
    try done; try (by intros [= <- <-]).
  destruct (scan_inst fuel P F S BB Inst) as [[F1 S1]| |] eqn:E; bind_ok; [|done..].
  intros H HJ. apply (IH _ _ _ H). by apply (scan_inst_numbered _ _ _ _ _ _ _ E).
Qed.

(** A well formed function has a settled numbering when LocalScan
    returns. *)
Lemma LocalScan_numbered fuel F F' S :
  well_formed (AddressSpace P) F -> LocalScan fuel P F = Ok (F', S) -> scan_numbered P F' S.
Proof.
  unfold LocalScan. intros Hwf H.
  apply (foldl_Res_invariant (fun a : Function * State => scan_numbered P a.1 a.2) _ (blocks F))
    in H; [done|done|done| |].
  - intros [Fa Sa] b [Fb Sb] Ha. unfold LocalScan_block. bind_ok.
    destruct (scan_block _ _ _ _ _ _ _) as [[F1 S1]| |] eqn:E; [|done..].
    intros [= <- <-]. simpl in *.
    apply scan_block_numbered in E.
    + by apply (scan_numbered_same P F1 S1).
    + by apply (scan_numbered_same P Fa Sa).
  - simpl. split; [done|].
    split; [intros x m Hx|intros x m y Hx];
      change (AllPtrNumbering State_init) with (∅ : gmap Value Z) in Hx;
      by rewrite lookup_empty in Hx.
Qed.
End ScanNumbered.

(** ** Base invariance in the states of the scan *)

Section ChainSettled.
Variable P : LateLowerGCFrame.

(** The number of the top of a chain of casts is the number of every value
    of the chain: the search from each ends at a base value settled with
    it. *)
Lemma chain_settled F S n (k : nat) : forall (w v : Value),
  scan_numbered P F S ->
  cast_chain (AddressSpace P) F k w v = true ->
  (exists fuel (r : Value) c,
     FindBaseValue_loop fuel (AddressSpace P) F S true w = Some (r, c) /\
     (c = false -> is_base (getKind F r) = true) /\ settled P F S r n) ->
  exists fuel (r : Value) c,
    FindBaseValue_loop fuel (AddressSpace P) F S true v = Some (r, c) /\
    (c = false -> is_base (getKind F r) = true) /\ settled P F S r n.
Proof.
  induction k as [|k IH]; intros w v HJ Hch Hacc.
  - simpl in Hch. apply andb_true_iff in Hch as [_ Heq%bool_decide_eq_true]. by subst w.
  - pose proof (cast_chain_special P _ _ _ _ Hch) as Hsp.
    pose proof (isSpecialPtr_isPointerTy _ _ Hsp) as Hp.
    simpl in Hch. apply andb_true_iff in Hch as [_ Hch].
    destruct (cast_operand F w) as [x|] eqn:Hop; [|done].
    pose proof (cast_operand_base_step (AddressSpace P) F w x Hop) as Hb.
    apply (IH x v HJ Hch). destruct Hacc as (fuel & r & c & Hw & Hbase & Hset).
    destruct HJ as [_ [_ Hs]].
    destruct (AllPtrNumbering S !! w) as [mw|] eqn:Hcw.
    + assert (FindBaseValue_loop 1 (AddressSpace P) F S true w = Some (w, true)) as Hw1.
      { apply FindBaseValue_loop_cached. rewrite (isCached_pointer F S w Hp), Hcw.
        apply bool_decide_eq_true. by eexists. }
      pose proof (FindBaseValue_loop_det _ _ _ _ _ _ _ _ Hw Hw1) as [= -> ->].
      destruct Hset as [Hm|(_ & Hun & _)]; [|congruence].
      apply (Hs w n x Hm Hp Hb).
    + destruct (walk_pointer_step (AddressSpace P) F S fuel w x r c Hp Hcw Hb Hw) as [fuel' Hw'].
      by exists fuel', r, c.
Qed.

Lemma FindBaseValue_nocache_mono F S S' fuel fuel' (y x : Value) :
  (fuel <= fuel')%nat ->
  FindBaseValue fuel (AddressSpace P) F S y false = Ok x ->
  FindBaseValue fuel' (AddressSpace P) F S' y false = Ok x.
Proof.
  intros Hle. unfold FindBaseValue.
  destruct (FindBaseValue_loop fuel (AddressSpace P) F S false y) as [[r c]|] eqn:E; [|done].
  apply (walk_nocache_mono _ _ _ _ fuel' _ _ Hle) in E.
  assert (FindBaseValue_loop fuel' (AddressSpace P) F S' false y = Some (r, c)) as ->; [|done].
  rewrite <- E. clear. revert y. induction fuel' as [|f IH]; intros y; [done|]. simpl.
  destruct (base_step (AddressSpace P) F y); [apply IH|done].
Qed.

(** LiftSelect gives an unlifted select -1, with fuel enough. *)
Lemma unlifted_select_lift F S (r : Value) :
  well_formed (AddressSpace P) F -> unlifted_select (AddressSpace P) F r ->
  exists fuel0, forall fuel, (fuel0 <= fuel)%nat ->
    exists F', LiftSelect fuel (AddressSpace P) F S r = Ok (-1, F', S).
Proof.
  intros Hwf Hsel. pose proof Hsel as (_ & _ & fuel0 & C & T & Fv & TB & FB & HK & HT & HF & Hcond).
  exists fuel0. intros fuel Hle.
  pose proof (FindBaseValue_nocache_mono F State_init S fuel0 fuel T TB Hle HT) as HT'.
  pose proof (FindBaseValue_nocache_mono F State_init S fuel0 fuel Fv FB Hle HF) as HF'.
  assert (exists n' F' S', LiftSelect fuel (AddressSpace P) F S r = Ok (n', F', S'))
    as (n' & F' & S' & E).
  { unfold LiftSelect. rewrite HK, HT'. simpl. rewrite HF'. simpl.
    destruct (MaybeExtractUnion (AddressSpace P) F TB r) as [Fa TBa].
    destruct (MaybeExtractUnion (AddressSpace P) Fa FB r) as [Fb FBa].
    match goal with |- context [let '(_, _) := (if ?b then ?x else ?y) in _] =>
      destruct (if b then x else y) as [Fc TBc] end.
    match goal with |- context [let '(_, _) := (if ?b then ?x else ?y) in _] =>
      destruct (if b then x else y) as [Fd FBd] end.
    match goal with |- context [if ?b then Ok _ else _] => destruct b end;
      eexists; eexists; eexists; reflexivity. }
  exists F'. rewrite E.
  apply LiftSelect_spec in E as (_ & _ & C' & T' & Fv' & TB' & FB' & HK' & HT2 & HF2 & Hcase);
    [|done].
  destruct Hcase as [(_ & -> & ->)|(Hc' & _)]; [done|].
  destruct Hwf as (_ & Hc & _).
  pose proof (unlifted_select_det P fuel F S r C' T' Fv' TB' FB' Hc Hsel HK' HT2 HF2).
  congruence.
Qed.

(** Number gives a pointer the number that the base value of the search
    from it is settled with. *)
Lemma Number_settled_total F S (v : Value) n :
  scan_numbered P F S ->
  isSpecialPtr (AddressSpace P) (getType F v) = true ->
  (exists fuel (r : Value) c,
     FindBaseValue_loop fuel (AddressSpace P) F S true v = Some (r, c) /\
     (c = false -> is_base (getKind F r) = true) /\ settled P F S r n) ->
  exists fuel F2 S2, Number fuel P F S v = Ok (n, F2, S2).
Proof.
  intros [Hwf Hs] Hsp (fuel & r & c & Hw & Hbase & Hset).
  destruct Hset as [Hm|(-> & Hun & Hsel)].
  - exists fuel, F, S. rewrite (Number_of_walk P fuel F S v r c Hsp Hw Hbase).
    by apply Number_at_cached.
  - destruct (unlifted_select_lift F S r Hwf Hsel) as (fuel0 & Hlift).
    destruct (Hlift (Nat.max fuel fuel0)) as [F' E]; [lia|].
    apply (FindBaseValue_loop_mono _ _ _ _ (Nat.max fuel fuel0)) in Hw; [|lia].
    exists (Nat.max fuel fuel0), F'. eexists.
    rewrite (Number_of_walk P _ F S v r c Hsp Hw Hbase).
    unfold Number_at. rewrite Hun.
    destruct Hsel as (-> & -> & _). rewrite E. simpl. reflexivity.
Qed.

(** After Number has numbered a pointer, the search from it ends at a base
    value settled with its number. *)
Lemma Number_accounts fuel F S (w : Value) n F1 S1 :
  isPointerTy (getType F w) = true -> fresh F ->
  Number fuel P F S w = Ok (n, F1, S1) ->
  exists fuel' (r : Value) c,
    FindBaseValue_loop fuel' (AddressSpace P) F1 S1 true w = Some (r, c) /\
    (c = false -> is_base (getKind F1 r) = true) /\ settled P F1 S1 r n.
Proof.
  intros Hp Hf HN.
  destruct (Number_inv P _ _ _ _ _ _ _ HN) as (r & c & Hw & Hbase & Hat).
  destruct (Number_at_effect P _ _ _ _ _ _ _ _ Hat) as [(Hr & -> & ->)|(He & Hv & Hg)].
  - exists fuel, r, c. split; [done|]. split; [done|]. by left.
  - exists 1%nat, w, true. split; [|split; [done|by left]].
    apply FindBaseValue_loop_cached.
    assert (getType F1 w = getType F w) as HT.
    { apply (below_get F F1 He). by apply pointer_exists. }
    rewrite isCached_pointer by by rewrite HT. apply bool_decide_eq_true. by eexists.
Qed.
End ChainSettled.

Lemma casts_typed_b_sound A F : casts_typed_b A F = true -> casts_typed A F.
Proof.
  intros H x y Hb. unfold casts_typed_b in H. rewrite forallb_forall in H.
  destruct (values F !! x) as [vi|] eqn:Hx.
  2:{ unfold base_step, getKind in Hb. by rewrite Hx in Hb. }
  specialize (H (x, vi)). simpl in H. rewrite Hb in H.
  assert (negb (isUnionRep A (getType F x)) &&
          (negb (isPointerTy (getType F x)) || isPointerTy (getType F y)
           || match base_step A F y with None => true | Some _ => false end) = true) as H'.
  { apply H, list_elem_of_In, elem_of_map_to_list, Hx. }
  apply andb_true_iff in H' as [Hu Ht]. split; [by destruct (isUnionRep _ _)|].
  intros Hp Hp'. rewrite Hp, Hp' in Ht. simpl in Ht.
  by destruct (base_step A F y).
Qed.

(** C7.  Let T_prjlvalue be a pointer type.  The scan keeps the function
    well formed and the numbering settled ([scan_numbered]): they are so at
    the start, in the empty cache of a well formed function, they stay so
    when Number, NumberVector and the body of the loop of LocalScan (with
    its calls of LiftSelect and LiftPhi) return, and they are so when
    LocalScan returns.  In every such state let [w] be obtained from the
    pointer [v] of a special address space by a chain of [k] bitcasts and
    GEPs.  Then [v] and [w] have the same identifier in the cache when both
    are cached; when Number gives the identifier [n] to [v], it then gives
    [n] to [w] and leaves the function and the state as they are; and when
    Number gives [n] to [w] first, it then gives [n] to [v] (with fuel
    enough), and no other identifier with any fuel. *)
Theorem base_invariance (P : LateLowerGCFrame) :
  T_prjlvalue_pointer P = true ->
  (forall F, well_formed (AddressSpace P) F -> scan_numbered P F State_init) /\
  (forall fuel F S V n F1 S1,
     scan_numbered P F S -> Number fuel P F S V = Ok (n, F1, S1) -> scan_numbered P F1 S1) /\
  (forall fuel F S V Nums S1,
     scan_numbered P F S -> NumberVector fuel P F S V = Ok (Nums, S1) ->
     scan_numbered P F S1) /\
  (forall fuel F S BB Inst F1 S1,
     scan_numbered P F S -> scan_inst fuel P F S BB Inst = Ok (F1, S1) ->
     scan_numbered P F1 S1) /\
  (forall fuel F F' S,
     well_formed (AddressSpace P) F -> LocalScan fuel P F = Ok (F', S) ->
     scan_numbered P F' S) /\
  (forall F S (k : nat) (v w : Value),
     scan_numbered P F S -> cast_chain (AddressSpace P) F k w v = true ->
     (forall nv nw, AllPtrNumbering S !! v = Some nv -> AllPtrNumbering S !! w = Some nw ->
                    nv = nw) /\
     (forall fuel n F1 S1,
        Number fuel P F S v = Ok (n, F1, S1) ->
        Number (fuel + k) P F1 S1 w = Ok (n, F1, S1)) /\
     (forall fuel n F1 S1,
        Number fuel P F S w = Ok (n, F1, S1) ->
        (forall fuel' n' F2 S2, Number fuel' P F1 S1 v = Ok (n', F2, S2) -> n' = n) /\
        exists fuel' F2 S2, Number fuel' P F1 S1 v = Ok (n, F2, S2))).
Proof.
  intros HP. split; [|split; [|split; [|split; [|split]]]].
  - intros F Hwf. split; [done|].
    split; [intros x m Hx|intros x m y Hx];
      change (AllPtrNumbering State_init) with (∅ : gmap Value Z) in Hx;
      by rewrite lookup_empty in Hx.
  - intros fuel F S V n F1 S1 HJ HN. by apply (Number_numbered P HP fuel F S V n).
  - intros fuel F S V Nums S1 HJ HN. by apply (NumberVector_numbered P fuel F S V Nums).
  - intros fuel F S BB Inst F1 S1 HJ HN. by apply (scan_inst_numbered P HP fuel F S BB Inst).
  - intros fuel F F' S Hwf HL. by apply (LocalScan_numbered P HP fuel F).
  - intros F S k v w HJ Hch. pose proof HJ as [Hwf Hs]. pose proof Hwf as (Hf & Hc & Ht).
    pose proof (numbering_settled_consistent P F S Hwf Hs) as Hcons.
    pose proof (cast_chain_bottom P _ _ _ _ Hch) as Hvsp.
    pose proof (cast_chain_special P _ _ _ _ Hch) as Hwsp.
    split; [|split].
    + intros nv nw Hv Hw. symmetry.
      apply (chain_cached_number P F S v k w nw 1%nat v true nv F S Hcons Hch Hw).
      * apply FindBaseValue_loop_cached.
        rewrite isCached_pointer by by apply (isSpecialPtr_isPointerTy (AddressSpace P)).
        apply bool_decide_eq_true. by eexists.
      * by apply Number_at_cached.
    + intros fuel n F1 S1 HN. by apply (base_invariance_forward P F S fuel k v w n F1 S1).
    + intros fuel n F1 S1 HN. split.
      * by apply (base_invariance_backward P F S fuel k v w n F1 S1).
      * pose proof (Number_numbered P HP fuel F S w n F1 S1 HJ HN) as HJ1.
        destruct (Number_inv P _ _ _ _ _ _ _ HN) as (r & c & _ & _ & Hat).
        assert (extends F F1) as He.
        { destruct (Number_at_effect P _ _ _ _ _ _ _ _ Hat) as [(_ & -> & _)|(He & _)];
            [apply extends_refl|done]. }
        apply Number_settled_total; [done| |].
        { destruct (below_get F F1 He v) as [_ ->]; [|done].
          apply pointer_exists; [done|]. by apply (isSpecialPtr_isPointerTy (AddressSpace P)). }
        apply (chain_settled P F1 S1 n k w v HJ1).
        { by apply (cast_chain_extends P F F1). }
        apply (Number_accounts P fuel F S w n F1 S1); [|done|done].
        by apply (isSpecialPtr_isPointerTy (AddressSpace P)).
Qed.

Lemma base_invariance_witness :
  well_formed (AddressSpace (Examples.pass_of Examples.casts)) Examples.casts /\
  scan_numbered (Examples.pass_of Examples.casts) Examples.casts
    (Examples.scanned_state Examples.casts) /\
  (exists S1,
     Number 5 (Examples.pass_of Examples.casts) Examples.casts State_init 13%nat
       = Ok (0, Examples.casts, S1) /\
     exists fuel' F2 S2,
       Number fuel' (Examples.pass_of Examples.casts) Examples.casts S1 11%nat
         = Ok (0, F2, S2)) /\
  (exists S1,
     Number 5 (Examples.pass_of Examples.casts) Examples.casts
       (Examples.scanned_state Examples.casts) 11%nat = Ok (0, Examples.casts, S1) /\
     Number 7 (Examples.pass_of Examples.casts) Examples.casts S1 13%nat
       = Ok (0, Examples.casts, S1)).
Proof.
  assert (T_prjlvalue_pointer (Examples.pass_of Examples.casts) = true) as HP
    by (vm_compute; reflexivity).
  assert (well_formed (AddressSpace (Examples.pass_of Examples.casts)) Examples.casts) as Hwf.
  { split; [apply fresh_b_sound; vm_compute; reflexivity|].
    split; [apply closed_b_sound; vm_compute; reflexivity|].
    apply casts_typed_b_sound. vm_compute. reflexivity. }
  assert (LocalScan 100 (Examples.pass_of Examples.casts) Examples.casts
          = Ok (Examples.casts, Examples.scanned_state Examples.casts)) as HL
    by (vm_compute; reflexivity).
  assert (cast_chain (AddressSpace (Examples.pass_of Examples.casts)) Examples.casts 2
            13%nat 11%nat = true) as Hch by (vm_compute; reflexivity).
  destruct (base_invariance (Examples.pass_of Examples.casts) HP)
    as (Hinit & _ & _ & _ & Hscan & Hbase).
  pose proof (Hscan 100%nat _ _ _ Hwf HL) as Hs.
  split; [exact Hwf|]. split; [exact Hs|]. split.
  - eexists. split; [vm_compute; reflexivity|].
    refine (proj2 (proj2 (proj2 (Hbase Examples.casts State_init 2%nat 11%nat 13%nat
                                   (Hinit _ Hwf) Hch)) 5%nat 0 Examples.casts _ _)).
    vm_compute. reflexivity.
  - eexists. split; [vm_compute; reflexivity|].
    refine (proj1 (proj2 (Hbase Examples.casts (Examples.scanned_state Examples.casts)
                            2%nat 11%nat 13%nat Hs Hch)) 5%nat 0 Examples.casts _ _).
    vm_compute. reflexivity.
Defined.
